(* ===== verification/_CoqProject ===== *)
-Q . S2P
Prelude.v
Str.v
Json.v
Validation.v
McpSchema.v
ClaimTypes.v
Outbox.v
OutboxCodec.v
OutboxFacts.v
OutboxProps.v
HubTypes.v
NetLocation.v
LinkRoute.v
Candidates.v
Hub.v
HubProps.v
Redis.v
Channels.v
Messages.v
StreamEntry.v
ReplayScript.v
OutboxHub.v
SyncStore.v
StreamFacts.v
Bus.v
Inbox.v
Ops.v
CloudSync.v
OutboxClient.v
ReplayHttp.v
Claims.v
ClaimInstances.v
ClaimFacts.v
ChannelProps.v
ClaimProps.v
ReplayFacts.v
HubInstances.v
SyncFacts.v
SyncInstances.v
CloudHttp.v
SyncStoreProps.v
SyncSteps.v
SyncLive.v
SyncProps.v
OutboxHubProps.v
FlushFacts.v
DeliveryProps.v
ClientProps.v
BusFacts.v
BusInstances.v
InboxProps.v
InboxRedis.v
SummaryProps.v
InboxDemo.v
ListingProps.v
PostProps.v
TaskProps.v
OpsProps.v
Tokens.v
PgStore.v
PgWriter.v
PgProps.v
PgStoreProps.v
PgDemo.v
Consistency.v
ConsistencyProps.v
ScanProps.v
ReconcileProps.v
RepairProps.v
ScanDemo.v
Programs.v
CloudTokens.v
CloudTokenFacts.v
CloudTokenProps.v
CloudTokenDeploy.v
CloudTokenRevoke.v
CloudTokenMint.v
CloudTokenDemo.v
Settings.v
SettingsProps.v
