(* ===== verification/Prelude.v ===== *)
(** * agent-bus: a verified model of the hub, its clients and its stores

    agent-bus lets coding agents on several machines exchange messages, claim
    resources and share state through hubs. This development models the logic of
    the Rust library [src/crates/agent-bus-core/src], of cloud synchronisation in
    [src/crates/agent-bus-http/src] and of the cloud credentials in
    [src/crates/agent-bus-cli/src], and proves what makes them correct. File names
    below are relative to the core's directory; those of the other crates are given
    with their crate.

    ** The parts and how they interact

    A process takes its settings from the environment, a configuration file and
    defaults ([settings.rs]). A client call is checked against its tool's schema
    ([mcp_dispatch.rs]) and its field guards ([validation.rs]). The client finds a
    hub ([hub.rs]) among the configured candidates ([hub_candidates.rs]), ordered by
    the detected network location ([network_location.rs]) and probed along link
    routes ([link_route.rs]); a good route is remembered ([hub_cache.rs]). A call
    that may be delivered later is written to the durable outbox ([outbox.rs]) and
    sent at the next flush: [outbox_client.rs] opens the journal and chooses the
    routes, the native transport of [agent-bus-cli] posts each request to the replay
    route of [agent-bus-http], and [outbox_hub.rs] runs it as a Redis script
    ([outbox_replay.lua]) and stores its row ([outbox_pg.rs]).

    At the hub the stream in Redis is what agents share. [redis_bus.rs] prepares and
    posts messages, tracks acknowledgements, appends notifications and lists;
    [ops/] has the typed operations over it: sending, the inbox with its cursor
    lanes, threads, task queues, subscriptions, and contexts that fit a token budget
    ([token.rs]). Direct messages, groups and ownership claims are [channels.rs] and
    [ops/claim.rs]. A background writer copies messages and presences to PostgreSQL
    ([postgres_store.rs]); [store_consistency.rs] compares the two stores and
    [reconcile.rs] repairs the table from the stream. [cloud_sync.rs] of
    [agent-bus-http] replicates hubs through a cloud tier, over [sync_store.rs];
    the credentials of that tier are made, deployed and revoked by
    [cloud_tokens.rs] of [agent-bus-cli].

    ** The files

    Shared: [Prelude] (results and the [let?] notation, machine integers, stable
    sorting, positions in lists, tactics and the hint database [bus]); [Str] (byte
    strings with Rust's operations; full Unicode is the classes [UnicodeCase] and
    [UnicodeAlnum], fixed on ASCII); [Json] ([serde_json] values).

    Clients.
    - [Validation] ([error.rs], [validation.rs]); [McpSchema] ([mcp_dispatch.rs]: tool
      table, argument gate, and a reference semantics of the schemas).
    - [Outbox]: the journal with every point at which the file system may fail.
      [OutboxCodec] is a concrete codec, [OutboxFacts] the replay lemmas,
      [OutboxProps] the properties. [OutboxClient] ([outbox_client.rs]), [ClientProps].
    - [NetLocation], [LinkRoute], [Candidates], [HubTypes], [Hub], [HubProps]:
      finding a hub, serially and racing, both instances of one [StageRunner].
    - [Settings], [SettingsProps] ([settings.rs]): reading the configuration as a
      program of file-system calls, the tiers of every setting, validation.

    The hub in Redis.
    - [Redis]: programs of commands with the class [RedisServer] and its laws
      [RedisLaws], interleaving, and a server in memory. [ClaimTypes], [Channels],
      [ChannelProps], [Claims], [ClaimInstances], [ClaimFacts], [ClaimProps]:
      channels and claims over it.
    - [ReplayScript]: scripts over typed keys, where any write may fail and leaves
      what was written before. [OutboxHub]: [accept] around the replay script.
      [ReplayHttp]: the bearer gate, the replay handler, the native transport.
      [ReplayFacts], [OutboxHubProps] (the sending machine and the refinement),
      [FlushFacts], [DeliveryProps] (client, network and hub together),
      [HubInstances].
    - [Messages] (preparing a message), [StreamEntry] (reading it back),
      [StreamFacts] (how a stream changes under its users).
    - [Bus]: operations over one connection, command by command: others act between
      any two commands, and each may be lost before or after its effect. [BusFacts],
      [BusInstances]; [PostProps] and [ListingProps] on posting and listing.
    - [Inbox] ([ops/inbox.rs]: [check_inbox] over its seam [InboxStore], lanes,
      summaries), [InboxProps] (against the class [InboxLaws]), [InboxRedis] (the
      connection obeys it), [SummaryProps] (lanes and summaries), [InboxDemo].
    - [Ops], [OpsProps], [TaskProps]: sending, threads, tasks, subscriptions.
      [Tokens]: token estimates and compaction.

    PostgreSQL.
    - [PgStore] (circuit breaker, retries, kept connection, storing, backfilling) and
      [PgWriter] (channel, batching task, flush, shutdown); [PgProps], [PgStoreProps],
      [PgDemo].
    - [Consistency] ([store_consistency.rs], [reconcile.rs]); [ConsistencyProps],
      [ScanProps], [ReconcileProps], [RepairProps], [ScanDemo].

    The cloud.
    - [SyncStore] ([sync_store.rs]), [CloudSync] (configuration, state file, engine),
      [CloudHttp] (requests and answers); [SyncFacts] (the class [StreamView] and the
      engine's invariant), [SyncSteps], [SyncLive], [SyncProps], [SyncStoreProps],
      [SyncInstances].
    - [Programs]: programs of calls to the system with their runs, and the lemmas and
      tactics for them. [CloudTokens] ([cloud_tokens.rs]);
      [CloudTokenFacts] (bounds on calls, what is published), [CloudTokenProps],
      [CloudTokenDeploy], [CloudTokenRevoke] (and the whole command), [CloudTokenMint],
      [CloudTokenDemo].

    A function of the source is the definition of the same name; a definition that
    stands for a loop body or a test inside a function is described at its place.
    State that the source threads through [&mut self] is passed and returned.

    ** What the theorems show

    - Settings: what validates was read and parsed or is the default, its hubs are
      valid candidates, the backends are local where their URLs name a host, and the
      server is bound locally or with a token; no file that was there is changed.
    - Claims: run one after another, the operations keep granted claims free of
      conflicts for every server behaviour; each decides and stores what it documents.
      Interleaved they do not: two requests that have both read the claims before either
      writes are both granted, on every schedule, server and failure.
    - Outbox: an accepted request survives a restart, if its arguments are nested no
      deeper than the reader of the file allows, and otherwise makes the file unreadable;
      a failed one leaves the file with it, without it, or refused; what is sent is
      pending, in order, at most once a flush; with final answers and room on the disk
      enough flushes drain it; the answer to a submission is decided by what the hub
      answered to it.
    - Delivery: the hub refines a machine that sends a message once, or dies on the
      way and then answers pending ([hub_refines]); so a message is in the stream at
      most once, and once an answer or a flush said applied, exactly once, through
      every loss on the network, failed write and other user of the hub.
    - Hub: what resolution reports is what it found, authority before fallback before
      cloud; racing finds the same store as walking. The token of a request is that of the
      candidate with the longest base URL over it, and the global token goes to private
      hosts only; accepted candidates are well-formed.
    - Posting and listing: what was posted reads back; a failed post has stored the
      message whole or not at all; a listing over pages is the one that a single look
      would give, while others append and trim.
    - Inbox: each matching notification is delivered to a lane at most once, in order,
      none that is retained is passed over, and enough checks reach the end. A
      task queue refines a first-in first-out list between concurrent workers.
    - PostgreSQL: every write is accounted for as stored, failed, dropped or pending;
      a flush that signals has tried all before it; a shutdown drains the channel; one
      row that the database refuses opens the breaker and loses what follows.
    - Stores: over stores at rest a check says [ok] exactly when both hold the same
      identifiers of the range it reports, and a repair within its cap leaves none that
      only the stream holds. Whatever fails, a repair adds at most its cap and nothing
      that was there.
    - Synchronisation: the cursor passes only what the cloud has disposed of, through
      every failure and restart; a working cloud and store are caught up with; a
      pulled message is stored once; an answer to a push must account for every
      message; a pull ends.
    - Cloud credentials: the deployed secret is replaced only by an upload or a
      revocation, under the lock, with a map read back from the recovery copy and named
      by the evidence of the manifest that was read; a revocation takes exactly the selected tokens, leaves the active
      client, an operator, a hub and a replacement for each, and publishes the map only
      after production was seen to reject every one of them; minting keeps every entry; a
      dry run only looks, but for a manifest that vanishes as it is looked for.
    - Validation, tokens: the fitted body of a known schema validates, up to two stated
      exceptions; compaction keeps the newest messages that fit.

    ** Interfaces and their laws

    Third-party code is a class or an argument: Unicode tables, JSON text, SHA-256,
    [chrono], the URL parser, compression, the environment, the transport, probes,
    files, the Redis server, the database and the cloud. Laws state documented
    behaviour only: what is written reads back (JSON text up to the nesting its parser
    allows), a command that is lost may or may not
    have had its effect, time does not go back, identifiers of a stream grow, others
    append to a stream and trim it. Components meet at classes: [InboxStore] with
    [InboxLaws], [LocalStore] and [CloudApi] with [StreamView], [RedisServer] with
    [RedisLaws], [ClaimTool] with [ClaimToolLaws] (met by the [claim_resource] tool of
    [Claims] run on the hub's keys); the clients' theorems are against the class, and the
    implementation's discharge it. What others may do includes what
    the server does by itself, expiry above all. Programs over the system have no laws:
    their theorems hold for every answer. Every theorem with a hypothesis has a witness
    at concrete instances.

    ** Bounds and fuel

    Integers are [Z] with the source's checked, saturating or truncating operations
    written out; sizes and limits are the source's constants. Recursion is structural
    except for loops over the server's answers, which have fuel; running out is a value
    of its own ([None]), and a theorem says how much is enough: for a listing and for
    the scans of a check and a repair more than the stream's length, for the inbox one
    more than its scan limit (built in), for a pull more than the positions between its
    cursor and the cloud's last, for opening the journal the 1200 sleeps of ten milliseconds
    in its twelve seconds. PostgreSQL's three attempts are its constant. Decimal
    printing has fuel of forty digits, twice what 64 bits need. A Redis [SCAN] loop is
    one command whose reply is the concatenation of its batches, with prefixes that hold
    no pattern characters; [HGETALL] may answer in any order.

    ** What is not modelled

    The HTTP server's other routes, the MCP server, the command line with its remote
    dispatch, and the terminal output are glue around the operations here: they read
    arguments, call and print. Listings, counts and aggregates in PostgreSQL
    ([postgres_store.rs], [history_catalog.rs]) are texts of SQL whose meaning is the
    database's; the health probe is a question to Redis and its display; profiles,
    export, bootstrap and records without behaviour of their own are left out, as are
    the channel summary, the wrappers of [ops/channel.rs], [ops/admin.rs] and
    [ops/inventory.rs], and the in-memory ownership tracker, which only warns.

    Within the modelled parts: power failures after a rename that was not synced; the
    system calls behind private files ([outbox_private.rs]), whose outcomes are inputs;
    sockets, threads and the async runtime, whose orders of completion and of
    interleaving are arguments; control of the external tools, which end with an output
    or an error; logging and printing. A panic of a task is the end of it ([None]). The
    writer's flush does not look at its channel, so it is one step against the senders;
    a presence stored without the writer is not tracked to its row. Reports of
    [Consistency] hold instants in [chrono]'s range. Where Windows and Unix differ the
    model is the Unix build. *)

From Stdlib Require Import ZArith Lia Ascii.
From stdpp Require Import base option list gmap strings sorting.

Set Default Goal Selector "!".

(** ** Results

    Rust's [Result<A, E>], with the [?] operator as a notation. *)

Inductive result (E A : Type) : Type :=
  | Ok (a : A)
  | Err (e : E).
Arguments Ok {E A} _.
Arguments Err {E A} _.

Declare Scope bus_scope.
Delimit Scope bus_scope with bus.

Definition rbind {E A B} (c : result E A) (k : A → result E B) : result E B :=
  match c with
  | Ok a => k a
  | Err e => Err e
  end.

Notation "'let?' x ':=' c 'in' k" := (rbind c (fun x => k))
  (at level 10, x pattern, c at level 200, k at level 200) : bus_scope.

Definition map_err {E F A} (f : E → F) (c : result E A) : result F A :=
  match c with
  | Ok a => Ok a
  | Err e => Err (f e)
  end.

Definition ok_or {E A} (e : E) (o : option A) : result E A :=
  match o with
  | Some a => Ok a
  | None => Err e
  end.

Definition is_ok {E A} (c : result E A) : bool :=
  match c with Ok _ => true | Err _ => false end.

#[export] Instance result_eq_dec {E A} `{EqDecision E, EqDecision A} :
  EqDecision (result E A).
Proof. solve_decision. Defined.

#[global] Open Scope bus_scope.

Lemma rbind_Ok {E A B} (c : result E A) (k : A → result E B) b :
  rbind c k = Ok b ↔ ∃ a, c = Ok a ∧ k a = Ok b.
Proof. destruct c; simpl; naive_solver. Qed.

Lemma rbind_Err {E A B} (c : result E A) (k : A → result E B) e :
  rbind c k = Err e ↔ c = Err e ∨ ∃ a, c = Ok a ∧ k a = Err e.
Proof. destruct c; simpl; naive_solver. Qed.

Lemma map_err_Ok {E F A} (f : E → F) (c : result E A) a :
  map_err f c = Ok a ↔ c = Ok a.
Proof. destruct c; simpl; naive_solver. Qed.

Lemma ok_or_Ok {E A} (e : E) (o : option A) a :
  ok_or e o = Ok a ↔ o = Some a.
Proof. destruct o; simpl; naive_solver. Qed.

(** ** Machine integers

    Unsigned 64-bit values are [Z]; the operations below are the checked and
    saturating ones the code calls. *)

Definition U64_MAX : Z := 18446744073709551615.
Definition I64_MAX : Z := 9223372036854775807.

Definition checked_add (a b : Z) : option Z :=
  if decide (a + b ≤ U64_MAX)%Z then Some (a + b)%Z else None.
Definition checked_mul (a b : Z) : option Z :=
  if decide (a * b ≤ U64_MAX)%Z then Some (a * b)%Z else None.
Definition saturating_add (a b : Z) : Z := Z.min U64_MAX (a + b).
Definition saturating_sub (a b : Z) : Z := Z.max 0 (a - b).

Definition is_u64 (z : Z) : Prop := (0 ≤ z ≤ U64_MAX)%Z.

Lemma checked_add_Some a b c :
  checked_add a b = Some c ↔ c = (a + b)%Z ∧ (a + b ≤ U64_MAX)%Z.
Proof. unfold checked_add. case_decide; naive_solver. Qed.

Lemma checked_mul_Some a b c :
  checked_mul a b = Some c ↔ c = (a * b)%Z ∧ (a * b ≤ U64_MAX)%Z.
Proof. unfold checked_mul. case_decide; naive_solver. Qed.

(** ** Stable sorting

    Rust's [sort_by] and [sort_by_key] are stable: insertion sort that puts an
    element before the first strictly greater one computes the same list. *)

Section sort.
Context {A : Type} (leb : A → A → bool).

Fixpoint insert_sorted (x : A) (l : list A) : list A :=
  match l with
  | [] => [x]
  | y :: l' => if leb x y then x :: y :: l' else y :: insert_sorted x l'
  end.

(** Elements are inserted from the right, so equal keys keep their order. *)
Fixpoint sort_by (l : list A) : list A :=
  match l with
  | [] => []
  | x :: l' => insert_sorted x (sort_by l')
  end.

Lemma insert_sorted_perm x l : insert_sorted x l ≡ₚ x :: l.
Proof.
  induction l as [|y l IH]; simpl; [done|].
  destruct (leb x y); [done|]. rewrite IH. apply Permutation_swap.
Qed.

Lemma sort_by_perm l : sort_by l ≡ₚ l.
Proof.
  induction l as [|x l IH]; simpl; [done|].
  by rewrite insert_sorted_perm, IH.
Qed.

Lemma length_sort_by l : length (sort_by l) = length l.
Proof. by rewrite (sort_by_perm l). Qed.

Lemma elem_of_sort_by x l : x ∈ sort_by l ↔ x ∈ l.
Proof. by rewrite (sort_by_perm l). Qed.

Hypothesis leb_total : ∀ x y, leb x y = true ∨ leb y x = true.
Hypothesis leb_trans : ∀ x y z, leb x y = true → leb y z = true → leb x z = true.

Lemma insert_sorted_sorted x l :
  StronglySorted (λ a b, leb a b = true) l →
  StronglySorted (λ a b, leb a b = true) (insert_sorted x l).
Proof.
  induction 1 as [|y l Hl IH Hy]; simpl.
  { repeat constructor. }
  destruct (leb x y) eqn:E.
  - constructor; [by constructor|]. constructor; [done|].
    eapply Forall_impl; [exact Hy|]. naive_solver.
  - constructor; [done|]. rewrite insert_sorted_perm. constructor; [|done].
    destruct (leb_total x y); [congruence|done].
Qed.

Lemma sort_by_sorted l : StronglySorted (λ a b, leb a b = true) (sort_by l).
Proof.
  induction l; simpl; [constructor|]. by apply insert_sorted_sorted.
Qed.
End sort.

(** Sorting by a two-valued rank keeps the order within each half. *)
Lemma insert_sorted_two {A} (f : A → bool) (leb : A → A → bool) x l l' :
  (∀ x y, leb x y = (f x || negb (f y))) → f x = false →
  Forall (λ y, f y = true) l → Forall (λ y, f y = false) l' →
  insert_sorted leb x (l ++ l') = l ++ x :: l'.
Proof.
  intros Hleb Hx Hl Hl'. induction Hl as [|y l Hy _ IH]; simpl.
  - destruct Hl' as [|y l' Hy _]; simpl; [done|]. by rewrite Hleb, Hx, Hy.
  - by rewrite Hleb, Hx, Hy; simpl; rewrite IH.
Qed.

Lemma sort_by_two {A} (f : A → bool) (leb : A → A → bool) l :
  (∀ x y, leb x y = (f x || negb (f y))) →
  sort_by leb l = List.filter f l ++ List.filter (λ x, negb (f x)) l.
Proof.
  intros Hleb. induction l as [|x l IH]; simpl; [done|]. rewrite IH.
  destruct (f x) eqn:Ex; simpl.
  { destruct (List.filter f l ++ _) as [|y r]; [done|]. simpl. by rewrite Hleb, Ex. }
  apply (insert_sorted_two f); try done; apply Forall_forall; intros y;
    rewrite list_elem_of_In, filter_In; intros [_ Hy]; [done|].
  by apply negb_true_iff in Hy.
Qed.

(** ** Small list helpers *)

(** Position-tagged elements, Rust's [iter().enumerate()]. *)
Fixpoint enumerate_from {A} (n : nat) (l : list A) : list (nat * A) :=
  match l with
  | [] => []
  | x :: l' => (n, x) :: enumerate_from (S n) l'
  end.
Definition enumerate {A} (l : list A) : list (nat * A) := enumerate_from 0 l.

Lemma elem_of_enumerate_from {A} (l : list A) n i x :
  (i, x) ∈ enumerate_from n l ↔ ∃ k, i = n + k ∧ l !! k = Some x.
Proof.
  revert n. induction l as [|y l IH]; intros n; simpl.
  { rewrite elem_of_nil. naive_solver. }
  rewrite elem_of_cons, IH. split.
  - intros [?|(k&->&Hk)]; simplify_eq.
    + exists 0. split; [lia|done].
    + exists (S k). split; [lia|done].
  - intros ([|k]&->&Hk); simplify_eq/=.
    + left. f_equal; lia.
    + right. exists k. split; [lia|done].
Qed.

Lemma elem_of_enumerate {A} (l : list A) i x :
  (i, x) ∈ enumerate l ↔ l !! i = Some x.
Proof. unfold enumerate. rewrite elem_of_enumerate_from. naive_solver. Qed.

Lemma enumerate_from_fst {A} (l : list A) n :
  (enumerate_from n l).*1 = seq n (length l).
Proof. revert n. induction l; intros n; simpl; [done|]. f_equal. by apply IHl. Qed.

Lemma enumerate_from_snd {A} (l : list A) n : (enumerate_from n l).*2 = l.
Proof. revert n. induction l; intros n; simpl; [done|]. f_equal. by apply IHl. Qed.

Lemma lookup_enumerate_from {A} (l : list A) n i :
  enumerate_from n l !! i = (λ x, (n + i, x)) <$> l !! i.
Proof.
  revert n i. induction l as [|x l IH]; intros n [|i]; simpl; try done.
  - by rewrite Nat.add_0_r.
  - rewrite IH. destruct (l !! i); simpl; [|done]. do 2 f_equal. lia.
Qed.

Lemma length_enumerate_from {A} (l : list A) n : length (enumerate_from n l) = length l.
Proof. revert n. induction l; intros n; simpl; [done|]. f_equal. by apply IHl. Qed.

Lemma enumerate_from_app {A} (l l' : list A) n :
  enumerate_from n (l ++ l') = enumerate_from n l ++ enumerate_from (n + length l) l'.
Proof.
  revert n. induction l as [|x l IH]; intros n; simpl; [by rewrite Nat.add_0_r|].
  by rewrite IH, Nat.add_succ_r.
Qed.

Lemma find_first {A} (f : A → bool) l i x :
  l !! i = Some x → f x = true → (∀ j y, j < i → l !! j = Some y → f y = false) →
  List.find f l = Some x.
Proof.
  revert i. induction l as [|y l IH]; intros i Hi Hx Hj; [done|]. destruct i as [|i]; simpl in *.
  - injection Hi as ->. by rewrite Hx.
  - rewrite (Hj 0 y) by (done || lia). apply (IH i Hi Hx).
    intros j z Hlt Hz. apply (Hj (S j)); [lia|done].
Qed.

Lemma find_snoc {A} (f : A → bool) l x :
  (∀ y, y ∈ l → f y = false) → f x = true → List.find f (l ++ [x]) = Some x.
Proof.
  intros Hl Hx. induction l as [|y l IH]; simpl; [by rewrite Hx|].
  rewrite Hl by left. apply IH. intros z Hz. apply Hl. by right.
Qed.

Lemma existsb_True {A} (f : A → bool) l :
  existsb f l = true ↔ ∃ x, x ∈ l ∧ f x = true.
Proof. rewrite existsb_exists. by setoid_rewrite list_elem_of_In. Qed.

Lemma existsb_False {A} (f : A → bool) l :
  existsb f l = false ↔ ∀ x, x ∈ l → f x = false.
Proof.
  rewrite <- not_true_iff_false, existsb_True. split.
  - intros H x Hx. destruct (f x) eqn:E; [|done]. exfalso. eauto.
  - intros H (x&Hx&E). rewrite H in E by done. done.
Qed.

Lemma forallb_True {A} (f : A → bool) l :
  forallb f l = true ↔ ∀ x, x ∈ l → f x = true.
Proof. rewrite forallb_forall. by setoid_rewrite list_elem_of_In. Qed.

Lemma StronglySorted_sublist {A} (R : A → A → Prop) l1 l2 :
  l1 `sublist_of` l2 → StronglySorted R l2 → StronglySorted R l1.
Proof.
  induction 1 as [|x l1 l2 Hsub IH|x l1 l2 Hsub IH]; inversion 1; subst; try done.
  - constructor; [by apply IH|]. apply Forall_forall. intros y Hy.
    match goal with H : Forall _ l2 |- _ => rewrite Forall_forall in H; apply H end.
    by eapply elem_of_sublist.
  - by apply IH.
Qed.

Lemma StronglySorted_map {A B} (R : A → A → Prop) (S : B → B → Prop) (f : A → B) l :
  (∀ x y, x ∈ l → y ∈ l → R x y → S (f x) (f y)) →
  StronglySorted R l → StronglySorted S (map f l).
Proof.
  intros Hf. induction 1 as [|x l Hl IH Hx]; simpl; [constructor|]. constructor.
  - apply IH. intros y z Hy Hz. apply Hf; by apply list_elem_of_further.
  - apply Forall_forall. intros z Hz. change (map f l) with (f <$> l) in Hz.
    apply list_elem_of_fmap in Hz as (y & -> & Hy). rewrite Forall_forall in Hx.
    apply Hf; [apply list_elem_of_here|by apply list_elem_of_further|by apply Hx].
Qed.

Lemma elem_of_filter_b {A} (f : A → bool) l x :
  x ∈ List.filter f l ↔ x ∈ l ∧ f x = true.
Proof. by rewrite !list_elem_of_In, filter_In. Qed.

Lemma filter_all {A} (f : A → bool) (l : list A) :
  (∀ x, x ∈ l → f x = true) → List.filter f l = l.
Proof.
  induction l as [|x l IH]; simpl; intros Hf; [done|].
  rewrite Hf by apply list_elem_of_here. f_equal. apply IH. intros y Hy.
  apply Hf. by apply list_elem_of_further.
Qed.

(** A list is its two halves by a test, up to order. *)
Lemma filter_halves_perm {A} (f : A → bool) (l : list A) :
  List.filter f l ++ List.filter (λ x, negb (f x)) l ≡ₚ l.
Proof.
  induction l as [|x l IH]; simpl; [done|]. destruct (f x); simpl; [by rewrite IH|].
  by rewrite <- Permutation_middle, IH.
Qed.

(** ** Lists in order *)

Lemma StronglySorted_omap {A B} (R : A → A → Prop) (S : B → B → Prop) (f : A → option B) l :
  (∀ x y a b, R x y → f x = Some a → f y = Some b → S a b) →
  StronglySorted R l → StronglySorted S (omap f l).
Proof.
  intros Hf. induction 1 as [|x l Hl IH Hx]; csimpl; [constructor|].
  destruct (f x) as [a|] eqn:Ea; [|done]. constructor; [done|].
  apply Forall_forall. intros b (y & Hy & Eb)%list_elem_of_omap.
  rewrite Forall_forall in Hx. by eapply Hf; [apply Hx| |].
Qed.

Lemma StronglySorted_filter_b {A} (R : A → A → Prop) (f : A → bool) l :
  StronglySorted R l → StronglySorted R (List.filter f l).
Proof.
  induction 1 as [|x l Hl IH Hx]; simpl; [constructor|]. destruct (f x); [|done].
  constructor; [done|]. apply Forall_forall. intros y [Hy _]%elem_of_filter_b.
  rewrite Forall_forall in Hx. by apply Hx.
Qed.

(** In a sorted list, what is no later than the last element taken was taken. *)
Lemma sorted_take_covers {A} (r : A → Z) n (l : list A) x y :
  StronglySorted (λ a b, (r a < r b)%Z) l → last (take n l) = Some y → x ∈ l → (r x ≤ r y)%Z →
  x ∈ take n l.
Proof.
  intros Hs Hy Hx Hr. rewrite <- (take_drop n l) in Hx, Hs.
  apply elem_of_app in Hx as [Hx|Hx]; [done|]. exfalso.
  apply last_Some_elem_of in Hy.
  revert Hs Hy Hx. generalize (take n l), (drop n l). intros l1 l2 Hs Hy Hx.
  induction l1 as [|z l1 IH]; [by apply elem_of_nil in Hy|].
  simpl in Hs. apply StronglySorted_inv in Hs as [Hs Hz].
  apply elem_of_cons in Hy as [-> | Hy]; [|by apply IH].
  rewrite Forall_forall in Hz. specialize (Hz x (proj2 (elem_of_app _ _ _) (or_intror Hx))). lia.
Qed.

Lemma sorted_take_drop {A} (R : A → A → Prop) n (l : list A) x y :
  StronglySorted R l → x ∈ take n l → y ∈ drop n l → R x y.
Proof.
  rewrite <- (take_drop n l) at 1. generalize (take n l), (drop n l). intros l1 l2 Hs Hx Hy.
  induction l1 as [|z l1 IH]; [by apply elem_of_nil in Hx|].
  simpl in Hs. apply StronglySorted_inv in Hs as [Hs Hz].
  apply elem_of_cons in Hx as [-> | Hx]; [|by apply IH].
  rewrite Forall_forall in Hz. apply Hz, elem_of_app. by right.
Qed.

Lemma sorted_last {A} (r : A → Z) (l : list A) x y :
  StronglySorted (λ a b, (r a < r b)%Z) l → last l = Some y → x ∈ l → (r x ≤ r y)%Z.
Proof.
  induction 1 as [|z l Hl IH Hz]; [done|]. intros Hy Hx.
  destruct l as [|z' l]; [by apply list_elem_of_singleton in Hx as ->; injection Hy as ->|].
  assert (last (z' :: l) = Some y) as Hy' by exact Hy.
  apply elem_of_cons in Hx as [-> | Hx]; [|by apply IH].
  rewrite Forall_forall in Hz. apply Z.lt_le_incl, Hz. by apply last_Some_elem_of.
Qed.

(** ** Tactics and hints of the development *)

(** Split a boolean hypothesis into its atoms. *)
Ltac bool_simplify :=
  repeat match goal with
  | H : negb _ = true |- _ => apply negb_true_iff in H
  | H : negb _ = false |- _ => apply negb_false_iff in H
  | H : (_ && _)%bool = true |- _ => apply andb_true_iff in H as [? ?]
  | H : (_ || _)%bool = false |- _ => apply orb_false_iff in H as [? ?]
  | H : bool_decide _ = true |- _ => apply bool_decide_eq_true in H
  | H : bool_decide _ = false |- _ => apply bool_decide_eq_false in H
  | H : (_ <? _)%Z = true |- _ => apply Z.ltb_lt in H
  | H : (_ <? _)%Z = false |- _ => apply Z.ltb_ge in H
  | H : (_ <=? _)%Z = true |- _ => apply Z.leb_le in H
  | H : (_ <=? _)%Z = false |- _ => apply Z.leb_gt in H
  | H : (_ =? _)%Z = true |- _ => apply Z.eqb_eq in H
  | H : (_ =? _)%Z = false |- _ => apply Z.eqb_neq in H
  | H : (_ <=? _)%N = true |- _ => apply N.leb_le in H
  | H : (_ <=? _)%N = false |- _ => apply N.leb_gt in H
  | H : (_ <=? _)%nat = true |- _ => apply Nat.leb_le in H
  | H : (_ <=? _)%nat = false |- _ => apply Nat.leb_gt in H
  | H : (_ =? _)%nat = true |- _ => apply Nat.eqb_eq in H
  | H : (_ =? _)%nat = false |- _ => apply Nat.eqb_neq in H
  end.

(** Split a successful monadic computation into its steps. *)
Ltac result_simplify :=
  repeat match goal with
  | H : rbind _ _ = Ok _ |- _ =>
      let a := fresh "a" in let H1 := fresh "Hok" in
      apply rbind_Ok in H as (a & H1 & H)
  | H : map_err _ _ = Ok _ |- _ => apply map_err_Ok in H
  | H : ok_or _ _ = Ok _ |- _ => apply ok_or_Ok in H
  | H : Ok _ = Ok _ |- _ => injection H as H
  | H : Err _ = Err _ |- _ => injection H as H
  | H : Ok _ = Err _ |- _ => discriminate H
  | H : Err _ = Ok _ |- _ => discriminate H
  end.

Create HintDb bus.
#[export] Hint Rewrite @length_sort_by @elem_of_sort_by @elem_of_enumerate : bus.
#[export] Hint Resolve sort_by_perm insert_sorted_perm : bus.
