(* ===== verification/Str.v ===== *)
(** * Str: Rust strings

    A Rust [str] is its UTF-8 byte sequence, here a [string] of bytes. This file
    holds the [str] methods the program calls, written on bytes: searching,
    trimming (Unicode white space), splitting, control characters, and the
    ASCII and Unicode case folds. Lengths are byte lengths, as [str::len]. *)

From Stdlib Require Import ZArith Lia Ascii.
From stdpp Require Import base option list strings.
From S2P Require Import Prelude.

(** ** Searching *)

Definition str_len (s : string) : Z := Z.of_nat (String.length s).
Definition is_empty (s : string) : bool := bool_decide (s = "").

Definition starts_with (s p : string) : bool := String.prefix p s.

(** [hay.contains(needle)]. *)
Fixpoint contains (hay needle : string) : bool :=
  starts_with hay needle ||
  match hay with
  | EmptyString => false
  | String _ t => contains t needle
  end.

Definition contains_char (s : string) (c : ascii) : bool :=
  contains s (String c EmptyString).

(** [s.strip_prefix(p)]. *)
Fixpoint strip_prefix (s p : string) : option string :=
  match p, s with
  | EmptyString, _ => Some s
  | String a p', String b s' => if ascii_dec a b then strip_prefix s' p' else None
  | String _ _, EmptyString => None
  end.

Definition str_rev (s : string) : string := String.rev s.
Definition ends_with (s p : string) : bool := starts_with (str_rev s) (str_rev p).
Definition strip_suffix (s p : string) : option string :=
  str_rev <$> strip_prefix (str_rev s) (str_rev p).

(** [s.replace(c, r)] for a one-byte pattern. *)
Fixpoint replace_char (c : ascii) (r : string) (s : string) : string :=
  match s with
  | EmptyString => EmptyString
  | String a t =>
      if ascii_dec a c then r +:+ replace_char c r t
      else String a (replace_char c r t)
  end.

(** [s.replace(p, r)] for a non-empty pattern; [skip] counts the bytes of the
    current match still to be dropped. *)
Fixpoint replace_go (p r : string) (skip : nat) (s : string) : string :=
  match s with
  | EmptyString => EmptyString
  | String a t =>
      match skip with
      | S k => replace_go p r k t
      | O => if starts_with s p then r +:+ replace_go p r (String.length p - 1) t
             else String a (replace_go p r 0 t)
      end
  end.
Definition replace (s p r : string) : string := replace_go p r 0 s.

(** [parts.join(sep)]. *)
Fixpoint join (sep : string) (parts : list string) : string :=
  match parts with
  | [] => ""
  | [p] => p
  | p :: rest => p +:+ sep +:+ join sep rest
  end.

(** [s.split(c)] on one byte: always at least one part. *)
Fixpoint split_on (f : ascii → bool) (s : string) : list string :=
  match s with
  | EmptyString => [EmptyString]
  | String a t =>
      match split_on f t with
      | [] => []
      | w :: ws => if f a then EmptyString :: w :: ws else String a w :: ws
      end
  end.
Definition split_char (c : ascii) : string → list string :=
  split_on (λ a, bool_decide (a = c)).

(** ** Order

    [str] compares byte-wise, so [String.leb] is [<=] on [&str]. *)

Definition str_le (a b : string) : bool := String.leb a b.

(** ** White space and control characters *)

Definition byte_in (lo hi : N) (a : ascii) : bool :=
  ((lo <=? N_of_ascii a) && (N_of_ascii a <=? hi))%N.
Definition byte_is (n : N) (a : ascii) : bool := (N_of_ascii a =? n)%N.

(** UTF-8 encodings of the [White_Space] characters: one byte
    (U+0009..U+000D, U+0020), two bytes (U+0085, U+00A0) and three bytes
    (U+1680, U+2000..U+200A, U+2028, U+2029, U+202F, U+205F, U+3000). *)
Definition ws1 (a : ascii) : bool := byte_in 9 13 a || byte_is 32 a.
Definition ws2 (a b : ascii) : bool :=
  byte_is 194 a && (byte_is 133 b || byte_is 160 b).
Definition ws3 (a b c : ascii) : bool :=
  (byte_is 225 a && byte_is 154 b && byte_is 128 c) ||
  (byte_is 226 a && byte_is 128 b &&
     (byte_in 128 138 c || byte_is 168 c || byte_is 169 c || byte_is 175 c)) ||
  (byte_is 226 a && byte_is 129 b && byte_is 159 c) ||
  (byte_is 227 a && byte_is 128 b && byte_is 128 c).

Fixpoint trim_start (s : string) : string :=
  match s with
  | EmptyString => EmptyString
  | String a t =>
      if ws1 a then trim_start t
      else match t with
           | EmptyString => s
           | String b t2 =>
               if ws2 a b then trim_start t2
               else match t2 with
                    | EmptyString => s
                    | String c t3 => if ws3 a b c then trim_start t3 else s
                    end
           end
  end.

(** The same scan on the reversed bytes, so the last byte comes first. *)
Fixpoint trim_start_rev (s : string) : string :=
  match s with
  | EmptyString => EmptyString
  | String a t =>
      if ws1 a then trim_start_rev t
      else match t with
           | EmptyString => s
           | String b t2 =>
               if ws2 b a then trim_start_rev t2
               else match t2 with
                    | EmptyString => s
                    | String c t3 => if ws3 c b a then trim_start_rev t3 else s
                    end
           end
  end.

Definition trim_end (s : string) : string := str_rev (trim_start_rev (str_rev s)).
Definition trim (s : string) : string := trim_end (trim_start s).

(** [s.chars().any(char::is_whitespace)]. *)
Fixpoint has_whitespace (s : string) : bool :=
  match s with
  | EmptyString => false
  | String a t =>
      ws1 a
      || match t with
         | String b t2 =>
             ws2 a b || match t2 with String c _ => ws3 a b c | EmptyString => false end
         | EmptyString => false
         end
      || has_whitespace t
  end.

(** [s.trim_end_matches(c)] for one byte. *)
Fixpoint drop_leading (c : ascii) (s : string) : string :=
  match s with
  | String a t => if ascii_dec a c then drop_leading c t else s
  | EmptyString => EmptyString
  end.
Definition trim_end_matches (c : ascii) (s : string) : string :=
  str_rev (drop_leading c (str_rev s)).

(** [s.chars().any(char::is_control)]: U+0000..U+001F, U+007F, U+0080..U+009F. *)
Fixpoint has_control (s : string) : bool :=
  match s with
  | EmptyString => false
  | String a t =>
      byte_in 0 31 a || byte_is 127 a ||
      (byte_is 194 a && match t with String b _ => byte_in 128 159 b | _ => false end) ||
      has_control t
  end.

Definition nul : ascii := ascii_of_N 0.
Definition newline : ascii := ascii_of_N 10.

(** ** Case

    The ASCII folds are computed. The full Unicode folds of the standard
    library need the Unicode case tables, so they are an interface: the only
    fact used is that they agree with the ASCII folds on ASCII text. *)

Definition is_upper (a : ascii) : bool := byte_in 65 90 a.
Definition is_lower (a : ascii) : bool := byte_in 97 122 a.
Definition is_digit (a : ascii) : bool := byte_in 48 57 a.
Definition is_ascii_alphanumeric (a : ascii) : bool :=
  is_upper a || is_lower a || is_digit a.
Definition to_ascii_lower (a : ascii) : ascii :=
  if is_upper a then ascii_of_N (N_of_ascii a + 32) else a.
Definition to_ascii_upper (a : ascii) : ascii :=
  if is_lower a then ascii_of_N (N_of_ascii a - 32) else a.

Fixpoint str_map (f : ascii → ascii) (s : string) : string :=
  match s with
  | EmptyString => EmptyString
  | String a t => String (f a) (str_map f t)
  end.
Fixpoint str_all (f : ascii → bool) (s : string) : bool :=
  match s with
  | EmptyString => true
  | String a t => f a && str_all f t
  end.

Definition to_ascii_lowercase : string → string := str_map to_ascii_lower.
Definition to_ascii_uppercase : string → string := str_map to_ascii_upper.
Definition eq_ignore_ascii_case (a b : string) : bool :=
  bool_decide (to_ascii_lowercase a = to_ascii_lowercase b).
Definition is_ascii (s : string) : bool := str_all (byte_in 0 127) s.

Class UnicodeCase := {
  to_lowercase : string → string;
  to_uppercase : string → string;
  to_lowercase_ascii s : is_ascii s = true → to_lowercase s = to_ascii_lowercase s;
  to_uppercase_ascii s : is_ascii s = true → to_uppercase s = to_ascii_uppercase s;
}.

(** The instance used to evaluate definitions on ASCII inputs. *)
Definition ascii_case : UnicodeCase :=
  {| to_lowercase := to_ascii_lowercase;
     to_uppercase := to_ascii_uppercase;
     to_lowercase_ascii _ _ := eq_refl;
     to_uppercase_ascii _ _ := eq_refl |}.

(** ** Numbers as text *)

Definition digit_char (n : Z) : ascii := ascii_of_N (Z.to_N (48 + n)).

Fixpoint dec_go (fuel : nat) (n : Z) (acc : string) : string :=
  match fuel with
  | O => acc
  | S f =>
      let acc' := String (digit_char (n mod 10)) acc in
      if (n <? 10)%Z then acc' else dec_go f (n / 10) acc'
  end.

(** [n.to_string()] for a non-negative integer of at most 40 digits, which
    holds every [u128]. *)
Definition dec (n : Z) : string := dec_go 40 n "".

(** ** Facts about searching *)

Lemma string_app_cons a s t : String a s +:+ t = String a (s +:+ t).
Proof. reflexivity. Qed.

Lemma string_app_nil_l t : "" +:+ t = t.
Proof. reflexivity. Qed.

Lemma string_app_assoc (a b c : string) : (a +:+ b) +:+ c = a +:+ (b +:+ c).
Proof.
  induction a as [|x a IH]; [done|]. by rewrite !string_app_cons, IH.
Qed.

Lemma string_app_nil_r (a : string) : a +:+ "" = a.
Proof. induction a as [|x a IH]; [done|]. by rewrite string_app_cons, IH. Qed.

Lemma prefix_app p s : String.prefix p (p +:+ s) = true.
Proof.
  induction p as [|a p IH]; [by destruct s|]. rewrite string_app_cons. simpl.
  by destruct (ascii_dec a a).
Qed.

Lemma starts_with_spec s p : starts_with s p = true ↔ ∃ t, s = p +:+ t.
Proof.
  unfold starts_with. split; [|intros [t ->]; apply prefix_app].
  revert s. induction p as [|a p IH]; intros s H; [by exists s|].
  destruct s as [|b s]; simpl in H; [done|].
  destruct (ascii_dec a b) as [->|]; [|done].
  apply IH in H as [t ->]. by exists t.
Qed.

Lemma contains_spec s p : contains s p = true ↔ ∃ a b, s = a +:+ p +:+ b.
Proof.
  induction s as [|c s IH]; cbn [contains].
  - rewrite orb_false_r, starts_with_spec. split.
    + intros [t Ht]. by exists "", t.
    + intros ([|? ?] & b & H); [by exists b|done].
  - rewrite orb_true_iff, starts_with_spec, IH. split.
    + intros [[t Ht]|(a & b & ->)].
      * by exists "", t.
      * by exists (String c a), b.
    + intros ([|d a] & b & H).
      * left. by exists b.
      * right. exists a, b. rewrite string_app_cons in H. congruence.
Qed.

Lemma contains_app_l s t p : contains s p = true → contains (s +:+ t) p = true.
Proof.
  rewrite !contains_spec. intros (a & b & ->).
  exists a, (b +:+ t). by rewrite !string_app_assoc.
Qed.

Lemma contains_app_r s t p : contains t p = true → contains (s +:+ t) p = true.
Proof.
  rewrite !contains_spec. intros (a & b & ->).
  exists (s +:+ a), b. by rewrite !string_app_assoc.
Qed.

Lemma contains_refl p : contains p p = true.
Proof. apply contains_spec. exists "", "". by rewrite string_app_nil_r. Qed.

Lemma contains_trans s p q :
  contains s p = true → contains p q = true → contains s q = true.
Proof.
  rewrite (contains_spec s p). intros (a & b & ->) H.
  by apply contains_app_r, contains_app_l.
Qed.

(** Reversal and length. *)
Lemma rev_app_spec (s t : string) : String.rev_app s t = String.rev s +:+ t.
Proof.
  revert t. unfold String.rev. induction s as [|a s IH]; intros t; [done|]. simpl.
  rewrite (IH (String a t)), (IH (String a "")). by rewrite string_app_assoc.
Qed.

Lemma str_rev_cons a s : str_rev (String a s) = str_rev s +:+ String a "".
Proof. unfold str_rev, String.rev. simpl. apply rev_app_spec. Qed.

Lemma str_rev_app s t : str_rev (s +:+ t) = str_rev t +:+ str_rev s.
Proof.
  induction s as [|a s IH].
  - by rewrite string_app_nil_r.
  - by rewrite string_app_cons, !str_rev_cons, IH, string_app_assoc.
Qed.

Lemma str_rev_involutive s : str_rev (str_rev s) = s.
Proof.
  induction s as [|a s IH]; [done|]. by rewrite str_rev_cons, str_rev_app, IH.
Qed.

Lemma length_string_app (s t : string) :
  String.length (s +:+ t) = String.length s + String.length t.
Proof. induction s as [|a s IH]; [done|]. rewrite string_app_cons. simpl. by rewrite IH. Qed.

Lemma str_len_app s t : str_len (s +:+ t) = (str_len s + str_len t)%Z.
Proof. unfold str_len. rewrite length_string_app. lia. Qed.

Lemma str_len_nonneg s : (0 ≤ str_len s)%Z.
Proof. unfold str_len. lia. Qed.

(** Concatenation cancels on the right. *)
Lemma string_app_inj_r (s t u : string) : s +:+ u = t +:+ u → s = t.
Proof.
  intros H. apply (f_equal str_rev) in H. rewrite !str_rev_app in H.
  apply (inj (String.append (str_rev u))) in H.
  by rewrite <- (str_rev_involutive s), H, str_rev_involutive.
Qed.

#[export] Hint Resolve contains_refl contains_app_l contains_app_r str_len_nonneg : bus.

(** ** Lines *)

Lemma contains_char_nil c : contains_char "" c = false.
Proof. reflexivity. Qed.

Lemma contains_char_cons a t c :
  contains_char (String a t) c = bool_decide (a = c) || contains_char t c.
Proof.
  unfold contains_char at 1. cbn [contains]. f_equal.
  unfold starts_with. simpl. destruct (ascii_dec c a) as [->|Hne].
  - rewrite bool_decide_eq_true_2 by done. by destruct t.
  - by rewrite bool_decide_eq_false_2 by congruence.
Qed.

Lemma contains_char_app s t c :
  contains_char (s +:+ t) c = contains_char s c || contains_char t c.
Proof.
  induction s as [|a s IH]; [done|].
  by rewrite string_app_cons, !contains_char_cons, IH, orb_assoc.
Qed.

Lemma strip_prefix_app p s : strip_prefix (p +:+ s) p = Some s.
Proof.
  induction p as [|a p IH]; [by destruct s|]. rewrite string_app_cons. simpl.
  by destruct (ascii_dec a a).
Qed.

Lemma strip_suffix_app s p : strip_suffix (s +:+ p) p = Some s.
Proof.
  unfold strip_suffix. rewrite str_rev_app, strip_prefix_app. simpl.
  by rewrite str_rev_involutive.
Qed.

Lemma ends_with_app s p : ends_with (s +:+ p) p = true.
Proof. unfold ends_with. rewrite str_rev_app. apply prefix_app. Qed.

Lemma ends_with_char s a c :
  ends_with (s +:+ String a "") (String c "") = bool_decide (a = c).
Proof.
  unfold ends_with. rewrite str_rev_app.
  change (str_rev (String a "")) with (String a ""). rewrite string_app_cons.
  change (str_rev (String c "")) with (String c "").
  unfold starts_with. simpl. destruct (ascii_dec c a) as [->|].
  - rewrite bool_decide_eq_true_2 by done. by destruct ("" +:+ str_rev s).
  - by rewrite bool_decide_eq_false_2 by congruence.
Qed.

(** A text made of lines, each ended by a newline. *)
Definition unlines (ls : list string) : string :=
  foldr (λ l acc, l +:+ String newline acc) "" ls.

Lemma unlines_snoc ls l : unlines (ls ++ [l]) = unlines ls +:+ l +:+ String newline "".
Proof.
  induction ls as [|x ls IH]; simpl; [by rewrite string_app_nil_l|].
  by rewrite IH, !string_app_assoc, string_app_cons.
Qed.

Lemma split_char_cons a t c :
  split_char c (String a t) =
  match split_char c t with
  | [] => []
  | w :: ws => if bool_decide (a = c) then "" :: w :: ws else String a w :: ws
  end.
Proof. reflexivity. Qed.

Lemma split_char_line l c : contains_char l c = false → split_char c l = [l].
Proof.
  induction l as [|a l IH]; [done|]. rewrite contains_char_cons.
  intros [Ha Hl]%orb_false_iff. by rewrite split_char_cons, IH, Ha.
Qed.

Lemma split_char_app l c t : contains_char l c = false →
  split_char c (l +:+ String c t) = l :: split_char c t.
Proof.
  assert (Hne : split_char c t ≠ []).
  { clear. induction t as [|a t IH]; [done|]. rewrite split_char_cons.
    destruct (split_char c t); [done|]. by case_bool_decide. }
  induction l as [|a l IH]; rewrite ?string_app_cons, ?string_app_nil_l, split_char_cons.
  - intros _. destruct (split_char c t); [done|]. by rewrite bool_decide_eq_true_2.
  - rewrite contains_char_cons. intros [Ha Hl]%orb_false_iff. by rewrite IH, Ha.
Qed.

Lemma split_char_unlines ls l :
  Forall (λ l, contains_char l newline = false) (ls ++ [l]) →
  split_char newline (unlines ls +:+ l) = ls ++ [l].
Proof.
  induction ls as [|x ls IH]; simpl; intros H; inversion H; subst.
  - rewrite string_app_nil_l. by apply split_char_line.
  - rewrite string_app_assoc, string_app_cons, split_char_app by done. by rewrite IH.
Qed.

Lemma strip_prefix_spec s p t : strip_prefix s p = Some t ↔ s = p +:+ t.
Proof.
  split; [|intros ->; apply strip_prefix_app].
  revert s. induction p as [|a p IH]; intros s; simpl.
  - intros Hp. assert (s = t) as <- by (destruct s; simpl in Hp; congruence).
    by rewrite string_app_nil_l.
  - destruct s as [|b s]; simpl; [done|]. destruct (ascii_dec a b) as [->|]; [|done].
    intros Hp. by rewrite string_app_cons, (IH s Hp).
Qed.

Lemma strip_suffix_spec s p t : strip_suffix s p = Some t ↔ s = t +:+ p.
Proof.
  split; [|intros ->; apply strip_suffix_app]. unfold strip_suffix.
  intros (r & Hr & ->)%fmap_Some. apply strip_prefix_spec in Hr.
  rewrite <- (str_rev_involutive s), Hr, str_rev_app. by rewrite str_rev_involutive.
Qed.

Lemma ends_with_spec s p : ends_with s p = true ↔ ∃ t, s = t +:+ p.
Proof.
  split; [|intros [t ->]; apply ends_with_app]. unfold ends_with.
  intros [t Ht]%starts_with_spec. exists (str_rev t).
  by rewrite <- (str_rev_involutive s), Ht, str_rev_app, str_rev_involutive.
Qed.

(** ** [s.split_once(c)]: the text before and after the first [c]. *)
Fixpoint split_once (c : ascii) (s : string) : option (string * string) :=
  match s with
  | EmptyString => None
  | String a t =>
      if ascii_dec a c then Some (EmptyString, t)
      else (λ p, (String a p.1, p.2)) <$> split_once c t
  end.

(** [{:?}] of a text escapes by Unicode tables: an interface without laws. *)
Class DebugFmt := { debug_str : string → string }.

Definition plain_debug : DebugFmt :=
  {| debug_str s := String (ascii_of_N 34) (s +:+ String (ascii_of_N 34) "") |}.

(** [s.get(..n)]: the first [n] bytes, or nothing when [s] is shorter or the cut
    is inside a character, that is before a continuation byte. *)
Fixpoint get_to (n : nat) (s : string) : option string :=
  match n, s with
  | O, String a _ => if byte_in 128 191 a then None else Some ""
  | O, EmptyString => Some ""
  | S k, String a t => String a <$> get_to k t
  | S _, EmptyString => None
  end.

Fixpoint str_drop (n : nat) (s : string) : string :=
  match n, s with
  | S k, String _ t => str_drop k t
  | _, _ => s
  end.

(** [{:o}] of a non-negative integer below 8^40. *)
Fixpoint oct_go (fuel : nat) (n : Z) (acc : string) : string :=
  match fuel with
  | O => acc
  | S f =>
      let acc' := String (digit_char (n mod 8)) acc in
      if (n <? 8)%Z then acc' else oct_go f (n / 8) acc'
  end.
Definition oct (n : Z) : string := oct_go 40 n "".

(** ** Characters

    The UTF-8 texts of the characters of [s], cut before every byte that is not a
    continuation byte. Which characters are alphanumeric is a Unicode table: an
    interface with its ASCII part. *)

Fixpoint chars (s : string) : list string :=
  match s with
  | EmptyString => []
  | String a t =>
      match chars t with
      | c :: cs =>
          match c with
          | String b _ => if byte_in 128 191 b then String a c :: cs
                          else String a "" :: c :: cs
          | EmptyString => String a "" :: cs
          end
      | [] => [String a ""]
      end
  end.

Class UnicodeAlnum := {
  char_alphanumeric : string → bool;
  char_alphanumeric_ascii a : is_ascii (String a "") = true →
    char_alphanumeric (String a "") = is_ascii_alphanumeric a;
}.

Definition ascii_alnum : UnicodeAlnum :=
  {| char_alphanumeric s := match s with String a "" => is_ascii_alphanumeric a | _ => false end;
     char_alphanumeric_ascii _ _ := eq_refl |}.

(** ** Bits as text

    A codec for the concrete instances of the interfaces. *)

Fixpoint pos_text (p : positive) : string :=
  match p with
  | xH => "H"
  | xO q => String "O" (pos_text q)
  | xI q => String "I" (pos_text q)
  end.

Fixpoint text_pos (s : string) : option positive :=
  match s with
  | EmptyString => None
  | String c t =>
      if bool_decide (c = "H"%char) then (if is_empty t then Some xH else None)
      else if bool_decide (c = "O"%char) then xO <$> text_pos t
      else if bool_decide (c = "I"%char) then xI <$> text_pos t
      else None
  end.

Lemma text_pos_text p : text_pos (pos_text p) = Some p.
Proof. induction p as [q IH|q IH|]; simpl; [by rewrite IH|by rewrite IH|done]. Qed.

Lemma pos_text_line p : contains_char (pos_text p) newline = false ∧ pos_text p ≠ "".
Proof.
  split; [|by destruct p].
  induction p as [q IH|q IH|]; simpl; rewrite ?contains_char_cons, ?IH; done.
Qed.
