(* ===== verification/Json.v ===== *)
(** * Json: [serde_json::Value] as the program uses it

    A JSON object is [serde_json]'s default [Map], a [BTreeMap]: the entries in
    key order, each key once. Numbers keep the three representations the crate
    distinguishes; a float is kept by its bit pattern, since no modelled code
    computes with one. *)

From Stdlib Require Import ZArith Lia.
From stdpp Require Import base option list strings countable.
From S2P Require Import Prelude Str.

Inductive number : Type :=
  | PosInt (n : Z)
  | NegInt (n : Z)
  | Float (bits : Z).

Inductive json : Type :=
  | JNull
  | JBool (b : bool)
  | JNum (n : number)
  | JStr (s : string)
  | JArr (items : list json)
  | JObj (fields : list (string * json)).

Definition fields : Type := list (string * json).

#[export] Instance number_eq_dec : EqDecision number.
Proof. solve_decision. Defined.

(** ** Maps *)

(** [map.get(key)]. *)
Fixpoint get (m : fields) (key : string) : option json :=
  match m with
  | [] => None
  | (k, v) :: m' => if decide (k = key) then Some v else get m' key
  end.

Definition contains_key (m : fields) (key : string) : bool :=
  match get m key with Some _ => true | None => false end.

(** [map.insert(key, v)]: replaces the entry or inserts it in key order. *)
Fixpoint insert (key : string) (v : json) (m : fields) : fields :=
  match m with
  | [] => [(key, v)]
  | (k, w) :: m' =>
      if decide (k = key) then (k, v) :: m'
      else if str_le key k then (key, v) :: (k, w) :: m'
      else (k, w) :: insert key v m'
  end.

(** The [json!({..})] macro on literal entries. *)
Definition obj (l : list (string * json)) : json :=
  JObj (foldl (λ m kv, insert kv.1 kv.2 m) [] l).

Lemma get_insert_eq key v m : get (insert key v m) key = Some v.
Proof.
  induction m as [|[k w] m IH]; simpl; [by rewrite decide_True|].
  case_decide; simplify_eq/=; [by rewrite decide_True|].
  destruct (str_le key k); simpl; [by rewrite decide_True|].
  by rewrite decide_False.
Qed.

Lemma get_insert_ne key key' v m :
  key ≠ key' → get (insert key v m) key' = get m key'.
Proof.
  intros Hne. induction m as [|[k w] m IH]; simpl.
  { by rewrite decide_False. }
  case_decide; simplify_eq/=; [by rewrite !decide_False|].
  destruct (str_le key k); simpl; [by rewrite (decide_False (P:=key = key'))|].
  by rewrite IH.
Qed.

(** ** Accessors of [Value] *)

Definition as_str (v : json) : option string :=
  match v with JStr s => Some s | _ => None end.
Definition as_bool (v : json) : option bool :=
  match v with JBool b => Some b | _ => None end.
Definition as_array (v : json) : option (list json) :=
  match v with JArr l => Some l | _ => None end.
Definition as_object (v : json) : option fields :=
  match v with JObj m => Some m | _ => None end.
Definition as_u64 (v : json) : option Z :=
  match v with JNum (PosInt n) => Some n | _ => None end.
Definition as_i64 (v : json) : option Z :=
  match v with
  | JNum (PosInt n) => if (n <=? I64_MAX)%Z then Some n else None
  | JNum (NegInt n) => Some n
  | _ => None
  end.

Definition is_array (v : json) : bool := match v with JArr _ => true | _ => false end.
Definition is_boolean (v : json) : bool := match v with JBool _ => true | _ => false end.
Definition is_null (v : json) : bool := match v with JNull => true | _ => false end.
Definition is_number (v : json) : bool := match v with JNum _ => true | _ => false end.
Definition is_object (v : json) : bool := match v with JObj _ => true | _ => false end.
Definition is_string (v : json) : bool := match v with JStr _ => true | _ => false end.

(** [value.get(key)] on any value: [None] unless it is an object. *)
Definition vget (v : json) (key : string) : option json :=
  match v with JObj m => get m key | _ => None end.

Definition jstr_list (l : list string) : json := JArr (map JStr l).
Definition jint (n : Z) : json :=
  JNum (if (0 <=? n)%Z then PosInt n else NegInt n).

(** [map.get(key).and_then(Value::as_str)]. *)
Definition get_str (m : fields) (key : string) : option string :=
  get m key ≫= as_str.

(** ** Decidable equality and encoding

    Values are compared by [==] and used inside records that must be
    comparable, so [json] gets its instances through generic trees. *)

Fixpoint json_eqb (a b : json) {struct a} : bool :=
  match a, b with
  | JNull, JNull => true
  | JBool x, JBool y => Bool.eqb x y
  | JNum x, JNum y => bool_decide (x = y)
  | JStr x, JStr y => bool_decide (x = y)
  | JArr xs, JArr ys =>
      (fix go (xs ys : list json) : bool :=
         match xs, ys with
         | [], [] => true
         | x :: xs', y :: ys' => json_eqb x y && go xs' ys'
         | _, _ => false
         end) xs ys
  | JObj xs, JObj ys =>
      (fix go (xs ys : list (string * json)) : bool :=
         match xs, ys with
         | [], [] => true
         | (k, x) :: xs', (k', y) :: ys' =>
             bool_decide (k = k') && json_eqb x y && go xs' ys'
         | _, _ => false
         end) xs ys
  | _, _ => false
  end.

(** Induction that reaches the values inside arrays and objects. *)
Section json_ind'.
Variable P : json → Prop.
Hypothesis Hnull : P JNull.
Hypothesis Hbool : ∀ b, P (JBool b).
Hypothesis Hnum : ∀ n, P (JNum n).
Hypothesis Hstr : ∀ s, P (JStr s).
Hypothesis Harr : ∀ l, Forall P l → P (JArr l).
Hypothesis Hobj : ∀ m, Forall (λ kv, P kv.2) m → P (JObj m).

Fixpoint json_ind' (v : json) : P v :=
  match v with
  | JNull => Hnull
  | JBool b => Hbool b
  | JNum n => Hnum n
  | JStr s => Hstr s
  | JArr l => Harr l ((fix go (l : list json) : Forall P l :=
      match l with
      | [] => List.Forall_nil _
      | x :: l' => List.Forall_cons _ _ _ (json_ind' x) (go l')
      end) l)
  | JObj m => Hobj m ((fix go (m : fields) : Forall (λ kv, P kv.2) m :=
      match m with
      | [] => List.Forall_nil _
      | kv :: m' => List.Forall_cons _ kv _ (json_ind' kv.2) (go m')
      end) m)
  end.
End json_ind'.

Lemma json_eqb_eq a b : json_eqb a b = true ↔ a = b.
Proof.
  revert b. induction a as [|x|n|s|l IH|m IH] using json_ind';
    intros [|y|n'|s'|l'|m']; simpl; try (split; intros; done || congruence).
  - rewrite Bool.eqb_true_iff. naive_solver.
  - rewrite bool_decide_eq_true. naive_solver.
  - rewrite bool_decide_eq_true. naive_solver.
  - revert l'. induction IH as [|x l Hx HF IH]; intros [|y l']; try (split; intros; done || congruence).
    rewrite andb_true_iff, Hx, IH. naive_solver.
  - revert m'. induction IH as [|[k x] m Hx HF IH]; intros [|[k' y] m']; try (split; intros; done || congruence).
    rewrite !andb_true_iff, bool_decide_eq_true, IH. simpl in Hx. rewrite Hx. naive_solver.
Qed.

#[export] Instance json_eq_dec : EqDecision json.
Proof.
  intros a b. destruct (json_eqb a b) eqn:E.
  - left. by apply json_eqb_eq.
  - right. intros ->. by rewrite (proj2 (json_eqb_eq b b) eq_refl) in E.
Defined.

#[export] Instance number_countable : Countable number.
Proof.
  refine (inj_countable'
    (λ n, match n with PosInt z => (0, z) | NegInt z => (1, z) | Float z => (2, z) end)
    (λ p : nat * Z, match p with (0, z) => PosInt z | (1, z) => NegInt z | (_, z) => Float z end) _).
  by intros [].
Defined.

(** Leaves of the tree that encodes a value. *)
Definition json_leaf : Type := bool + number + string.

Fixpoint json_to_tree (v : json) : gen_tree json_leaf :=
  match v with
  | JNull => GenNode 0 []
  | JBool b => GenLeaf (inl (inl b))
  | JNum n => GenLeaf (inl (inr n))
  | JStr s => GenLeaf (inr s)
  | JArr l => GenNode 1 (map json_to_tree l)
  | JObj m => GenNode 2 (map (λ kv, GenNode 3 [GenLeaf (inr kv.1); json_to_tree kv.2]) m)
  end.

Fixpoint json_of_tree (t : gen_tree json_leaf) : json :=
  match t with
  | GenLeaf (inl (inl b)) => JBool b
  | GenLeaf (inl (inr n)) => JNum n
  | GenLeaf (inr s) => JStr s
  | GenNode 1 ts => JArr (map json_of_tree ts)
  | GenNode 2 ts =>
      JObj (map (λ t, match t with
                      | GenNode _ [GenLeaf (inr k); t'] => (k, json_of_tree t')
                      | _ => ("", JNull)
                      end) ts)
  | GenNode _ _ => JNull
  end.

Lemma json_of_to_tree v : json_of_tree (json_to_tree v) = v.
Proof.
  induction v as [| | | |l IH|m IH] using json_ind'; simpl; try done.
  - f_equal. induction IH; simpl; congruence.
  - f_equal. induction IH as [|[k x] m Hx HF IH]; simpl in *; congruence.
Qed.

#[export] Instance json_countable : Countable json :=
  inj_countable' json_to_tree json_of_tree json_of_to_tree.

#[export] Hint Rewrite get_insert_eq : bus.
