(* ===== verification/Validation.v ===== *)
(** * Validation: input validation helpers

    Models [crates/agent-bus-core/src/error.rs] and [validation.rs]: the error
    type, the field guards, the message schemas, their inference from the topic
    and the automatic fitting of a body to its schema. *)

From Stdlib Require Import ZArith Lia Ascii.
From stdpp Require Import base option list strings.
From S2P Require Import Prelude Str Json.

(** ** Errors

    The payloads of third-party errors are opaque text. *)

Inductive AgentBusError : Type :=
  | InvalidParams (msg : string)
  | NotFound (msg : string)
  | Postgres (msg : string)
  | Redis (msg : string)
  | Serde (msg : string)
  | Internal (msg : string).

#[export] Instance AgentBusError_eq_dec : EqDecision AgentBusError.
Proof. solve_decision. Defined.

Abbreviation Result := (result AgentBusError).

(** ** Field guards *)

Definition VALID_PRIORITIES : list string := ["low"; "normal"; "high"; "urgent"].
Definition MAX_TOPIC_LEN : Z := 256.
Definition MAX_BODY_LEN : Z := 262144.

Definition validate_priority (p : string) : Result unit :=
  if bool_decide (p ∈ VALID_PRIORITIES) then Ok tt
  else Err (InvalidParams ("invalid priority '" +:+ p +:+ "'; must be one of: "
                           +:+ join ", " VALID_PRIORITIES)).

Definition reject_nul_bytes (val name : string) : Result unit :=
  if contains_char val nul
  then Err (InvalidParams (name +:+ " must not contain NUL bytes (\x00)"))
  else Ok tt.

Fixpoint reject_nul_in_fields (fields : list (string * string)) : Result unit :=
  match fields with
  | [] => Ok tt
  | (value, name) :: rest =>
      let? _ := reject_nul_bytes value name in
      reject_nul_in_fields rest
  end.

(** [format!("{:02X}", c)] for a byte. *)
Definition hex_upper_digit (n : N) : ascii :=
  ascii_of_N (if (n <? 10)%N then 48 + n else 55 + n).
Definition hex02 (a : ascii) : string :=
  String (hex_upper_digit (N_of_ascii a / 16))
    (String (hex_upper_digit (N_of_ascii a mod 16)) "").

(** The loop is over [chars]; every character it rewrites is a single byte below
    0x20, and bytes of longer characters are passed through. *)
Fixpoint sanitize_for_human_display (s : string) : string :=
  match s with
  | EmptyString => ""
  | String ch t =>
      (if byte_is 0 ch then "<NUL>"
       else if byte_is 10 ch || byte_is 9 ch then String ch ""
       else if byte_in 0 31 ch then "<0x" +:+ hex02 ch +:+ ">"
       else String ch "") +:+ sanitize_for_human_display t
  end.

Definition non_empty (val name : string) : Result string :=
  let trimmed := trim val in
  if is_empty trimmed then
    Err (InvalidParams (name +:+ " must not be empty"))
  else if bool_decide (name = "topic") && (MAX_TOPIC_LEN <? str_len trimmed)%Z then
    Err (InvalidParams (name +:+ " exceeds maximum length of " +:+ dec MAX_TOPIC_LEN))
  else if bool_decide (name = "body") && (MAX_BODY_LEN <? str_len trimmed)%Z then
    Err (InvalidParams (name +:+ " exceeds maximum length of " +:+ dec MAX_BODY_LEN))
  else if bool_decide (name = "topic") || bool_decide (name = "body") then
    let? _ := reject_nul_bytes trimmed name in Ok trimmed
  else Ok trimmed.

(** [from_str] is [serde_json::from_str], which reports its own message. *)
Definition parse_metadata_arg (from_str : string → result string json)
    (metadata : option string) : Result json :=
  match metadata with
  | None => Ok (JObj [])
  | Some s =>
      let? value := map_err
        (λ e, InvalidParams ("--metadata must be valid JSON object: " +:+ e)) (from_str s) in
      if is_object value then Ok value
      else Err (InvalidParams "--metadata must be valid JSON object, not another JSON type")
  end.

(** ** Message schemas *)

Definition SCHEMA_FINDING : string := "finding".
Definition SCHEMA_STATUS : string := "status".
Definition SCHEMA_BENCHMARK : string := "benchmark".

Inductive MessageSchema : Type := Finding | Status | Benchmark.

#[export] Instance MessageSchema_eq_dec : EqDecision MessageSchema.
Proof. solve_decision. Defined.

Definition schema_as_str (s : MessageSchema) : string :=
  match s with
  | Finding => SCHEMA_FINDING
  | Status => SCHEMA_STATUS
  | Benchmark => SCHEMA_BENCHMARK
  end.

Definition schema_parse (value : string) : Result MessageSchema :=
  if bool_decide (value = SCHEMA_FINDING) then Ok Finding
  else if bool_decide (value = SCHEMA_STATUS) then Ok Status
  else if bool_decide (value = SCHEMA_BENCHMARK) then Ok Benchmark
  else Err (InvalidParams ("unknown schema '" +:+ value
                           +:+ "'; must be finding, status, or benchmark")).

Definition infer_schema_from_topic (topic : string) (explicit_schema : option string)
    : option string :=
  match explicit_schema with
  | Some _ => explicit_schema
  | None =>
      if contains topic "findings" || starts_with topic "review" then Some "finding"
      else if bool_decide (topic ∈ ["status"; "ownership"; "coordination"; "handoff"])
      then Some "status"
      else if bool_decide (topic = "benchmark") then Some "benchmark"
      else None
  end.

(** The canonical name of a known schema. *)
Definition to_static (s : string) : option string :=
  if bool_decide (s = SCHEMA_FINDING) then Some SCHEMA_FINDING
  else if bool_decide (s = SCHEMA_STATUS) then Some SCHEMA_STATUS
  else if bool_decide (s = SCHEMA_BENCHMARK) then Some SCHEMA_BENCHMARK
  else None.

Definition enforce_schema_for_transport (transport : string)
    (explicit_schema : option string) (topic : string) : option string :=
  match explicit_schema ≫= to_static with
  | Some s => Some s
  | None =>
      let inferred :=
        if contains topic "findings" || starts_with topic "review" then Some SCHEMA_FINDING
        else if bool_decide (topic ∈ ["status"; "ownership"; "coordination"; "handoff"])
        then Some SCHEMA_STATUS
        else if bool_decide (topic = "benchmark") then Some SCHEMA_BENCHMARK
        else None in
      match inferred with
      | Some s => Some s
      | None =>
          if bool_decide (transport = "mcp") || bool_decide (transport = "http")
          then Some SCHEMA_STATUS
          else None
      end
  end.

Definition resolve_message_schema (transport : string) (explicit : option string)
    (topic : string) : Result (option MessageSchema) :=
  match explicit with
  | Some name => let? s := schema_parse name in Ok (Some s)
  | None =>
      match enforce_schema_for_transport transport None topic with
      | None => Ok None
      | Some name => let? s := schema_parse name in Ok (Some s)
      end
  end.

(** ** Fitting a body to its schema

    The second component says whether the operator warning was logged. *)

Section fit.
Context `{UnicodeCase}.

Definition auto_fit_finding (body : string) (warn : bool) : string * bool :=
  if contains body "FINDING:" || contains body "FIX" || contains body "COMPLETE"
  then (body, false)
  else
    let upper := to_uppercase body in
    let severity :=
      if contains upper "CRITICAL" then "CRITICAL"
      else if contains upper "HIGH" || contains upper "SECURITY"
              || contains upper "VULNERABILITY" then "HIGH"
      else if contains upper "MEDIUM" || contains upper "WARNING" then "MEDIUM"
      else "LOW" in
    ("FINDING: " +:+ body +:+ String newline ("SEVERITY: " +:+ severity), warn).

Definition auto_fit_benchmark (body : string) (warn : bool) : string * bool :=
  if contains_char body "=" then (body, false)
  else ("summary=" +:+ body, warn).

Definition fit_schema (body : string) (schema : option string) (warn : bool)
    : string * bool :=
  match schema with
  | None => (body, false)
  | Some s =>
      if bool_decide (s = SCHEMA_FINDING) then auto_fit_finding body warn
      else if bool_decide (s = SCHEMA_BENCHMARK) then auto_fit_benchmark body warn
      else (body, false)
  end.

Definition auto_fit_schema (body : string) (schema : option string) : string :=
  (fit_schema body schema true).1.
Definition auto_fit_schema_quiet (body : string) (schema : option string) : string :=
  (fit_schema body schema false).1.
End fit.

Definition validate_message_schema (body : string) (schema : option string) : Result unit :=
  match schema with
  | None => Ok tt
  | Some s =>
      if bool_decide (s = SCHEMA_FINDING) then
        if negb (contains body "FINDING:") && negb (contains body "FIX")
           && negb (contains body "TAGGED:") && negb (contains body "COMPLETE")
        then Err (InvalidParams
          "Schema 'finding' requires FINDING:, FIX, TAGGED:, or COMPLETE in body")
        else if contains body "FINDING:" && negb (contains body "SEVERITY:")
        then Err (InvalidParams
          "Schema 'finding' requires SEVERITY: when FINDING: is present")
        else Ok tt
      else if bool_decide (s = SCHEMA_STATUS) then
        if is_empty (trim body)
        then Err (InvalidParams "Schema 'status' requires non-empty body")
        else Ok tt
      else if bool_decide (s = SCHEMA_BENCHMARK) then
        if negb (contains_char body "=")
        then Err (InvalidParams "Schema 'benchmark' requires key=value metrics in body")
        else Ok tt
      else Err (InvalidParams ("Unknown message schema: '" +:+ s +:+ "'. Valid: "
        +:+ SCHEMA_FINDING +:+ ", " +:+ SCHEMA_STATUS +:+ ", " +:+ SCHEMA_BENCHMARK))
  end.

(** ** Facts *)

Lemma reject_nul_bytes_Ok val name u :
  reject_nul_bytes val name = Ok u ↔ contains_char val nul = false.
Proof. unfold reject_nul_bytes. destruct u. case_match; naive_solver. Qed.

Lemma reject_nul_in_fields_Ok fs u :
  reject_nul_in_fields fs = Ok u ↔ Forall (λ f, contains_char f.1 nul = false) fs.
Proof.
  destruct u. induction fs as [|[v n] fs IH]; simpl; [by split|].
  rewrite rbind_Ok, Forall_cons, <- IH. setoid_rewrite reject_nul_bytes_Ok.
  simpl. naive_solver.
Qed.

Lemma non_empty_Ok val name t :
  non_empty val name = Ok t →
  t = trim val ∧ t ≠ "" ∧
  (name = "topic" → (str_len t ≤ MAX_TOPIC_LEN)%Z) ∧
  (name = "body" → (str_len t ≤ MAX_BODY_LEN)%Z) ∧
  (name = "topic" ∨ name = "body" → contains_char t nul = false).
Proof.
  unfold non_empty, is_empty. intros H.
  repeat case_match; try discriminate;
    rewrite ?andb_false_iff, ?orb_true_iff, ?orb_false_iff, ?bool_decide_eq_true,
      ?bool_decide_eq_false, ?Z.ltb_ge in *;
    result_simplify; subst;
    try match goal with H : reject_nul_bytes _ _ = _ |- _ => apply reject_nul_bytes_Ok in H end;
    naive_solver.
Qed.

Lemma schema_parse_as_str s : schema_parse (schema_as_str s) = Ok s.
Proof. by destruct s. Qed.

Lemma schema_parse_Ok v s : schema_parse v = Ok s ↔ v = schema_as_str s.
Proof.
  split; [|intros ->; apply schema_parse_as_str].
  unfold schema_parse. intros H. repeat case_bool_decide; simplify_eq; done.
Qed.

Section fit_facts.
Context `{UnicodeCase}.

Lemma fit_quiet_same body schema :
  auto_fit_schema_quiet body schema = auto_fit_schema body schema.
Proof.
  unfold auto_fit_schema_quiet, auto_fit_schema, fit_schema,
    auto_fit_finding, auto_fit_benchmark.
  repeat case_match; simplify_eq; done.
Qed.

Lemma fitted_finding_contains a b :
  contains ("FINDING: " +:+ a +:+ String newline ("SEVERITY: " +:+ b)) "FINDING:" = true
  ∧ contains ("FINDING: " +:+ a +:+ String newline ("SEVERITY: " +:+ b)) "SEVERITY:" = true.
Proof.
  split.
  - apply contains_app_l. done.
  - apply contains_app_r, contains_app_r.
    rewrite <- string_app_cons. by apply contains_app_l.
Qed.
End fit_facts.

(** The checks of each known schema, with the name test evaluated. *)
Lemma validate_finding body :
  validate_message_schema body (Some SCHEMA_FINDING) =
  if negb (contains body "FINDING:") && negb (contains body "FIX")
     && negb (contains body "TAGGED:") && negb (contains body "COMPLETE")
  then Err (InvalidParams
    "Schema 'finding' requires FINDING:, FIX, TAGGED:, or COMPLETE in body")
  else if contains body "FINDING:" && negb (contains body "SEVERITY:")
  then Err (InvalidParams
    "Schema 'finding' requires SEVERITY: when FINDING: is present")
  else Ok tt.
Proof. reflexivity. Qed.

Lemma validate_status body :
  validate_message_schema body (Some SCHEMA_STATUS) =
  if is_empty (trim body)
  then Err (InvalidParams "Schema 'status' requires non-empty body") else Ok tt.
Proof. reflexivity. Qed.

Lemma validate_benchmark body :
  validate_message_schema body (Some SCHEMA_BENCHMARK) =
  if negb (contains_char body "=")
  then Err (InvalidParams "Schema 'benchmark' requires key=value metrics in body")
  else Ok tt.
Proof. reflexivity. Qed.

(** ** Properties *)

(** C35. Fitting and validation agree: the fitted body of a known schema passes
    validation exactly when it is not one of the two shapes fitting leaves alone
    (a finding that declares [FINDING:] without [SEVERITY:], a blank status).
    Fitting never changes whether a message is accepted for any other reason. *)
Theorem fitted_body_validates `{UnicodeCase} (body : string) (s : MessageSchema) :
  is_ok (validate_message_schema (auto_fit_schema body (Some (schema_as_str s)))
           (Some (schema_as_str s))) =
  match s with
  | Finding => negb (contains body "FINDING:") || contains body "SEVERITY:"
  | Status => negb (is_empty (trim body))
  | Benchmark => true
  end.
Proof.
  destruct s; cbn [schema_as_str].
  - change (auto_fit_schema body (Some SCHEMA_FINDING)) with (auto_fit_finding body true).1.
    rewrite validate_finding. unfold auto_fit_finding.
    destruct (contains body "FINDING:") eqn:EF; cbn [orb fst].
    { rewrite EF. cbn [negb andb orb]. by destruct (contains body "SEVERITY:"). }
    destruct (contains body "FIX" || contains body "COMPLETE") eqn:EX; cbn [fst].
    { rewrite EF. apply orb_true_iff in EX as [->| ->]; simpl; [done|].
      by rewrite !andb_false_r. }
    set (sev := if contains _ "CRITICAL" then _ else _).
    destruct (fitted_finding_contains body sev) as [H1 H2]. by rewrite H1, H2.
  - change (auto_fit_schema body (Some SCHEMA_STATUS)) with body.
    rewrite validate_status. by destruct (is_empty (trim body)).
  - change (auto_fit_schema body (Some SCHEMA_BENCHMARK)) with (auto_fit_benchmark body true).1.
    rewrite validate_benchmark. unfold auto_fit_benchmark.
    destruct (contains_char body "=") eqn:E; cbn [fst]; [by rewrite E|].
    unfold contains_char. by rewrite contains_app_l.
Qed.
