(* ===== verification/McpSchema.v ===== *)
(** * McpSchema: the MCP tool schemas and the argument check

    Models the [schemas] module, the argument extraction helpers,
    [tool_definitions] and [validate_tool_arguments] of
    [crates/agent-bus-core/src/mcp_dispatch.rs]. The check is the gate of every
    MCP call and of every durable request; [tool_accepts] states what a schema
    promises, independently of the error messages. *)

From Stdlib Require Import ZArith Lia.
From stdpp Require Import base option list strings.
From S2P Require Import Prelude Str Json Validation.

(** ** Schemas *)

Module schemas.
Definition schema_for (props : json) (required : list string) : json :=
  let schema := insert "type" (JStr "object") [] in
  let schema := insert "properties" props schema in
  let schema := insert "additionalProperties" (JBool false) schema in
  JObj (match required with
        | [] => schema
        | _ => insert "required" (jstr_list required) schema
        end).

Definition bus_health : json :=
  schema_for (obj [])
    [].

Definition post_message : json :=
  schema_for (obj [("sender", obj [("type", JStr "string")]);
    ("recipient", obj [("type", JStr "string")]);
    ("topic", obj [("type", JStr "string")]);
    ("body", obj [("type", JStr "string")]);
    ("tags", obj [("type", JStr "array"); ("items", obj [("type", JStr "string")])]);
    ("thread_id", obj [("type", JStr "string")]);
    ("priority", obj [("type", JStr "string"); ("enum", jstr_list ["low"; "normal"; "high"; "urgent"])]);
    ("request_ack", obj [("type", JStr "boolean")]);
    ("reply_to", obj [("type", JStr "string")]);
    ("metadata", obj [("type", JStr "object")]);
    ("schema", obj [("type", JStr "string"); ("enum", jstr_list ["finding"; "status"; "benchmark"])])])
    ["sender"; "recipient"; "topic"; "body"].

Definition list_messages : json :=
  schema_for (obj [("agent", obj [("type", JStr "string")]);
    ("sender", obj [("type", JStr "string")]);
    ("topic", obj [("type", JStr "string")]);
    ("repo", obj [("type", JStr "string")]);
    ("session", obj [("type", JStr "string")]);
    ("tag", obj [("type", JStr "array"); ("items", obj [("type", JStr "string")])]);
    ("thread_id", obj [("type", JStr "string")]);
    ("since_minutes", obj [("type", JStr "integer"); ("minimum", jint 1); ("maximum", jint 10080)]);
    ("limit", obj [("type", JStr "integer"); ("minimum", jint 1); ("maximum", jint 500)]);
    ("include_broadcast", obj [("type", JStr "boolean")])])
    [].

Definition ack_message : json :=
  schema_for (obj [("agent", obj [("type", JStr "string")]);
    ("message_id", obj [("type", JStr "string")]);
    ("body", obj [("type", JStr "string")])])
    ["agent"; "message_id"].

Definition set_presence : json :=
  schema_for (obj [("agent", obj [("type", JStr "string")]);
    ("status", obj [("type", JStr "string")]);
    ("session_id", obj [("type", JStr "string")]);
    ("capabilities", obj [("type", JStr "array"); ("items", obj [("type", JStr "string")])]);
    ("ttl_seconds", obj [("type", JStr "integer"); ("minimum", jint 1); ("maximum", jint 86400)]);
    ("metadata", obj [("type", JStr "object")])])
    ["agent"].

Definition list_presence : json :=
  schema_for (obj [])
    [].

Definition list_presence_history : json :=
  schema_for (obj [("agent", obj [("type", JStr "string")]);
    ("since_minutes", obj [("type", JStr "integer"); ("minimum", jint 1); ("maximum", jint 10080)]);
    ("limit", obj [("type", JStr "integer"); ("minimum", jint 1); ("maximum", jint 500)])])
    [].

Definition negotiate : json :=
  schema_for (obj [])
    [].

Definition create_channel : json :=
  schema_for (obj [("channel_type", obj [("type", JStr "string"); ("enum", jstr_list ["direct"; "group"; "escalate"; "arbitrate"])]);
    ("name", obj [("type", JStr "string"); ("description", JStr "Group name (for group channels)")]);
    ("members", obj [("type", JStr "array"); ("items", obj [("type", JStr "string")]); ("description", JStr "Initial members (for group channels)")]);
    ("created_by", obj [("type", JStr "string"); ("description", JStr "Creating agent ID")])])
    ["channel_type"; "created_by"].

Definition post_to_channel : json :=
  schema_for (obj [("channel_type", obj [("type", JStr "string"); ("enum", jstr_list ["direct"; "group"; "escalate"])]);
    ("sender", obj [("type", JStr "string")]);
    ("recipient", obj [("type", JStr "string"); ("description", JStr "Agent ID (for direct) or group name (for group)")]);
    ("topic", obj [("type", JStr "string")]);
    ("body", obj [("type", JStr "string")]);
    ("thread_id", obj [("type", JStr "string")]);
    ("tags", obj [("type", JStr "array"); ("items", obj [("type", JStr "string")])])])
    ["channel_type"; "sender"; "body"].

Definition read_channel : json :=
  schema_for (obj [("channel_type", obj [("type", JStr "string"); ("enum", jstr_list ["direct"; "group"])]);
    ("agent_a", obj [("type", JStr "string"); ("description", JStr "First agent (for direct)")]);
    ("agent_b", obj [("type", JStr "string"); ("description", JStr "Second agent (for direct)")]);
    ("group_name", obj [("type", JStr "string"); ("description", JStr "Group name (for group)")]);
    ("limit", obj [("type", JStr "integer"); ("minimum", jint 1); ("maximum", jint 500)])])
    ["channel_type"].

Definition claim_resource : json :=
  schema_for (obj [("resource", obj [("type", JStr "string"); ("description", JStr "File/directory path to claim")]);
    ("agent", obj [("type", JStr "string"); ("description", JStr "Claiming agent ID")]);
    ("reason", obj [("type", JStr "string"); ("description", JStr "Why this agent needs first-edit")]);
    ("mode", obj [("type", JStr "string"); ("enum", jstr_list ["shared"; "shared_namespaced"; "exclusive"])]);
    ("namespace", obj [("type", JStr "string")]);
    ("scope_kind", obj [("type", JStr "string")]);
    ("scope_path", obj [("type", JStr "string")]);
    ("repo_scopes", obj [("type", JStr "array"); ("items", obj [("type", JStr "string")])]);
    ("thread_id", obj [("type", JStr "string")]);
    ("lease_ttl_seconds", obj [("type", JStr "integer"); ("minimum", jint 1); ("maximum", jint 86400)]);
    ("scope", obj [("type", JStr "string"); ("enum", jstr_list ["repo"; "machine"]); ("description", JStr "Visibility scope: repo (default) or machine. Auto-detected from resource name if omitted.")])])
    ["resource"; "agent"].

Definition renew_claim : json :=
  schema_for (obj [("resource", obj [("type", JStr "string")]);
    ("agent", obj [("type", JStr "string")]);
    ("lease_ttl_seconds", obj [("type", JStr "integer"); ("minimum", jint 1); ("maximum", jint 86400)])])
    ["resource"; "agent"].

Definition release_claim : json :=
  schema_for (obj [("resource", obj [("type", JStr "string")]);
    ("agent", obj [("type", JStr "string")])])
    ["resource"; "agent"].

Definition resolve_claim : json :=
  schema_for (obj [("resource", obj [("type", JStr "string")]);
    ("winner", obj [("type", JStr "string"); ("description", JStr "Agent ID that wins first-edit")]);
    ("reason", obj [("type", JStr "string"); ("description", JStr "Rationale for the decision")]);
    ("resolved_by", obj [("type", JStr "string"); ("description", JStr "Decision-maker agent ID")])])
    ["resource"; "winner"].

Definition check_inbox : json :=
  schema_for (obj [("agent", obj [("type", JStr "string"); ("description", JStr "Agent ID to check inbox for")]);
    ("repo", obj [("type", JStr "string"); ("description", JStr "Restrict to repo:<value> tagged messages")]);
    ("session", obj [("type", JStr "string"); ("description", JStr "Restrict to session:<value> tagged messages")]);
    ("tag", obj [("type", JStr "array"); ("items", obj [("type", JStr "string")]); ("description", JStr "Require all listed tags")]);
    ("thread_id", obj [("type", JStr "string"); ("description", JStr "Restrict to one thread")]);
    ("limit", obj [("type", JStr "integer"); ("description", JStr "Maximum messages to return (default 10, max 100)"); ("minimum", jint 1); ("maximum", jint 100)]);
    ("reset_cursor", obj [("type", JStr "boolean"); ("description", JStr "When true, reset the cursor to 0-0 before reading (re-delivers all messages)")])])
    ["agent"].

Definition knock_agent : json :=
  schema_for (obj [("sender", obj [("type", JStr "string")]);
    ("recipient", obj [("type", JStr "string")]);
    ("body", obj [("type", JStr "string")]);
    ("thread_id", obj [("type", JStr "string")]);
    ("tags", obj [("type", JStr "array"); ("items", obj [("type", JStr "string")])]);
    ("request_ack", obj [("type", JStr "boolean")])])
    ["sender"; "recipient"].
End schemas.

(** ** Argument extraction *)

Definition get_str_or (params : fields) (key default : string) : string :=
  from_option id default (get_str params key).
Definition get_bool_or (params : fields) (key : string) (default : bool) : bool :=
  from_option id default (get params key ≫= as_bool).
Definition get_u64_or (params : fields) (key : string) (default : Z) : Z :=
  from_option id default (get params key ≫= as_u64).
(** [usize] is 64 bits wide, so the conversion always succeeds. *)
Definition get_usize_or (params : fields) (key : string) (default : Z) : Z :=
  from_option id default (get params key ≫= as_u64).
Definition get_string_array (params : fields) (key : string) : list string :=
  from_option (omap as_str) [] (get params key ≫= as_array).
Definition get_object_or_empty (params : fields) (key : string) : json :=
  match get params key with
  | Some v => if is_object v then v else JObj []
  | None => JObj []
  end.

(** ** Tool definitions *)

Record ToolDefinition := mkTool { name : string; schema : json }.

Definition tool_definitions : list ToolDefinition := [
  mkTool "bus_health" schemas.bus_health;
  mkTool "post_message" schemas.post_message;
  mkTool "list_messages" schemas.list_messages;
  mkTool "ack_message" schemas.ack_message;
  mkTool "set_presence" schemas.set_presence;
  mkTool "list_presence" schemas.list_presence;
  mkTool "list_presence_history" schemas.list_presence_history;
  mkTool "negotiate" schemas.negotiate;
  mkTool "create_channel" schemas.create_channel;
  mkTool "post_to_channel" schemas.post_to_channel;
  mkTool "read_channel" schemas.read_channel;
  mkTool "claim_resource" schemas.claim_resource;
  mkTool "renew_claim" schemas.renew_claim;
  mkTool "release_claim" schemas.release_claim;
  mkTool "resolve_claim" schemas.resolve_claim;
  mkTool "knock_agent" schemas.knock_agent;
  mkTool "check_inbox" schemas.check_inbox ].

(** ** Validation *)

Definition json_integer_as_i128 (value : json) : option Z :=
  match as_i64 value with
  | Some n => Some n
  | None => as_u64 value
  end.

Definition value_matches_schema_type (value : json) (expected : string) : bool :=
  if bool_decide (expected = "array") then is_array value
  else if bool_decide (expected = "boolean") then is_boolean value
  else if bool_decide (expected = "integer") then
    bool_decide (is_Some (as_i64 value)) || bool_decide (is_Some (as_u64 value))
  else if bool_decide (expected = "null") then is_null value
  else if bool_decide (expected = "number") then is_number value
  else if bool_decide (expected = "object") then is_object value
  else if bool_decide (expected = "string") then is_string value
  else false.

(** The three constraint blocks that follow the type test, each returning the
    violations it pushes. *)
Definition enum_violations (key : string) (value schema : json) : list string :=
  match vget schema "enum" ≫= as_array with
  | Some allowed =>
      if bool_decide (value ∈ allowed) then [] else [key +:+ " is not an allowed value"]
  | None => []
  end.

Definition range_violations (key : string) (value schema : json) : list string :=
  match json_integer_as_i128 value with
  | Some actual =>
      (match vget schema "minimum" ≫= json_integer_as_i128 with
       | Some minimum =>
           if (actual <? minimum)%Z then [key +:+ " is below the minimum"] else []
       | None => []
       end) ++
      (match vget schema "maximum" ≫= json_integer_as_i128 with
       | Some maximum =>
           if (maximum <? actual)%Z then [key +:+ " exceeds the maximum"] else []
       | None => []
       end)
  | None => []
  end.

Definition item_violations (key : string) (value schema : json) : list string :=
  match vget schema "items", as_array value with
  | Some items, Some values =>
      omap (λ '(index, item),
        match vget items "type" ≫= as_str with
        | Some item_type =>
            if value_matches_schema_type item item_type then None
            else Some (key +:+ "[" +:+ dec (Z.of_nat index) +:+ "] must be " +:+ item_type)
        | None => None
        end) (enumerate values)
  | _, _ => []
  end.

Definition validate_schema_value (key : string) (value schema : json) : list string :=
  let expected_type := vget schema "type" ≫= as_str in
  match expected_type with
  | Some expected =>
      if negb (value_matches_schema_type value expected)
      then [key +:+ " must be " +:+ expected]
      else
        enum_violations key value schema ++
        (if bool_decide (expected = "integer") then range_violations key value schema else []) ++
        (if bool_decide (expected = "array") then item_violations key value schema else [])
  | None => enum_violations key value schema
  end.

Definition required_of (schema : json) : list string :=
  from_option (omap as_str) [] (vget schema "required" ≫= as_array).

Definition validate_tool_arguments (tool_name : string) (args : fields) : Result unit :=
  let? tool := ok_or (Internal ("unknown tool: " +:+ tool_name))
    (find (λ t, bool_decide (name t = tool_name)) tool_definitions) in
  let? properties := ok_or
    (Internal ("tool schema has no properties object: " +:+ tool_name))
    (vget (schema tool) "properties" ≫= as_object) in
  let missing := sort_by str_le
    (List.filter (λ key, negb (contains_key args key)) (required_of (schema tool))) in
  match missing with
  | _ :: _ => Err (InvalidParams ("missing required argument(s) for " +:+ tool_name
                +:+ ": " +:+ join ", " missing))
  | [] =>
      let unknown := sort_by str_le
        (List.filter (λ key, negb (contains_key properties key)) (map fst args)) in
      match unknown with
      | _ :: _ => Err (InvalidParams ("unknown argument(s) for " +:+ tool_name
                    +:+ ": " +:+ join ", " unknown))
      | [] =>
          let violations := sort_by str_le
            (mbind (λ '(key, value),
               match get properties key with
               | Some property_schema => validate_schema_value key value property_schema
               | None => []
               end) args) in
          match violations with
          | [] => Ok tt
          | _ :: _ => Err (InvalidParams ("invalid argument(s) for " +:+ tool_name
                        +:+ ": " +:+ join "; " violations))
          end
      end
  end.

(** ** Specification *)

(** What a property schema promises of a value, read off the schema. *)
Definition conforms (value schema : json) : Prop :=
  (∀ t, vget schema "type" ≫= as_str = Some t → value_matches_schema_type value t = true) ∧
  (∀ allowed, vget schema "enum" ≫= as_array = Some allowed → value ∈ allowed) ∧
  (vget schema "type" ≫= as_str = Some "integer" →
     ∀ n, json_integer_as_i128 value = Some n →
     (∀ lo, vget schema "minimum" ≫= json_integer_as_i128 = Some lo → (lo ≤ n)%Z) ∧
     (∀ hi, vget schema "maximum" ≫= json_integer_as_i128 = Some hi → (n ≤ hi)%Z)) ∧
  (vget schema "type" ≫= as_str = Some "array" →
     ∀ items values t item, vget schema "items" = Some items → as_array value = Some values →
     vget items "type" ≫= as_str = Some t → item ∈ values →
     value_matches_schema_type item t = true).

(** The arguments a tool accepts: every required name present, no unknown name,
    every value conforming to its property's schema. *)
Definition tool_accepts (tool : ToolDefinition) (args : fields) : Prop :=
  ∃ properties, vget (schema tool) "properties" ≫= as_object = Some properties ∧
  (∀ key, key ∈ required_of (schema tool) → is_Some (get args key)) ∧
  (∀ key value, (key, value) ∈ args →
     ∃ ps, get properties key = Some ps ∧ conforms value ps).

(** ** Facts *)

Lemma sort_by_nil {A} (leb : A → A → bool) l : sort_by leb l = [] ↔ l = [].
Proof.
  split; [|by intros ->]. intros H. pose proof (sort_by_perm leb l) as P.
  rewrite H in P. by apply Permutation_nil_l in P.
Qed.

Lemma filter_nil_iff {A} (f : A → bool) l :
  List.filter f l = [] ↔ ∀ x, x ∈ l → f x = false.
Proof.
  induction l as [|y l IH]; simpl; [split; [intros _ x H; inversion H|done]|].
  destruct (f y) eqn:E; split; intros H.
  - done.
  - specialize (H y). rewrite E in H. discriminate H. left.
  - intros x [->|Hx]%elem_of_cons; [done|]. by apply IH.
  - apply IH. intros x Hx. apply H. by right.
Qed.

Lemma bind_nil_iff {A B} (f : A → list B) l :
  mbind f l = [] ↔ ∀ x, x ∈ l → f x = [].
Proof.
  induction l as [|y l IH]; csimpl; [split; [intros _ x H; inversion H|done]|].
  split.
  - intros [Hy Hl]%app_eq_nil x [->|Hx]%elem_of_cons; [done|]. by apply IH.
  - intros H. rewrite (H y) by left. simpl. apply IH. intros x Hx. apply H. by right.
Qed.

Lemma omap_nil_iff {A B} (f : A → option B) l :
  omap f l = [] ↔ ∀ x, x ∈ l → f x = None.
Proof.
  induction l as [|y l IH]; csimpl; [split; [intros _ x H; inversion H|done]|].
  destruct (f y) eqn:E; split; intros H.
  - done.
  - specialize (H y). rewrite E in H. discriminate H. left.
  - intros x [->|Hx]%elem_of_cons; [done|]. by apply IH.
  - apply IH. intros x Hx. apply H. by right.
Qed.

Lemma contains_key_is_Some m key : contains_key m key = true ↔ is_Some (get m key).
Proof. unfold contains_key. case_match; split; naive_solver. Qed.

Lemma enum_violations_nil key v s :
  enum_violations key v s = [] ↔
  ∀ allowed, vget s "enum" ≫= as_array = Some allowed → v ∈ allowed.
Proof.
  unfold enum_violations. case_match; [|naive_solver].
  case_bool_decide; naive_solver.
Qed.

Lemma range_violations_nil key v s :
  range_violations key v s = [] ↔
  ∀ n, json_integer_as_i128 v = Some n →
    (∀ lo, vget s "minimum" ≫= json_integer_as_i128 = Some lo → (lo ≤ n)%Z) ∧
    (∀ hi, vget s "maximum" ≫= json_integer_as_i128 = Some hi → (n ≤ hi)%Z).
Proof.
  unfold range_violations. destruct (json_integer_as_i128 v) as [n|]; [|naive_solver].
  rewrite app_nil. destruct (vget s "minimum" ≫= _) as [lo|], (vget s "maximum" ≫= _) as [hi|];
    repeat match goal with |- context [(?a <? ?b)%Z] => destruct (Z.ltb_spec a b) end;
    split; try naive_solver lia.
  all: intros Hn; destruct (Hn n eq_refl) as [Hlo Hhi];
    try specialize (Hlo _ eq_refl); try specialize (Hhi _ eq_refl); lia.
Qed.

Lemma item_violations_nil key v s :
  item_violations key v s = [] ↔
  ∀ items values t item, vget s "items" = Some items → as_array v = Some values →
    vget items "type" ≫= as_str = Some t → item ∈ values →
    value_matches_schema_type item t = true.
Proof.
  unfold item_violations.
  destruct (vget s "items") as [items|]; [|naive_solver].
  destruct (as_array v) as [values|]; [|naive_solver].
  rewrite omap_nil_iff. split.
  - intros H ? ? t item [= <-] [= <-] Ht Hin.
    apply list_elem_of_lookup in Hin as [i Hi].
    specialize (H (i, item)). simpl in H. rewrite Ht in H.
    destruct (value_matches_schema_type item t); [done|].
    assert (Some _ = None) as Hbad by (apply H, elem_of_enumerate, Hi). discriminate Hbad.
  - intros H [i item] Hin%elem_of_enumerate.
    destruct (vget items "type" ≫= as_str) as [t|] eqn:Et; [|done].
    rewrite (H items values t item); try done. by eapply list_elem_of_lookup_2.
Qed.

Lemma if_nil_iff {A} (t u : string) (l : list A) :
  (if bool_decide (t = u) then l else []) = [] ↔ (Some t = Some u → l = []).
Proof.
  case_bool_decide as E; [subst; split; [done|intros H; by apply H]|].
  split; [intros _ [= ?]; done|done].
Qed.

Lemma validate_schema_value_nil key v s :
  validate_schema_value key v s = [] ↔ conforms v s.
Proof.
  unfold validate_schema_value, conforms.
  destruct (vget s "type" ≫= as_str) as [t|] eqn:Et.
  - destruct (value_matches_schema_type v t) eqn:Em; cbn [negb].
    2: { split; [done|]. intros [H _]. specialize (H t eq_refl). congruence. }
    rewrite !app_nil, enum_violations_nil.
    assert (Hr : (if bool_decide (t = "integer") then range_violations key v s else []) = [] ↔
      (Some t = Some "integer" → range_violations key v s = [])).
    { apply if_nil_iff. }
    assert (Ha : (if bool_decide (t = "array") then item_violations key v s else []) = [] ↔
      (Some t = Some "array" → item_violations key v s = [])).
    { apply if_nil_iff. }
    rewrite Hr, Ha, range_violations_nil, item_violations_nil.
    split; [intros ?; split; [by intros ? [= <-]|done]|tauto].
  - rewrite enum_violations_nil. split; [intros ?; by split_and!|tauto].
Qed.

Lemma get_elem_of m key v : get m key = Some v → (key, v) ∈ m.
Proof.
  induction m as [|[k w] m IH]; simpl; [done|].
  case_decide as E; intros H; [subst; injection H as ->; left|]. right. by apply IH.
Qed.

Lemma elem_of_get m key v : (key, v) ∈ m → is_Some (get m key).
Proof.
  induction m as [|[k w] m IH]; simpl; [by intros ?%elem_of_nil|].
  intros [[= -> ->]|?]%elem_of_cons; [rewrite decide_True by done; eauto|].
  case_decide; [eauto|]. by apply IH.
Qed.

(** ** Properties *)

(** The MCP argument gate is exactly its schema: for a known tool,
    [validate_tool_arguments] accepts the arguments if and only if every required
    name is present, every name is declared and every value conforms to its
    property's type, enumeration, integer range and item type. *)
Theorem validate_tool_arguments_spec (tool_name : string) (tool : ToolDefinition)
    (args : fields) :
  find (λ t, bool_decide (name t = tool_name)) tool_definitions = Some tool →
  validate_tool_arguments tool_name args = Ok tt ↔ tool_accepts tool args.
Proof.
  intros Ht. unfold validate_tool_arguments, tool_accepts. rewrite Ht. cbn [ok_or rbind].
  destruct (vget (schema tool) "properties" ≫= as_object) as [props|] eqn:Ep; cbn [ok_or rbind].
  2: { split; [done|]. intros (? & ? & _). done. }
  set (miss := List.filter _ (required_of _)).
  set (unk := List.filter _ (map fst args)).
  set (viol := mbind _ args).
  assert (Hm : miss = [] ↔ ∀ key, key ∈ required_of (schema tool) → is_Some (get args key)).
  { unfold miss. rewrite filter_nil_iff. setoid_rewrite negb_false_iff.
    by setoid_rewrite contains_key_is_Some. }
  assert (Hu : unk = [] ↔ ∀ key value, (key, value) ∈ args → is_Some (get props key)).
  { unfold unk. rewrite filter_nil_iff. setoid_rewrite negb_false_iff.
    setoid_rewrite contains_key_is_Some. change (map fst args) with (args.*1).
    setoid_rewrite list_elem_of_fmap. split.
    - intros H k v Hin. apply H. by exists (k, v).
    - intros H k ([k' v] & -> & Hin). by apply (H k' v). }
  assert (Hv : viol = [] ↔ ∀ key value, (key, value) ∈ args →
     ∀ ps, get props key = Some ps → conforms value ps).
  { unfold viol. rewrite bind_nil_iff. split.
    - intros H k v Hin ps Hps. specialize (H _ Hin). simpl in H. rewrite Hps in H.
      by apply validate_schema_value_nil in H.
    - intros H [k v] Hin. destruct (get props k) as [ps|] eqn:E; [|done].
      apply validate_schema_value_nil. by eapply H. }
  destruct (sort_by str_le miss) eqn:E1.
  2: { split; [done|]. intros (? & [= <-] & Hreq & _). apply Hm in Hreq.
       rewrite Hreq in E1. done. }
  apply sort_by_nil in E1. destruct (sort_by str_le unk) eqn:E2.
  2: { split; [done|]. intros (? & [= <-] & _ & Hall).
       assert (unk = []) as Hu0; [|by rewrite Hu0 in E2].
       apply Hu. intros k v Hin. destruct (Hall _ _ Hin) as (ps & -> & _). eauto. }
  apply sort_by_nil in E2. destruct (sort_by str_le viol) eqn:E3.
  - apply sort_by_nil in E3. split; [intros _|done]. exists props.
    split; [done|]. split; [by apply Hm|]. intros k v Hin.
    destruct ((proj1 Hu) E2 _ _ Hin) as [ps Hps]. exists ps.
    split; [done|]. by eapply (proj1 Hv).
  - split; [done|]. intros (? & [= <-] & _ & Hall).
    assert (viol = []) as Hv0; [|by rewrite Hv0 in E3].
    apply Hv. intros k v Hin ps Hps. destruct (Hall _ _ Hin) as (ps' & ? & ?). congruence.
Qed.

Lemma validate_tool_arguments_spec_witness :
  validate_tool_arguments "set_presence"
    [("agent", JStr "codex"); ("ttl_seconds", jint 0)] ≠ Ok tt ∧
  tool_accepts (mkTool "set_presence" schemas.set_presence)
    [("agent", JStr "codex"); ("ttl_seconds", jint 60)].
Proof.
  split; [vm_compute; discriminate|].
  apply (validate_tool_arguments_spec "set_presence"); vm_compute; reflexivity.
Defined.
