(* ===== verification/ClaimTypes.v ===== *)
(** * ClaimTypes: channels, leases and ownership claims as data

    The types, constants, key builders and pure helpers of
    [crates/agent-bus-core/src/channels.rs], and the option parsers of
    [ops/claim.rs]. Instants are nanoseconds since the Unix epoch; formatting and
    parsing them is [chrono]'s and enters as the interface [Chrono]. *)

From Stdlib Require Import ZArith Lia Ascii.
From stdpp Require Import base option list strings.
From S2P Require Import Prelude Str Json Validation.

(** ** Constants *)

Definition CHANNEL_STREAM_MAXLEN : Z := 1000.
Definition CLAIM_TTL_SECS : Z := 3600.
Definition DIRECT_STREAM_TTL_SECS : Z := 604800.
Definition GROUP_MEMBERS_TTL_SECS : Z := 2592000.
Definition DIRECT_PREFIX : string := "bus:direct:".
Definition GROUP_PREFIX : string := "bus:group:".
Definition CLAIMS_PREFIX : string := "bus:claims:".
Definition MEMBERS_SUFFIX : string := ":members".
Definition META_SUFFIX : string := ":meta".

(** ** Data *)

Inductive ClaimStatus : Type := Pending | Granted | Contested | ReviewAssigned.
Inductive ResourceLeaseMode : Type := Shared | SharedNamespaced | Exclusive.
Inductive ResourceScope : Type := Repo | Machine.

#[export] Instance ClaimStatus_eq_dec : EqDecision ClaimStatus.
Proof. solve_decision. Defined.
#[export] Instance ResourceLeaseMode_eq_dec : EqDecision ResourceLeaseMode.
Proof. solve_decision. Defined.
#[export] Instance ResourceScope_eq_dec : EqDecision ResourceScope.
Proof. solve_decision. Defined.

Definition default_lease_mode : ResourceLeaseMode := Exclusive.
Definition default_resource_scope : ResourceScope := Repo.
Definition default_claim_ttl_secs : Z := CLAIM_TTL_SECS.
Definition default_claim_status_pending : ClaimStatus := Pending.

Record ClaimOptions := mkOptions {
  o_mode : ResourceLeaseMode;
  o_namespace : option string;
  o_scope_kind : option string;
  o_scope_path : option string;
  o_repo_scopes : list string;
  o_thread_id : option string;
  o_lease_ttl_seconds : Z;
  o_scope : option ResourceScope;
}.

Record RerouteSuggestion := mkReroute {
  original_resource : string;
  suggested_resource : string;
  isolation_hint : string;
  reason : string;
}.

Record OwnershipClaim := mkClaim {
  resource : string;
  agent : string;
  priority_argument : string;
  timestamp : string;
  status : ClaimStatus;
  mode : ResourceLeaseMode;
  namespace : option string;
  scope_kind : option string;
  scope_path : option string;
  repo_scopes : list string;
  thread_id : option string;
  lease_ttl_seconds : Z;
  expires_at : option string;
  scope : ResourceScope;
  reroute_suggestion : option RerouteSuggestion;
}.

Record ArbitrationState := mkArbitration {
  a_resource : string;
  a_claims : list OwnershipClaim;
  a_winner : option string;
  a_resolution_reason : option string;
}.

#[export] Instance RerouteSuggestion_eq_dec : EqDecision RerouteSuggestion.
Proof. solve_decision. Defined.
#[export] Instance OwnershipClaim_eq_dec : EqDecision OwnershipClaim.
Proof. solve_decision. Defined.

(** Field updates of a claim. *)
Definition set_status (c : OwnershipClaim) (s : ClaimStatus) : OwnershipClaim :=
  mkClaim (resource c) (agent c) (priority_argument c) (timestamp c) s (mode c)
    (namespace c) (scope_kind c) (scope_path c) (repo_scopes c) (thread_id c)
    (lease_ttl_seconds c) (expires_at c) (scope c) (reroute_suggestion c).

Definition set_lease (c : OwnershipClaim) (ttl : Z) (ts : string)
    (expires : option string) : OwnershipClaim :=
  mkClaim (resource c) (agent c) (priority_argument c) ts (status c) (mode c)
    (namespace c) (scope_kind c) (scope_path c) (repo_scopes c) (thread_id c)
    ttl expires (scope c) (reroute_suggestion c).

Definition set_reroute (c : OwnershipClaim) (r : option RerouteSuggestion)
    : OwnershipClaim :=
  mkClaim (resource c) (agent c) (priority_argument c) (timestamp c) (status c) (mode c)
    (namespace c) (scope_kind c) (scope_path c) (repo_scopes c) (thread_id c)
    (lease_ttl_seconds c) (expires_at c) (scope c) r.

(** ** Option parsers *)

Definition parse_resource_scope (s : string) : Result ResourceScope :=
  if bool_decide (s = "repo") then Ok Repo
  else if bool_decide (s = "machine") then Ok Machine
  else Err (InvalidParams ("invalid scope '" +:+ s +:+ "'; expected repo|machine")).

Definition parse_lease_mode (m : string) : Result ResourceLeaseMode :=
  if bool_decide (m = "shared") then Ok Shared
  else if bool_decide (m = "shared_namespaced") then Ok SharedNamespaced
  else if bool_decide (m = "exclusive") then Ok Exclusive
  else Err (InvalidParams ("invalid lease mode '" +:+ m
                           +:+ "'; expected shared|shared_namespaced|exclusive")).

(** ** Scope detection *)

Definition MACHINE_GLOBAL_RESOURCES : list string :=
  ["~/bin"; "bin-install"; "cargo-target"; "target-dir"; "port:8400"; "port:8401";
   "agent-bus-service"; "sccache"; "rustup"].

Definition is_machine_global_resource `{UnicodeCase} (res : string) : bool :=
  let lower := to_lowercase res in
  existsb (λ pattern, contains lower pattern) MACHINE_GLOBAL_RESOURCES.

Definition effective_scope `{UnicodeCase} (res : string)
    (explicit : option ResourceScope) : ResourceScope :=
  match explicit with
  | Some s => s
  | None => if is_machine_global_resource res then Machine else Repo
  end.

(** ** Keys *)

Definition direct_key (agent_a agent_b : string) : string :=
  let '(lo, hi) := if str_le agent_a agent_b then (agent_a, agent_b) else (agent_b, agent_a) in
  DIRECT_PREFIX +:+ lo +:+ ":" +:+ hi.

Definition group_stream_key (nm : string) : string := GROUP_PREFIX +:+ nm.
Definition group_members_key (nm : string) : string := GROUP_PREFIX +:+ nm +:+ MEMBERS_SUFFIX.
Definition group_meta_key (nm : string) : string := GROUP_PREFIX +:+ nm +:+ META_SUFFIX.

Definition claims_key (res : string) : string :=
  CLAIMS_PREFIX +:+ replace_char "\" "/" res.
Definition claim_resolution_key (resource_key : string) : string :=
  resource_key +:+ ":resolution".

(** ** Cloud resource names *)

Definition MAX_RESOURCE_NAME_LEN : Z := 256.

Definition normalize_resource_name `{UnicodeCase} (res : string) : string :=
  let folded := to_lowercase (replace_char "\" "/" res) in
  match strip_prefix folded "./" with
  | Some rest => rest
  | None => folded
  end.

(** [s.encode_utf16().count()]: one unit per character, two for the four-byte
    characters; continuation bytes add none. *)
Fixpoint utf16_len (s : string) : Z :=
  match s with
  | EmptyString => 0
  | String a t =>
      ((if byte_in 128 191 a then 0 else if byte_in 240 255 a then 2 else 1)
       + utf16_len t)%Z
  end.

Definition validate_resource_name `{UnicodeCase} (res : string) : Result unit :=
  let normalized := normalize_resource_name res in
  if is_empty normalized then Err (InvalidParams "resource must not be empty")
  else if (MAX_RESOURCE_NAME_LEN <? utf16_len normalized)%Z
  then Err (InvalidParams ("resource exceeds maximum length of "
                           +:+ dec MAX_RESOURCE_NAME_LEN))
  else Ok tt.

(** ** Instants *)

Definition NANOS : Z := 1000000000.

(** [chrono]: [format_us] is [%Y-%m-%dT%H:%M:%S%.6fZ], which truncates to
    microseconds; [parse_rfc3339] reads such a text back for the instants whose
    year has four digits. [max_instant] is [DateTime::<Utc>::MAX_UTC]. *)
Class Chrono := {
  format_us : Z → string;
  parse_rfc3339 : string → option Z;
  four_digit_year : Z → bool;
  parse_format t : four_digit_year t = true →
    parse_rfc3339 (format_us t) = Some (t / 1000 * 1000)%Z;
}.

(** Seconds of [TimeDelta::MAX] and of [DateTime::<Utc>::MAX_UTC]. *)
Definition MAX_DELTA_SECS : Z := 9223372036854775.
Definition MAX_UTC_SECS : Z := 8210266876799.

Section instants.
Context `{Chrono}.

Definition format_timestamp (ts : Z) : string := format_us ts.
Definition parse_timestamp (ts : string) : option Z := parse_rfc3339 ts.

(** [now + TimeDelta::seconds(n)]; [None] where chrono panics. *)
Definition add_seconds (now n : Z) : option Z :=
  if (MAX_DELTA_SECS <? n)%Z then None
  else if (MAX_UTC_SECS <? now / NANOS + n)%Z then None
  else Some (now + n * NANOS)%Z.

(** [None] is a panic of the process, not an error value. *)
Definition compute_expiry (now ttl_seconds : Z) : option string :=
  let ttl := Z.max ttl_seconds 1 in
  let secs := if (ttl <=? I64_MAX)%Z then ttl else I64_MAX in
  format_timestamp <$> add_seconds now secs.

Definition claim_expired (claim : OwnershipClaim) (now : Z) : bool :=
  match expires_at claim ≫= parse_timestamp with
  | Some expiry => (expiry <=? now)%Z
  | None => false
  end.

Definition claims_hash_ttl_seconds (claims : list OwnershipClaim) (now : Z) : Z :=
  let remaining := omap (λ claim,
    match expires_at claim ≫= parse_timestamp with
    | Some expiry => if (now <? expiry)%Z then Some ((expiry - now) / NANOS)%Z else None
    | None => None
    end) claims in
  match remaining with
  | [] => 1
  | r :: rest => foldl Z.max r rest
  end.
End instants.

(** ** Conflicts *)

Definition effective_namespace (ns : option string) : option string :=
  match trim <$> ns with
  | Some v => if is_empty v then None else Some v
  | None => None
  end.

Definition claim_conflicts (left right : OwnershipClaim) : bool :=
  match mode left, mode right with
  | Exclusive, _ | _, Exclusive => true
  | Shared, Shared | SharedNamespaced, Shared | Shared, SharedNamespaced => false
  | SharedNamespaced, SharedNamespaced =>
      match effective_namespace (namespace left), effective_namespace (namespace right) with
      | Some a, Some b => bool_decide (a = b)
      | _, _ => true
      end
  end.

(** The loop updates statuses in place; the conflict test reads modes and
    namespaces only, so each position sees the same other claims. *)
Definition recompute_at (claims : list OwnershipClaim) (idx : nat) (c : OwnershipClaim)
    : OwnershipClaim :=
  let conflicted := existsb
    (λ '(other_idx, other), negb (idx =? other_idx)%nat && claim_conflicts c other)
    (enumerate claims) in
  set_status c (if conflicted then Contested else Granted).

Definition recompute_claim_statuses (claims : list OwnershipClaim) : list OwnershipClaim :=
  map (λ '(idx, c), recompute_at claims idx c) (enumerate claims).

(** ** Facts *)

Lemma claim_conflicts_comm a b : claim_conflicts a b = claim_conflicts b a.
Proof.
  unfold claim_conflicts. destruct (mode a), (mode b); try done.
  repeat case_match; try done. apply bool_decide_ext. naive_solver.
Qed.

Lemma claim_conflicts_set_status_l a b s :
  claim_conflicts (set_status a s) b = claim_conflicts a b.
Proof. reflexivity. Qed.

Lemma claim_conflicts_set_status_r a b s :
  claim_conflicts a (set_status b s) = claim_conflicts a b.
Proof. reflexivity. Qed.

Lemma lookup_recompute claims i :
  recompute_claim_statuses claims !! i = recompute_at claims i <$> claims !! i.
Proof.
  unfold recompute_claim_statuses, enumerate.
  change (map ?f ?l) with (f <$> l). rewrite list_lookup_fmap, lookup_enumerate_from.
  by destruct (claims !! i).
Qed.

Lemma length_recompute claims :
  length (recompute_claim_statuses claims) = length claims.
Proof.
  unfold recompute_claim_statuses, enumerate. by rewrite length_map, length_enumerate_from.
Qed.

Lemma recompute_at_status claims i c :
  status (recompute_at claims i c) = Contested ↔
  ∃ j d, i ≠ j ∧ claims !! j = Some d ∧ claim_conflicts c d = true.
Proof.
  unfold recompute_at. simpl. split.
  - destruct (existsb _ _) eqn:E; [|done]. intros _.
    apply existsb_True in E as ([j d] & Hin & Hj). apply elem_of_enumerate in Hin.
    apply andb_true_iff in Hj as [Hne Hc]. apply negb_true_iff, Nat.eqb_neq in Hne. eauto.
  - intros (j & d & Hne & Hd & Hc).
    assert (existsb (λ '(other_idx, other),
      negb (i =? other_idx)%nat && claim_conflicts c other) (enumerate claims) = true) as ->;
      [|done].
    apply existsb_True. exists (j, d). split; [by apply elem_of_enumerate|].
    rewrite Hc. apply Nat.eqb_neq in Hne. by rewrite Hne.
Qed.

Lemma recompute_at_status_cases claims i c :
  status (recompute_at claims i c) = Contested ∨ status (recompute_at claims i c) = Granted.
Proof. unfold recompute_at. simpl. destruct (existsb _ _); auto. Qed.

Lemma recompute_snoc others new :
  ∃ pre, recompute_claim_statuses (others ++ [new]) =
    pre ++ [set_status new
              (if existsb (claim_conflicts new) others then Contested else Granted)]
    ∧ map agent pre = map agent others.
Proof.
  unfold recompute_claim_statuses, enumerate. rewrite enumerate_from_app, map_app.
  eexists. split; [f_equal|].
  - simpl. f_equal. unfold recompute_at. f_equal.
    replace (existsb _ (enumerate (others ++ [new])))
      with (existsb (claim_conflicts new) others); [done|].
    apply eq_true_iff_eq. rewrite !existsb_True. split.
    + intros (d & Hd & Hc). apply list_elem_of_lookup in Hd as [j Hj].
      exists (j, d). split; [apply elem_of_enumerate; by apply lookup_app_l_Some|].
      rewrite Hc. apply lookup_lt_Some in Hj.
      by rewrite (proj2 (Nat.eqb_neq _ _)) by lia.
    + intros ([j d] & Hd & [Hne Hc]%andb_true_iff). apply elem_of_enumerate in Hd.
      apply negb_true_iff, Nat.eqb_neq in Hne. exists d. split; [|done].
      apply lookup_app_Some in Hd as [Hd | [Hlt Hd]]; [by eapply list_elem_of_lookup_2|].
      apply list_lookup_singleton_Some in Hd as [? _]. lia.
  - apply list_eq. intros i. change (map ?f ?l) with (f <$> l).
    rewrite !list_lookup_fmap, lookup_enumerate_from. by destruct (others !! i).
Qed.

#[export] Hint Rewrite claim_conflicts_set_status_l claim_conflicts_set_status_r : bus.
