(* ===== verification/Outbox.v ===== *)
(** * Outbox: durable client requests and their journal

    Models [crates/agent-bus-core/src/outbox.rs]: the replay request and its
    validation, the append-only journal (header, queued, attempted and settled
    records), opening, appending, enqueueing, settling and flushing.

    The journal's file is its content plus the schedule of what each coming
    append meets in the file system: every failure point of an append (identity
    check, metadata, seek, a write that stops after some bytes, sync) is explicit,
    so statements hold for every such schedule. JSON text, SHA-256 and the
    destination transport are interfaces. *)

From Stdlib Require Import ZArith Lia Ascii.
From stdpp Require Import base option list strings gmap.
From S2P Require Import Prelude Str Json Validation McpSchema ClaimTypes.

Abbreviation uuid := Z.

(** ** Limits *)

Definition JOURNAL_LIMIT : Z := 33554432.
Definition REQUEST_LIMIT : nat := 1000.
Definition RECORD_LIMIT : Z := MAX_BODY_LEN + 16384.

(** ** Data *)

Inductive ClientSurface : Type := Cli | Mcp.

Definition surface_as_str (s : ClientSurface) : string :=
  match s with Cli => "cli" | Mcp => "mcp" end.

Inductive Operation : Type := Send | Presence | Ack | ClaimRequest.

#[export] Instance ClientSurface_eq_dec : EqDecision ClientSurface.
Proof. solve_decision. Defined.
#[export] Instance Operation_eq_dec : EqDecision Operation.
Proof. solve_decision. Defined.

Definition tool_name (op : Operation) : string :=
  match op with
  | Send => "post_message"
  | Presence => "set_presence"
  | Ack => "ack_message"
  | ClaimRequest => "claim_resource"
  end.

Definition from_tool (nm : string) : option Operation :=
  if bool_decide (nm = "post_message") then Some Send
  else if bool_decide (nm = "set_presence") then Some Presence
  else if bool_decide (nm = "ack_message") then Some Ack
  else if bool_decide (nm = "claim_resource") then Some ClaimRequest
  else None.

Record ReplayRequest := mkRequest {
  request_id : uuid;
  origin_id : uuid;
  sequence : Z;
  created_ms : Z;
  expires_ms : Z;
  operation : Operation;
  surface : ClientSurface;
  arguments : fields;
}.

#[export] Instance ReplayRequest_eq_dec : EqDecision ReplayRequest.
Proof. solve_decision. Defined.

Inductive ReplayResponse : Type :=
  | Applied (res : json)
  | Superseded
  | Pending.

Inductive ReplayFailure : Type := Transport | Permanent.

Inductive OutboxError : Type :=
  | Io | JsonError | Corrupt | ScopeChanged | InvalidRequest | Capacity | Custody | Busy.

#[export] Instance OutboxError_eq_dec : EqDecision OutboxError.
Proof. solve_decision. Defined.

Inductive Disposition : Type := DApplied | DExpired | DSuperseded | DRejected.

#[export] Instance Disposition_eq_dec : EqDecision Disposition.
Proof. solve_decision. Defined.

Inductive Event : Type :=
  | Header (header_origin : uuid) (destination : string)
  | Queued (request : ReplayRequest)
  | Attempted (id : uuid)
  | Settled (id : uuid) (disposition : Disposition).

#[export] Instance Event_eq_dec : EqDecision Event.
Proof. solve_decision. Defined.

Record FlushReport := mkReport {
  applied : nat;
  expired : nat;
  superseded : nat;
  rejected : nat;
  remaining : nat;
  blocked_request : option uuid;
  results : gmap uuid json;
  dispositions : gmap uuid Disposition;
}.

Definition empty_report : FlushReport := mkReport 0 0 0 0 0 None ∅ ∅.

(** ** Interfaces

    [serde_json] and SHA-256. A line is the record [{"event":.., "sha256":..}].
    Reading a line back is promised for events without floating-point numbers,
    which is what the crate guarantees without its [float_roundtrip] feature, and for
    lines nested no deeper than its parser goes: it counts down from 128 at every array
    and object and refuses the text when it reaches zero. Writing has no such limit. *)

Fixpoint no_float (v : json) : bool :=
  match v with
  | JNum (Float _) => false
  | JArr l => forallb no_float l
  | JObj m => forallb (λ kv, no_float kv.2) m
  | _ => true
  end.

Definition event_no_float (e : Event) : bool :=
  match e with
  | Queued r => no_float (JObj (arguments r))
  | _ => true
  end.

(** Arrays and objects around one another. *)
Fixpoint depth (v : json) : nat :=
  match v with
  | JArr l => S (foldr (λ w n, Nat.max (depth w) n) 0 l)
  | JObj m => S (foldr (λ kv n, Nat.max (depth kv.2) n) 0 m)
  | _ => 0
  end.

Definition PARSER_DEPTH : nat := 127.

(** The arguments stand in the request, the event and the record. *)
Definition args_nesting (args : fields) : nat := 3 + depth (JObj args).

Definition event_nesting (e : Event) : nat :=
  match e with Queued r => args_nesting (arguments r) | _ => 2 end.

Class JournalCodec := {
  sha256 : string → list Z;
  request_to_vec : ReplayRequest → option string;
  event_to_vec : Event → option string;
  line_to_vec : Event → string → option string;
  line_from_slice : string → option (Event * string);
}.

Class JournalCodecLaws `{JournalCodec} := {
  line_read e h l : event_no_float e = true → line_to_vec e h = Some l →
    line_from_slice l = if event_nesting e <=? PARSER_DEPTH then Some (e, h) else None;
  line_no_newline e h l : line_to_vec e h = Some l →
    contains_char l newline = false ∧ l ≠ "";
}.

Definition HEX (n : Z) : ascii := ascii_of_N (Z.to_N (if (n <? 10)%Z then 48 + n else 87 + n)).

Fixpoint hex_bytes (bytes : list Z) : string :=
  match bytes with
  | [] => ""
  | b :: rest => String (HEX (Z.shiftr b 4)) (String (HEX (Z.land b 15)) (hex_bytes rest))
  end.

Definition digest_hex `{JournalCodec} (bytes : string) : string := hex_bytes (sha256 bytes).

(** ** Validation of a request *)

Section validate.
Context `{UnicodeCase} `{JournalCodec}.

Definition invalid {A} (r : Result A) : result OutboxError A :=
  map_err (λ _, InvalidRequest) r.

Definition required_keys (op : Operation) : list string :=
  match op with
  | Send => ["sender"; "recipient"; "topic"; "body"]
  | Presence => ["agent"]
  | Ack => ["agent"; "message_id"]
  | ClaimRequest => ["agent"; "resource"]
  end.

Fixpoint check_keys (args : fields) (keys : list string) : result OutboxError unit :=
  match keys with
  | [] => Ok tt
  | key :: rest =>
      let? text := ok_or InvalidRequest (get_str args key) in
      let? _ := invalid (non_empty text key) in
      check_keys args rest
  end.

Definition check_claim (args : fields) : result OutboxError unit :=
  let? _ := invalid (parse_lease_mode (from_option id "exclusive" (get_str args "mode"))) in
  match get_str args "scope" with
  | Some s => let? _ := invalid (parse_resource_scope s) in Ok tt
  | None => Ok tt
  end.

Fixpoint check_capabilities (items : list json) : result OutboxError unit :=
  match items with
  | [] => Ok tt
  | v :: rest =>
      let? s := ok_or InvalidRequest (as_str v) in
      let? _ := invalid (reject_nul_bytes s "capability") in
      check_capabilities rest
  end.

Fixpoint check_text_fields (args : fields) (names : list string) : result OutboxError unit :=
  match names with
  | [] => Ok tt
  | nm :: rest =>
      let? _ := match get_str args nm with
                | Some v => invalid (reject_nul_bytes v nm)
                | None => Ok tt
                end in
      check_text_fields args rest
  end.

Definition check_presence (args : fields) : result OutboxError unit :=
  let? _ := check_text_fields args ["status"; "session_id"] in
  match get args "capabilities" ≫= as_array with
  | Some items => check_capabilities items
  | None => Ok tt
  end.

Definition check_send (srf : ClientSurface) (args : fields) : result OutboxError unit :=
  let? topic := ok_or InvalidRequest (get_str args "topic") in
  let? body := ok_or InvalidRequest (get_str args "body") in
  let sch := get_str args "schema" in
  let? resolved := invalid (resolve_message_schema (surface_as_str srf) sch topic) in
  let fitted := auto_fit_schema_quiet body (schema_as_str <$> resolved) in
  invalid (validate_message_schema fitted (schema_as_str <$> resolved)).

Definition lifetime_ms (r : ReplayRequest) : result OutboxError Z :=
  match operation r with
  | Presence | ClaimRequest =>
      let '(field, default) :=
        if decide (operation r = Presence) then ("ttl_seconds", 180%Z)
        else ("lease_ttl_seconds", 3600%Z) in
      let? ttl := match get (arguments r) field with
                  | Some v => ok_or InvalidRequest (as_u64 v)
                  | None => Ok default
                  end in
      if ((1 <=? ttl) && (ttl <=? 86400))%Z
      then ok_or InvalidRequest (checked_mul ttl 1000)
      else Err InvalidRequest
  | Send | Ack => Ok 0%Z
  end.

Definition is_timed (op : Operation) : bool :=
  match op with Presence | ClaimRequest => true | Send | Ack => false end.

Definition validate (r : ReplayRequest) : result OutboxError unit :=
  let? _ := invalid (validate_tool_arguments (tool_name (operation r)) (arguments r)) in
  if bool_decide (sequence r = 0%Z)
     || (negb (is_timed (operation r)) && negb (bool_decide (expires_ms r = 0%Z)))
     || (is_timed (operation r) && (expires_ms r <=? created_ms r)%Z)
  then Err InvalidRequest
  else
    let? _ := check_keys (arguments r) (required_keys (operation r)) in
    let? _ := (if decide (operation r = ClaimRequest)
               then check_claim (arguments r) else Ok tt) in
    let? _ := (if decide (operation r = Presence)
               then check_presence (arguments r) else Ok tt) in
    let? _ := (if decide (operation r = Send)
               then check_send (surface r) (arguments r) else Ok tt) in
    let? _ := (if is_timed (operation r) then
                 let? life := lifetime_ms r in
                 if bool_decide ((expires_ms r - created_ms r)%Z = life)
                 then Ok tt else Err InvalidRequest
               else Ok tt) in
    let? encoded := ok_or JsonError (request_to_vec r) in
    if (RECORD_LIMIT <? str_len encoded)%Z then Err Capacity else Ok tt.

Definition fingerprint (r : ReplayRequest) : result OutboxError string :=
  let? encoded := ok_or JsonError (request_to_vec r) in Ok (digest_hex encoded).
End validate.

(** ** Ordered maps keyed by sequence

    [BTreeMap<u64, ReplayRequest>]: entries in key order. *)

Fixpoint bt_insert {V} (k : Z) (v : V) (m : list (Z * V)) : list (Z * V) :=
  match m with
  | [] => [(k, v)]
  | (k', v') :: m' =>
      if (k <? k')%Z then (k, v) :: m
      else if (k =? k')%Z then (k, v) :: m'
      else (k', v') :: bt_insert k v m'
  end.

Fixpoint bt_remove {V} (k : Z) (m : list (Z * V)) : list (Z * V) :=
  match m with
  | [] => []
  | (k', v') :: m' => if (k =? k')%Z then m' else (k', v') :: bt_remove k m'
  end.

(** ** The journal *)

(** What one append meets: whether the file is still the one at its path, whether
    its metadata can be read, whether the seek succeeds, how many bytes the write
    stores before failing ([None]: all, without error), and whether the sync
    succeeds. *)
Record io_outcome := mkIo {
  identity_ok : bool;
  metadata_ok : bool;
  seek_ok : bool;
  write_stops_at : option nat;
  sync_ok : bool;
}.

Definition io_fine : io_outcome := mkIo true true true None true.

Record Journal := mkJournal {
  content : string;
  schedule : list io_outcome;
  j_origin_id : uuid;
  next_sequence : Z;
  pending : list (Z * ReplayRequest);
  poisoned : bool;
  attempted : gset uuid;
  has_source_path : bool;
}.

Definition set_file (j : Journal) (c : string) (s : list io_outcome) (p : bool) : Journal :=
  mkJournal c s (j_origin_id j) (next_sequence j) (pending j) p (attempted j)
    (has_source_path j).

Definition set_state (j : Journal) (n : Z) (p : list (Z * ReplayRequest))
    (a : gset uuid) : Journal :=
  mkJournal (content j) (schedule j) (j_origin_id j) n p (poisoned j) a
    (has_source_path j).

Definition set_pending (j : Journal) (p : list (Z * ReplayRequest)) (a : gset uuid) : Journal :=
  set_state j (next_sequence j) p a.

(** First [n] bytes of a text. *)
Fixpoint str_take (n : nat) (s : string) : string :=
  match n, s with
  | S n', String a t => String a (str_take n' t)
  | _, _ => ""
  end.

Section journal.
Context `{UnicodeCase} `{JournalCodec}.

(** The bytes an append writes for an event: its line and a newline. *)
Definition encode_event (e : Event) : result OutboxError string :=
  let? body := ok_or JsonError (event_to_vec e) in
  let? line := ok_or JsonError (line_to_vec e (digest_hex body)) in
  Ok (line +:+ String newline "").

Definition next_io (j : Journal) : io_outcome * Journal :=
  match schedule j with
  | [] => (io_fine, j)
  | o :: s => (o, set_file j (content j) s (poisoned j))
  end.

Definition append (j : Journal) (e : Event) : result OutboxError unit * Journal :=
  if poisoned j then (Err Corrupt, j)
  else
    let '(io, j) := next_io j in
    if has_source_path j && negb (identity_ok io) then (Err Custody, j)
    else
      match encode_event e with
      | Err err => (Err err, j)
      | Ok encoded =>
          if (RECORD_LIMIT <? str_len encoded)%Z then (Err Capacity, j)
          else if negb (metadata_ok io) then (Err Io, j)
          else if (JOURNAL_LIMIT <? saturating_add (str_len (content j)) (str_len encoded))%Z
          then (Err Capacity, j)
          else if negb (seek_ok io) then (Err Io, set_file j (content j) (schedule j) true)
          else
            match write_stops_at io with
            | Some n =>
                (Err Io, set_file j (content j +:+ str_take n encoded) (schedule j) true)
            | None =>
                if sync_ok io
                then (Ok tt, set_file j (content j +:+ encoded) (schedule j) false)
                else (Err Io, set_file j (content j +:+ encoded) (schedule j) true)
            end
      end.

(** *** Opening *)

(** What opening meets: another holder of the lock, a file that is no longer the
    one at its path, an unreadable file. *)
Record open_env := mkOpen {
  lock_free : bool;
  open_identity_ok : bool;
  readable : bool;
}.

Definition open_fine : open_env := mkOpen true true true.

Record load_state := mkLoad {
  l_origin : uuid;
  l_next : Z;
  l_pending : list (Z * ReplayRequest);
  l_attempted : gset uuid;
  header_seen : bool;
  bound : option string;
  all_ids : gset uuid;
}.

Definition load_init (fresh_origin : uuid) : load_state :=
  mkLoad fresh_origin 1 [] ∅ false None ∅.

Definition load_event (expected : option string) (st : load_state) (e : Event)
    : result OutboxError load_state :=
  match e with
  | Header o stored =>
      if header_seen st || negb (bool_decide (all_ids st = ∅)) then Err Corrupt
      else if match expected with Some d => negb (bool_decide (stored = d)) | None => false end
      then Err ScopeChanged
      else Ok (mkLoad o (l_next st) (l_pending st) (l_attempted st) true (Some stored)
                 (all_ids st))
  | Queued r =>
      let? _ := map_err (λ _, Corrupt) (validate r) in
      if negb (header_seen st) || negb (bool_decide (origin_id r = l_origin st))
         || negb (bool_decide (sequence r = l_next st))
         || bool_decide (request_id r ∈ all_ids st)
      then Err Corrupt
      else
        let? nxt := ok_or Corrupt (checked_add (sequence r) 1) in
        Ok (mkLoad (l_origin st) nxt (bt_insert (sequence r) r (l_pending st))
              (l_attempted st) (header_seen st) (bound st)
              ({[request_id r]} ∪ all_ids st))
  | Attempted id =>
      if negb (existsb (λ '(_, r), bool_decide (request_id r = id)) (l_pending st))
         || bool_decide (id ∈ l_attempted st)
      then Err Corrupt
      else Ok (mkLoad (l_origin st) (l_next st) (l_pending st) ({[id]} ∪ l_attempted st)
                 (header_seen st) (bound st) (all_ids st))
  | Settled id _ =>
      match find (λ '(_, r), bool_decide (request_id r = id)) (l_pending st) with
      | None => Err Corrupt
      | Some (seq, _) =>
          Ok (mkLoad (l_origin st) (l_next st) (bt_remove seq (l_pending st))
                (l_attempted st ∖ {[id]}) (header_seen st) (bound st) (all_ids st))
      end
  end.

Definition load_line (expected : option string) (st : load_state) (line : string)
    : result OutboxError load_state :=
  if is_empty line then Err Corrupt
  else if (RECORD_LIMIT <? str_len line)%Z then Err Corrupt
  else
    let? rec := ok_or Corrupt (line_from_slice line) in
    let? body := ok_or JsonError (event_to_vec rec.1) in
    if negb (bool_decide (rec.2 = digest_hex body)) then Err Corrupt
    else load_event expected st rec.1.

Fixpoint load_lines (expected : option string) (st : load_state) (lines : list string)
    : result OutboxError load_state :=
  match lines with
  | [] => Ok st
  | line :: rest =>
      let? st := load_line expected st line in
      load_lines expected st rest
  end.

(** [bytes.strip_suffix("\n").unwrap_or(bytes).split("\n")], nothing for an empty file. *)
Definition journal_lines (bytes : string) : list string :=
  if is_empty bytes then []
  else split_char newline
         (from_option id bytes (strip_suffix bytes (String newline ""))).

Definition load (env : open_env) (bytes : string) (sched : list io_outcome)
    (fresh_origin : uuid) (expected : option string) (source_path : bool)
    : result OutboxError (Journal * option string) * string :=
  if negb (lock_free env) then (Err Busy, bytes)
  else if source_path && negb (open_identity_ok env) then (Err Custody, bytes)
  else if negb (readable env) then (Err Io, bytes)
  else if (JOURNAL_LIMIT <? str_len bytes)%Z then (Err Capacity, bytes)
  else if negb (is_empty bytes) && negb (ends_with bytes (String newline ""))
  then (Err Corrupt, bytes)
  else
    match load_lines expected (load_init fresh_origin) (journal_lines bytes) with
    | Err e => (Err e, bytes)
    | Ok st =>
        let j := mkJournal bytes sched (l_origin st) (l_next st) (l_pending st) false
                   (l_attempted st) source_path in
        let '(headed, j, bnd) :=
          if header_seen st then (Ok tt, j, bound st)
          else if negb (is_empty bytes) then (Err Corrupt, j, bound st)
          else match expected with
               | Some d =>
                   let '(r, j') := append j (Header (j_origin_id j) d) in (r, j', Some d)
               | None => (Ok tt, j, bound st)
               end in
        match headed with
        | Err e => (Err e, content j)
        | Ok _ =>
            if bool_decide (REQUEST_LIMIT < length (pending j)) then (Err Capacity, content j)
            else (Ok (j, bnd), content j)
        end
    end.

Definition validate_destination (d : string) : result OutboxError unit :=
  if is_empty d || (256 <? str_len d)%Z || has_control d then Err ScopeChanged else Ok tt.

(** [open]: custody of the file is the platform helper's answer [opened]. *)
Definition open (opened : bool) (env : open_env) (bytes : string)
    (sched : list io_outcome) (fresh_origin : uuid) (destination : string)
    : result OutboxError Journal * string :=
  if negb opened then (Err Custody, bytes)
  else match validate_destination destination with
       | Err e => (Err e, bytes)
       | Ok _ =>
           let '(r, c) := load env bytes sched fresh_origin (Some destination) true in
           ((let? p := r in Ok p.1), c)
       end.

(** *** Inspection *)

Record JournalInspection := mkInspection {
  i_destination : option string;
  i_origin_id : option uuid;
  i_pending : list ReplayRequest;
  i_attempted : gset uuid;
}.

Definition inspection (j : Journal) (destination : option string) : JournalInspection :=
  mkInspection destination ((λ _, j_origin_id j) <$> destination)
    (map snd (pending j)) (attempted j).

Definition inspect (opened : bool) (env : open_env) (bytes : string)
    (sched : list io_outcome) (fresh_origin : uuid)
    : result OutboxError JournalInspection * string :=
  if negb opened then (Err Custody, bytes)
  else
    let '(r, c) := load env bytes sched fresh_origin None true in
    ((let? p := r in Ok (inspection p.1 p.2)), c).

Definition can_retire_expired (i : JournalInspection) (r : ReplayRequest) (now : Z) : bool :=
  negb (bool_decide (expires_ms r = 0%Z)) && (expires_ms r <=? now)%Z
  && negb (bool_decide (request_id r ∈ i_attempted i)).

(** *** Enqueueing *)

Definition enqueue_ttl (op : Operation) (args : fields) : option Z :=
  match op with
  | Presence => checked_mul (from_option id 180%Z (get args "ttl_seconds" ≫= as_u64)) 1000
  | ClaimRequest =>
      checked_mul (from_option id 3600%Z (get args "lease_ttl_seconds" ≫= as_u64)) 1000
  | Send | Ack => Some 0%Z
  end.

(** [fresh_id] is [Uuid::now_v7()]. *)
Definition enqueue (j : Journal) (op : Operation) (srf : ClientSurface) (args : fields)
    (now_ms : Z) (fresh_id : uuid) : result OutboxError ReplayRequest * Journal :=
  if bool_decide (REQUEST_LIMIT ≤ length (pending j)) then (Err Capacity, j)
  else
    let prepared :=
      let? ttl := ok_or InvalidRequest (enqueue_ttl op args) in
      let? expires := (if bool_decide (ttl = 0%Z) then Ok 0%Z
                       else ok_or InvalidRequest (checked_add now_ms ttl)) in
      let request := mkRequest fresh_id (j_origin_id j) (next_sequence j) now_ms expires
                       op srf args in
      let? _ := validate request in
      let? nxt := ok_or Capacity (checked_add (next_sequence j) 1) in
      Ok (request, nxt) in
    match prepared with
    | Err e => (Err e, j)
    | Ok (request, nxt) =>
        let '(r, j) := append j (Queued request) in
        match r with
        | Err e => (Err e, j)
        | Ok _ =>
            (Ok request,
             set_state j nxt (bt_insert (sequence request) request (pending j)) (attempted j))
        end
    end.

(** *** Settling and flushing *)

Definition settle (j : Journal) (request : ReplayRequest) (d : Disposition)
    : result OutboxError unit * Journal :=
  let '(r, j) := append j (Settled (request_id request) d) in
  match r with
  | Err e => (Err e, j)
  | Ok _ =>
      (Ok tt, set_pending j (bt_remove (sequence request) (pending j))
                (attempted j ∖ {[request_id request]}))
  end.

Definition note (rep : FlushReport) (id : uuid) (d : Disposition) : FlushReport :=
  mkReport
    (applied rep + if decide (d = DApplied) then 1 else 0)
    (expired rep + if decide (d = DExpired) then 1 else 0)
    (superseded rep + if decide (d = DSuperseded) then 1 else 0)
    (rejected rep + if decide (d = DRejected) then 1 else 0)
    (remaining rep) (blocked_request rep) (results rep)
    (<[id := d]> (dispositions rep)).

Definition note_result (rep : FlushReport) (id : uuid) (v : json) : FlushReport :=
  mkReport (applied rep) (expired rep) (superseded rep) (rejected rep) (remaining rep)
    (blocked_request rep) (<[id := v]> (results rep)) (dispositions rep).

Definition note_blocked (rep : FlushReport) (id : uuid) : FlushReport :=
  mkReport (applied rep) (expired rep) (superseded rep) (rejected rep) (remaining rep)
    (Some id) (results rep) (dispositions rep).

Definition note_remaining (rep : FlushReport) (n : nat) : FlushReport :=
  mkReport (applied rep) (expired rep) (superseded rep) (rejected rep) n
    (blocked_request rep) (results rep) (dispositions rep).

(** A newer pending presence of the same agent. *)
Definition superseded_by_newer (j : Journal) (r : ReplayRequest) : bool :=
  bool_decide (operation r = Presence) &&
  existsb (λ '(_, newer),
    (sequence r <? sequence newer)%Z && bool_decide (operation newer = Presence)
    && bool_decide (get (arguments newer) "agent" = get (arguments r) "agent")) (pending j).

(** What happens to a request before the transport is asked: a local disposition,
    or a durable attempt mark. *)
Inductive decision : Type :=
  | Drop (d : Disposition)
  | Attempt.

Definition send_decision (j : Journal) (r : ReplayRequest) (now_ms : Z) : decision :=
  if bool_decide (request_id r ∈ attempted j) then Attempt
  else if negb (bool_decide (expires_ms r = 0%Z)) && (expires_ms r <=? now_ms)%Z
  then Drop DExpired
  else if superseded_by_newer j r then Drop DSuperseded
  else Attempt.

Definition mark_attempted (j : Journal) (r : ReplayRequest)
    : result OutboxError unit * Journal :=
  if bool_decide (request_id r ∈ attempted j) then (Ok tt, j)
  else
    let '(res, j) := append j (Attempted (request_id r)) in
    match res with
    | Err e => (Err e, j)
    | Ok _ => (Ok tt, set_pending j (pending j) ({[request_id r]} ∪ attempted j))
    end.

(** Whether the loop goes on after a request. *)
Inductive flow : Type := Continue | Break.

Definition settle_with (j : Journal) (r : ReplayRequest) (d : Disposition)
    (rep : FlushReport) (k : FlushReport → FlushReport * flow)
    : result OutboxError (FlushReport * flow) * Journal :=
  let '(res, j) := settle j r d in
  match res with
  | Err e => (Err e, j)
  | Ok _ => (Ok (k (note rep (request_id r) d)), j)
  end.

Definition conclude (j : Journal) (r : ReplayRequest) (rep : FlushReport)
    (answer : result ReplayFailure ReplayResponse)
    : result OutboxError (FlushReport * flow) * Journal :=
  match answer with
  | Ok (Applied v) =>
      settle_with j r DApplied rep (λ rep, (note_result rep (request_id r) v, Continue))
  | Ok Superseded => settle_with j r DSuperseded rep (λ rep, (rep, Continue))
  | Ok Pending | Err Transport => (Ok (note_blocked rep (request_id r), Break), j)
  | Err Permanent =>
      settle_with j r DRejected rep (λ rep, (note_blocked rep (request_id r), Break))
  end.

Section flush.
(** The destination transport with its own state. *)
Context {W : Type} (replay : W → ReplayRequest → result ReplayFailure ReplayResponse * W).

Definition flush_one (now_ms : Z) (j : Journal) (w : W) (rep : FlushReport)
    (r : ReplayRequest) : result OutboxError (FlushReport * flow) * Journal * W :=
  match send_decision j r now_ms with
  | Drop d => (settle_with j r d rep (λ rep, (rep, Continue)), w)
  | Attempt =>
      let '(res, j) := mark_attempted j r in
      match res with
      | Err e => (Err e, j, w)
      | Ok _ =>
          let '(answer, w) := replay w r in
          (conclude j r rep answer, w)
      end
  end.

Fixpoint flush_loop (now_ms : Z) (j : Journal) (w : W) (rep : FlushReport)
    (requests : list ReplayRequest) : result OutboxError FlushReport * Journal * W :=
  match requests with
  | [] => (Ok (note_remaining rep (length (pending j))), j, w)
  | r :: rest =>
      match flush_one now_ms j w rep r with
      | (Err e, j, w) => (Err e, j, w)
      | (Ok (rep, Continue), j, w) => flush_loop now_ms j w rep rest
      | (Ok (rep, Break), j, w) =>
          (Ok (note_remaining rep (length (pending j))), j, w)
      end
  end.

Definition flush (now_ms : Z) (limit : nat) (j : Journal) (w : W)
    : result OutboxError FlushReport * Journal * W :=
  flush_loop now_ms j w empty_report
    (take (Nat.min limit REQUEST_LIMIT) (map snd (pending j))).
End flush.
End journal.
