(* ===== verification/OutboxCodec.v ===== *)
(** * OutboxCodec: a concrete journal codec

    An instance of the codec interface of [Outbox]: records are written as the
    bits of their [Countable] code and read up to the nesting the parser allows, so every
    law holds by [decode_encode] and the
    journal can be evaluated on concrete inputs. The digest is a byte sum. *)

From Stdlib Require Import ZArith Lia Ascii.
From stdpp Require Import base option list strings gmap countable.
From S2P Require Import Prelude Str Json Validation McpSchema ClaimTypes Outbox.

(** ** Countable records *)

#[export] Instance Operation_countable : Countable Operation.
Proof.
  refine (inj_countable'
    (λ o, match o with Send => 0 | Presence => 1 | Ack => 2 | ClaimRequest => 3 end)
    (λ n, match n with 0 => Send | 1 => Presence | 2 => Ack | _ => ClaimRequest end) _).
  by intros [].
Defined.

#[export] Instance ClientSurface_countable : Countable ClientSurface.
Proof.
  refine (inj_countable' (λ o, match o with Cli => true | Mcp => false end)
    (λ b : bool, if b then Cli else Mcp) _). by intros [].
Defined.

#[export] Instance Disposition_countable : Countable Disposition.
Proof.
  refine (inj_countable'
    (λ o, match o with DApplied => 0 | DExpired => 1 | DSuperseded => 2 | DRejected => 3 end)
    (λ n, match n with 0 => DApplied | 1 => DExpired | 2 => DSuperseded | _ => DRejected end) _).
  by intros [].
Defined.

#[export] Instance ReplayRequest_countable : Countable ReplayRequest.
Proof.
  refine (inj_countable'
    (λ r, (request_id r, origin_id r, sequence r, created_ms r, expires_ms r,
           operation r, surface r, arguments r))
    (λ '(a, b, c, d, e, f, g, h), mkRequest a b c d e f g h) _).
  by intros [].
Defined.

#[export] Instance Event_countable : Countable Event.
Proof.
  refine (inj_countable'
    (λ e, match e with
          | Header o d => inl (inl (o, d))
          | Queued r => inl (inr r)
          | Attempted i => inr (inl i)
          | Settled i d => inr (inr (i, d))
          end)
    (λ t : (Z * string + ReplayRequest) + (Z + Z * Disposition),
       match t with
       | inl (inl (o, d)) => Header o d
       | inl (inr r) => Queued r
       | inr (inl i) => Attempted i
       | inr (inr (i, d)) => Settled i d
       end) _).
  by intros [].
Defined.

(** ** The codec *)

Fixpoint byte_sum (s : string) : Z :=
  match s with
  | EmptyString => 0
  | String a t => (Z.of_N (N_of_ascii a) + byte_sum t)%Z
  end.

Definition bit_codec : JournalCodec :=
  {| sha256 s := [(byte_sum s mod 256)%Z];
     request_to_vec r := Some (pos_text (encode r));
     event_to_vec e := Some (pos_text (encode e));
     line_to_vec e h := Some (pos_text (encode (e, h)));
     line_from_slice s :=
       '(e, h) ← text_pos s ≫= decode;
       if event_nesting e <=? PARSER_DEPTH then Some (e, h) else None |}.

Lemma bit_codec_laws : @JournalCodecLaws bit_codec.
Proof.
  constructor.
  - intros e h l _ [= <-]. simpl. rewrite text_pos_text. simpl. by rewrite decode_encode.
  - intros e h l [= <-]. apply pos_text_line.
Qed.
