(* ===== verification/OutboxFacts.v ===== *)
(** * OutboxFacts: the journal file determines the journal

    The lemmas behind the outbox properties: what a successful append adds to the
    file, how opening replays it, and the invariant [Durable] that ties the
    in-memory journal to its file. *)

From Stdlib Require Import ZArith Lia Ascii.
From stdpp Require Import base option list strings gmap sorting.
From S2P Require Import Prelude Str Json Validation McpSchema ClaimTypes Outbox.

Abbreviation no_newline := (λ l : string, contains_char l newline = false).

(** ** Lines of the file *)

Lemma journal_lines_unlines ls : Forall no_newline ls → journal_lines (unlines ls) = ls.
Proof.
  intros H. destruct ls as [|l ls _] using rev_ind; [done|].
  unfold journal_lines. rewrite unlines_snoc, <- string_app_assoc.
  unfold is_empty. rewrite bool_decide_eq_false_2.
  2: { intros E. apply (f_equal String.length) in E.
       rewrite length_string_app in E. simpl in E. lia. }
  rewrite strip_suffix_app. by apply split_char_unlines.
Qed.

Lemma unlines_ends ls :
  negb (is_empty (unlines ls)) && negb (ends_with (unlines ls) (String newline "")) = false.
Proof.
  destruct ls as [|l ls _] using rev_ind; [done|].
  rewrite unlines_snoc, <- string_app_assoc, ends_with_app. by rewrite andb_false_r.
Qed.

(** ** Sequence-keyed maps *)

Section bt.
Context {V : Type}.
Implicit Types m : list (Z * V).

Lemma bt_insert_last k v m : Forall (λ kv, (kv.1 < k)%Z) m → bt_insert k v m = m ++ [(k, v)].
Proof.
  induction 1 as [|[k' v'] m Hk _ IH]; simpl in *; [done|].
  destruct (Z.ltb_spec k k'); [lia|]. destruct (Z.eqb_spec k k'); [lia|]. by rewrite IH.
Qed.

Lemma bt_remove_sublist k m : bt_remove k m `sublist_of` m.
Proof.
  induction m as [|[k' v'] m IH]; simpl; [done|].
  destruct (k =? k')%Z; [by apply sublist_cons|by apply sublist_skip].
Qed.

Lemma length_bt_remove k v m : (k, v) ∈ m → S (length (bt_remove k m)) = length m.
Proof.
  induction m as [|[k' v'] m IH]; [by intros ?%elem_of_nil|].
  intros [?|?]%elem_of_cons; simplify_eq/=; [by rewrite Z.eqb_refl|].
  destruct (k =? k')%Z; [done|]. simpl. by rewrite IH.
Qed.

Lemma elem_of_bt_remove k kv m : kv ∈ bt_remove k m → kv ∈ m.
Proof. intros ?. by eapply elem_of_sublist, bt_remove_sublist. Qed.

Lemma bt_remove_ne k k' v m : k ≠ k' → (k', v) ∈ m → (k', v) ∈ bt_remove k m.
Proof.
  intros Hne. induction m as [|[k'' v''] m IH]; simpl; [done|].
  destruct (Z.eqb_spec k k''); intros [?|?]%elem_of_cons; simplify_eq; try done.
  - left.
  - right. by apply IH.
Qed.

Lemma bt_remove_gone k m : NoDup m.*1 → Forall (λ kv, kv.1 ≠ k) (bt_remove k m).
Proof.
  induction m as [|[k' v'] m IH]; simpl; intros Hnd; [constructor|].
  apply NoDup_cons in Hnd as [Hni Hnd]. destruct (Z.eqb_spec k k') as [->|].
  - apply Forall_forall. intros [k'' v''] Hin Heq. simpl in Heq. subst. apply Hni.
    apply list_elem_of_fmap. by exists (k', v'').
  - constructor; [simpl; congruence|]. by apply IH.
Qed.
End bt.

(** ** Well-formed pending maps *)

Record pending_wf (p : list (Z * ReplayRequest)) (nxt : Z) (ids : gset uuid) : Prop := {
  wf_keys : Forall (λ kv, kv.1 = sequence kv.2 ∧ (kv.1 < nxt)%Z ∧ request_id kv.2 ∈ ids) p;
  wf_sorted : StronglySorted Z.lt p.*1;
  wf_ids : NoDup ((λ kv, request_id kv.2) <$> p);
}.

Lemma StronglySorted_lt_NoDup (l : list Z) : StronglySorted Z.lt l → NoDup l.
Proof.
  induction 1 as [|x l _ IH Hx]; constructor; [|done].
  intros Hin. rewrite Forall_forall in Hx. specialize (Hx _ Hin). lia.
Qed.

Lemma pending_wf_sublist p p' nxt ids :
  p' `sublist_of` p → pending_wf p nxt ids → pending_wf p' nxt ids.
Proof.
  intros Hsub [Hk Hs Hn]. constructor.
  - apply Forall_forall. intros kv Hin. rewrite Forall_forall in Hk. apply Hk.
    by eapply elem_of_sublist.
  - eapply StronglySorted_sublist; [|exact Hs]. by apply fmap_sublist.
  - eapply sublist_NoDup; [exact Hn|]. by apply fmap_sublist.
Qed.

(** ** Splitting a file into lines and back *)

Lemma split_char_ne c s : split_char c s ≠ [].
Proof.
  induction s as [|a s IH]; [done|]. rewrite split_char_cons.
  destruct (split_char c s); [done|]. by case_bool_decide.
Qed.

Lemma split_char_no_newline s : Forall no_newline (split_char newline s).
Proof.
  induction s as [|a s IH]; [repeat constructor|]. rewrite split_char_cons.
  destruct (split_char newline s) as [|w ws]; [done|]. inversion IH; subst.
  case_bool_decide as E; constructor; try done. rewrite contains_char_cons.
  by rewrite bool_decide_eq_false_2.
Qed.

Lemma unlines_split s : unlines (split_char newline s) = s +:+ String newline "".
Proof.
  induction s as [|a s IH]; [done|]. rewrite split_char_cons.
  destruct (split_char newline s) as [|w ws] eqn:E; [by apply split_char_ne in E|].
  rewrite string_app_cons, <- IH. case_bool_decide as Ha; simpl.
  - by rewrite Ha, string_app_nil_l.
  - by rewrite string_app_cons.
Qed.

Lemma strip_prefix_Some s p t : strip_prefix s p = Some t → s = p +:+ t.
Proof.
  revert s. induction p as [|a p IH]; intros s Hs.
  - by destruct s; simpl in Hs; injection Hs as <-.
  - destruct s as [|b s]; simpl in Hs; [done|].
    destruct (ascii_dec a b) as [->|]; [|done]. apply IH in Hs as ->. done.
Qed.

Lemma ends_with_split s p : ends_with s p = true → ∃ t, s = t +:+ p.
Proof.
  unfold ends_with. intros [t Ht]%starts_with_spec.
  exists (str_rev t). apply (f_equal str_rev) in Ht.
  by rewrite str_rev_involutive, str_rev_app, str_rev_involutive in Ht.
Qed.

Lemma journal_lines_spec bytes :
  negb (is_empty bytes) && negb (ends_with bytes (String newline "")) = false →
  bytes = unlines (journal_lines bytes) ∧ Forall no_newline (journal_lines bytes) ∧
  (is_empty bytes = false → journal_lines bytes ≠ []).
Proof.
  intros E. unfold journal_lines. destruct (is_empty bytes) eqn:Ee; simpl in E.
  - unfold is_empty in Ee. bool_simplify. subst. split_and!; [done|constructor|done].
  - apply negb_false_iff, ends_with_split in E as [t ->].
    rewrite strip_suffix_app. simpl.
    split_and!; [by rewrite unlines_split|apply split_char_no_newline|intros _; apply split_char_ne].
Qed.

(** ** What an append does *)

Record same_state (j j' : Journal) : Prop := {
  ss_origin : j_origin_id j' = j_origin_id j;
  ss_next : next_sequence j' = next_sequence j;
  ss_pending : pending j' = pending j;
  ss_attempted : attempted j' = attempted j;
  ss_path : has_source_path j' = has_source_path j;
}.

Section facts.
Context `{UnicodeCase} `{!JournalCodec} `{!JournalCodecLaws}.

Lemma encode_event_Ok e enc : encode_event e = Ok enc ↔
  ∃ body line, event_to_vec e = Some body ∧ line_to_vec e (digest_hex body) = Some line ∧
    enc = line +:+ String newline "".
Proof.
  unfold encode_event. split.
  - intros Hx. result_simplify. subst. eauto.
  - intros (body & line & -> & Hl & ->). simpl. by rewrite Hl.
Qed.

Lemma append_Ok j e u j' : append j e = (Ok u, j') →
  poisoned j = false ∧ poisoned j' = false ∧ same_state j j' ∧
  ∃ body line, event_to_vec e = Some body ∧ line_to_vec e (digest_hex body) = Some line ∧
    content j' = content j +:+ line +:+ String newline "" ∧
    (str_len line < RECORD_LIMIT)%Z ∧ (str_len (content j') ≤ JOURNAL_LIMIT)%Z.
Proof.
  unfold append, next_io. intros Ha.
  destruct (poisoned j) eqn:Ep; [done|].
  destruct (schedule j) as [|io s]; simpl in Ha;
    (destruct (encode_event e) as [enc|] eqn:Ee; [|by repeat case_match]);
    apply encode_event_Ok in Ee as (body & line & Hb & Hl & ->);
    repeat case_match; simplify_eq/=; bool_simplify;
    (split_and!; [done|done|by constructor|]; exists body, line;
     rewrite !str_len_app in *; unfold saturating_add, U64_MAX in *;
     change (str_len (String newline "")) with 1%Z in *;
     assert (0 ≤ str_len line)%Z by apply str_len_nonneg;
     split_and!; try done; unfold JOURNAL_LIMIT in *; lia).
Qed.

(** A failed append either leaves the file and the guard as they were, or poisons
    the guard and leaves a prefix of the record behind. *)
Lemma append_Err j e err j' : append j e = (Err err, j') →
  same_state j j' ∧
  ((poisoned j' = poisoned j ∧ content j' = content j) ∨
   (poisoned j' = true ∧ ∃ enc n, encode_event e = Ok enc ∧
      content j' = content j +:+ str_take n enc ∧
      (str_len enc ≤ RECORD_LIMIT)%Z ∧ (str_len (content j) + str_len enc ≤ JOURNAL_LIMIT)%Z)).
Proof.
  unfold append, next_io. intros Ha.
  assert (Htake : ∀ enc : string, str_take (String.length enc) enc = enc).
  { induction enc; simpl; congruence. }
  destruct (poisoned j) eqn:Ep; [simplify_eq; split; [by constructor|by left]|].
  destruct (schedule j) as [|io s]; simpl in Ha;
    (destruct (encode_event e) as [enc|] eqn:Ee;
      [|repeat case_match; simplify_eq; (split; [by constructor|by left])]);
    (destruct (Z.ltb_spec RECORD_LIMIT (str_len enc)) as [|Hr];
      [simplify_eq; by repeat case_match; simplify_eq; (split; [by constructor|by left])|]);
    (destruct (Z.ltb_spec JOURNAL_LIMIT (saturating_add (str_len (content j)) (str_len enc)))
      as [|Hjl] in Ha;
      [by repeat case_match; simplify_eq; (split; [by constructor|by left])|]);
    (assert (str_len (content j) + str_len enc ≤ JOURNAL_LIMIT)%Z
      by (unfold saturating_add, U64_MAX, JOURNAL_LIMIT in *; lia));
    repeat case_match; simplify_eq/=;
    (split; [by constructor|]);
    first [ by left
          | right; split; [done|]; exists enc, 0; split_and!; [done| |done|done];
            by rewrite string_app_nil_r
          | right; split; [done|]; by eexists _, _
          | right; split; [done|]; exists enc, (String.length enc); by rewrite Htake ].
Qed.

(** ** Replaying a file *)

Lemma load_lines_app exp st l1 l2 :
  load_lines exp st (l1 ++ l2) = (let? st := load_lines exp st l1 in load_lines exp st l2).
Proof.
  revert st. induction l1 as [|l l1 IH]; intros st; simpl; [done|].
  destruct (load_line exp st l); simpl; [apply IH|done].
Qed.

Lemma load_line_Ok exp st l st' : load_line exp st l = Ok st' ↔
  is_empty l = false ∧ (str_len l ≤ RECORD_LIMIT)%Z ∧
  ∃ e body, line_from_slice l = Some (e, digest_hex body) ∧ event_to_vec e = Some body ∧
    load_event exp st e = Ok st'.
Proof.
  unfold load_line. split.
  - intros Hl. destruct (is_empty l); [done|].
    destruct (Z.ltb_spec RECORD_LIMIT (str_len l)); [done|]. result_simplify.
    destruct a as [e h]. simpl in *. case_bool_decide; [|done]. subst. eauto 10.
  - intros (-> & Hlen & e & body & Hs & Hb & He).
    destruct (Z.ltb_spec RECORD_LIMIT (str_len l)); [lia|].
    rewrite Hs. simpl. rewrite Hb. simpl. by rewrite bool_decide_eq_true_2.
Qed.

(** A line written by an append replays as its event, unless it is nested too deep. *)
Lemma load_line_written exp st e body line :
  event_no_float e = true → event_to_vec e = Some body →
  line_to_vec e (digest_hex body) = Some line → (str_len line < RECORD_LIMIT)%Z →
  load_line exp st line =
    if event_nesting e <=? PARSER_DEPTH then load_event exp st e else Err Corrupt.
Proof.
  intros Hf Hb Hl Hlen.
  destruct (line_no_newline _ _ _ Hl) as [_ Hne].
  unfold load_line, is_empty. rewrite bool_decide_eq_false_2 by done.
  destruct (Z.ltb_spec RECORD_LIMIT (str_len line)); [lia|].
  rewrite (line_read _ _ _ Hf Hl). destruct (_ <=? _); simpl; [|done]. rewrite Hb. simpl.
  by rewrite bool_decide_eq_true_2.
Qed.

Record load_wf (st : load_state) : Prop := {
  lw_pending : pending_wf (l_pending st) (l_next st) (all_ids st);
  lw_attempted : ∀ id, id ∈ l_attempted st → ∃ kv, kv ∈ l_pending st ∧ request_id kv.2 = id;
  lw_headless : header_seen st = false → l_pending st = [] ∧ all_ids st = ∅;
}.

Lemma load_init_wf o : load_wf (load_init o).
Proof. constructor; [by repeat constructor|done|done]. Qed.

Lemma pending_wf_insert p nxt ids r :
  pending_wf p nxt ids → sequence r = nxt → request_id r ∉ ids →
  bt_insert (sequence r) r p = p ++ [(sequence r, r)] ∧
  pending_wf (p ++ [(sequence r, r)]) (nxt + 1) ({[request_id r]} ∪ ids).
Proof.
  intros [Hk Hs Hn] Hseq Hid. rewrite Forall_forall in Hk. split.
  { apply bt_insert_last, Forall_forall. intros kv Hin. apply Hk in Hin. lia. }
  constructor.
  - apply Forall_app. split; [|repeat constructor; simpl; [lia|set_solver]].
    apply Forall_forall. intros kv Hin. destruct (Hk _ Hin) as (?&?&?).
    split_and!; [done|lia|set_solver].
  - rewrite fmap_app. simpl. clear Hn Hid.
    assert (Hlt : Forall (λ k, (k < sequence r)%Z) p.*1).
    { apply Forall_forall. intros k (kv & -> & Hin)%list_elem_of_fmap.
      apply Hk in Hin. lia. }
    clear Hk. induction Hs as [|k l Hs IH Hk']; simpl; inversion Hlt; subst.
    { repeat constructor. }
    constructor; [by apply IH|]. apply Forall_app. split; [done|by repeat constructor].
  - rewrite fmap_app. simpl. apply NoDup_app. split_and!; [done| |apply NoDup_singleton].
    intros id (kv & -> & Hin)%list_elem_of_fmap Heq%list_elem_of_singleton.
    apply Hk in Hin as (_ & _ & Hin). by rewrite Heq in Hin.
Qed.

Lemma load_event_wf exp st e st' :
  load_wf st → load_event exp st e = Ok st' → load_wf st'.
Proof.
  intros [Hp Ha Hh] He. destruct e as [o d|r|id|id d]; simpl in He.
  - repeat case_match; try done; result_simplify; subst; bool_simplify;
      (constructor; simpl; [done|done|done]).
  - result_simplify. destruct (_ || _) eqn:E in He; [done|]. result_simplify.
    bool_simplify. rewrite checked_add_Some in *. destruct_and!. subst st'.
    match goal with Hs : sequence r = _, Hi : request_id r ∉ _ |- _ =>
      destruct (pending_wf_insert _ _ _ r Hp Hs Hi) as [Hb Hw] end.
    constructor; simpl.
    + rewrite Hb. subst. congruence.
    + rewrite Hb. intros id (kv & Hin & Hid)%Ha. exists kv.
      split; [apply elem_of_app; by left|done].
    + congruence.
  - destruct (_ || _) eqn:E in He; [done|]. result_simplify. subst st'. bool_simplify.
    constructor; simpl; [done| |done].
    intros id' [->%elem_of_singleton|Hin]%elem_of_union; [|by apply Ha].
    match goal with Hx : existsb _ _ = true |- _ => apply existsb_True in Hx as ([k r] & Hin & Hr) end.
    bool_simplify. by exists (k, r).
  - destruct (find _ _) as [[seq r]|] eqn:Ef; [|done]. result_simplify. subst st'.
    constructor; simpl.
    + eapply pending_wf_sublist; [apply bt_remove_sublist|done].
    + intros id' [Hin Hne]%elem_of_difference. apply Ha in Hin as ([k r'] & Hin & Hid).
      exists (k, r'). split; [|done]. apply find_some in Ef as [Hseq Hr].
      apply list_elem_of_In in Hseq. bool_simplify.
      apply bt_remove_ne; [|done]. intros ->.
      destruct Hp as [Hk Hs _]. apply StronglySorted_lt_NoDup in Hs.
      assert (r = r') as ->; [|simpl in *; subst; set_solver].
      destruct (list_elem_of_lookup_1 _ _ Hseq) as [i Hi].
      destruct (list_elem_of_lookup_1 _ _ Hin) as [i' Hi'].
      assert (i = i') as ->; [|congruence].
      eapply NoDup_lookup; [exact Hs| |]; rewrite list_lookup_fmap.
      * by rewrite Hi.
      * by rewrite Hi'.
    + intros Hf. destruct (Hh Hf) as [He ->]. by rewrite He in *.
Qed.

Lemma load_line_wf exp st l st' :
  load_wf st → load_line exp st l = Ok st' → load_wf st'.
Proof.
  intros Hw (_ & _ & e & body & _ & _ & He)%load_line_Ok. by eapply load_event_wf.
Qed.

Lemma load_lines_wf exp st ls st' :
  load_wf st → load_lines exp st ls = Ok st' → load_wf st'.
Proof.
  revert st. induction ls as [|l ls IH]; intros st Hw Hl; simpl in Hl.
  { by result_simplify; subst. }
  result_simplify. eapply IH; [|done]. by eapply load_line_wf.
Qed.

(** *** The header comes first

    An accepted non-empty file starts with its header, so the origin drawn for a
    fresh journal does not matter when the file has one. *)

Lemma load_event_keeps_header exp st e st' :
  load_event exp st e = Ok st' → header_seen st = true →
  header_seen st' = true ∧ l_origin st' = l_origin st ∧ bound st' = bound st.
Proof.
  destruct e as [o d|r|id|id d]; simpl; intros He Hh.
  - by rewrite Hh in He.
  - result_simplify. destruct (_ || _) in He; [done|]. result_simplify. by subst st'.
  - destruct (_ || _) in He; [done|]. result_simplify. by subst st'.
  - repeat case_match; try done. result_simplify. by subst st'.
Qed.

Lemma load_event_first exp o e st' :
  load_event exp (load_init o) e = Ok st' →
  ∃ o' d, e = Header o' d ∧ st' = mkLoad o' 1 [] ∅ true (Some d) ∅ ∧
    match exp with Some x => d = x | None => True end.
Proof.
  destruct e as [o' d|r|id|id d]; simpl; intros He; try done.
  - repeat case_match; try done; result_simplify; subst; bool_simplify;
      by exists o', d.
  - by result_simplify.
Qed.

Lemma load_lines_origin exp o ls st :
  ls ≠ [] → load_lines exp (load_init o) ls = Ok st →
  header_seen st = true ∧ (∃ d, bound st = Some d ∧
    match exp with Some x => d = x | None => True end) ∧
  ∀ o', load_lines exp (load_init o') ls = Ok st.
Proof.
  destruct ls as [|l ls]; [done|]. intros _. simpl. intros Hl. result_simplify.
  rename a into st1.
  assert (Hfirst : header_seen st1 = true ∧ (∃ d, bound st1 = Some d ∧
      match exp with Some x => d = x | None => True end) ∧
    ∀ o', load_line exp (load_init o') l = Ok st1).
  { apply load_line_Ok in Hok as (He & Hlen & e & body & Hs & Hv & Hev).
    pose proof Hev as Hev'. apply load_event_first in Hev' as (o' & d & -> & -> & Hd).
    split_and!; [done|eauto|]. intros o2. apply load_line_Ok.
    split_and!; [done|done|]. exists (Header o' d), body. split_and!; [done|done|].
    exact Hev. }
  destruct Hfirst as (Hh & (d & Hb & Hd) & Hany).
  assert (Hk : header_seen st = true ∧ bound st = bound st1).
  { clear Hany Hok. revert st1 Hh Hl Hb. induction ls as [|l' ls IH]; intros st1 Hh Hl Hb; simpl in Hl.
    { by result_simplify; subst. }
    result_simplify. rename a into st2.
    assert (header_seen st2 = true ∧ bound st2 = bound st1) as [Hh2 Hb2].
    { apply load_line_Ok in Hok as (_ & _ & e & body & _ & _ & He).
      by destruct (load_event_keeps_header _ _ _ _ He Hh) as (?&_&?). }
    rewrite <- Hb2. apply IH; congruence. }
  destruct Hk as [Hh' Hb']. split_and!; [done|rewrite Hb', Hb; eauto|].
  intros o'. rewrite Hany. done.
Qed.

(** ** The durability invariant

    [durable d j ls st]: the file of [j] is the lines [ls], replaying them for
    destination [d] gives [st], and [st] is the state [j] holds in memory. *)

Record durable (d : string) (j : Journal) (ls : list string) (st : load_state) : Prop := {
  du_file : content j = unlines ls;
  du_lines : Forall no_newline ls;
  du_load : ∀ o, load_lines (Some d) (load_init o) ls = Ok st;
  du_head : header_seen st = true;
  du_bound : bound st = Some d;
  du_origin : l_origin st = j_origin_id j;
  du_next : l_next st = next_sequence j;
  du_pending : l_pending st = pending j;
  du_attempted : l_attempted st = attempted j;
  du_wf : load_wf st;
  du_len : (str_len (content j) ≤ JOURNAL_LIMIT)%Z;
  du_cap : length (pending j) ≤ REQUEST_LIMIT;
}.

Definition Durable (d : string) (j : Journal) : Prop := ∃ ls st, durable d j ls st.

(** A record added to the file, with the matching memory. *)
Lemma durable_written d j ls st e enc st' j' :
  durable d j ls st → event_no_float e = true → event_nesting e ≤ PARSER_DEPTH →
  encode_event e = Ok enc →
  (str_len enc ≤ RECORD_LIMIT)%Z → (str_len (content j) + str_len enc ≤ JOURNAL_LIMIT)%Z →
  load_event (Some d) st e = Ok st' →
  content j' = content j +:+ enc → j_origin_id j' = j_origin_id j →
  l_next st' = next_sequence j' → l_pending st' = pending j' →
  l_attempted st' = attempted j' → length (pending j') ≤ REQUEST_LIMIT →
  ∃ line, durable d j' (ls ++ [line]) st'.
Proof.
  intros [Hf Hnl Hld Hh Hb Ho Hn Hp Ha Hw Hl Hc] Hfl Hdeep Henc Hr Hmax Hev Hcont Hor Hn' Hp' Ha' Hcap.
  apply Nat.leb_le in Hdeep.
  destruct (load_event_keeps_header _ _ _ _ Hev Hh) as (Hh' & Ho' & Hb').
  apply encode_event_Ok in Henc as (body & line & Hbody & Hline & ->).
  assert (Hlen : (str_len line < RECORD_LIMIT)%Z).
  { rewrite str_len_app in Hr. change (str_len (String newline "")) with 1%Z in Hr. lia. }
  exists line. constructor; try done.
  - by rewrite Hcont, Hf, unlines_snoc.
  - apply Forall_app. split; [done|]. constructor; [|constructor].
    by destruct (line_no_newline _ _ _ Hline).
  - intros o. rewrite load_lines_app, Hld. simpl.
    by rewrite (load_line_written _ _ _ _ _ Hfl Hbody Hline Hlen), Hdeep, Hev.
  - congruence.
  - congruence.
  - by eapply load_event_wf.
  - by rewrite Hcont, str_len_app.
Qed.

(** An append of [e] followed by the matching update of the memory. *)
Lemma durable_step d j ls st e u j' st' n p a :
  durable d j ls st → event_no_float e = true → event_nesting e ≤ PARSER_DEPTH →
  append j e = (Ok u, j') →
  load_event (Some d) st e = Ok st' →
  l_next st' = n → l_pending st' = p → l_attempted st' = a →
  length p ≤ REQUEST_LIMIT →
  ∃ line, durable d (set_state j' n p a) (ls ++ [line]) st'.
Proof.
  intros Hd Hfl Hdeep Happ Hev <- <- <- Hcap.
  apply append_Ok in Happ as (_ & _ & Hs & body & line & Hbody & Hline & Hcont & Hlen & Hmax).
  eapply durable_written; try done.
  - apply encode_event_Ok. by exists body, line.
  - rewrite str_len_app. change (str_len (String newline "")) with 1%Z. lia.
  - by rewrite <- str_len_app, <- Hcont.
  - by destruct Hs.
Qed.

(** Opening the file of a durable journal gives that journal back. *)
Lemma durable_load d j sched o sp :
  Durable d j →
  load open_fine (content j) sched o (Some d) sp =
  (Ok (mkJournal (content j) sched (j_origin_id j) (next_sequence j) (pending j) false
         (attempted j) sp, Some d), content j).
Proof.
  intros (ls & st & [Hf Hnl Hld Hh Hb Ho Hn Hp Ha Hw Hl Hc]).
  unfold load. simpl. rewrite andb_false_r.
  destruct (Z.ltb_spec JOURNAL_LIMIT (str_len (content j))); [lia|].
  rewrite Hf, unlines_ends, journal_lines_unlines, Hld by done.
  rewrite Hh, Hb, Ho, Hn, Hp, Ha. simpl. by rewrite bool_decide_eq_false_2 by lia.
Qed.

(** Whatever file opening accepts, the journal it returns is durable. *)
Lemma load_durable env bytes sched o d sp j b c :
  load env bytes sched o (Some d) sp = (Ok (j, b), c) → Durable d j ∧ b = Some d ∧ poisoned j = false.
Proof.
  unfold load. intros Hl. repeat (case_match; [done|]).
  destruct (journal_lines_spec bytes) as (Hbytes & Hnl & Hne); [done|].
  destruct (load_lines _ _ _) as [st|] eqn:Est; [|done].
  pose proof (load_lines_wf _ _ _ _ (load_init_wf o) Est) as Hw.
  destruct (header_seen st) eqn:Hh; simpl in Hl.
  - case_bool_decide; [done|]. injection Hl as <- <- <-.
    destruct (journal_lines bytes) as [|l ls] eqn:Els; [simpl in Est; by result_simplify; subst|].
    destruct (load_lines_origin _ _ (l :: ls) _ ltac:(done) Est) as (_ & (d' & Hb & ->) & Hany).
    bool_simplify. split_and!; [|done|done]. exists (l :: ls), st.
    constructor; simpl; try done; lia.
  - destruct (is_empty bytes) eqn:Ee; simpl in Hl; [|done].
    assert (bytes = "") as -> by (unfold is_empty in Ee; by bool_simplify).
    simpl in Est. result_simplify. subst st. simpl in Hl.
    match type of Hl with context [append ?j0 ?e0] => set (J0 := j0) in Hl; set (E0 := e0) in Hl end.
    destruct (append J0 E0) as [[[]|] j'] eqn:Ha; [|done].
    case_bool_decide; [done|]. injection Hl as <- <- <-.
    apply append_Ok in Ha as (_ & Hp' & Hs & body & line & Hbody & Hline & Hcont & Hlen & Hmax).
    destruct Hs as [Ho Hn Hp Hat Hsp]. simpl in *.
    split_and!; [|done|done].
    exists [line], (mkLoad o 1 [] ∅ true (Some d) ∅). constructor; simpl; try done.
    + constructor; [|done]. by destruct (line_no_newline _ _ _ Hline).
    + intros o'. rewrite (load_line_written _ _ E0 body line) by done.
      unfold E0. simpl. by rewrite !bool_decide_eq_true_2.
    + by constructor; [apply (lw_pending _ Hw)| |].
    + lia.
Qed.

(** *** Torn records *)

Lemma str_take_app_le n s t : n ≤ String.length s → str_take n (s +:+ t) = str_take n s.
Proof.
  revert s. induction n as [|n IH]; intros s Hn; [by destruct (s +:+ t), s|].
  destruct s as [|a s]; simpl in Hn; [lia|]. rewrite string_app_cons. simpl.
  rewrite IH; [done|lia].
Qed.

Lemma str_take_ge n s : String.length s ≤ n → str_take n s = s.
Proof.
  revert n. induction s as [|a s IH]; intros [|n] Hn; simpl in *; try done; [lia|].
  rewrite IH; [done|lia].
Qed.

Lemma str_take_no_newline n s : no_newline s → no_newline (str_take n s).
Proof.
  revert n. induction s as [|a s IH]; intros [|n]; simpl; try done.
  rewrite !contains_char_cons. intros [-> Hs]%orb_false_iff. by rewrite IH.
Qed.

Lemma snoc_string s : s ≠ "" → ∃ t a, s = t +:+ String a "".
Proof.
  intros Hs. destruct (str_rev s) as [|a r] eqn:E.
  - apply (f_equal str_rev) in E. by rewrite str_rev_involutive in E.
  - exists (str_rev r), a. by rewrite <- str_rev_cons, <- E, str_rev_involutive.
Qed.

Lemma torn_not_line s p : p ≠ "" → no_newline p → ends_with (s +:+ p) (String newline "") = false.
Proof.
  intros (t & a & ->)%snoc_string Hn. rewrite <- string_app_assoc, ends_with_char.
  rewrite contains_char_app, contains_char_cons in Hn.
  by apply orb_false_iff in Hn as [_ [? _]%orb_false_iff].
Qed.

(** A proper non-empty part of a record makes the file unreadable as a journal. *)
Lemma torn_corrupt d j e enc n sched o exp sp :
  Durable d j → encode_event e = Ok enc → 0 < n → n < String.length enc →
  (str_len (content j) + str_len enc ≤ JOURNAL_LIMIT)%Z →
  (load open_fine (content j +:+ str_take n enc) sched o exp sp).1 = Err Corrupt.
Proof.
  intros (ls & st & Hd) Henc Hn0 Hn Hmax.
  apply encode_event_Ok in Henc as (body & line & _ & Hline & ->).
  destruct (line_no_newline _ _ _ Hline) as [Hnl Hne].
  rewrite length_string_app in Hn. simpl in Hn.
  rewrite str_take_app_le by lia. set (p := str_take n line).
  assert (Hp : no_newline p) by by apply str_take_no_newline.
  assert (Hpl : String.length p ≤ String.length line).
  { subst p. clear. revert n. induction line as [|a s IH]; intros [|n]; simpl; try lia.
    specialize (IH n). lia. }
  assert (Hpne : p ≠ "").
  { subst p. destruct n; [lia|]. by destruct line. }
  unfold load. simpl. rewrite andb_false_r.
  assert ((JOURNAL_LIMIT <? str_len (content j +:+ p))%Z = false) as ->.
  { apply Z.ltb_ge. rewrite str_len_app in *. unfold str_len in *. lia. }
  rewrite torn_not_line by done.
  unfold is_empty. rewrite bool_decide_eq_false_2; [done|].
  intros E. apply (f_equal String.length) in E. rewrite length_string_app in E.
  destruct p; [done|]. simpl in E. lia.
Qed.

(** A whole record nested too deep does the same. *)
Lemma deep_corrupt d j e enc sched o sp :
  Durable d j → event_no_float e = true → PARSER_DEPTH < event_nesting e →
  encode_event e = Ok enc → (str_len enc ≤ RECORD_LIMIT)%Z →
  (str_len (content j) + str_len enc ≤ JOURNAL_LIMIT)%Z →
  load open_fine (content j +:+ enc) sched o (Some d) sp =
    (Err Corrupt, content j +:+ enc).
Proof.
  intros (ls & st & Hd) Hf Hdeep Henc Hr Hmax.
  apply encode_event_Ok in Henc as (body & line & Hbody & Hline & ->).
  destruct (line_no_newline _ _ _ Hline) as [Hnl _].
  unfold load. simpl. rewrite andb_false_r.
  assert ((JOURNAL_LIMIT <? str_len (content j +:+ line +:+ String newline ""))%Z = false) as ->.
  { apply Z.ltb_ge. rewrite str_len_app. lia. }
  rewrite (du_file _ _ _ _ Hd), <- unlines_snoc, unlines_ends, journal_lines_unlines.
  2: { apply Forall_app. split; [apply (du_lines _ _ _ _ Hd)|by constructor]. }
  rewrite load_lines_app, (du_load _ _ _ _ Hd). simpl.
  rewrite (load_line_written _ _ _ _ _ Hf Hbody Hline).
  - by apply Nat.leb_gt in Hdeep as ->.
  - rewrite str_len_app in Hr. change (str_len (String newline "")) with 1%Z in Hr. lia.
Qed.
End facts.
