(* ===== verification/OutboxProps.v ===== *)
(** * OutboxProps: what the durable outbox guarantees

    The properties of the journal of [Outbox]: its file is always enough to
    rebuild it, failures leave the file in one of three states, flushing keeps
    order and accounts for every request, nothing is sent before its attempt is
    durable, expired or superseded requests are never sent. *)

From Stdlib Require Import ZArith Lia Ascii.
From stdpp Require Import base option list strings gmap sorting.
From S2P Require Import Prelude Str Json Validation McpSchema ClaimTypes Outbox OutboxCodec OutboxFacts.

Section ops.
Context `{UnicodeCase} `{!JournalCodec} `{!JournalCodecLaws}.

(** ** Single operations keep the invariant *)

Lemma durable_ext d j j' ls st :
  durable d j ls st → same_state j j' → content j' = content j → durable d j' ls st.
Proof.
  intros [] [] Hc. constructor; try congruence.
Qed.

Lemma append_Err_durable d j e err j' :
  Durable d j → append j e = (Err err, j') → poisoned j' = false → Durable d j'.
Proof.
  intros (ls & st & Hd) Ha Hp. apply append_Err in Ha as [Hs [[_ Hc]|[Hp' _]]]; [|congruence].
  exists ls, st. by eapply durable_ext.
Qed.

Lemma durable_wf d j : Durable d j →
  ∃ ids, pending_wf (pending j) (next_sequence j) ids.
Proof.
  intros (ls & st & Hd). exists (all_ids st). destruct (du_wf _ _ _ _ Hd) as [Hw _ _].
  by rewrite (du_pending _ _ _ _ Hd), (du_next _ _ _ _ Hd) in Hw.
Qed.

Lemma find_pending p nxt ids r :
  pending_wf p nxt ids → (sequence r, r) ∈ p →
  find (λ '(_, r'), bool_decide (request_id r' = request_id r)) p = Some (sequence r, r).
Proof.
  intros [_ _ Hn]. induction p as [|[k r'] p IH]; [by intros ?%elem_of_nil|].
  rewrite fmap_cons in Hn. simpl in Hn. apply NoDup_cons in Hn as [Hni Hn].
  intros [Heq|Hin]%elem_of_cons; simpl.
  - injection Heq as <- <-. by rewrite bool_decide_eq_true_2.
  - rewrite bool_decide_eq_false_2; [by apply IH|]. intros Heq. apply Hni.
    rewrite Heq. apply list_elem_of_fmap. by exists (sequence r, r).
Qed.

Lemma settle_Ok d j r disp u j' :
  Durable d j → (sequence r, r) ∈ pending j → settle j r disp = (Ok u, j') →
  Durable d j' ∧ poisoned j' = false ∧ pending j' = bt_remove (sequence r) (pending j) ∧
  attempted j' = attempted j ∖ {[request_id r]}.
Proof.
  intros (ls & st & Hd) Hin Hs. unfold settle in Hs.
  destruct (append _ _) as [[?|] j1] eqn:Ha; [|done]. injection Hs as <- <-.
  pose proof (append_Ok _ _ _ _ Ha) as (_ & Hp1 & [Ho Hn Hp Hat Hsp] & _).
  destruct (du_wf _ _ _ _ Hd) as [Hw _ _].
  assert (Hf : find (λ '(_, r'), bool_decide (request_id r' = request_id r)) (l_pending st)
               = Some (sequence r, r)).
  { eapply find_pending; [done|]. by rewrite (du_pending _ _ _ _ Hd). }
  unfold set_pending. rewrite Hn, Hp, Hat.
  split_and!; [|done|done|done].
  edestruct (durable_step d j ls st (Settled (request_id r) disp)) as [line Hl];
    [exact Hd|done|by apply Nat.leb_le|exact Ha|by simpl; rewrite Hf|exact (du_next _ _ _ _ Hd)
    |simpl; by rewrite (du_pending _ _ _ _ Hd)
    |simpl; by rewrite (du_attempted _ _ _ _ Hd)| |by eexists _, _].
  pose proof (length_bt_remove _ _ _ Hin). pose proof (du_cap _ _ _ _ Hd). lia.
Qed.

Lemma settle_Err d j r disp e j' :
  Durable d j → settle j r disp = (Err e, j') → poisoned j' = false → Durable d j'.
Proof.
  intros Hd Hs. unfold settle in Hs. destruct (append _ _) as [[?|] j1] eqn:Ha; [done|].
  injection Hs as <- <-. by eapply append_Err_durable.
Qed.

Lemma mark_attempted_Ok d j r u j' :
  Durable d j → poisoned j = false → (sequence r, r) ∈ pending j →
  mark_attempted j r = (Ok u, j') →
  Durable d j' ∧ poisoned j' = false ∧ pending j' = pending j ∧
  attempted j' = {[request_id r]} ∪ attempted j.
Proof.
  intros Hdur Hp0 Hin Hm. unfold mark_attempted in Hm. case_bool_decide as Hat.
  { injection Hm as <- <-. split_and!; [done|done|done|set_solver]. }
  destruct Hdur as (ls & st & Hd).
  destruct (append _ _) as [[?|] j1] eqn:Ha; [|done]. injection Hm as <- <-.
  pose proof (append_Ok _ _ _ _ Ha) as (_ & Hp1 & [Ho Hn Hp Hat1 Hsp] & _).
  unfold set_pending. rewrite Hn, Hp, Hat1.
  split_and!; [|done|done|done].
  edestruct (durable_step d j ls st (Attempted (request_id r))) as [line Hl];
    [exact Hd|done|by apply Nat.leb_le|exact Ha| |..].
  - simpl. rewrite (du_attempted _ _ _ _ Hd), bool_decide_eq_false_2 by done.
    assert (existsb (λ '(_, r0), bool_decide (request_id r0 = request_id r)) (l_pending st)
            = true) as ->; [|reflexivity].
    apply existsb_True. exists (sequence r, r). rewrite (du_pending _ _ _ _ Hd).
    split; [done|by apply bool_decide_eq_true_2].
  - exact (du_next _ _ _ _ Hd).
  - exact (du_pending _ _ _ _ Hd).
  - done.
  - exact (du_cap _ _ _ _ Hd).
  - by eexists _, _.
Qed.

Lemma mark_attempted_Err d j r e j' :
  Durable d j → mark_attempted j r = (Err e, j') → poisoned j' = false → Durable d j'.
Proof.
  intros Hd Hs. unfold mark_attempted in Hs. case_bool_decide; [done|].
  destruct (append _ _) as [[?|] j1] eqn:Ha; [done|].
  injection Hs as <- <-. by eapply append_Err_durable.
Qed.

(** The identifiers every queued record of a file has used. *)
Definition recorded_ids (d : string) (bytes : string) : gset uuid :=
  match load_lines (Some d) (load_init 0) (journal_lines bytes) with
  | Ok st => all_ids st
  | Err _ => ∅
  end.

Lemma recorded_ids_durable d j ls st :
  durable d j ls st → recorded_ids d (content j) = all_ids st.
Proof.
  intros Hd. unfold recorded_ids.
  rewrite (du_file _ _ _ _ Hd), journal_lines_unlines by apply (du_lines _ _ _ _ Hd).
  by rewrite (du_load _ _ _ _ Hd).
Qed.

(** The request [enqueue] prepares, before it is written. *)
Definition prepare (j : Journal) (op : Operation) (srf : ClientSurface) (args : fields)
    (now_ms : Z) (id : uuid) : result OutboxError (ReplayRequest * Z) :=
  let? ttl := ok_or InvalidRequest (enqueue_ttl op args) in
  let? expires := (if bool_decide (ttl = 0%Z) then Ok 0%Z
                   else ok_or InvalidRequest (checked_add now_ms ttl)) in
  let request := mkRequest id (j_origin_id j) (next_sequence j) now_ms expires op srf args in
  let? _ := validate request in
  let? nxt := ok_or Capacity (checked_add (next_sequence j) 1) in
  Ok (request, nxt).

Lemma prepare_Ok j op srf args now id r nxt : prepare j op srf args now id = Ok (r, nxt) →
  validate r = Ok tt ∧ request_id r = id ∧ origin_id r = j_origin_id j ∧
  sequence r = next_sequence j ∧ arguments r = args ∧
  checked_add (next_sequence j) 1 = Some nxt.
Proof.
  unfold prepare. intros Hp. result_simplify. simplify_eq/=.
  destruct a1. by split_and!.
Qed.

(** The queued record of a prepared request is one that opening accepts. *)
Lemma load_queued d j ls st r nxt :
  durable d j ls st → validate r = Ok tt → origin_id r = j_origin_id j →
  sequence r = next_sequence j → request_id r ∉ all_ids st →
  checked_add (next_sequence j) 1 = Some nxt →
  ∃ st', load_event (Some d) st (Queued r) = Ok st' ∧
    l_next st' = nxt ∧ l_pending st' = pending j ++ [(sequence r, r)] ∧
    l_attempted st' = attempted j ∧
    bt_insert (sequence r) r (pending j) = pending j ++ [(sequence r, r)].
Proof.
  intros Hd Hv Ho Hs Hid Hc. simpl. rewrite Hv. simpl.
  rewrite (du_head _ _ _ _ Hd), (du_origin _ _ _ _ Hd), (du_next _ _ _ _ Hd).
  rewrite (bool_decide_eq_true_2 (origin_id r = _)) by done.
  rewrite (bool_decide_eq_true_2 (sequence r = _)) by done.
  rewrite bool_decide_eq_false_2 by done. simpl. rewrite Hs, Hc. simpl.
  destruct (du_wf _ _ _ _ Hd) as [Hw _ _].
  destruct (pending_wf_insert _ _ _ r Hw) as [Hb _]; [by rewrite (du_next _ _ _ _ Hd)|done|].
  rewrite (du_pending _ _ _ _ Hd), Hs in Hb.
  eexists. split_and!; [done|done|simpl; by rewrite (du_pending _ _ _ _ Hd)| |done].
  apply (du_attempted _ _ _ _ Hd).
Qed.

(** What a successful enqueue leaves in memory and in the file. *)
Record enqueued (d : string) (j : Journal) (args : fields) (r : ReplayRequest) (j' : Journal)
    : Prop := {
  eq_valid : validate r = Ok tt;
  eq_args : arguments r = args;
  eq_poisoned : poisoned j' = false;
  eq_pending : pending j' = pending j ++ [(sequence r, r)];
  eq_sequence : sequence r = next_sequence j;
  eq_next : next_sequence j' = (next_sequence j + 1)%Z;
  eq_attempted : attempted j' = attempted j;
  eq_wf : ∃ ids, pending_wf (pending j') (next_sequence j') ids;
  eq_file : ∃ enc, encode_event (Queued r) = Ok enc ∧ content j' = content j +:+ enc ∧
    (str_len enc ≤ RECORD_LIMIT)%Z ∧ (str_len (content j) + str_len enc ≤ JOURNAL_LIMIT)%Z;
  eq_durable : no_float (JObj args) = true → args_nesting args ≤ PARSER_DEPTH → Durable d j';
}.

Lemma enqueue_Ok d j op srf args now id r j' :
  Durable d j → id ∉ recorded_ids d (content j) →
  enqueue j op srf args now id = (Ok r, j') → enqueued d j args r j'.
Proof.
  intros (ls & st & Hd) Hid He. rewrite (recorded_ids_durable _ _ _ _ Hd) in Hid.
  unfold enqueue in He. case_bool_decide as Hcap; [done|].
  change (let? ttl := _ in _) with (prepare j op srf args now id) in He.
  destruct (prepare _ _ _ _ _ _) as [[r0 nxt]|] eqn:Hp; [|done].
  apply prepare_Ok in Hp as (Hv & Hi & Ho & Hs & Hargs & Hc).
  destruct (append _ _) as [[u|] j1] eqn:Ha; [|done]. injection He as <- <-. subst id args.
  pose proof (append_Ok _ _ _ _ Ha) as
    (_ & Hp1 & [Ho1 Hn1 Hpd1 Hat1 Hsp1] & body & line & Hb & Hl & Hcont & Hlen & Hmax).
  destruct (load_queued d j ls st r0 nxt) as (st' & Hev & Hn' & Hp' & Ha' & Hbt); [done..|].
  rewrite Hpd1, Hat1, Hbt. pose proof Hc as [-> _]%checked_add_Some.
  constructor; try done.
  - exists (all_ids st'). pose proof (load_event_wf _ _ _ _ (du_wf _ _ _ _ Hd) Hev) as [Hw _ _].
    by rewrite Hp', Hn' in Hw.
  - exists (line +:+ String newline ""). split; [apply encode_event_Ok; eauto|].
    rewrite Hcont, str_len_app in *. change (str_len (String newline "")) with 1%Z.
    rewrite str_len_app in Hmax. change (str_len (String newline "")) with 1%Z in Hmax.
    split; [done|]. lia.
  - intros Hf Hdeep. edestruct (durable_step d j ls st (Queued r0)) as [line' Hl'];
      [exact Hd|done|exact Hdeep|exact Ha|exact Hev|exact Hn'|exact Hp'|exact Ha'| |by eexists _, _].
    rewrite length_app. simpl. lia.
Qed.

(** ** One flushed request *)

(** Requests a report says left the queue. *)
Definition total (rep : FlushReport) : nat :=
  applied rep + expired rep + superseded rep + rejected rep.

Lemma total_note rep id disp : total (note rep id disp) = S (total rep).
Proof. unfold total, note. destruct disp; simpl; lia. Qed.

Lemma settle_with_spec d j r disp rep k res j' :
  Durable d j → (sequence r, r) ∈ pending j → settle_with j r disp rep k = (res, j') →
  match res with
  | Ok out => Durable d j' ∧ poisoned j' = false ∧
      pending j' = bt_remove (sequence r) (pending j) ∧
      attempted j' = attempted j ∖ {[request_id r]} ∧ out = k (note rep (request_id r) disp)
  | Err _ => poisoned j' = false → Durable d j'
  end.
Proof.
  unfold settle_with. intros Hd Hin Hs.
  destruct (settle _ _ _) as [[u|e] j1] eqn:E; injection Hs as <- <-.
  - destruct (settle_Ok _ _ _ _ _ _ Hd Hin E) as (?&?&?&?). by split_and!.
  - intros Hp. by eapply settle_Err.
Qed.

(** What processing one request leaves behind: it left the queue and the report
    counts it, or it blocks the queue and its attempt is recorded. *)
Inductive processed (d : string) (j j' : Journal) (r : ReplayRequest)
    (rep rep' : FlushReport) : flow → Prop :=
  | processed_settled fl :
      pending j' = bt_remove (sequence r) (pending j) →
      attempted j' = attempted j ∖ {[request_id r]} →
      total rep' = S (total rep) →
      (fl = Continue → blocked_request rep' = blocked_request rep) →
      (fl = Break → blocked_request rep' = Some (request_id r)) →
      processed d j j' r rep rep' fl
  | processed_blocked :
      pending j' = pending j →
      attempted j' = {[request_id r]} ∪ attempted j →
      total rep' = total rep →
      blocked_request rep' = Some (request_id r) →
      processed d j j' r rep rep' Break.

Section flush.
Context {W : Type} (replay : W → ReplayRequest → result ReplayFailure ReplayResponse * W).

Lemma conclude_spec d j r rep answer res j' :
  Durable d j → poisoned j = false → (sequence r, r) ∈ pending j →
  request_id r ∈ attempted j → conclude j r rep answer = (res, j') →
  match res with
  | Ok (rep', fl) => Durable d j' ∧ poisoned j' = false ∧ processed d j j' r rep rep' fl
  | Err _ => poisoned j' = false → Durable d j'
  end.
Proof.
  intros Hd Hp Hin Hat Hc. unfold conclude in Hc.
  destruct answer as [[v| |]|[|]];
    try (apply (settle_with_spec _ _ _ _ _ _ _ _ Hd Hin) in Hc;
         destruct res as [[rep' fl]|]; [|exact Hc];
         destruct Hc as (?&?&Hb&Ha&Heq); cbn in Heq; injection Heq as -> ->;
         split_and!; [done|done|];
         apply processed_settled; [done|done|apply (total_note rep)|done|done]).
  all: injection Hc as <- <-; split_and!; [done|done|].
  all: apply processed_blocked; [done|set_solver|done|done].
Qed.

Lemma flush_one_spec d now j w rep r res j' w' :
  Durable d j → poisoned j = false → (sequence r, r) ∈ pending j →
  flush_one replay now j w rep r = (res, j', w') →
  match res with
  | Ok (rep', fl) => Durable d j' ∧ poisoned j' = false ∧ processed d j j' r rep rep' fl
  | Err _ => poisoned j' = false → Durable d j'
  end.
Proof.
  intros Hd Hp Hin Hf. unfold flush_one in Hf. destruct (send_decision j r now) as [disp|].
  - destruct (settle_with _ _ _ _ _) as [res0 j0] eqn:Es. injection Hf as <- <- <-.
    apply (settle_with_spec _ _ _ _ _ _ _ _ Hd Hin) in Es.
    destruct res0 as [[rep' fl]|]; [|exact Es].
    destruct Es as (?&?&?&?&Heq). cbn in Heq. injection Heq as -> ->. split_and!; [done|done|].
    apply processed_settled; [done|done|apply total_note|done|done].
  - destruct (mark_attempted j r) as [[u|e] j1] eqn:Em.
    2: { injection Hf as <- <- <-. by eapply mark_attempted_Err. }
    destruct (mark_attempted_Ok _ _ _ _ _ Hd Hp Hin Em) as (Hd1 & Hp1 & Hpd1 & Hat1).
    destruct (replay w r) as [answer w1] eqn:Er. destruct (conclude _ _ _ _) as [res0 j0] eqn:Ec.
    injection Hf as <- <- <-.
    eapply conclude_spec in Ec; [|exact Hd1|done|by rewrite Hpd1|set_solver].
    destruct res0 as [[rep' fl]|]; [|exact Ec].
    destruct Ec as (?&?&Hpr). split_and!; [done|done|].
    inversion Hpr as [? Hpd Hat Ht Hc Hb|Hpd Hat Ht Hb]; subst.
    + apply processed_settled; try done; [congruence|].
      set_solver.
    + apply processed_blocked; try done; [congruence|]. set_solver.
Qed.

Lemma flush_loop_spec d now j w rep reqs res j' w' :
  Durable d j → poisoned j = false → (∀ r, r ∈ reqs → (sequence r, r) ∈ pending j) →
  StronglySorted Z.lt (sequence <$> reqs) →
  flush_loop replay now j w rep reqs = (res, j', w') →
  match res with
  | Ok rep' => Durable d j' ∧ poisoned j' = false ∧ remaining rep' = length (pending j') ∧
      total rep' + length (pending j') = total rep + length (pending j)
  | Err _ => poisoned j' = false → Durable d j'
  end.
Proof.
  revert j w rep. induction reqs as [|r reqs IH]; intros j w rep Hd Hp Hin Hs Hl; simpl in Hl.
  { injection Hl as <- <- <-. by split_and!. }
  destruct (flush_one _ _ _ _ _ _) as [[[[rep1 fl]|e] j1] w1] eqn:E.
  2: { injection Hl as <- <- <-. by eapply flush_one_spec in E; [|done|done|apply Hin; left]. }
  eapply flush_one_spec in E; [|done|done|apply Hin; left].
  destruct E as (Hd1 & Hp1 & Hpr). simpl in Hs. inversion Hs as [|? ? Hs' Hlt]; subst.
  pose proof (length_bt_remove _ _ _ (Hin r ltac:(left))) as Hlen.
  destruct fl.
  - inversion Hpr as [? Hpd _ Ht _ _|]; subst.
    apply IH in Hl; [|done|done| |done].
    + destruct res as [rep'|]; [|done]. destruct Hl as (?&?&?&Heq). split_and!; try done.
      rewrite Heq, Ht, Hpd. lia.
    + intros r' Hr'. rewrite Hpd. apply bt_remove_ne; [|apply Hin; by right].
      rewrite Forall_forall in Hlt. specialize (Hlt (sequence r')).
      assert (sequence r < sequence r')%Z; [|lia].
      apply Hlt, list_elem_of_fmap. by exists r'.
  - injection Hl as <- <- <-. split_and!; [done|done|done|].
    change (total (note_remaining rep1 (length (pending j1)))) with (total rep1).
    inversion Hpr as [? Hpd _ Ht _ _|Hpd _ Ht _]; subst; rewrite Ht, Hpd; lia.
Qed.

End flush.

Section flush_log.
Context {W : Type} (replay : W → ReplayRequest → result ReplayFailure ReplayResponse * W).

(** The transport that also keeps the requests it was handed, in order. *)
Definition recording (lw : list ReplayRequest * W) (r : ReplayRequest)
    : result ReplayFailure ReplayResponse * (list ReplayRequest * W) :=
  let '(answer, w) := replay lw.2 r in (answer, (lw.1 ++ [r], w)).

Lemma settle_frame j r disp res j' : settle j r disp = (res, j') →
  (∃ e, res = Err e ∧ pending j' = pending j ∧ attempted j' = attempted j) ∨
  pending j' = bt_remove (sequence r) (pending j).
Proof.
  unfold settle. intros Hs. destruct (append _ _) as [[u|e] j1] eqn:Ha; injection Hs as <- <-.
  - right. apply append_Ok in Ha as (_ & _ & [_ _ Hpd _ _] & _). simpl. by rewrite Hpd.
  - left. apply append_Err in Ha as [[_ _ Hpd Hat _] _]. eauto.
Qed.

Lemma flush_one_log now j lw rep r res j' lw' :
  flush_one recording now j lw rep r = (res, j', lw') →
  (lw'.1 = lw.1 ∧ pending j' `sublist_of` pending j) ∨
  (lw'.1 = lw.1 ++ [r] ∧ send_decision j r now = Attempt ∧
    ((pending j' = pending j ∧ request_id r ∈ attempted j') ∨
     pending j' = bt_remove (sequence r) (pending j))).
Proof.
  unfold flush_one. intros Hf. destruct (send_decision j r now) as [disp|] eqn:Ead.
  - left. destruct (settle_with _ _ _ _ _) as [res0 j0] eqn:Es. injection Hf as <- <- <-.
    split; [done|]. unfold settle_with in Es. destruct (settle _ _ _) as [sr sj] eqn:E.
    apply settle_frame in E as [(e & -> & Hp & _)|Hp]; [injection Es as <- <-; by rewrite Hp|].
    destruct sr; injection Es as <- <-; rewrite Hp; apply bt_remove_sublist.
  - destruct (mark_attempted j r) as [mr j1] eqn:Em.
    assert (Hj1 : pending j1 = pending j ∧ (∀ u, mr = Ok u → request_id r ∈ attempted j1)).
    { unfold mark_attempted in Em. case_bool_decide; [injection Em as <- <-; naive_solver|].
      destruct (append _ _) as [[u|e] j2] eqn:Ha; injection Em as <- <-.
      - apply append_Ok in Ha as (_ & _ & [] & _). split; [done|set_solver].
      - apply append_Err in Ha as [[] _]. done. }
    destruct Hj1 as [Hpd1 Hat1]. destruct mr as [u|e].
    2: { injection Hf as <- <- <-. left. by rewrite Hpd1. }
    right. unfold recording in Hf. destruct (replay lw.2 r) as [answer w1].
    destruct (conclude _ _ _ _) as [res0 j0] eqn:Ec. injection Hf as <- <- <-.
    split_and!; [done|done|]. specialize (Hat1 u eq_refl). rewrite <- Hpd1.
    unfold conclude, settle_with in Ec.
    destruct answer as [[v| |]|[|]]; try (injection Ec as <- <-; by left).
    all: destruct (settle _ _ _) as [sr sj] eqn:E;
      apply settle_frame in E as [(e & -> & Hp & Ha)|Hp];
      [injection Ec as <- <-; left; by rewrite Ha|];
      destruct sr; injection Ec as <- <-; by right.
Qed.

(** Not past its own expiry. *)
Definition unexpired (now : Z) (r : ReplayRequest) : Prop :=
  expires_ms r = 0%Z ∨ (now < expires_ms r)%Z.

Lemma send_decision_Attempt j r now : send_decision j r now = Attempt →
  request_id r ∈ attempted j ∨ (unexpired now r ∧ superseded_by_newer j r = false).
Proof.
  unfold send_decision, unexpired. case_bool_decide; [by left|].
  destruct (negb _ && _) eqn:E; [done|]. destruct (superseded_by_newer j r); [done|].
  intros _. right. split; [|done]. apply andb_false_iff in E as [E|E]; bool_simplify; auto.
Qed.

(** Newer requests still pending decide supersession. *)
Lemma superseded_by_newer_mono j j0 r :
  (∀ kv, kv ∈ pending j0 → kv.1 = sequence kv.2 ∧ ((sequence r < kv.1)%Z → kv ∈ pending j)) →
  superseded_by_newer j r = false → superseded_by_newer j0 r = false.
Proof.
  intros Hsub. unfold superseded_by_newer. case_bool_decide; simpl; [|done].
  rewrite !existsb_False. intros Hall [k r'] Hin. destruct (Hsub _ Hin) as [Hk Hin']. simpl in *.
  destruct (Z.ltb_spec (sequence r) (sequence r')); simpl; [|done].
  specialize (Hall (k, r') (Hin' ltac:(lia))). simpl in Hall.
  destruct (Z.ltb_spec (sequence r) (sequence r')); [done|lia].
Qed.

(** The log of a flush: what was sent, in order, and how it ended. [j0] is the
    journal the flush started from. *)
Record sent_ok (j0 j' : Journal) (now : Z) (r : ReplayRequest) : Prop := {
  sent_fresh : request_id r ∈ attempted j0 ∨
    (unexpired now r ∧ superseded_by_newer j0 r = false);
  sent_marked : (sequence r, r) ∉ pending j' ∨ request_id r ∈ attempted j';
}.

Lemma NoDup_key_gone p nxt ids r :
  pending_wf p nxt ids → (sequence r, r) ∉ bt_remove (sequence r) p.
Proof.
  intros [_ Hs _] Hin. apply StronglySorted_lt_NoDup in Hs.
  pose proof (bt_remove_gone (sequence r) p Hs) as Hg. rewrite Forall_forall in Hg.
  by apply (Hg _ Hin).
Qed.

Lemma flush_loop_log d now j0 j lw rep reqs res j' lw' :
  Durable d j → poisoned j = false → (∀ r, r ∈ reqs → (sequence r, r) ∈ pending j) →
  StronglySorted Z.lt (sequence <$> reqs) →
  Forall (λ kv, kv.1 = sequence kv.2) (pending j0) →
  attempted j ⊆ attempted j0 →
  (∀ r kv, r ∈ reqs → kv ∈ pending j0 → (sequence r < kv.1)%Z → kv ∈ pending j) →
  flush_loop recording now j lw rep reqs = (res, j', lw') →
  pending j' `sublist_of` pending j ∧
  ∃ sent, lw'.1 = lw.1 ++ sent ∧ sent `sublist_of` reqs ∧ Forall (sent_ok j0 j' now) sent.
Proof.
  intros Hd Hp Hin Hs Hk. revert j lw rep Hd Hp Hin Hs.
  induction reqs as [|r reqs IH]; intros j lw rep Hd Hp Hin Hs Hat Hnew Hl; simpl in Hl.
  { injection Hl as <- <- <-. split; [done|]. exists []. by rewrite app_nil_r. }
  destruct (flush_one _ _ _ _ _ _) as [[out j1] lw1] eqn:E.
  pose proof (flush_one_log _ _ _ _ _ _ _ _ E) as Hlog.
  destruct (durable_wf _ _ Hd) as [ids Hwf].
  assert (Hsub : pending j1 `sublist_of` pending j).
  { destruct Hlog as [[_ ?]|(_&_&[[-> _]| ->])]; [done|done|apply bt_remove_sublist]. }
  assert (Hone : ∀ j'', pending j'' `sublist_of` pending j1 →
    (pending j1 = pending j → attempted j'' = attempted j1) →
    ∃ sent, lw1.1 = lw.1 ++ sent ∧ sent `sublist_of` [r] ∧ Forall (sent_ok j0 j'' now) sent).
  { intros j'' Hs'' Ha''. destruct Hlog as [[Hw _]|(Hw & Had & Hend)].
    { exists []. split_and!; [by rewrite app_nil_r|apply sublist_nil_l|constructor]. }
    exists [r]. split_and!; [done|done|]. constructor; [|constructor]. constructor.
    - apply send_decision_Attempt in Had as [?|[? Hsup]]; [left; set_solver|right; split; [done|]].
      eapply superseded_by_newer_mono; [|exact Hsup]. intros kv Hkv.
      rewrite Forall_forall in Hk. split; [by apply Hk|]. apply (Hnew r); [left|done].
    - destruct Hend as [[Hpd Hatt]|Hpd]; [right; by rewrite Ha''|left].
      intros Hbad. eapply NoDup_key_gone; [exact Hwf|]. rewrite <- Hpd.
      by eapply elem_of_sublist. }
  destruct out as [[rep1 [|]]|e].
  2,3: injection Hl as <- <- <-; split; [done|];
    destruct (Hone j1) as (sent & ? & ? & ?); [done|done|]; exists sent;
    split_and!; [done| |done]; etrans; [done|apply sublist_skip, sublist_nil_l].
  pose proof (flush_one_spec recording _ _ _ _ _ _ _ _ _ Hd Hp (Hin r ltac:(left)) E)
    as (Hd1 & Hp1 & Hpr).
  inversion Hpr as [? Hpd Hat1 _ _ _|]; subst. simpl in Hs. inversion Hs as [|? ? Hs' Hlt]; subst.
  rewrite Forall_forall in Hlt.
  assert (Hlt' : ∀ r', r' ∈ reqs → (sequence r < sequence r')%Z).
  { intros r' Hr'. apply Hlt, list_elem_of_fmap. by exists r'. }
  apply IH in Hl as (Hsub' & sent2 & Hw2 & Hs2 & Hf2); [|done|done| |done| |].
  - split; [by etrans|]. destruct (Hone j') as (sent1 & Hw1 & Hs1 & Hf1); [done| |].
    + intros Heq. exfalso. rewrite Hpd in Heq.
      pose proof (length_bt_remove _ _ _ (Hin r ltac:(left))). rewrite Heq in *. lia.
    + exists (sent1 ++ sent2). split_and!; [by rewrite Hw2, Hw1, app_assoc| |by apply Forall_app].
      by apply (sublist_app _ [r] _ reqs).
  - intros r' Hr'. rewrite Hpd. apply bt_remove_ne; [|apply Hin; by right].
    specialize (Hlt' _ Hr'). lia.
  - set_solver.
  - intros r' [k r''] Hr' Hkv Hlt2. rewrite Hpd. apply bt_remove_ne.
    + specialize (Hlt' _ Hr'). simpl in Hlt2. lia.
    + eapply (Hnew r'); [by right|done|done].
Qed.
End flush_log.

(** ** Failed enqueues *)

(** A failed enqueue leaves the file as it was, torn, or with the whole record. *)
Lemma enqueue_Err d j op srf args now id e j' sched o sp :
  Durable d j → no_float (JObj args) = true → id ∉ recorded_ids d (content j) →
  enqueue j op srf args now id = (Err e, j') →
  content j' = content j ∨
  (load open_fine (content j') sched o (Some d) sp).1 = Err Corrupt ∨
  ∃ r jr, Durable d jr ∧ content jr = content j' ∧ request_id r = id ∧ arguments r = args ∧
    pending jr = pending j ++ [(sequence r, r)] ∧ attempted jr = attempted j.
Proof.
  intros Hdur Hf Hid He. pose proof Hdur as (ls & st & Hd).
  rewrite (recorded_ids_durable _ _ _ _ Hd) in Hid.
  unfold enqueue in He. case_bool_decide as Hcap; [injection He as <- <-; by left|].
  change (let? ttl := _ in _) with (prepare j op srf args now id) in He.
  destruct (prepare _ _ _ _ _ _) as [[r nxt]|] eqn:Hp; [|injection He as <- <-; by left].
  apply prepare_Ok in Hp as (Hv & Hi & Ho & Hs & Hargs & Hc).
  destruct (append _ _) as [[u|err] j1] eqn:Ha; [done|]. injection He as <- <-.
  apply append_Err in Ha as [Hss [[_ Hcont]|(_ & enc & n & Henc & Hcont & Hr & Hmax)]];
    [by left|].
  rewrite Hcont. destruct (decide (n = 0)) as [->|Hn0].
  { left. by rewrite string_app_nil_r. }
  right. destruct (decide (n < String.length enc)) as [Hn|Hn].
  { left. eapply torn_corrupt; try done. lia. }
  destruct (decide (args_nesting args ≤ PARSER_DEPTH)) as [Hdeep|Hdeep].
  2: { left. rewrite str_take_ge by lia. subst args.
    rewrite (deep_corrupt d j (Queued r)); try done. simpl. lia. }
  right. rewrite str_take_ge by lia. subst id args.
  destruct (load_queued d j ls st r nxt) as (st' & Hev & Hn' & Hp' & Ha' & Hbt); [done..|].
  set (jr := mkJournal (content j +:+ enc) [] (j_origin_id j) nxt
    (pending j ++ [(sequence r, r)]) false (attempted j) sp).
  exists r, jr. split_and!; [|done..].
  edestruct (durable_written d j ls st (Queued r) enc st' jr) as [line Hl]; try done.
  - simpl. rewrite length_app. simpl. lia.
  - by eexists _, _.
Qed.
End ops.

(** ** Shared facts of the flush statements *)

Lemma sublist_take {A} n (l : list A) : take n l `sublist_of` l.
Proof. rewrite <- (take_drop n l) at 2. apply sublist_inserts_r. done. Qed.

Section requests.
Context `{UnicodeCase} `{!JournalCodec} `{!JournalCodecLaws}.

Lemma flush_requests_pending p nxt ids n r :
  pending_wf p nxt ids → r ∈ take n (map snd p) → (sequence r, r) ∈ p.
Proof.
  intros [Hk _ _] Hr. eapply elem_of_sublist in Hr; [|apply sublist_take].
  apply list_elem_of_fmap in Hr as ([k r'] & -> & Hin). rewrite Forall_forall in Hk.
  destruct (Hk _ Hin) as [Hkeq _]. simpl in *. by rewrite <- Hkeq.
Qed.

Lemma flush_requests_sorted p nxt ids n :
  pending_wf p nxt ids → StronglySorted Z.lt (sequence <$> take n (map snd p)).
Proof.
  intros [Hk Hs _]. eapply StronglySorted_sublist; [apply fmap_sublist, sublist_take|].
  assert (sequence <$> map snd p = p.*1) as ->; [|done].
  clear Hs. induction Hk as [|[k r] p [Hkeq _] _ IH]; [done|]. csimpl in *. congruence.
Qed.

Lemma load_lines_foreign d d' o ls st :
  d' ≠ d → load_lines (Some d) (load_init o) ls = Ok st → bound st = Some d →
  load_lines (Some d') (load_init o) ls = Err ScopeChanged.
Proof.
  intros Hne Hl Hb. destruct ls as [|l ls]; simpl in Hl; [result_simplify; by subst|].
  result_simplify. simpl. apply load_line_Ok in Hok as (He & Hlen & e & body & Hs & Hv & Hev).
  apply load_event_first in Hev as (o' & d'' & -> & _ & ->).
  unfold load_line. rewrite He. destruct (Z.ltb_spec RECORD_LIMIT (str_len l)); [lia|].
  rewrite Hs. simpl. rewrite Hv. simpl. rewrite (bool_decide_eq_true_2 (digest_hex _ = _)) by done.
  simpl. rewrite bool_decide_eq_true_2 by done. simpl. by rewrite bool_decide_eq_false_2 by congruence.
Qed.
End requests.

(** ** Properties *)

Section properties.
Context `{UnicodeCase} `{!JournalCodec} `{!JournalCodecLaws}.

(** C2. A successful enqueue adds the request as the last pending one. If its arguments
    are nested no deeper than the parser reads, it is durable: reopening the file gives
    exactly the journal held in memory, so the request, its identity and its order
    survive a restart. If they are nested deeper the enqueue succeeds all the same, and
    the file is then refused as corrupt, with every request in it. *)
Theorem enqueue_survives_reopen (d : string) (j : Journal) (op : Operation)
    (srf : ClientSurface) (args : fields) (now : Z) (id : uuid) (r : ReplayRequest)
    (j' : Journal) (sched : list io_outcome) (o : uuid) :
  Durable d j → no_float (JObj args) = true → id ∉ recorded_ids d (content j) →
  enqueue j op srf args now id = (Ok r, j') →
  map snd (pending j') = map snd (pending j) ++ [r] ∧
  sequence r = next_sequence j ∧ next_sequence j' = (next_sequence j + 1)%Z ∧
  load open_fine (content j') sched o (Some d) true =
    if args_nesting args <=? PARSER_DEPTH then
      (Ok (mkJournal (content j') sched (j_origin_id j') (next_sequence j') (pending j')
             false (attempted j') true, Some d), content j')
    else (Err Corrupt, content j').
Proof.
  intros Hd Hf Hid He.
  destruct (enqueue_Ok _ _ _ _ _ _ _ _ _ Hd Hid He)
    as [_ Hargs _ Hp Hs Hn _ _ (enc & Henc & Hcont & Hr & Hmax) Hdur].
  split_and!; [by rewrite Hp, map_app|done|done|].
  destruct (Nat.leb_spec (args_nesting args) PARSER_DEPTH) as [Hle|Hgt].
  - apply durable_load. auto.
  - rewrite Hcont. apply (deep_corrupt d j (Queued r)); try done; by subst args.
Qed.

(** C34. A failed enqueue never corrupts silently: after any file-system failure,
    reopening the file either gives the journal without the request, or refuses
    the file as corrupt, or gives the journal with exactly that request added. *)
Theorem enqueue_failure_atomic (d : string) (j : Journal) (op : Operation)
    (srf : ClientSurface) (args : fields) (now : Z) (id : uuid) (e : OutboxError)
    (j' : Journal) (sched : list io_outcome) (o : uuid) :
  Durable d j → no_float (JObj args) = true → id ∉ recorded_ids d (content j) →
  enqueue j op srf args now id = (Err e, j') →
  match (load open_fine (content j') sched o (Some d) true).1 with
  | Ok (jr, _) => attempted jr = attempted j ∧
      (pending jr = pending j ∨
       ∃ r, request_id r = id ∧ arguments r = args ∧
         pending jr = pending j ++ [(sequence r, r)])
  | Err err => err = Corrupt
  end.
Proof.
  intros Hd Hf Hid He.
  destruct (enqueue_Err _ _ _ _ _ _ _ _ _ sched o true Hd Hf Hid He)
    as [Hc|[Hc|(r & jr & Hdr & Hc & Hi & Ha & Hp & Hat)]].
  - rewrite Hc, (durable_load d j) by done. simpl. auto.
  - by rewrite Hc.
  - rewrite <- Hc, (durable_load d jr) by done. simpl. split; [done|]. right. eauto.
Qed.

(** Opening is a fixed point: whatever file opening accepts, and whatever file
    it had to initialise, opening the result again gives the same journal. *)
Theorem reopen_same (env : open_env) (bytes : string) (sched sched' : list io_outcome)
    (o o' : uuid) (d : string) (j : Journal) (b : option string) (c : string) :
  load env bytes sched o (Some d) true = (Ok (j, b), c) →
  b = Some d ∧
  load open_fine (content j) sched' o' (Some d) true =
    (Ok (mkJournal (content j) sched' (j_origin_id j) (next_sequence j) (pending j) false
           (attempted j) true, Some d), content j).
Proof.
  intros Hl. apply load_durable in Hl as (Hd & Hb & _). split; [done|]. by apply durable_load.
Qed.

(** A flush keeps the file and the memory in step whatever the transport
    answers and whatever the file system does: a journal that is not poisoned
    afterwards reopens to exactly the state in memory. *)
Theorem flush_durable {W} (replay : W → ReplayRequest → result ReplayFailure ReplayResponse * W)
    (d : string) (j : Journal) (now : Z) (limit : nat) (w w' : W)
    (res : result OutboxError FlushReport) (j' : Journal) (sched : list io_outcome) (o : uuid) :
  Durable d j → poisoned j = false →
  flush replay now limit j w = (res, j', w') → poisoned j' = false →
  load open_fine (content j') sched o (Some d) true =
    (Ok (mkJournal (content j') sched (j_origin_id j') (next_sequence j') (pending j')
           false (attempted j') true, Some d), content j').
Proof.
  intros Hd Hp Hf Hp'. destruct (durable_wf _ _ Hd) as [ids Hw].
  apply durable_load. eapply flush_loop_spec in Hf; [|done|done| |].
  - destruct res; naive_solver.
  - intros r Hr. by eapply flush_requests_pending.
  - by eapply flush_requests_sorted.
Qed.

(** A completed flush accounts for every request: those it reports applied,
    expired, superseded or rejected, together with those it reports remaining,
    are exactly the requests that were pending. *)
Theorem flush_accounts {W} (replay : W → ReplayRequest → result ReplayFailure ReplayResponse * W)
    (d : string) (j : Journal) (now : Z) (limit : nat) (w w' : W) (rep : FlushReport)
    (j' : Journal) :
  Durable d j → poisoned j = false → flush replay now limit j w = (Ok rep, j', w') →
  applied rep + expired rep + superseded rep + rejected rep + remaining rep
    = length (pending j) ∧
  remaining rep = length (pending j').
Proof.
  intros Hd Hp Hf. destruct (durable_wf _ _ Hd) as [ids Hw].
  eapply flush_loop_spec in Hf; [|done|done| |].
  - destruct Hf as (_ & _ & Hr & Ht). unfold total in Ht. simpl in Ht. split; [lia|done].
  - intros r Hr. by eapply flush_requests_pending.
  - by eapply flush_requests_sorted.
Qed.

(** C3. What a flush sends: the requests handed to the transport are pending ones,
    in sequence order, each at most once. One that had not been attempted before is
    not past its expiry and is not a presence with a newer pending one of the same
    agent. Afterwards each of them has left the queue or carries its attempt
    mark: nothing that was sent can be taken for unsent. *)
Theorem flush_sends {W} (replay : W → ReplayRequest → result ReplayFailure ReplayResponse * W)
    (d : string) (j : Journal) (now : Z) (limit : nat) (w w' : W)
    (res : result OutboxError FlushReport) (j' : Journal) (sent : list ReplayRequest) :
  Durable d j → poisoned j = false →
  flush (recording replay) now limit j ([], w) = (res, j', (sent, w')) →
  sent `sublist_of` map snd (pending j) ∧ StronglySorted Z.lt (sequence <$> sent) ∧
  ∀ r, r ∈ sent →
    (request_id r ∈ attempted j ∨
     (unexpired now r ∧ superseded_by_newer j r = false)) ∧
    ((sequence r, r) ∉ pending j' ∨ request_id r ∈ attempted j').
Proof.
  intros Hd Hp Hf. destruct (durable_wf _ _ Hd) as [ids Hw].
  eapply (flush_loop_log replay d now j) in Hf as (_ & sent' & Hs & Hsub & Hall);
    [|done|done| | | |done|done].
  - simpl in Hs. subst sent'.
    assert (Hsub' : sent `sublist_of` map snd (pending j)).
    { etrans; [done|]. apply sublist_take. }
    split_and!; [done| |].
    + eapply StronglySorted_sublist; [apply fmap_sublist, Hsub|].
      by eapply flush_requests_sorted.
    + intros r Hr. rewrite Forall_forall in Hall. by destruct (Hall _ Hr).
  - intros r Hr. by eapply flush_requests_pending.
  - by eapply flush_requests_sorted.
  - destruct Hw as [Hk _ _]. eapply Forall_impl; [exact Hk|]. naive_solver.
Qed.

(** A journal is bound to its destination: opening it for another one is
    refused and leaves the file untouched. *)
Theorem scope_change_refused (d d' : string) (j : Journal) (sched : list io_outcome) (o : uuid) :
  Durable d j → d' ≠ d →
  load open_fine (content j) sched o (Some d') true = (Err ScopeChanged, content j).
Proof.
  intros (ls & st & Hd) Hne. unfold load. simpl.
  pose proof (du_len _ _ _ _ Hd).
  destruct (Z.ltb_spec JOURNAL_LIMIT (str_len (content j))); [lia|].
  rewrite (du_file _ _ _ _ Hd), unlines_ends, journal_lines_unlines
    by apply (du_lines _ _ _ _ Hd).
  by rewrite (load_lines_foreign d d' o ls st) by (done || apply Hd).
Qed.
End properties.

(** ** Concrete runs

    A journal opened on an empty file, one acknowledgement queued, then two
    presences of one agent of which the first is superseded. *)

Section demo.
#[local] Existing Instances ascii_case bit_codec bit_codec_laws.

Definition demo_open : Journal :=
  match (load open_fine "" [] 7 (Some "h") true).1 with
  | Ok (j, _) => j
  | Err _ => mkJournal "" [] 0 0 [] true ∅ true
  end.

Definition demo_args : fields := [("agent", JStr "a"); ("message_id", JStr "m")].
Definition demo_presence : fields := [("agent", JStr "a")].

Definition demo_queued : Journal := (enqueue demo_open Ack Cli demo_args 5 11).2.
Definition demo_three : Journal :=
  (enqueue (enqueue demo_queued Presence Cli demo_presence 6 12).2
     Presence Cli demo_presence 7 13).2.

Definition demo_replay (n : nat) (r : ReplayRequest)
    : result ReplayFailure ReplayResponse * nat := (Ok (Applied JNull), S n).

Lemma demo_open_durable : Durable "h" demo_open.
Proof.
  assert (∃ c, load open_fine "" [] 7 (Some "h") true = (Ok (demo_open, Some "h"), c)) as [c Hl]
    by (eexists; vm_compute; reflexivity).
  by apply load_durable in Hl as (Hd & _).
Qed.

Lemma demo_enqueue_durable j op args now id r j' :
  Durable "h" j → enqueue j op Cli args now id = (Ok r, j') →
  no_float (JObj args) = true ∧ args_nesting args = 4 →
  bool_decide (id ∈ recorded_ids "h" (content j)) = false →
  Durable "h" j'.
Proof.
  intros Hd He [Hf Hn] Hid. apply bool_decide_eq_false in Hid.
  apply (eq_durable _ _ _ _ _ (enqueue_Ok "h" j op Cli args now id r j' Hd Hid He) Hf).
  rewrite Hn. by apply Nat.leb_le.
Qed.

Lemma demo_queued_durable : Durable "h" demo_queued.
Proof.
  assert (∃ r, enqueue demo_open Ack Cli demo_args 5 11 = (Ok r, demo_queued)) as [r He]
    by (eexists; vm_compute; reflexivity).
  eapply demo_enqueue_durable; [apply demo_open_durable|exact He|by split|by vm_compute].
Qed.

Lemma demo_three_durable : Durable "h" demo_three.
Proof.
  assert (∃ r, enqueue demo_queued Presence Cli demo_presence 6 12 =
    (Ok r, (enqueue demo_queued Presence Cli demo_presence 6 12).2)) as [r He]
    by (eexists; vm_compute; reflexivity).
  assert (∃ r, enqueue (enqueue demo_queued Presence Cli demo_presence 6 12).2
    Presence Cli demo_presence 7 13 = (Ok r, demo_three)) as [r' He']
    by (eexists; vm_compute; reflexivity).
  eapply demo_enqueue_durable; [|exact He'|by split|by vm_compute].
  eapply demo_enqueue_durable; [apply demo_queued_durable|exact He|by split|by vm_compute].
Qed.

Lemma enqueue_survives_reopen_witness :
  ∃ r j', enqueue demo_queued Ack Cli demo_args 8 12 = (Ok r, j') ∧
    map snd (pending j') = map snd (pending demo_queued) ++ [r] ∧ length (pending j') = 2 ∧
    load open_fine (content j') [] 0 (Some "h") true =
      (Ok (mkJournal (content j') [] 7 3 (pending j') false ∅ true, Some "h"), content j').
Proof.
  eexists _, _. split; [vm_compute; reflexivity|].
  edestruct (enqueue_survives_reopen "h" demo_queued Ack Cli demo_args 8 12) as (Hp & _ & _ & Hl);
    [apply demo_queued_durable|reflexivity| |vm_compute; reflexivity|].
  - eapply bool_decide_eq_false_1. vm_compute. reflexivity.
  - split; [exact Hp|]. split; [reflexivity|]. exact (Hl : load _ _ [] 0 _ _ = _).
Defined.

(** A message whose metadata is nested 124 deep, within what the command line reads, is
    accepted, and the journal is lost. *)
Definition demo_deep : fields :=
  [("body", JStr "b"); ("metadata", Nat.iter 123 (λ v, JObj [("k", v)]) (JObj []));
   ("recipient", JStr "r"); ("sender", JStr "s"); ("topic", JStr "t")].

Lemma demo_deep_corrupts :
  depth (from_option id JNull (get demo_deep "metadata")) = 124 ∧
  ∃ r j', enqueue demo_queued Outbox.Send Cli demo_deep 8 12 = (Ok r, j') ∧
    load open_fine (content j') [] 0 (Some "h") true = (Err Corrupt, content j').
Proof.
  split; [reflexivity|].
  assert (is_ok (enqueue demo_queued Outbox.Send Cli demo_deep 8 12).1 = true) as Hok
    by by vm_compute.
  destruct (enqueue demo_queued Outbox.Send Cli demo_deep 8 12) as [[r|e] j'] eqn:He; [|done].
  exists r, j'. split; [done|].
  assert (bool_decide (12%Z ∈ recorded_ids "h" (content demo_queued)) = false) as Hid by by vm_compute.
  apply bool_decide_eq_false in Hid.
  destruct (enqueue_Ok "h" _ _ _ _ _ _ _ _ demo_queued_durable Hid He)
    as [_ Hargs _ _ _ _ _ _ (enc & Henc & -> & Hr & Hmax) _].
  apply (deep_corrupt "h" demo_queued (Queued r) enc); [apply demo_queued_durable| | |done..];
    simpl; rewrite Hargs; [by vm_compute|]. apply Nat.ltb_lt. by vm_compute.
Qed.

(** The write stops after three bytes: the file is refused as corrupt. *)
Definition demo_torn : Journal :=
  set_file demo_queued (content demo_queued) [mkIo true true true (Some 3) true] false.

Lemma demo_torn_durable : Durable "h" demo_torn.
Proof.
  destruct demo_queued_durable as (ls & st & [? ? ? ? ? ? ? ? ? ?]). exists ls, st.
  by constructor.
Qed.

Lemma enqueue_failure_atomic_witness :
  ∃ j', enqueue demo_torn Ack Cli demo_args 8 12 = (Err Io, j') ∧
    match (load open_fine (content j') [] 0 (Some "h") true).1 with
    | Ok (jr, _) => attempted jr = attempted demo_torn ∧
        (pending jr = pending demo_torn ∨
         ∃ r, request_id r = 12%Z ∧ arguments r = demo_args ∧
           pending jr = pending demo_torn ++ [(sequence r, r)])
    | Err err => err = Corrupt
    end.
Proof.
  eexists. split; [vm_compute; reflexivity|].
  apply (enqueue_failure_atomic "h" demo_torn Ack Cli demo_args 8 12 Io);
    [apply demo_torn_durable|reflexivity| |vm_compute; reflexivity].
  eapply bool_decide_eq_false_1. vm_compute. reflexivity.
Defined.

Lemma reopen_same_witness :
  ∃ j c, load open_fine (content demo_three) [] 3 (Some "h") true = (Ok (j, Some "h"), c) ∧
    load open_fine (content j) [] 4 (Some "h") true =
      (Ok (mkJournal (content j) [] (j_origin_id j) (next_sequence j) (pending j) false
             (attempted j) true, Some "h"), content j) ∧
    length (pending j) = 3.
Proof.
  eexists _, _. split; [vm_compute; reflexivity|]. split; [|reflexivity].
  eapply (reopen_same open_fine (content demo_three) [] [] 3 4 "h").
  vm_compute. reflexivity.
Defined.

Lemma flush_durable_witness :
  ∃ rep j', flush demo_replay 9 5 demo_three 0 = (Ok rep, j', 2) ∧
    load open_fine (content j') [] 0 (Some "h") true =
      (Ok (mkJournal (content j') [] 7 4 [] false ∅ true, Some "h"), content j').
Proof.
  eexists _, _. split; [vm_compute; reflexivity|].
  eapply (flush_durable demo_replay "h" demo_three 9 5 0 2);
    [apply demo_three_durable|reflexivity|vm_compute; reflexivity|reflexivity].
Defined.

Lemma flush_accounts_witness :
  ∃ rep j', flush demo_replay 9 5 demo_three 0 = (Ok rep, j', 2) ∧
    applied rep = 2 ∧ superseded rep = 1 ∧
    applied rep + expired rep + superseded rep + rejected rep + remaining rep = 3.
Proof.
  eexists _, _. split; [vm_compute; reflexivity|]. do 2 (split; [reflexivity|]).
  eapply (flush_accounts demo_replay "h" demo_three 9 5 0 2);
    [apply demo_three_durable|reflexivity|vm_compute; reflexivity].
Defined.

Lemma flush_sends_witness :
  ∃ res j' sent, flush (recording demo_replay) 9 5 demo_three ([], 0) = (res, j', (sent, 2)) ∧
    (sequence <$> sent) = [1; 3]%Z ∧ sent `sublist_of` map snd (pending demo_three).
Proof.
  eexists _, _, _. split; [vm_compute; reflexivity|]. split; [reflexivity|].
  edestruct (flush_sends demo_replay "h" demo_three 9 5 0 2) as (Hs & _);
    [apply demo_three_durable|reflexivity|vm_compute; reflexivity|exact Hs].
Defined.

Lemma scope_change_refused_witness :
  load open_fine (content demo_three) [] 0 (Some "other") true
    = (Err ScopeChanged, content demo_three).
Proof. apply (scope_change_refused "h" "other"); [apply demo_three_durable|done]. Defined.
End demo.
