(* ===== verification/NetLocation.v ===== *)
(** * NetLocation: network locations and their prefixes

    Models [crates/agent-bus-core/src/network_location.rs]: IP prefixes, the
    [network_locations] configuration, detection of the current locations and the
    location-aware candidate order. IP address text is read the way the standard
    library's parser reads it. Collecting the signals of the machine is I/O: the
    probe enters as data. *)

From Stdlib Require Import ZArith Lia Ascii.
From stdpp Require Import base option list strings.
From S2P Require Import Prelude Str Json HubTypes.

(** ** IP addresses

    The 32 or 128 bits of the address, [u32::from] and [u128::from]. *)

Inductive IpAddr : Type := V4 (bits : Z) | V6 (bits : Z).

#[export] Instance IpAddr_eq_dec : EqDecision IpAddr.
Proof. solve_decision. Defined.

Definition is_ipv4 (a : IpAddr) : bool := match a with V4 _ => true | V6 _ => false end.
Definition ip_bits (a : IpAddr) : Z := match a with V4 b | V6 b => b end.
Definition ip_width (a : IpAddr) : Z := match a with V4 _ => 32 | V6 _ => 128 end.

Definition ip_wf (a : IpAddr) : Prop := (0 ≤ ip_bits a < 2 ^ ip_width a)%Z.

(** *** [IpAddr::from_str]

    Each reader takes the remaining text and returns its value and the rest;
    a failed reader consumes nothing. *)

Definition to_digit (radix : Z) (a : ascii) : option Z :=
  let n := Z.of_N (N_of_ascii a) in
  let d := if is_digit a then (n - 48)%Z
           else if byte_in 97 122 a then (n - 87)%Z
           else if byte_in 65 90 a then (n - 55)%Z else 99%Z in
  if (d <? radix)%Z then Some d else None.

(** Digits with their count; more than [max] digits is a failure. *)
Fixpoint read_digits (radix : Z) (max : nat) (acc : Z) (count : nat) (s : string) {struct s}
    : option (Z * nat * string) :=
  match s with
  | String a t =>
      match to_digit radix a with
      | Some d =>
          match max with
          | O => None
          | S m => read_digits radix m (acc * radix + d) (S count) t
          end
      | None => Some (acc, count, s)
      end
  | EmptyString => Some (acc, count, s)
  end.

Definition read_number (radix : Z) (max : nat) (bound : Z) (allow_zero_prefix : bool)
    (s : string) : option (Z * string) :=
  match read_digits radix max 0 0 s with
  | Some (v, count, rest) =>
      if (count =? 0)%nat then None
      else if negb allow_zero_prefix && starts_with s "0" && (1 <? count)%nat then None
      else if (v <=? bound)%Z then Some (v, rest) else None
  | None => None
  end.

Definition read_given (c : ascii) (s : string) : option string :=
  match s with
  | String a t => if ascii_dec a c then Some t else None
  | EmptyString => None
  end.

Definition read_separator {A} (c : ascii) (index : nat)
    (inner : string → option (A * string)) (s : string) : option (A * string) :=
  match index with
  | O => inner s
  | S _ => read_given c s ≫= inner
  end.

Definition read_octet (index : nat) : string → option (Z * string) :=
  read_separator "." index (read_number 10 3 255 false).

Definition read_ipv4_addr (s : string) : option (Z * string) :=
  '(a, s) ← read_octet 0 s; '(b, s) ← read_octet 1 s;
  '(c, s) ← read_octet 2 s; '(d, s) ← read_octet 3 s;
  Some (((a * 256 + b) * 256 + c) * 256 + d, s)%Z.

(** Up to [limit] groups from position [i] on: the groups read, whether an IPv4
    tail was read, and the rest. *)
Fixpoint read_groups (limit i : nat) (s : string) : list Z * bool * string :=
  match limit with
  | O => ([], false, s)
  | S more =>
      match (match more with
             | O => None
             | S _ => read_separator ":" i read_ipv4_addr s
             end) with
      | Some (v4, rest) => ([Z.shiftr v4 16; Z.land v4 65535], true, rest)
      | None =>
          match read_separator ":" i (read_number 16 4 65535 true) s with
          | Some (g, rest) =>
              let '(gs, v4, rest) := read_groups more (S i) rest in (g :: gs, v4, rest)
          | None => ([], false, s)
          end
      end
  end.

Definition groups_bits (gs : list Z) : Z := foldl (λ acc g, acc * 65536 + g)%Z 0%Z gs.

Definition read_ipv6_addr (s : string) : option (Z * string) :=
  let '(head, head_ipv4, rest) := read_groups 8 0 s in
  if (length head =? 8)%nat then Some (groups_bits head, rest)
  else if head_ipv4 then None
  else
    rest ← read_given ":" rest;
    rest ← read_given ":" rest;
    let '(tail, _, rest) := read_groups (8 - (length head + 1)) 0 rest in
    Some (groups_bits (head ++ replicate (8 - length head - length tail) 0%Z ++ tail), rest).

Definition parse_ip (s : string) : option IpAddr :=
  match read_ipv4_addr s with
  | Some (v, rest) => if is_empty rest then Some (V4 v) else None
  | None =>
      match read_ipv6_addr s with
      | Some (v, rest) => if is_empty rest then Some (V6 v) else None
      | None => None
      end
  end.

(** [str::parse::<u8>]: an optional plus sign, then decimal digits of any number. *)
Fixpoint parse_u8_digits (acc : Z) (s : string) : option Z :=
  match s with
  | EmptyString => Some acc
  | String a t =>
      d ← to_digit 10 a;
      let v := (acc * 10 + d)%Z in
      if (v <=? 255)%Z then parse_u8_digits v t else None
  end.

Definition parse_u8 (s : string) : option Z :=
  let body := match strip_prefix s "+" with Some t => t | None => s end in
  if is_empty body then None else parse_u8_digits 0 body.

Example parse_ip_examples :
  parse_ip "100.64.0.1" = Some (V4 1681915905) ∧ parse_ip "1.2.3.04" = None ∧
  parse_ip "fd00::1" = Some (V6 (0xfd00 * 2 ^ 112 + 1)) ∧ parse_ip "::" = Some (V6 0) ∧
  parse_ip "1:2:3:4:5:6:7:8:9" = None ∧ parse_ip "::ffff:1.2.3.4" = Some (V6 0xffff01020304).
Proof. by vm_compute. Qed.

(** ** Prefixes *)

Record Cidr := mkCidr { network : IpAddr; prefix : Z }.

#[export] Instance Cidr_eq_dec : EqDecision Cidr.
Proof. solve_decision. Defined.

(** [MAX.checked_shl(w - prefix).unwrap_or(0)] on [w]-bit words. *)
Definition keep_bits (w prefix : Z) : Z :=
  let shift := (w - prefix)%Z in
  if (shift <? w)%Z then Z.land (Z.shiftl (2 ^ w - 1) shift) (2 ^ w - 1) else 0%Z.

Definition mask (address : IpAddr) (prefix : Z) : IpAddr :=
  match address with
  | V4 b => V4 (Z.land b (keep_bits 32 prefix))
  | V6 b => V6 (Z.land b (keep_bits 128 prefix))
  end.

Definition of_address (address : IpAddr) (prefix : Z) : option Cidr :=
  let max := if is_ipv4 address then 32%Z else 128%Z in
  if (prefix <=? max)%Z then Some (mkCidr (mask address prefix) prefix) else None.

Definition cidr_contains (c : Cidr) (address : IpAddr) : bool :=
  Bool.eqb (is_ipv4 address) (is_ipv4 (network c))
  && bool_decide (mask address (prefix c) = network c).

Section rules.
Context `{DebugFmt}.

Definition parse (raw : string) : result string Cidr :=
  let? p := ok_or ("cidr " +:+ debug_str raw +:+ " must be address/prefix")
        (split_once "/" (trim raw)) in
  let? net := ok_or ("cidr " +:+ debug_str raw +:+ " has an invalid address")
          (parse_ip p.1) in
  let? pre := ok_or ("cidr " +:+ debug_str raw +:+ " has an invalid prefix")
          (parse_u8 p.2) in
  let max := if is_ipv4 net then 32%Z else 128%Z in
  if (max <? pre)%Z
  then Err ("cidr " +:+ debug_str raw +:+ " prefix exceeds " +:+ dec max)
  else Ok (mkCidr (mask net pre) pre).

(** ** Rules *)

Record LocationRule := mkRule {
  name : string;
  cidrs : list Cidr;
  dns_suffixes : list string;
}.

Definition valid_site_name (nm : string) : bool :=
  negb (is_empty nm) && (str_len nm <=? 64)%Z
  && str_all (λ b, is_ascii_alphanumeric b || bool_decide (b ∈ ["."; "_"; "-"]%char)) nm.

Definition normalize_domain (raw : string) : string :=
  to_ascii_lowercase (trim_end_matches "." (trim raw)).

Fixpoint strings_of (key : string) (items : list json) : result string (list string) :=
  match items with
  | [] => Ok []
  | item :: rest =>
      let? s := ok_or (key +:+ " entries must be strings") (as_str item) in
      let? ss := strings_of key rest in Ok (s :: ss)
  end.

Definition string_list (m : fields) (key : string) : result string (list string) :=
  match get m key with
  | None => Ok []
  | Some (JArr items) => strings_of key items
  | Some _ => Err (key +:+ " must be an array of strings")
  end.

Fixpoint parse_all (raws : list string) : result string (list Cidr) :=
  match raws with
  | [] => Ok []
  | r :: rest => let? c := parse r in let? cs := parse_all rest in Ok (c :: cs)
  end.

Definition known_location_key (key : string) : bool :=
  bool_decide (key ∈ ["name"; "cidrs"; "dns_suffixes"]).

Definition parse_location_rule (position : nat) (rules : list LocationRule) (entry : json)
    : result string LocationRule :=
  let at_position := "network location " +:+ dec (Z.of_nat position) in
  let? m := ok_or (at_position +:+ " must be an object") (as_object entry) in
  match find (λ kv, negb (known_location_key kv.1)) m with
  | Some (key, _) => Err (at_position +:+ ": unknown key " +:+ debug_str key)
  | None =>
      let? nm := ok_or (at_position +:+ ": name must match [A-Za-z0-9._-]{1,64}")
        (match trim <$> get_str m "name" with
         | Some n => if valid_site_name n then Some n else None
         | None => None
         end) in
      if existsb (λ r, bool_decide (name r = nm)) rules
      then Err (at_position +:+ ": duplicate name " +:+ debug_str nm)
      else
        let? cs := map_err (λ e, at_position +:+ ": " +:+ e)
                     (let? raw := string_list m "cidrs" in parse_all raw) in
        let? raw := map_err (λ e, at_position +:+ ": " +:+ e) (string_list m "dns_suffixes") in
        let suffixes := map normalize_domain raw in
        if existsb is_empty suffixes then Err (at_position +:+ ": empty dns suffix")
        else if bool_decide (cs = []) && bool_decide (suffixes = [])
        then Err (at_position +:+ ": needs at least one cidr or dns suffix")
        else Ok (mkRule nm cs suffixes)
  end.

Fixpoint parse_rules_from (position : nat) (rules : list LocationRule) (entries : list json)
    : result string (list LocationRule) :=
  match entries with
  | [] => Ok rules
  | entry :: rest =>
      let? rule := parse_location_rule position rules entry in
      parse_rules_from (S position) (rules ++ [rule]) rest
  end.

Definition parse_location_rules (value : json) : result string (list LocationRule) :=
  let? entries := ok_or "network_locations must be an array" (as_array value) in
  parse_rules_from 1 [] entries.
End rules.

(** ** Detection *)

Record NetworkSignals := mkSignals {
  addresses : list IpAddr;
  seen_suffixes : list string;
}.

Definition suffix_matches (wanted seen : string) : bool :=
  bool_decide (seen = wanted)
  || match strip_suffix seen wanted with Some head => ends_with head "." | None => false end.

Definition rule_matches (s : NetworkSignals) (suffixes : list string) (r : LocationRule)
    : bool :=
  existsb (λ c, existsb (cidr_contains c) (addresses s)) (cidrs r)
  || existsb (λ wanted, existsb (suffix_matches wanted) suffixes) (dns_suffixes r).

Definition detect_locations (rules : list LocationRule) (s : NetworkSignals) : list string :=
  let suffixes := List.filter (λ x, negb (is_empty x)) (map normalize_domain (seen_suffixes s)) in
  map name (List.filter (rule_matches s suffixes) rules).

(** The loop over the override's names. *)
Fixpoint override_names (seen : list string) (raw : list string) : list string :=
  match raw with
  | [] => seen
  | r :: rest =>
      let nm := trim r in
      if valid_site_name nm && negb (existsb (λ x, bool_decide (x = nm)) seen)
      then override_names (seen ++ [nm]) rest
      else override_names seen rest
  end.

(** The probe's two answers are arguments: the override and the signals. *)
Definition current_locations (rules : list LocationRule) (override : option string)
    (s : NetworkSignals) : option (list string) :=
  let detected := match rules with [] => None | _ => Some (detect_locations rules s) end in
  match override with
  | Some raw =>
      let raw := trim raw in
      if is_empty raw then detected
      else if eq_ignore_ascii_case raw "none" then Some []
      else Some (override_names [] (split_char "," raw))
  | None => detected
  end.

(** ** Candidate order *)

Definition location_rank (locations : list string) (c : HubCandidate) : nat :=
  if site_matches c locations then 0 else 1.

Definition location_order (candidates : list HubCandidate)
    (locations : option (list string)) : list nat :=
  match locations with
  | None => seq 0 (length candidates)
  | Some ls =>
      let rank i := match candidates !! i with
                    | Some c => location_rank ls c
                    | None => 0
                    end in
      sort_by (λ a b, rank a <=? rank b)%nat (seq 0 (length candidates))
  end.

(** ** Facts: reading addresses *)

Lemma to_digit_bounds radix a d : to_digit radix a = Some d → (0 ≤ d < radix)%Z.
Proof.
  unfold to_digit. intros Hd. destruct (_ <? _)%Z eqn:E in Hd; [|done].
  injection Hd as <-. bool_simplify. split; [|done].
  unfold is_digit, byte_in in *. repeat case_match; bool_simplify; lia.
Qed.

Lemma read_digits_nonneg radix max acc count s v n rest :
  (0 ≤ acc)%Z → (0 ≤ radix)%Z → read_digits radix max acc count s = Some (v, n, rest) → (0 ≤ v)%Z.
Proof.
  revert max acc count. induction s as [|a s IH]; intros max acc count Ha Hr; simpl.
  { by intros [= <- <- <-]. }
  destruct (to_digit radix a) as [d|] eqn:E; [|by intros [= <- <- <-]].
  destruct max as [|m]; [done|]. apply to_digit_bounds in E. apply IH; nia.
Qed.

Lemma read_number_bounds radix max bound z s v rest :
  (0 ≤ radix)%Z → read_number radix max bound z s = Some (v, rest) → (0 ≤ v ≤ bound)%Z.
Proof.
  intros Hr. unfold read_number. destruct (read_digits _ _ _ _ _) as [[[w n] t]|] eqn:E; [|done].
  apply read_digits_nonneg in E; [|lia|done]. repeat case_match; intros Hn; try done.
  injection Hn as <- <-. bool_simplify. lia.
Qed.

Lemma read_separator_bounds c i (inner : string → option (Z * string)) s v rest b :
  (∀ s v rest, inner s = Some (v, rest) → (0 ≤ v ≤ b)%Z) →
  read_separator c i inner s = Some (v, rest) → (0 ≤ v ≤ b)%Z.
Proof.
  intros Hi. destruct i; simpl; [apply Hi|]. destruct (read_given c s); simpl; [apply Hi|done].
Qed.

Lemma read_ipv4_bounds s v rest : read_ipv4_addr s = Some (v, rest) → (0 ≤ v ≤ 4294967295)%Z.
Proof.
  assert (Ho : ∀ i s v rest, read_octet i s = Some (v, rest) → (0 ≤ v ≤ 255)%Z).
  { intros i t x r. apply read_separator_bounds. intros t' x' r'.
    apply read_number_bounds. lia. }
  unfold read_ipv4_addr. intros Hv.
  do 4 apply bind_Some in Hv as ([? ?] & ?%Ho & Hv). injection Hv as <- <-. lia.
Qed.

Lemma read_groups_bounds limit i s gs v4 rest :
  read_groups limit i s = (gs, v4, rest) → Forall (λ g, (0 ≤ g < 65536)%Z) gs ∧ length gs ≤ limit.
Proof.
  revert i s gs v4 rest. induction limit as [|more IH]; intros i s gs v4 rest; simpl.
  { intros [= <- <- <-]. split; [constructor|simpl; lia]. }
  destruct (match more with O => None | S _ => _ end) as [[w t]|] eqn:E.
  { intros [= <- <- <-]. destruct more as [|more]; [done|].
    apply read_separator_bounds with (b := 4294967295%Z) in E; [|apply read_ipv4_bounds].
    split; [|simpl; lia]. repeat constructor.
    - apply Z.shiftr_nonneg. lia.
    - rewrite Z.shiftr_div_pow2 by lia. apply Z.div_lt_upper_bound; lia.
    - apply Z.land_nonneg. lia.
    - change 65535%Z with (Z.ones 16). rewrite Z.land_ones by lia.
      apply Z.mod_pos_bound. lia. }
  destruct (read_separator ":" i (read_number 16 4 65535 true) s) as [[g t]|] eqn:Eg.
  - destruct (read_groups more (S i) t) as [[gs' b] t'] eqn:Er. intros [= <- <- <-].
    apply IH in Er as [Hf Hl]. split; [|simpl; lia]. constructor; [|done].
    apply read_separator_bounds with (b := 65535%Z) in Eg; [lia|].
    intros ???. apply read_number_bounds. lia.
  - intros [= <- <- <-]. split; [constructor|simpl; lia].
Qed.

Lemma groups_bits_bounds gs acc n :
  Forall (λ g, (0 ≤ g < 65536)%Z) gs → (0 ≤ acc < 2 ^ (16 * Z.of_nat n))%Z →
  (0 ≤ foldl (λ acc g, acc * 65536 + g) acc gs < 2 ^ (16 * Z.of_nat (n + length gs)))%Z.
Proof.
  intros Hf. revert acc n. induction Hf as [|g gs Hg _ IH]; intros acc n Ha; simpl.
  { by rewrite Nat.add_0_r. }
  specialize (IH (acc * 65536 + g)%Z (S n)). replace (n + S (length gs)) with (S n + length gs) by lia.
  apply IH. replace (16 * Z.of_nat (S n))%Z with (16 * Z.of_nat n + 16)%Z by lia.
  rewrite Z.pow_add_r by lia. change (2 ^ 16)%Z with 65536%Z. lia.
Qed.

Lemma groups_bits_width gs :
  Forall (λ g, (0 ≤ g < 65536)%Z) gs → length gs = 8 → (0 ≤ groups_bits gs < 2 ^ 128)%Z.
Proof.
  intros Hf Hl. pose proof (groups_bits_bounds gs 0 0 Hf) as H. rewrite Hl in H. apply H. lia.
Qed.

Lemma read_ipv6_bounds s v rest : read_ipv6_addr s = Some (v, rest) → (0 ≤ v < 2 ^ 128)%Z.
Proof.
  unfold read_ipv6_addr. destruct (read_groups 8 0 s) as [[head b] t] eqn:Eh.
  apply read_groups_bounds in Eh as [Hf Hl].
  destruct (Nat.eqb_spec (length head) 8) as [H8|H8].
  { intros [= <- <-]. by apply groups_bits_width. }
  destruct b; [done|]. intros Hv.
  apply bind_Some in Hv as (t1 & _ & Hv). apply bind_Some in Hv as (t2 & _ & Hv).
  destruct (read_groups (8 - (length head + 1)) 0 t2) as [[tail b'] t'] eqn:Et.
  apply read_groups_bounds in Et as [Hf' Hl']. injection Hv as <- <-.
  apply groups_bits_width.
  - rewrite !Forall_app. split_and!; [done| |done]. apply Forall_replicate. lia.
  - rewrite !length_app, length_replicate. lia.
Qed.

Lemma parse_ip_wf s a : parse_ip s = Some a → ip_wf a.
Proof.
  unfold parse_ip. destruct (read_ipv4_addr s) as [[v t]|] eqn:E4.
  - apply read_ipv4_bounds in E4. case_match; [|done]. intros [= <-]. unfold ip_wf. simpl. lia.
  - destruct (read_ipv6_addr s) as [[v t]|] eqn:E6; [|done]. apply read_ipv6_bounds in E6.
    case_match; [|done]. by intros [= <-].
Qed.

Lemma parse_u8_digits_bounds acc s v :
  (0 ≤ acc ≤ 255)%Z → parse_u8_digits acc s = Some v → (0 ≤ v ≤ 255)%Z.
Proof.
  revert acc. induction s as [|a s IH]; intros acc Ha; simpl; [by intros [= <-]|].
  intros Hv. apply bind_Some in Hv as (d & Hd & Hv). apply to_digit_bounds in Hd.
  case_match; [|done]. bool_simplify. eapply IH; [|done]. lia.
Qed.

Lemma parse_u8_bounds s v : parse_u8 s = Some v → (0 ≤ v ≤ 255)%Z.
Proof.
  unfold parse_u8. case_match; case_match; try done; apply parse_u8_digits_bounds; lia.
Qed.

(** ** Facts: masks *)

Lemma keep_bits_land w p b :
  (0 ≤ p ≤ w)%Z → (0 ≤ b < 2 ^ w)%Z →
  Z.land b (keep_bits w p) = Z.shiftl (Z.shiftr b (w - p)) (w - p).
Proof.
  intros Hp Hb. unfold keep_bits. destruct (Z.ltb_spec (w - p) w) as [Hlt|Hge].
  - apply Z.bits_inj'. intros i Hi. rewrite !Z.land_spec, Z.shiftl_spec by done.
    rewrite <- Z.ones_equiv || replace (2 ^ w - 1)%Z with (Z.ones w)
      by (rewrite Z.ones_equiv; lia).
    rewrite Z.shiftl_spec by done.
    destruct (Z.ltb_spec i (w - p)) as [Hi'|Hi'].
    + rewrite (Z.testbit_neg_r (Z.ones w)), (Z.testbit_neg_r (Z.shiftr _ _)) by lia.
      by rewrite andb_false_l, andb_false_r.
    + rewrite Z.shiftr_spec by lia. replace (i - (w - p) + (w - p))%Z with i by lia.
      destruct (Z.ltb_spec i w) as [Hiw|Hiw].
      * by rewrite !Z.ones_spec_low, !andb_true_r by lia.
      * rewrite (Z.bits_above_log2 b i); [done|lia|].
        destruct (decide (b = 0%Z)) as [->|]; [simpl; lia|].
        apply Z.log2_lt_pow2; [lia|]. eapply Z.lt_le_trans; [apply Hb|].
        by apply Z.pow_le_mono_r.
  - assert (p = 0%Z) as -> by lia. rewrite Z.land_0_r, Z.sub_0_r.
    rewrite Z.shiftr_div_pow2, Z.div_small by lia. by rewrite Z.shiftl_0_l.
Qed.

Lemma shift_down_up_inj a b n :
  (0 ≤ n)%Z → Z.shiftl (Z.shiftr a n) n = Z.shiftl (Z.shiftr b n) n ↔
  Z.shiftr a n = Z.shiftr b n.
Proof.
  intros Hn. split; [|by intros ->]. intros H. rewrite !(Z.shiftl_mul_pow2 _ n) in H by done.
  apply Z.mul_cancel_r in H; [done|]. pose proof (Z.pow_pos_nonneg 2 n). lia.
Qed.

(** An address is in the prefix of another exactly when both are of one family
    and their leading bits agree. *)
Lemma cidr_contains_mask net p a :
  ip_wf net → ip_wf a → (0 ≤ p ≤ ip_width net)%Z →
  cidr_contains (mkCidr (mask net p) p) a = true ↔
  is_ipv4 a = is_ipv4 net ∧
  Z.shiftr (ip_bits a) (ip_width net - p) = Z.shiftr (ip_bits net) (ip_width net - p).
Proof.
  unfold cidr_contains, ip_wf. simpl. intros Hn Ha Hp.
  rewrite andb_true_iff, Bool.eqb_true_iff, bool_decide_eq_true.
  destruct a as [b|b], net as [n|n]; simpl in *; try (split; intros [? ?]; congruence).
  - rewrite !keep_bits_land, <- (shift_down_up_inj b n) by lia. split; intros [_ ?]; (split; [done|congruence]).
  - rewrite !keep_bits_land, <- (shift_down_up_inj b n) by lia. split; intros [_ ?]; (split; [done|congruence]).
Qed.

(** ** Facts: site names and rules *)

Section facts.
Context `{DebugFmt}.

Definition rule_wf (r : LocationRule) : Prop :=
  valid_site_name (name r) = true ∧
  Forall (λ c, ∃ net, ip_wf net ∧ (0 ≤ prefix c ≤ ip_width net)%Z ∧
               network c = mask net (prefix c)) (cidrs r) ∧
  Forall (λ s, s ≠ "") (dns_suffixes r) ∧
  (cidrs r ≠ [] ∨ dns_suffixes r ≠ []).

Lemma parse_Ok raw c :
  parse raw = Ok c → ∃ at_ pt net, split_once "/" (trim raw) = Some (at_, pt) ∧
  parse_ip at_ = Some net ∧ parse_u8 pt = Some (prefix c) ∧
  (0 ≤ prefix c ≤ ip_width net)%Z ∧ network c = mask net (prefix c) ∧ ip_wf net.
Proof.
  unfold parse. intros Hp. result_simplify. destruct a as [at_ pt]. simpl in *.
  pose proof (parse_ip_wf _ _ Hok0). pose proof (parse_u8_bounds _ _ Hok1).
  exists at_, pt, a0. destruct a0; simpl in *; case_match; result_simplify; bool_simplify;
    subst c; simpl; split_and!; (done || lia).
Qed.

Lemma parse_all_Ok raws cs :
  parse_all raws = Ok cs → Forall2 (λ raw c, parse raw = Ok c) raws cs.
Proof.
  revert cs. induction raws as [|r rs IH]; intros cs; simpl; intros Hp; result_simplify; subst.
  - constructor.
  - constructor; [done|]. by apply IH.
Qed.

Lemma parse_location_rule_Ok pos rules entry r :
  parse_location_rule pos rules entry = Ok r →
  rule_wf r ∧ name r ∉ map name rules.
Proof.
  unfold parse_location_rule. intros Hp. result_simplify.
  destruct (find _ a) as [[k v]|]; [done|]. result_simplify.
  destruct (trim <$> get_str a "name") as [n|] eqn:En; [|done].
  destruct (valid_site_name n) eqn:Ev; [|done]. injection Hok0 as <-.
  destruct (existsb (λ r, bool_decide (name r = n)) rules) eqn:Ed; [done|].
  result_simplify. destruct (existsb is_empty _) eqn:Ee; [done|].
  destruct (bool_decide (a0 = []) && _) eqn:Es; [done|]. result_simplify. subst r.
  apply parse_all_Ok in Hok0. split; [split_and!; simpl; [done| | |]|].
  - clear - Hok0. induction Hok0 as [|raw c raws cs Hc _ IH]; constructor; [|done].
    apply parse_Ok in Hc as (? & ? & net & _ & _ & _ & ? & ? & ?). eauto.
  - apply Forall_forall. intros s Hs ->. rewrite existsb_False in Ee.
    specialize (Ee _ Hs). done.
  - apply andb_false_iff in Es as [Es|Es]; bool_simplify; auto.
  - intros Hin. change (map name rules) with (name <$> rules) in Hin.
    apply list_elem_of_fmap in Hin as (r & Hr & Hin). simpl in Hr.
    rewrite existsb_False in Ed. specialize (Ed _ Hin). bool_simplify. congruence.
Qed.

Lemma parse_rules_from_Ok pos rules entries out :
  parse_rules_from pos rules entries = Ok out →
  Forall rule_wf rules → NoDup (map name rules) →
  Forall rule_wf out ∧ NoDup (map name out) ∧ length out = length rules + length entries.
Proof.
  revert pos rules. induction entries as [|e es IH]; intros pos rules; simpl; intros Hp Hw Hd;
    result_simplify.
  { subst. split_and!; [done..|lia]. }
  apply parse_location_rule_Ok in Hok as [Hwf Hn]. apply IH in Hp as (Hw' & Hd' & Hl).
  - split_and!; [done..|]. rewrite Hl, length_app. simpl. lia.
  - apply Forall_app. split; [done|by constructor].
  - rewrite map_app. apply NoDup_app. split_and!; [done| |apply NoDup_singleton].
    intros x Hx Hx'. simpl in Hx'. apply list_elem_of_singleton in Hx' as ->. done.
Qed.

Lemma suffix_matches_spec wanted seen :
  suffix_matches wanted seen = true ↔
  seen = wanted ∨ ∃ head, seen = head +:+ "." +:+ wanted.
Proof.
  unfold suffix_matches. rewrite orb_true_iff, bool_decide_eq_true. f_equiv. split.
  - destruct (strip_suffix seen wanted) as [h|] eqn:E; [|done].
    apply strip_suffix_spec in E. intros [t ->]%ends_with_spec. exists t.
    by rewrite E, string_app_assoc.
  - intros [h ->]. rewrite <- string_app_assoc, strip_suffix_app. apply ends_with_app.
Qed.

Lemma override_names_spec seen raw :
  NoDup seen → Forall (λ n, valid_site_name n = true) seen →
  NoDup (override_names seen raw) ∧
  Forall (λ n, valid_site_name n = true) (override_names seen raw) ∧
  ∀ n, n ∈ override_names seen raw ↔
  n ∈ seen ∨ (valid_site_name n = true ∧ n ∈ map trim raw).
Proof.
  revert seen. induction raw as [|r rest IH]; intros seen Hd Hv; simpl.
  { split_and!; [done..|]. intros n. rewrite elem_of_nil. naive_solver. }
  destruct (valid_site_name (trim r) && _) eqn:E; bool_simplify.
  - rewrite existsb_False in *. edestruct (IH (seen ++ [trim r])) as (Hd' & Hv' & Hiff).
    + apply NoDup_app. split_and!; [done| |apply NoDup_singleton].
      intros x Hx ->%list_elem_of_singleton.
      match goal with H : ∀ x, x ∈ seen → _ |- _ => specialize (H _ Hx) end.
      by bool_simplify.
    + apply Forall_app. split; [done|]. by constructor.
    + split_and!; [done..|]. intros n. rewrite Hiff, elem_of_app, list_elem_of_singleton,
        elem_of_cons. naive_solver.
  - destruct (IH seen Hd Hv) as (Hd' & Hv' & Hiff). split_and!; [done..|].
    intros n. rewrite Hiff, elem_of_cons. split; [naive_solver|].
    intros [?|[Hn [->|?]]]; [auto| |auto]. rewrite Hn in E. simpl in E. left.
    apply negb_false_iff, existsb_True in E as (x & Hx & He). bool_simplify. by subst.
Qed.
End facts.

(** ** Properties *)

Section properties.
Context `{DebugFmt}.

(** A prefix read from [address/prefix] text contains exactly the addresses of
    its family that share the written address's leading [prefix] bits, whatever
    host bits the text carried, and its length never exceeds the family's width. *)
Theorem parse_contains (raw : string) (c : Cidr) (a : IpAddr) :
  parse raw = Ok c → ip_wf a →
  ∃ at_ pt net, split_once "/" (trim raw) = Some (at_, pt) ∧ parse_ip at_ = Some net ∧
    parse_u8 pt = Some (prefix c) ∧ (0 ≤ prefix c ≤ ip_width net)%Z ∧
    (cidr_contains c a = true ↔
     is_ipv4 a = is_ipv4 net ∧
     Z.shiftr (ip_bits a) (ip_width net - prefix c)
       = Z.shiftr (ip_bits net) (ip_width net - prefix c)).
Proof.
  intros (at_ & pt & net & Hs & Hn & Hp & Hb & Hm & Hw)%parse_Ok Ha.
  exists at_, pt, net. split_and!; try done; try lia.
  destruct c as [cn p]. simpl in *. subst cn. by apply cidr_contains_mask.
Qed.

(** An accepted [network_locations] value gives one well-formed rule per entry:
    usable names, no two equal, prefixes masked to their length, non-empty DNS
    suffixes, and at least one signal in every rule. *)
Theorem location_rules_wf (value : json) (rules : list LocationRule) :
  parse_location_rules value = Ok rules →
  Forall rule_wf rules ∧ NoDup (map name rules) ∧
  ∃ entries, value = JArr entries ∧ length rules = length entries.
Proof.
  unfold parse_location_rules. intros Hp. result_simplify.
  apply parse_rules_from_Ok in Hp as (Hw & Hd & Hl); [|constructor|constructor].
  split_and!; [done..|]. exists a. destruct value; simplify_eq/=. done.
Qed.

(** Detection names exactly the rules one signal supports, in rule order: an
    address inside one of the rule's prefixes, or a DNS suffix equal to a wanted
    domain or ending in it at a label boundary. *)
Theorem detect_locations_spec (rules : list LocationRule) (s : NetworkSignals) (nm : string) :
  detect_locations rules s `sublist_of` map name rules ∧
  (nm ∈ detect_locations rules s ↔
   ∃ r, r ∈ rules ∧ name r = nm ∧
     ((∃ c a, c ∈ cidrs r ∧ a ∈ addresses s ∧ cidr_contains c a = true) ∨
      (∃ wanted raw, wanted ∈ dns_suffixes r ∧ raw ∈ seen_suffixes s ∧
         normalize_domain raw ≠ "" ∧
         (normalize_domain raw = wanted ∨
          ∃ head, normalize_domain raw = head +:+ "." +:+ wanted)))).
Proof.
  unfold detect_locations. set (suffixes := List.filter (λ x, negb (is_empty x)) _). split.
  { change (map name ?l) with (name <$> l). apply fmap_sublist.
    generalize (rule_matches s suffixes). intros f. clear. induction rules; simpl; [done|].
    case_match; by constructor. }
  assert (Hmem : ∀ x, x ∈ suffixes ↔ ∃ raw, raw ∈ seen_suffixes s ∧ x ≠ "" ∧
    normalize_domain raw = x).
  { intros x. unfold suffixes. rewrite list_elem_of_In, filter_In, in_map_iff.
    setoid_rewrite <- list_elem_of_In. unfold is_empty. rewrite negb_true_iff.
    rewrite bool_decide_eq_false. naive_solver. }
  change (map name ?l) with (name <$> l). rewrite list_elem_of_fmap.
  assert (Hf : ∀ f (l : list LocationRule) r, r ∈ List.filter f l ↔ r ∈ l ∧ f r = true)
    by (intros f l r; by rewrite !list_elem_of_In, filter_In).
  setoid_rewrite Hf. unfold rule_matches. setoid_rewrite orb_true_iff.
  setoid_rewrite existsb_True. setoid_rewrite existsb_True.
  setoid_rewrite suffix_matches_spec. setoid_rewrite Hmem. naive_solver.
Qed.

(** Location-aware ordering is a stable partition: the candidates declared for
    a current location come first, the others follow, each half in configured
    order, and unawareness keeps the configured order. *)
Theorem location_order_partition (candidates : list HubCandidate)
    (locations : option (list string)) :
  let matched i := match locations, candidates !! i with
                   | Some ls, Some c => site_matches c ls
                   | _, _ => false
                   end in
  location_order candidates locations =
    List.filter matched (seq 0 (length candidates))
    ++ List.filter (λ i, negb (matched i)) (seq 0 (length candidates)).
Proof.
  intros matched. destruct locations as [ls|]; simpl.
  - set (ids := seq 0 (length candidates)).
    assert (His : ∀ i, i ∈ ids → ∃ c, candidates !! i = Some c).
    { intros i Hi%elem_of_seq. apply lookup_lt_is_Some. lia. }
    set (f i := match candidates !! i with Some c => site_matches c ls | None => true end).
    rewrite (sort_by_two f).
    + f_equal; apply filter_ext_in; intros i Hi%list_elem_of_In; apply His in Hi as [c Hc];
        unfold f, matched; by rewrite Hc.
    + intros x y. unfold f, location_rank.
      destruct (candidates !! x), (candidates !! y); repeat case_match; done.
  - unfold matched. generalize (seq 0 (length candidates)). clear.
    induction l as [|x l IH]; simpl; [done|]. rewrite IH at 1.
    by replace (List.filter (λ _ : nat, false) l) with (@nil nat) by (clear; by induction l).
Qed.

End properties.

(** ** Concrete runs *)

Lemma parse_contains_witness :
  ∃ c, @parse plain_debug " 100.64.3.4/10 " = Ok c ∧ cidr_contains c (V4 1684275200) = true.
Proof.
  eexists. split; [vm_compute; reflexivity|].
  edestruct (@parse_contains plain_debug " 100.64.3.4/10 ") with (a := V4 1684275200)
    as (at_ & pt & net & Hs & Hn & Hp & Hb & Hiff); [vm_compute; reflexivity|by vm_compute|].
  apply Hiff. vm_compute in Hs. injection Hs as <- <-. vm_compute in Hn. injection Hn as <-.
  by vm_compute.
Defined.

Definition demo_rules : json :=
  JArr [JObj [("cidrs", JArr [JStr "10.60.0.0/16"]); ("name", JStr "lab")];
        JObj [("dns_suffixes", JArr [JStr "Home.Example."]); ("name", JStr "home")]].

Lemma location_rules_wf_witness :
  ∃ rules, @parse_location_rules plain_debug demo_rules = Ok rules ∧
    map name rules = ["lab"; "home"] ∧ Forall rule_wf rules.
Proof.
  eexists. split; [vm_compute; reflexivity|]. split; [reflexivity|].
  apply (@location_rules_wf plain_debug demo_rules). vm_compute. reflexivity.
Defined.
