(* ===== verification/LinkRoute.v ===== *)
(** * LinkRoute: link classes, route plans, walks and races

    Models [crates/agent-bus-core/src/link_route.rs]. Durations are nanoseconds.
    A probe is an environment function; a race is its sequence of joined
    completions together with the probes that had started when it ended, so that
    statements hold for every interleaving. *)

From Stdlib Require Import ZArith Lia Ascii.
From stdpp Require Import base option list strings sorting.
From S2P Require Import Prelude Str HubTypes NetLocation.

Definition DEFAULT_STAGGER_MS : Z := 75.

(** ** Link classes *)

Inductive LinkClass : Type := Fabric | Lan | Tailnet | CloudLink.

#[export] Instance LinkClass_eq_dec : EqDecision LinkClass.
Proof. solve_decision. Defined.

(** The derived order. *)
Definition class_rank (c : LinkClass) : nat :=
  match c with Fabric => 0 | Lan => 1 | Tailnet => 2 | CloudLink => 3 end.

Definition class_as_str (c : LinkClass) : string :=
  match c with
  | Fabric => "fabric"
  | Lan => "lan"
  | Tailnet => "tailnet"
  | CloudLink => "cloud"
  end.

Definition FABRIC_WORDS : list string := ["fabric"; "tb"; "thunderbolt"; "usb4"; "p2p"].
Definition TAILNET_WORDS : list string := ["tailnet"; "tailscale"].

Section plan.
Context `{DebugFmt} `{UrlLib}.

Definition tailnet_address (url : string) : bool :=
  match url_parse url with
  | None => false
  | Some parsed =>
      match host parsed with
      | Some (Domain nm) => ends_with (to_ascii_lowercase nm) ".ts.net"
      | Some (Ipv4 address) =>
          match parse "100.64.0.0/10" with
          | Ok cgnat => cidr_contains cgnat (V4 address)
          | Err _ => false
          end
      | _ => false
      end
  end.

(** Splitting at every byte that is not ASCII alphanumeric cuts a multi-byte
    character into empty words, which match no wanted word. *)
Definition has_word (c : HubCandidate) (words : list string) : bool :=
  existsb (λ site,
    existsb (λ word, existsb (λ wanted, eq_ignore_ascii_case word wanted) words)
      (split_on (λ ch, negb (is_ascii_alphanumeric ch)) site)) (sites c).

Definition class_of (c : HubCandidate) : LinkClass :=
  if decide (role c = Cloud) then CloudLink
  else if has_word c FABRIC_WORDS then Fabric
  else if has_word c TAILNET_WORDS || tailnet_address (url c) then Tailnet
  else Lan.

(** ** Plans *)

Record PlannedRoute := mkRoute {
  index : nat;
  class : LinkClass;
  delay : Z;
  cached : bool;
}.

Record RoutePlan := mkPlan {
  primary : list PlannedRoute;
  deferred : list PlannedRoute;
}.

Record PlanRequest := mkPlanRequest {
  candidates : list HubCandidate;
  locations : option (list string);
  cached_index : option nat;
  authority_only : bool;
  stagger : Z;
}.

Definition eligible (c : HubCandidate) (cl : LinkClass) (locs : option (list string)) : bool :=
  match locs with
  | None | Some [] => true
  | Some ls =>
      bool_decide (cl = CloudLink ∨ cl = Tailnet)
      || bool_decide (sites c = []) || site_matches c ls
  end.

Record Entry := mkEntry {
  e_index : nat;
  e_class : LinkClass;
  role_rank : nat;
  e_cached : bool;
  site_match : bool;
}.

(** Tuples compare lexicographically; [false] is before [true]. *)
Fixpoint lex_le (a b : list nat) : bool :=
  match a, b with
  | [], _ => true
  | _, [] => false
  | x :: a', y :: b' => (x <? y) || ((x =? y) && lex_le a' b')
  end.

Definition bit (b : bool) : nat := if b then 1 else 0.

Definition entry_key (e : Entry) : list nat :=
  [bit (negb (e_cached e)); class_rank (e_class e); role_rank e;
   bit (negb (site_match e)); e_index e].

Definition wave_key (e : Entry) : bool * LinkClass * nat :=
  (e_cached e, e_class e, role_rank e).

(** [Duration::MAX] and [Duration::saturating_mul]. *)
Definition DURATION_MAX : Z := 18446744073709551615999999999.
Definition duration_mul (d : Z) (n : nat) : Z := Z.min (d * Z.of_nat n) DURATION_MAX.

Fixpoint assign_waves (stagger : Z) (wave : nat) (previous : option (bool * LinkClass * nat))
    (routes : list Entry) : list PlannedRoute :=
  match routes with
  | [] => []
  | e :: rest =>
      let wave := match previous with
                  | Some last => if decide (last = wave_key e) then wave else S wave
                  | None => wave
                  end in
      mkRoute (e_index e) (e_class e) (duration_mul stagger wave) (e_cached e)
      :: assign_waves stagger wave (Some (wave_key e)) rest
  end.

Definition arrange (routes : list Entry) (stagger : Z) : list PlannedRoute :=
  assign_waves stagger 0 None
    (sort_by (λ a b, lex_le (entry_key a) (entry_key b)) routes).

Definition rank_of_role (r : HubRole) : nat :=
  match r with Authoritative => 0 | Fallback => 1 | Cloud => 2 end.

(** The stage ([true]: primary) and entry of a candidate, or nothing when claims
    need an authority and it is none. *)
Definition plan_entry (req : PlanRequest) (p : nat * HubCandidate) : option (bool * Entry) :=
  let '(i, c) := p in
  if authority_only req && negb (bool_decide (role c = Authoritative)) then None
  else
    let cl := class_of c in
    let matched := match locations req with Some ls => site_matches c ls | None => false end in
    Some (eligible c cl (locations req),
          mkEntry i cl (rank_of_role (role c)) (bool_decide (cached_index req = Some i)) matched).

Definition plan_entries (req : PlanRequest) : list (bool * Entry) :=
  omap (plan_entry req) (enumerate (candidates req)).

Definition plan_routes (req : PlanRequest) : RoutePlan :=
  let es := plan_entries req in
  mkPlan (arrange (map snd (List.filter (λ p, p.1) es)) (stagger req))
    (arrange (map snd (List.filter (λ p, negb p.1) es)) (stagger req)).
End plan.

(** ** Probing *)

Record ProbeInfo := mkInfo {
  build_version : option string;
  hub_identity : option string;
}.

Inductive ProbeFailure : Type :=
  | CredentialUnavailable | Unhealthy | TimedOut | IdentityMismatch | Cancelled | Skipped.

#[export] Instance ProbeFailure_eq_dec : EqDecision ProbeFailure.
Proof. solve_decision. Defined.

Definition was_attempted (f : ProbeFailure) : bool :=
  match f with Skipped => false | _ => true end.

Inductive SlotOutcome : Type :=
  | Healthy (rtt : Z)
  | Failed (reason : ProbeFailure).

Record Slot := mkSlot {
  slot_url : string;
  slot_delay : Z;
  skip : option ProbeFailure;
}.

Record Winner := mkWinner {
  w_slot : nat;
  w_info : ProbeInfo;
  w_rtt : Z;
}.

Record RaceResult := mkRace {
  outcomes : list SlotOutcome;
  winner : option Winner;
}.

(** *** [walk]

    The synchronous probe has its own state; its answer carries the round trip the
    caller's clock measures. *)

Section walk.
Context {W : Type} (probe : W → string → option (ProbeInfo * Z) * W)
  (accept : nat → ProbeInfo → bool).

Fixpoint walk_from (i : nat) (won : option Winner) (slots : list Slot) (w : W)
    : RaceResult * W :=
  match slots with
  | [] => (mkRace [] won, w)
  | s :: rest =>
      let '(out, won, w) :=
        match won with
        | Some _ => (Failed Skipped, won, w)
        | None =>
            match skip s with
            | Some reason => (Failed reason, None, w)
            | None =>
                match probe w (slot_url s) with
                | (Some (info, rtt), w) =>
                    if accept i info then (Healthy rtt, Some (mkWinner i info rtt), w)
                    else (Failed IdentityMismatch, None, w)
                | (None, w) => (Failed Unhealthy, None, w)
                end
            end
        end in
      let '(r, w) := walk_from (S i) won rest w in
      (mkRace (out :: outcomes r) (winner r), w)
  end.

Definition walk (slots : list Slot) (w : W) : RaceResult * W := walk_from 0 None slots w.
End walk.

(** *** [race] *)

Inductive Probed : Type :=
  | PHealthy (info : ProbeInfo)
  | PUnhealthy
  | PTimedOut.

(** One joined task: its slot, round trip and answer; a panicked task joins as
    [None] and is passed over. *)
Definition completion : Type := option (nat * Z * Probed).

Section race.
Context (accept : nat → ProbeInfo → bool).

Definition set_outcome (outs : list (option SlotOutcome)) (i : nat) (o : SlotOutcome)
    : list (option SlotOutcome) := <[i := Some o]> outs.

Fixpoint race_loop (outs : list (option SlotOutcome)) (joined : list completion)
    : list (option SlotOutcome) * option Winner :=
  match joined with
  | [] => (outs, None)
  | None :: rest => race_loop outs rest
  | Some (i, rtt, probed) :: rest =>
      match probed with
      | PHealthy info =>
          if accept i info
          then (set_outcome outs i (Healthy rtt), Some (mkWinner i info rtt))
          else race_loop (set_outcome outs i (Failed IdentityMismatch)) rest
      | PUnhealthy => race_loop (set_outcome outs i (Failed Unhealthy)) rest
      | PTimedOut => race_loop (set_outcome outs i (Failed TimedOut)) rest
      end
  end.

(** [joined] are the completions in the order they are joined, [started i] whether
    probe [i] had started when the race ended. *)
Definition race (slots : list Slot) (joined : list completion) (started : nat → bool)
    : RaceResult :=
  let init := map (λ s, Failed <$> skip s) slots in
  let '(outs, won) := race_loop init joined in
  mkRace
    (map (λ '(i, o), match o with
                     | Some out => out
                     | None =>
                         Failed (if negb (started i) then Skipped
                                 else match won with Some _ => Cancelled | None => Unhealthy end)
                     end) (enumerate outs)) won.
End race.

(** ** Reports *)

Record ProbeReport := mkProbeReport {
  r_url : string;
  r_class : LinkClass;
  rtt_ms : option Z;
  r_error : option ProbeFailure;
}.

Definition report_new (url : string) (cl : LinkClass) (o : SlotOutcome) : ProbeReport :=
  let '(rtt, err) := match o with
                     | Healthy rtt => (Some (Z.min (rtt / 1000000) U64_MAX), None)
                     | Failed reason => (None, Some reason)
                     end in
  mkProbeReport (redact_url url) cl rtt err.

(** ** Facts: lexicographic order *)

Lemma lex_le_refl a : lex_le a a = true.
Proof. induction a; simpl; [done|]. by rewrite Nat.eqb_refl, IHa, orb_true_r. Qed.

Lemma lex_le_cons x y a b :
  lex_le (x :: a) (y :: b) = true ↔ x < y ∨ (x = y ∧ lex_le a b = true).
Proof. simpl. by rewrite orb_true_iff, andb_true_iff, Nat.ltb_lt, Nat.eqb_eq. Qed.

Lemma lex_le_total a b : lex_le a b = true ∨ lex_le b a = true.
Proof.
  revert b. induction a as [|x a IH]; intros [|y b]; simpl; auto.
  rewrite !orb_true_iff, !andb_true_iff, !Nat.ltb_lt, !Nat.eqb_eq.
  destruct (lt_eq_lt_dec x y) as [[?| ->]|?]; [auto| |auto].
  destruct (IH b); auto.
Qed.

Lemma lex_le_trans a b c : lex_le a b = true → lex_le b c = true → lex_le a c = true.
Proof.
  revert b c. induction a as [|x a IH]; intros [|y b] [|z c]; try done.
  rewrite !lex_le_cons. intros [?|[-> ?]] [?|[-> ?]]; [left; lia|left; lia|left; lia|].
  right. eauto.
Qed.

Lemma lex_le_antisym a b : lex_le a b = true → lex_le b a = true → a = b.
Proof.
  revert b. induction a as [|x a IH]; intros [|y b]; try done.
  rewrite !lex_le_cons. intros [?|[-> ?]] [?|[? ?]]; try lia. f_equal. auto.
Qed.

Lemma lex_le_prefix a b a' b' :
  length a = length b → lex_le (a ++ a') (b ++ b') = true → lex_le a b = true.
Proof.
  revert b. induction a as [|x a IH]; intros [|y b]; try done.
  intros [= Hl]. simpl app. rewrite !lex_le_cons. intros [?|[-> ?]]; [auto|]. right. auto.
Qed.

(** ** Facts: waves *)

Definition wave_list (k : bool * LinkClass * nat) : list nat :=
  [bit (negb k.1.1); class_rank k.1.2; k.2].

Lemma wave_list_inj k k' : wave_list k = wave_list k' → k = k'.
Proof. destruct k as [[[] []] r], k' as [[[] []] r']; by intros [= ->]. Qed.

Lemma entry_key_wave a b :
  lex_le (entry_key a) (entry_key b) = true →
  lex_le (wave_list (wave_key a)) (wave_list (wave_key b)) = true.
Proof.
  by apply (lex_le_prefix (wave_list (wave_key a)) (wave_list (wave_key b))
    [bit (negb (site_match a)); e_index a] [bit (negb (site_match b)); e_index b]).
Qed.

(** The entries with the number of the wave each is placed in. *)
Fixpoint waves (wave : nat) (previous : option (bool * LinkClass * nat)) (routes : list Entry)
    : list (Entry * nat) :=
  match routes with
  | [] => []
  | e :: rest =>
      let wave := match previous with
                  | Some last => if decide (last = wave_key e) then wave else S wave
                  | None => wave
                  end in
      (e, wave) :: waves wave (Some (wave_key e)) rest
  end.

Lemma assign_waves_eq stg w prev es :
  assign_waves stg w prev es =
  map (λ '(e, n), mkRoute (e_index e) (e_class e) (duration_mul stg n) (e_cached e))
    (waves w prev es).
Proof. revert w prev. induction es as [|e es IH]; intros w prev; simpl; [done|]. by rewrite IH. Qed.

Lemma waves_fst w prev es : (waves w prev es).*1 = es.
Proof. revert w prev. induction es as [|e es IH]; intros w prev; simpl; [done|]. by rewrite IH. Qed.

Definition wave_le (a b : Entry) : Prop :=
  lex_le (wave_list (wave_key a)) (wave_list (wave_key b)) = true.

Lemma waves_after w k es :
  StronglySorted wave_le es →
  Forall (λ e, lex_le (wave_list k) (wave_list (wave_key e)) = true) es →
  Forall (λ p, w ≤ p.2 ≤ w + length es ∧ (p.2 = w ↔ wave_key p.1 = k)) (waves w (Some k) es).
Proof.
  revert w k. induction es as [|e es IH]; intros w k Hs Hk; simpl; [constructor|].
  inversion Hs as [|? ? Hs' He]; subst. inversion Hk as [|? ? Hke Hk']; subst.
  case_decide as Hd.
  - constructor; [simpl; split; [lia|naive_solver]|]. subst k.
    eapply Forall_impl; [by apply IH|]. simpl. intros [e' n] ?. simpl in *. naive_solver lia.
  - constructor; [simpl; split; [lia|split; [lia|congruence]]|].
    apply Forall_forall. intros [e' n] Hin.
    assert (Forall (λ p, S w ≤ p.2 ≤ S w + length es ∧ (p.2 = S w ↔ wave_key p.1 = wave_key e))
      (waves (S w) (Some (wave_key e)) es)) as Hf by by apply IH.
    rewrite Forall_forall in Hf. specialize (Hf _ Hin). simpl in *. split; [lia|].
    split; [lia|]. intros <-. exfalso. apply Hd, wave_list_inj, lex_le_antisym; [done|].
    apply list_elem_of_fmap_2 with (f := fst) in Hin. rewrite waves_fst in Hin.
    rewrite Forall_forall in He. exact (He _ Hin).
Qed.

Lemma waves_sorted w prev es :
  StronglySorted wave_le es →
  StronglySorted (λ p q, p.2 ≤ q.2 ∧ (p.2 = q.2 ↔ wave_key p.1 = wave_key q.1) ∧
                   wave_le p.1 q.1) (waves w prev es).
Proof.
  intros Hs. revert w prev. induction Hs as [|e es Hs IH He]; intros w prev; simpl; [constructor|].
  constructor; [apply IH|]. apply Forall_forall. intros [e' n] Hin.
  set (w' := match prev with Some _ => _ | None => w end) in *.
  pose proof (waves_after w' (wave_key e) es Hs He) as Hf.
  rewrite Forall_forall in Hf. specialize (Hf _ Hin). simpl in *.
  apply list_elem_of_fmap_2 with (f := fst) in Hin. rewrite waves_fst in Hin.
  rewrite Forall_forall in He. specialize (He _ Hin).
  split_and!; [lia| |exact He]. destruct Hf as [_ Hiff]. split; intros E.
  - symmetry. apply Hiff. congruence.
  - symmetry. apply Hiff. congruence.
Qed.

Lemma waves_bound es : Forall (λ p, p.2 ≤ length es) (waves 0 None es).
Proof.
  destruct es as [|e es]; simpl; [constructor|]. constructor; [simpl; lia|].
  assert (∀ w prev, Forall (λ p, p.2 ≤ w + length es) (waves w prev es)) as H.
  { induction es as [|e' es IH]; intros w prev; simpl; [constructor|].
    set (w' := match prev with Some _ => _ | None => w end).
    assert (w' ≤ S w) by (unfold w'; repeat case_match; lia).
    constructor; [simpl; lia|]. eapply Forall_impl; [apply IH|]. simpl. intros; lia. }
  eapply Forall_impl; [apply H|]. simpl. intros; lia.
Qed.

Lemma arrange_sorted_entries routes :
  StronglySorted wave_le (sort_by (λ a b, lex_le (entry_key a) (entry_key b)) routes).
Proof.
  assert (StronglySorted (λ a b, lex_le (entry_key a) (entry_key b) = true)
    (sort_by (λ a b, lex_le (entry_key a) (entry_key b)) routes)) as Hs.
  { apply sort_by_sorted; intros; [apply lex_le_total|by eapply lex_le_trans]. }
  induction Hs as [|e es Hs IH He]; constructor; [done|].
  eapply Forall_impl; [exact He|]. intros e'. apply entry_key_wave.
Qed.

(** ** Facts: plans *)

Section plans.
Context `{DebugFmt} `{UrlLib}.

(** The candidates a plan may use: all, or the authorities when claims need one. *)
Definition allowed (req : PlanRequest) (i : nat) : bool :=
  match candidates req !! i with
  | Some c => negb (authority_only req) || bool_decide (role c = Authoritative)
  | None => false
  end.

Lemma plan_entries_spec req st e :
  (st, e) ∈ plan_entries req →
  ∃ c, candidates req !! e_index e = Some c ∧ allowed req (e_index e) = true ∧
    e_class e = class_of c ∧ role_rank e = rank_of_role (role c) ∧
    st = eligible c (class_of c) (locations req) ∧
    e_cached e = bool_decide (cached_index req = Some (e_index e)).
Proof.
  unfold plan_entries. rewrite list_elem_of_omap. intros ([i c] & Hin & He).
  apply elem_of_enumerate in Hin. simpl in He. destruct (_ && _) eqn:Ea; [done|].
  injection He as <- <-. simpl. exists c. unfold allowed. rewrite Hin. split_and!; try done.
  apply andb_false_iff in Ea as [->|Ea]; [done|]. bool_simplify.
  by rewrite bool_decide_eq_true_2, orb_true_r.
Qed.

Lemma plan_entries_indexes req :
  map (λ p, e_index p.2) (plan_entries req) =
  List.filter (allowed req) (seq 0 (length (candidates req))).
Proof.
  assert (∀ (cs : list HubCandidate) n,
    (∀ k c, cs !! k = Some c → candidates req !! (n + k) = Some c) →
    map (λ p, e_index p.2) (omap (plan_entry req) (enumerate_from n cs)) =
    List.filter (allowed req) (seq n (length cs))) as Hgo.
  { induction cs as [|c cs IH]; intros n Hcs; simpl; [done|].
    assert (candidates req !! n = Some c) as Hn.
    { specialize (Hcs 0 c eq_refl). by rewrite Nat.add_0_r in Hcs. }
    assert (allowed req n = negb (authority_only req && negb (bool_decide (role c = Authoritative))))
      as ->.
    { unfold allowed. rewrite Hn. by destruct (authority_only req), (bool_decide _). }
    destruct (authority_only req && _); simpl; rewrite IH; try done;
      intros k c' Hk; replace (S n + k) with (n + S k) by lia; by apply (Hcs (S k)). }
  apply Hgo. intros k c Hk. done.
Qed.

Lemma arrange_indexes routes stg :
  map index (arrange routes stg) ≡ₚ map e_index routes.
Proof.
  unfold arrange. rewrite assign_waves_eq, map_map.
  rewrite (map_ext _ (λ p, e_index p.1)) by (by intros [e n]).
  rewrite <- (map_map fst e_index). change (map fst ?l) with (l.*1).
  rewrite waves_fst. change (map e_index ?l) with (e_index <$> l). by rewrite sort_by_perm.
Qed.

Lemma arrange_elem r routes stg :
  r ∈ arrange routes stg →
  ∃ e, e ∈ routes ∧ index r = e_index e ∧ class r = e_class e ∧ cached r = e_cached e.
Proof.
  unfold arrange. rewrite assign_waves_eq. change (map ?f ?l) with (f <$> l).
  rewrite list_elem_of_fmap. intros ([e n] & -> & Hin).
  apply list_elem_of_fmap_2 with (f := fst) in Hin. rewrite waves_fst, elem_of_sort_by in Hin. eauto.
Qed.

(** The stage of a plan chosen by [st], [true] for the primary one. *)
Definition stage (req : PlanRequest) (st : bool) : list PlannedRoute :=
  if st then primary (plan_routes req) else deferred (plan_routes req).

Definition stage_entries (req : PlanRequest) (st : bool) : list Entry :=
  map snd (List.filter (λ p, Bool.eqb p.1 st) (plan_entries req)).

Lemma stage_arrange req st : stage req st = arrange (stage_entries req st) (stagger req).
Proof.
  unfold stage, stage_entries, plan_routes. simpl. destruct st; do 2 f_equal;
    apply filter_ext; intros [[] ?]; done.
Qed.

Lemma stage_entries_elem req st e :
  e ∈ stage_entries req st → (st, e) ∈ plan_entries req.
Proof.
  unfold stage_entries. change (map snd ?l) with (snd <$> l). rewrite list_elem_of_fmap.
  intros ([st' e'] & -> & Hin). apply elem_of_filter_b in Hin as [Hin Hst].
  apply Bool.eqb_prop in Hst. simpl in *. by subst.
Qed.

(** The role of a planned route's candidate. *)
Definition route_role (req : PlanRequest) (r : PlannedRoute) : option HubRole :=
  role <$> candidates req !! index r.

(** Where [r1] stands before [r2]: the cached route leads, then better classes,
    then authorities; equal rank starts together and a later rank starts at least
    one stagger after, as long as no delay saturates. *)
Definition before (req : PlanRequest) (r1 r2 : PlannedRoute) : Prop :=
  (delay r1 ≤ delay r2)%Z ∧
  (cached r2 = true → cached r1 = true) ∧
  (cached r1 = cached r2 →
   class_rank (class r1) ≤ class_rank (class r2) ∧
   (class r1 = class r2 → route_role req r2 = Some Authoritative →
    route_role req r1 = Some Authoritative) ∧
   (class r1 = class r2 → route_role req r1 = route_role req r2 → delay r1 = delay r2)) ∧
  ((0 < stagger req)%Z →
   (stagger req * Z.of_nat (length (candidates req)) ≤ DURATION_MAX)%Z →
   (cached r1, class r1, route_role req r1) ≠ (cached r2, class r2, route_role req r2) →
   (delay r1 + stagger req ≤ delay r2)%Z).

Lemma rank_of_role_inj r r' : rank_of_role r = rank_of_role r' → r = r'.
Proof. by destruct r, r'. Qed.

Lemma entry_route_role req st e n :
  (st, e) ∈ plan_entries req →
  ∃ ro, route_role req (mkRoute (e_index e) (e_class e) n (e_cached e)) = Some ro ∧
        role_rank e = rank_of_role ro.
Proof.
  intros (c & Hc & _ & _ & Hr & _)%plan_entries_spec. exists (role c).
  unfold route_role. simpl. by rewrite Hc.
Qed.

Lemma length_stage_entries req st : length (stage_entries req st) ≤ length (candidates req).
Proof.
  unfold stage_entries. rewrite length_map. etrans; [apply List.filter_length_le|].
  rewrite <- (length_map (λ p, e_index p.2)), plan_entries_indexes.
  etrans; [apply List.filter_length_le|]. by rewrite length_seq.
Qed.

Lemma duration_mul_mono d n m : n ≤ m → (0 ≤ d)%Z → (duration_mul d n ≤ duration_mul d m)%Z.
Proof. intros Hn Hd. unfold duration_mul. apply Z.min_le_compat_r. nia. Qed.

Lemma before_waves req st e1 e2 n1 n2 :
  (st, e1) ∈ plan_entries req → (st, e2) ∈ plan_entries req →
  (0 ≤ stagger req)%Z → n1 ≤ n2 → n2 ≤ length (candidates req) →
  (n1 = n2 ↔ wave_key e1 = wave_key e2) → wave_le e1 e2 →
  before req (mkRoute (e_index e1) (e_class e1) (duration_mul (stagger req) n1) (e_cached e1))
    (mkRoute (e_index e2) (e_class e2) (duration_mul (stagger req) n2) (e_cached e2)).
Proof.
  intros H1 H2 Hs Hn Hb Heq Hle.
  apply (entry_route_role _ _ _ (duration_mul (stagger req) n1)) in H1 as (r1 & Hr1 & Hk1).
  apply (entry_route_role _ _ _ (duration_mul (stagger req) n2)) in H2 as (r2 & Hr2 & Hk2).
  unfold before. rewrite Hr1, Hr2. simpl. clear Hr1 Hr2.
  unfold wave_le, wave_list, wave_key in *. simpl in *. rewrite Hk1, Hk2 in *.
  rewrite !orb_true_iff, !andb_true_iff, !orb_true_iff, !andb_true_iff, !Nat.ltb_lt,
    !Nat.eqb_eq in Hle.
  split_and!.
  - by apply duration_mul_mono.
  - destruct (e_cached e1), (e_cached e2); simpl in Hle; naive_solver lia.
  - intros Hc. rewrite Hc in Hle. split_and!; [lia| |].
    + intros Hcl [= ->]. rewrite Hcl in Hle. destruct r1; simpl in Hle; naive_solver lia.
    + intros Hcl [= Hr]. f_equal. apply Heq. congruence.
  - intros Hpos Hmax Hne. assert (n1 ≠ n2) as Hlt.
    { intros E. apply Heq in E. apply Hne. injection E as -> -> E.
      by rewrite (rank_of_role_inj _ _ E). }
    unfold duration_mul. rewrite !Z.min_l by nia. nia.
Qed.
End plans.

(** ** Properties *)

Section properties.
Context `{DebugFmt} `{UrlLib}.

(** A plan loses no route and invents none: its two stages together hold each
    allowed candidate exactly once, all candidates normally, exactly the
    authoritative ones when a claim needs the authority. *)
Theorem plan_covers (req : PlanRequest) :
  map index (primary (plan_routes req)) ++ map index (deferred (plan_routes req)) ≡ₚ
    List.filter (allowed req) (seq 0 (length (candidates req))).
Proof.
  change (primary (plan_routes req)) with (stage req true).
  change (deferred (plan_routes req)) with (stage req false).
  rewrite !stage_arrange, !arrange_indexes, <- plan_entries_indexes. unfold stage_entries.
  rewrite !map_map, <- map_app. change (map ?f ?l) with (f <$> l).
  rewrite (filter_ext (λ p : bool * Entry, Bool.eqb p.1 true) (λ p, p.1)) by (by intros [[] ?]).
  rewrite (filter_ext (λ p : bool * Entry, Bool.eqb p.1 false) (λ p, negb p.1))
    by (by intros [[] ?]).
  by rewrite filter_halves_perm.
Qed.

(** The order and head starts of a stage: the first route starts at once, the
    cached one leads, better link classes come before worse ones and authorities
    before fallbacks on the same kind of link; equals start together, and any
    worse rank starts at least one stagger later. *)
Theorem plan_stage_order (req : PlanRequest) (st : bool) :
  (0 ≤ stagger req)%Z →
  StronglySorted (before req) (stage req st) ∧
  ∀ r rest, stage req st = r :: rest → delay r = 0%Z.
Proof.
  intros Hst. rewrite stage_arrange. unfold arrange. rewrite assign_waves_eq.
  pose proof (length_stage_entries req st) as Hlen.
  pose proof (λ e, stage_entries_elem req st e) as Hin.
  pose proof (arrange_sorted_entries (stage_entries req st)) as Hs.
  revert Hs. set (es := sort_by _ _). intros Hs.
  assert (length es ≤ length (candidates req)) as Hl by (unfold es; by rewrite length_sort_by).
  assert (∀ p, p ∈ waves 0 None es → (st, p.1) ∈ plan_entries req ∧ p.2 ≤ length es) as Hp.
  { intros [e n] Hp. split.
    - apply Hin. apply list_elem_of_fmap_2 with (f := fst) in Hp. rewrite waves_fst in Hp.
      by apply elem_of_sort_by in Hp.
    - pose proof (waves_bound es) as Hb. rewrite Forall_forall in Hb. exact (Hb _ Hp). }
  split; [|destruct es as [|e es']; simpl; [done|intros r rest [= <- _]]; simpl;
           unfold duration_mul; rewrite Z.mul_0_r; done].
  eapply StronglySorted_map; [|by apply waves_sorted].
  intros [e1 n1] [e2 n2] H1 H2. simpl. intros (Hn & Heq & Hw).
  apply Hp in H1 as [H1 B1], H2 as [H2 B2]. simpl in *.
  eapply before_waves; (done || lia).
Qed.
End properties.

(** ** Facts: walks and races *)

Section probing.
Context (accept : nat → ProbeInfo → bool) (ans : string → option (ProbeInfo * Z)).

(** A slot that may be contacted and whose answer is healthy and accepted. *)
Definition acceptable (slots : list Slot) (i : nat) : Prop :=
  ∃ s info rtt, slots !! i = Some s ∧ skip s = None ∧ ans (slot_url s) = Some (info, rtt) ∧
    accept i info = true.

(** The probe that answers by [ans] and keeps the URLs it was asked. *)
Definition logging (log : list string) (u : string) : option (ProbeInfo * Z) * list string :=
  (ans u, log ++ [u]).

Definition contacted (slots : list Slot) : list string :=
  map slot_url (List.filter (λ s, bool_decide (skip s = None)) slots).

Lemma walk_won i w slots log :
  walk_from logging accept i (Some w) slots log =
    (mkRace (map (λ _, Failed Skipped) slots) (Some w), log).
Proof. revert i. induction slots as [|s l IH]; intros i; simpl; [done|]. by rewrite IH. Qed.

(** What a walk from position [i] gives: the first acceptable slot wins and nothing
    after it is contacted; without one every contactable slot was. *)
Definition walk_result (i : nat) (slots : list Slot) (log : list string) (r : RaceResult)
    (log' : list string) : Prop :=
  length (outcomes r) = length slots ∧
  match winner r with
  | Some w => ∃ k s, w_slot w = i + k ∧ slots !! k = Some s ∧ skip s = None ∧
      ans (slot_url s) = Some (w_info w, w_rtt w) ∧ accept (i + k) (w_info w) = true ∧
      outcomes r !! k = Some (Healthy (w_rtt w)) ∧
      log' = log ++ contacted (take (S k) slots) ∧
      (∀ j s info rtt, j < k → slots !! j = Some s → skip s = None →
         ans (slot_url s) = Some (info, rtt) → accept (i + j) info = false)
  | None => log' = log ++ contacted slots ∧
      (∀ j s info rtt, slots !! j = Some s → skip s = None →
         ans (slot_url s) = Some (info, rtt) → accept (i + j) info = false)
  end.

Lemma walk_result_cons i s slots log out r log' :
  (∀ info rtt, skip s = None → ans (slot_url s) = Some (info, rtt) → accept i info = false) →
  walk_result (S i) slots (log ++ contacted [s]) r log' →
  walk_result i (s :: slots) log (mkRace (out :: outcomes r) (winner r)) log'.
Proof.
  intros Hs [Hl Hw]. split; [simpl; by rewrite Hl|]. simpl.
  assert (∀ l, contacted (s :: l) = contacted [s] ++ contacted l) as Hcons
    by (intros l; unfold contacted; simpl; by case_bool_decide).
  assert (∀ j, S i + j = i + S j) as Hadd by lia.
  destruct (winner r) as [w|].
  - destruct Hw as (k & s' & Hk & Hsk & Hn & Ha & Hc & Ho & Hlog & Hj).
    exists (S k), s'. rewrite <- Hadd. split_and!; try done.
    + rewrite Hlog. simpl. rewrite (Hcons (take (S k) slots)). by rewrite <- app_assoc.
    + intros [|j] s0 info rtt Hlt H0 H1 H2; simplify_eq/=; [rewrite Nat.add_0_r; eauto|].
      rewrite <- Hadd. eapply Hj; [|done..]. lia.
  - destruct Hw as [Hlog Hj]. split; [by rewrite Hlog, (Hcons slots), <- app_assoc|].
    intros [|j] s0 info rtt H0 H1 H2; simplify_eq/=; [rewrite Nat.add_0_r; eauto|].
    rewrite <- Hadd. by eapply Hj.
Qed.

Lemma walk_from_spec i slots log r log' :
  walk_from logging accept i None slots log = (r, log') → walk_result i slots log r log'.
Proof.
  revert i log r log'. induction slots as [|s slots IH]; intros i log r log'; simpl.
  { intros [= <- <-]. split; [done|]. simpl. split; [by rewrite app_nil_r|]. done. }
  assert (contacted [s] = if decide (skip s = None) then [slot_url s] else []) as Hone
    by (unfold contacted; simpl; by repeat case_match; repeat case_bool_decide).
  destruct (skip s) as [reason|] eqn:Es; simpl in Hone; simpl.
  { destruct (walk_from _ _ _ _ _ _) as [r' l'] eqn:Er. intros [= <- <-].
    apply walk_result_cons; [congruence|]. rewrite Hone, app_nil_r. by apply IH. }
  destruct (ans (slot_url s)) as [[info rtt]|] eqn:Ea; [destruct (accept i info) eqn:Ec|].
  { rewrite walk_won. intros [= <- <-]. split; simpl; [by rewrite length_map|].
    exists 0, s. rewrite Nat.add_0_r. split_and!; try done; [|intros; lia].
    simpl. rewrite take_0. by rewrite Hone. }
  all: destruct (walk_from _ _ _ _ _ _) as [r' l'] eqn:Er; intros [= <- <-];
    apply walk_result_cons; [congruence|]; rewrite Hone; by apply IH.
Qed.

(** Completions a race can join: each of an own slot that may be contacted, with
    the answer of its URL; a timeout hides the answer. *)
Definition joined_of (slots : list Slot) (joined : list completion) : Prop :=
  Forall (λ c, match c with
    | Some (i, rtt, PHealthy info) => ∃ s, slots !! i = Some s ∧ skip s = None ∧
        ∃ rtt', ans (slot_url s) = Some (info, rtt')
    | Some (i, _, PUnhealthy) => ∃ s, slots !! i = Some s ∧ skip s = None ∧
        ans (slot_url s) = None
    | Some (i, _, PTimedOut) => ∃ s, slots !! i = Some s ∧ skip s = None
    | None => True
    end) joined.

Definition joined_slots (joined : list completion) : list nat :=
  omap (λ c, (λ p, p.1.1) <$> c) joined.

(** Every contactable slot was joined with the answer of its URL. *)
Definition all_joined (slots : list Slot) (joined : list completion) : Prop :=
  ∀ i s info rtt, slots !! i = Some s → skip s = None → ans (slot_url s) = Some (info, rtt) →
    ∃ rtt', Some (i, rtt', PHealthy info) ∈ joined.

Lemma race_loop_spec slots joined outs outs' won :
  joined_of slots joined → length outs = length slots →
  race_loop accept outs joined = (outs', won) →
  length outs' = length slots ∧
  match won with
  | Some w => acceptable slots (w_slot w) ∧ outs' !! w_slot w = Some (Some (Healthy (w_rtt w)))
  | None => ∀ i rtt info, Some (i, rtt, PHealthy info) ∈ joined → accept i info = false
  end.
Proof.
  intros Hj. revert outs. induction Hj as [|c joined Hc _ IH]; intros outs Hl; simpl.
  { intros [= <- <-]. split; [done|]. intros i rtt info []%elem_of_nil. }
  destruct c as [[[i rtt] [info| |]]|]; [destruct (accept i info) eqn:Ea| | |].
  { intros [= <- <-]. unfold set_outcome. rewrite length_insert. split; [done|]. simpl.
    destruct Hc as (s & Hs & Hsk & rtt' & Ha). split; [by exists s, info, rtt'|].
    apply list_lookup_insert_eq. rewrite Hl. by eapply lookup_lt_Some. }
  all: intros Hr; apply IH in Hr as [Hl' Hw];
    [|unfold set_outcome; rewrite ?length_insert; done]; split; [done|];
    destruct won as [w|]; [done|]; intros i' rtt0 info0 [?|?]%elem_of_cons;
    [simplify_eq|eauto]; done.
Qed.
End probing.

(** ** Properties of walks and races *)

(** A walk picks the first acceptable slot in order: its winner was healthy
    and accepted, nothing before it was, the URLs contacted are exactly those of the
    contactable slots up to the winner, and without a winner no slot is acceptable
    and every contactable one was tried. *)
Theorem walk_first (accept : nat → ProbeInfo → bool) (ans : string → option (ProbeInfo * Z))
    (slots : list Slot) :
  let '(r, log) := walk (logging ans) accept slots [] in
  length (outcomes r) = length slots ∧
  match winner r with
  | Some w => acceptable accept ans slots (w_slot w) ∧
      (∀ j, j < w_slot w → ¬ acceptable accept ans slots j) ∧
      outcomes r !! w_slot w = Some (Healthy (w_rtt w)) ∧
      log = contacted (take (S (w_slot w)) slots)
  | None => (∀ j, ¬ acceptable accept ans slots j) ∧ log = contacted slots
  end.
Proof.
  destruct (walk _ _ _ _) as [r log] eqn:Ew. apply walk_from_spec in Ew as [Hl Hw].
  split; [done|]. destruct (winner r) as [w|].
  - destruct Hw as (k & s & Hk & Hs & Hsk & Ha & Hc & Ho & Hlog & Hj).
    simpl in Hk, Hc. rewrite Hk in *. split_and!; try done.
    + by exists s, (w_info w), (w_rtt w).
    + intros j Hlt (s' & info & rtt & H1 & H2 & H3 & H4).
      specialize (Hj j s' info rtt Hlt H1 H2 H3). simpl in Hj. congruence.
  - destruct Hw as [Hlog Hj]. split; [|done].
    intros j (s' & info & rtt & H1 & H2 & H3 & H4).
    specialize (Hj j s' info rtt H1 H2 H3). simpl in Hj. congruence.
Qed.

(** However its probes interleave, a race agrees with the serial walk on
    whether a route is found, its winner is an acceptable slot reported healthy, and
    every slot gets an outcome. *)
Theorem race_walk_agree (accept : nat → ProbeInfo → bool)
    (ans : string → option (ProbeInfo * Z)) (slots : list Slot)
    (joined : list completion) (started : nat → bool) :
  joined_of ans slots joined → all_joined ans slots joined →
  let r := race accept slots joined started in
  length (outcomes r) = length slots ∧
  (is_Some (winner r) ↔ is_Some (winner (walk (logging ans) accept slots []).1)) ∧
  ∀ w, winner r = Some w →
    acceptable accept ans slots (w_slot w) ∧
    outcomes r !! w_slot w = Some (Healthy (w_rtt w)).
Proof.
  intros Hj Hall. unfold race.
  destruct (race_loop _ _ _) as [outs won] eqn:Er.
  eapply race_loop_spec in Er as [Hl Hw]; [|done|by rewrite length_map]. simpl. split_and!.
  - rewrite length_map. unfold enumerate. by rewrite length_enumerate_from.
  - destruct (walk _ _ _ _) as [r log] eqn:Ew. apply walk_from_spec in Ew as [_ Hww]. simpl.
    split; [intros [w ->]|intros [w Hw0]].
    + destruct Hw as [(s & info & rtt & H1 & H2 & H3 & H4) _].
      destruct (winner r) as [w'|]; [by eexists|]. destruct Hww as [_ Hn].
      specialize (Hn _ _ _ _ H1 H2 H3). simpl in Hn. congruence.
    + rewrite Hw0 in Hww. destruct Hww as (k & s & Hk & Hs & Hsk & Ha & Hc & _).
      destruct won as [w'|]; [by eexists|]. exfalso.
      edestruct Hall as [rtt' Hin]; [done..|]. apply Hw in Hin. simpl in Hc. congruence.
  - intros w ->. destruct Hw as [Ha Ho]. split; [done|]. rewrite list_lookup_fmap.
    unfold enumerate. rewrite lookup_enumerate_from, Ho. done.
Qed.

(** ** Concrete runs *)

Definition no_urls : UrlLib := {| url_parse _ := None; origin_ascii _ := "null" |}.

Definition demo_candidates : list HubCandidate :=
  [mkCandidate "http://lan" Authoritative Global [] None;
   mkCandidate "http://cloud" Cloud (TokenEnv "T") [] None;
   mkCandidate "http://tb" Authoritative Global ["lab-fabric"] None;
   mkCandidate "http://lan2" Fallback Global [] None].

Definition demo_request : PlanRequest := mkPlanRequest demo_candidates None None false 75.

Lemma plan_stage_order_witness :
  map (λ r, (index r, delay r)) (@stage plain_debug no_urls demo_request true)
    = [(2, 0%Z); (0, 75%Z); (3, 150%Z); (1, 225%Z)] ∧
  StronglySorted (before demo_request) (@stage plain_debug no_urls demo_request true).
Proof.
  split; [vm_compute; reflexivity|].
  apply (@plan_stage_order plain_debug no_urls demo_request true). by vm_compute.
Defined.

Definition demo_slots : list Slot :=
  [mkSlot "a" 0 (Some CredentialUnavailable); mkSlot "b" 0 None; mkSlot "c" 75 None].
Definition demo_ans (u : string) : option (ProbeInfo * Z) :=
  if bool_decide (u = "b") then None else Some (mkInfo None None, 3%Z).

Lemma race_walk_agree_witness :
  winner (race (λ _ _, true) demo_slots
    [Some (2, 3%Z, PHealthy (mkInfo None None)); Some (1, 9%Z, PUnhealthy)] (λ _, true))
    = Some (mkWinner 2 (mkInfo None None) 3) ∧
  is_Some (winner (walk (logging demo_ans) (λ _ _, true) demo_slots []).1).
Proof.
  split; [vm_compute; reflexivity|].
  eapply (race_walk_agree (λ _ _, true) demo_ans demo_slots
    [Some (2, 3%Z, PHealthy (mkInfo None None)); Some (1, 9%Z, PUnhealthy)] (λ _, true)).
  - repeat constructor; by repeat eexists.
  - intros [|[|[|i]]] s info rtt; simpl; intros Hs Hk Ha; simplify_eq/=.
    injection Ha as <- <-. eexists. apply list_elem_of_here.
  - by eexists.
Defined.
