(* ===== verification/Candidates.v ===== *)
(** * Candidates: hub candidates, their credentials and the token guard

    Models [crates/agent-bus-core/src/hub_candidates.rs]: parsing the configured
    candidates, resolving their roles, refusing more than one claims authority,
    and deciding which bearer token, if any, a request may carry. The URL parser
    is the interface [UrlLib]; the process environment, the file system and the
    platform's path functions are arguments. *)

From Stdlib Require Import ZArith Lia Ascii.
From stdpp Require Import base option list strings gmap.
From S2P Require Import Prelude Str Json HubTypes NetLocation.

Definition BearerToken : Type := string.
Definition SkipReason : Type := string.

(** ** Environment *)

Inductive IoKind : Type :=
  | NotFound
  | OtherKind (debug : string).

Definition kind_debug (k : IoKind) : string :=
  match k with NotFound => "NotFound" | OtherKind d => d end.

(** The trait [CredentialEnv], the mode bits [std::fs::metadata] reports, and the
    platform's [Path::join] and [settings::same_location]. *)
Record CredentialEnv := mkEnv {
  var : string → option string;
  read_to_string : string → result IoKind string;
  home_dir : option string;
  real_profile_dir : option string;
  file_mode : string → result IoKind Z;
  path_join : string → string → string;
  same_location : string → string → bool;
}.

Section candidates.
Context `{DebugFmt} `{UrlLib}.

(** ** URLs *)

Definition parse_hub_url (value : string) (allow_query : bool) : result string Url :=
  if has_whitespace value || has_control value
  then Err "URL contains whitespace or control characters"
  else
    let? parsed := ok_or "invalid absolute HTTP URL" (url_parse value) in
    if match get_to (String.length (scheme parsed) + 3) value with
       | None => true
       | Some prefix =>
           negb (bool_decide (to_ascii_lowercase prefix = scheme parsed +:+ "://"))
       end || contains_char value "\"
    then Err "URL must be an absolute HTTP URL without backslashes"
    else if negb (bool_decide (scheme parsed ∈ ["http"; "https"]))
            || bool_decide (host parsed = None)
    then Err "URL must use http or https and include a host"
    else if negb (is_empty (username parsed)) || negb (bool_decide (password parsed = None))
    then Err "URL userinfo is not allowed"
    else if negb (bool_decide (fragment parsed = None))
            || (negb allow_query && negb (bool_decide (query parsed = None)))
    then Err "URL fragment or base query is not allowed"
    else Ok parsed.

Definition validate_hub_base_url (value : string) : result string unit :=
  let? _ := parse_hub_url value false in Ok tt.

Definition base_key (u : Url) : string := trim_end_matches "/" (serialization u).

(** ** Candidate entries *)

Definition text_field (m : fields) (nm : string) : result string (option string) :=
  match get m nm with
  | None => Ok None
  | Some value =>
      let? raw := ok_or (nm +:+ " must be a string") (as_str value) in
      let text := trim raw in
      if is_empty text then Err (nm +:+ " must not be blank") else Ok (Some text)
  end.

Definition is_ascii_alphabetic (a : ascii) : bool := is_upper a || is_lower a.

Definition valid_env_name (nm : string) : bool :=
  match nm with
  | EmptyString => false
  | String a rest =>
      (is_ascii_alphabetic a || bool_decide (a = "_"%char))
      && str_all (λ b, is_ascii_alphanumeric b || bool_decide (b = "_"%char)) rest
  end.

Fixpoint parse_sites (seen : list string) (items : list json) : result string (list string) :=
  match items with
  | [] => Ok seen
  | item :: rest =>
      let? site := ok_or "sites entries must match [A-Za-z0-9._-]{1,64}"
        (match trim <$> as_str item with
         | Some s => if valid_site_name s then Some s else None
         | None => None
         end) in
      parse_sites (if bool_decide (site ∈ seen) then seen else seen ++ [site]) rest
  end.

Definition known_candidate_key (key : string) : bool :=
  bool_decide (key ∈ ["url"; "role"; "token_file"; "token_env"; "sites"; "hub"]).

Definition parse_auth (file variable : option string) : result string CandidateAuth :=
  match file, variable with
  | Some _, Some _ => Err "token_file and token_env are mutually exclusive"
  | Some path, None =>
      if negb (has_control path) then Ok (TokenFile path)
      else Err "token_file contains invalid characters"
  | None, Some nm =>
      if valid_env_name nm then Ok (TokenEnv nm)
      else Err "token_env must be an environment variable name"
  | None, None => Ok Global
  end.

Definition parse_candidate_object (m : fields) : result string CandidateSpec :=
  match find (λ kv, negb (known_candidate_key kv.1)) m with
  | Some (nm, _) => Err ("unknown candidate key " +:+ debug_str nm)
  | None =>
      let? url := (let? u := text_field m "url" in ok_or "url is required" u) in
      let? role :=
        (let? raw := text_field m "role" in
         match raw with
         | None => Ok None
         | Some r =>
             let? ro := ok_or "unknown role; expected authoritative, fallback, or cloud"
                          (role_parse r) in Ok (Some ro)
         end) in
      let? file := text_field m "token_file" in
      let? variable := text_field m "token_env" in
      let? auth := parse_auth file variable in
      let? sites := match get m "sites" with
                    | None => Ok []
                    | Some (JArr items) => parse_sites [] items
                    | Some _ => Err "sites must be an array of site names"
                    end in
      let? hub :=
        (let? raw := text_field m "hub" in
         match trim <$> raw with
         | None => Ok None
         | Some h => if valid_site_name h then Ok (Some h)
                     else Err "hub must match [A-Za-z0-9._-]{1,64}"
         end) in
      Ok (mkSpec url role auth sites hub)
  end.

(** One entry: nothing for a blank string, else its spec. *)
Definition parse_entry (index : nat) (entry : json) : result string (option CandidateSpec) :=
  let at_entry := "candidate entry " +:+ dec (Z.of_nat (index + 1)) in
  match entry with
  | JStr raw =>
      if is_empty (trim raw) then Ok None
      else Ok (Some (mkSpec (trim raw) None Global [] None))
  | JObj m =>
      let? s := map_err (λ e, at_entry +:+ ": " +:+ e) (parse_candidate_object m) in
      Ok (Some s)
  | _ => Err (at_entry +:+ " must be a URL string or object")
  end.

Fixpoint parse_entries_from (index : nat) (seen : gmap string CandidateSpec)
    (specs : list CandidateSpec) (entries : list json) : result string (list CandidateSpec) :=
  match entries with
  | [] => Ok specs
  | entry :: rest =>
      let at_entry := "candidate entry " +:+ dec (Z.of_nat (index + 1)) in
      let? parsed_entry := parse_entry index entry in
      match parsed_entry with
      | None => parse_entries_from (S index) seen specs rest
      | Some spec =>
          let? parsed := map_err (λ e, at_entry +:+ " url: " +:+ e)
                           (parse_hub_url (s_url spec) false) in
          let key := base_key parsed in
          match seen !! key with
          | Some previous =>
              if bool_decide (s_role previous = s_role spec ∧ s_auth previous = s_auth spec ∧
                              s_sites previous = s_sites spec ∧ s_hub previous = s_hub spec)
              then parse_entries_from (S index) seen specs rest
              else Err (at_entry +:+ " conflicts with a duplicate URL")
          | None =>
              parse_entries_from (S index) (<[key := spec]> seen) (specs ++ [spec]) rest
          end
      end
  end.

Definition parse_candidate_entries (value : json) : result string (list CandidateSpec) :=
  let? entries := ok_or "candidate configuration must be an array" (as_array value) in
  parse_entries_from 0 ∅ [] entries.

(** ** Resolved candidates *)

(** [specs] is a [BTreeMap]: its entries in key order, keys distinct. *)
Definition spec_for (specs : list (string * CandidateSpec)) (url : string)
    : option CandidateSpec :=
  match find (λ kv, bool_decide (kv.1 = url)) specs with
  | Some kv => Some kv.2
  | None =>
      match parse_hub_url url false with
      | Err _ => None
      | Ok parsed =>
          find (λ spec, match parse_hub_url (s_url spec) false with
                        | Ok other => bool_decide (base_key parsed = base_key other)
                        | Err _ => false
                        end) (map snd specs)
      end
  end.

Definition build_candidate (specs : list (string * CandidateSpec)) (p : nat * string)
    : HubCandidate :=
  let '(index, url) := p in
  let spec := spec_for specs url in
  mkCandidate url
    (from_option id (if (index =? 0)%nat then Authoritative else Fallback) (spec ≫= s_role))
    (from_option s_auth Global spec) (from_option s_sites [] spec) (spec ≫= s_hub).

Definition build_candidates (urls : list string) (specs : list (string * CandidateSpec))
    : list HubCandidate :=
  map (build_candidate specs) (enumerate urls).

Fixpoint distinct_keys (seen : gset string) (cs : list HubCandidate) : result string unit :=
  match cs with
  | [] => Ok tt
  | c :: rest =>
      let? u := parse_hub_url (url c) false in
      if bool_decide (base_key u ∈ seen) then Err "duplicate canonical hub URL"
      else distinct_keys ({[base_key u]} ∪ seen) rest
  end.

(** [same_hub.windows(2).all(|w| w[0] == w[1])]. *)
Fixpoint all_adjacent_equal (l : list (option string)) : bool :=
  match l with
  | a :: (b :: _) as rest => bool_decide (a = b) && all_adjacent_equal rest
  | _ => true
  end.

Definition authorities (cs : list HubCandidate) : list HubCandidate :=
  List.filter (λ c, bool_decide (role c = Authoritative)) cs.

Definition validate_candidates (cs : list HubCandidate) : result string unit :=
  let? _ := distinct_keys ∅ cs in
  let same_hub := map hub (authorities cs) in
  let routes_to_one_hub :=
    match same_hub with Some _ :: _ => true | _ => false end && all_adjacent_equal same_hub in
  if (1 <? length (authorities cs))%nat && negb routes_to_one_hub
  then Err ("multiple authoritative candidates: " +:+ join ", " (map url (authorities cs)))
  else Ok tt.

(** ** Public and private hosts *)

Definition private_ipv4 (b : Z) : bool :=
  let o0 := Z.shiftr b 24 in
  let o1 := Z.land (Z.shiftr b 16) 255 in
  (* is_private *)
  (o0 =? 10)%Z || ((o0 =? 172)%Z && (16 <=? o1)%Z && (o1 <=? 31)%Z)
  || ((o0 =? 192)%Z && (o1 =? 168)%Z)
  (* is_loopback, is_link_local, is_unspecified, the shared address space *)
  || (o0 =? 127)%Z || ((o0 =? 169)%Z && (o1 =? 254)%Z) || (b =? 0)%Z
  || ((o0 =? 100)%Z && (64 <=? o1)%Z && (o1 <=? 127)%Z).

Definition to_ipv4_mapped (b : Z) : option Z :=
  if (Z.shiftr b 32 =? 65535)%Z then Some (Z.land b 4294967295) else None.

Definition private_domain (nm : string) : bool :=
  let nm := to_ascii_lowercase (trim_end_matches "." nm) in
  negb (contains_char nm "." && negb (bool_decide (nm = "home.arpa"))
        && negb (existsb (ends_with nm)
                   [".localhost"; ".lan"; ".local"; ".internal"; ".home.arpa"])).

Definition public_host (u : Url) : bool :=
  match host u with
  | Some (Ipv4 b) => negb (private_ipv4 b)
  | Some (Ipv6 b) =>
      let first := Z.shiftr b 112 in
      negb ((b =? 1)%Z || (b =? 0)%Z
            || (Z.land first 65024 =? 64512)%Z || (Z.land first 65472 =? 65152)%Z
            || match to_ipv4_mapped b with Some v4 => private_ipv4 v4 | None => false end)
  | Some (Domain nm) => negb (private_domain nm)
  | None => true
  end.

Definition is_public_https_target (url : string) : bool :=
  match url_parse url with
  | None => starts_with (to_ascii_lowercase (trim url)) "https:"
  | Some parsed =>
      if negb (bool_decide (scheme parsed = "https")) then false else public_host parsed
  end.

(** ** Tokens *)

Definition token_byte (b : ascii) : bool :=
  is_ascii_alphanumeric b || bool_decide (b ∈ ["-"; "."; "_"; "~"; "+"; "/"]%char).

Definition token_value (raw : string) : result SkipReason BearerToken :=
  let token := trim raw in
  let body := trim_end_matches "=" token in
  if is_empty body || negb (str_all token_byte body)
  then Err "credential is empty or malformed" else Ok token.

Definition read_single_private_token_file (path expanded : string) (env : CredentialEnv)
    : result (IoKind * SkipReason) string :=
  let? mode := map_err (λ k, (k, "cannot stat token_file " +:+ debug_str path +:+ ": "
                                   +:+ kind_debug k)) (file_mode env expanded) in
  if negb (Z.land mode 63 =? 0)%Z
  then Err (OtherKind "PermissionDenied",
            "token_file " +:+ debug_str path
            +:+ " must not be accessible to group or other (mode "
            +:+ oct (Z.land mode 511) +:+ "); run chmod 600")
  else map_err (λ k, (k, "cannot read token_file " +:+ debug_str path +:+ ": "
                          +:+ kind_debug k)) (read_to_string env expanded).

Definition expand_tilde_under (env : CredentialEnv) (value home : string) : string :=
  if bool_decide (value = "~") then home else path_join env home (str_drop 2 value).

Definition or_else {A} (a b : option A) : option A :=
  match a with Some _ => a | None => b end.

Definition expanded_token_paths (value : string) (env : CredentialEnv)
    : result SkipReason (string * option string) :=
  if bool_decide (value = "~") || starts_with value "~/" || starts_with value "~\"
  then
    let? primary_home := ok_or "cannot expand ~ without a home directory"
                           (or_else (home_dir env) (real_profile_dir env)) in
    let fallback := match real_profile_dir env with
                    | Some real => if negb (same_location env real primary_home)
                                   then Some (expand_tilde_under env value real) else None
                    | None => None
                    end in
    Ok (expand_tilde_under env value primary_home, fallback)
  else Ok (value, None).

Definition bad_path (path : string) : bool := is_empty (trim path) || has_control path.

Definition read_private_token_file (path : string) (env : CredentialEnv)
    : result SkipReason BearerToken :=
  if bad_path path then Err "invalid token_file reference"
  else
    let? paths := expanded_token_paths path env in
    let? raw :=
      match read_single_private_token_file path paths.1 env with
      | Ok raw => Ok raw
      | Err (NotFound, reason) =>
          match paths.2 with
          | Some fallback => map_err snd (read_single_private_token_file path fallback env)
          | None => Err reason
          end
      | Err (_, reason) => Err reason
      end in
    token_value raw.

(** The branch of [authorization] that reads the candidate's token file. *)
Definition token_file_value (path : string) (env : CredentialEnv)
    : result SkipReason BearerToken :=
  let unreadable k := "cannot read token_file " +:+ debug_str path +:+ ": " +:+ kind_debug k in
  if bad_path path then Err "invalid token_file reference"
  else
    let? paths := expanded_token_paths path env in
    let? raw :=
      match read_to_string env paths.1 with
      | Ok raw => Ok raw
      | Err NotFound =>
          match paths.2 with
          | Some fallback => map_err unreadable (read_to_string env fallback)
          | None => Err (unreadable NotFound)
          end
      | Err k => Err (unreadable k)
      end in
    token_value raw.

Definition token_env_value (nm : string) (env : CredentialEnv)
    : result SkipReason BearerToken :=
  if negb (valid_env_name nm) then Err "invalid token_env reference"
  else
    let? raw := ok_or ("token_env " +:+ nm +:+ " is not set") (var env nm) in
    map_err (λ _, "token_env " +:+ nm +:+ " is empty or malformed") (token_value raw).

Definition authorization (c : HubCandidate) (global : option string) (env : CredentialEnv)
    : result SkipReason (option BearerToken) :=
  let? _ := validate_hub_base_url (url c) in
  match auth c with
  | Global =>
      let? forbidden := (if bool_decide (role c = Cloud) then Ok true
                         else let? u := parse_hub_url (url c) false in Ok (public_host u)) in
      if (forbidden : bool)
      then Err "candidate requires its own token_file or token_env; global credentials are forbidden"
      else match global with
           | Some raw => if is_empty (trim raw) then Ok None
                         else let? t := token_value raw in Ok (Some t)
           | None => Ok None
           end
  | TokenFile path => let? t := token_file_value path env in Ok (Some t)
  | TokenEnv nm => let? t := token_env_value nm env in Ok (Some t)
  end.

(** ** The token of a request *)

Record HubAuth := mkHubAuth {
  h_global : option string;
  h_candidates : list HubCandidate;
}.

Definition credential_for (a : HubAuth) (c : HubCandidate) (env : CredentialEnv)
    : result SkipReason (option BearerToken) := authorization c (h_global a) env.

(** The request lies under the candidate's base URL. *)
Definition under_base (base request : Url) : bool :=
  let p := trim_end_matches "/" (path base) in
  bool_decide (origin base = origin request)
  && (is_empty p || bool_decide (path request = p)
      || match strip_prefix (path request) p with
         | Some suffix => starts_with suffix "/"
         | None => false
         end).

(** The loop over the candidates: the longest matching base so far and its length. *)
Fixpoint match_candidates (request : Url) (matching : option HubCandidate) (longest : Z)
    (cs : list HubCandidate) : result SkipReason (option HubCandidate) :=
  match cs with
  | [] => Ok matching
  | c :: rest =>
      let? base := parse_hub_url (url c) false in
      let len := str_len (trim_end_matches "/" (path base)) in
      if under_base base request then
        if bool_decide (is_Some matching) && (len =? longest)%Z
        then Err "ambiguous canonical hub URL match"
        else if negb (bool_decide (is_Some matching)) || (longest <? len)%Z
        then match_candidates request (Some c) len rest
        else match_candidates request matching longest rest
      else match_candidates request matching longest rest
  end.

Definition SERVICE_PATHS : list string := ["/admin/service"; "/admin/service/control"; "/health"].

Definition credential_for_url (a : HubAuth) (url : string) (env : CredentialEnv)
    : result SkipReason (option BearerToken) :=
  let? request := parse_hub_url url true in
  let? matching := match_candidates request None 0 (h_candidates a) in
  match matching with
  | Some c => credential_for a c env
  | None =>
      if public_host request || negb (bool_decide (path request ∈ SERVICE_PATHS))
      then Err "unmatched request URL is not a private service endpoint"
      else authorization
             (mkCandidate (origin_ascii (origin request) +:+ path request) Fallback Global [] None)
             (h_global a) env
  end.
End candidates.

(** ** Facts *)

Section facts.
Context `{DebugFmt} `{UrlLib}.

Lemma authorization_own c g env :
  auth c ≠ Global → authorization c g env = authorization c None env.
Proof. unfold authorization. by destruct (auth c). Qed.

Lemma authorization_global c g env tok :
  auth c = Global → authorization c g env = Ok (Some tok) →
  ∃ raw u, g = Some raw ∧ token_value raw = Ok tok ∧ role c ≠ Cloud ∧
    parse_hub_url (url c) false = Ok u ∧ public_host u = false.
Proof.
  unfold authorization. intros ->. intros Ha. result_simplify.
  destruct a0; [done|]. case_bool_decide; [done|]. result_simplify.
  destruct g as [raw|]; [|done]. destruct (is_empty (trim raw)); [done|].
  result_simplify. simplify_eq. eexists _, _. split_and!; done.
Qed.

(** The candidate's base URL covers the request, with a path of this length. *)
Definition covers (u : Url) (c : HubCandidate) (len : Z) : Prop :=
  ∃ base, parse_hub_url (url c) false = Ok base ∧ under_base base u = true ∧
    len = str_len (trim_end_matches "/" (path base)).

(** The one candidate with the longest base that covers the request. *)
Definition longest_cover (u : Url) (cs : list HubCandidate) (c : HubCandidate) : Prop :=
  c ∈ cs ∧ ∃ n, covers u c n ∧ ∀ c' n', c' ∈ cs → covers u c' n' → (n' < n)%Z ∨ c' = c.

Definition uncovered (u : Url) (cs : list HubCandidate) : Prop :=
  ∀ c n, c ∈ cs → ¬ covers u c n.

(** What the loop knows after some more candidates. *)
Lemma match_candidates_go u cs : ∀ m n r, match_candidates u m n cs = Ok r →
  match r with
  | None => m = None ∧ uncovered u cs
  | Some c =>
      (m = Some c ∧ ∀ c' n', c' ∈ cs → covers u c' n' → (n' < n)%Z) ∨
      (c ∈ cs ∧ ∃ k, covers u c k ∧ (is_Some m → (n < k)%Z) ∧
        ∀ c' n', c' ∈ cs → covers u c' n' → (n' < k)%Z ∨ c' = c)
  end.
Proof.
  induction cs as [|x cs IH]; intros m n r; simpl.
  { intros [= <-]. destruct m as [c|]; [left|]; (split; [done|]); by intros c' n' ?%elem_of_nil. }
  intros Hm. result_simplify. rename a into base, Hok into Hb.
  set (len := str_len _) in Hm.
  assert (∀ k, covers u x k → k = len) as Hlen.
  { intros k (b & Hb' & _ & ->). rewrite Hb in Hb'. by injection Hb' as <-. }
  destruct (under_base base u) eqn:Eu.
  2: { assert (∀ k, ¬ covers u x k) as Hno.
       { intros k (b & Hb' & E & _). rewrite Hb in Hb'. injection Hb' as <-. congruence. }
       apply IH in Hm. destruct r as [c|]; [|destruct Hm as [? Hu]; split; [done|];
         by intros c k [-> |?]%elem_of_cons; [|apply Hu]].
       destruct Hm as [[-> Hl]|(Hin & k & Hk & Hlt & Hl)]; [left|right].
       - split; [done|]. intros c' n' [-> |?]%elem_of_cons Hc; [by apply Hno in Hc|by eapply Hl].
       - split; [by right|]. exists k. split_and!; [done..|].
         intros c' n' [-> |?]%elem_of_cons Hc; [by apply Hno in Hc|by eapply Hl]. }
  assert (covers u x len) as Hx by by exists base.
  destruct (bool_decide (is_Some m) && (len =? n)%Z) eqn:Eamb; [done|].
  destruct (negb (bool_decide (is_Some m)) || (n <? len)%Z) eqn:Eup; apply IH in Hm.
  - assert (is_Some m → (n < len)%Z) as Hn.
    { intros Hs. apply orb_true_iff in Eup as [E|E]; [|by apply Z.ltb_lt].
      by rewrite bool_decide_eq_true_2 in E. }
    destruct r as [c|]; [right|by destruct Hm].
    destruct Hm as [[[= ->] Hl]|(Hin & k & Hk & Hlt & Hl)].
    + split; [by left|]. exists len. split_and!; [done..|].
      intros c' n' [-> |?]%elem_of_cons Hc; [by right|left; by eapply Hl].
    + specialize (Hlt (mk_is_Some _ _ eq_refl)). split; [by right|]. exists k.
      split_and!; [done|intros Hs; specialize (Hn Hs); lia|].
      intros c' n' [-> |?]%elem_of_cons Hc; [left; rewrite (Hlen _ Hc); lia|by eapply Hl].
  - apply orb_false_iff in Eup as [Es En]. apply negb_false_iff, bool_decide_eq_true in Es.
    rewrite bool_decide_eq_true_2 in Eamb by done. apply Z.eqb_neq in Eamb. apply Z.ltb_ge in En.
    destruct r as [c|]; [|destruct Hm as [-> _]; by destruct Es].
    destruct Hm as [[-> Hl]|(Hin & k & Hk & Hlt & Hl)]; [left|right].
    + split; [done|]. intros c' n' [-> |?]%elem_of_cons Hc; [rewrite (Hlen _ Hc); lia|by eapply Hl].
    + specialize (Hlt Es). split; [by right|]. exists k. split_and!; [done|done|].
      intros c' n' [-> |?]%elem_of_cons Hc; [left; rewrite (Hlen _ Hc); lia|by eapply Hl].
Qed.

Lemma match_candidates_longest u cs r : match_candidates u None 0 cs = Ok r →
  match r with Some c => longest_cover u cs c | None => uncovered u cs end.
Proof.
  intros Hm%match_candidates_go. destruct r as [c|]; [|by destruct Hm].
  destruct Hm as [[? _]|(Hin & k & Hk & _ & Hl)]; [done|]. split; [done|]. by exists k.
Qed.

Lemma under_base_public base request :
  under_base base request = true → public_host request = public_host base.
Proof.
  unfold under_base. intros [Ho _]%andb_true_iff. bool_simplify.
  unfold origin in Ho. injection Ho as _ Hh _. unfold public_host. by rewrite Hh.
Qed.

Definition spec_wf (s : CandidateSpec) : Prop :=
  (∃ u, parse_hub_url (s_url s) false = Ok u) ∧
  NoDup (s_sites s) ∧ Forall (λ n, valid_site_name n = true) (s_sites s) ∧
  (∀ h, s_hub s = Some h → valid_site_name h = true) ∧
  match s_auth s with
  | Global => True
  | TokenFile p => p ≠ "" ∧ has_control p = false
  | TokenEnv n => valid_env_name n = true
  end.

Lemma parse_sites_Ok seen items out :
  parse_sites seen items = Ok out →
  NoDup seen → Forall (λ n, valid_site_name n = true) seen →
  NoDup out ∧ Forall (λ n, valid_site_name n = true) out.
Proof.
  revert seen. induction items as [|i items IH]; intros seen; simpl; intros Hp Hd Hv;
    result_simplify; [by subst|].
  destruct (trim <$> as_str i) as [s|]; [|done]. destruct (valid_site_name s) eqn:Ev; [|done].
  injection Hok as <-. case_bool_decide as Hin; apply IH in Hp; try done.
  - apply NoDup_app. split_and!; [done| |apply NoDup_singleton].
    intros x Hx ->%list_elem_of_singleton. done.
  - apply Forall_app. split; [done|by constructor].
Qed.

Lemma text_field_Ok m nm s : text_field m nm = Ok (Some s) → s ≠ "".
Proof.
  unfold text_field. destruct (get m nm); [|done]. intros Ht. result_simplify.
  destruct (is_empty (trim a)) eqn:E; [done|]. result_simplify. simplify_eq.
  unfold is_empty in E. by bool_simplify.
Qed.

Lemma parse_auth_Ok m file variable a :
  text_field m "token_file" = Ok file → parse_auth file variable = Ok a →
  match a with
  | Global => True
  | TokenFile p => p ≠ "" ∧ has_control p = false
  | TokenEnv n => valid_env_name n = true
  end.
Proof.
  intros Hf. unfold parse_auth. repeat case_match; intros; simplify_eq; try done.
  bool_simplify. split; [by eapply text_field_Ok|done].
Qed.

Lemma parse_candidate_object_Ok m s :
  parse_candidate_object m = Ok s →
  NoDup (s_sites s) ∧ Forall (λ n, valid_site_name n = true) (s_sites s) ∧
  (∀ h, s_hub s = Some h → valid_site_name h = true) ∧
  match s_auth s with
  | Global => True
  | TokenFile p => p ≠ "" ∧ has_control p = false
  | TokenEnv n => valid_env_name n = true
  end.
Proof.
  unfold parse_candidate_object. destruct (find _ m) as [[k v]|]; [done|]. intros Hp.
  result_simplify. subst s. simpl. apply Logic.and_assoc. split; [|split].
  - destruct (get m "sites") as [[]|]; try done; [|result_simplify; subst; split; constructor].
    eapply parse_sites_Ok; [done|constructor|constructor].
  - intros h ->. match goal with H : context [trim <$> ?o] |- _ =>
      destruct (trim <$> o) as [h'|]; [|done] end.
    destruct (valid_site_name h') eqn:E; [|done]. congruence.
  - match goal with H : parse_auth _ _ = Ok ?a |- context [match ?a with _ => _ end] =>
      exact (parse_auth_Ok _ _ _ _ ltac:(eassumption) H) end.
Qed.

Lemma parse_entry_Ok i e s :
  parse_entry i e = Ok (Some s) → (∃ u, parse_hub_url (s_url s) false = Ok u) → spec_wf s.
Proof.
  unfold parse_entry. destruct e; try done.
  - case_match; [done|]. intros [= <-] Hu. split; [done|]. simpl.
    split_and!; [constructor|constructor|done|done].
  - intros Hp Hu. result_simplify. simplify_eq. split; [done|].
    by apply parse_candidate_object_Ok in Hok.
Qed.

(** The canonical URL of a configured one. *)
Definition canonical (u : string) : option string :=
  match parse_hub_url u false with Ok p => Some (base_key p) | Err _ => None end.

Lemma parse_entries_from_Ok i seen specs entries out :
  parse_entries_from i seen specs entries = Ok out →
  Forall spec_wf specs → NoDup (map (canonical ∘ s_url) specs) →
  (∀ s k, s ∈ specs → canonical (s_url s) = Some k → is_Some (seen !! k)) →
  Forall spec_wf out ∧ NoDup (map (canonical ∘ s_url) out).
Proof.
  revert i seen specs. induction entries as [|e es IH]; intros i seen specs; simpl;
    intros Hp Hw Hd Hs; result_simplify; [by subst|].
  destruct a as [s|]; [|by eapply IH]. result_simplify.
  assert (canonical (s_url s) = Some (base_key a)) as Hc by (unfold canonical; by rewrite Hok0).
  destruct (seen !! base_key a) as [p|] eqn:El.
  { case_bool_decide; [by eapply IH|done]. }
  eapply IH in Hp; [done| | |].
  - apply Forall_app. split; [done|]. constructor; [|done]. eapply parse_entry_Ok; eauto.
  - rewrite map_app. apply NoDup_app. split_and!; [done| |apply NoDup_singleton].
    intros x Hx. change (map ?f ?l) with (f <$> l) in Hx.
    apply list_elem_of_fmap in Hx as (s' & -> & Hin). simpl.
    rewrite list_elem_of_singleton, Hc. intros Heq. eapply Hs in Hin as [? Hl]; [|exact Heq].
    congruence.
  - intros s' k [Hin|Hin%list_elem_of_singleton]%elem_of_app Hk.
    + destruct (decide (base_key a = k)) as [->|]; [by rewrite lookup_insert_eq; eauto|].
      rewrite lookup_insert_ne by done. eauto.
    + subst s'. rewrite Hc in Hk. injection Hk as ->. rewrite lookup_insert_eq. eauto.
Qed.

Lemma all_adjacent_equal_cons a l :
  all_adjacent_equal (a :: l) = true → Forall (λ b, b = a) l.
Proof.
  revert a. induction l as [|b l IH]; intros a; [constructor|].
  simpl. rewrite andb_true_iff. intros [Hab Hl]. bool_simplify. subst b.
  constructor; [done|]. by apply IH.
Qed.

Lemma distinct_keys_Ok seen cs u :
  distinct_keys seen cs = Ok u →
  NoDup (map (canonical ∘ url) cs) ∧
  Forall (λ c, ∃ k, canonical (url c) = Some k ∧ k ∉ seen) cs.
Proof.
  revert seen. induction cs as [|c cs IH]; intros seen; simpl; intros Hp; result_simplify.
  { split; constructor. }
  case_bool_decide as Hin; [done|]. apply IH in Hp as [Hd Hf].
  assert (canonical (url c) = Some (base_key a)) as Hc by (unfold canonical; by rewrite Hok).
  split; [constructor; [|done]|constructor; [eauto|]].
  - change (map ?f ?l) with (f <$> l). intros (c' & Hc' & Hin')%list_elem_of_fmap.
    rewrite Forall_forall in Hf. destruct (Hf _ Hin') as (k & Hk & Hn). simpl in Hc'.
    rewrite Hc, Hk in Hc'. injection Hc' as <-. set_solver.
  - eapply Forall_impl; [exact Hf|]. simpl. set_solver.
Qed.

(** Two authoritative positions make at least two authorities. *)
Lemma authorities_two cs i j c c' :
  i ≠ j → cs !! i = Some c → cs !! j = Some c' →
  role c = Authoritative → role c' = Authoritative → 2 ≤ length (authorities cs).
Proof.
  revert i j. unfold authorities.
  assert (∀ (cs : list HubCandidate) j c', cs !! j = Some c' → role c' = Authoritative →
    1 ≤ length (List.filter (λ c, bool_decide (role c = Authoritative)) cs)) as Hone.
  { intros l k x Hx Hr. destruct (List.filter _ l) eqn:E; [|simpl; lia].
    assert (x ∈ @nil HubCandidate) as []%elem_of_nil. rewrite <- E.
    apply elem_of_filter_b. split; [by eapply list_elem_of_lookup_2|].
    by rewrite bool_decide_eq_true_2. }
  induction cs as [|x cs IH]; intros [|i] [|j] Hne Hi Hj Hc Hc'; simplify_eq/=.
  - rewrite bool_decide_eq_true_2 by done. simpl. pose proof (Hone _ _ _ Hj Hc'). lia.
  - rewrite bool_decide_eq_true_2 by done. simpl. pose proof (Hone _ _ _ Hi Hc). lia.
  - assert (2 ≤ length (List.filter (λ c, bool_decide (role c = Authoritative)) cs))
      by (eapply (IH i j); try done; congruence).
    case_bool_decide; simpl; lia.
Qed.
End facts.

(** ** Properties *)

Section properties.
Context `{DebugFmt} `{UrlLib}.

(** C29. The token guard. A token sent with a request belongs to the candidate with the
    longest base URL over the request, of which there is one: it is that candidate's own,
    which does not depend on the global token, when it has credentials of its own, and the
    global token only for one that is not a cloud candidate, on a private host. Only a
    request that no candidate covers goes without: it carries the global token, to a
    service endpoint of a private host. *)
Theorem global_token_guard (a : HubAuth) (req : string) (env : CredentialEnv)
    (tok : BearerToken) :
  credential_for_url a req env = Ok (Some tok) →
  ∃ u, parse_hub_url req true = Ok u ∧
    ((∃ c, longest_cover u (h_candidates a) c ∧
        (auth c ≠ Global → ∀ g, authorization c g env = Ok (Some tok)) ∧
        (auth c = Global → role c ≠ Cloud ∧ public_host u = false ∧
           ∃ raw, h_global a = Some raw ∧ token_value raw = Ok tok)) ∨
     (uncovered u (h_candidates a) ∧ public_host u = false ∧ path u ∈ SERVICE_PATHS ∧
        ∃ raw, h_global a = Some raw ∧ token_value raw = Ok tok)).
Proof.
  unfold credential_for_url, credential_for. intros Hc. result_simplify. rename a0 into u.
  exists u. split; [done|]. apply match_candidates_longest in Hok0. destruct a1 as [c|].
  - left. exists c. split; [done|]. destruct Hok0 as (_ & n & (base & Hb & Hu & _) & _). split.
    + intros Hg g. rewrite authorization_own, <- (authorization_own _ (h_global a)) by done. done.
    + intros Hg. apply authorization_global in Hc as (raw & b & Hr & Ht & Hcl & Hp & Hpub); [|done].
      rewrite Hb in Hp. injection Hp as <-. rewrite (under_base_public _ _ Hu).
      split_and!; [done..|]. by exists raw.
  - right. destruct (public_host u) eqn:Ep; [done|]. simpl in Hc.
    case_bool_decide as Hs; [|done]. simpl in Hc.
    apply authorization_global in Hc as (raw & b & Hr & Ht & _); [|done].
    split_and!; try done. by exists raw.
Qed.

(** At most one claims authority: in an accepted candidate list no canonical
    URL occurs twice, and any two authoritative candidates are routes to one named
    hub. *)
Theorem one_claims_authority (cs : list HubCandidate) :
  validate_candidates cs = Ok tt →
  NoDup (map (canonical ∘ url) cs) ∧
  ∀ i j c c', i ≠ j → cs !! i = Some c → cs !! j = Some c' →
    role c = Authoritative → role c' = Authoritative →
    ∃ h, hub c = Some h ∧ hub c' = Some h.
Proof.
  unfold validate_candidates. intros Hv. result_simplify.
  apply distinct_keys_Ok in Hok as [Hd _]. split; [done|].
  intros i j c c' Hne Hi Hj Hc Hc'.
  destruct (_ && _) eqn:E in Hv; [done|]. apply andb_false_iff in E as [E|E].
  { exfalso. apply Nat.ltb_ge in E. unfold authorities in E.
    pose proof (authorities_two cs i j c c' Hne Hi Hj Hc Hc') as Ht. unfold authorities in Ht. lia. }
  apply negb_false_iff in E. apply andb_true_iff in E as [Hh Hall].
  destruct (map hub (authorities cs)) as [|[h|] rest] eqn:Em; [done| |done].
  apply all_adjacent_equal_cons in Hall. exists h.
  assert (∀ x, x ∈ cs → role x = Authoritative → hub x = Some h) as Hx.
  { intros x Hx Hr. assert (hub x ∈ Some h :: rest) as Hin.
    { rewrite <- Em. apply (list_elem_of_fmap_2 hub). apply elem_of_filter_b.
      by rewrite bool_decide_eq_true_2. }
    apply elem_of_cons in Hin as [?|Hin]; [done|]. rewrite Forall_forall in Hall. auto. }
  split; apply Hx; try done; by eapply list_elem_of_lookup_2.
Qed.

(** C40. Accepted candidate configuration is well-formed: every URL is a valid base
    URL, no canonical URL occurs twice, site and hub names are usable and sites do
    not repeat, and every named credential source is usable. *)
Theorem candidate_entries_wf (value : json) (specs : list CandidateSpec) :
  parse_candidate_entries value = Ok specs →
  Forall spec_wf specs ∧ NoDup (map (canonical ∘ s_url) specs).
Proof.
  unfold parse_candidate_entries. intros Hp. result_simplify.
  eapply parse_entries_from_Ok; [done|constructor|constructor|].
  intros s k []%elem_of_nil.
Qed.
End properties.

(** ** Concrete runs

    A URL reader for [scheme://name/path] texts. *)

Definition plain_url (s : string) : option Url :=
  match split_sub "://" s with
  | Some (sch, rest) =>
      let '(nm, p) := break authority_end rest in
      let p := if is_empty p then "/" else p in
      if is_empty nm then None
      else Some (mkUrl sch "" None (Some (Domain nm)) None p None None
                   (sch +:+ "://" +:+ nm +:+ p))
  | None => None
  end.

Definition plain_urls : UrlLib :=
  {| url_parse := plain_url;
     origin_ascii o := o.1.1 +:+ "://" +:+ match o.1.2 with Some (Domain n) => n | _ => "" end |}.

Definition demo_env : CredentialEnv :=
  mkEnv (λ _, Some "own") (λ _, Err NotFound) None None (λ _, Err NotFound)
    (λ a b, a +:+ "/" +:+ b) (λ a b, bool_decide (a = b)).

Definition demo_hub_auth : HubAuth :=
  mkHubAuth (Some "secret")
    [mkCandidate "http://hub.lan" Authoritative Global [] None;
     mkCandidate "https://bus.example.com" Cloud (TokenEnv "CLOUD_TOKEN") [] None].

Lemma global_token_guard_witness :
  @credential_for_url plain_debug plain_urls demo_hub_auth "http://hub.lan/messages"
    demo_env = Ok (Some "secret") ∧
  @credential_for_url plain_debug plain_urls demo_hub_auth "https://bus.example.com/health"
    demo_env = Ok (Some "own") ∧
  ∃ u c, @parse_hub_url plain_urls "https://bus.example.com/health" true = Ok u ∧
    @longest_cover plain_urls u (h_candidates demo_hub_auth) c ∧
    ∀ g, @authorization plain_debug plain_urls c g demo_env = Ok (Some "own").
Proof.
  split; [vm_compute; reflexivity|]. split; [vm_compute; reflexivity|].
  destruct (@global_token_guard plain_debug plain_urls demo_hub_auth
    "https://bus.example.com/health" demo_env "own") as (u & Hu & Hcase);
    [vm_compute; reflexivity|].
  destruct Hcase as [(c & Hl & Hown & Hg)|(_ & _ & _ & raw & Hr & Ht)].
  - exists u, c. split; [exact Hu|]. split; [exact Hl|]. apply Hown. intros E.
    destruct (Hg E) as (_ & _ & raw & Hr & Ht). injection Hr as <-. vm_compute in Ht. discriminate.
  - exfalso. injection Hr as <-. vm_compute in Ht. discriminate.
Defined.

Definition demo_hubs : list HubCandidate :=
  [mkCandidate "http://hub.lan" Authoritative Global [] (Some "main");
   mkCandidate "http://hub.ts.net" Authoritative Global [] (Some "main")].

Lemma one_claims_authority_witness :
  @validate_candidates plain_urls demo_hubs = Ok tt ∧
  ∃ h, hub <$> demo_hubs !! 0 = Some (Some h) ∧ hub <$> demo_hubs !! 1 = Some (Some h).
Proof.
  split; [vm_compute; reflexivity|].
  destruct (@one_claims_authority plain_urls demo_hubs) as [_ H];
    [vm_compute; reflexivity|].
  destruct (H 0 1 _ _ ltac:(done) eq_refl eq_refl eq_refl eq_refl) as (h & H1 & H2).
  exists h. simpl in *. split; congruence.
Defined.

Definition demo_entries : json :=
  JArr [JStr " http://hub.lan "; JStr "";
        JObj [("hub", JStr "main"); ("sites", JArr [JStr "lab"; JStr "lab"]);
              ("token_env", JStr "T_1"); ("url", JStr "https://bus.example.com")]].

Lemma candidate_entries_wf_witness :
  ∃ specs, @parse_candidate_entries plain_debug plain_urls demo_entries = Ok specs ∧
    map s_sites specs = [[]; ["lab"]] ∧ Forall (@spec_wf plain_urls) specs.
Proof.
  eexists. split; [vm_compute; reflexivity|]. split; [reflexivity|].
  apply (@candidate_entries_wf plain_debug plain_urls demo_entries). vm_compute. reflexivity.
Defined.
