(* ===== verification/Hub.v ===== *)
(** * Hub: resolving the hub a client talks to

    Models [crates/agent-bus-core/src/hub.rs] and the entry logic of
    [hub_cache.rs]: grouping candidates into stores, probing the stages of each
    store's plan in turn, and reporting the backend. A stage runner is either the
    serial [walk] or the concurrent [race]; both are given to one loop, as the two
    loops of the source differ in nothing else. *)

From Stdlib Require Import ZArith Lia Ascii.
From stdpp Require Import base option list strings gmap sorting.
From S2P Require Import Prelude Str Json HubTypes NetLocation LinkRoute Candidates.

(** ** The last-good cache

    The file is its decoded entry; nothing stands for an absent, oversized or
    unreadable file. Instants are nanoseconds since the epoch. Whether a write or a
    removal succeeds is the file system's answer. *)

Definition CACHE_VERSION : Z := 1.
Definition MILLIS : Z := 1000000.

Record CacheEntry := mkCacheEntry {
  version : Z;
  fingerprint : string;
  ce_url : string;
  ce_role : HubRole;
  ce_rtt_ms : option Z;
  resolved_at_unix_ms : Z;
}.

Record CachedHub := mkCached {
  ch_url : string;
  ch_role : HubRole;
  age : Z;
  ch_rtt_ms : option Z;
}.

Record HubCache := mkCache {
  ttl : Z;
  file : option CacheEntry;
}.

Section hub.
Context `{DebugFmt} `{UrlLib}.

Definition enabled (c : HubCache) : bool := negb (ttl c =? 0)%Z.

Definition cache_load (c : HubCache) (fp : string) (now : Z) : option CachedHub :=
  if negb (enabled c) then None
  else
    entry ← file c;
    if negb (version entry =? CACHE_VERSION)%Z
       || negb (bool_decide (fingerprint entry = fp))
       || negb (is_ok (validate_hub_base_url (ce_url entry)))
    then None
    else
      let resolved := (resolved_at_unix_ms entry * MILLIS)%Z in
      if (now <? resolved)%Z then None
      else if (ttl c <=? now - resolved)%Z then None
      else Some (mkCached (ce_url entry) (ce_role entry) (now - resolved) (ce_rtt_ms entry)).

Definition store_with_rtt (c : HubCache) (fp url : string) (role : HubRole)
    (rtt_ms : option Z) (now : Z) (write_ok : bool) : HubCache :=
  if negb (enabled c) then c
  else if negb (is_ok (validate_hub_base_url url)) then c
  else if (now <? 0)%Z then c
  else if (U64_MAX <? now / MILLIS)%Z then c
  else if write_ok
  then mkCache (ttl c) (Some (mkCacheEntry CACHE_VERSION fp url role rtt_ms (now / MILLIS)))
  else c.

Definition invalidate (c : HubCache) (remove_ok : bool) : HubCache :=
  if negb (enabled c) then c else if remove_ok then mkCache (ttl c) None else c.

(** ** Backends *)

Inductive HubBackend : Type :=
  | Remote (url : string) (authoritative : bool) (hub_build : option string)
      (tried : list string) (probes : list ProbeReport)
  | Offline (tried : list string) (probes : list ProbeReport)
  | LocalStore.

Definition is_remote (b : HubBackend) : bool := match b with Remote _ _ _ _ _ => true | _ => false end.
Definition is_offline (b : HubBackend) : bool := match b with Offline _ _ => true | _ => false end.
Definition is_local (b : HubBackend) : bool := match b with LocalStore => true | _ => false end.
Definition backend_url (b : HubBackend) : option string :=
  match b with Remote u _ _ _ _ => Some u | _ => None end.

(** [resolve_hub] over plain URLs, with a stateful probe. *)
Section plain.
Context {W : Type} (probe : W → string → option ProbeInfo * W).

Fixpoint resolve_hub_from (index : nat) (tried : list string) (cs : list string) (w : W)
    : HubBackend * W :=
  match cs with
  | [] => (Offline tried [], w)
  | u :: rest =>
      let tried := tried ++ [u] in
      match probe w u with
      | (Some info, w) => (Remote u (index =? 0)%nat (build_version info) tried [], w)
      | (None, w) => resolve_hub_from (S index) tried rest w
      end
  end.

Definition resolve_hub (cs : list string) (w : W) : HubBackend * W :=
  match cs with
  | [] => (LocalStore, w)
  | _ => resolve_hub_from 0 [] cs w
  end.
End plain.

Definition identity_matches (c : HubCandidate) (info : ProbeInfo) : bool :=
  match hub c with
  | None => true
  | Some expected => bool_decide (hub_identity info = Some expected)
  end.

(** [base] is [candidates_fingerprint], a hash of the candidate list. *)
Definition routing_fingerprint (base : string) (locs : option (list string)) (network : string)
    : string :=
  let located := match locs with
                 | None => base
                 | Some names => base +:+ "@" +:+ join "," (sort_by str_le names)
                 end in
  located +:+ "#" +:+ network.

(** ** Grouping *)

(** Index of the group that holds the same store. *)
Fixpoint find_group (cs : list HubCandidate) (r : HubRole) (h : string) (pos : nat)
    (groups : list (list nat)) : option nat :=
  match groups with
  | [] => None
  | g :: rest =>
      if match g with
         | i :: _ => match cs !! i with
                     | Some first => bool_decide (role first = r ∧ hub first = Some h)
                     | None => false
                     end
         | [] => false
         end
      then Some pos else find_group cs r h (S pos) rest
  end.

Definition existing_group (cs : list HubCandidate) (c : HubCandidate)
    (groups : list (list nat)) : option nat :=
  match hub c with
  | Some h => if is_empty h then None else find_group cs (role c) h 0 groups
  | None => None
  end.

Definition place (cs : list HubCandidate) (groups : list (list nat)) (p : nat * HubCandidate)
    : list (list nat) :=
  match existing_group cs p.2 groups with
  | Some k => alter (λ g, g ++ [p.1]) k groups
  | None => groups ++ [[p.1]]
  end.

(** The candidates in the order the nested loops visit them. *)
Definition visit_order (cs : list HubCandidate) (authority_only : bool)
    : list (nat * HubCandidate) :=
  mjoin (map (λ r, List.filter (λ p, bool_decide (role p.2 = r)) (enumerate cs))
    (if authority_only then [Authoritative] else [Authoritative; Fallback; Cloud])).

Definition store_groups (cs : list HubCandidate) (authority_only : bool) : list (list nat) :=
  foldl (place cs) [] (visit_order cs authority_only).

(** [indexes.iter().position(|&member| member == i)]. *)
Fixpoint position (i : nat) (l : list nat) : option nat :=
  match l with
  | [] => None
  | x :: rest => if (x =? i)%nat then Some 0 else S <$> position i rest
  end.

Definition remap (indexes : list nat) (r : PlannedRoute) : PlannedRoute :=
  mkRoute (nth (index r) indexes 0) (class r) (delay r) (cached r).

Definition group_plan (cs : list HubCandidate) (locs : option (list string))
    (cached : option nat) (authority_only : bool) (stagger : Z) (indexes : list nat)
    : RoutePlan :=
  let members := omap (λ i, cs !! i) indexes in
  let plan := plan_routes (mkPlanRequest members locs (cached ≫= λ i, position i indexes)
                             authority_only stagger) in
  mkPlan (map (remap indexes) (primary plan)) (map (remap indexes) (deferred plan)).

Definition grouped_route_plans (cs : list HubCandidate) (locs : option (list string))
    (cached : option nat) (authority_only : bool) (stagger : Z) : list RoutePlan :=
  map (group_plan cs locs cached authority_only stagger) (store_groups cs authority_only).

(** ** Resolution *)

(** The hub part of [Settings]. *)
Record HubSettings := mkSettings {
  hub_candidates : list HubCandidate;
  server_urls : list string;
  hub_config_error : option string;
  auth_token : option string;
  probe_stagger_ms : Z;
}.

Definition effective_hub_candidates (s : HubSettings) : list HubCandidate :=
  if bool_decide (map url (hub_candidates s) = server_urls s)
  then hub_candidates s else build_candidates (server_urls s) [].

Record Resolution := mkResolution {
  r_candidates : list HubCandidate;
  r_plans : list RoutePlan;
  r_auth : HubAuth;
  r_cache : option HubCache;
  r_fingerprint : string;
}.

Record Tally := mkTally {
  t_tried : list string;
  t_probes : list ProbeReport;
}.

Fixpoint find_cached (cs : list HubCandidate) (hit : CachedHub) : option nat :=
  match cs with
  | [] => None
  | c :: rest =>
      if bool_decide (url c = ch_url hit ∧ role c = ch_role hit) then Some 0
      else S <$> find_cached rest hit
  end.

Section resolution.
Context (candidates_fingerprint : list HubCandidate → string) (env : CredentialEnv) (now : Z).

Definition begin (s : HubSettings) (authority_only : bool) (locs : option (list string))
    (network : string) (cache : option HubCache) : result HubBackend Resolution :=
  let cs := effective_hub_candidates s in
  if bool_decide (is_Some (hub_config_error s)) || negb (is_ok (validate_candidates cs))
  then Err (Offline (server_urls s) [])
  else if bool_decide (cs = []) then Err LocalStore
  else
    let fp := routing_fingerprint (candidates_fingerprint cs) locs network in
    let cached := if authority_only then None
                  else c ← cache; hit ← cache_load c fp now; find_cached cs hit in
    Ok (mkResolution cs
          (grouped_route_plans cs locs cached authority_only (probe_stagger_ms s * MILLIS))
          (mkHubAuth (auth_token s) cs) cache fp).

Definition slot_of (res : Resolution) (r : PlannedRoute) : option Slot :=
  c ← r_candidates res !! index r;
  Some (mkSlot (url c) (delay r)
          match credential_for (r_auth res) c env with
          | Ok _ => None
          | Err _ => Some CredentialUnavailable
          end).

(** Planned indexes are in range, so every route has its slot. *)
Definition slots (res : Resolution) (routes : list PlannedRoute) : list Slot :=
  omap (slot_of res) routes.

Definition accepts (res : Resolution) (routes : list PlannedRoute) (slot : nat)
    (info : ProbeInfo) : bool :=
  match routes !! slot ≫= λ r, r_candidates res !! index r with
  | Some c => identity_matches c info
  | None => false
  end.

Fixpoint record (res : Resolution) (t : Tally) (routes : list PlannedRoute)
    (outs : list SlotOutcome) : Tally :=
  match routes, outs with
  | r :: routes', o :: outs' =>
      let u := from_option url "" (r_candidates res !! index r) in
      let attempted := match o with Healthy _ => true | Failed f => was_attempted f end in
      record res (mkTally (if attempted then t_tried t ++ [u] else t_tried t)
                    (t_probes t ++ [report_new u (class r) o])) routes' outs'
  | _, _ => t
  end.

Definition U32_MAX : Z := 4294967295.

Definition succeed (res : Resolution) (r : PlannedRoute) (w : Winner) (t : Tally)
    (write_ok : bool) : HubBackend * option HubCache :=
  let c := from_option id (mkCandidate "" Fallback Global [] None) (r_candidates res !! index r) in
  let ms := (w_rtt w / MILLIS)%Z in
  (Remote (url c) (bool_decide (role c = Authoritative)) (build_version (w_info w))
     (t_tried t) (t_probes t),
   (λ k, store_with_rtt k (r_fingerprint res) (url c) (role c)
           (if (ms <=? U32_MAX)%Z then Some ms else None) now write_ok) <$> r_cache res).

Definition exhausted (res : Resolution) (t : Tally) (remove_ok : bool)
    : HubBackend * option HubCache :=
  (Offline (t_tried t) (t_probes t), (λ k, invalidate k remove_ok) <$> r_cache res).

(** A stage runner: [walk] or [race], with the state of its environment. *)
Section run.
Context {W : Type} (run : (nat → ProbeInfo → bool) → list Slot → W → RaceResult * W)
  (fs_ok : bool).

Fixpoint run_stages (res : Resolution) (stages : list (list PlannedRoute)) (t : Tally) (w : W)
    : HubBackend * option HubCache * W :=
  match stages with
  | [] => (exhausted res t fs_ok, w)
  | routes :: rest =>
      if bool_decide (routes = []) then run_stages res rest t w
      else
        let '(r, w) := run (accepts res routes) (slots res routes) w in
        let t := record res t routes (outcomes r) in
        match winner r with
        | Some win =>
            (succeed res (nth (w_slot win) routes (mkRoute 0 Lan 0 false)) win t fs_ok, w)
        | None => run_stages res rest t w
        end
  end.

Definition stages_of (plans : list RoutePlan) : list (list PlannedRoute) :=
  mjoin (map (λ p, [primary p; deferred p]) plans).

Definition resolve (s : HubSettings) (authority_only : bool) (locs : option (list string))
    (network : string) (cache : option HubCache) (w : W)
    : HubBackend * option HubCache * W :=
  match begin s authority_only locs network cache with
  | Err backend => (backend, cache, w)
  | Ok res => run_stages res (stages_of (r_plans res)) (mkTally [] []) w
  end.
End run.

(** [resolve_serial]: a stateful synchronous probe. *)
Definition resolve_serial {W} (probe : W → string → option (ProbeInfo * Z) * W) (fs_ok : bool) :=
  resolve (λ accept slots w, walk probe accept slots w) fs_ok.

(** [resolve_concurrent]: the environment decides, stage by stage, which probes are
    joined in which order and which had started. *)
Definition resolve_concurrent {W}
    (schedule : list Slot → W → list completion * (nat → bool) * W) (fs_ok : bool) :=
  resolve (λ accept slots w, let '(joined, started, w) := schedule slots w in
                             (race accept slots joined started, w)) fs_ok.
End resolution.
End hub.
