(* ===== verification/HubProps.v ===== *)
(** * HubProps: what hub resolution guarantees

    A stage runner promises to find an acceptable slot whenever there is one
    ([StageRunner]); the serial walk and the race keep that promise, and the
    properties of resolution are proved against it: authorities are exhausted
    before fallbacks, fallbacks before the cloud, and racing finds the same store
    as walking. *)

From Stdlib Require Import ZArith Lia Ascii.
From stdpp Require Import base option list strings gmap sorting.
From S2P Require Import Prelude Str Json HubTypes NetLocation LinkRoute Candidates Hub.

(** ** The promise of a stage runner *)

Class StageRunner (ans : string → option (ProbeInfo * Z)) {W : Type}
    (run : (nat → ProbeInfo → bool) → list Slot → W → RaceResult * W) : Prop := {
  run_finds accept sl w j : acceptable accept ans sl j →
    is_Some (winner (run accept sl w).1);
  run_sound accept sl w win : winner (run accept sl w).1 = Some win →
    acceptable accept ans sl (w_slot win);
}.

Section runners.
Context (ans : string → option (ProbeInfo * Z)).

(** Rewrite with what is known of the rest of a walk. *)
Ltac use_walk IH :=
  repeat match goal with |- context [walk_from ?p ?a ?i ?won ?sl ?w] =>
    destruct (walk_from p a i won sl w) end;
  simpl in *; by rewrite IH.

(** The walk's result depends on the answers only. *)
Lemma walk_from_indep {W} (probe : W → string → option (ProbeInfo * Z) * W) accept i won sl w log :
  (∀ w u, (probe w u).1 = ans u) →
  (walk_from probe accept i won sl w).1 = (walk_from (logging ans) accept i won sl log).1.
Proof.
  intros Hp. revert i won w log. induction sl as [|s sl IH]; intros i won w log; simpl; [done|].
  destruct won as [win|].
  { specialize (IH (S i) (Some win) w log).
    use_walk IH. }
  destruct (skip s).
  { specialize (IH (S i) None w log).
    use_walk IH. }
  specialize (Hp w (slot_url s)). destruct (probe w (slot_url s)) as [a w'].
  simpl in Hp. subst a. destruct (ans (slot_url s)) as [[info rtt]|]; [destruct (accept i info)|].
  - specialize (IH (S i) (Some (mkWinner i info rtt)) w' (log ++ [slot_url s])).
    use_walk IH.
  - specialize (IH (S i) None w' (log ++ [slot_url s])).
    use_walk IH.
  - specialize (IH (S i) None w' (log ++ [slot_url s])).
    use_walk IH.
Qed.

Lemma walk_acceptable accept sl :
  (∀ j, acceptable accept ans sl j → is_Some (winner (walk (logging ans) accept sl []).1)) ∧
  ∀ win, winner (walk (logging ans) accept sl []).1 = Some win →
    acceptable accept ans sl (w_slot win).
Proof.
  destruct (walk _ _ _ _) as [r log] eqn:Ew. apply walk_from_spec in Ew as [_ Hw]. simpl. split.
  - intros j (s & info & rtt & H1 & H2 & H3 & H4). destruct (winner r); [by eexists|].
    destruct Hw as [_ Hn]. specialize (Hn _ _ _ _ H1 H2 H3). simpl in Hn. congruence.
  - intros win Hr. rewrite Hr in Hw. destruct Hw as (k & s & -> & H1 & H2 & H3 & H4 & _).
    by exists s, (w_info win), (w_rtt win).
Qed.

#[export] Instance walk_runner {W} (probe : W → string → option (ProbeInfo * Z) * W)
    (Hp : ∀ w u, (probe w u).1 = ans u) :
  StageRunner ans (λ accept sl w, walk probe accept sl w).
Proof.
  split; intros accept sl w; unfold walk; rewrite (walk_from_indep probe _ _ _ _ _ [] Hp);
    apply walk_acceptable.
Qed.

(** A schedule that joins every contactable probe with the answer of its URL. *)
Definition fair_schedule {W} (schedule : list Slot → W → list completion * (nat → bool) * W)
    : Prop :=
  ∀ sl w joined started w', schedule sl w = (joined, started, w') →
    joined_of ans sl joined ∧ all_joined ans sl joined.

#[export] Instance race_runner {W}
    (schedule : list Slot → W → list completion * (nat → bool) * W)
    (Hs : fair_schedule schedule) :
  StageRunner ans (λ accept sl w, let '(joined, started, w) := schedule sl w in
                                  (race accept sl joined started, w)).
Proof.
  split; intros accept sl w.
  - intros j (s & info & rtt & H1 & H2 & H3 & H4).
    destruct (schedule sl w) as [[joined started] w'] eqn:Es. apply Hs in Es as [Hj Hall].
    simpl. unfold race. destruct (race_loop _ _ _) as [outs won] eqn:Er.
    eapply race_loop_spec in Er as [_ Hw]; [|done|by rewrite length_map]. simpl.
    destruct won; [by eexists|]. destruct (Hall _ _ _ _ H1 H2 H3) as [rtt' Hin].
    apply Hw in Hin. congruence.
  - intros win. destruct (schedule sl w) as [[joined started] w'] eqn:Es.
    apply Hs in Es as [Hj _]. simpl. unfold race.
    destruct (race_loop _ _ _) as [outs won] eqn:Er.
    eapply race_loop_spec in Er as [_ Hw]; [|done|by rewrite length_map]. simpl.
    intros ->. by destruct Hw.
Qed.
End runners.

(** ** Groups *)

Definition rank_at (cs : list HubCandidate) (i : nat) : nat :=
  match cs !! i with Some c => rank_of_role (role c) | None => 0 end.

(** One store: members of one role and one hub name. *)
Definition group_ok (cs : list HubCandidate) (g : list nat) : Prop :=
  ∃ r h, g ≠ [] ∧ Forall (λ i, ∃ c, cs !! i = Some c ∧ role c = r ∧ hub c = h) g.

Record groups_inv (cs : list HubCandidate) (groups : list (list nat)) (done_ : list nat) : Prop := {
  gi_perm : mjoin groups ≡ₚ done_;
  gi_ok : Forall (group_ok cs) groups;
  gi_sorted : ∀ a b ga gb, a < b → groups !! a = Some ga → groups !! b = Some gb →
    ∀ i j, i ∈ ga → j ∈ gb → rank_at cs i ≤ rank_at cs j;
}.

Lemma find_group_Some cs r h pos groups k :
  find_group cs r h pos groups = Some k →
  ∃ k' i g c, k = pos + k' ∧ groups !! k' = Some (i :: g) ∧ cs !! i = Some c ∧
    role c = r ∧ hub c = Some h.
Proof.
  revert pos. induction groups as [|g groups IH]; intros pos; simpl; [done|].
  destruct (match g with [] => false | _ => _ end) eqn:E.
  - intros [= <-]. destruct g as [|i g]; [done|]. destruct (cs !! i) as [c|] eqn:Ec; [|done].
    bool_simplify. destruct E as [Hr Hh]. exists 0, i, g, c. split_and!; (done || lia).
  - intros (k' & i & g' & c & -> & Hk & Hrest)%IH. exists (S k'), i, g', c.
    split; [lia|]. done.
Qed.

Lemma mjoin_alter {A} (groups : list (list A)) k g x :
  groups !! k = Some g → mjoin (alter (λ g, g ++ [x]) k groups) ≡ₚ mjoin groups ++ [x].
Proof.
  revert k. induction groups as [|g' groups IH]; intros [|k] Hk; simplify_eq/=.
  - rewrite <- !app_assoc. apply Permutation_app_head, Permutation_app_comm.
  - change (alter _ (S k) (g' :: groups)) with (g' :: alter (λ g, g ++ [x]) k groups).
    simpl. by rewrite (IH _ Hk), app_assoc.
Qed.

Lemma place_inv cs groups dn i c :
  groups_inv cs groups dn → cs !! i = Some c →
  (∀ j, j ∈ dn → rank_at cs j ≤ rank_at cs i) →
  groups_inv cs (place cs groups (i, c)) (dn ++ [i]).
Proof.
  intros [Hp Hok Hs] Hc Hb. unfold place. simpl.
  assert (Hmem : ∀ a ga j, groups !! a = Some ga → j ∈ ga → j ∈ dn).
  { intros a ga j Ha Hj. rewrite <- Hp. apply list_elem_of_join. exists ga. split; [done|].
    by eapply list_elem_of_lookup_2. }
  destruct (existing_group cs c groups) as [k|] eqn:E.
  - unfold existing_group in E. destruct (hub c) as [h|] eqn:Eh; [|done].
    destruct (is_empty h); [done|].
    apply find_group_Some in E as (k' & i0 & g & c0 & -> & Hg & Hc0 & Hr & Hh). simpl.
    constructor.
    + rewrite mjoin_alter by done. by rewrite Hp.
    + rewrite Forall_lookup in Hok |- *. intros a ga. rewrite list_lookup_alter.
      case_decide as Hak; [subst a|apply Hok]. rewrite Hg. simpl. intros [= <-].
      destruct (Hok _ _ Hg) as (r' & h' & _ & Hf). exists r', h'. split; [done|].
      rewrite app_comm_cons. apply Forall_app. split; [done|]. repeat constructor.
      inversion Hf as [|? ? (c1 & H1 & H2 & H3) _]. exists c. split_and!; congruence.
    + intros a b ga gb Hab. rewrite !list_lookup_alter.
      assert (rank_at cs i = rank_at cs i0) as Hri by (unfold rank_at; rewrite Hc, Hc0; congruence).
      repeat case_decide; subst; try lia; rewrite ?Hg; simpl.
      * intros [= <-] Hgb x y Hx Hy. rewrite app_comm_cons in Hx.
        apply elem_of_app in Hx as [Hx| ->%list_elem_of_singleton]; [by eapply Hs|].
        rewrite Hri. eapply Hs; [exact Hab|exact Hg|exact Hgb|apply list_elem_of_here|done].
      * intros Hga [= <-] x y Hx Hy. rewrite app_comm_cons in Hy.
        apply elem_of_app in Hy as [Hy| ->%list_elem_of_singleton]; [by eapply Hs|].
        rewrite Hri. eapply Hs; [exact Hab|exact Hga|exact Hg|done|apply list_elem_of_here].
      * intros Hga Hgb. by eapply Hs.
  - constructor.
    + rewrite join_app, Hp. simpl. done.
    + apply Forall_app. split; [done|]. constructor; [|done]. exists (role c), (hub c).
      split; [done|]. repeat constructor. eauto.
    + intros a b ga gb Hab Ha Hgb x y Hx Hy. apply lookup_app_Some in Hgb as [Hgb|[Hlb Hgb]].
      * rewrite lookup_app_l in Ha by (apply lookup_lt_Some in Hgb; lia). by eapply (Hs a b).
      * assert (a < length groups) as Hla.
        { apply lookup_lt_Some in Hgb. simpl in Hgb. lia. }
        rewrite lookup_app_l in Ha by done.
        destruct (b - length groups) as [|n]; [|done]. simplify_eq/=.
        apply list_elem_of_singleton in Hy as ->. apply Hb. by eapply Hmem.
Qed.

Lemma elem_of_visit cs ao i c :
  (i, c) ∈ visit_order cs ao ↔ cs !! i = Some c ∧ (ao = true → role c = Authoritative).
Proof.
  unfold visit_order. rewrite list_elem_of_join. change (map ?f ?l) with (f <$> l).
  setoid_rewrite list_elem_of_fmap. split.
  - intros (l & Hin & r & -> & Hr). apply elem_of_filter_b in Hin as [Hin Hro]. bool_simplify.
    apply elem_of_enumerate in Hin. split; [done|]. intros ->.
    apply list_elem_of_singleton in Hr as ->. done.
  - intros [Hc Ha]. eexists. split; [|exists (role c); split; [reflexivity|]].
    + apply elem_of_filter_b. simpl. by rewrite elem_of_enumerate, bool_decide_eq_true_2.
    + destruct ao; [rewrite Ha by done; set_solver|]. destruct (role c); set_solver.
Qed.

Lemma visit_sorted cs ao :
  StronglySorted (λ p q, rank_of_role (role p.2) ≤ rank_of_role (role q.2)) (visit_order cs ao).
Proof.
  assert (∀ rs, StronglySorted (λ r r', rank_of_role r ≤ rank_of_role r') rs →
    StronglySorted (λ p q, rank_of_role (role p.2) ≤ rank_of_role (role q.2))
      (mjoin (map (λ r, List.filter (λ p, bool_decide (role p.2 = r)) (enumerate cs)) rs)))
    as Hgo; [|destruct ao; apply Hgo; repeat constructor; simpl; lia].
  induction 1 as [|r rs Hs IH Hr]; simpl; [constructor|].
  rewrite Forall_forall in Hr. set (tail := mjoin _) in *.
  assert (∀ p, p ∈ tail → rank_of_role r ≤ rank_of_role (role p.2)) as Ht.
  { intros p (l & Hin & Hl)%list_elem_of_join. change (map ?f ?l) with (f <$> l) in Hl.
    apply list_elem_of_fmap in Hl as (r' & -> & Hr'). apply elem_of_filter_b in Hin as [_ Hp].
    bool_simplify. rewrite Hp. by apply Hr. }
  clearbody tail. induction (enumerate cs) as [|p l IHl]; simpl; [done|]. case_bool_decide as Hp; [|done].
  simpl. constructor; [done|]. apply Forall_app. split; apply Forall_forall; intros q Hq.
  - apply elem_of_filter_b in Hq as [_ Hq]. bool_simplify. rewrite Hp, Hq. lia.
  - rewrite Hp. by apply Ht.
Qed.

Lemma store_groups_inv cs ao :
  groups_inv cs (store_groups cs ao) (visit_order cs ao).*1.
Proof.
  unfold store_groups. assert (∀ p, p ∈ visit_order cs ao → cs !! p.1 = Some p.2) as Hin.
  { intros [i c] Hp. by apply elem_of_visit in Hp as [? _]. }
  pose proof (visit_sorted cs ao) as Hs. revert Hin Hs. generalize (visit_order cs ao).
  intros l Hin Hs.
  assert (∀ dn groups, groups_inv cs groups dn →
    (∀ j p, j ∈ dn → p ∈ l → rank_at cs j ≤ rank_at cs p.1) →
    groups_inv cs (foldl (place cs) groups l) (dn ++ l.*1)) as Hgo.
  { induction Hs as [|[i c] l Hs IH Hp]; intros dn groups Hg Hb; simpl; [by rewrite app_nil_r|].
    rewrite (cons_middle _ dn), app_assoc.
    assert (cs !! i = Some c) as Hc by exact (Hin (i, c) ltac:(apply list_elem_of_here)).
    apply IH; [intros p Hp'; apply Hin; by apply list_elem_of_further| |].
    - apply place_inv; [done|done|]. intros j Hj. apply (Hb j (i, c)); [done|].
      apply list_elem_of_here.
    - intros j p [Hj| ->%list_elem_of_singleton]%elem_of_app Hpl.
      + apply Hb; [done|]. by apply list_elem_of_further.
      + rewrite Forall_forall in Hp. specialize (Hp _ Hpl). unfold rank_at.
        rewrite Hc, (Hin p) by (by apply list_elem_of_further). exact Hp. }
  apply (Hgo [] []); [|intros j p []%elem_of_nil].
  constructor; [done|constructor|done].
Qed.

(** ** Plans of groups *)

Lemma nth_in {A} (l : list A) d i : i < length l → l !! i = Some (nth i l d).
Proof. revert i. induction l; intros [|i] Hi; simpl in *; try lia; [done|]. apply IHl. lia. Qed.

Section plans.
Context `{DebugFmt} `{UrlLib}.

Lemma group_plan_indexes cs locs cached ao stg g :
  group_ok cs g → (ao = true → ∀ i, i ∈ g → rank_at cs i = 0) →
  map index (primary (group_plan cs locs cached ao stg g))
    ++ map index (deferred (group_plan cs locs cached ao stg g)) ≡ₚ g.
Proof.
  intros (r & h & _ & Hf) Ha. unfold group_plan.
  set (req := mkPlanRequest _ _ _ _ _). pose proof (plan_covers req) as Hplan.
  set (plan := plan_routes req) in *. clearbody plan. cbn [primary deferred].
  rewrite !map_map. cbn [remap index].
  rewrite <- !(map_map index (λ i, nth i g 0)), <- map_app.
  change (map (λ i, nth i g 0) ?l) with ((λ i, nth i g 0) <$> l).
  rewrite Hplan. subst req. simpl.
  assert (∃ ms, omap (λ i, cs !! i) g = ms ∧ Forall2 (λ i c, cs !! i = Some c) g ms) as (ms & Hm & Hf2).
  { clear - Hf. eexists. split; [reflexivity|].
    induction Hf as [|i g (c & Hc & _) _ IH]; csimpl; [constructor|]. rewrite Hc. by constructor. }
  rewrite Hm, <- (Forall2_length _ _ _ Hf2).
  match goal with |- context [List.filter ?f (seq 0 ?n)] =>
    replace (List.filter f (seq 0 n)) with (seq 0 n) end.
  - clear. induction g as [|x g IH] using rev_ind; simpl; [done|].
    rewrite length_app, seq_app. simpl. rewrite fmap_app. simpl.
    rewrite app_nth2, Nat.sub_diag by lia. simpl.
    rewrite <- IH at 2. f_equiv. apply Permutation_refl', list_fmap_ext.
    intros i y Hy%lookup_seq. rewrite app_nth1 by lia. done.
  - symmetry. apply filter_all. intros i Hi%elem_of_seq. unfold allowed. simpl.
    assert (is_Some (g !! i)) as [k Hk] by (apply lookup_lt_is_Some; lia).
    destruct (Forall2_lookup_l _ _ _ _ _ Hf2 Hk) as (c & Hc & Hcs). rewrite Hc.
    destruct ao; [|done]. simpl. apply bool_decide_eq_true_2.
    apply list_elem_of_lookup_2 in Hk. specialize (Ha eq_refl _ Hk).
    unfold rank_at in Ha. rewrite Hcs in Ha. by destruct (role c).
Qed.
End plans.

(** ** The loop over stages *)

Section loop.
Context `{DebugFmt} `{UrlLib} (ans : string → option (ProbeInfo * Z)) (env : CredentialEnv).

(** A candidate that may be contacted, answers, and is the hub it names. *)
Definition usable (global : option string) (c : HubCandidate) : Prop :=
  (∃ t, authorization c global env = Ok t) ∧
  ∃ info rtt, ans (url c) = Some (info, rtt) ∧ identity_matches c info = true.

Definition in_range (cs : list HubCandidate) (routes : list PlannedRoute) : Prop :=
  Forall (λ r, index r < length cs) routes.

Definition stage_usable (res : Resolution) (routes : list PlannedRoute) : Prop :=
  ∃ r c, r ∈ routes ∧ r_candidates res !! index r = Some c ∧ usable (h_global (r_auth res)) c.

Lemma slots_lookup res routes j :
  in_range (r_candidates res) routes →
  slots env res routes !! j = routes !! j ≫= slot_of env res.
Proof.
  unfold slots. intros Hr. revert j. induction Hr as [|r routes Hr _ IH]; intros j; csimpl; [done|].
  apply lookup_lt_is_Some in Hr as [c Hc]. unfold slot_of at 1. rewrite Hc. simpl.
  destruct j as [|j]; csimpl; [|by apply IH]. unfold slot_of. by rewrite Hc.
Qed.

Lemma acceptable_usable res routes j :
  in_range (r_candidates res) routes →
  acceptable (accepts res routes) ans (slots env res routes) j ↔
  ∃ r c, routes !! j = Some r ∧ r_candidates res !! index r = Some c ∧
    usable (h_global (r_auth res)) c.
Proof.
  intros Hr. unfold acceptable, usable, accepts. rewrite slots_lookup by done.
  destruct (routes !! j) as [r|] eqn:Er; simpl; [|naive_solver].
  destruct (r_candidates res !! index r) as [c|] eqn:Ec; unfold slot_of; rewrite Ec; simpl;
    [|naive_solver].
  unfold credential_for. split.
  - intros (s & info & rtt & [= <-] & Hs & Ha & Hi). simpl in *.
    destruct (authorization c _ env) eqn:E; [|done]. exists r, c. eauto 10.
  - intros (r' & c' & [= <-] & Hc' & (t & Ht) & info & rtt & Ha & Hi).
    rewrite Ec in Hc'. injection Hc' as <-. rewrite Ht. eauto 10.
Qed.

(** The first usable stage gives the backend; without one it is offline. *)
Definition stages_result (res : Resolution) (stages : list (list PlannedRoute))
    (b : HubBackend) : Prop :=
  (∃ pre routes post r c build tried probes,
     stages = pre ++ routes :: post ∧ Forall (λ s, ¬ stage_usable res s) pre ∧
     r ∈ routes ∧ r_candidates res !! index r = Some c ∧
     usable (h_global (r_auth res)) c ∧
     b = Remote (url c) (bool_decide (role c = Authoritative)) build tried probes) ∨
  (Forall (λ s, ¬ stage_usable res s) stages ∧ ∃ tried probes, b = Offline tried probes).

Lemma stages_result_skip res routes stages b :
  ¬ stage_usable res routes → stages_result res stages b →
  stages_result res (routes :: stages) b.
Proof.
  intros Hn [Hl|[Hn' Ho]]; [left|right; by split; [constructor|]].
  destruct Hl as (pre & rt & post & r & c & build & tr & pr & -> & Hpre & Hrest).
  exists (routes :: pre), rt, post, r, c, build, tr, pr. split; [done|].
  split; [by constructor|done].
Qed.

Context (now : Z).
Context {W : Type} (run : (nat → ProbeInfo → bool) → list Slot → W → RaceResult * W)
  `{!StageRunner ans run} (fs_ok : bool).

Lemma run_stages_spec res stages t w b cache w' :
  Forall (in_range (r_candidates res)) stages →
  run_stages env now run fs_ok res stages t w = (b, cache, w') → stages_result res stages b.
Proof.
  intros Hr. revert t w. induction Hr as [|routes stages Hr Hrs IH]; intros t w; simpl.
  { intros [= <- <- <-]. right. eauto. }
  case_bool_decide as Hnil.
  { intros Hrun%IH. apply stages_result_skip; [|done]. subst.
    intros (r & c & []%elem_of_nil & _). }
  destruct (run _ _ w) as [rr w1] eqn:Erun.
  pose proof (run_sound (accepts res routes) (slots env res routes) w) as Hsound.
  pose proof (run_finds (accepts res routes) (slots env res routes) w) as Hfinds.
  rewrite Erun in Hsound, Hfinds. simpl in Hsound, Hfinds.
  destruct (winner rr) as [win|] eqn:Ewin.
  - specialize (Hsound _ eq_refl). apply acceptable_usable in Hsound as (r & c & Hj & Hc & Hu); [|done].
    intros [= <- <- <-]. left.
    assert (nth (w_slot win) routes (mkRoute 0 Lan 0 false) = r) as ->.
    { apply lookup_lt_Some in Hj as Hlt. rewrite (nth_in _ (mkRoute 0 Lan 0 false)) in Hj by done.
      congruence. }
    exists [], routes, stages, r, c. unfold succeed. rewrite Hc. simpl.
    eexists _, _, _. split_and!; try done. by eapply list_elem_of_lookup_2.
  - intros Hrun%IH. apply stages_result_skip; [|done]. intros (r & c & Hin & Hc & Hu). apply list_elem_of_lookup in Hin as [j Hj].
    destruct (Hfinds j) as [? ?]; [|done]. apply acceptable_usable; [done|]. eauto 10.
Qed.
End loop.

(** ** Resolutions *)

Lemma stages_split plans pre routes post :
  stages_of plans = pre ++ routes :: post →
  ∃ k p, plans !! k = Some p ∧ (routes = primary p ∨ routes = deferred p) ∧
    ∀ a pa, a < k → plans !! a = Some pa → primary pa ∈ pre ∧ deferred pa ∈ pre.
Proof.
  revert pre. induction plans as [|p plans IH]; intros pre; unfold stages_of; simpl.
  { by destruct pre. }
  destruct pre as [|x [|y pre]]; simpl; intros Heq; simplify_eq.
  - exists 0, p. split_and!; auto. intros; lia.
  - exists 0, p. split_and!; auto. intros; lia.
  - match goal with H : _ = pre ++ _ |- _ => apply IH in H as (k & q & Hk & Hr & Ha) end.
    exists (S k), q. split_and!; try done. intros [|a] pa Hlt Hpa; simplify_eq/=.
    + set_solver.
    + destruct (Ha a pa) as [? ?]; [lia|done|]. split; by do 2 apply list_elem_of_further.
Qed.

Section resolution.
Context `{DebugFmt} `{UrlLib} (ans : string → option (ProbeInfo * Z)) (env : CredentialEnv).
Context (fp : list HubCandidate → string) (now : Z).

(** What a resolution that began holds. *)
Record began (s : HubSettings) (ao : bool) (locs : option (list string)) (res : Resolution) : Prop := {
  bg_cs : r_candidates res = effective_hub_candidates s;
  bg_auth : h_global (r_auth res) = auth_token s;
  bg_plans : ∃ cached stg, r_plans res =
    map (group_plan (r_candidates res) locs cached ao stg) (store_groups (r_candidates res) ao);
  bg_valid : validate_candidates (r_candidates res) = Ok tt;
  bg_config : hub_config_error s = None;
  bg_some : r_candidates res ≠ [];
}.

Lemma begin_Ok s ao locs network cache res :
  begin fp now s ao locs network cache = Ok res → began s ao locs res.
Proof.
  unfold begin. destruct (_ || _) eqn:E; [done|].
  destruct (bool_decide (effective_hub_candidates s = [])) eqn:En; [done|]. intros Hres.
  injection Hres as <-. bool_simplify. constructor; simpl; try done; [by eexists _, _| |].
  - destruct (validate_candidates _) as [[]|]; done.
  - match goal with H : ¬ is_Some _ |- _ => by apply eq_None_not_Some in H end.
Qed.

Section facts.
Context (s : HubSettings) (ao : bool) (locs : option (list string)) (res : Resolution)
  (Hb : began s ao locs res).
#[local] Abbreviation cs := (r_candidates res).

Lemma group_members k g :
  store_groups cs ao !! k = Some g →
  group_ok cs g ∧ (ao = true → ∀ i, i ∈ g → rank_at cs i = 0).
Proof.
  intros Hk. destruct (store_groups_inv cs ao) as [Hp Hok _]. split.
  - rewrite Forall_lookup in Hok. eauto.
  - intros -> i Hi. assert (i ∈ (visit_order cs true).*1) as Hv.
    { rewrite <- Hp. apply list_elem_of_join. exists g. split; [done|].
      by eapply list_elem_of_lookup_2. }
    apply list_elem_of_fmap in Hv as ([i' c] & -> & Hv). apply elem_of_visit in Hv as [Hc Hr].
    unfold rank_at. simpl. by rewrite Hc, Hr.
Qed.

(** Each plan holds exactly the members of its group. *)
Lemma plan_members k p :
  r_plans res !! k = Some p →
  ∃ g, store_groups cs ao !! k = Some g ∧
    map index (primary p) ++ map index (deferred p) ≡ₚ g.
Proof.
  destruct Hb as [_ _ (cached & stg & ->) _ _ _]. change (map ?f ?l) with (f <$> l) at 1.
  rewrite list_lookup_fmap. intros (g & Hg & ->)%fmap_Some. exists g. split; [done|].
  destruct (group_members _ _ Hg). by apply group_plan_indexes.
Qed.

Lemma plan_route k p routes r :
  r_plans res !! k = Some p → routes = primary p ∨ routes = deferred p → r ∈ routes →
  ∃ g, store_groups cs ao !! k = Some g ∧ index r ∈ g.
Proof.
  intros Hk Hr Hin. destruct (plan_members _ _ Hk) as (g & Hg & Hp). exists g.
  split; [done|]. rewrite <- Hp. apply elem_of_app.
  destruct Hr as [-> | ->]; [left|right]; by apply (list_elem_of_fmap_2 index).
Qed.

Lemma stages_in_range : Forall (in_range cs) (stages_of (r_plans res)).
Proof.
  apply Forall_forall. intros routes Hin. apply list_elem_of_split in Hin as (pre & post & Heq).
  apply stages_split in Heq as (k & p & Hk & Hr & _). apply Forall_forall. intros r Hin.
  destruct (plan_route _ _ _ _ Hk Hr Hin) as (g & Hg & Hi).
  destruct (group_members _ _ Hg) as [(ro & h & _ & Hf) _]. rewrite Forall_forall in Hf.
  destruct (Hf _ Hi) as (c & Hc & _). by eapply lookup_lt_Some.
Qed.

(** Groups come in order of role. *)
Lemma lower_rank_earlier k k' g g' i i' :
  store_groups cs ao !! k = Some g → store_groups cs ao !! k' = Some g' →
  i ∈ g → i' ∈ g' → rank_at cs i' < rank_at cs i → k' < k.
Proof.
  intros Hg Hg' Hi Hi' Hlt. destruct (lt_dec k' k) as [?|Hge]; [done|]. exfalso.
  destruct (decide (k' = k)) as [->|].
  - assert (g' = g) as -> by congruence.
    destruct (group_members _ _ Hg) as [(ro & h & _ & Hf) _]. rewrite Forall_forall in Hf.
    destruct (Hf _ Hi) as (c & Hc & Hr & _), (Hf _ Hi') as (c' & Hc' & Hr' & _).
    unfold rank_at in Hlt. rewrite Hc, Hc', Hr, Hr' in Hlt. lia.
  - destruct (store_groups_inv cs ao) as [_ _ Hs].
    pose proof (Hs k k' g g' ltac:(lia) Hg Hg' _ _ Hi Hi'). lia.
Qed.

(** Every allowed candidate has its route in the stages of its group. *)
Lemma candidate_route i c :
  cs !! i = Some c → (ao = true → role c = Authoritative) →
  ∃ k g p, store_groups cs ao !! k = Some g ∧ i ∈ g ∧ r_plans res !! k = Some p ∧
    ∃ r, index r = i ∧ (r ∈ primary p ∨ r ∈ deferred p).
Proof.
  intros Hc Ha. destruct (store_groups_inv cs ao) as [Hp _ _].
  assert (i ∈ mjoin (store_groups cs ao)) as Hin.
  { rewrite Hp. apply (list_elem_of_fmap_2 fst _ (i, c)). by apply elem_of_visit. }
  apply list_elem_of_join in Hin as (g & Hi & Hg).
  apply list_elem_of_lookup in Hg as [k Hk].
  assert (∃ p, r_plans res !! k = Some p) as [p Hpl].
  { destruct Hb as [_ _ (cached & stg & ->) _ _ _]. change (map ?f ?l) with (f <$> l).
    rewrite list_lookup_fmap, Hk. by eexists. }
  destruct (plan_members _ _ Hpl) as (g' & Hg' & Hperm). rewrite Hk in Hg'. injection Hg' as <-.
  exists k, g, p. split_and!; try done. rewrite <- Hperm in Hi.
  apply elem_of_app in Hi as [Hi|Hi]; apply list_elem_of_fmap in Hi as (r & -> & Hr); eauto.
Qed.
End facts.
End resolution.

(** ** Properties *)

Section properties.
Context `{DebugFmt} `{UrlLib} (ans : string → option (ProbeInfo * Z)) (env : CredentialEnv).
Context (fp : list HubCandidate → string) (now : Z).

(** The configuration is refused: a recorded error or invalid candidates. *)
Definition bad_config (s : HubSettings) : Prop :=
  is_Some (hub_config_error s) ∨ validate_candidates (effective_hub_candidates s) ≠ Ok tt.

(** What a backend reported for [s] means. *)
Definition backend_meaning (s : HubSettings) (ao : bool) (b : HubBackend) : Prop :=
  match b with
  | LocalStore => ¬ bad_config s ∧ effective_hub_candidates s = []
  | Offline _ _ => bad_config s ∨
      ∀ c, c ∈ effective_hub_candidates s → (ao = true → role c = Authoritative) →
        ¬ usable ans env (auth_token s) c
  | Remote u auth _ _ _ =>
      ∃ c, c ∈ effective_hub_candidates s ∧ url c = u ∧
        auth = bool_decide (role c = Authoritative) ∧
        (ao = true → role c = Authoritative) ∧ usable ans env (auth_token s) c ∧
        ∀ c', c' ∈ effective_hub_candidates s →
          rank_of_role (role c') < rank_of_role (role c) → ¬ usable ans env (auth_token s) c'
  end.

Lemma begin_Err s ao locs network cache b :
  begin fp now s ao locs network cache = Err b → backend_meaning s ao b.
Proof.
  unfold begin. destruct (_ || _) eqn:E.
  - intros [= <-]. left. apply orb_true_iff in E as [E|E]; bool_simplify; [by left|right].
    by intros Hv; rewrite Hv in E.
  - destruct (bool_decide (effective_hub_candidates s = [])) eqn:En; [|done]. intros Hb.
    injection Hb as <-. bool_simplify. split; [|done]. intros [?|Hn]; [done|]. apply Hn.
    by destruct (validate_candidates _) as [[]|].
Qed.

(** The winner's stage comes after every stage of a better role. *)
Lemma winner_meaning s ao locs res pre routes post r c :
  began s ao locs res → stages_of (r_plans res) = pre ++ routes :: post →
  Forall (λ st, ¬ stage_usable ans env res st) pre → r ∈ routes →
  r_candidates res !! index r = Some c →
  (ao = true → role c = Authoritative) ∧
  ∀ c', c' ∈ r_candidates res → rank_of_role (role c') < rank_of_role (role c) →
    ¬ usable ans env (h_global (r_auth res)) c'.
Proof.
  intros Hb Hst Hpre Hr Hc. apply stages_split in Hst as (k & p & Hk & Hroutes & Hbefore).
  destruct (plan_route _ _ _ _ Hb _ _ _ _ Hk Hroutes Hr) as (g & Hg & Hi).
  destruct (group_members _ _ _ _ Hb _ _ Hg) as [_ Hao].
  assert (ao = true → role c = Authoritative) as Hrole.
  { intros Hau. specialize (Hao Hau _ Hi). unfold rank_at in Hao. rewrite Hc in Hao.
    by destruct (role c). }
  split; [done|]. intros c' (i & Hc')%list_elem_of_lookup Hrank Hu'.
  destruct (candidate_route _ _ _ _ Hb i c' Hc') as (k' & g' & p' & Hg' & Hi' & Hp' & r' & Hri & Hin).
  { intros Hau. rewrite (Hrole Hau) in Hrank. simpl in Hrank. lia. }
  assert (k' < k) as Hlt.
  { eapply lower_rank_earlier; [exact Hb|exact Hg|exact Hg'|exact Hi|exact Hi'|].
    unfold rank_at. by rewrite Hc, Hc'. }
  destruct (Hbefore _ _ Hlt Hp') as [H1 H2]. rewrite Forall_forall in Hpre.
  destruct Hin as [Hin|Hin]; [apply (Hpre _ H1)|apply (Hpre _ H2)]; exists r', c'; by rewrite Hri.
Qed.

Lemma stages_meaning s ao locs res b :
  began s ao locs res → stages_result ans env res (stages_of (r_plans res)) b →
  backend_meaning s ao b.
Proof.
  intros Hb [(pre & routes & post & r & c & build & tr & pr & Hst & Hpre & Hr & Hc & Hu & ->)|
    (Hnone & tr & pr & ->)]; simpl; rewrite <- (bg_cs _ _ _ _ Hb), <- (bg_auth _ _ _ _ Hb).
  - destruct (winner_meaning _ _ _ _ _ _ _ _ _ Hb Hst Hpre Hr Hc). exists c.
    split_and!; try done. by eapply list_elem_of_lookup_2.
  - right. intros c (i & Hc)%list_elem_of_lookup Hal Hu.
    destruct (candidate_route _ _ _ _ Hb _ _ Hc Hal) as (k & g & p & Hg & Hi & Hp & r & Hri & Hin).
    rewrite Forall_forall in Hnone.
    assert (primary p ∈ stages_of (r_plans res) ∧ deferred p ∈ stages_of (r_plans res)) as [H1 H2].
    { unfold stages_of. split; apply list_elem_of_join; exists [primary p; deferred p];
        (split; [set_solver|apply (list_elem_of_fmap_2 (λ p, [primary p; deferred p]));
                 by eapply list_elem_of_lookup_2]). }
    destruct Hin as [Hin|Hin]; [apply (Hnone _ H1)|apply (Hnone _ H2)]; exists r, c; by rewrite Hri.
Qed.

Lemma resolve_spec {W} (run : (nat → ProbeInfo → bool) → list Slot → W → RaceResult * W)
    `{!StageRunner ans run} fs_ok s ao locs network cache w b cache' w' :
  resolve fp env now run fs_ok s ao locs network cache w = (b, cache', w') →
  begin fp now s ao locs network cache = Err b ∨
  ∃ res, begin fp now s ao locs network cache = Ok res ∧
    stages_result ans env res (stages_of (r_plans res)) b.
Proof.
  unfold resolve. destruct (begin _ _ _ _ _ _ _) as [res|e] eqn:Eb; intros Hr; [right|left].
  - exists res. split; [done|]. apply begin_Ok in Eb.
    eapply run_stages_spec in Hr; [exact Hr|done|by eapply stages_in_range].
  - by simplify_eq.
Qed.

Lemma resolve_meaning {W} (run : (nat → ProbeInfo → bool) → list Slot → W → RaceResult * W)
    `{!StageRunner ans run} fs_ok s ao locs network cache w b cache' w' :
  resolve fp env now run fs_ok s ao locs network cache w = (b, cache', w') →
  backend_meaning s ao b.
Proof.
  intros Hr. destruct (resolve_spec run _ _ _ _ _ _ _ _ _ _ Hr) as [Hb|(res & Hb & Hs)].
  - by eapply begin_Err.
  - apply begin_Ok in Hb. by eapply stages_meaning.
Qed.

(** The first stage that satisfies a predicate is one stage. *)
Lemma first_unique {A} (P : A → Prop) pre x post pre' x' post' :
  pre ++ x :: post = pre' ++ x' :: post' →
  Forall (λ y, ¬ P y) pre → Forall (λ y, ¬ P y) pre' → P x → P x' → x = x'.
Proof.
  revert pre'. induction pre as [|y pre IH]; intros [|y' pre'] Heq Hf Hf' Hx Hx'; simplify_eq/=.
  - done.
  - by inversion Hf'.
  - by inversion Hf.
  - inversion Hf. inversion Hf'. by eapply IH.
Qed.

(** Two backends of one store, or of one kind otherwise. *)
Definition same_store (s : HubSettings) (b b' : HubBackend) : Prop :=
  match b, b' with
  | Remote u auth _ _ _, Remote u' auth' _ _ _ =>
      auth = auth' ∧ ∃ c c', c ∈ effective_hub_candidates s ∧ c' ∈ effective_hub_candidates s ∧
        url c = u ∧ url c' = u' ∧ role c = role c' ∧ hub c = hub c'
  | Offline _ _, Offline _ _ => True
  | LocalStore, LocalStore => True
  | _, _ => False
  end.

Lemma stages_same_store s ao locs res b b' :
  began s ao locs res →
  stages_result ans env res (stages_of (r_plans res)) b →
  stages_result ans env res (stages_of (r_plans res)) b' → same_store s b b'.
Proof.
  intros Hb [(pre & rt & post & r & c & bd & tr & pr & Hst & Hpre & Hr & Hc & Hu & ->)|
    (Hnone & tr & pr & ->)] [(pre' & rt' & post' & r' & c' & bd' & tr' & pr' & Hst' & Hpre' & Hr' & Hc' & Hu' & ->)|
    (Hnone' & tr' & pr' & ->)]; simpl; [| | |done].
  - assert (rt = rt') as <-.
    { rewrite Hst in Hst'. eapply first_unique; [exact Hst'|exact Hpre|exact Hpre'| |];
        eexists _, _; eauto. }
    apply stages_split in Hst as (k & p & Hk & Hroutes & _).
    destruct (plan_route _ _ _ _ Hb _ _ _ _ Hk Hroutes Hr) as (g & Hg & Hi).
    destruct (plan_route _ _ _ _ Hb _ _ _ _ Hk Hroutes Hr') as (g' & Hg' & Hi').
    assert (g' = g) as -> by congruence.
    destruct (group_members _ _ _ _ Hb _ _ Hg) as [(ro & h & _ & Hf) _].
    rewrite Forall_forall in Hf.
    destruct (Hf _ Hi) as (x & Hx & Hxr & Hxh), (Hf _ Hi') as (x' & Hx' & Hxr' & Hxh').
    assert (x = c) as -> by congruence. assert (x' = c') as -> by congruence.
    split; [by rewrite Hxr, Hxr'|]. rewrite <- (bg_cs _ _ _ _ Hb).
    exists c, c'. split_and!; try done; try congruence; by eapply list_elem_of_lookup_2.
  - rewrite Forall_forall in Hnone'. apply (Hnone' rt); [rewrite Hst; set_solver|].
    eexists _, _; eauto.
  - rewrite Forall_forall in Hnone. apply (Hnone rt'); [rewrite Hst'; set_solver|].
    eexists _, _; eauto.
Qed.

(** C26. What serial resolution reports is what it found: a remote backend is a
    configured candidate that may be contacted, answered and is the hub it names;
    no usable candidate of a better role was passed over, so neither the location
    nor the cache ever promotes a fallback or the cloud above the authority; an
    authority-only resolution only ever gives the authority; offline means that
    nothing usable was there or the configuration is refused, and local only that
    nothing is configured. The authoritative flag is the role of the candidate that
    answered, wherever it is listed, and not its place in the list. *)
Theorem resolve_serial_meaning {W} (probe : W → string → option (ProbeInfo * Z) * W)
    (fs_ok : bool) (s : HubSettings) (ao : bool) (locs : option (list string))
    (network : string) (cache : option HubCache) (w w' : W) (b : HubBackend)
    (cache' : option HubCache) :
  (∀ w u, (probe w u).1 = ans u) →
  resolve_serial fp env now probe fs_ok s ao locs network cache w = (b, cache', w') →
  backend_meaning s ao b.
Proof.
  intros Hp Hr. pose proof (walk_runner ans probe Hp) as Hrun. by eapply resolve_meaning.
Qed.

(** Racing finds the same store as walking: from the same configuration, on
    every fair interleaving of the probes, the concurrent resolution gives the same
    kind of backend, and when remote a route to the same store: equal role, equal
    hub name. *)
Theorem concurrent_same_store {W W'} (probe : W → string → option (ProbeInfo * Z) * W)
    (schedule : list Slot → W' → list completion * (nat → bool) * W')
    (fs_ok : bool) (s : HubSettings) (ao : bool) (locs : option (list string))
    (network : string) (cache : option HubCache) (w w1 : W) (v v1 : W')
    (b b' : HubBackend) (k k' : option HubCache) :
  (∀ w u, (probe w u).1 = ans u) → fair_schedule ans schedule →
  resolve_serial fp env now probe fs_ok s ao locs network cache w = (b, k, w1) →
  resolve_concurrent fp env now schedule fs_ok s ao locs network cache v = (b', k', v1) →
  same_store s b b'.
Proof.
  intros Hp Hs Hb Hb'. pose proof (walk_runner ans probe Hp). pose proof (race_runner ans schedule Hs).
  destruct (resolve_spec _ _ _ _ _ _ _ _ _ _ _ Hb) as [Hx|(res & Hx & Hst)],
    (resolve_spec _ _ _ _ _ _ _ _ _ _ _ Hb') as [Hy|(res' & Hy & Hst')];
    rewrite Hx in Hy; simplify_eq.
  - unfold begin in Hx. repeat case_match; simplify_eq; done.
  - by eapply stages_same_store; [eapply begin_Ok| |].
Qed.
End properties.

(** ** The cache *)

Section cache.
Context `{UrlLib}.

(** A stored route is read back within its lifetime under its fingerprint and
    only then: with a usable URL, a lifetime and a clock that has not gone back the
    entry is served exactly while it is younger than the lifetime, aged from the
    millisecond it was stored in. *)
Theorem cache_roundtrip (c : HubCache) (fp fp' u : string) (r : HubRole) (rtt : option Z)
    (now later : Z) :
  ttl c ≠ 0%Z → is_ok (validate_hub_base_url u) = true →
  (0 ≤ now)%Z → (now / MILLIS ≤ U64_MAX)%Z → (now ≤ later)%Z →
  cache_load (store_with_rtt c fp u r rtt now true) fp' later =
    if decide (fp = fp' ∧ (later - now / MILLIS * MILLIS < ttl c)%Z)
    then Some (mkCached u r (later - now / MILLIS * MILLIS) rtt) else None.
Proof.
  intros Ht Hu Hn Hm Hl. unfold store_with_rtt, enabled, cache_load, enabled.
  rewrite (proj2 (Z.eqb_neq _ _) Ht), Hu. simpl.
  destruct (Z.ltb_spec now 0); [lia|]. destruct (Z.ltb_spec U64_MAX (now / MILLIS)); [lia|].
  simpl. rewrite (proj2 (Z.eqb_neq _ _) Ht), Hu. simpl.
  assert (now / MILLIS * MILLIS ≤ now)%Z by (unfold MILLIS; pose proof (Z.mul_div_le now 1000000); lia).
  destruct (Z.ltb_spec later (now / MILLIS * MILLIS)); [lia|].
  case_bool_decide as Hf; simpl; [|by rewrite decide_False by naive_solver].
  destruct (Z.leb_spec (ttl c) (later - now / MILLIS * MILLIS)).
  - rewrite decide_False by (intros [_ ?]; lia). done.
  - by rewrite decide_True.
Qed.
End cache.

(** ** Concrete runs *)

(** Every contactable probe is joined, the last slot first. *)
Definition reverse_schedule (ans : string → option (ProbeInfo * Z)) (sl : list Slot) (w : unit)
    : list completion * (nat → bool) * unit :=
  (rev (omap (λ '(i, s), match skip s with
     | Some _ => None
     | None => Some (Some (i, 1%Z, match ans (slot_url s) with
                                   | Some (info, _) => PHealthy info
                                   | None => PUnhealthy
                                   end))
     end) (enumerate sl)), λ _, true, w).

Lemma reverse_schedule_fair ans : fair_schedule ans (reverse_schedule ans).
Proof.
  intros sl w joined started w'. unfold reverse_schedule. intros [= <- <- <-]. split.
  - apply Forall_rev, Forall_forall. intros c Hc.
    apply list_elem_of_omap in Hc as ([i s] & Hin & Hc). apply elem_of_enumerate in Hin.
    destruct (skip s) eqn:Es; [done|]. injection Hc as <-.
    destruct (ans (slot_url s)) as [[info rtt]|] eqn:Ea; eauto 10.
  - intros i s info rtt Hs Hk Ha. exists 1%Z. rewrite list_elem_of_In, <- in_rev, <- list_elem_of_In.
    apply list_elem_of_omap. exists (i, s). split; [by apply elem_of_enumerate|].
    by rewrite Hk, Ha.
Qed.

Definition demo_settings : HubSettings :=
  mkSettings
    [mkCandidate "http://main.lan" Authoritative Global ["lab"] (Some "main");
     mkCandidate "http://main.local" Authoritative Global [] (Some "main");
     mkCandidate "http://spare.lan" Fallback Global [] None]
    ["http://main.lan"; "http://main.local"; "http://spare.lan"] None (Some "secret") 75.

Definition demo_answers (u : string) : option (ProbeInfo * Z) :=
  if bool_decide (u = "http://main.lan") then Some (mkInfo None (Some "other"), 1%Z)
  else if bool_decide (u = "http://main.local") then Some (mkInfo (Some "v1") (Some "main"), 5%Z)
  else Some (mkInfo (Some "v0") None, 1%Z).

Definition demo_probe (w : nat) (u : string) : option (ProbeInfo * Z) * nat :=
  (demo_answers u, S w).

Lemma resolve_serial_meaning_witness :
  ∃ tried probes cache, @resolve_serial plain_debug plain_urls (λ _, "f") demo_env 0 nat
    demo_probe true demo_settings false (Some ["lab"]) "n" None 0 =
    (Remote "http://main.local" true (Some "v1") tried probes, cache, 2) ∧
  @backend_meaning plain_debug plain_urls demo_answers demo_env demo_settings false
    (Remote "http://main.local" true (Some "v1") tried probes).
Proof.
  eexists _, _, _. split; [vm_compute; reflexivity|].
  eapply (@resolve_serial_meaning plain_debug plain_urls demo_answers demo_env (λ _, "f") 0 nat
    demo_probe true demo_settings false (Some ["lab"]) "n" None 0 2); [done|].
  vm_compute. reflexivity.
Defined.

Lemma concurrent_same_store_witness :
  ∃ b cache, @resolve_concurrent plain_debug plain_urls (λ _, "f") demo_env 0 unit
    (reverse_schedule demo_answers) true demo_settings true None "n" None tt = (b, cache, tt) ∧
  backend_url b = Some "http://main.local" ∧
  ∃ b0, @same_store plain_urls demo_settings b0 b.
Proof.
  eexists _, _. split; [vm_compute; reflexivity|]. split; [reflexivity|]. eexists.
  eapply (@concurrent_same_store plain_debug plain_urls demo_answers demo_env (λ _, "f") 0 nat unit
    demo_probe (reverse_schedule demo_answers) true demo_settings true None "n" None 0 _ tt tt);
    [done|apply reverse_schedule_fair|vm_compute; reflexivity|vm_compute; reflexivity].
Defined.

Lemma cache_roundtrip_witness :
  @cache_load plain_urls (@store_with_rtt plain_urls (mkCache (60 * 1000 * MILLIS) None) "f"
    "http://hub.lan" Authoritative (Some 3%Z) (7 * MILLIS + 5) true) "f" (9 * MILLIS) =
  Some (mkCached "http://hub.lan" Authoritative (2 * MILLIS) (Some 3%Z)).
Proof.
  rewrite (@cache_roundtrip plain_urls); [vm_compute; reflexivity|done|vm_compute; reflexivity|
    by vm_compute..].
Defined.
