(* ===== verification/Redis.v ===== *)
(** * Redis: programs of Redis commands

    The handlers of [channels.rs] talk to a Redis server one command at a time.
    They are programs: trees of commands, clock readings and fresh identifiers,
    run against a server or interleaved with another program. The server is an
    interface: the documented behaviour of the hash commands ([hash_exec]) holds
    for every successful call, a failed call may or may not have taken effect, and
    time never goes back. Keys of other types are never hashes.

    A [SCAN] loop over all cursors is one command whose reply is the concatenation
    of its batches. *)

From Stdlib Require Import ZArith Lia Ascii.
From stdpp Require Import base option list strings gmap.
From S2P Require Import Prelude Str Json Validation ClaimTypes.

(** ** Commands *)

Inductive cmd : Type :=
  | CONNECT
  | HGETALL (key : string)
  | HGET (key field : string)
  | HSET (key : string) (fvs : list (string * string))
  | HSETNX (key field value : string)
  | HDEL (key : string) (fs : list string)
  | DEL (key : string)
  | EXPIRE (key : string) (secs : Z)
  | SCAN (pattern : string)
  | GET (key : string)
  | EXISTS (key : string)
  | SADD (key member : string)
  | SMEMBERS (key : string)
  | XLEN (key : string)
  | XADD (key : string) (maxlen : Z) (fields : list (string * string))
  | XADD_EXPIRE (key : string) (maxlen : Z) (fields : list (string * string)) (secs : Z).

Inductive reply : Type :=
  | RUnit
  | RHash (fvs : list (string * string))
  | ROpt (v : option string)
  | RText (s : string)
  | RKeys (ks : list string)
  | RInt (n : Z).

(** ** Programs *)

Inductive prog (A : Type) : Type :=
  | Ret (a : A)
  | Throw (e : AgentBusError)
  | Panic
  | Now (k : Z → prog A)
  | Fresh (k : string → prog A)
  | Call (c : cmd) (k : result string reply → prog A).
Arguments Ret {A} _.
Arguments Throw {A} _.
Arguments Panic {A}.
Arguments Now {A} _.
Arguments Fresh {A} _.
Arguments Call {A} _ _.

Fixpoint pbind {A B} (p : prog A) (k : A → prog B) : prog B :=
  match p with
  | Ret a => k a
  | Throw e => Throw e
  | Panic => Panic
  | Now f => Now (λ t, pbind (f t) k)
  | Fresh f => Fresh (λ i, pbind (f i) k)
  | Call c f => Call c (λ r, pbind (f r) k)
  end.

Notation "'let!' x ':=' p 'in' k" := (pbind p (fun x => k))
  (at level 10, x pattern, p at level 200, k at level 200) : bus_scope.

(** Errors of [p] as values: [match p { Ok .. Err .. }]. *)
Fixpoint try_ {A} (p : prog A) : prog (result AgentBusError A) :=
  match p with
  | Ret a => Ret (Ok a)
  | Throw e => Ret (Err e)
  | Panic => Panic
  | Now f => Now (λ t, try_ (f t))
  | Fresh f => Fresh (λ i, try_ (f i))
  | Call c f => Call c (λ r, try_ (f r))
  end.

Definition lift {A} (r : Result A) : prog A :=
  match r with Ok a => Ret a | Err e => Throw e end.

Definition or_panic {A} (o : option A) : prog A :=
  match o with Some a => Ret a | None => Panic end.

Definition now : prog Z := Now Ret.
Definition fresh_id : prog string := Fresh Ret.

(** [redis::cmd(..).query(conn)] with the conversion of its reply. *)
Definition query {A} (conv : reply → result string A) (c : cmd) : prog (result string A) :=
  Call c (λ r, Ret (let? v := r in conv v)).

(** [.map_err(|e| Internal(format!("{msg}: {e}")))?]. *)
Definition query_or {A} (msg : string) (conv : reply → result string A) (c : cmd) : prog A :=
  let! r := query conv c in
  match r with
  | Ok a => Ret a
  | Err e => Throw (Internal (msg +:+ ": " +:+ e))
  end.

Definition type_error {A} : result string A := Err "Response was of incompatible type".

Definition as_unit (r : reply) : result string unit := Ok tt.
Definition as_hash (r : reply) : result string (list (string * string)) :=
  match r with RHash l => Ok l | _ => type_error end.
Definition as_opt (r : reply) : result string (option string) :=
  match r with ROpt o => Ok o | _ => type_error end.
Definition as_text (r : reply) : result string string :=
  match r with RText s => Ok s | _ => type_error end.
Definition as_keys (r : reply) : result string (list string) :=
  match r with RKeys l => Ok l | _ => type_error end.
Definition as_int (r : reply) : result string Z :=
  match r with RInt n => Ok n | _ => type_error end.
Definition as_flag (r : reply) : result string bool :=
  match r with RInt n => Ok (negb (n =? 0)%Z) | _ => type_error end.

(** ** The hashes of a server *)

Record hash := mkHash {
  hfields : list (string * string);
  deadline : option Z;
}.

Notation rdb := (gmap string hash).

Definition hlive (d : rdb) (t : Z) (key : string) : option hash :=
  match d !! key with
  | Some h => match deadline h with
              | Some e => if (e <=? t)%Z then None else Some h
              | None => Some h
              end
  | None => None
  end.

Definition live_fields (d : rdb) (t : Z) (key : string) : list (string * string) :=
  match hlive d t key with Some h => hfields h | None => [] end.

Fixpoint set_field (f v : string) (l : list (string * string)) : list (string * string) :=
  match l with
  | [] => [(f, v)]
  | (f', v') :: rest =>
      if bool_decide (f' = f) then (f, v) :: rest else (f', v') :: set_field f v rest
  end.

Definition set_fields (fvs l : list (string * string)) : list (string * string) :=
  foldl (λ l fv, set_field fv.1 fv.2 l) l fvs.

Definition field (f : string) (l : list (string * string)) : option string :=
  snd <$> find (λ kv, bool_decide (kv.1 = f)) l.

Definition drop_fields (fs : list string) (l : list (string * string))
    : list (string * string) :=
  List.filter (λ kv, negb (bool_decide (kv.1 ∈ fs))) l.

Definition put_hash (d : rdb) (t : Z) (key : string) (l : list (string * string)) : rdb :=
  match l with
  | [] => delete key d
  | _ => <[key := mkHash l (hlive d t key ≫= deadline)]> d
  end.

(** What a successful command does to the hashes at time [t], and what its reply
    may be. [HGETALL] promises no order. *)
Definition hash_exec (c : cmd) (t : Z) (d : rdb) : (reply → Prop) * rdb :=
  match c with
  | HGETALL key => (λ r, ∃ l, r = RHash l ∧ l ≡ₚ live_fields d t key, d)
  | HGET key f => (λ r, r = ROpt (field f (live_fields d t key)), d)
  | HSET key fvs => (λ _, True, put_hash d t key (set_fields fvs (live_fields d t key)))
  | HSETNX key f v =>
      (λ _, True,
       match field f (live_fields d t key) with
       | Some _ => d
       | None => put_hash d t key (set_field f v (live_fields d t key))
       end)
  | HDEL key fs =>
      (λ _, True,
       put_hash d t key (drop_fields fs (live_fields d t key)))
  | DEL key => (λ _, True, delete key d)
  | EXPIRE key secs =>
      (λ _, True,
       match hlive d t key with
       | None => d
       | Some h => if (secs <=? 0)%Z then delete key d
                   else <[key := mkHash (hfields h) (Some (t + secs * NANOS)%Z)]> d
       end)
  | _ => (λ _, True, d)
  end.

Class RedisServer := {
  server : Type;
  call : cmd → server → result string reply * server;
  read_clock : server → Z * server;
  make_id : server → string * server;
  rtime : server → Z;
  rdata : server → rdb;
}.

Class RedisLaws `{RedisServer} := {
  call_Ok c s r s' : call c s = (Ok r, s') →
    ∃ t, (rtime s ≤ t ≤ rtime s')%Z ∧ (hash_exec c t (rdata s)).1 r ∧
      rdata s' = (hash_exec c t (rdata s)).2;
  call_Err c s e s' : call c s = (Err e, s') →
    ∃ t, (rtime s ≤ t ≤ rtime s')%Z ∧
      (rdata s' = rdata s ∨ rdata s' = (hash_exec c t (rdata s)).2);
  clock_law s t s' : read_clock s = (t, s') →
    (rtime s ≤ t ≤ rtime s')%Z ∧ rdata s' = rdata s;
  id_law s i s' : make_id s = (i, s') → (rtime s ≤ rtime s')%Z ∧ rdata s' = rdata s;
}.

(** ** Running *)

Inductive outcome (A : Type) : Type :=
  | Done (a : A)
  | Failed (e : AgentBusError)
  | Panicked.
Arguments Done {A} _.
Arguments Failed {A} _.
Arguments Panicked {A}.

Section run.
Context `{RedisServer}.

(** Alone on the server. *)
Fixpoint run {A} (p : prog A) (s : server) : outcome A * server :=
  match p with
  | Ret a => (Done a, s)
  | Throw e => (Failed e, s)
  | Panic => (Panicked, s)
  | Now k => let '(t, s) := read_clock s in run (k t) s
  | Fresh k => let '(i, s) := make_id s in run (k i) s
  | Call c k => let '(r, s) := call c s in run (k r) s
  end.

(** One command of a program. *)
Definition step {A} (p : prog A) (s : server) : prog A * server :=
  match p with
  | Now k => let '(t, s) := read_clock s in (k t, s)
  | Fresh k => let '(i, s) := make_id s in (k i, s)
  | Call c k => let '(r, s) := call c s in (k r, s)
  | _ => (p, s)
  end.

(** Two programs on one server: the schedule says which steps next. *)
Fixpoint interleave {A B} (sched : list bool) (p : prog A) (q : prog B) (s : server)
    : prog A * prog B * server :=
  match sched with
  | [] => (p, q, s)
  | true :: rest => let '(p, s) := step p s in interleave rest p q s
  | false :: rest => let '(q, s) := step q s in interleave rest p q s
  end.

Lemma run_bind {A B} (p : prog A) (k : A → prog B) s :
  run (pbind p k) s =
  match run p s with
  | (Done a, s') => run (k a) s'
  | (Failed e, s') => (Failed e, s')
  | (Panicked, s') => (Panicked, s')
  end.
Proof.
  revert s. induction p as [a|e| |f IH|f IH|c f IH]; intros s; simpl; try done.
  - destruct (read_clock s) as [t s']. apply IH.
  - destruct (make_id s) as [i s']. apply IH.
  - destruct (call c s) as [r s']. apply IH.
Qed.

Lemma run_try {A} (p : prog A) s :
  run (try_ p) s =
  match run p s with
  | (Done a, s') => (Done (Ok a), s')
  | (Failed e, s') => (Done (Err e), s')
  | (Panicked, s') => (Panicked, s')
  end.
Proof.
  revert s. induction p as [a|e| |f IH|f IH|c f IH]; intros s; simpl; try done.
  - destruct (read_clock s) as [t s']. apply IH.
  - destruct (make_id s) as [i s']. apply IH.
  - destruct (call c s) as [r s']. apply IH.
Qed.
End run.

(** Field lists. *)

Lemma elem_of_set_field f v l kv : kv ∈ set_field f v l → kv = (f, v) ∨ kv ∈ l.
Proof.
  induction l as [|[f' v'] l IH]; simpl; [rewrite list_elem_of_singleton; auto|].
  case_bool_decide; rewrite !elem_of_cons; naive_solver.
Qed.

Lemma fields_of_set_field f v l g : g ∈ (set_field f v l).*1 → g = f ∨ g ∈ l.*1.
Proof.
  intros Hg. apply list_elem_of_fmap in Hg as (kv & -> & Hkv).
  apply elem_of_set_field in Hkv as [-> | Hkv]; [by left|right].
  by apply list_elem_of_fmap_2.
Qed.

Lemma NoDup_set_field f v l : NoDup l.*1 → NoDup (set_field f v l).*1.
Proof.
  induction l as [|[f' v'] l IH]; csimpl; intros Hl; [apply NoDup_singleton|].
  apply NoDup_cons in Hl as [Hf Hl]. case_bool_decide as E; csimpl; apply NoDup_cons.
  - by subst.
  - split; [|by apply IH]. intros Hin. apply fields_of_set_field in Hin as [-> | Hin]; done.
Qed.

Lemma field_set_field f v l g :
  field g (set_field f v l) = if bool_decide (g = f) then Some v else field g l.
Proof.
  unfold field. induction l as [|[f' v'] l IH]; simpl.
  - rewrite (bool_decide_ext (f = g) (g = f)) by naive_solver. by case_bool_decide.
  - destruct (decide (f' = f)) as [-> | E].
    + rewrite bool_decide_eq_true_2 by done. simpl.
      rewrite (bool_decide_ext (f = g) (g = f)) by naive_solver. by case_bool_decide.
    + rewrite (bool_decide_eq_false_2 (f' = f)) by done. simpl.
      destruct (decide (f' = g)) as [<- | E'].
      * by rewrite (bool_decide_eq_true_2 (f' = f')), bool_decide_eq_false_2.
      * by rewrite (bool_decide_eq_false_2 (f' = g)).
Qed.

Lemma field_drop_fields fs l g :
  field g (drop_fields fs l) = if bool_decide (g ∈ fs) then None else field g l.
Proof.
  unfold field, drop_fields. induction l as [|[f v] l IH]; simpl; [by case_bool_decide|].
  destruct (decide (f = g)) as [-> | Hne].
  - destruct (bool_decide (g ∈ fs)) eqn:E; simpl; [done|].
    by rewrite (bool_decide_eq_true_2 (g = g)).
  - rewrite (bool_decide_eq_false_2 (f = g)) by done.
    destruct (bool_decide (f ∈ fs)); simpl; [exact IH|].
    by rewrite (bool_decide_eq_false_2 (f = g)).
Qed.

Lemma set_field_not_nil f v l : set_field f v l ≠ [].
Proof. destruct l as [|[f' v'] l]; simpl; [done|]. by case_bool_decide. Qed.

(** ** A server in memory

    Each reading of the clock, command and identifier advances time by [m_step]. *)

Record mem := mkMem { m_data : rdb; m_time : Z; m_step : N; m_scan : list string }.

Definition mem_tick (s : mem) (d : rdb) : mem :=
  mkMem d (m_time s + Z.of_N (m_step s))%Z (m_step s) (m_scan s).

Definition mem_reply (c : cmd) (s : mem) : reply :=
  match c with
  | HGETALL key => RHash (live_fields (m_data s) (m_time s) key)
  | HGET key f => ROpt (field f (live_fields (m_data s) (m_time s) key))
  | SCAN _ => RKeys (m_scan s)
  | GET _ => ROpt None
  | SMEMBERS _ => RKeys []
  | XADD _ _ _ | XADD_EXPIRE _ _ _ _ => RText "0-1"
  | EXISTS _ | XLEN _ => RInt 1
  | _ => RUnit
  end.

Definition mem_server : RedisServer :=
  {| server := mem;
     call c s := (Ok (mem_reply c s), mem_tick s (hash_exec c (m_time s) (m_data s)).2);
     read_clock s := (m_time s, mem_tick s (m_data s));
     make_id s := ("id", mem_tick s (m_data s));
     rtime := m_time;
     rdata := m_data |}.

Lemma mem_laws : @RedisLaws mem_server.
Proof.
  constructor; simpl.
  - intros c s r s' [= <- <-]. exists (m_time s). split_and!; simpl; [lia|lia| |done].
    destruct c; simpl; try done. by eexists.
  - done.
  - intros s t s' [= <- <-]. simpl. lia || (split; [lia|done]).
  - intros s i s' [= <- <-]. simpl. split; [lia|done].
Qed.
