(* ===== verification/Channels.v ===== *)
(** * Channels: direct messages, groups, escalations and resource events

    The posting operations of [crates/agent-bus-core/src/channels.rs] and
    [emit_resource_event] of [redis_bus.rs], as programs of Redis commands. Reading
    streams back (decoding [XREVRANGE] replies) is not modelled. *)

From Stdlib Require Import ZArith Lia Ascii.
From stdpp Require Import base option list strings gmap.
From S2P Require Import Prelude Str Json Validation ClaimTypes Redis.

Definition PROTOCOL_VERSION : string := "1.0".
Definition RESOURCE_EVENT_PREFIX : string := "agent_bus:resource_events:".
Definition RESOURCE_EVENT_MAXLEN : Z := 1000.
Definition RESOURCE_EVENT_TTL_SECS : Z := 259200.
Definition ESCALATION_STREAM : string := "bus:escalations".

(** ** Data *)

Inductive Sensitivity : Type := InternalSensitivity | NoOffsite.

Definition sensitivity_as_str (s : Sensitivity) : string :=
  match s with InternalSensitivity => "internal" | NoOffsite => "no-offsite" end.
Definition sensitivity_parse (raw : string) : option Sensitivity :=
  if bool_decide (raw = "internal") then Some InternalSensitivity
  else if bool_decide (raw = "no-offsite") then Some NoOffsite
  else None.

Record Message := mkMessage {
  m_id : string;
  m_timestamp_utc : string;
  m_protocol_version : string;
  m_from : string;
  m_to : string;
  m_topic : string;
  m_body : string;
  m_thread_id : option string;
  m_tags : list string;
  m_priority : string;
  m_request_ack : bool;
  m_reply_to : option string;
  m_metadata : json;
  m_stream_id : option string;
  m_client_msg_id : option string;
  m_origin_hub : option string;
  m_origin_seq : option Z;
  m_hlc : option string;
  m_sensitivity : option Sensitivity;
}.

Record Presence := mkPresence {
  p_agent : string;
  p_status : string;
  p_protocol_version : string;
  p_timestamp_utc : string;
  p_session_id : string;
  p_capabilities : list string;
  p_metadata : json;
  p_ttl_seconds : Z;
}.

Record GroupInfo := mkGroup {
  g_name : string;
  g_members : list string;
  g_created_at : string;
  g_created_by : string;
  g_message_count : Z;
}.

(** The part of [Settings] these operations read. *)
Record BusSettings := mkBus { presence_prefix : string }.

(** [serde_json] on the values stored in Redis. *)
Class StoreText := {
  json_text : json → string;
  strings_text : list string → string;
  presence_of_text : string → option Presence;
}.

Section channels.
Context `{UnicodeCase} `{UnicodeAlnum} `{Chrono} `{StoreText}.

(** [connect]: the commands of an operation use the connection it opened; which of
    several operations share one makes no difference to the server. *)
Definition connect : prog unit :=
  query_or "Redis connection failed for all loopback candidates" as_unit CONNECT.

(** ** Streams *)

Definition xadd_to_stream (stream_key from to topic body : string) (thread_id : option string)
    (tags : list string) (priority : string) (metadata : json) : prog Message :=
  let! _ := lift (reject_nul_bytes topic "topic") in
  let! _ := lift (reject_nul_bytes body "body") in
  if (MAX_TOPIC_LEN <? str_len topic)%Z
  then Throw (InvalidParams ("topic exceeds maximum length of " +:+ dec MAX_TOPIC_LEN))
  else if (MAX_BODY_LEN <? str_len body)%Z
  then Throw (InvalidParams ("body exceeds maximum length of " +:+ dec MAX_BODY_LEN))
  else
    let! msg_id := fresh_id in
    let! t := now in
    let ts := format_timestamp t in
    let thread_str := from_option id "" thread_id in
    let fields :=
      [("id", msg_id); ("timestamp_utc", ts); ("protocol_version", PROTOCOL_VERSION);
       ("from", from); ("to", to); ("topic", topic); ("body", body);
       ("tags", strings_text tags); ("priority", priority); ("request_ack", "false");
       ("reply_to", from); ("metadata", json_text metadata)]
      ++ (if is_empty thread_str then [] else [("thread_id", thread_str)]) in
    let! stream_id := query_or "XADD to channel stream failed" as_text
                        (XADD stream_key CHANNEL_STREAM_MAXLEN fields) in
    let ttl := if starts_with stream_key DIRECT_PREFIX then DIRECT_STREAM_TTL_SECS
               else GROUP_MEMBERS_TTL_SECS in
    let! _ := query_or "EXPIRE channel stream failed" as_unit (EXPIRE stream_key ttl) in
    Ret (mkMessage msg_id ts PROTOCOL_VERSION from to topic body thread_id tags priority false
           (Some from) metadata (Some stream_id) None None None None None).

(** ** Direct messages *)

Definition post_direct (sender recipient topic body : string) (thread_id : option string)
    (tags : list string) : prog Message :=
  let! _ := lift (reject_nul_in_fields [(sender, "sender"); (recipient, "recipient")]) in
  if is_empty sender then Throw (InvalidParams "sender must not be empty")
  else if is_empty recipient then Throw (InvalidParams "recipient must not be empty")
  else if is_empty body then Throw (InvalidParams "body must not be empty")
  else
    let! _ := connect in
    xadd_to_stream (direct_key sender recipient) sender recipient topic body thread_id tags
      "normal" (obj [("channel", JStr "direct"); ("recipient", JStr recipient)]).

(** ** Groups *)

Definition valid_group_name (nm : string) : bool :=
  forallb (λ c, char_alphanumeric c || bool_decide (c = "-") || bool_decide (c = "_")) (chars nm).

Definition list_group_info (nm : string) : prog GroupInfo :=
  let! raw := query_or "SMEMBERS group members failed" as_keys (SMEMBERS (group_members_key nm)) in
  let members := sort_by str_le raw in
  let! created_at := query_or "HGET group meta created_at failed" as_opt
                       (HGET (group_meta_key nm) "created_at") in
  let! created_by := query_or "HGET group meta created_by failed" as_opt
                       (HGET (group_meta_key nm) "created_by") in
  let! count := query as_int (XLEN (group_stream_key nm)) in
  Ret (mkGroup nm members (from_option id "" created_at) (from_option id "" created_by)
         match count with Ok n => n | Err _ => 0%Z end).

Fixpoint add_members (key : string) (members : list string) : prog unit :=
  match members with
  | [] => Ret tt
  | m :: rest =>
      let! _ := query_or "SADD group members failed" as_unit (SADD key m) in
      add_members key rest
  end.

Definition create_group (nm : string) (members : list string) (created_by : string)
    : prog GroupInfo :=
  if is_empty nm then Throw (InvalidParams "group name must not be empty")
  else if negb (valid_group_name nm)
  then Throw (InvalidParams
    "group name may only contain alphanumerics, hyphens, and underscores")
  else
    let! _ := connect in
    let members_key := group_members_key nm in
    let meta_key := group_meta_key nm in
    let! _ := add_members members_key members in
    let! t := now in
    let! _ := query_or "HSETNX group meta created_at failed" as_unit
                (HSETNX meta_key "created_at" (format_timestamp t)) in
    let! _ := query_or "HSETNX group meta created_by failed" as_unit
                (HSETNX meta_key "created_by" created_by) in
    let! _ := query_or "EXPIRE group members failed" as_unit
                (EXPIRE members_key GROUP_MEMBERS_TTL_SECS) in
    list_group_info nm.

Definition post_to_group (group_name sender topic body : string) (thread_id : option string)
    : prog Message :=
  let! _ := lift (reject_nul_in_fields [(group_name, "group_name"); (sender, "sender")]) in
  if is_empty body then Throw (InvalidParams "body must not be empty")
  else
    let stream_key := group_stream_key group_name in
    let! _ := connect in
    let! exists_ := query_or "EXISTS group members check failed" as_flag
                      (EXISTS (group_members_key group_name)) in
    if negb exists_
    then Throw (InvalidParams ("group '" +:+ group_name +:+ "' does not exist"))
    else
      xadd_to_stream stream_key sender group_name topic body thread_id
        ["group:" +:+ group_name] "normal"
        (obj [("channel", JStr "group"); ("group", JStr group_name)]).

(** ** Escalations *)

Fixpoint get_presences (keys : list string) : prog (list Presence) :=
  match keys with
  | [] => Ret []
  | key :: rest =>
      let! value := query_or "GET failed" as_opt (GET key) in
      let! ps := get_presences rest in
      Ret (match value ≫= presence_of_text with Some p => p :: ps | None => ps end)
  end.

Definition bus_list_presence (s : BusSettings) : prog (list Presence) :=
  let! keys := query_or "SCAN failed" as_keys (SCAN (presence_prefix s +:+ "*")) in
  let! ps := get_presences keys in
  Ret (sort_by (λ a b, str_le (p_agent a) (p_agent b)) ps).

Definition find_orchestrator (s : BusSettings) : prog string :=
  let! _ := connect in
  let! ps := bus_list_presence s in
  match find (λ p, bool_decide (p_status p = "online")
                   && existsb (λ c, bool_decide (c ∈ ["orchestration"; "orchestrator"]))
                        (p_capabilities p)) ps with
  | Some p => Ret (p_agent p)
  | None => Throw (Internal "no orchestrator agent found in presence")
  end.

Definition post_escalation (s : BusSettings) (sender body : string) (thread_id : option string)
    (tags : list string) : prog Message :=
  if is_empty body then Throw (InvalidParams "escalation body must not be empty")
  else
    let! found := try_ (find_orchestrator s) in
    let recipient := match found with Ok a => a | Err _ => "all" end in
    let! _ := connect in
    xadd_to_stream ESCALATION_STREAM sender recipient "escalation" body thread_id
      (tags ++ ["escalation"]) "high"
      (obj [("channel", JStr "escalate"); ("escalation", JBool true);
            ("original_sender", JStr sender)]).

(** ** Resource events *)

Definition resource_event_stream_key (res : string) : string :=
  RESOURCE_EVENT_PREFIX +:+ replace_char "\" "/" res.

Definition emit_resource_event (event agent res : string) : prog string :=
  let! _ := lift (reject_nul_in_fields
                    [(event, "event"); (agent, "agent"); (res, "resource")]) in
  let! t := now in
  query_or "XADD + EXPIRE resource event failed" as_text
    (XADD_EXPIRE (resource_event_stream_key res) RESOURCE_EVENT_MAXLEN
       [("event", event); ("agent", agent); ("resource", res);
        ("timestamp", format_timestamp t)] RESOURCE_EVENT_TTL_SECS).
End channels.
