(* ===== verification/Messages.v ===== *)
(** * Messages: preparing a bus message

    The pure half of posting in [redis_bus.rs] ([prepare_message] and the keys and
    decisions around it) and the acknowledgement deadlines of [models.rs]. LZ4 with
    base64 are the functions of the interface [BodyCodec]; fresh identifiers and the
    clock are arguments. *)

From Stdlib Require Import ZArith Lia Ascii.
From stdpp Require Import base option list strings.
From S2P Require Import Prelude Str Json Validation ClaimTypes Redis Channels.

(** ** Keys and constants *)

Definition COMPRESS_THRESHOLD : Z := 512.
Definition NOTIFICATION_STREAM_TTL_SECS : Z := 259200.
Definition NOTIFICATION_STREAM_PREFIX : string := "agent_bus:notify:".
Definition ACK_DEADLINE_PREFIX : string := "agent_bus:ack_deadline:".
Definition ACK_DEADLINE_RETENTION_SECS : Z := 604800.

Definition notification_stream_key (ag : string) : string := NOTIFICATION_STREAM_PREFIX +:+ ag.

Definition notification_reason (msg : Message) : string :=
  if bool_decide (m_topic msg = "knock") then "knock"
  else if m_request_ack msg then "direct_request_ack"
  else "direct_message".

Definition should_publish_message_event (msg : Message) (has_sse_subscribers : bool) : bool :=
  has_sse_subscribers || (negb (is_empty (m_to msg)) && negb (bool_decide (m_to msg = "all"))).

(** ** Acknowledgement deadlines *)

Record AckDeadline := mkDeadline {
  ad_message_id : string;
  ad_recipient : string;
  ad_deadline_at : string;
  ad_escalation_level : Z;
  ad_escalated_to : option string;
}.

Definition ack_deadline_seconds (priority : string) : Z :=
  if bool_decide (priority ∈ ["critical"; "urgent"]) then 60
  else if bool_decide (priority = "high") then 120
  else 300.

Definition ack_deadline_key_ttl (deadline_ttl_seconds : Z) : Z :=
  saturating_add deadline_ttl_seconds ACK_DEADLINE_RETENTION_SECS.

(** ** Preparation *)

Record PreparedMessage := mkPrepared {
  pm_message : Message;
  pm_stored_body : string;
  pm_tags_json : string;
  pm_ack_str : string;
  pm_thread_str : string;
  pm_meta_json : string;
  pm_is_compressed : bool;
}.

(** [lz4_flex] and [base64]: LZ4 with the size prepended, and its text. *)
Class BodyCodec := {
  compress_prepend_size : string → string;
  base64_encode : string → string;
}.

Definition lz4_compress_body `{BodyCodec} (body : string) : string :=
  base64_encode (compress_prepend_size body).

(** [map.remove(key)]. *)
Definition remove (key : string) (m : fields) : fields :=
  List.filter (λ kv, negb (bool_decide (kv.1 = key))) m.

Definition first_some {A} (a b : option A) : option A :=
  match a with Some _ => a | None => b end.

(** Metadata with the schema and compression markers. *)
Definition final_metadata (metadata : json) (schema : option string) (compressed : bool)
    (body : string) : json :=
  if bool_decide (is_Some schema) || compressed || bool_decide (is_Some (vget metadata "_schema"))
  then
    let map := match metadata with JObj m => m | _ => [] end in
    let map := remove "_schema" map in
    let map := match schema with Some s => insert "_schema" (JStr s) map | None => map end in
    JObj (if compressed
          then insert "_original_size" (jint (str_len body)) (insert "_compressed" (JStr "lz4") map)
          else map)
  else metadata.

(** Tags with the session's, once. *)
Definition effective_tags (tags : list string) (session_id : option string) : list string :=
  match session_id with
  | Some sid =>
      let tag := "session:" +:+ sid in
      if existsb (λ t, bool_decide (t = tag)) tags then tags else tags ++ [tag]
  | None => tags
  end.

Section prepare.
Context `{Chrono} `{StoreText} `{BodyCodec}.

Definition prepare_message (fresh : string) (now : Z) (from to topic body : string)
    (thread_id : option string) (tags : list string) (priority : string) (request_ack : bool)
    (reply_to : option string) (metadata : json) (session_id : option string)
    (schema : option MessageSchema) : PreparedMessage :=
  let ts := format_timestamp now in
  let reply := from_option (λ s, s) from reply_to in
  let thread := first_some thread_id reply_to in
  let inferred := first_some (schema_as_str <$> schema) (infer_schema_from_topic topic None) in
  let compressed := if (COMPRESS_THRESHOLD <? str_len body)%Z
                    then Some (lz4_compress_body body) else None in
  let is_compressed := bool_decide (is_Some compressed) in
  let meta := final_metadata metadata inferred is_compressed body in
  let tags := effective_tags tags session_id in
  mkPrepared
    (mkMessage fresh ts PROTOCOL_VERSION from to topic body thread tags priority request_ack
       (Some reply) meta None None None None None None)
    (from_option (λ s, s) body compressed) (strings_text tags)
    (if request_ack then "true" else "false") (from_option (λ s, s) "" thread)
    (json_text meta) is_compressed.
End prepare.
