(* ===== verification/StreamEntry.v ===== *)
(** * StreamEntry: reading messages back from a stream

    The decoding half of [redis_bus.rs]: [parse_xrange_result], [decode_stream_entry]
    and the sensitivity of a message ([models.rs]). A reply of the Redis client is a
    tree of values; bytes that are not UTF-8 are replaced as
    [String::from_utf8_lossy] does. JSON text and LZ4 with base64 are the interface
    [EntryText]. *)

From Stdlib Require Import ZArith Lia Ascii.
From stdpp Require Import base option list strings gmap.
From S2P Require Import Prelude Str Json Validation ClaimTypes Redis Channels.

(** ** Replies *)

(** [redis::Value], up to the variants the code reads. *)
Inductive redis_value : Type :=
  | BulkString (b : string)
  | SimpleString (s : string)
  | ArrayValue (l : list redis_value)
  | OtherValue.

(** A continuation byte. *)
Definition cont (a : ascii) : bool := byte_in 128 191 a.

(** The range of the second byte after a first byte of three or four. *)
Definition second_ok (a b : ascii) : bool :=
  if byte_is 224 a then byte_in 160 191 b
  else if byte_is 237 a then byte_in 128 159 b
  else if byte_is 240 a then byte_in 144 191 b
  else if byte_is 244 a then byte_in 128 143 b
  else cont b.

Definition REPLACEMENT : string :=
  String (ascii_of_N 239) (String (ascii_of_N 191) (String (ascii_of_N 189) "")).

(** [String::from_utf8_lossy]: each longest ill-formed start of a character becomes
    one replacement character. *)
Fixpoint from_utf8_lossy (s : string) : string :=
  match s with
  | EmptyString => ""
  | String a t =>
      if byte_in 0 127 a then String a (from_utf8_lossy t)
      else if byte_in 194 223 a then
        match t with
        | String b u => if cont b then String a (String b (from_utf8_lossy u))
                        else REPLACEMENT +:+ from_utf8_lossy t
        | EmptyString => REPLACEMENT
        end
      else if byte_in 224 239 a then
        match t with
        | String b (String c v as u) =>
            if second_ok a b then
              if cont c then String a (String b (String c (from_utf8_lossy v)))
              else REPLACEMENT +:+ from_utf8_lossy u
            else REPLACEMENT +:+ from_utf8_lossy t
        | String b EmptyString =>
            if second_ok a b then REPLACEMENT else REPLACEMENT +:+ from_utf8_lossy t
        | EmptyString => REPLACEMENT
        end
      else if byte_in 240 244 a then
        match t with
        | String b (String c (String d w as v) as u) =>
            if second_ok a b then
              if cont c then
                if cont d then String a (String b (String c (String d (from_utf8_lossy w))))
                else REPLACEMENT +:+ from_utf8_lossy v
              else REPLACEMENT +:+ from_utf8_lossy u
            else REPLACEMENT +:+ from_utf8_lossy t
        | String b (String c EmptyString as u) =>
            if second_ok a b then
              if cont c then REPLACEMENT else REPLACEMENT +:+ from_utf8_lossy u
            else REPLACEMENT +:+ from_utf8_lossy t
        | String b EmptyString =>
            if second_ok a b then REPLACEMENT else REPLACEMENT +:+ from_utf8_lossy t
        | EmptyString => REPLACEMENT
        end
      else REPLACEMENT +:+ from_utf8_lossy t
  end.

(** Texts of the program: those [from_utf8_lossy] leaves alone. *)
Definition utf8 (s : string) : bool := bool_decide (from_utf8_lossy s = s).

Abbreviation entry_fields := (gmap string redis_value).

(** The loop over names and values; a name that is no text skips its value. *)
Fixpoint parse_fields (acc : entry_fields) (raw : list redis_value) : entry_fields :=
  match raw with
  | key :: v :: rest =>
      parse_fields (match key with
                    | BulkString b => <[from_utf8_lossy b := v]> acc
                    | SimpleString s => <[s := v]> acc
                    | _ => acc
                    end) rest
  | _ => acc
  end.

Definition parse_entry (e : redis_value) : option (string * entry_fields) :=
  match e with
  | ArrayValue (BulkString sid :: ArrayValue fields_raw :: _) =>
      Some (from_utf8_lossy sid, parse_fields ∅ fields_raw)
  | _ => None
  end.

Definition parse_xrange_result (raw : list redis_value) : list (string * entry_fields) :=
  omap parse_entry raw.

(** ** Sensitivity *)

Definition NO_OFFSITE_TAG : string := "sensitivity:no-offsite".

Definition from_stored (raw : string) : option Sensitivity :=
  if is_empty raw then None
  else Some (from_option (λ s, s) NoOffsite (sensitivity_parse raw)).

Definition effective_sensitivity (msg : Message) : Sensitivity :=
  match m_sensitivity msg with
  | Some explicit => explicit
  | None =>
      let by_tag := if existsb (λ tag, bool_decide (tag = NO_OFFSITE_TAG)) (m_tags msg)
                    then NoOffsite else InternalSensitivity in
      match vget (m_metadata msg) "sensitivity" with
      | None | Some JNull => by_tag
      | Some (JStr raw) => from_option (λ s, s) NoOffsite (sensitivity_parse raw)
      | Some _ => NoOffsite
      end
  end.

(** ** Decoding *)

(** [str::parse::<u64>]: an optional plus sign, then decimal digits. *)
Fixpoint digits_value (acc : Z) (s : string) : option Z :=
  match s with
  | EmptyString => Some acc
  | String a t =>
      if is_digit a then digits_value (acc * 10 + (Z.of_N (N_of_ascii a) - 48))%Z t else None
  end.

Definition parse_u64 (s : string) : option Z :=
  let body := match strip_prefix s "+" with Some t => t | None => s end in
  if is_empty body then None
  else v ← digits_value 0 body; if (v <=? U64_MAX)%Z then Some v else None.

(** [serde_json] on the texts of an entry, [base64] and [lz4_flex]. [json_storable]
    holds of the values whose text reads back: no float that prints differently, no
    nesting beyond the parser's limit. *)
Class EntryText `{StoreText} := {
  strings_of_text : string → option (list string);
  json_of_text : string → option json;
  base64_decode : string → option string;
  decompress_size_prepended : string → option string;
  json_storable : json → bool;
  strings_of_text_text l : Forall (λ s, utf8 s = true) l →
    strings_of_text (strings_text l) = Some l;
  json_of_text_text v : json_storable v = true → json_of_text (json_text v) = Some v;
  strings_text_utf8 l : utf8 (strings_text l) = true;
  json_text_utf8 v : utf8 (json_text v) = true;
}.

Section decode.
Context `{EntryText}.

(** The closures [get], [get_ref], [get_bool], [get_json_vec] and [get_json_value]. *)
Definition entry_get (fs : entry_fields) (k : string) : string :=
  match fs !! k with
  | Some (BulkString b) => from_utf8_lossy b
  | Some (SimpleString s) => s
  | _ => ""
  end.

Definition entry_get_ref (fs : entry_fields) (k : string) : string :=
  match fs !! k with
  | Some (BulkString b) => b
  | Some (SimpleString s) => s
  | _ => ""
  end.

Definition entry_get_bool (fs : entry_fields) (k : string) : bool :=
  bool_decide (entry_get_ref fs k ∈ ["true"; "True"]).

Definition entry_get_json_vec (fs : entry_fields) (k : string) : list string :=
  match fs !! k with
  | Some (BulkString b) | Some (SimpleString b) => from_option (λ l, l) [] (strings_of_text b)
  | _ => []
  end.

Definition entry_get_json_value (fs : entry_fields) (k : string) : json :=
  match fs !! k with
  | Some (BulkString b) | Some (SimpleString b) => from_option (λ v, v) (JObj []) (json_of_text b)
  | _ => JObj []
  end.

Definition non_empty (v : string) : option string := if is_empty v then None else Some v.

(** The first four bytes are the claimed size of the output. *)
Definition claimed_size (compressed : string) : option Z :=
  match compressed with
  | String a (String b (String c (String d _))) =>
      Some (Z.of_N (N_of_ascii a) + 256 * Z.of_N (N_of_ascii b) + 65536 * Z.of_N (N_of_ascii c)
            + 16777216 * Z.of_N (N_of_ascii d))%Z
  | _ => None
  end.

Definition MAX_DECOMPRESSED_BODY_LEN : Z := MAX_BODY_LEN * 16.

Definition lz4_decompress_body (encoded : string) : option string :=
  compressed ← base64_decode encoded;
  if from_option (λ size, (MAX_DECOMPRESSED_BODY_LEN <? size)%Z) false (claimed_size compressed)
  then None
  else raw ← decompress_size_prepended compressed; if utf8 raw then Some raw else None.

Definition entry_body (fs : entry_fields) : string :=
  let raw := entry_get fs "body" in
  if bool_decide (entry_get_ref fs "_compressed" = "lz4")
  then from_option (λ b, b) raw (lz4_decompress_body raw)
  else raw.

Definition decode_stream_entry (fs : entry_fields) : Message :=
  let get := entry_get fs in
  mkMessage (get "id") (get "timestamp_utc") (get "protocol_version") (get "from") (get "to")
    (get "topic") (entry_body fs)
    (if is_empty (get "thread_id") || bool_decide (get "thread_id" = "None") then None
     else Some (get "thread_id"))
    (entry_get_json_vec fs "tags")
    (if is_empty (get "priority") then "normal" else get "priority")
    (entry_get_bool fs "request_ack")
    (if is_empty (get "reply_to") then None else Some (get "reply_to"))
    (entry_get_json_value fs "metadata") None
    (non_empty (get "client_msg_id")) (non_empty (get "origin_hub"))
    (parse_u64 (get "origin_seq")) (non_empty (get "hlc")) (from_stored (get "sensitivity")).

Definition set_stream_id (m : Message) (sid : string) : Message :=
  mkMessage (m_id m) (m_timestamp_utc m) (m_protocol_version m) (m_from m) (m_to m) (m_topic m)
    (m_body m) (m_thread_id m) (m_tags m) (m_priority m) (m_request_ack m) (m_reply_to m)
    (m_metadata m) (Some sid) (m_client_msg_id m) (m_origin_hub m) (m_origin_seq m) (m_hlc m)
    (m_sensitivity m).
End decode.

(** ** Stream identifiers

    [ms-seq], compared as a pair; as one integer, [ms * 2^64 + seq]. A lone [ms]
    has sequence number zero. *)

Definition stream_rank (id : string) : option Z :=
  match split_once "-" id with
  | Some (ms, seq) => a ← parse_u64 ms; b ← parse_u64 seq; Some (a * 2 ^ 64 + b)%Z
  | None => a ← parse_u64 id; Some (a * 2 ^ 64)%Z
  end.

(** ** Facts *)

(** A stored sensitivity fails closed: only the exact text allows replication. *)
Lemma from_stored_internal raw :
  from_stored raw = Some InternalSensitivity ↔ raw = "internal".
Proof.
  unfold from_stored, sensitivity_parse, is_empty. split.
  - repeat case_bool_decide; naive_solver.
  - by intros ->.
Qed.

Lemma digits_value_snoc s a acc :
  digits_value acc (s +:+ String a "") =
  (v ← digits_value acc s;
   if is_digit a then Some (v * 10 + (Z.of_N (N_of_ascii a) - 48))%Z else None).
Proof.
  revert acc. induction s as [|b s IH]; intros acc; simpl; [done|].
  destruct (is_digit b); [apply IH|done].
Qed.

Lemma digit_char_value n :
  (0 ≤ n < 10)%Z → is_digit (digit_char n) = true ∧
  (Z.of_N (N_of_ascii (digit_char n)) - 48)%Z = n.
Proof.
  intros Hn. assert (n = 0 ∨ n = 1 ∨ n = 2 ∨ n = 3 ∨ n = 4 ∨ n = 5 ∨ n = 6 ∨ n = 7 ∨ n = 8
    ∨ n = 9)%Z as Hc by lia.
  destruct_or! Hc; subst; by vm_compute.
Qed.

(** Reading continues with the digits that printing had put behind. *)
Lemma digits_value_dec_go fuel n rest :
  (0 ≤ n < 10 ^ Z.of_nat fuel)%Z →
  ∀ acc, (∃ k, digits_value acc (dec_go fuel n rest) = digits_value (acc * 10 ^ k + n) rest ∧
    (0 ≤ k)%Z) ∧ (fuel ≠ 0 → dec_go fuel n rest ≠ "").
Proof.
  revert n rest. induction fuel as [|fuel IH]; intros n rest Hn acc.
  { split; [|done]. exists 0%Z. simpl in *. split; [f_equal; lia|lia]. }
  cbn [dec_go]. pose proof (Z.mod_pos_bound n 10 ltac:(lia)) as Hm.
  destruct (digit_char_value (n mod 10) Hm) as [Hd Hv].
  destruct (Z.ltb_spec n 10) as [Hlt|Hge].
  - split; [|done]. exists 1%Z. split; [|lia]. simpl. rewrite Hd, Hv.
    f_equal. rewrite Z.mod_small by lia. lia.
  - assert (0 ≤ n / 10 < 10 ^ Z.of_nat fuel)%Z as Hq.
    { rewrite Nat2Z.inj_succ, Z.pow_succ_r in Hn by lia.
      split; [apply Z.div_pos; lia|apply Z.div_lt_upper_bound; lia]. }
    destruct (IH (n / 10)%Z (String (digit_char (n mod 10)) rest) Hq acc) as [(k & E & Hk) Hne].
    split.
    + exists (k + 1)%Z. split; [|lia]. rewrite E. simpl. rewrite Hd, Hv. f_equal.
      rewrite Z.pow_add_r, Z.pow_1_r by lia. pose proof (Z.div_mod n 10 ltac:(lia)). lia.
    + intros _. destruct fuel as [|fuel]; [|by apply Hne]. simpl in Hq. lia.
Qed.

Lemma dec_go_head fuel n rest :
  (0 ≤ n)%Z → strip_prefix rest "+" = None → strip_prefix (dec_go fuel n rest) "+" = None.
Proof.
  revert n rest. induction fuel as [|fuel IH]; intros n rest Hn Hr; simpl; [done|].
  pose proof (Z.mod_pos_bound n 10 ltac:(lia)) as Hm.
  assert (strip_prefix (String (digit_char (n mod 10)) rest) "+" = None) as Hs.
  { simpl. destruct (digit_char_value (n mod 10) Hm) as [Hd _].
    case_match eqn:E; [|done]. rewrite <- e in Hd. done. }
  destruct (n <? 10)%Z; [done|]. apply IH; [apply Z.div_pos; lia|done].
Qed.

Lemma parse_u64_dec n : is_u64 n → parse_u64 (dec n) = Some n.
Proof.
  unfold is_u64, parse_u64, dec. intros Hn.
  rewrite dec_go_head by (done || lia).
  assert (0 ≤ n < 10 ^ Z.of_nat 40)%Z as Hb by (unfold U64_MAX in Hn; lia).
  destruct (digits_value_dec_go 40 n "" Hb 0%Z) as [(k & E & _) Hne].
  unfold is_empty. rewrite bool_decide_eq_false_2 by (by apply Hne). rewrite E. simpl.
  rewrite (proj2 (Z.leb_le _ _)); [done|lia].
Qed.

Lemma ascii_utf8 s : is_ascii s = true → utf8 s = true.
Proof.
  intros Hs. apply bool_decide_eq_true. unfold is_ascii in Hs.
  induction s as [|a s IH]; simpl in *; [done|]. bool_simplify.
  match goal with Ha : byte_in 0 127 a = true |- _ => rewrite Ha end. by rewrite IH.
Qed.

Lemma dec_utf8 n : utf8 (dec n) = true.
Proof.
  apply ascii_utf8. unfold dec, is_ascii.
  assert (∀ fuel k rest, str_all (byte_in 0 127) rest = true →
    str_all (byte_in 0 127) (dec_go fuel k rest) = true) as Hgo; [|by apply Hgo].
  induction fuel as [|fuel IH]; intros k rest Hr; simpl; [done|].
  assert (str_all (byte_in 0 127) (String (digit_char (k mod 10)) rest) = true) as Hs.
  { simpl. rewrite Hr, andb_true_r. pose proof (Z.mod_pos_bound k 10 ltac:(lia)) as Hm.
    destruct (digit_char_value _ Hm) as [Hd _]. unfold is_digit, byte_in in *.
    apply andb_true_iff in Hd as [H1 H2]. apply N.leb_le in H1, H2.
    apply andb_true_iff. split; apply N.leb_le; lia. }
  destruct (k <? 10)%Z; [done|by apply IH].
Qed.
