(* ===== verification/ReplayScript.v ===== *)
(** * ReplayScript: the replay script of the hub

    [outbox_replay.lua] and the completion script of [finish_claim] in
    [outbox_hub.rs], as programs over the keys of a Redis server. A script runs in
    isolation at one instant, but it is no transaction: any of its writes may fail
    and leaves what was written before. Appends to streams and published events are
    also kept as a log of what others could have read. The key types, expiry and
    replies are Redis's documented ones; [cjson] is an interface. *)

From Stdlib Require Import ZArith Lia Ascii.
From stdpp Require Import base option list strings gmap.
From S2P Require Import Prelude Str Json Validation McpSchema ClaimTypes Outbox Redis.

(** ** Keys of the server *)

Inductive rvalue : Type :=
  | VString (s : string)
  | VStream (entries : list (string * list string))
  | VHash (fvs : list (string * string))
  | VList (items : list string).

Record entry := mkEntry { e_value : rvalue; e_until : option Z }.

Definition type_name (v : rvalue) : string :=
  match v with
  | VString _ => "string"
  | VStream _ => "stream"
  | VHash _ => "hash"
  | VList _ => "list"
  end.

Record hubdb := mkHubDb {
  hd_keys : gmap string entry;
  hd_appended : list (string * list string);
  hd_published : list (string * string);
}.

Definition live_entry (d : hubdb) (now : Z) (key : string) : option rvalue :=
  match hd_keys d !! key with
  | Some e => match e_until e with
              | Some t => if (t <=? now)%Z then None else Some (e_value e)
              | None => Some (e_value e)
              end
  | None => None
  end.

Definition key_type (d : hubdb) (now : Z) (key : string) : string :=
  match live_entry d now key with Some v => type_name v | None => "none" end.

Definition set_keys (d : hubdb) (ks : gmap string entry) : hubdb :=
  mkHubDb ks (hd_appended d) (hd_published d).

(** ** Scripts *)

(** The instant, how many more writes succeed, the stream identifiers Redis assigns
    and how many old entries approximate trimming removes. *)
Record lua_env := mkLua {
  lua_now : Z;
  lua_writes : option nat;
  lua_ids : list string;
  lua_trim : nat;
}.

Record lua_state := mkLuaState { ls_db : hubdb; ls_env : lua_env }.

Definition lua (A : Type) : Type := lua_state → result string A * lua_state.

Definition lret {A} (a : A) : lua A := λ s, (Ok a, s).
(** An error reply: its code is its first word. *)
Definition lerr {A} (code : string) : lua A := λ s, (Err code, s).
Definition lbind {A B} (m : lua A) (k : A → lua B) : lua B :=
  λ s, match m s with
       | (Ok a, s') => k a s'
       | (Err e, s') => (Err e, s')
       end.

Notation "'let$' x ':=' m 'in' k" := (lbind m (fun x => k))
  (at level 10, x pattern, m at level 200, k at level 200) : bus_scope.

(** A read of the keys. *)
Definition lread {A} (f : hubdb → Z → result string A) : lua A :=
  λ s, (f (ls_db s) (lua_now (ls_env s)), s).

(** A write: it fails once the writes have run out. *)
Definition lwrite (f : hubdb → Z → hubdb) : lua unit := λ s,
  match lua_writes (ls_env s) with
  | Some 0 => (Err "ERR", s)
  | n => (Ok tt,
          mkLuaState (f (ls_db s) (lua_now (ls_env s)))
            (mkLua (lua_now (ls_env s)) (pred <$> n) (lua_ids (ls_env s)) (lua_trim (ls_env s))))
  end.

Definition WRONGTYPE {A} : result string A := Err "WRONGTYPE".

Definition redis_GET (key : string) : lua (option string) :=
  lread (λ d now, match live_entry d now key with
                  | None => Ok None
                  | Some (VString s) => Ok (Some s)
                  | Some _ => WRONGTYPE
                  end).

Definition redis_HGET (key f : string) : lua (option string) :=
  lread (λ d now, match live_entry d now key with
                  | None => Ok None
                  | Some (VHash l) => Ok (field f l)
                  | Some _ => WRONGTYPE
                  end).

Definition redis_TYPE (key : string) : lua string := lread (λ d now, Ok (key_type d now key)).

Definition redis_TIME : lua Z := lread (λ _ now, Ok now).

(** [SET key value], with the instant at which it expires ([PX], [EX], [PXAT]). *)
Definition redis_SET (key v : string) (until : option Z) : lua unit :=
  lwrite (λ d _, set_keys d (<[key := mkEntry (VString v) until]> (hd_keys d))).

Definition redis_DEL (ks : list string) : lua unit :=
  lwrite (λ d _, set_keys d (foldr delete (hd_keys d) ks)).

Definition redis_EXPIRE (key : string) (secs : Z) : lua unit :=
  lwrite (λ d now, match live_entry d now key with
                   | Some v => set_keys d (<[key := mkEntry v (Some (now + secs * 1000)%Z)]> (hd_keys d))
                   | None => d
                   end).

Definition redis_PUBLISH (channel payload : string) : lua unit :=
  lwrite (λ d _, mkHubDb (hd_keys d) (hd_appended d) (hd_published d ++ [(channel, payload)])).

Definition stream_entries (d : hubdb) (now : Z) (key : string) : list (string * list string) :=
  match live_entry d now key with Some (VStream l) => l | _ => [] end.

Definition stream_until (d : hubdb) (now : Z) (key : string) : option Z :=
  match live_entry d now key with Some _ => hd_keys d !! key ≫= e_until | None => None end.

(** [XADD key MAXLEN ~ n * fields]: trimming removes old entries, never below [n]. *)
Definition append_entry (key : string) (maxlen : Z) (eid : string) (fs : list string) (trim : nat)
    (d : hubdb) (now : Z) : hubdb :=
  let l := stream_entries d now key ++ [(eid, fs)] in
  let excess := Z.to_nat (Z.of_nat (length l) - maxlen) in
  mkHubDb (<[key := mkEntry (VStream (drop (Nat.min trim excess) l)) (stream_until d now key)]>
             (hd_keys d))
    (hd_appended d ++ [(key, fs)]) (hd_published d).

Definition redis_XADD (key : string) (maxlen : Z) (fs : list string) : lua string :=
  let$ t := redis_TYPE key in
  if negb (bool_decide (t = "none")) && negb (bool_decide (t = "stream")) then lerr "WRONGTYPE"
  else λ s,
    let eid := hd "0-1" (lua_ids (ls_env s)) in
    let e := ls_env s in
    (let$ _ := lwrite (append_entry key maxlen eid fs (lua_trim e)) in lret eid)
      (mkLuaState (ls_db s) (mkLua (lua_now e) (lua_writes e) (tl (lua_ids e)) (lua_trim e))).

(** ** Records the scripts keep *)

Record memo_record := mkMemo {
  mr_state : option string;
  mr_fingerprint : option string;
  mr_response : option string;
  mr_claim_expires_ms : option Z;
}.

Record presence_marker := mkMarker {
  pk_origin_id : string;
  pk_sequence : Z;
  pk_created_ms : Z;
}.

(** [cjson] and Lua's equality of numbers. Decoding is [None] where Lua raises an
    error. *)
Class LuaJson := {
  memo_text : memo_record → string;
  text_memo : string → option memo_record;
  marker_text : presence_marker → string;
  text_marker : string → option presence_marker;
  cjson_decode : string → option json;
  cjson_quote : string → string;
  lua_number_eq : number → number → bool;
  text_memo_text r : text_memo (memo_text r) = Some r;
}.

(** The JSON argument of the script. *)
Record script_input := mkInput {
  i_fingerprint : string;
  i_created_ms : Z;
  i_expires_ms : Z;
  i_origin_id : string;
  i_sequence : Z;
  i_operation : Operation;
  i_key_types : list string;
  i_stream_maxlen : Z;
  i_result_json : string;
  i_created_timestamp : string;
  i_message_fields : list string;
  i_publish : bool;
  i_notification_fields : option (list string);
  i_pending_ack_json : option string;
  i_ack_deadline_json : string;
  i_ack_deadline_seconds : Z;
  i_claim_agent : string;
}.

(** [KEYS[n]]. *)
Definition KEYS (keys : list string) (n : nat) : string := nth (n - 1) keys "".

(** JSON text written with single quotes. *)
Definition js (s : string) : string := replace_char "'" (String (ascii_of_N 34) EmptyString) s.

Definition superseded_text : string := js "{'status':'superseded'}".
Definition pending_text : string := js "{'status':'pending'}".
Definition admission_text : string := js "{'status':'claim_admission'}".
Definition applied_text (res : string) : string :=
  js "{'status':'applied','result':" +:+ res +:+ "}".

Section script.
Context `{LuaJson}.

(** [same(left, right)] on decoded values: an empty array and an empty object are
    both empty tables. *)
Fixpoint lua_same (a b : json) {struct a} : bool :=
  match a, b with
  | JNull, JNull => true
  | JBool x, JBool y => Bool.eqb x y
  | JNum x, JNum y => lua_number_eq x y
  | JStr x, JStr y => bool_decide (x = y)
  | JArr l, JArr l' =>
      (fix all (l l' : list json) : bool :=
         match l, l' with
         | [], [] => true
         | x :: l, y :: l' => lua_same x y && all l l'
         | _, _ => false
         end) l l'
  | JArr [], JObj [] | JObj [], JArr [] => true
  | JObj m, JObj m' =>
      (fix all (m : fields) : bool :=
         match m with
         | [] => true
         | (k, v) :: m => match get m' k with
                          | Some w => lua_same v w && all m
                          | None => false
                          end
         end) m
      && forallb (λ kv, contains_key m kv.1) m'
  | _, _ => false
  end.

Definition is_table (v : json) : bool :=
  match v with JArr _ | JObj _ => true | _ => false end.

(** [v.key]: tables and strings can be indexed, other values raise an error. *)
Definition lua_index (v : json) (key : string) : lua (option json) :=
  match v with
  | JObj m => lret (get m key)
  | JArr _ | JStr _ => lret None
  | _ => lerr "ERR"
  end.

(** A cached claim is returned only while the stored claim is still the one granted. *)
Definition cached_claim (keys : list string) (input : script_input) (record : memo_record)
    (now : Z) : lua (option string) :=
  match mr_claim_expires_ms record with
  | None => lret (Some pending_text)
  | Some deadline =>
      if (deadline <=? now)%Z then lret (Some superseded_text)
      else
        let$ kind := redis_TYPE (KEYS keys 9) in
        if bool_decide (kind = "none") then lret (Some superseded_text)
        else if negb (bool_decide (kind = "hash")) then lret (Some pending_text)
        else
          let$ current := redis_HGET (KEYS keys 9) (i_claim_agent input) in
          match current with
          | None => lret (Some superseded_text)
          | Some current =>
              match cjson_decode current, mr_response record ≫= cjson_decode with
              | Some claim, Some cached =>
                  let$ cached := lua_index cached "result" in
                  match cached with
                  | Some result =>
                      if negb (is_table claim) || negb (is_table result)
                      then lret (Some pending_text)
                      else if lua_same claim result then lret None
                      else lret (Some superseded_text)
                  | None => lret (Some pending_text)
                  end
              | _, _ => lret (Some pending_text)
              end
          end
  end.

(** A request that is already known. *)
Definition recover (keys : list string) (input : script_input) (prior : string) (now : Z)
    : lua string :=
  match text_memo prior with
  | None => lerr "ERR"
  | Some record =>
      if negb (bool_decide (mr_fingerprint record = Some (i_fingerprint input)))
      then lerr "OUTBOX_ID_COLLISION"
      else if bool_decide (i_operation input = ClaimRequest) && (i_expires_ms input <=? now)%Z
      then lret superseded_text
      else if bool_decide (mr_state record = Some "applied") then
        let$ stale := (if bool_decide (i_operation input = ClaimRequest)
                       then cached_claim keys input record now else lret None) in
        match stale with
        | Some answer => lret answer
        | None => match mr_response record with
                  | Some r => lret r
                  | None => lerr "nil"
                  end
        end
      else lret pending_text
  end.

(** The preflight over the key types. *)
Fixpoint preflight (keys types : list string) : lua unit :=
  match keys, types with
  | key :: keys, expected :: types =>
      let$ actual := redis_TYPE key in
      if negb (bool_decide (actual = "none")) && negb (bool_decide (actual = expected))
      then lerr "OUTBOX_KEY_TYPE"
      else preflight keys types
  | _, _ => lret tt
  end.

Definition save (keys : list string) (retention : option Z) (now : Z) (r : memo_record) : lua unit :=
  redis_SET (KEYS keys 1) (memo_text r) ((λ ms, now + ms)%Z <$> retention).

Definition complete (keys : list string) (retention : option Z) (now : Z) (fp response : string)
    : lua string :=
  let$ _ := save keys retention now (mkMemo (Some "applied") (Some fp) (Some response) None) in
  lret response.

(** Whether a newer presence, replayed or live, makes this one stale. *)
Definition newer_marker (input : script_input) (current : option string) : lua bool :=
  match current with
  | None => lret false
  | Some t =>
      match text_marker t with
      | None => lerr "ERR"
      | Some m =>
          lret ((bool_decide (pk_origin_id m = i_origin_id input)
                 && (i_sequence input <=? pk_sequence m)%Z)
                || (i_created_ms input <? pk_created_ms m)%Z)
      end
  end.

Definition newer_presence (input : script_input) (live : option string) : lua bool :=
  match live with
  | None => lret false
  | Some t =>
      match cjson_decode t with
      | None => lerr "ERR"
      | Some v =>
          let$ ts := lua_index v "timestamp_utc" in
          match ts with
          | Some (JStr ts) => lret (negb (str_le ts (i_created_timestamp input)))
          | _ => lret false
          end
      end
  end.

Definition run_presence (keys : list string) (retention : option Z) (input : script_input)
    (now : Z) : lua string :=
  let fp := i_fingerprint input in
  let$ current := redis_GET (KEYS keys 8) in
  let$ stale := newer_marker input current in
  if (stale : bool) then complete keys retention now fp superseded_text
  else
    let$ live := redis_GET (KEYS keys 7) in
    let$ stale := newer_presence input live in
    if (stale : bool) then complete keys retention now fp superseded_text
    else
      let$ _ := redis_SET (KEYS keys 7) (i_result_json input) (Some (i_expires_ms input)) in
      let$ _ := redis_SET (KEYS keys 8)
                  (marker_text (mkMarker (i_origin_id input) (i_sequence input)
                                  (i_created_ms input)))
                  (Some (i_expires_ms input + 86400000)%Z) in
      let$ _ := redis_PUBLISH (KEYS keys 3)
                  (js "{'event':'presence','presence':" +:+ i_result_json input +:+ "}") in
      complete keys retention now fp (applied_text (i_result_json input)).

(** [string.sub(s, 1, -2)]. *)
Definition drop_last (s : string) : string := str_take (String.length s - 1) s.

Definition with_stream_id (message_json stream_id : string) : string :=
  drop_last message_json +:+ js ",'stream_id':" +:+ cjson_quote stream_id +:+ "}".

(** What happens to a message after its entry: events, notifications, deadlines. *)
Definition message_tail (keys : list string) (input : script_input) (now : Z)
    (message_json : string) : lua unit :=
  let$ _ := (if i_publish input
             then redis_PUBLISH (KEYS keys 3)
                    (js "{'event':'message','message':" +:+ message_json +:+ "}")
             else lret tt) in
  let$ _ := (match i_notification_fields input with
             | Some fs =>
                 let$ _ := redis_XADD (KEYS keys 4) 10000 (fs ++ ["message"; message_json]) in
                 redis_EXPIRE (KEYS keys 4) 259200
             | None => lret tt
             end) in
  if bool_decide (i_operation input = Ack)
  then redis_DEL [KEYS keys 5; KEYS keys 6]
  else match i_pending_ack_json input with
       | Some p =>
           let$ _ := redis_SET (KEYS keys 5) p (Some (now + 300 * 1000)%Z) in
           redis_SET (KEYS keys 6) (i_ack_deadline_json input)
             (Some (now + i_ack_deadline_seconds input * 1000)%Z)
       | None => lret tt
       end.

Definition run_message (keys : list string) (retention : option Z) (input : script_input)
    (now : Z) : lua string :=
  let$ stream_id := redis_XADD (KEYS keys 2) (i_stream_maxlen input) (i_message_fields input) in
  let message_json := with_stream_id (i_result_json input) stream_id in
  let$ _ := message_tail keys input now message_json in
  complete keys retention now (i_fingerprint input) (applied_text message_json).

(** [outbox_replay.lua]. *)
Definition replay_script (keys : list string) (input : script_input) : lua string :=
  let$ now := redis_TIME in
  let$ prior := redis_GET (KEYS keys 1) in
  match prior with
  | Some prior => recover keys input prior now
  | None =>
      if negb (bool_decide (i_expires_ms input = 0%Z)) && (i_expires_ms input <=? now)%Z
      then lret superseded_text
      else if (now + 300000 <? i_created_ms input)%Z then lerr "OUTBOX_FUTURE_REQUEST"
      else
        let$ _ := preflight keys (i_key_types input) in
        let retention := if bool_decide (i_operation input = ClaimRequest)
                         then Some (i_expires_ms input - now + 86400000)%Z else None in
        let$ _ := save keys retention now
                    (mkMemo (Some "pending") (Some (i_fingerprint input)) None None) in
        match i_operation input with
        | ClaimRequest => lret admission_text
        | Presence => run_presence keys retention input now
        | Send | Ack => run_message keys retention input now
        end
  end.

(** The completion script of [finish_claim]: whether the memo now holds the response.
    [response_result] is the decoded result of an applied response. *)
Definition finish_script (memo claims_key fp response : string) (applied : bool)
    (response_result : option json) (until claim_expires_ms : Z) (claim_agent : string) : lua Z :=
  let$ prior := redis_GET memo in
  match prior with
  | None => lret 0%Z
  | Some prior =>
      match text_memo prior with
      | None => lerr "ERR"
      | Some record =>
          if negb (bool_decide (mr_fingerprint record = Some fp))
             || negb (bool_decide (mr_state record = Some "pending"))
          then lret 0%Z
          else
            let$ now := redis_TIME in
            if (claim_expires_ms <=? now)%Z then lret 2%Z
            else
              let$ verdict :=
                (if negb applied then lret None
                 else
                   let$ kind := redis_TYPE claims_key in
                   if bool_decide (kind = "none") then lret (Some 2%Z)
                   else if negb (bool_decide (kind = "hash")) then lret (Some 0%Z)
                   else
                     let$ current := redis_HGET claims_key claim_agent in
                     match current with
                     | None => lret (Some 2%Z)
                     | Some current =>
                         match cjson_decode current, response_result with
                         | Some claim, Some result =>
                             if negb (is_table claim) then lret (Some 0%Z)
                             else if lua_same claim result then lret None
                             else lret (Some 2%Z)
                         | Some claim, None =>
                             lret (Some (if is_table claim then 2%Z else 0%Z))
                         | None, _ => lret (Some 0%Z)
                         end
                     end) in
              match verdict with
              | Some n => lret n
              | None =>
                  let$ _ := redis_SET memo
                    (memo_text (mkMemo (Some "applied") (Some fp) (Some response)
                                  (Some claim_expires_ms))) (Some until) in
                  lret 1%Z
              end
      end
  end.
End script.
