(* ===== verification/OutboxHub.v ===== *)
(** * OutboxHub: the hub's side of replay

    [accept] and [finish_claim] of [outbox_hub.rs] with [persist] of
    [outbox_pg.rs]: from a request to the keys and the argument of the replay
    script, its run, the PostgreSQL row and the answer. Every call to Redis may be
    lost before or after it took effect, and every write to PostgreSQL too. The
    ordinary claim tool, to which an admitted claim goes, is an interface. *)

From Stdlib Require Import ZArith Lia Ascii.
From stdpp Require Import base option list strings gmap.
From S2P Require Import Prelude Str Json Validation McpSchema ClaimTypes Outbox Redis.
From S2P Require Import Channels Messages ReplayScript.

(** ** Data *)

Record ReplayEnvelope := mkEnvelope { ev_hub_identity : string; ev_request : ReplayRequest }.

Inductive ReplayHubError : Type := Invalid | Identity | Collision | Unavailable | Representation.

(** The part of [Settings] the hub's replay reads. *)
Record ReplaySettings := mkReplaySettings {
  rs_stream_key : string;
  rs_channel_key : string;
  rs_presence_prefix : string;
  rs_stream_maxlen : Z;
  rs_hub_identity : option string;
  rs_session_id : option string;
  rs_database_url : option string;
  rs_message_table : string;
  rs_presence_event_table : string;
}.

(** The text of identifiers and records ([uuid], [serde_json]). *)
Class HubText := {
  uuid_text : uuid → string;
  message_text : Message → string;
  presence_text : Channels.Presence → string;
  deadline_text : AckDeadline → string;
  response_text : ReplayResponse → string;
  response_of_text : string → option ReplayResponse;
  message_of_json : json → option Message;
  presence_of_json : json → option Channels.Presence;
  uuid_text_inj a b : uuid_text a = uuid_text b → a = b;
  uuid_text_plain a : contains_char (uuid_text a) ":" = false;
  response_of_applied x v : response_of_text (applied_text x) = Some v → ∃ res, v = Applied res;
  response_text_applied a v : response_of_text (response_text a) = Some (Applied v) →
    ∃ w, a = Applied w;
  response_of_superseded : response_of_text superseded_text = Some Superseded;
  response_of_pending : response_of_text pending_text = Some Pending;
}.

(** The ordinary [claim_resource] tool, on the keys of the server. *)
Class ClaimTool := {
  dispatch_claim : fields → hubdb → option json * hubdb;
}.

(** ** PostgreSQL *)

Record pg_rows := mkRows {
  pg_messages : list Message;
  pg_presences : list (Channels.Presence * uuid * string);
}.

(** Whether the statement ran, and if its reply was lost whether it had. *)
Inductive pg_outcome : Type := PgDone | PgLost (written : bool).

Definition both_equal (a b : option string) : bool :=
  match a, b with Some x, Some y => bool_decide (x = y) | _, _ => false end.

(** The unique indexes of the message table. *)
Definition message_conflict (a b : Message) : bool :=
  bool_decide (m_id a = m_id b)
  || both_equal (m_stream_id a) (m_stream_id b)
  || (both_equal (m_origin_hub a) (m_origin_hub b)
      && both_equal (m_client_msg_id a) (m_client_msg_id b)).

(** [insert .. on conflict do nothing]. *)
Definition insert_message (m : Message) (r : pg_rows) : pg_rows :=
  if existsb (message_conflict m) (pg_messages r) then r
  else mkRows (pg_messages r ++ [m]) (pg_presences r).

Definition insert_presence (p : Channels.Presence) (rid : uuid) (hub : string) (r : pg_rows)
    : pg_rows :=
  if existsb (λ '(_, rid', hub'), bool_decide (rid' = rid) && bool_decide (hub' = hub))
       (pg_presences r)
  then r else mkRows (pg_messages r) (pg_presences r ++ [(p, rid, hub)]).

Definition validate_identifier (value env_var : string) : Result unit :=
  if is_empty value then Err (InvalidParams (env_var +:+ " must not be empty"))
  else if contains_char value " " || contains_char value newline
          || contains_char value (ascii_of_N 9)
  then Err (InvalidParams (env_var +:+ " must not contain whitespace, got '" +:+ value +:+ "'"))
  else Ok tt.

Definition persist (s : ReplaySettings) (pg : pg_outcome) (ins : pg_rows → pg_rows) (r : pg_rows)
    : bool * pg_rows :=
  match rs_database_url s with
  | None => (true, r)
  | Some _ =>
      if negb (is_ok (validate_identifier (rs_message_table s) "message_table"))
         || negb (is_ok (validate_identifier (rs_presence_event_table s) "presence_event_table"))
      then (false, r)
      else match pg with
           | PgDone => (true, ins r)
           | PgLost true => (false, ins r)
           | PgLost false => (false, r)
           end
  end.

(** ** From a request to the script's argument *)

Definition text (args : fields) (key default : string) : string :=
  from_option (λ s, s) default (get_str args key).

Definition strings (args : fields) (key : string) : list string :=
  match get args key ≫= as_array with Some l => omap as_str l | None => [] end.

Definition invalid_hub {A} (r : Result A) : result ReplayHubError A := map_err (λ _, Invalid) r.

Definition to_status (s : string) : ReplayHubError :=
  if bool_decide (s = "OUTBOX_ID_COLLISION") then Collision
  else if bool_decide (s ∈ ["OUTBOX_FUTURE_REQUEST"; "OUTBOX_KEY_TYPE"]) then Invalid
  else Unavailable.

Section hub.
Context `{UnicodeCase} `{JournalCodec} `{Chrono} `{StoreText} `{BodyCodec} `{LuaJson} `{HubText}
  `{ClaimTool}.

Definition timestamp_of_ms (ms : Z) : result ReplayHubError string :=
  if (I64_MAX <? ms)%Z || (MAX_UTC_SECS * 1000 + 999 <? ms)%Z then Err Invalid
  else Ok (format_timestamp (ms * 1000000)).

Definition scope_hex (s : ReplaySettings) : string := digest_hex (rs_stream_key s).

Definition memo_key (s : ReplaySettings) (r : ReplayRequest) : string :=
  "agent_bus:outbox:" +:+ scope_hex s +:+ ":" +:+ uuid_text (request_id r).

Definition base_keys (s : ReplaySettings) (r : ReplayRequest) : list string :=
  let memo := memo_key s r in
  let unused := memo +:+ ":unused" in
  [memo; rs_stream_key s; rs_channel_key s; unused; unused; unused; unused; unused; unused].

Definition base_types : list string :=
  ["string"; "stream"; "none"; "none"; "none"; "none"; "none"; "none"; "none"].

Definition base_input (s : ReplaySettings) (fp : string) (r : ReplayRequest) : script_input :=
  mkInput fp (created_ms r) (expires_ms r) (uuid_text (origin_id r)) (sequence r) (operation r)
    base_types (rs_stream_maxlen s) "" "" [] false None None "" 0 "".

Fixpoint nul_capabilities (cs : list string) : result ReplayHubError unit :=
  match cs with
  | [] => Ok tt
  | c :: rest =>
      let? _ := invalid_hub (reject_nul_bytes c "capability") in nul_capabilities rest
  end.

Definition plan_presence (s : ReplaySettings) (fp : string) (r : ReplayRequest)
    : result ReplayHubError (list string * script_input) :=
  let args := arguments r in
  let ag := text args "agent" "" in
  let st := text args "status" "online" in
  let capabilities := strings args "capabilities" in
  let? _ := invalid_hub (reject_nul_in_fields [(st, "status")]) in
  let? _ := nul_capabilities capabilities in
  let sid := text args "session_id" "" in
  let? _ := invalid_hub (reject_nul_bytes sid "session_id") in
  let? ts := timestamp_of_ms (created_ms r) in
  let p := mkPresence ag st PROTOCOL_VERSION ts
             (if is_empty sid then uuid_text (request_id r) else sid) capabilities
             (from_option (λ v, v) (JObj []) (get args "metadata"))
             ((expires_ms r - created_ms r) / 1000)%Z in
  let i := base_input s fp r in
  Ok (<[7 := "agent_bus:outbox_presence:" +:+ scope_hex s +:+ ":" +:+ digest_hex ag]>
        (<[6 := rs_presence_prefix s +:+ ag]> (base_keys s r)),
      mkInput (i_fingerprint i) (i_created_ms i) (i_expires_ms i) (i_origin_id i) (i_sequence i)
        (i_operation i) (<[7 := "string"]> (<[6 := "string"]> base_types)) (i_stream_maxlen i)
        (presence_text p) ts [] false None None "" 0 "").

(** The message of a [Send] or an [Ack]. *)
Definition replay_message (s : ReplaySettings) (hub : string) (fresh : string) (now : Z)
    (r : ReplayRequest) : result ReplayHubError PreparedMessage :=
  let args := arguments r in
  let ack := bool_decide (operation r = Ack) in
  let from := text args (if ack then "agent" else "sender") "" in
  let to := if ack then "all" else text args "recipient" "" in
  let topic := if ack then "ack" else text args "topic" "" in
  let priority := if ack then "normal" else text args "priority" "normal" in
  let? _ := invalid_hub (validate_priority priority) in
  let body := text args "body" (if ack then "ack" else "") in
  let? schema := (if ack then Ok None
                  else invalid_hub (resolve_message_schema (surface_as_str (surface r))
                                      (get_str args "schema") topic)) in
  let fitted := if ack then body else auto_fit_schema body (schema_as_str <$> schema) in
  let tags := if ack then [] else strings args "tags" in
  let metadata := if ack then obj [("ack_for", JStr (text args "message_id" ""))]
                  else from_option (λ v, v) (JObj []) (get args "metadata") in
  let reply := if ack then Some (text args "message_id" "") else get_str args "reply_to" in
  let wants_ack := negb ack && from_option (λ b, b) false (get args "request_ack" ≫= as_bool) in
  let p := prepare_message fresh now from to topic fitted (get_str args "thread_id") tags priority
             wants_ack reply metadata (rs_session_id s) schema in
  let m := pm_message p in
  Ok (mkPrepared
        (mkMessage (m_id m) (m_timestamp_utc m) (m_protocol_version m) (m_from m) (m_to m)
           (m_topic m) (m_body m) (m_thread_id m) (m_tags m) (m_priority m) (m_request_ack m)
           (m_reply_to m) (m_metadata m) (m_stream_id m) (Some (uuid_text (request_id r)))
           (Some hub) (m_origin_seq m) (m_hlc m) (m_sensitivity m))
        (pm_stored_body p) (pm_tags_json p) (pm_ack_str p) (pm_thread_str p) (pm_meta_json p)
        (pm_is_compressed p)).

(** The fields of the stream entry. *)
Definition message_fields (hub : string) (rid : string) (p : PreparedMessage) : list string :=
  let m := pm_message p in
  ["id"; m_id m; "timestamp_utc"; m_timestamp_utc m; "protocol_version"; PROTOCOL_VERSION;
   "from"; m_from m; "to"; m_to m; "topic"; m_topic m; "body"; pm_stored_body p;
   "tags"; pm_tags_json p; "priority"; m_priority m; "request_ack"; pm_ack_str p;
   "reply_to"; from_option (λ x, x) "" (m_reply_to m); "metadata"; pm_meta_json p;
   "client_msg_id"; rid; "origin_hub"; hub]
  ++ (if is_empty (pm_thread_str p) then [] else ["thread_id"; pm_thread_str p])
  ++ (if pm_is_compressed p then ["_compressed"; "lz4"] else []).

Definition notification_fields (to : string) (p : PreparedMessage) : list string :=
  let m := pm_message p in
  ["id"; m_id m; "agent"; to; "created_at"; m_timestamp_utc m; "reason"; notification_reason m;
   "requires_ack"; pm_ack_str p].

Definition plan_message (s : ReplaySettings) (hub fp fresh : string) (now now' : Z) (sse : bool)
    (r : ReplayRequest) : result ReplayHubError (list string * script_input) :=
  let args := arguments r in
  let ack := bool_decide (operation r = Ack) in
  let? p := replay_message s hub fresh now r in
  let m := pm_message p in
  let to := m_to m in
  let direct := negb (bool_decide (to = "all")) in
  let tracked := if ack then text args "message_id" "" else m_id m in
  let ttl := ack_deadline_seconds (m_priority m) in
  let deadline := mkDeadline (m_id m) to (format_timestamp (now' + ttl * NANOS)) 0 None in
  let i := base_input s fp r in
  let keys := <[5 := "agent_bus:ack_deadline:" +:+ tracked]>
                (<[4 := "agent_bus:pending_ack:" +:+ tracked]> (base_keys s r)) in
  let types := <[5 := "string"]> (<[4 := "string"]> base_types) in
  Ok (if direct then <[3 := notification_stream_key to]> keys else keys,
      mkInput (i_fingerprint i) (i_created_ms i) (i_expires_ms i) (i_origin_id i) (i_sequence i)
        (i_operation i) (if direct then <[3 := "stream"]> types else types) (i_stream_maxlen i)
        (message_text m) "" (message_fields hub (uuid_text (request_id r)) p)
        (should_publish_message_event m sse)
        (if direct then Some (notification_fields to p) else None)
        (if m_request_ack m
         then Some (json_text (obj [("message_id", JStr (m_id m)); ("recipient", JStr to);
                                    ("sent_at", JStr (m_timestamp_utc m))]))
         else None)
        (if m_request_ack m then deadline_text deadline else "")
        (if m_request_ack m then ack_deadline_key_ttl ttl else 0%Z) "").

Definition plan_claim (s : ReplaySettings) (fp : string) (r : ReplayRequest)
    : result ReplayHubError (list string * script_input) :=
  let args := arguments r in
  let? _ := invalid_hub (parse_lease_mode (text args "mode" "exclusive")) in
  let? _ := (match get_str args "scope" with
             | Some v => let? _ := invalid_hub (parse_resource_scope v) in Ok tt
             | None => Ok tt
             end) in
  let i := base_input s fp r in
  Ok (<[8 := claims_key (text args "resource" "")]> (base_keys s r),
      mkInput (i_fingerprint i) (i_created_ms i) (i_expires_ms i) (i_origin_id i) (i_sequence i)
        (i_operation i) (<[8 := "hash"]> base_types) (i_stream_maxlen i)
        "" "" [] false None None "" 0 (text args "agent" "")).

Definition plan (s : ReplaySettings) (hub fp fresh : string) (now now' : Z) (sse : bool)
    (r : ReplayRequest) : result ReplayHubError (list string * script_input) :=
  match operation r with
  | Outbox.Presence => plan_presence s fp r
  | Send | Ack => plan_message s hub fp fresh now now' sse r
  | ClaimRequest => plan_claim s fp r
  end.

(** ** Running the scripts *)

(** What may happen to a script's invocation. *)
Inductive delivery : Type := Delivered | LostBefore | LostAfter.

(** One use of the hub by one caller: the identifier and the instants it reads, the
    fate of its calls, and the instants and failures of its scripts. *)
Record accept_env := mkAcceptEnv {
  ae_fresh : string;
  ae_now : Z;
  ae_now_deadline : Z;
  ae_sse : bool;
  ae_call : delivery;
  ae_lua : lua_env;
  ae_time : option Z;
  ae_finish_call : delivery;
  ae_finish : lua_env;
  ae_pg : pg_outcome;
}.

Record hubworld := mkWorld { w_db : hubdb; w_rows : pg_rows }.

Definition invoke {A} (how : delivery) (m : lua A) (e : lua_env) (d : hubdb)
    : result ReplayHubError A * hubdb :=
  match how with
  | LostBefore => (Err Unavailable, d)
  | LostAfter => (Err Unavailable, ls_db (m (mkLuaState d e)).2)
  | Delivered =>
      let '(r, s) := m (mkLuaState d e) in
      (map_err to_status r, ls_db s)
  end.

Definition timestamp_millis_u64 (ns : Z) : option Z :=
  let ms := (ns / 1000000)%Z in if (ms <? 0)%Z then None else Some ms.

(** When an applied claim ends; [None] where its text has no usable expiry. *)
Definition claim_deadline (response : ReplayResponse) (expires_ms : Z) : option Z :=
  match response with
  | Applied result =>
      deadline ← ((vget result "expires_at" ≫= as_str) ≫= parse_rfc3339) ≫= timestamp_millis_u64;
      Some (Z.min deadline expires_ms)
  | _ => Some expires_ms
  end.

Definition finish_claim (e : accept_env) (memo fp claims_key ag : string) (expires_ms : Z)
    (response : ReplayResponse) (d : hubdb) : result ReplayHubError ReplayResponse * hubdb :=
  match claim_deadline response expires_ms with
  | None => (Ok Pending, d)
  | Some claim_expires_ms =>
      let '(completed, d) :=
        invoke (ae_finish_call e)
          (finish_script memo claims_key fp (response_text response)
             (match response with Applied _ => true | _ => false end)
             (match response with Applied v => Some v | _ => None end)
             (saturating_add expires_ms 86400000) claim_expires_ms ag)
          (ae_finish e) d in
      (let? n := map_err (λ _, Unavailable) completed in
       Ok (if (n =? 1)%Z then response else if (n =? 2)%Z then Superseded else Pending), d)
  end.

(** An admitted claim goes to the ordinary tool, with the time that is left. *)
Definition admit_claim (e : accept_env) (keys : list string) (fp : string) (r : ReplayRequest)
    (d : hubdb) : result ReplayHubError ReplayResponse * hubdb :=
  let args := arguments r in
  let ag := text args "agent" "" in
  match ae_time e with
  | None => (Err Unavailable, d)
  | Some now =>
      let remaining := Z.min (saturating_sub (expires_ms r) now / 1000)
                         ((expires_ms r - created_ms r) / 1000) in
      if (remaining =? 0)%Z
      then finish_claim e (KEYS keys 1) fp (KEYS keys 9) ag (expires_ms r) Superseded d
      else
        let '(res, d) := dispatch_claim (insert "lease_ttl_seconds" (jint remaining) args) d in
        match res with
        | None => (Ok Pending, d)
        | Some v => finish_claim e (KEYS keys 1) fp (KEYS keys 9) ag (expires_ms r) (Applied v) d
        end
  end.

(** The answer to a request whose script gave [raw]. *)
Definition conclude_response (s : ReplaySettings) (hub : string) (e : accept_env)
    (r : ReplayRequest) (raw : string) (rows : pg_rows)
    : result ReplayHubError ReplayResponse * pg_rows :=
  match response_of_text raw with
  | None => (Err Representation, rows)
  | Some (Applied result) =>
      match operation r with
      | Send | Ack =>
          match message_of_json result with
          | None => (Err Representation, rows)
          | Some m =>
              let '(stored, rows) := persist s (ae_pg e) (insert_message m) rows in
              if negb stored then (Ok Pending, rows)
              else (Ok (Applied (if bool_decide (operation r = Ack)
                                 then obj [("ack_sent", JBool true);
                                           ("ack_message_id", JStr (m_id m));
                                           ("acked_message_id",
                                            JStr (text (arguments r) "message_id" ""));
                                           ("timestamp", JStr (m_timestamp_utc m))]
                                 else result)), rows)
          end
      | Outbox.Presence =>
          match presence_of_json result with
          | None => (Err Representation, rows)
          | Some p =>
              let '(stored, rows) :=
                persist s (ae_pg e) (insert_presence p (request_id r) hub) rows in
              (Ok (if stored then Applied result else Pending), rows)
          end
      | ClaimRequest => (Ok (Applied result), rows)
      end
  | Some response => (Ok response, rows)
  end.

Definition accept (s : ReplaySettings) (ev : ReplayEnvelope) (e : accept_env) (w : hubworld)
    : result ReplayHubError ReplayResponse * hubworld :=
  let r := ev_request ev in
  let hub := ev_hub_identity ev in
  let prepared :=
    let? _ := map_err (λ _, Invalid) (validate r) in
    let? _ := (if bool_decide (rs_hub_identity s = Some hub) then Ok tt else Err Identity) in
    let? fp := map_err (λ _, Invalid) (fingerprint r) in
    let? ki := plan s hub fp (ae_fresh e) (ae_now e) (ae_now_deadline e) (ae_sse e) r in
    Ok (fp, ki) in
  match prepared with
  | Err err => (Err err, w)
  | Ok (fp, (keys, input)) =>
      let '(raw, d) := invoke (ae_call e) (replay_script keys input) (ae_lua e) (w_db w) in
      match raw with
      | Err err => (Err err, mkWorld d (w_rows w))
      | Ok raw =>
          if bool_decide (raw = admission_text) then
            let '(answer, d) := admit_claim e keys fp r d in
            (answer, mkWorld d (w_rows w))
          else
            let '(answer, rows) := conclude_response s hub e r raw (w_rows w) in
            (answer, mkWorld d rows)
      end
  end.
End hub.
