(* ===== verification/SyncStore.v ===== *)
(** * SyncStore: the hub's store as cloud synchronisation uses it

    Models [sync_store.rs]: reading the stream after a cursor, storing a pulled
    message once, and merging a pulled presence without masking a newer local one.
    The scripts run over the typed keys of [ReplayScript]; [append_notifications_for_message]
    is that of [redis_bus.rs]. What one call meets - lost connections, failing
    writes, other users of the server - is its environment. *)

From Stdlib Require Import ZArith Lia Ascii.
From stdpp Require Import base option list strings gmap.
From S2P Require Import Prelude Str Json Validation McpSchema ClaimTypes Outbox Redis.
From S2P Require Import Channels Messages StreamEntry ReplayScript OutboxHub.

Definition INGEST_SEEN_TTL_SECONDS : Z := 30 * 24 * 60 * 60.
Definition PRESENCE_CAS_MAX_ATTEMPTS : nat := 8.
Definition NOTIFICATION_STREAM_MAXLEN : Z := 10000.

(** The part of [Settings] these operations read. *)
Record SyncSettings := mkSyncSettings {
  ss_stream_key : string;
  ss_stream_maxlen : Z;
  ss_presence_prefix : string;
}.

(** [uuid::Uuid::parse_str(..).is_ok()]. *)
Class UuidText := { uuid_parses : string → bool }.

(** One call on a connection. *)
Definition attempt {A} (how : delivery) (m : lua A) (e : lua_env) (d : hubdb)
    : result string A * hubdb :=
  match how with
  | LostBefore => (Err "connection lost", d)
  | LostAfter => (Err "connection lost", ls_db (m (mkLuaState d e)).2)
  | Delivered => let '(r, s) := m (mkLuaState d e) in (r, ls_db s)
  end.

Definition internal_or {A} (what : string) (r : result string A) : Result A :=
  map_err (λ e, Internal (what +:+ ": " +:+ e)) r.

(** ** Reading after a cursor *)

(** [XRANGE key start + COUNT count], for the starts the code sends: everything, or
    strictly after an identifier. *)
Definition xrange_entries (start : string) (count : nat) (l : list (string * list string))
    : result string (list (string * list string)) :=
  if bool_decide (start = "-") then Ok (take count l)
  else match strip_prefix start "(" ≫= stream_rank with
       | Some r =>
           Ok (take count (List.filter (λ e, match stream_rank e.1 with
                                             | Some q => (r <? q)%Z
                                             | None => false
                                             end) l))
       | None => Err "ERR Invalid stream ID specified as stream command argument"
       end.

Definition redis_XRANGE (key start : string) (count : nat) : lua (list redis_value) :=
  lread (λ d now,
    match live_entry d now key with
    | None => Ok []
    | Some (VStream l) =>
        let? found := xrange_entries start count l in
        Ok (map (λ e, ArrayValue [BulkString e.1; ArrayValue (map BulkString e.2)]) found)
    | Some _ => WRONGTYPE
    end).

Definition range_start (after : string) : string :=
  if bool_decide (after = "0-0") || is_empty after then "-" else "(" +:+ after.

Section sync.
Context `{Chrono} `{StoreText} `{!EntryText} `{HubText} `{UuidText}.

Definition read_messages_after (s : SyncSettings) (after : string) (count : nat)
    (how : delivery) (e : lua_env) (d : hubdb) : Result (list Message) * hubdb :=
  let '(raw, d) := attempt how (redis_XRANGE (ss_stream_key s) (range_start after) count) e d in
  (let? raw := internal_or "XRANGE after cursor failed" raw in
   Ok (map (λ '(stream_id, fs), set_stream_id (decode_stream_entry fs) stream_id)
         (parse_xrange_result raw)), d).

(** ** Storing a pulled message *)

Definition ingest_seen_key (origin_hub mid : string) : string :=
  "agent_bus:cloud_sync:ingested:" +:+ origin_hub +:+ ":" +:+ mid.

(** [redis.pcall]: an error reply as a value. *)
Definition pcall {A} (m : lua A) : lua (result string A) := λ s, let '(r, s) := m s in (Ok r, s).

Definition redis_EXISTS (key : string) : lua bool :=
  lread (λ d now, Ok (bool_decide (is_Some (live_entry d now key)))).

(** [SET key value EX secs]: the end must come, and within the range of milliseconds. *)
Definition redis_SET_EX (key v : string) (secs : Z) : lua unit := λ s,
  if (secs <=? 0)%Z || (I64_MAX <? lua_now (ls_env s) + secs * 1000)%Z
  then (Err "ERR invalid expire time in 'set' command", s)
  else lwrite (λ d now, set_keys d (<[key := mkEntry (VString v) (Some (now + secs * 1000)%Z)]>
                                      (hd_keys d))) s.

(** An [XADD] the server may refuse for reasons of its own: memory, identifiers. *)
Definition xadd_unless (refused : bool) (key : string) (maxlen : Z) (fs : list string) : lua string :=
  if refused then lerr "OOM command not allowed when used memory > 'maxmemory'"
  else redis_XADD key maxlen fs.

(** [INGEST_SCRIPT]. [acl] is what [redis.acl_check_cmd] says of the three commands,
    where the server has it. *)
Definition ingest_script (seen stream : string) (ttl maxlen : Z) (fs : list string)
    (acl : option bool) (refused : bool) : lua (option string) :=
  let$ known := redis_EXISTS seen in
  if known then lret None
  else
    let$ stream_type := redis_TYPE stream in
    if negb (bool_decide (stream_type = "none")) && negb (bool_decide (stream_type = "stream"))
    then lerr "synced message stream has the wrong type"
    else if bool_decide (acl = Some false)
    then lerr "synced message ingestion requires SET, DEL and XADD permission"
    else
      let$ _ := redis_DEL [seen] in
      let$ _ := redis_SET_EX seen "1" ttl in
      let$ added := pcall (xadd_unless refused stream maxlen fs) in
      match added with
      | Err e => let$ _ := redis_DEL [seen] in lerr e
      | Ok sid => lret (Some sid)
      end.

Definition synced_fields (msg : Message) (origin_hub : string) : list (string * string) :=
  let optional (name : string) (v : option string) : list (string * string) :=
    match v with Some v => [(name, v)] | None => [] end in
  [("id", m_id msg); ("timestamp_utc", m_timestamp_utc msg);
   ("protocol_version", m_protocol_version msg); ("from", m_from msg); ("to", m_to msg);
   ("topic", m_topic msg); ("body", m_body msg); ("tags", strings_text (m_tags msg));
   ("priority", m_priority msg); ("request_ack", if m_request_ack msg then "true" else "false");
   ("reply_to", from_option (λ r, r) "" (m_reply_to msg));
   ("metadata", json_text (m_metadata msg)); ("origin_hub", origin_hub)]
  ++ optional "thread_id" (m_thread_id msg) ++ optional "client_msg_id" (m_client_msg_id msg)
  ++ optional "origin_seq" (dec <$> m_origin_seq msg) ++ optional "hlc" (m_hlc msg)
  ++ optional "sensitivity" (sensitivity_as_str <$> m_sensitivity msg).

Definition flat (fvs : list (string * string)) : list string :=
  concat (map (λ fv, [fv.1; fv.2]) fvs).

Inductive IngestOutcome : Type := Ingested | Duplicate.

(** One storing of a message: the fate of its three calls, the answer of the access
    list, whether the server refuses the entry, whether there is a PostgreSQL writer. *)
Record ingest_env := mkIngestEnv {
  ie_call : delivery;
  ie_lua : lua_env;
  ie_acl : option bool;
  ie_refused : bool;
  ie_writer : bool;
  ie_fresh : string;
  ie_note : delivery;
  ie_note_lua : lua_env;
  ie_expire : delivery;
  ie_expire_lua : lua_env;
}.

Definition xadd_synced (s : SyncSettings) (msg : Message) (origin_hub : string) (e : ingest_env)
    (d : hubdb) : Result (option string) * hubdb :=
  let '(r, d) :=
    attempt (ie_call e)
      (ingest_script (ingest_seen_key origin_hub (m_id msg)) (ss_stream_key s)
         INGEST_SEEN_TTL_SECONDS (ss_stream_maxlen s) (flat (synced_fields msg origin_hub))
         (ie_acl e) (ie_refused e)) (ie_lua e) d in
  (internal_or "atomic synced ingest failed" r, d).

Record Notification := mkNotification {
  n_id : string;
  n_agent : string;
  n_created_at : string;
  n_reason : string;
  n_requires_ack : bool;
  n_message : Message;
  n_stream_id : option string;
}.

Definition append_notifications_for_message (e : ingest_env) (msg : Message) (d : hubdb)
    : Result (list Notification) * hubdb :=
  if is_empty (m_to msg) || bool_decide (m_to msg = "all") then (Ok [], d)
  else
    let key := notification_stream_key (m_to msg) in
    let '(added, d) := attempt (ie_note e)
      (redis_XADD key NOTIFICATION_STREAM_MAXLEN
         (flat [("id", ie_fresh e); ("agent", m_to msg); ("created_at", m_timestamp_utc msg);
                ("reason", notification_reason msg);
                ("requires_ack", if m_request_ack msg then "true" else "false");
                ("message", message_text msg)])) (ie_note_lua e) d in
    match internal_or "XADD notification failed" added with
    | Err err => (Err err, d)
    | Ok sid =>
        let '(kept, d) := attempt (ie_expire e) (redis_EXPIRE key NOTIFICATION_STREAM_TTL_SECS)
                            (ie_expire_lua e) d in
        (let? _ := internal_or "EXPIRE notification stream failed" kept in
         Ok [mkNotification (ie_fresh e) (m_to msg) (m_timestamp_utc msg) (notification_reason msg)
               (m_request_ack msg) msg (Some sid)], d)
    end.

Definition parse_timestamp_utc (ts : string) : Result Z :=
  ok_or (Internal ("invalid timestamp_utc " +:+ ts))
    (parse_rfc3339 (replace_char "Z" "+00:00" ts)).

Definition postgres_can_store (msg : Message) : bool :=
  uuid_parses (m_id msg) && is_ok (parse_timestamp_utc (m_timestamp_utc msg)).

(** With the messages handed to the PostgreSQL writer. *)
Definition ingest_synced_message (s : SyncSettings) (msg : Message) (e : ingest_env)
    (d : hubdb) : Result IngestOutcome * hubdb * list Message :=
  match m_origin_hub msg with
  | None | Some "" => (Err (InvalidParams "synced message has no origin_hub"), d, [])
  | Some origin_hub =>
      if is_empty (m_id msg) then (Err (InvalidParams "synced message has no id"), d, [])
      else
        let '(added, d) := xadd_synced s msg origin_hub e d in
        match added with
        | Err err => (Err err, d, [])
        | Ok None => (Ok Duplicate, d, [])
        | Ok (Some stream_id) =>
            let stored := set_stream_id msg stream_id in
            let sent := if ie_writer e && postgres_can_store stored then [stored] else [] in
            (Ok Ingested, (append_notifications_for_message e stored d).2, sent)
        end
  end.

(** ** Merging a pulled presence *)

Definition synced_presence_ttl (incoming : Presence) (loc : option Presence) (local_hub : string)
    (now : Z) : Result (option Z) :=
  if bool_decide ((vget (p_metadata incoming) "origin_hub" ≫= as_str) = Some local_hub)
  then Ok None
  else
    let? incoming_ts := parse_timestamp_utc (p_timestamp_utc incoming) in
    let age := Z.max (Z.quot (now - incoming_ts) NANOS) 0 in
    let remaining := (Z.min (p_ttl_seconds incoming) I64_MAX - age)%Z in
    if (remaining <=? 0)%Z then Ok None
    else match loc with
         | Some l =>
             match parse_timestamp_utc (p_timestamp_utc l) with
             | Ok local_ts => if (incoming_ts <=? local_ts)%Z then Ok None else Ok (Some remaining)
             | Err _ => Ok (Some remaining)
             end
         | None => Ok (Some remaining)
         end.

(** [PRESENCE_CAS_SCRIPT]. *)
Definition presence_cas_script (key : string) (expected : option string) (text : string) (ttl : Z)
    : lua bool :=
  let$ current := redis_GET key in
  if match expected with
     | None => bool_decide (is_Some current)
     | Some v => negb (bool_decide (current = Some v))
     end
  then lret false
  else
    let$ _ := redis_SET_EX key text ttl in
    lret true.

(** One attempt: what others do before it and between its two calls. *)
Record presence_env := mkPresenceEnv {
  pe_before : hubdb → hubdb;
  pe_get : delivery;
  pe_get_lua : lua_env;
  pe_between : hubdb → hubdb;
  pe_cas : delivery;
  pe_cas_lua : lua_env;
}.

Definition compare_and_set_presence (key : string) (expected : option string) (text : string)
    (ttl : Z) (e : presence_env) (d : hubdb) : Result bool * hubdb :=
  let '(r, d) := attempt (pe_cas e) (presence_cas_script key expected text ttl) (pe_cas_lua e) d in
  (internal_or "atomic presence update failed" r, d).

Definition presence_attempt (key text : string) (p : Presence) (local_hub : string) (now : Z)
    (e : presence_env) (d : hubdb) : Result (option bool) * hubdb :=
  let '(existing, d) := attempt (pe_get e) (redis_GET key) (pe_get_lua e) (pe_before e d) in
  match internal_or "GET presence failed" existing with
  | Err err => (Err err, d)
  | Ok existing =>
      match synced_presence_ttl p (existing ≫= presence_of_text) local_hub now with
      | Err err => (Err err, d)
      | Ok None => (Ok (Some false), d)
      | Ok (Some ttl) =>
          let '(r, d) := compare_and_set_presence key existing text ttl e (pe_between e d) in
          (let? written := r in Ok (if (written : bool) then Some true else None), d)
      end
  end.

(** The loop over the attempts; the environments of the missing ones are idle. *)
Fixpoint presence_attempts (fuel : nat) (key text : string) (p : Presence) (local_hub : string)
    (now : Z) (es : list presence_env) (d : hubdb) : Result bool * hubdb :=
  match fuel with
  | O => (Err (Internal
            "presence changed during every sync update attempt; retry on the next pull"), d)
  | S fuel =>
      let idle := mkLua (now / 1000000) None [] 0 in
      let e := hd (mkPresenceEnv (λ d, d) Delivered idle (λ d, d) Delivered idle) es in
      let '(r, d) := presence_attempt key text p local_hub now e d in
      match r with
      | Err err => (Err err, d)
      | Ok (Some b) => (Ok b, d)
      | Ok None => presence_attempts fuel key text p local_hub now (tl es) d
      end
  end.

Definition apply_synced_presence (s : SyncSettings) (p : Presence) (local_hub : string) (now : Z)
    (es : list presence_env) (d : hubdb) : Result bool * hubdb :=
  presence_attempts PRESENCE_CAS_MAX_ATTEMPTS (ss_presence_prefix s +:+ p_agent p)
    (presence_text p) p local_hub now es d.
End sync.
