(* ===== verification/StreamFacts.v ===== *)
(** * StreamFacts: lemmas on streams

    The order of stream identifiers, the fields of an entry, replies as entries, and how
    a stream of the server changes under its users: old entries are trimmed, newer ones
    appended. *)

From Stdlib Require Import ZArith Lia Ascii.
From stdpp Require Import base option list strings gmap sorting.
From S2P Require Import Prelude Str Json Validation McpSchema ClaimTypes Outbox Redis.
From S2P Require Import Channels Messages StreamEntry ReplayScript OutboxHub SyncStore.

Lemma elem_of_drop_in {A} k (l : list A) x : x ∈ drop k l → x ∈ l.
Proof. intros Hx. rewrite <- (take_drop k l). apply elem_of_app. by right. Qed.

Lemma elem_of_take_in {A} k (l : list A) x : x ∈ take k l → x ∈ l.
Proof. intros Hx. rewrite <- (take_drop k l). apply elem_of_app. by left. Qed.

(** ** Order of identifiers *)

Definition sid_rank (sid : string) : Z := from_option (λ r, r) (-1)%Z (stream_rank sid).

(** ** Fields of an entry *)

Lemma field_cons k f v (l : list (string * string)) :
  field k ((f, v) :: l) = if bool_decide (f = k) then Some v else field k l.
Proof. unfold field. simpl. by destruct (bool_decide (f = k)). Qed.

Lemma field_not_in k (l : list (string * string)) : k ∉ l.*1 → field k l = None.
Proof.
  induction l as [|[f v] l IH]; [done|]. csimpl. intros [Hf Hk]%not_elem_of_cons.
  rewrite field_cons, bool_decide_eq_false_2; [by apply IH|done].
Qed.

(** Reading a reply's flat list of distinct names gives each its value. *)
Lemma parse_fields_flat (l : list (string * string)) acc k :
  NoDup l.*1 → Forall (λ n, utf8 n = true) l.*1 →
  parse_fields acc (map BulkString (flat l)) !! k =
  match field k l with Some v => Some (BulkString v) | None => acc !! k end.
Proof.
  revert acc. induction l as [|[f v] l IH]; intros acc; csimpl; [done|].
  intros [Hf Hl]%NoDup_cons [Hu Hus]%Forall_cons. apply bool_decide_eq_true in Hu.
  change (map BulkString (flat ((f, v) :: l)))
    with (BulkString f :: BulkString v :: map BulkString (flat l)). cbn [parse_fields].
  rewrite Hu, IH, field_cons by done.
  case_bool_decide as E; [subst|].
  - by rewrite (field_not_in k), lookup_insert_eq.
  - by rewrite lookup_insert_ne.
Qed.

(** ** Replies *)

Definition reply_entry (e : string * list string) : redis_value :=
  ArrayValue [BulkString e.1; ArrayValue (map BulkString e.2)].

Definition parsed_entry (e : string * list string) : string * entry_fields :=
  (e.1, parse_fields ∅ (map BulkString e.2)).

Lemma parse_reply (l : list (string * list string)) :
  Forall (λ e, utf8 e.1 = true) l →
  parse_xrange_result (map reply_entry l) = map parsed_entry l.
Proof.
  induction 1 as [|[sid fs] l Hu _ IH]; [done|]. apply bool_decide_eq_true in Hu. simpl in Hu.
  unfold parse_xrange_result in *. csimpl. by rewrite Hu, IH.
Qed.

(** ** A stream under its users *)

Definition erank (e : string * list string) : Z := sid_rank e.1.

(** What Redis keeps in a stream: identifiers in order. *)
Definition good_stream (l : list (string * list string)) : Prop :=
  StronglySorted (λ a b, (erank a < erank b)%Z) l ∧
  Forall (λ e, (0 ≤ erank e)%Z ∧ utf8 e.1 = true) l.

Definition stream_of (d : hubdb) (key : string) : list (string * list string) :=
  match hd_keys d !! key with Some (mkEntry (VStream l) _) => l | _ => [] end.

(** The key holds a stream, or nothing, whose identifiers [t] bounds. *)
Definition stream_ok (key : string) (t : Z) (d : hubdb) : Prop :=
  match hd_keys d !! key with None | Some (mkEntry (VStream _) _) => True | _ => False end ∧
  good_stream (stream_of d key) ∧ Forall (λ e, (erank e ≤ t)%Z) (stream_of d key).

(** Trimmed at the front, appended to with identifiers past the bound. *)
Definition grows (key : string) (t : Z) (d d' : hubdb) : Prop :=
  ∃ n new, stream_of d' key = drop n (stream_of d key) ++ new ∧
    Forall (λ e, (t < erank e)%Z) new.

(** Whatever is at the key has not expired. *)
Definition unexpired (key : string) (now : Z) (d : hubdb) : Prop :=
  ∀ e, hd_keys d !! key = Some e → from_option (λ t, now < t)%Z True (e_until e).

Lemma good_stream_drop n l : good_stream l → good_stream (drop n l).
Proof.
  intros [Hs Hf]. split; [|by apply Forall_drop].
  eapply StronglySorted_sublist; [|done]. apply sublist_drop.
Qed.

Lemma grows_refl key t d : grows key t d d.
Proof. exists 0, []. rewrite app_nil_r. by split. Qed.

Lemma grows_trans key t t' d d' d'' : (t ≤ t')%Z →
  grows key t d d' → grows key t' d' d'' → grows key t d d''.
Proof.
  intros Ht (n & new & E & Hn) (n' & new' & E' & Hn').
  exists (n + n'), (drop (n' - length (drop n (stream_of d key))) new ++ new'). split.
  - rewrite E', E, drop_app, drop_drop. by rewrite <- app_assoc.
  - apply Forall_app. split; [by apply Forall_drop|].
    eapply Forall_impl; [exact Hn'|]. intros e. simpl. lia.
Qed.

(** What is left of the stream's old part is a tail of it. *)
Lemma grows_old key t d d' : stream_ok key t d → grows key t d d' →
  ∃ n, List.filter (λ e, (erank e <=? t)%Z) (stream_of d' key) = drop n (stream_of d key).
Proof.
  intros (_ & _ & Hb) (n & new & -> & Hn). exists n. rewrite List.filter_app.
  rewrite (filter_all _ (drop n _)).
  2: { intros e He. apply Z.leb_le. apply (Forall_drop _ n) in Hb. rewrite Forall_forall in Hb.
       by apply Hb. }
  enough (List.filter (λ e, (erank e <=? t)%Z) new = []) as -> by apply app_nil_r.
  induction Hn as [|e new He _ IH]; [done|]. simpl. by rewrite (proj2 (Z.leb_gt _ _)).
Qed.

Lemma stream_live key t now d : stream_ok key t d → unexpired key now d →
  live_entry d now key = VStream <$> (guard (is_Some (hd_keys d !! key));; Some (stream_of d key)).
Proof.
  intros (Hk & _) Hu. unfold live_entry, stream_of, unexpired in *.
  destruct (hd_keys d !! key) as [[v until]|]; [|done].
  destruct v as [?|l|?|?]; try done. rewrite option_guard_True by by eexists.
  specialize (Hu _ eq_refl). simpl in *. destruct until; simpl in *; [|done].
  by rewrite (proj2 (Z.leb_gt _ _)).
Qed.

Lemma not_stream_nil key t d : stream_ok key t d → ¬ is_Some (hd_keys d !! key) →
  stream_of d key = [].
Proof. intros _ Hn. unfold stream_of. apply eq_None_not_Some in Hn. by rewrite Hn. Qed.

(** ** Ranges of a good stream *)

Lemma good_rank l e : good_stream l → e ∈ l → stream_rank e.1 = Some (erank e).
Proof.
  intros [_ Hf] He. rewrite Forall_forall in Hf. destruct (Hf e He) as [H0 _].
  unfold erank, sid_rank in *. destruct (stream_rank e.1); [done|]. simpl in H0. lia.
Qed.

Lemma sid_rank_Some sid : (0 ≤ sid_rank sid)%Z → stream_rank sid = Some (sid_rank sid).
Proof. unfold sid_rank. destruct (stream_rank sid); simpl; [done|lia]. Qed.

Lemma filter_ext_elem {A} (f g : A → bool) l :
  (∀ x, x ∈ l → f x = g x) → List.filter f l = List.filter g l.
Proof.
  induction l as [|x l IH]; intros Hfg; simpl; [done|].
  rewrite (Hfg x) by apply list_elem_of_here.
  by rewrite IH by (intros y Hy; apply Hfg; by apply list_elem_of_further).
Qed.

Lemma xrange_after sid n l : good_stream l → (0 ≤ sid_rank sid)%Z →
  xrange_entries ("(" +:+ sid) n l = Ok (take n (List.filter (λ e, (sid_rank sid <? erank e)%Z) l)).
Proof.
  intros Hl Hs. unfold xrange_entries. rewrite bool_decide_eq_false_2 by done.
  rewrite strip_prefix_app. cbn [mbind option_bind]. rewrite (sid_rank_Some _ Hs).
  do 2 f_equal. apply filter_ext_elem. intros e He. by rewrite (good_rank l e).
Qed.

Lemma xrange_all n l : xrange_entries "-" n l = Ok (take n l).
Proof. done. Qed.

Lemma redis_XRANGE_stream key t start n d e found :
  stream_ok key t d → unexpired key (lua_now e) d →
  xrange_entries start n (stream_of d key) = Ok found →
  redis_XRANGE key start n (mkLuaState d e) = (Ok (map reply_entry found), mkLuaState d e).
Proof.
  intros Hd Hu Ef. unfold redis_XRANGE, lread. simpl. f_equal.
  rewrite (stream_live key t) by done.
  destruct (decide (is_Some (hd_keys d !! key))) as [Hs|Hs].
  - rewrite option_guard_True by done. simpl. by rewrite Ef.
  - rewrite option_guard_False by done. simpl. rewrite (not_stream_nil key t) in Ef by done.
    unfold xrange_entries in Ef. destruct (bool_decide _); [|destruct (_ ≫= _)]; simplify_eq/=;
      by rewrite take_nil.
Qed.

(** The messages of a reply are those of its entries. *)
Lemma good_utf8 l : good_stream l → Forall (λ e, utf8 e.1 = true) l.
Proof. intros [_ Hf]. eapply Forall_impl; [exact Hf|]. by intros e [_ ?]. Qed.

Lemma Forall_filter_b {A} (P : A → Prop) (f : A → bool) l :
  Forall P l → Forall P (List.filter f l).
Proof.
  rewrite !Forall_forall. intros Hl x [Hx _]%elem_of_filter_b. by apply Hl.
Qed.

(** ** Calls *)

Lemma attempt_cases {A} how (m : lua A) e d r d' :
  attempt how m e d = (r, d') →
  (how = LostBefore ∧ d' = d ∧ is_ok r = false) ∨
  ∃ r0 st, m (mkLuaState d e) = (r0, st) ∧ d' = ls_db st ∧ (r = r0 ∨ is_ok r = false).
Proof.
  destruct how; simpl.
  - destruct (m _) as [r0 st] eqn:E. intros [= <- <-]. right. by exists r0, st; auto.
  - intros [= <- <-]. by left.
  - intros [= <- <-]. right. destruct (m _) as [r0 st]. exists r0, st. auto.
Qed.

(** ** Readable messages *)

Section readable.
Context `{EntryText}.

Definition filled (s : string) : bool := utf8 s && negb (is_empty s).

Definition opt_all (f : string → bool) (o : option string) : bool :=
  match o with Some s => f s | None => true end.

(** Messages the stream's encoding tells apart from absent fields. *)
Definition readable (msg : Message) : bool :=
  forallb utf8 [m_id msg; m_timestamp_utc msg; m_protocol_version msg; m_from msg; m_to msg;
                m_topic msg; m_body msg]
  && filled (m_priority msg) && forallb utf8 (m_tags msg) && json_storable (m_metadata msg)
  && opt_all filled (m_reply_to msg)
  && opt_all (λ t, filled t && negb (bool_decide (t = "None"))) (m_thread_id msg)
  && opt_all filled (m_client_msg_id msg) && opt_all filled (m_hlc msg)
  && match m_origin_seq msg with Some n => (0 <=? n)%Z && (n <=? U64_MAX)%Z | None => true end.

Lemma filled_spec s : filled s = true → utf8 s = true ∧ is_empty s = false.
Proof. unfold filled. intros ?. by bool_simplify. Qed.
End readable.

Lemma set_stream_id_ext m m' sid :
  m_id m = m_id m' → m_timestamp_utc m = m_timestamp_utc m' →
  m_protocol_version m = m_protocol_version m' → m_from m = m_from m' → m_to m = m_to m' →
  m_topic m = m_topic m' → m_body m = m_body m' → m_thread_id m = m_thread_id m' →
  m_tags m = m_tags m' → m_priority m = m_priority m' → m_request_ack m = m_request_ack m' →
  m_reply_to m = m_reply_to m' → m_metadata m = m_metadata m' →
  m_client_msg_id m = m_client_msg_id m' → m_origin_hub m = m_origin_hub m' →
  m_origin_seq m = m_origin_seq m' → m_hlc m = m_hlc m' → m_sensitivity m = m_sensitivity m' →
  set_stream_id m sid = set_stream_id m' sid.
Proof. intros. unfold set_stream_id. f_equal; assumption. Qed.
