(* ===== verification/Bus.v ===== *)
(** * Bus: operations on one Redis connection

    The connection of [redis_bus.rs] and what is done over it to messages: posting one
    or a batch, acknowledgement tracking, notifications, listing, cursors and presence.
    An operation is a sequence of commands; between any two of them other clients may
    act, and any command may be lost before or after its effect. A pipeline is one
    round trip of commands that the server runs one after the other, with others in
    between. The commands are those of [ReplayScript], [SyncStore] and the two below. *)

From Stdlib Require Import ZArith Lia Ascii.
From stdpp Require Import base option list strings gmap.
From S2P Require Import Prelude Str Json Validation McpSchema ClaimTypes Outbox Redis.
From S2P Require Import Channels Messages StreamEntry ReplayScript OutboxHub SyncStore.

(** ** The connection *)

(** What one step of an operation meets: what others have done to the server since the
    last one, the fate of its command and the server's side of it; the clock, a fresh
    identifier, and the order in which a scan lists its keys. *)
Record turn := mkTurn {
  tn_others : hubdb → hubdb;
  tn_how : delivery;
  tn_lua : lua_env;
  tn_clock : Z;
  tn_id : string;
  tn_scan : list string → list string;
}.

Definition bus_env : Type := nat → turn.

(** The server, the steps taken so far and what was handed to the PostgreSQL writer. *)
Record conn := mkConn {
  cn_db : hubdb;
  cn_step : nat;
  cn_sent : list Message;
  cn_presence : list Presence;
}.

Definition bus (A : Type) : Type := bus_env → conn → Result A * conn.

Definition bret {A} (a : A) : bus A := λ _ c, (Ok a, c).
Definition bfail {A} (e : AgentBusError) : bus A := λ _ c, (Err e, c).
Definition bbind {A B} (m : bus A) (k : A → bus B) : bus B :=
  λ env c, match m env c with
           | (Ok a, c') => k a env c'
           | (Err e, c') => (Err e, c')
           end.

Notation "'let+' x ':=' m 'in' k" := (bbind m (fun x => k))
  (at level 10, x pattern, m at level 200, k at level 200) : bus_scope.

Definition bus_lift {A} (r : Result A) : bus A := λ _ c, (r, c).

(** [if let Err(e) = ..]: a failure is logged and the operation goes on. *)
Definition caught {A} (m : bus A) : bus (Result A) :=
  λ env c, let '(r, c) := m env c in (Ok r, c).

Definition bwhen (b : bool) (m : bus unit) : bus unit := if b then m else bret tt.

Definition advance (c : conn) (d : hubdb) : conn :=
  mkConn d (S (cn_step c)) (cn_sent c) (cn_presence c).

Definition clock : bus Z := λ env c, (Ok (tn_clock (env (cn_step c))), advance c (cn_db c)).
Definition fresh_uuid : bus string := λ env c, (Ok (tn_id (env (cn_step c))), advance c (cn_db c)).

(** One command, without its error's conversion. *)
Definition raw_command {A} (m : lua A) (env : bus_env) (c : conn) : result string A * conn :=
  let t := env (cn_step c) in
  let '(r, d) := attempt (tn_how t) m (tn_lua t) (tn_others t (cn_db c)) in
  (r, advance c d).

(** [.query(conn).map_err(|e| Internal(format!("{what}: {e}")))]. *)
Definition command {A} (what : string) (m : lua A) : bus A :=
  λ env c, let '(r, c) := raw_command m env c in (internal_or what r, c).

(** The commands of a pipeline: all those that arrive run, whatever becomes of the
    earlier ones; the answer is the first error or every reply. *)
Fixpoint pipeline_go {A} (ms : list (lua A)) (env : bus_env) (c : conn)
    : result string (list A) * conn :=
  match ms with
  | [] => (Ok [], c)
  | m :: ms =>
      let '(r, c') := raw_command m env c in
      match tn_how (env (cn_step c)) with
      | LostBefore => (Err "connection lost", c')
      | _ =>
          let '(rs, c') := pipeline_go ms env c' in
          (let? a := r in let? l := rs in Ok (a :: l), c')
      end
  end.

Definition pipeline {A} (what : string) (ms : list (lua A)) : bus (list A) :=
  λ env c, let '(r, c) := pipeline_go ms env c in (internal_or what r, c).

(** A command of a pipeline whose reply is ignored. *)
Definition ignoring {A B} (m : lua A) : lua (option B) := let$ _ := m in lret None.
Definition keeping {A} (m : lua A) : lua (option A) := let$ a := m in lret (Some a).

Definition send_message (msg : Message) : bus unit :=
  λ _ c, (Ok tt, mkConn (cn_db c) (cn_step c) (cn_sent c ++ [msg]) (cn_presence c)).
Definition send_presence (p : Presence) : bus unit :=
  λ _ c, (Ok tt, mkConn (cn_db c) (cn_step c) (cn_sent c) (cn_presence c ++ [p])).

(** ** Further commands *)

(** [SET key value EX secs]. *)
Definition redis_SET_EX (key v : string) (secs : Z) : lua unit :=
  let$ now := redis_TIME in redis_SET key v (Some (now + secs * 1000)%Z).

(** [XREVRANGE key end start COUNT n] for the ends the code sends: everything, or
    strictly before an identifier; the start is inclusive. *)
Definition xrevrange_entries (hi lo : string) (count : nat) (l : list (string * list string))
    : result string (list (string * list string)) :=
  match (if bool_decide (hi = "+") then Some None
         else Some <$> (strip_prefix hi "(" ≫= stream_rank)),
        (if bool_decide (lo = "-") then Some 0%Z else stream_rank lo) with
  | Some above, Some from =>
      Ok (take count (List.filter (λ e, match stream_rank e.1 with
                                        | Some q => (from <=? q)%Z
                                                    && match above with
                                                       | Some h => (q <? h)%Z
                                                       | None => true
                                                       end
                                        | None => false
                                        end) (List.rev l)))
  | _, _ => Err "ERR Invalid stream ID specified as stream command argument"
  end.

Definition redis_XREVRANGE (key hi lo : string) (count : nat) : lua (list redis_value) :=
  lread (λ d now,
    match live_entry d now key with
    | None => Ok []
    | Some (VStream l) =>
        let? found := xrevrange_entries hi lo count l in
        Ok (map (λ e, ArrayValue [BulkString e.1; ArrayValue (map BulkString e.2)]) found)
    | Some _ => WRONGTYPE
    end).

(** The keys a complete [SCAN MATCH prefix*] loop may list: each live key at least once,
    in any order. *)
Definition live_keys (prefix : string) (d : hubdb) (now : Z) : list string :=
  List.filter (λ k, starts_with k prefix && bool_decide (is_Some (live_entry d now k)))
    (map fst (map_to_list (hd_keys d))).

Definition scan_keys (what prefix : string) : bus (list string) := λ env c,
  let t := env (cn_step c) in
  let '(r, c) := command what (lread (λ d now, Ok (live_keys prefix d now))) env c in
  (let? l := r in Ok (tn_scan t l), c).

(** The values of some keys, decoded; what is gone or does not decode is skipped. *)
Fixpoint get_each {A} (what : string) (decode : string → option A) (ks : list string)
    : bus (list A) :=
  match ks with
  | [] => bret []
  | k :: ks =>
      let+ v := command what (redis_GET k) in
      let+ rest := get_each what decode ks in
      bret (match v ≫= decode with Some a => a :: rest | None => rest end)
  end.

(** ** Data *)

Record BusSettings := mkBusSettings {
  bs_stream_key : string;
  bs_stream_maxlen : Z;
  bs_channel_key : string;
  bs_presence_prefix : string;
  bs_session_id : option string;
}.

Record BatchSendPayload := mkPayload {
  bp_from : string;
  bp_to : string;
  bp_topic : string;
  bp_body : string;
  bp_thread_id : option string;
  bp_tags : list string;
  bp_priority : string;
  bp_request_ack : bool;
  bp_reply_to : option string;
  bp_metadata : json;
}.

Record CheckedBatchSendPayload := mkChecked {
  cp_payload : BatchSendPayload;
  cp_schema : option MessageSchema;
}.

Record PostedMessage := mkPosted {
  po_message : Message;
  po_notifications : list Notification;
}.

Record PendingAck := mkPendingAck {
  pa_message_id : string;
  pa_recipient : string;
  pa_sent_at : string;
  pa_stale : bool;
}.

(** [PendingAckRecord]: what is read back of a pending acknowledgement. *)
Record PendingAckRecord := mkPendingRecord {
  pr_message_id : option string;
  pr_recipient : option string;
  pr_sent_at : option string;
}.

Definition PENDING_ACK_TTL : Z := 300.
Definition PENDING_ACK_STALE_SECS : Z := 60.
Definition PENDING_ACK_PREFIX : string := "agent_bus:pending_ack:".
Definition NOTIFICATION_CURSOR_PREFIX : string := "bus:notify_cursor:".
Definition CURSOR_TTL_SECS : Z := 604800.
Definition XREVRANGE_OVERFETCH_FACTOR : Z := 5.
Definition XREVRANGE_MIN_FETCH : Z := 200.

(** [serde_json::to_value]: an absent optional field is left out. *)
Definition optional_entry {A} (k : string) (f : A → json) (v : option A) : list (string * json) :=
  match v with Some v => [(k, f v)] | None => [] end.

Definition message_value (m : Message) : json :=
  obj ([("id", JStr (m_id m)); ("timestamp_utc", JStr (m_timestamp_utc m));
        ("protocol_version", JStr (m_protocol_version m)); ("from", JStr (m_from m));
        ("to", JStr (m_to m)); ("topic", JStr (m_topic m)); ("body", JStr (m_body m))]
       ++ optional_entry "thread_id" JStr (m_thread_id m)
       ++ [("tags", jstr_list (m_tags m)); ("priority", JStr (m_priority m));
           ("request_ack", JBool (m_request_ack m))]
       ++ optional_entry "reply_to" JStr (m_reply_to m)
       ++ [("metadata", m_metadata m)]
       ++ optional_entry "stream_id" JStr (m_stream_id m)
       ++ optional_entry "client_msg_id" JStr (m_client_msg_id m)
       ++ optional_entry "origin_hub" JStr (m_origin_hub m)
       ++ optional_entry "origin_seq" jint (m_origin_seq m)
       ++ optional_entry "hlc" JStr (m_hlc m)
       ++ optional_entry "sensitivity" (λ s, JStr (sensitivity_as_str s)) (m_sensitivity m)).

Definition presence_value (p : Presence) : json :=
  obj [("agent", JStr (p_agent p)); ("status", JStr (p_status p));
       ("protocol_version", JStr (p_protocol_version p));
       ("timestamp_utc", JStr (p_timestamp_utc p)); ("session_id", JStr (p_session_id p));
       ("capabilities", jstr_list (p_capabilities p)); ("metadata", p_metadata p);
       ("ttl_seconds", jint (p_ttl_seconds p))].

(** The texts of records that are read back, and what reading gives. *)
Class BusText `{HubText} `{StoreText} := {
  message_of_text : string → option Message;
  deadline_of_text : string → option AckDeadline;
  pending_of_text : string → option PendingAckRecord;
}.

(** [SET key value EX secs] with the server's check of the time. *)
Definition redis_SETEX (key v : string) (secs : Z) : lua unit :=
  if (secs <=? 0)%Z then lerr "ERR invalid expire time in 'setex' command"
  else redis_SET_EX key v secs.

(** The fields of a message's stream entry. *)
Definition entry_of (p : PreparedMessage) : list (string * string) :=
  let m := pm_message p in
  [("id", m_id m); ("timestamp_utc", m_timestamp_utc m); ("protocol_version", PROTOCOL_VERSION);
   ("from", m_from m); ("to", m_to m); ("topic", m_topic m); ("body", pm_stored_body p);
   ("tags", pm_tags_json p); ("priority", m_priority m); ("request_ack", pm_ack_str p);
   ("reply_to", from_option (λ r, r) (m_from m) (m_reply_to m)); ("metadata", pm_meta_json p)]
  ++ (if is_empty (pm_thread_str p) then [] else [("thread_id", pm_thread_str p)])
  ++ (if pm_is_compressed p then [("_compressed", "lz4")] else []).

Definition direct (msg : Message) : bool :=
  negb (is_empty (m_to msg) || bool_decide (m_to msg = "all")).

(** ** Operations *)

Section bus.
Context `{Chrono} `{StoreText} `{BodyCodec} `{!EntryText} `{HubText} `{!BusText}.

Fixpoint bmap {A B} (f : A → bus B) (l : list A) : bus (list B) :=
  match l with
  | [] => bret []
  | x :: l => let+ y := f x in let+ ys := bmap f l in bret (y :: ys)
  end.

(** *** Acknowledgements *)

Definition pending_ack_key (message_id : string) : string := PENDING_ACK_PREFIX +:+ message_id.
Definition ack_deadline_key (message_id : string) : string := ACK_DEADLINE_PREFIX +:+ message_id.

Definition pending_text (message_id recipient sent_at : string) : string :=
  json_text (obj [("message_id", JStr message_id); ("recipient", JStr recipient);
                  ("sent_at", JStr sent_at)]).

Definition track_pending_ack (message_id recipient sent_at : string) : bus unit :=
  command "SET EX pending-ack failed"
    (redis_SETEX (pending_ack_key message_id) (pending_text message_id recipient sent_at)
       PENDING_ACK_TTL).

Definition clear_pending_ack (message_id : string) : bus unit :=
  command "DEL pending-ack failed" (redis_DEL [pending_ack_key message_id]).

Definition is_stale (now : Z) (sent_at : string) : bool :=
  match parse_timestamp_utc sent_at with
  | Ok ts => (PENDING_ACK_STALE_SECS <? Z.quot (now - ts) NANOS)%Z
  | Err _ => false
  end.

Definition pending_of_record (now : Z) (r : PendingAckRecord) : PendingAck :=
  let sent_at := from_option (λ s, s) "" (pr_sent_at r) in
  mkPendingAck (from_option (λ s, s) "" (pr_message_id r))
    (from_option (λ s, s) "" (pr_recipient r)) sent_at (is_stale now sent_at).

Definition list_pending_acks (agent : option string) : bus (list PendingAck) :=
  let+ keys := scan_keys "SCAN pending-acks failed" PENDING_ACK_PREFIX in
  let+ now := clock in
  let+ records := get_each "GET pending-ack" pending_of_text keys in
  let wanted := List.filter (λ a, match agent with
                                  | Some filter => bool_decide (pa_recipient a = filter)
                                  | None => true
                                  end) (map (pending_of_record now) records) in
  bret (sort_by (λ a b, str_le (pa_sent_at a) (pa_sent_at b)) wanted).

Definition track_ack_deadline (d : AckDeadline) (ttl_seconds : Z) : bus unit :=
  command "SET EX ack_deadline failed"
    (redis_SETEX (ack_deadline_key (ad_message_id d)) (deadline_text d)
       (ack_deadline_key_ttl ttl_seconds)).

Definition clear_ack_deadline (message_id : string) : bus unit :=
  command "DEL ack_deadline failed" (redis_DEL [ack_deadline_key message_id]).

Definition deadline_for (message_id recipient : string) (now ttl : Z) : AckDeadline :=
  mkDeadline message_id recipient (format_timestamp (now + ttl * NANOS)) 0 None.

Definition store_ack_deadline (message_id recipient priority : string) : bus AckDeadline :=
  let ttl := ack_deadline_seconds priority in
  let+ now := clock in
  let d := deadline_for message_id recipient now ttl in
  let+ _ := track_ack_deadline d ttl in
  bret d.

Definition list_ack_deadlines : bus (list AckDeadline) :=
  let+ keys := scan_keys "SCAN ack_deadlines failed" ACK_DEADLINE_PREFIX in
  let+ ds := get_each "GET ack_deadline failed" deadline_of_text keys in
  bret (sort_by (λ a b, str_le (ad_deadline_at a) (ad_deadline_at b)) ds).

Definition is_overdue (now : Z) (d : AckDeadline) : bool :=
  match parse_timestamp_utc (ad_deadline_at d) with Ok ts => (ts <? now)%Z | Err _ => false end.

Definition check_overdue_acks : bus (list AckDeadline) :=
  let+ now := clock in
  let+ all := list_ack_deadlines in
  bret (List.filter (is_overdue now) all).

(** *** Notifications *)

Definition note_fields (id : string) (msg : Message) : list (string * string) :=
  [("id", id); ("agent", m_to msg); ("created_at", m_timestamp_utc msg);
   ("reason", notification_reason msg);
   ("requires_ack", if m_request_ack msg then "true" else "false");
   ("message", message_text msg)].

Definition note_for (id : string) (msg : Message) (stream_id : string) : Notification :=
  mkNotification id (m_to msg) (m_timestamp_utc msg) (notification_reason msg)
    (m_request_ack msg) msg (Some stream_id).

Definition append_notifications (msg : Message) : bus (list Notification) :=
  if negb (direct msg) then bret []
  else
    let+ id := fresh_uuid in
    let key := notification_stream_key (m_to msg) in
    let+ stream_id := command "XADD notification failed"
                        (redis_XADD key NOTIFICATION_STREAM_MAXLEN (flat (note_fields id msg))) in
    let+ _ := command "EXPIRE notification stream failed"
                (redis_EXPIRE key NOTIFICATION_STREAM_TTL_SECS) in
    bret [note_for id msg stream_id].

(** *** Posting one message *)

Definition message_event (msg : Message) : string :=
  json_text (obj [("event", JStr "message"); ("message", message_value msg)]).

(** The metadata of the returned message: the stored one only where a schema applies. *)
Definition effective_metadata (metadata final : json) (schema : option string) : json :=
  if bool_decide (is_Some schema) || bool_decide (is_Some (vget metadata "_schema"))
  then final else metadata.

(** What the operation prepares before its first command. *)
Definition post_preparation (s : BusSettings) (p : BatchSendPayload)
    (schema : option MessageSchema) (id : string) (now : Z) : PreparedMessage :=
  let ts := format_timestamp now in
  let reply := from_option (λ r, r) (bp_from p) (bp_reply_to p) in
  let inferred := first_some (schema_as_str <$> schema) (infer_schema_from_topic (bp_topic p) None) in
  let compressed := if (COMPRESS_THRESHOLD <? str_len (bp_body p))%Z
                    then Some (lz4_compress_body (bp_body p)) else None in
  let is_compressed := bool_decide (is_Some compressed) in
  let thread := first_some (bp_thread_id p) (bp_reply_to p) in
  let final := final_metadata (bp_metadata p) inferred is_compressed (bp_body p) in
  let tags := effective_tags (bp_tags p) (bs_session_id s) in
  mkPrepared
    (mkMessage id ts PROTOCOL_VERSION (bp_from p) (bp_to p) (bp_topic p) (bp_body p) thread tags
       (bp_priority p) (bp_request_ack p) (Some reply)
       (effective_metadata (bp_metadata p) final inferred) None None None None None None)
    (from_option (λ b, b) (bp_body p) compressed) (strings_text tags)
    (if bp_request_ack p then "true" else "false") (from_option (λ t, t) "" thread)
    (json_text final) is_compressed.

(** What follows the entry: only the event's failure is returned. *)
Definition after_entry (s : BusSettings) (msg : Message) (pg_writer sse : bool) : bus PostedMessage :=
  let+ _ := bwhen pg_writer (send_message msg) in
  let+ _ := bwhen (should_publish_message_event msg sse)
              (command "PUBLISH failed" (redis_PUBLISH (bs_channel_key s) (message_event msg))) in
  let+ _ := bwhen (m_request_ack msg)
              (let+ _ := caught (track_pending_ack (m_id msg) (m_to msg) (m_timestamp_utc msg)) in
               let+ _ := caught (store_ack_deadline (m_id msg) (m_to msg) (m_priority msg)) in
               bret tt) in
  let+ notes := caught (append_notifications msg) in
  bret (mkPosted msg (match notes with Ok l => l | Err _ => [] end)).

Definition bus_post_message_with_schema (s : BusSettings) (p : BatchSendPayload)
    (pg_writer sse : bool) (schema : option MessageSchema) : bus PostedMessage :=
  let+ id := fresh_uuid in
  let+ now := clock in
  let pm := post_preparation s p schema id now in
  let+ stream_id := command "XADD failed"
    (redis_XADD (bs_stream_key s) (bs_stream_maxlen s) (flat (entry_of pm))) in
  after_entry s (set_stream_id (pm_message pm) stream_id) pg_writer sse.

Definition bus_post_message_with_notifications (s : BusSettings) (p : BatchSendPayload)
    (pg_writer sse : bool) : bus PostedMessage :=
  bus_post_message_with_schema s p pg_writer sse None.

Definition bus_post_message (s : BusSettings) (p : BatchSendPayload) (pg_writer sse : bool)
    : bus Message :=
  let+ posted := bus_post_message_with_notifications s p pg_writer sse in
  bret (po_message posted).

(** *** Posting a batch *)

Definition prepare_payload (s : BusSettings) (p : CheckedBatchSendPayload) : bus PreparedMessage :=
  let b := cp_payload p in
  let+ id := fresh_uuid in
  let+ now := clock in
  bret (prepare_message id now (bp_from b) (bp_to b) (bp_topic b) (bp_body b) (bp_thread_id b)
          (bp_tags b) (bp_priority b) (bp_request_ack b) (bp_reply_to b) (bp_metadata b)
          (bs_session_id s) (cp_schema p)).

(** [prepare_notification_fields]: the identifier of a notification to be sent. *)
Definition prepare_notification (msg : Message) : bus (option string) :=
  if direct msg then let+ id := fresh_uuid in bret (Some id) else bret None.

(** The two commands a notification adds to the pipeline. *)
Definition note_commands (m : Message * option string) : list (lua (option string)) :=
  match m with
  | (msg, Some id) =>
      let key := notification_stream_key (m_to msg) in
      [keeping (redis_XADD key NOTIFICATION_STREAM_MAXLEN (flat (note_fields id msg)));
       ignoring (redis_EXPIRE key NOTIFICATION_STREAM_TTL_SECS)]
  | _ => []
  end.

(** The loop over the stream identifiers and the indexed messages. *)
Fixpoint assign_notes (ms : list (Message * option string)) (ids : list string)
    : list (list Notification) :=
  match ms with
  | [] => []
  | (msg, Some id) :: ms =>
      match ids with
      | sid :: ids => [note_for id msg sid] :: assign_notes ms ids
      | [] => [] :: assign_notes ms []
      end
  | (_, None) :: ms => [] :: assign_notes ms ids
  end.

Definition publish_batch (s : BusSettings) (sse : bool) (msgs : list Message) : bus unit :=
  let chosen := List.filter (λ m, should_publish_message_event m sse) msgs in
  bwhen (negb (bool_decide (chosen = [])))
    (let+ _ := caught (pipeline "batch PUBLISH pipeline failed"
                         (map (λ m, redis_PUBLISH (bs_channel_key s) (message_event m)) chosen)) in
     bret tt).

Definition track_batch (msgs : list Message) : bus unit :=
  let wanted := List.filter m_request_ack msgs in
  bwhen (negb (bool_decide (wanted = [])))
    (let+ _ := caught (pipeline "batch pending-ack pipeline failed"
       (map (λ m, redis_SETEX (pending_ack_key (m_id m))
                    (pending_text (m_id m) (m_to m) (m_timestamp_utc m)) PENDING_ACK_TTL) wanted)) in
     let+ deadlines := bmap (λ m, let ttl := ack_deadline_seconds (m_priority m) in
                                  let+ now := clock in
                                  bret (deadline_for (m_id m) (m_to m) now ttl, ttl)) wanted in
     let+ _ := caught (pipeline "batch ack-deadline pipeline failed"
       (map (λ dt, redis_SETEX (ack_deadline_key (ad_message_id dt.1)) (deadline_text dt.1)
                     (ack_deadline_key_ttl dt.2)) deadlines)) in
     bret tt).

Definition notify_batch (msgs : list Message) : bus (list (list Notification)) :=
  let+ ids := bmap prepare_notification msgs in
  let indexed := zip msgs ids in
  let none := map (λ _, []) msgs in
  match concat (map note_commands indexed) with
  | [] => bret none
  | commands =>
      let+ sent := caught (pipeline "batch notification pipeline failed" commands) in
      bret (match sent with Ok replies => assign_notes indexed (omap id replies) | Err _ => none end)
  end.

Definition bus_post_messages_batch_with_schema (s : BusSettings)
    (payloads : list CheckedBatchSendPayload) (pg_writer sse : bool) : bus (list PostedMessage) :=
  match payloads with
  | [] => bret []
  | _ =>
      let+ prepared := bmap (prepare_payload s) payloads in
      let+ stream_ids := pipeline "pipeline XADD failed"
        (map (λ pm, redis_XADD (bs_stream_key s) (bs_stream_maxlen s) (flat (entry_of pm))) prepared) in
      let msgs := zip_with (λ pm, set_stream_id (pm_message pm)) prepared stream_ids in
      let+ _ := publish_batch s sse msgs in
      let+ _ := bwhen pg_writer (let+ _ := bmap send_message msgs in bret tt) in
      let+ _ := track_batch msgs in
      let+ notes := notify_batch msgs in
      bret (zip_with mkPosted msgs notes)
  end.

Definition bus_post_messages_batch_with_notifications (s : BusSettings)
    (payloads : list BatchSendPayload) (pg_writer sse : bool) : bus (list PostedMessage) :=
  bus_post_messages_batch_with_schema s (map (λ p, mkChecked p None) payloads) pg_writer sse.

Definition bus_post_messages_batch (s : BusSettings) (payloads : list BatchSendPayload)
    (pg_writer sse : bool) : bus (list Message) :=
  let+ posted := bus_post_messages_batch_with_notifications s payloads pg_writer sse in
  bret (map po_message posted).

(** *** Reading the stream *)

Definition message_matches_filters (msg : Message) (agent from_agent : option string)
    (include_broadcast : bool) (topic thread_id : option string) (required_tags : list string) : bool :=
  if match from_agent with Some f => negb (bool_decide (m_from msg = f)) | None => false end
  then false
  else if match agent with
          | Some f => negb (bool_decide (m_to msg = f))
                      && negb (include_broadcast && bool_decide (m_to msg = "all"))
          | None => false
          end
  then false
  else if match topic with Some f => negb (bool_decide (m_topic msg = f)) | None => false end
  then false
  else if match thread_id with
          | Some f => negb (bool_decide (m_thread_id msg = Some f))
          | None => false
          end
  then false
  else forallb (λ tag, existsb (λ c, bool_decide (c = tag)) (m_tags msg)) required_tags.

(** The filters of one listing. *)
Record Listing := mkListing {
  li_agent : option string;
  li_from_agent : option string;
  li_since_minutes : Z;
  li_limit : nat;
  li_include_broadcast : bool;
  li_topic : option string;
  li_thread_id : option string;
  li_required_tags : list string;
}.

Definition listing_matches (q : Listing) (msg : Message) : bool :=
  message_matches_filters msg (li_agent q) (li_from_agent q) (li_include_broadcast q) (li_topic q)
    (li_thread_id q) (li_required_tags q).

Definition saturating_mul (a b : Z) : Z := Z.min U64_MAX (a * b).

Definition listing_page_size (q : Listing) : Z :=
  let multiplier :=
    if bool_decide (is_Some (li_topic q)) || bool_decide (is_Some (li_thread_id q))
       || negb (bool_decide (li_required_tags q = []))
    then saturating_mul XREVRANGE_OVERFETCH_FACTOR 2 else XREVRANGE_OVERFETCH_FACTOR in
  Z.max (saturating_mul (Z.of_nat (li_limit q)) multiplier) XREVRANGE_MIN_FETCH.

(** The time test: an instant that does not parse is kept. *)
Definition recent (cutoff : Z) (msg : Message) : bool :=
  match parse_timestamp_utc (m_timestamp_utc msg) with
  | Ok ts => negb (ts <? cutoff)%Z
  | Err _ => true
  end.

Definition decode_entry (e : string * entry_fields) : Message :=
  set_stream_id (decode_stream_entry e.2) e.1.

Definition entry_wanted (q : Listing) (cutoff : Z) (e : string * entry_fields) : bool :=
  recent cutoff (decode_stream_entry e.2) && listing_matches q (decode_stream_entry e.2).

(** The inner loop over one page: the messages so far and whether the limit is met. *)
Fixpoint scan_page (q : Listing) (cutoff : Z) (found : list Message)
    (page : list (string * entry_fields)) : list Message * bool :=
  match page with
  | [] => (found, false)
  | e :: page =>
      if entry_wanted q cutoff e then
        let found := found ++ [decode_entry e] in
        if (li_limit q <=? length found)%nat then (found, true)
        else scan_page q cutoff found page
      else scan_page q cutoff found page
  end.

(** The loop over the pages; [None] when the fuel has run out. *)
Fixpoint list_pages (fuel : nat) (s : BusSettings) (q : Listing) (cutoff : Z) (start page_end : string)
    (found : list Message) : bus (option (list Message)) :=
  match fuel with
  | O => bret None
  | S fuel =>
      let+ raw := command "XREVRANGE failed"
        (redis_XREVRANGE (bs_stream_key s) page_end start (Z.to_nat (listing_page_size q))) in
      let entries := parse_xrange_result raw in
      match List.last (map (λ e, Some e.1) entries) None with
      | None => bret (Some found)
      | Some oldest =>
          let '(found, full) := scan_page q cutoff found entries in
          if full then bret (Some found)
          else if (Z.of_nat (length entries) <? listing_page_size q)%Z then bret (Some found)
          else list_pages fuel s q cutoff start ("(" +:+ oldest) found
      end
  end.

Definition stream_start (cutoff : Z) : string := dec (Z.max (cutoff / 1000000) 0) +:+ "-0".

Definition bus_list_messages_from_redis_with_filters (fuel : nat) (s : BusSettings) (q : Listing)
    : bus (option (list Message)) :=
  if (li_limit q =? 0)%nat then bret (Some [])
  else
    let+ now := clock in
    let cutoff := (now - li_since_minutes q * 60 * NANOS)%Z in
    let+ found := list_pages fuel s q cutoff (stream_start cutoff) "+" [] in
    bret ((λ l, List.rev l) <$> found).

Definition bus_list_messages_from_redis (fuel : nat) (s : BusSettings) (agent from_agent : option string)
    (since_minutes : Z) (limit : nat) (include_broadcast : bool) : bus (option (list Message)) :=
  bus_list_messages_from_redis_with_filters fuel s
    (mkListing agent from_agent since_minutes limit include_broadcast None None []).

Definition bus_read_page_from_redis (s : BusSettings) (after_id : option string) (limit : nat)
    : bus (list Message) :=
  let start := match after_id with Some id => "(" +:+ id | None => "-" end in
  let+ raw := command "XRANGE failed" (redis_XRANGE (bs_stream_key s) start limit) in
  bret (map decode_entry (parse_xrange_result raw)).

Definition bus_read_all_from_redis (s : BusSettings) (limit : nat) : bus (list Message) :=
  bus_read_page_from_redis s None limit.

(** The loop of [bus_list_messages_since_id_with_filters] over its one page. *)
Fixpoint take_matching (matches : Message → bool) (limit : nat) (found : list Message)
    (page : list (string * entry_fields)) : list Message :=
  match page with
  | [] => found
  | e :: page =>
      if matches (decode_stream_entry e.2) then
        let found := found ++ [decode_entry e] in
        if (limit <=? length found)%nat then found else take_matching matches limit found page
      else take_matching matches limit found page
  end.

Definition since_id_page_size (limit : nat) (thread_id : option string) (required_tags : list string)
    : Z :=
  let multiplier :=
    if bool_decide (is_Some thread_id) || negb (bool_decide (required_tags = []))
    then saturating_mul XREVRANGE_OVERFETCH_FACTOR 2 else XREVRANGE_OVERFETCH_FACTOR in
  Z.max (saturating_mul (Z.of_nat limit) multiplier) XREVRANGE_MIN_FETCH.

Definition bus_list_messages_since_id_with_filters (s : BusSettings) (agent since_id : string)
    (limit : nat) (thread_id : option string) (required_tags : list string) : bus (list Message) :=
  let+ raw := command "XRANGE since_id failed"
    (redis_XRANGE (bs_stream_key s) ("(" +:+ since_id)
       (Z.to_nat (since_id_page_size limit thread_id required_tags))) in
  bret (take_matching
          (λ m, message_matches_filters m (Some agent) None true None thread_id required_tags)
          limit [] (parse_xrange_result raw)).

Definition bus_list_messages_since_id (s : BusSettings) (agent since_id : string) (limit : nat)
    : bus (list Message) :=
  bus_list_messages_since_id_with_filters s agent since_id limit None [].

(** *** Notifications and cursors *)

(** The message of a notification that does not decode. *)
Definition blank_message : Message :=
  mkMessage "" "" PROTOCOL_VERSION "" "" "" "" None [] "normal" false None (JObj [])
    None None None None None None.

Definition decode_notification_entry (stream_id : string) (fs : entry_fields) : Notification :=
  mkNotification (entry_get fs "id") (entry_get fs "agent") (entry_get fs "created_at")
    (entry_get fs "reason") (bool_decide (entry_get fs "requires_ack" ∈ ["true"; "True"]))
    (match fs !! "message" with
     | Some (BulkString b) | Some (SimpleString b) => from_option (λ m, m) blank_message (message_of_text b)
     | _ => blank_message
     end)
    (Some stream_id).

Definition decode_notes (raw : list redis_value) : list Notification :=
  map (λ e, decode_notification_entry e.1 e.2) (parse_xrange_result raw).

Definition list_notifications (agent : string) (limit : nat) : bus (list Notification) :=
  if (limit =? 0)%nat then bret []
  else
    let+ raw := command "XREVRANGE notifications failed"
      (redis_XREVRANGE (notification_stream_key agent) "+" "-" limit) in
    bret (List.rev (decode_notes raw)).

Definition list_notifications_since_id (agent since_id : string) (limit : nat)
    : bus (list Notification) :=
  if (limit =? 0)%nat then bret []
  else
    let+ raw := command "XRANGE notifications since_id failed"
      (redis_XRANGE (notification_stream_key agent) ("(" +:+ since_id) (Nat.max limit 1)) in
    bret (decode_notes raw).

Definition notification_cursor_key (agent : string) : string := NOTIFICATION_CURSOR_PREFIX +:+ agent.

Definition scoped_notification_cursor_key (agent : string) (repo session : option string) : string :=
  match repo, session with
  | Some repo, _ => NOTIFICATION_CURSOR_PREFIX +:+ agent +:+ ":repo:" +:+ repo
  | None, Some session => NOTIFICATION_CURSOR_PREFIX +:+ agent +:+ ":session:" +:+ session
  | None, None => notification_cursor_key agent
  end.

Definition get_cursor (what key : string) : bus string :=
  let+ v := command what (redis_GET key) in
  bret (from_option (λ s, s) "0-0" v).

(** [SET] and [EXPIRE] in one pipeline. *)
Definition set_expiring_cursor (what key stream_id : string) : bus unit :=
  let+ _ := pipeline what [redis_SET key stream_id None; redis_EXPIRE key CURSOR_TTL_SECS] in
  bret tt.

Definition get_scoped_notification_cursor (agent : string) (repo session : option string) : bus string :=
  get_cursor "GET scoped notification cursor" (scoped_notification_cursor_key agent repo session).

Definition set_scoped_notification_cursor (agent : string) (repo session : option string)
    (stream_id : string) : bus unit :=
  set_expiring_cursor "SET + EXPIRE scoped notification cursor"
    (scoped_notification_cursor_key agent repo session) stream_id.

Definition get_notification_cursor (agent : string) : bus string :=
  get_cursor "GET notification cursor" (notification_cursor_key agent).

Definition set_notification_cursor (agent stream_id : string) : bus unit :=
  command "SET notification cursor" (redis_SET (notification_cursor_key agent) stream_id None).

Definition inbox_cursor_key (agent : string) : string := "bus:cursor:" +:+ agent.

Definition get_inbox_cursor (agent : string) : bus string :=
  get_cursor "GET inbox cursor" (inbox_cursor_key agent).

Definition set_inbox_cursor (agent stream_id : string) : bus unit :=
  set_expiring_cursor "SET + EXPIRE inbox cursor" (inbox_cursor_key agent) stream_id.

(** *** Presence *)

Definition presence_guards (agent status : string) (session_id : option string)
    (capabilities : list string) : Result unit :=
  let? _ := reject_nul_in_fields [(agent, "agent"); (status, "status")] in
  let? _ := match session_id with Some sid => reject_nul_bytes sid "session_id" | None => Ok tt end in
  foldr (λ cap rest, let? _ := reject_nul_bytes cap "capability" in rest) (Ok tt) capabilities.

(** Without a writer the row is stored directly, which is not modelled. *)
Definition bus_set_presence (s : BusSettings) (agent status : string) (session_id : option string)
    (capabilities : list string) (ttl_seconds : Z) (metadata : json) (pg_writer : bool)
    : bus Presence :=
  let+ _ := bus_lift (presence_guards agent status session_id capabilities) in
  let+ sid := match session_id with Some sid => bret sid | None => fresh_uuid end in
  let+ now := clock in
  let p := mkPresence agent status PROTOCOL_VERSION (format_timestamp now) sid capabilities
             metadata ttl_seconds in
  let+ _ := command "SET EX failed"
    (redis_SETEX (bs_presence_prefix s +:+ agent) (presence_text p) ttl_seconds) in
  let+ _ := command "PUBLISH presence failed"
    (redis_PUBLISH (bs_channel_key s)
       (json_text (obj [("event", JStr "presence"); ("presence", presence_value p)]))) in
  let+ _ := bwhen pg_writer (send_presence p) in
  bret p.

Definition bus_list_presence (s : BusSettings) : bus (list Presence) :=
  let+ keys := scan_keys "SCAN failed" (bs_presence_prefix s) in
  let+ ps := get_each "GET failed" presence_of_text keys in
  bret (sort_by (λ a b, str_le (p_agent a) (p_agent b)) ps).

(** ** Typed operations

    [ops/message.rs] over the connection. *)

Definition knock_metadata (request_ack : bool) : json :=
  obj [("knock", JBool true); ("delivery_hint", JStr "sse");
       ("expected_response_kind", JStr (if request_ack then "ack" else "status"))].

Definition post_ack (s : BusSettings) (agent message_id body : string) (pg_writer sse : bool)
    : bus (Message * string) :=
  let+ msg := bus_post_message s
    (mkPayload agent "all" "ack" body None [] "normal" false (Some message_id)
       (obj [("ack_for", JStr message_id)])) pg_writer sse in
  let+ _ := caught (clear_pending_ack message_id) in
  let+ _ := caught (clear_ack_deadline message_id) in
  bret (msg, message_id).
End bus.
