(* ===== verification/Inbox.v ===== *)
(** * Inbox: reading an agent's notifications

    [ops/inbox.rs]: [check_inbox] over its storage seam [InboxStore], the cursor lanes,
    the aggregation of messages and the orchestrator's summary. The seam is a class;
    its instance is a Redis connection. *)

From Stdlib Require Import ZArith Lia Ascii.
From stdpp Require Import base option list strings gmap sorting.
From S2P Require Import Prelude Str Json Validation McpSchema ClaimTypes Outbox Redis.
From S2P Require Import Channels Messages StreamEntry ReplayScript OutboxHub SyncStore Bus.

Definition INBOX_PAGE_SIZE : nat := 256.
Definition INBOX_SCAN_LIMIT : nat := 4096.
Definition FILTER_CURSOR_PREFIX : string := "bus:notify_filter_cursor:".

(** ** Requests *)

(** [MessageFilters] of [ops/mod.rs]. *)
Record MessageFilters := mkFilters {
  mf_repo : option string;
  mf_session : option string;
  mf_tags : list string;
  mf_thread_id : option string;
  mf_topic : option string;
}.

Record CheckInboxRequest := mkCheck {
  ci_agent : string;
  ci_limit : nat;
  ci_reset_cursor : bool;
  ci_filters : MessageFilters;
}.

Record CheckInboxResult := mkInbox {
  ir_messages : list Message;
  ir_cursor_was : string;
  ir_cursor_now : string;
  ir_inbox_cursor_key : string;
}.

(** The storage seam. *)
Class InboxStore (W : Type) := {
  load_cursor : string → W → Result string * W;
  save_cursor : string → string → W → Result unit * W;
  load_page : string → string → nat → W → Result (list Notification) * W;
}.

(** SHA-256 with URL-safe base64, and the JSON text of a lane's identity. *)
Class LaneText := {
  sha256_base64 : string → string;
  identity_text : string * list string * option string * option string → string;
  sha256_base64_length t : String.length (sha256_base64 t) = 43;
}.

(** [query_scope_tags] ([postgres_store.rs]): each scoped tag once, in order. *)
Fixpoint first_of_each (seen : list string) (l : list string) : list string :=
  match l with
  | [] => []
  | x :: l => if bool_decide (x ∈ seen) then first_of_each seen l
              else x :: first_of_each (x :: seen) l
  end.

Definition filled_scope (head : string) (v : option string) : list string :=
  match v with
  | Some v => if is_empty v then [] else [head +:+ v]
  | None => []
  end.

Definition query_scope_tags (repo session : option string) (tags : list string) : list string :=
  first_of_each []
    (filled_scope "repo:" repo ++ filled_scope "session:" session
     ++ List.filter (λ t, negb (is_empty t)) tags).

Definition scoped_required_tags (f : MessageFilters) : list string :=
  query_scope_tags (mf_repo f) (mf_session f) (mf_tags f).

(** [Vec::dedup]: consecutive repetitions. *)
Fixpoint dedup (l : list string) : list string :=
  match l with
  | x :: ((y :: _) as rest) => if bool_decide (x = y) then dedup rest else x :: dedup rest
  | _ => l
  end.

(** The tags of a lane: sorted, each once. *)
Definition lane_tags (f : MessageFilters) : list string :=
  dedup (sort_by str_le (scoped_required_tags f)).

Section inbox.
Context `{LaneText}.

Definition lane_key (r : CheckInboxRequest) (required_tags : list string) : string :=
  let f := ci_filters r in
  if bool_decide (required_tags = []) && bool_decide (mf_thread_id f = None)
     && bool_decide (mf_topic f = None)
  then notification_cursor_key (ci_agent r)
  else FILTER_CURSOR_PREFIX +:+ ci_agent r +:+ ":v1:" +:+
         sha256_base64 (identity_text (ci_agent r, required_tags, mf_thread_id f, mf_topic f)).

(** What the inbox of a request selects. *)
Definition inbox_matches (r : CheckInboxRequest) (required_tags : list string) (msg : Message) : bool :=
  message_matches_filters msg (Some (ci_agent r)) None true (mf_topic (ci_filters r))
    (mf_thread_id (ci_filters r)) required_tags.

(** ** Checking *)

(** The state of the loops: the cursor, the messages and the number of entries seen. *)
Record scan := mkScan {
  sc_cursor : string;
  sc_messages : list Message;
  sc_scanned : nat;
}.

(** The loop over one page. *)
Fixpoint scan_notes (matches : Message → bool) (limit : nat) (page : list Notification) (s : scan)
    : Result scan :=
  match page with
  | [] => Ok s
  | n :: page =>
      match n_stream_id n with
      | None => Err (Internal "Notification has no stream cursor")
      | Some stream_id =>
          if matches (n_message n) then
            let s := mkScan stream_id (sc_messages s ++ [n_message n]) (S (sc_scanned s)) in
            if (length (sc_messages s) =? limit)%nat then Ok s
            else scan_notes matches limit page s
          else scan_notes matches limit page (mkScan stream_id (sc_messages s) (S (sc_scanned s)))
      end
  end.

(** The loop over the pages: every full page scans at least one entry, so the scan limit
    is fuel enough. *)
Fixpoint scan_pages {W} `{!InboxStore W} (fuel : nat) (agent : string) (matches : Message → bool)
    (limit : nat) (s : scan) (w : W) : Result scan * W :=
  match fuel with
  | O => (Ok s, w)
  | S fuel =>
      if (length (sc_messages s) <? limit)%nat && (sc_scanned s <? INBOX_SCAN_LIMIT)%nat then
        let page_size := Nat.min INBOX_PAGE_SIZE (INBOX_SCAN_LIMIT - sc_scanned s) in
        let '(page, w) := load_page agent (sc_cursor s) page_size w in
        match page with
        | Err e => (Err e, w)
        | Ok page =>
            match scan_notes matches limit page s with
            | Err e => (Err e, w)
            | Ok s => if (length page <? page_size)%nat then (Ok s, w)
                      else scan_pages fuel agent matches limit s w
            end
        end
      else (Ok s, w)
  end.

(** Committing the cursor once the scan is over. *)
Definition commit_cursor {W} `{!InboxStore W} (key cursor now : string) (w : W) : Result unit * W :=
  if bool_decide (now = cursor) then (Ok tt, w) else save_cursor key now w.

Definition check_inbox_with_store {W} `{!InboxStore W} (r : CheckInboxRequest) (w : W)
    : Result CheckInboxResult * W :=
  let required_tags := lane_tags (ci_filters r) in
  let key := lane_key r required_tags in
  let '(reset, w) := if ci_reset_cursor r then save_cursor key "0-0" w else (Ok tt, w) in
  match reset with
  | Err e => (Err e, w)
  | Ok _ =>
      let '(cursor, w) := load_cursor key w in
      match cursor with
      | Err e => (Err e, w)
      | Ok cursor =>
          let '(scanned, w) :=
            scan_pages (S INBOX_SCAN_LIMIT) (ci_agent r) (inbox_matches r required_tags) (ci_limit r)
              (mkScan cursor [] 0) w in
          match scanned with
          | Err e => (Err e, w)
          | Ok s =>
              let '(saved, w) := commit_cursor key cursor (sc_cursor s) w in
              (let? _ := saved in
               Ok (mkInbox (sc_messages s) cursor (sc_cursor s) key), w)
          end
      end
  end.

(** ** The store of a connection *)

Section on_redis.
Context `{Chrono} `{StoreText} `{BodyCodec} `{!EntryText} `{HubText} `{!BusText}.

(** [?] on a Redis error. *)
Definition redis_error {A} (r : result string A) : Result A := map_err Redis r.

Definition conn_cursor (env : bus_env) (key : string) (c : conn) : Result string * conn :=
  let '(r, c) := raw_command (redis_GET key) env c in
  (let? v := redis_error r in Ok (from_option (λ s, s) "0-0" v), c).

Definition conn_save (env : bus_env) (key value : string) (c : conn) : Result unit * conn :=
  let '(r, c) := raw_command
    (if starts_with key FILTER_CURSOR_PREFIX then redis_SETEX key value CURSOR_TTL_SECS
     else redis_SET key value None) env c in
  (redis_error r, c).

Definition conn_page (env : bus_env) (agent cursor : string) (limit : nat) (c : conn)
    : Result (list Notification) * conn :=
  list_notifications_since_id agent cursor limit env c.

Definition conn_store (env : bus_env) : InboxStore conn := {|
  load_cursor := conn_cursor env;
  save_cursor := conn_save env;
  load_page := conn_page env;
|}.

Definition check_inbox (env : bus_env) (r : CheckInboxRequest) (c : conn)
    : Result CheckInboxResult * conn :=
  @check_inbox_with_store conn (conn_store env) r c.
End on_redis.

(** ** Aggregation *)

Record SessionSummary := mkSummary {
  su_agent_count : nat;
  su_message_count : nat;
  su_topic_histogram : list (string * nat);
  su_active_agents : list string;
  su_time_range : option (string * string);
  su_severity_counts : gmap string nat;
  su_open_threads : list string;
}.

(** A [BTreeSet] and a [BTreeMap] of counts, as the lists their iteration gives. *)
Fixpoint set_insert (x : string) (l : list string) : list string :=
  match l with
  | [] => [x]
  | y :: l' => if bool_decide (x = y) then l else if str_le x y then x :: l else y :: set_insert x l'
  end.

Fixpoint count_insert (x : string) (l : list (string * nat)) : list (string * nat) :=
  match l with
  | [] => [(x, 1)]
  | (y, n) :: l' =>
      if bool_decide (x = y) then (y, S n) :: l'
      else if str_le x y then (x, 1) :: l else (y, n) :: count_insert x l'
  end.

(** [str::lines]: a final newline ends the last line, and a line loses the carriage
    return before its newline. *)
Definition carriage_return : ascii := ascii_of_N 13.

Definition strip_cr (line : string) : string :=
  from_option (λ l, l) line (strip_suffix line (String carriage_return "")).

Fixpoint line_list (parts : list string) : list string :=
  match parts with
  | [] => []
  | [last] => if is_empty last then [] else [last]
  | line :: parts => strip_cr line :: line_list parts
  end.

Definition lines (s : string) : list string := line_list (split_char newline s).

Section aggregate.
Context `{UnicodeCase}.

Definition severity_of (line : string) : option string :=
  rest ← strip_prefix (to_uppercase line) "SEVERITY:";
  let level := trim rest in
  if starts_with level "CRITICAL" then Some "CRITICAL"
  else if starts_with level "HIGH" then Some "HIGH"
  else if starts_with level "MEDIUM" then Some "MEDIUM"
  else if starts_with level "LOW" then Some "LOW"
  else None.

Definition count_severity (counts : gmap string nat) (line : string) : gmap string nat :=
  match severity_of line with
  | Some k => <[k := S (default 0 (counts !! k))]> counts
  | None => counts
  end.

Definition earlier_of (a : option string) (ts : string) : option string :=
  match a with Some f => if str_le f ts then Some f else Some ts | None => Some ts end.
Definition later_of (a : option string) (ts : string) : option string :=
  match a with Some l => if str_le ts l then Some l else Some ts | None => Some ts end.

(** The accumulators of the loop. *)
Record tally := mkTally {
  ta_agents : list string;
  ta_topics : list (string * nat);
  ta_severities : gmap string nat;
  ta_threads : list string;
  ta_first : option string;
  ta_last : option string;
}.

Definition tally_message (t : tally) (msg : Message) : tally :=
  mkTally (set_insert (m_from msg) (ta_agents t)) (count_insert (m_topic msg) (ta_topics t))
    (foldl count_severity (ta_severities t) (lines (m_body msg)))
    (match m_thread_id msg with Some tid => set_insert tid (ta_threads t) | None => ta_threads t end)
    (earlier_of (ta_first t) (m_timestamp_utc msg)) (later_of (ta_last t) (m_timestamp_utc msg)).

Definition histogram_le (a b : string * nat) : bool :=
  (b.2 <? a.2)%nat || ((b.2 =? a.2)%nat && str_le a.1 b.1).

Definition aggregate_messages (msgs : list Message) : SessionSummary :=
  let t := foldl tally_message (mkTally [] [] ∅ [] None None) msgs in
  mkSummary (length (ta_agents t)) (length msgs) (sort_by histogram_le (ta_topics t)) (ta_agents t)
    (match ta_first t, ta_last t with Some f, Some l => Some (f, l) | _, _ => None end)
    (ta_severities t) (ta_threads t).

(** ** The orchestrator's summary *)

Record OrchestratorSummary := mkOrchestrator {
  os_new_messages : nat;
  os_new_findings : nat;
  os_new_acks : nat;
  os_presence_changes : list string;
  os_claim_changes : list string;
  os_new_knocks : nat;
  os_since_cursor : option string;
  os_next_cursor : string;
}.

(** The resource of an ownership message: its tag, its first line, or its topic. *)
Definition arbitration_tag (tag : string) : option string :=
  r ← strip_prefix tag "arbitration:"; if is_empty r then None else Some r.

Fixpoint first_some_of {A} (f : string → option A) (l : list string) : option A :=
  match l with
  | [] => None
  | x :: l => match f x with Some a => Some a | None => first_some_of f l end
  end.

Definition line_resource (line : string) : option string :=
  let trimmed := trim line in
  if is_empty trimmed then None
  else Some (match strip_prefix trimmed "CLAIM CONTESTED:" with
             | Some rest => trim rest
             | None => trimmed
             end).

Definition extract_resource_from_message (msg : Message) : string :=
  match first_some_of arbitration_tag (m_tags msg) with
  | Some r => r
  | None => from_option (λ r, r) (m_topic msg) (first_some_of line_resource (lines (m_body msg)))
  end.

Definition is_finding (msg : Message) : bool :=
  let topic := to_lowercase (m_topic msg) in
  bool_decide (topic = "findings") || contains topic "finding" || contains (m_body msg) "FINDING:".
Definition is_ack (msg : Message) : bool :=
  bool_decide (to_lowercase (m_topic msg) = "ack") || contains (m_body msg) "ACK".
Definition is_presence_change (msg : Message) : bool :=
  bool_decide (to_lowercase (m_topic msg) ∈ ["presence"; "status"]).
Definition is_claim_change (msg : Message) : bool :=
  let topic := to_lowercase (m_topic msg) in
  bool_decide (topic ∈ ["ownership"; "claim"; "arbitration"]) || starts_with topic "arbitration-".
Definition is_knock (msg : Message) : bool := bool_decide (to_lowercase (m_topic msg) = "knock").

Definition count_if (f : Message → bool) (ns : list Notification) : nat :=
  length (List.filter (λ n, f (n_message n)) ns).

Definition collect (f : Message → bool) (g : Message → string) (ns : list Notification) : list string :=
  foldl (λ s n, if f (n_message n) then set_insert (g (n_message n)) s else s) [] ns.

Definition last_stream_id (since : string) (ns : list Notification) : string :=
  foldl (λ s n, from_option (λ sid, sid) s (n_stream_id n)) since ns.

Definition categorise_notifications (ns : list Notification) (since_cursor : string)
    : OrchestratorSummary :=
  mkOrchestrator (length ns) (count_if is_finding ns) (count_if is_ack ns)
    (collect is_presence_change m_from ns) (collect is_claim_change extract_resource_from_message ns)
    (count_if is_knock ns) (Some since_cursor) (last_stream_id since_cursor ns).
End aggregate.

Record SummarizeInboxResult := mkInboxSummary {
  is_summary : SessionSummary;
  is_cursor_was : string;
  is_cursor_now : string;
}.

Definition SUMMARY_LIMIT : nat := 100 * 100.

Section summary.
Context `{Chrono} `{StoreText} `{BodyCodec} `{!EntryText} `{HubText} `{!BusText} `{UnicodeCase}.

Definition summarize_inbox (env : bus_env) (agent : string) (repo session : option string)
    (limit : nat) (reset_cursor : bool) (c : conn) : Result SummarizeInboxResult * conn :=
  let '(inbox, c) := check_inbox env
    (mkCheck agent limit reset_cursor (mkFilters repo session [] None None)) c in
  (let? i := inbox in
   Ok (mkInboxSummary (aggregate_messages (ir_messages i)) (ir_cursor_was i) (ir_cursor_now i)), c).

Definition orchestrator_summary (agent : string) (cursor : option string) : bus OrchestratorSummary :=
  let+ effective := match cursor with
                    | Some c => if is_empty c then get_notification_cursor agent else bret c
                    | None => get_notification_cursor agent
                    end in
  let+ ns := list_notifications_since_id agent effective SUMMARY_LIMIT in
  let summary := categorise_notifications ns effective in
  let+ _ := bwhen (negb (bool_decide (os_next_cursor summary = effective)))
              (set_notification_cursor agent (os_next_cursor summary)) in
  bret summary.
End summary.
End inbox.
