(* ===== verification/Ops.v ===== *)
(** * Ops: typed operations over the connection

    [ops/message.rs], [ops/mod.rs], [ops/thread.rs], [ops/task.rs] and
    [ops/subscription.rs] with the parts of [redis_bus.rs] under them: validated sending,
    filters, threads, task queues and subscriptions. Validation comes before the first
    command, so before the connection is opened. *)

From Stdlib Require Import ZArith Lia Ascii.
From stdpp Require Import base option list strings gmap sorting.
From S2P Require Import Prelude Str Json Validation McpSchema ClaimTypes Outbox Redis.
From S2P Require Import Channels Messages StreamEntry ReplayScript OutboxHub SyncStore Bus Inbox.

(** ** Filters *)

Definition filters_is_empty (f : MessageFilters) : bool :=
  bool_decide (mf_repo f = None) && bool_decide (mf_session f = None)
  && bool_decide (mf_tags f = []) && bool_decide (mf_thread_id f = None)
  && bool_decide (mf_topic f = None).

Definition has_meaningful_tag_filters (f : MessageFilters) : bool :=
  bool_decide (is_Some (mf_repo f)) || bool_decide (is_Some (mf_session f))
  || negb (bool_decide (mf_tags f = [])) || bool_decide (is_Some (mf_thread_id f)).

Definition tagged (msg : Message) (tag : string) : bool :=
  existsb (λ t, bool_decide (t = tag)) (m_tags msg).

(** [ops::message_matches_filters]. *)
Definition filters_match (msg : Message) (f : MessageFilters) : bool :=
  if match mf_repo f with Some repo => negb (tagged msg ("repo:" +:+ repo)) | None => false end
  then false
  else if match mf_session f with
          | Some s => negb (tagged msg ("session:" +:+ s))
          | None => false
          end
  then false
  else if negb (forallb (tagged msg) (mf_tags f)) then false
  else if match mf_thread_id f with
          | Some t => negb (bool_decide (m_thread_id msg = Some t))
          | None => false
          end
  then false
  else negb match mf_topic f with Some t => negb (bool_decide (m_topic msg = t)) | None => false end.

(** ** Validated sending *)

Record ValidatedItem := mkItem {
  vi_sender : string;
  vi_recipient : string;
  vi_topic : string;
  vi_body : string;
  vi_priority : string;
  vi_schema : option string;
  vi_tags : list string;
  vi_thread_id : option string;
  vi_reply_to : option string;
  vi_request_ack : bool;
  vi_metadata : json;
}.

Definition display_error (e : AgentBusError) : string :=
  match e with
  | InvalidParams m => "Invalid parameters: " +:+ m
  | NotFound m => "Not found: " +:+ m
  | Postgres m => "Database error: " +:+ m
  | Redis m => "Bus/Redis error: " +:+ m
  | Serde m => "Serialization error: " +:+ m
  | Internal m => "Internal error: " +:+ m
  end.

Section sending.
Context `{UnicodeCase}.

(** The shared part: the checked fields, the schema and the fitted body, and the schema's
    own verdict on it. *)
Definition checked_fields (transport : string) (i : ValidatedItem)
    : Result (BatchSendPayload * option MessageSchema * Result unit) :=
  let? _ := validate_priority (vi_priority i) in
  let? sender := Validation.non_empty (vi_sender i) "sender" in
  let? recipient := Validation.non_empty (vi_recipient i) "recipient" in
  let? topic := Validation.non_empty (vi_topic i) "topic" in
  let? body := Validation.non_empty (vi_body i) "body" in
  let? schema := resolve_message_schema transport (vi_schema i) topic in
  let effective := schema_as_str <$> schema in
  let fitted := auto_fit_schema body effective in
  Ok (mkPayload sender recipient topic fitted (vi_thread_id i) (vi_tags i) (vi_priority i)
        (vi_request_ack i) (vi_reply_to i) (vi_metadata i),
      schema, validate_message_schema fitted effective).

(** [validated_post_message] up to its first command. *)
Definition checked_send (transport : string) (i : ValidatedItem)
    : Result (BatchSendPayload * option MessageSchema) :=
  let? (p, schema, verdict) := checked_fields transport i in
  let? _ := verdict in
  Ok (p, schema).

(** One item of a batch: its failures carry its index, a null metadata becomes an
    empty object. *)
Definition plain_metadata (v : json) : json := if bool_decide (v = JNull) then JObj [] else v.

Definition with_plain_metadata (p : BatchSendPayload) : BatchSendPayload :=
  mkPayload (bp_from p) (bp_to p) (bp_topic p) (bp_body p) (bp_thread_id p) (bp_tags p)
    (bp_priority p) (bp_request_ack p) (bp_reply_to p) (plain_metadata (bp_metadata p)).

Definition checked_item (transport : string) (idx : nat) (i : ValidatedItem)
    : Result CheckedBatchSendPayload :=
  let? (p, schema, verdict) :=
    map_err (λ e, InvalidParams ("item " +:+ dec (Z.of_nat idx) +:+ ": " +:+ display_error e))
      (checked_fields transport i) in
  let? _ := map_err (λ e, Internal ("item " +:+ dec (Z.of_nat idx) +:+ ": schema validation failed: "
                                    +:+ display_error e)) verdict in
  Ok (mkChecked (with_plain_metadata p) schema).

Fixpoint checked_items (transport : string) (idx : nat) (items : list ValidatedItem)
    : Result (list CheckedBatchSendPayload) :=
  match items with
  | [] => Ok []
  | i :: items =>
      let? p := checked_item transport idx i in
      let? ps := checked_items transport (S idx) items in
      Ok (p :: ps)
  end.

Context `{Chrono} `{StoreText} `{BodyCodec} `{!EntryText} `{HubText} `{!BusText}.

Definition validated_post_message (s : BusSettings) (transport : string) (i : ValidatedItem)
    (pg_writer sse : bool) : bus Message :=
  let+ (p, schema) := bus_lift (checked_send transport i) in
  let+ posted := bus_post_message_with_schema s p pg_writer sse schema in
  bret (po_message posted).

Definition validated_batch_send (s : BusSettings) (transport : string) (items : list ValidatedItem)
    (pg_writer sse : bool) : bus (list PostedMessage) :=
  let+ payloads := bus_lift (checked_items transport 0 items) in
  bus_post_messages_batch_with_schema s payloads pg_writer sse.

Definition set_presence (s : BusSettings) (agent status : string) (session_id : option string)
    (capabilities : list string) (ttl_seconds : Z) (metadata : json) (pg_writer : bool)
    : bus Presence :=
  let+ agent := bus_lift (Validation.non_empty agent "agent") in
  bus_set_presence s agent status session_id capabilities ttl_seconds metadata pg_writer.

Definition list_messages_live (fuel : nat) (s : BusSettings) (agent from_agent : option string)
    (since_minutes : Z) (limit : nat) (include_broadcast : bool) (f : MessageFilters)
    : bus (option (list Message)) :=
  bus_list_messages_from_redis_with_filters fuel s
    (mkListing agent from_agent since_minutes limit include_broadcast (mf_topic f) (mf_thread_id f)
       (scoped_required_tags f)).
End sending.

(** ** Threads *)

Inductive ThreadStatus : Type := Open | Closed | Archived.

#[export] Instance ThreadStatus_eq_dec : EqDecision ThreadStatus.
Proof. solve_decision. Defined.

Record Thread := mkThread {
  th_thread_id : string;
  th_created_by : string;
  th_created_at : string;
  th_members : list string;
  th_repo : option string;
  th_topic : option string;
  th_status : ThreadStatus;
}.

Record SubscriptionScopes := mkScopes {
  sc_repos : list string;
  sc_sessions : list string;
  sc_threads : list string;
  sc_tags : list string;
  sc_topics : list string;
  sc_priority_min : option string;
  sc_resources : list string;
}.

Record Subscription := mkSub {
  sb_id : string;
  sb_agent : string;
  sb_scopes : SubscriptionScopes;
  sb_created_at : string;
  sb_ttl_seconds : option Z;
  sb_expires_at : option string;
}.

Inductive TaskStatus : Type :=
  TaskPending | TaskInProgress | TaskCompleted | TaskFailed | TaskCancelled.

#[export] Instance TaskStatus_eq_dec : EqDecision TaskStatus.
Proof. solve_decision. Defined.

Definition task_status_display (s : TaskStatus) : string :=
  match s with
  | TaskPending => "pending" | TaskInProgress => "in_progress" | TaskCompleted => "completed"
  | TaskFailed => "failed" | TaskCancelled => "cancelled"
  end.

Definition task_status_from_str (s : string) : Result TaskStatus :=
  if bool_decide (s = "pending") then Ok TaskPending
  else if bool_decide (s = "in_progress") then Ok TaskInProgress
  else if bool_decide (s = "completed") then Ok TaskCompleted
  else if bool_decide (s = "failed") then Ok TaskFailed
  else if bool_decide (s = "cancelled") then Ok TaskCancelled
  else Err (Internal ("invalid task status '" +:+ s +:+ "'; expected one of: "
                      +:+ "pending, in_progress, completed, failed, cancelled")).

Definition thread_status_display (s : ThreadStatus) : string :=
  match s with Open => "open" | Closed => "closed" | Archived => "archived" end.

Definition thread_status_from_str (s : string) : Result ThreadStatus :=
  if bool_decide (s = "open") then Ok Open
  else if bool_decide (s = "closed") then Ok Closed
  else if bool_decide (s = "archived") then Ok Archived
  else Err (Internal ("invalid thread status '" +:+ s +:+ "'; expected open|closed|archived")).

Record TaskCard := mkCard {
  tc_id : string;
  tc_repo : option string;
  tc_paths : list string;
  tc_priority : string;
  tc_depends_on : list string;
  tc_reply_to : option string;
  tc_tags : list string;
  tc_status : TaskStatus;
  tc_body : string;
  tc_created_by : string;
  tc_created_at : string;
}.

(** The texts of these records, and [to_rfc3339]. *)
Class OpsText := {
  thread_text : Thread → string;
  thread_of_text : string → result string Thread;
  subscription_text : Subscription → string;
  subscription_of_text : string → option Subscription;
  card_text : TaskCard → string;
  card_of_text : string → option TaskCard;
  rfc3339_text : Z → string;
}.

Definition THREAD_PREFIX : string := "agent_bus:thread:".
Definition TASK_QUEUE_PREFIX : string := "bus:tasks:".
Definition TASK_QUEUE_TTL_SECS : Z := 259200.
Definition SUBSCRIPTION_KEY_PREFIX : string := "agent_bus:sub:".
Definition VALID_SUBSCRIPTION_PRIORITIES : list string := ["low"; "normal"; "high"; "urgent"].
Definition VALID_TASK_PRIORITIES : list string := ["normal"; "high"; "critical"].

(** ** Lists of Redis *)

Definition list_at (d : hubdb) (now : Z) (key : string) : result string (list string) :=
  match live_entry d now key with
  | None => Ok []
  | Some (VList l) => Ok l
  | Some _ => WRONGTYPE
  end.

Definition redis_LRANGE_all (key : string) : lua (list string) := lread (λ d now, list_at d now key).

Definition redis_RPUSH (key v : string) : lua Z :=
  let$ l := redis_LRANGE_all key in
  let$ _ := lwrite (λ d now, set_keys d
              (<[key := mkEntry (VList (l ++ [v])) (stream_until d now key)]> (hd_keys d))) in
  lret (Z.of_nat (length l) + 1)%Z.

(** A list that has become empty is gone. *)
Definition redis_LPOP (key : string) : lua (option string) :=
  let$ l := redis_LRANGE_all key in
  match l with
  | [] => lret None
  | v :: rest =>
      let$ _ := lwrite (λ d now, set_keys d
                  (if bool_decide (rest = []) then delete key (hd_keys d)
                   else <[key := mkEntry (VList rest) (stream_until d now key)]> (hd_keys d))) in
      lret (Some v)
  end.

(** [DEL] of one key, with its reply. *)
Definition redis_DEL_count (key : string) : lua bool :=
  let$ t := redis_TYPE key in
  let$ _ := redis_DEL [key] in
  lret (negb (bool_decide (t = "none"))).

Section ops.
Context `{Chrono} `{StoreText} `{BodyCodec} `{!EntryText} `{HubText} `{!BusText} `{OpsText}.

(** ** Threads *)

Definition thread_key (id : string) : string := THREAD_PREFIX +:+ id.

Definition with_members (t : Thread) (ms : list string) : Thread :=
  mkThread (th_thread_id t) (th_created_by t) (th_created_at t) ms (th_repo t) (th_topic t)
    (th_status t).
Definition with_status (t : Thread) (s : ThreadStatus) : Thread :=
  mkThread (th_thread_id t) (th_created_by t) (th_created_at t) (th_members t) (th_repo t)
    (th_topic t) s.

Definition store_thread (t : Thread) : bus unit :=
  command "SET thread failed" (redis_SET (thread_key (th_thread_id t)) (thread_text t) None).

Definition create_thread_record (t : Thread) : bus unit :=
  let+ existing := command "GET thread check failed" (redis_GET (thread_key (th_thread_id t))) in
  if bool_decide (is_Some existing)
  then bfail (InvalidParams ("thread '" +:+ th_thread_id t +:+ "' already exists"))
  else store_thread t.

(** [GET] into a [String]: an absent key does not convert. *)
Definition load_thread (id : string) : bus Thread :=
  let+ v := command "GET thread failed (thread not found)"
              (let$ v := redis_GET (thread_key id) in
               match v with Some s => lret s | None => lerr "Response was of incompatible type" end) in
  match thread_of_text v with
  | Ok t => bret t
  | Err e => bfail (Internal ("deserialize thread: " +:+ e))
  end.

(** The shape of joining, leaving and closing: the updated record goes to the key that
    was read. *)
Definition update_thread (id : string) (f : Thread → Thread) : bus Thread :=
  let+ t := load_thread id in
  let+ _ := command "SET thread failed" (redis_SET (thread_key id) (thread_text (f t)) None) in
  bret (f t).

Definition add_member (agent : string) (t : Thread) : Thread :=
  if existsb (λ m, bool_decide (m = agent)) (th_members t) then t
  else with_members t (th_members t ++ [agent]).
Definition drop_member (agent : string) (t : Thread) : Thread :=
  with_members t (List.filter (λ m, negb (bool_decide (m = agent))) (th_members t)).

Definition join_thread_record (id agent : string) : bus Thread := update_thread id (add_member agent).
Definition leave_thread_record (id agent : string) : bus Thread := update_thread id (drop_member agent).
Definition close_thread_record (id : string) : bus Thread :=
  update_thread id (λ t, with_status t Closed).

Definition get_thread_record (id : string) : bus (option Thread) :=
  let+ v := command "GET thread failed" (redis_GET (thread_key id)) in
  match v with
  | Some s => match thread_of_text s with
              | Ok t => bret (Some t)
              | Err e => bfail (Internal ("deserialize thread: " +:+ e))
              end
  | None => bret None
  end.

Definition ok_opt {E A} (r : result E A) : option A := match r with Ok a => Some a | Err _ => None end.

Definition list_threads : bus (list Thread) :=
  let+ keys := scan_keys "SCAN threads failed" THREAD_PREFIX in
  let+ ts := get_each "GET thread failed" (λ s, ok_opt (thread_of_text s)) keys in
  bret (sort_by (λ a b, str_le (th_thread_id a) (th_thread_id b)) ts).

Definition create_thread (thread_id : option string) (created_by : string)
    (repo topic : option string) : bus Thread :=
  let+ agent := bus_lift (Validation.non_empty created_by "created_by") in
  let+ id := match thread_id with
             | Some s => if is_empty (trim s) then fresh_uuid else bret s
             | None => fresh_uuid
             end in
  let+ now := clock in
  let t := mkThread id agent (format_timestamp now) [agent] repo topic Open in
  let+ _ := create_thread_record t in
  bret t.

Definition join_thread (thread_id agent : string) : bus Thread :=
  let+ id := bus_lift (Validation.non_empty thread_id "thread_id") in
  let+ agent := bus_lift (Validation.non_empty agent "agent") in
  join_thread_record id agent.

Definition leave_thread (thread_id agent : string) : bus Thread :=
  let+ id := bus_lift (Validation.non_empty thread_id "thread_id") in
  let+ agent := bus_lift (Validation.non_empty agent "agent") in
  leave_thread_record id agent.

Definition close_thread (thread_id : string) : bus Thread :=
  let+ id := bus_lift (Validation.non_empty thread_id "thread_id") in
  close_thread_record id.

Definition get_thread (thread_id : string) : bus (option Thread) :=
  let+ id := bus_lift (Validation.non_empty thread_id "thread_id") in
  get_thread_record id.

(** ** Task queues *)

Definition task_queue_key (agent : string) : string := TASK_QUEUE_PREFIX +:+ agent.

(** [RPUSH] and [EXPIRE] in one pipeline. *)
Definition push_task (agent task : string) : bus Z :=
  let+ _ := bus_lift (reject_nul_in_fields [(agent, "agent"); (task, "task")]) in
  let key := task_queue_key agent in
  let+ replies := pipeline "RPUSH + EXPIRE task failed"
    [keeping (redis_RPUSH key task); ignoring (redis_EXPIRE key TASK_QUEUE_TTL_SECS)] in
  bret (hd 0%Z (omap id replies)).

Definition pull_task (agent : string) : bus (option string) :=
  command "LPOP task failed" (redis_LPOP (task_queue_key agent)).

Definition peek_tasks (agent : string) (limit : nat) : bus (list string) :=
  let+ l := command "LRANGE tasks failed" (redis_LRANGE_all (task_queue_key agent)) in
  bret (if (limit =? 0)%nat then l else take limit l).

Definition task_queue_length (agent : string) : bus nat :=
  let+ l := command "LLEN task queue failed" (redis_LRANGE_all (task_queue_key agent)) in
  bret (length l).

Definition validate_task_priority (p : string) : Result unit :=
  if bool_decide (p ∈ VALID_TASK_PRIORITIES) then Ok tt
  else Err (Internal ("invalid task priority '" +:+ p +:+ "'; must be one of: "
                      +:+ join ", " VALID_TASK_PRIORITIES)).

Definition push_task_card (agent body created_by priority : string) (repo : option string)
    (paths depends_on : list string) (reply_to : option string) (tags : list string) : bus TaskCard :=
  let+ agent := bus_lift (Validation.non_empty agent "agent") in
  let+ body := bus_lift (Validation.non_empty body "body") in
  let+ created_by := bus_lift (Validation.non_empty created_by "created_by") in
  let+ _ := bus_lift (validate_task_priority priority) in
  let+ id := fresh_uuid in
  let+ now := clock in
  let card := mkCard id repo paths priority depends_on reply_to tags TaskPending body created_by
                (rfc3339_text now) in
  let+ _ := push_task agent (card_text card) in
  bret card.

Definition parse_or_wrap_task_card (raw : string) : bus TaskCard :=
  match card_of_text raw with
  | Some card => bret card
  | None =>
      let+ id := fresh_uuid in
      let+ now := clock in
      bret (mkCard id None [] "normal" [] None [] TaskPending raw "" (rfc3339_text now))
  end.

Definition pull_task_card (agent : string) : bus (option TaskCard) :=
  let+ raw := pull_task agent in
  match raw with
  | Some s => let+ card := parse_or_wrap_task_card s in bret (Some card)
  | None => bret None
  end.

Definition peek_task_cards (agent : string) (limit : nat) : bus (list TaskCard) :=
  let+ raw := peek_tasks agent limit in
  bmap parse_or_wrap_task_card raw.

(** ** Subscriptions *)

Fixpoint reject_nul_all (vals : list string) (name : string) : Result unit :=
  match vals with
  | [] => Ok tt
  | v :: vals => let? _ := reject_nul_bytes v name in reject_nul_all vals name
  end.

Definition opt_one (o : option string) : list string := match o with Some s => [s] | None => [] end.

Definition validate_subscription_nul_fields (sub : Subscription) : Result unit :=
  let sc := sb_scopes sub in
  let? _ := reject_nul_in_fields [(sb_agent sub, "agent"); (sb_id sub, "subscription_id");
                                  (sb_created_at sub, "created_at")] in
  let? _ := reject_nul_all (opt_one (sb_expires_at sub)) "expires_at" in
  let? _ := reject_nul_all (sc_repos sc) "scope_repo" in
  let? _ := reject_nul_all (sc_sessions sc) "scope_session" in
  let? _ := reject_nul_all (sc_threads sc) "scope_thread" in
  let? _ := reject_nul_all (sc_tags sc) "scope_tag" in
  let? _ := reject_nul_all (sc_topics sc) "scope_topic" in
  let? _ := reject_nul_all (opt_one (sc_priority_min sc)) "scope_priority_min" in
  reject_nul_all (sc_resources sc) "scope_resource".

Definition subscription_key (agent sub_id : string) : string :=
  SUBSCRIPTION_KEY_PREFIX +:+ agent +:+ ":" +:+ sub_id.

Definition save_subscription (sub : Subscription) : bus unit :=
  let+ _ := bus_lift (validate_subscription_nul_fields sub) in
  let key := subscription_key (sb_agent sub) (sb_id sub) in
  match sb_ttl_seconds sub with
  | Some ttl => command "SET subscription with TTL failed" (redis_SETEX key (subscription_text sub) ttl)
  | None => command "SET subscription failed" (redis_SET key (subscription_text sub) None)
  end.

(** The keys of one agent: those that start with its name and a colon. *)
Definition list_subscriptions_record (agent : string) : bus (list Subscription) :=
  let+ keys := scan_keys "SCAN subscriptions failed" (SUBSCRIPTION_KEY_PREFIX +:+ agent +:+ ":") in
  let+ subs := get_each "GET subscription failed" subscription_of_text keys in
  bret (sort_by (λ a b, str_le (sb_created_at a) (sb_created_at b)) subs).

Definition delete_subscription (agent sub_id : string) : bus bool :=
  command "DEL subscription failed" (redis_DEL_count (subscription_key agent sub_id)).

Definition I64_MAX : Z := (2 ^ 63 - 1)%Z.

(** [None] is a panic of the calling task: the lifetime is beyond the instants of chrono. *)
Definition subscribe (agent : string) (scopes : SubscriptionScopes) (ttl_seconds : option Z)
    : bus (option Subscription) :=
  let+ agent := bus_lift (Validation.non_empty agent "agent") in
  let+ _ := bus_lift
    match sc_priority_min scopes with
    | Some pmin =>
        if bool_decide (pmin ∈ VALID_SUBSCRIPTION_PRIORITIES) then Ok tt
        else Err (InvalidParams ("invalid priority_min '" +:+ pmin +:+ "'; must be one of: "
                                 +:+ join ", " VALID_SUBSCRIPTION_PRIORITIES))
    | None => Ok tt
    end in
  let+ now := clock in
  match match ttl_seconds with
        | Some ttl => Some <$> add_seconds now (Z.min ttl I64_MAX)
        | None => Some None
        end with
  | None => bret None
  | Some expiry =>
      let+ id := fresh_uuid in
      let sub := mkSub id agent scopes (rfc3339_text now) ttl_seconds (rfc3339_text <$> expiry) in
      let+ _ := save_subscription sub in
      bret (Some sub)
  end.

Definition unsubscribe (agent subscription_id : string) : bus bool :=
  let+ agent := bus_lift (Validation.non_empty agent "agent") in
  let+ sub_id := bus_lift (Validation.non_empty subscription_id "subscription_id") in
  delete_subscription agent sub_id.

Definition list_subscriptions (agent : string) : bus (list Subscription) :=
  let+ agent := bus_lift (Validation.non_empty agent "agent") in
  list_subscriptions_record agent.
End ops.
