(* ===== verification/CloudSync.v ===== *)
(** * CloudSync: replicating a hub to the cloud tier

    Models [crates/agent-bus-http/src/cloud_sync.rs]: the configuration, the cursors
    with their rejection receipts, the engine over the traits [LocalStore] and
    [CloudApi], and the loop that runs it. The traits are classes over a world, which
    holds the hub's store, the cloud and the clocks; between two calls anybody may have
    changed it. The state file is [state_disk]: each save succeeds, leaves the old file,
    or has replaced it and reports a failure. A process that dies at an [await] is that
    call answering with an error, followed by a restart. *)

From Stdlib Require Import ZArith Lia Ascii.
From stdpp Require Import base option list strings gmap.
From S2P Require Import Prelude Str Json Validation McpSchema ClaimTypes HubTypes Candidates.
From S2P Require Import Redis Channels Messages StreamEntry ReplayScript OutboxHub SyncStore.

Definition MAX_BATCH : nat := 500.
Definition DEFAULT_OUTBOX_CAP : nat := 5000.
Definition PULL_PAGE : nat := 200.
Definition DEFAULT_POLL_MS : Z := 2000.
Definition DEFAULT_PRESENCE_POLL_MS : Z := 15000.
Definition MAX_CHUNKS_PER_TICK : nat := 20.
Definition MAX_REJECTION_RECEIPTS : nat := 4096.
Definition MAX_REJECTION_STATE_BYTES : Z := 4 * 1024 * 1024.

(** ** Configuration *)

Record CloudSyncConfig := mkCloudConfig {
  cc_base_url : string;
  cc_token : BearerToken;
  cc_hub : string;
  cc_state_path : string;
  cc_outbox_cap : nat;
  cc_batch_size : nat;
  cc_poll_interval : Z;
  cc_presence_interval : Z;
  cc_backfill : bool;
}.

Inductive Resolution : Type :=
  | Disabled
  | InvalidConfig (reason : string)
  | Enabled (config : CloudSyncConfig).

(** The part of [Settings] read here. *)
Record CloudSettings := mkCloudSettings {
  cs_cloud_url : option string;
  cs_cloud_token_file : option string;
  cs_hub_identity : option string;
  cs_cloud_sync_state_file : option string;
}.

Definition is_loopback (h : Host) : bool :=
  match h with
  | Domain nm => eq_ignore_ascii_case nm "localhost"
  | Ipv4 bits => (Z.shiftr bits 24 =? 127)%Z
  | Ipv6 bits => (bits =? 1)%Z
  end.

Section config.
Context `{DebugFmt} `{UrlLib}.

Definition validate_cloud_url (raw : string) : result string string :=
  let? parsed := ok_or "cloud_url is not a valid URL" (url_parse (trim raw)) in
  if negb (is_empty (username parsed)) || bool_decide (is_Some (password parsed))
  then Err "cloud_url must not contain credentials"
  else if bool_decide (is_Some (HubTypes.query parsed)) || bool_decide (is_Some (fragment parsed))
  then Err "cloud_url must not contain a query or fragment"
  else
    let? h := ok_or "cloud_url has no host" (host parsed) in
    if bool_decide (scheme parsed = "https")
       || (bool_decide (scheme parsed = "http") && is_loopback h)
    then Ok (trim_end_matches "/" (serialization parsed))
    else Err "cloud_url must be https (http is allowed only for loopback)".

Definition build_config (s : CloudSettings) (env : CredentialEnv)
    : result string CloudSyncConfig :=
  let? url := ok_or "cloud_url is required when cloud_token_file is set" (cs_cloud_url s) in
  let? token_file := ok_or "cloud_token_file is required when cloud_url is set"
                       (cs_cloud_token_file s) in
  let? hub := ok_or ("hub_identity is required for cloud sync: it is this hub's origin_hub and the "
                     +:+ "exclude_origin of every pull") (cs_hub_identity s) in
  let? base_url := validate_cloud_url url in
  let? token := read_private_token_file token_file env in
  let? state_path :=
    match cs_cloud_sync_state_file s with
    | Some path => Ok path
    | None =>
        let? home := ok_or "cannot choose a cloud sync state file without a home directory"
                       (home_dir env) in
        Ok (foldl (path_join env) home [".config"; "agent-bus"; "cloud-sync-state.json"])
    end in
  Ok (mkCloudConfig base_url token hub state_path DEFAULT_OUTBOX_CAP MAX_BATCH DEFAULT_POLL_MS
        DEFAULT_PRESENCE_POLL_MS
        match var env "AGENT_BUS_CLOUD_SYNC_BACKFILL" with
        | Some v => bool_decide (trim v ∈ ["1"; "true"; "yes"])
        | None => false
        end).

Definition resolve (s : CloudSettings) (env : CredentialEnv) : Resolution :=
  match cs_cloud_url s, cs_cloud_token_file s with
  | None, None => Disabled
  | _, _ => match build_config s env with
            | Ok config => Enabled config
            | Err reason => InvalidConfig reason
            end
  end.
End config.

(** ** Status *)

Record CloudSyncStatus := mkStatus {
  st_reachable : bool;
  st_queue_depth : Z;
  st_last_push_ms : Z;
  st_last_pull_ms : Z;
  st_dropped_batches : Z;
  st_last_error : option string;
}.

Definition default_status : CloudSyncStatus := mkStatus false 0 0 0 0 None.

Definition truncate (text : string) (max : nat) : string := String.concat "" (take max (chars text)).

Definition record_push_ok (now_ms : Z) (s : CloudSyncStatus) : CloudSyncStatus :=
  mkStatus true (st_queue_depth s) now_ms (st_last_pull_ms s) (st_dropped_batches s) None.
Definition record_pull_ok (now_ms : Z) (s : CloudSyncStatus) : CloudSyncStatus :=
  mkStatus true (st_queue_depth s) (st_last_push_ms s) now_ms (st_dropped_batches s) None.
Definition record_tick_ok (s : CloudSyncStatus) : CloudSyncStatus :=
  mkStatus true (st_queue_depth s) (st_last_push_ms s) (st_last_pull_ms s)
    (st_dropped_batches s) None.
Definition record_error (reason : string) (s : CloudSyncStatus) : CloudSyncStatus :=
  mkStatus false (st_queue_depth s) (st_last_push_ms s) (st_last_pull_ms s)
    (st_dropped_batches s) (Some (truncate reason 300)).
Definition store_depth (n : Z) (s : CloudSyncStatus) : CloudSyncStatus :=
  mkStatus (st_reachable s) n (st_last_push_ms s) (st_last_pull_ms s) (st_dropped_batches s)
    (st_last_error s).
Definition count_dropped (s : CloudSyncStatus) : CloudSyncStatus :=
  mkStatus (st_reachable s) (st_queue_depth s) (st_last_push_ms s) (st_last_pull_ms s)
    (st_dropped_batches s + 1) (st_last_error s).

Definition invalid_status (reason : string) : CloudSyncStatus := record_error reason default_status.

Record CloudHealth := mkHealth {
  cloud_configured : bool;
  cloud_reachable : bool;
  cloud_queue_depth : Z;
  cloud_last_push_at_utc : option string;
  cloud_last_push_age_seconds : option Z;
  cloud_last_pull_at_utc : option string;
  cloud_last_pull_age_seconds : option Z;
  cloud_dropped_batches_total : Z;
  cloud_last_error : option string;
}.

(** [format_ms] is chrono's [from_timestamp_millis] and [format]. *)
Definition snapshot (format_ms : Z → option string) (now_ms : Z) (s : CloudSyncStatus)
    : CloudHealth :=
  let at_ (ms : Z) := if (0 <? ms)%Z then format_ms ms else None in
  let age (ms : Z) := if (0 <? ms)%Z then Some (Z.max 0 (Z.quot (now_ms - ms) 1000)) else None in
  mkHealth true (st_reachable s) (st_queue_depth s) (at_ (st_last_push_ms s))
    (age (st_last_push_ms s)) (at_ (st_last_pull_ms s)) (age (st_last_pull_ms s))
    (st_dropped_batches s) (st_last_error s).

(** ** Backoff *)

(** Delays are in units of [2^-32] s, in which [backoff_delay] is exact: the jitter is
    [n / 2^32]. *)
Definition UNIT : Z := 2 ^ 32.

Definition backoff_delay (failures jitter : Z) : Z :=
  let ceiling := Z.min (Z.shiftl 1 (Z.min failures 6)) 60 in
  Z.min (60 * UNIT) (Z.max UNIT (ceiling * Z.min UNIT (Z.max 0 jitter))).

(** From the 128 bits of a version 4 UUID. *)
Definition jitter_unit (bits : Z) : Z := Z.land (Z.shiftr bits 75) 0xFFFFFFFF.

(** ** Cursors *)

Record RejectionReceipt := mkReceipt { rc_message_id : string; rc_local_stream_id : string }.

#[export] Instance RejectionReceipt_eq_dec : EqDecision RejectionReceipt.
Proof. solve_decision. Defined.

Record SyncCursors := mkCursors {
  push_stream_id : string;
  pull_cursor : Z;
  presence_origin_id : Z;
  rejection_receipts : list RejectionReceipt;
  rejected_total : Z;
}.

Definition default_cursors : SyncCursors := mkCursors "0-0" 0 0 [] 0.

(** The JSON of the state file. *)
Class CursorText := {
  cursors_text : SyncCursors → string;
  text_cursors : string → option SyncCursors;
  text_cursors_text c : text_cursors (cursors_text c) = Some c;
}.

Inductive save_outcome : Type := SaveOk | SaveFailed | SaveUnsynced.

Record state_disk := mkDisk {
  dk_file : option string;
  dk_readable : bool;
  dk_saves : list save_outcome;
}.

Section cursors.
Context `{CursorText}.

Definition load_cursors (d : state_disk) : result string (option SyncCursors) :=
  if negb (dk_readable d) then Err "reading the cloud sync state"
  else match dk_file d with
       | None => Ok None
       | Some text => let? c := ok_or "cloud sync state is corrupt" (text_cursors text) in Ok (Some c)
       end.

(** Writing the new file beside the old and moving it over; the durable writer also
    flushes the directory afterwards, and fails if that does. *)
Definition replace_state (durable : bool) (text : string) (d : state_disk)
    : result string unit * state_disk :=
  let written := mkDisk (Some text) (dk_readable d) (tl (dk_saves d)) in
  match hd SaveOk (dk_saves d) with
  | SaveOk => (Ok tt, written)
  | SaveFailed => (Err "replacing the cloud sync state",
                   mkDisk (dk_file d) (dk_readable d) (tl (dk_saves d)))
  | SaveUnsynced => (if durable then Err "flushing the directory" else Ok tt, written)
  end.

Definition save_rejection_cursors (c : SyncCursors) (d : state_disk)
    : result string unit * state_disk :=
  let text := cursors_text c in
  if (MAX_REJECTION_STATE_BYTES <? str_len text)%Z
  then (Err "rejection receipt state exceeds 4 MiB; retaining batch", d)
  else replace_state true text d.

Definition save_cursors (c : SyncCursors) (d : state_disk) : result string unit * state_disk :=
  if negb (bool_decide (rejection_receipts c = [])) || (0 <? rejected_total c)%Z
  then save_rejection_cursors c d
  else replace_state false (cursors_text c) d.
End cursors.

(** ** Wire types *)

Record PushOutcome := mkOutcome {
  po_accepted : Z;
  po_duplicates : Z;
  po_rejected : list string;
  po_rejected_ids : list string;
}.

Record PullPage := mkPage {
  pp_messages : list Message;
  pp_unparseable : Z;
  pp_next_cursor : Z;
  pp_has_more : bool;
}.

Record PresenceEvent := mkEvent {
  pv_origin_id : Z;
  pv_timestamp_utc : string;
  pv_protocol_version : string;
  pv_agent : string;
  pv_status : string;
  pv_session_id : string;
  pv_capabilities : list string;
  pv_metadata : json;
  pv_ttl_seconds : Z;
}.

Definition presence_event (origin_id : Z) (p : Presence) : PresenceEvent :=
  mkEvent origin_id (p_timestamp_utc p) (p_protocol_version p) (p_agent p) (p_status p)
    (p_session_id p) (p_capabilities p) (p_metadata p) (p_ttl_seconds p).

Record WirePresence := mkWire { wp_presence : Presence; wp_origin_hub : option string }.

(** ** Seams *)

Class LocalStore (W : Type) := {
  stream_tail : W → result string string * W;
  messages_after : string → nat → W → result string (list Message) * W;
  presence_tail : W → result string Z * W;
  presence_after : Z → nat → W → result string (list (Z * Presence)) * W;
  ingest_message : Message → W → result string IngestOutcome * W;
  apply_presence : Presence → W → result string bool * W;
}.

Class CloudApi (W : Type) := {
  cloud_push_messages : list Message → W → result string PushOutcome * W;
  cloud_push_presence : list PresenceEvent → W → result string PushOutcome * W;
  cloud_pull : Z → string → nat → W → result string PullPage * W;
  cloud_pull_presence : W → result string (list WirePresence) * W;
}.

(** Milliseconds of the wall clock and of the monotonic clock. *)
Class SyncClock (W : Type) := {
  wall_ms : W → Z * W;
  instant_ms : W → Z * W;
}.

(** ** Engine *)

Definition pushable (msg : Message) (hub : string) : bool :=
  match m_origin_hub msg with None => true | Some origin => bool_decide (origin = hub) end
  && match effective_sensitivity msg with InternalSensitivity => true | NoOffsite => false end.

Record Engine := mkEngine {
  en_hub : string;
  en_state_path : option string;
  en_batch_size : nat;
  en_outbox_cap : nat;
  en_presence_interval : Z;
  en_cursors : SyncCursors;
  en_read_to : string;
  en_outbox : list (string * Message);
  en_last_presence_pull : option Z;
}.

(** [Engine::new]. *)
Definition new_engine (config : CloudSyncConfig) (cursors : SyncCursors) : Engine :=
  let batch_size := Nat.min MAX_BATCH (Nat.max 1 (cc_batch_size config)) in
  mkEngine (cc_hub config) (Some (cc_state_path config)) batch_size
    (Nat.max (cc_outbox_cap config) batch_size) (cc_presence_interval config) cursors
    (push_stream_id cursors) [] None.

Definition set_push (c : SyncCursors) (sid : string) : SyncCursors :=
  mkCursors sid (pull_cursor c) (presence_origin_id c) (rejection_receipts c) (rejected_total c).
Definition set_pull (c : SyncCursors) (n : Z) : SyncCursors :=
  mkCursors (push_stream_id c) n (presence_origin_id c) (rejection_receipts c) (rejected_total c).
Definition set_presence (c : SyncCursors) (n : Z) : SyncCursors :=
  mkCursors (push_stream_id c) (pull_cursor c) n (rejection_receipts c) (rejected_total c).

Definition set_queue (e : Engine) (cursors : SyncCursors) (read_to : string)
    (outbox : list (string * Message)) : Engine :=
  mkEngine (en_hub e) (en_state_path e) (en_batch_size e) (en_outbox_cap e)
    (en_presence_interval e) cursors read_to outbox (en_last_presence_pull e).
Definition set_cursors (e : Engine) (cursors : SyncCursors) : Engine :=
  set_queue e cursors (en_read_to e) (en_outbox e).
Definition set_presence_pull (e : Engine) (t : Z) : Engine :=
  mkEngine (en_hub e) (en_state_path e) (en_batch_size e) (en_outbox_cap e)
    (en_presence_interval e) (en_cursors e) (en_read_to e) (en_outbox e) (Some t).

(** Messages of a chunk that may leave, with their stream identifiers. *)
Definition eligible (hub : string) (chunk : list Message) : list (string * Message) :=
  omap (λ msg, (λ sid, (sid, msg)) <$> m_stream_id msg)
    (List.filter (λ msg, pushable msg hub) chunk).

(** The receipts of the rejected identifiers of a batch, one by one. *)
Fixpoint add_receipts (batch : list (string * Message)) (ids : list string) (next : SyncCursors)
    : result string SyncCursors :=
  match ids with
  | [] => Ok next
  | mid :: rest =>
      let? found := ok_or "cloud rejected an unknown ID; retaining batch"
                      (List.find (λ q, bool_decide (m_id q.2 = mid)) batch) in
      let stream : string := found.1 in
      if (512 <? str_len mid)%Z || (128 <? str_len stream)%Z
      then Err "rejection receipt ID exceeds bound; retaining batch"
      else
        let receipt := mkReceipt mid stream in
        if bool_decide (receipt ∈ rejection_receipts next) then add_receipts batch rest next
        else if (MAX_REJECTION_RECEIPTS <=? length (rejection_receipts next))%nat
        then Err "rejection receipt ledger full (4096); archive state before retry"
        else
          let? total := ok_or "rejection receipt total overflow; retaining batch"
                          (checked_add (rejected_total next) 1) in
          add_receipts batch rest
            (mkCursors (push_stream_id next) (pull_cursor next) (presence_origin_id next)
               (rejection_receipts next ++ [receipt]) total)
  end.

(** Whether every message of the batch was accounted for. *)
Definition disposed (o : PushOutcome) (n : nat) : bool :=
  bool_decide (po_rejected o = []) &&
  bool_decide ((checked_add (po_accepted o) (po_duplicates o) ≫=
                λ k, checked_add k (Z.of_nat (length (po_rejected_ids o)))) = Some (Z.of_nat n)).

(** The state a pass goes through, and the steps over it. *)
Record sync (W : Type) := mkSync {
  sy_engine : Engine;
  sy_status : CloudSyncStatus;
  sy_disk : state_disk;
  sy_world : W;
}.
Arguments mkSync {W} _ _ _ _.
Arguments sy_engine {W} _.
Arguments sy_status {W} _.
Arguments sy_disk {W} _.
Arguments sy_world {W} _.

Definition sm (W A : Type) : Type := sync W → result string A * sync W.

Section engine.
Context `{CursorText} {W : Type} `{!LocalStore W} `{!CloudApi W} `{!SyncClock W}.

Definition sret {A} (a : A) : sm W A := λ s, (Ok a, s).
Definition sfail {A} (e : string) : sm W A := λ s, (Err e, s).
Definition sbind {A B} (m : sm W A) (k : A → sm W B) : sm W B :=
  λ s, match m s with
       | (Ok a, s') => k a s'
       | (Err e, s') => (Err e, s')
       end.

Notation "'let*' x ':=' m 'in' k" := (sbind m (fun x => k))
  (at level 10, x pattern, m at level 200, k at level 200) : bus_scope.

Definition lift_r {A} (r : result string A) : sm W A := λ s, (r, s).
Definition get_engine : sm W Engine := λ s, (Ok (sy_engine s), s).
Definition get_status : sm W CloudSyncStatus := λ s, (Ok (sy_status s), s).
Definition put_engine (e : Engine) : sm W unit :=
  λ s, (Ok tt, mkSync e (sy_status s) (sy_disk s) (sy_world s)).
Definition change_status (f : CloudSyncStatus → CloudSyncStatus) : sm W unit :=
  λ s, (Ok tt, mkSync (sy_engine s) (f (sy_status s)) (sy_disk s) (sy_world s)).

(** An [await] of the store or the cloud, [.context(what)?]. *)
Definition ask {A} (what : string) (f : W → result string A * W) : sm W A := λ s,
  let '(r, w) := f (sy_world s) in
  (map_err (λ e, what +:+ ": " +:+ e) r, mkSync (sy_engine s) (sy_status s) (sy_disk s) w).

Definition tell_time (f : W → Z * W) : sm W Z := λ s,
  let '(t, w) := f (sy_world s) in (Ok t, mkSync (sy_engine s) (sy_status s) (sy_disk s) w).

Definition on_disk {A} (f : state_disk → result string A * state_disk) : sm W A := λ s,
  let '(r, d) := f (sy_disk s) in (r, mkSync (sy_engine s) (sy_status s) d (sy_world s)).

(** A failure to persist is logged, not raised. *)
Definition persist : sm W unit :=
  let* e := get_engine in
  match en_state_path e with
  | None => sret tt
  | Some _ => λ s, let '(_, s) := on_disk (save_cursors (en_cursors e)) s in (Ok tt, s)
  end.

Definition set_depth : sm W unit :=
  let* e := get_engine in change_status (store_depth (Z.of_nat (length (en_outbox e)))).

(** ** Push *)

Definition enqueue (chunk : list Message) : sm W unit :=
  let* e := get_engine in
  let last_seen := last chunk ≫= m_stream_id in
  let new := eligible (en_hub e) chunk in
  let* _ :=
    (if (en_outbox_cap e <? length (en_outbox e) + length new)%nat
     then
       let* _ := put_engine (set_queue e (en_cursors e) (push_stream_id (en_cursors e)) []) in
       change_status count_dropped
     else put_engine (set_queue e (en_cursors e) (from_option (λ l, l) (en_read_to e) last_seen)
                        (en_outbox e ++ new))) in
  set_depth.

(** The cursors once the first [n] messages of the outbox are disposed of. *)
Definition advance (e : Engine) (n : nat) (c : SyncCursors) : SyncCursors :=
  set_push c (if (length (en_outbox e) =? n)%nat then en_read_to e
              else from_option fst (push_stream_id c) (en_outbox e !! (n - 1))).

(** One turn of the loop of [flush_outbox]. *)
Definition flush_batch : sm W unit :=
  let* e := get_engine in
  let n := Nat.min (length (en_outbox e)) (en_batch_size e) in
  let batch := take n (en_outbox e) in
  let* o := ask "pushing messages" (cloud_push_messages (map snd batch)) in
  if negb (disposed o (length batch))
  then sfail "cloud message push lacks complete disposition; retaining batch"
  else
    let* noted := lift_r (add_receipts batch (po_rejected_ids o) (en_cursors e)) in
    let next := advance e n noted in
    let evidence := negb (bool_decide (po_rejected_ids o = [])) in
    let* _ :=
      (if evidence then
         match en_state_path e with
         | None => sfail "rejection receipt requires a durable state path; retaining batch"
         | Some _ => on_disk (save_rejection_cursors next)
         end
       else sret tt) in
    let* _ := put_engine (set_queue e next (en_read_to e) (drop n (en_outbox e))) in
    let* _ := (if evidence then sret tt else persist) in
    let* t := tell_time wall_ms in
    let* _ := change_status (record_push_ok t) in
    set_depth.

Fixpoint flush_loop (fuel : nat) : sm W unit :=
  match fuel with
  | O => sret tt
  | S fuel =>
      let* e := get_engine in
      match en_outbox e with
      | [] => sret tt
      | _ => let* _ := flush_batch in flush_loop fuel
      end
  end.

(** A batch is never empty, so as many turns as there are messages are enough. *)
Definition flush_outbox : sm W unit :=
  let* e := get_engine in
  let* _ := flush_loop (length (en_outbox e)) in
  let* e := get_engine in
  if negb (bool_decide (push_stream_id (en_cursors e) = en_read_to e))
  then
    let* _ := put_engine (set_cursors e (set_push (en_cursors e) (en_read_to e))) in
    persist
  else sret tt.

Fixpoint push_rounds (n : nat) : sm W unit :=
  match n with
  | O => sret tt
  | S n =>
      let* e := get_engine in
      let* chunk := ask "reading the local stream"
                      (messages_after (en_read_to e) (en_batch_size e)) in
      let* _ := (match chunk with [] => sret tt | _ => enqueue chunk end) in
      let* _ := flush_outbox in
      if (en_batch_size e <=? length chunk)%nat then push_rounds n else sret tt
  end.

Definition push_messages : sm W unit := push_rounds MAX_CHUNKS_PER_TICK.

Fixpoint presence_rounds (n : nat) : sm W unit :=
  match n with
  | O => sret tt
  | S n =>
      let* e := get_engine in
      let* rows := ask "reading local presence events"
                     (presence_after (presence_origin_id (en_cursors e)) (en_batch_size e)) in
      match map fst rows with
      | [] => sret tt
      | i :: rest =>
          let* _ := ask "pushing presence"
                      (cloud_push_presence (map (λ r, presence_event r.1 r.2) rows)) in
          let* e := get_engine in
          let* _ := put_engine (set_cursors e (set_presence (en_cursors e) (foldl Z.max i rest))) in
          let* _ := persist in
          let* t := tell_time wall_ms in
          let* _ := change_status (record_push_ok t) in
          if (en_batch_size e <=? length rows)%nat then presence_rounds n else sret tt
      end
  end.

Definition push_presence : sm W unit := presence_rounds MAX_CHUNKS_PER_TICK.

(** ** Pull *)

(** Messages of other hubs only. *)
Definition foreign (hub : string) (msg : Message) : bool :=
  match m_origin_hub msg with Some origin => negb (bool_decide (origin = hub)) | None => false end.

Fixpoint ingest_page (hub : string) (ms : list Message) : sm W unit :=
  match ms with
  | [] => sret tt
  | m :: rest =>
      let* _ := (if foreign hub m
                 then let* _ := ask "ingesting a pulled message" (ingest_message m) in sret tt
                 else sret tt) in
      ingest_page hub rest
  end.

(** One turn of the loop of [pull_messages]: whether the cloud has more. *)
Definition pull_round : sm W bool :=
  let* e := get_engine in
  let* page := ask "pulling messages"
                 (cloud_pull (pull_cursor (en_cursors e)) (en_hub e) PULL_PAGE) in
  let* _ := ingest_page (en_hub e) (pp_messages page) in
  let* e := get_engine in
  let* _ := put_engine (set_cursors e
              (set_pull (en_cursors e) (Z.max (pp_next_cursor page) (pull_cursor (en_cursors e))))) in
  let* _ := persist in
  let* t := tell_time wall_ms in
  let* _ := change_status (record_pull_ok t) in
  sret (pp_has_more page).

(** The loop has no bound of its own: [None] is still pulling after [fuel] pages. *)
Fixpoint pull_messages (fuel : nat) : sm W (option unit) :=
  match fuel with
  | O => sret None
  | S fuel =>
      let* more := pull_round in
      if (more : bool) then pull_messages fuel else sret (Some tt)
  end.

Definition with_origin (row : WirePresence) : Presence :=
  let p := wp_presence row in
  match wp_origin_hub row with
  | None => p
  | Some origin =>
      let map := match p_metadata p with JObj m => m | _ => [] end in
      mkPresence (p_agent p) (p_status p) (p_protocol_version p) (p_timestamp_utc p)
        (p_session_id p) (p_capabilities p) (JObj (insert "origin_hub" (JStr origin) map))
        (p_ttl_seconds p)
  end.

Fixpoint apply_rows (rows : list WirePresence) : sm W unit :=
  match rows with
  | [] => sret tt
  | row :: rest =>
      let* _ := ask "applying pulled presence" (apply_presence (with_origin row)) in
      apply_rows rest
  end.

Definition pull_presence : sm W unit :=
  let* e := get_engine in
  let* early :=
    (match en_last_presence_pull e with
     | None => sret false
     | Some at_ => let* t := tell_time instant_ms in sret (t - at_ <? en_presence_interval e)%Z
     end) in
  if (early : bool) then sret tt
  else
    let* rows := ask "pulling presence" cloud_pull_presence in
    let* _ := apply_rows rows in
    let* t := tell_time instant_ms in
    let* e := get_engine in
    put_engine (set_presence_pull e t).

(** ** A pass, and the loop around it *)

Definition tick (fuel : nat) : sm W (option unit) :=
  let* _ := push_messages in
  let* _ := push_presence in
  let* pulled := pull_messages fuel in
  match pulled with
  | None => sret None
  | Some _ =>
      let* _ := pull_presence in
      let* _ := change_status record_tick_ok in
      sret (Some tt)
  end.

(** One turn of [run]: the delay before the next and the failures so far, in units of
    [backoff_delay]; [None] while the pass still pulls. *)
Definition run_round (poll_interval : Z) (bits : Z) (failures : Z) (fuel : nat) (s : sync W)
    : option (Z * Z) * sync W :=
  match tick fuel s with
  | (Ok None, s) => (None, s)
  | (Ok (Some _), s) => (Some (poll_interval, 0%Z), s)
  | (Err e, s) =>
      (Some (backoff_delay failures (jitter_unit bits), Z.min (2 ^ 32 - 1) (failures + 1)),
       mkSync (sy_engine s) (record_error e (sy_status s)) (sy_disk s) (sy_world s))
  end.

(** ** Startup *)

Definition initial_cursors (config : CloudSyncConfig) (d : state_disk) (w : W)
    : result string SyncCursors * state_disk * W :=
  match load_cursors d with
  | Err e => (Err e, d, w)
  | Ok (Some existing) => (Ok existing, d, w)
  | Ok None =>
      let '(c, w) :=
        if cc_backfill config then (Ok default_cursors, w)
        else
          match stream_tail w with
          | (Err e, w) => (Err e, w)
          | (Ok tail, w) =>
              match presence_tail w with
              | (Err e, w) => (Err e, w)
              | (Ok p, w) => (Ok (mkCursors tail 0 p [] 0), w)
              end
          end in
      match c with
      | Err e => (Err e, d, w)
      | Ok c =>
          match save_cursors c d with
          | (Err e, d) => (Err e, d, w)
          | (Ok _, d) => (Ok c, d, w)
          end
      end
  end.

(** [start] once the configuration is enabled and the HTTP client built: the task's
    state, or the status that says why it does not run. *)
Definition start (config : CloudSyncConfig) (d : state_disk) (w : W)
    : result CloudSyncStatus (sync W) * state_disk * W :=
  match initial_cursors config d w with
  | (Err reason, d, w) => (Err (invalid_status reason), d, w)
  | (Ok cursors, d, w) => (Ok (mkSync (new_engine config cursors) default_status d w), d, w)
  end.
End engine.

(** ** Delays *)

(** Between a second and a minute, and no more than the doubled ceiling. *)
Lemma backoff_bounds failures jitter :
  (0 ≤ failures)%Z →
  (UNIT ≤ backoff_delay failures jitter ≤ 60 * UNIT)%Z ∧
  (backoff_delay failures jitter ≤ 2 ^ failures * UNIT)%Z.
Proof.
  intros Hf. unfold backoff_delay, UNIT. split; [lia|]. rewrite Z.shiftl_1_l.
  assert (2 ^ Z.min failures 6 ≤ 2 ^ failures)%Z by (apply Z.pow_le_mono_r; lia).
  assert (1 ≤ 2 ^ Z.min failures 6)%Z by (apply (Z.pow_le_mono_r 2 0); lia). nia.
Qed.

(** Four of the sampled bits are the version number of the UUID: the same in each sample. *)
Lemma jitter_version_bits bits :
  Z.land (Z.shiftr bits 76) 15 = 4%Z → Z.land (jitter_unit bits) 30 = 8%Z.
Proof.
  intros Hv. apply Z.bits_inj_iff'. intros n Hn. unfold jitter_unit.
  rewrite !Z.land_spec, Z.shiftr_spec by done.
  destruct (decide (n < 5)%Z) as [Hlt|Hge].
  - pose proof (f_equal (λ x, Z.testbit x (n - 1)) Hv) as Hb. cbn beta in Hb.
    assert (n = 0 ∨ 1 ≤ n)%Z as [-> | H1] by lia; [by rewrite andb_false_r|].
    rewrite Z.land_spec, Z.shiftr_spec in Hb by lia. replace (n - 1 + 76)%Z with (n + 75)%Z in Hb by lia.
    assert (n = 1 ∨ n = 2 ∨ n = 3 ∨ n = 4)%Z as Hc by lia.
    revert Hb. generalize (Z.testbit bits (n + 75)). intros b Hb.
    by destruct_or! Hc; subst n; destruct b.
  - rewrite (Z.bits_above_log2 30), (Z.bits_above_log2 8) by (simpl; lia). by rewrite andb_false_r.
Qed.
