(* ===== verification/OutboxClient.v ===== *)
(** * OutboxClient: submission over one configured hub

    Models [crates/agent-bus-core/src/outbox_client.rs]: the authority and the
    routes a replay may use, waiting for a busy journal, submitting, flushing,
    reporting and retiring a journal bound to an earlier candidate list, and the
    scope fingerprint of [hub_cache.rs].

    The directory of the journal is its active file and the retired ones. What one
    invocation meets - other processes acting before a step, custody checks, clocks
    and file-system failures - is its [client_env]; other holders of the file lock
    show as [Busy]. The HTTP client is an interface. *)

From Stdlib Require Import ZArith Lia Ascii.
From stdpp Require Import base option list strings gmap.
From S2P Require Import Prelude Str Json Validation McpSchema ClaimTypes Outbox HubTypes.
From S2P Require Import NetLocation LinkRoute Candidates Hub Redis Channels Messages ReplayScript.
From S2P Require Import OutboxHub.

(** ** The scope of a journal *)

(** [n as u64].to_le_bytes() *)
Fixpoint le_bytes (k : nat) (n : Z) : string :=
  match k with
  | O => ""
  | S k => String (ascii_of_N (Z.to_N (n mod 256))) (le_bytes k (n / 256))
  end.

Definition hash_field (bytes : string) : string := le_bytes 8 (str_len bytes) +:+ bytes.

Definition candidate_fields (c : HubCandidate) : list string :=
  [url c; role_as_str (role c)]
  ++ match auth c with
     | Global => ["global"]
     | TokenFile path => ["file"; path]
     | TokenEnv nm => ["env"; nm]
     end
  ++ "sites" :: sites c ++ [from_option (λ h, h) "" (hub c)].

Definition fingerprint_fields (cs : list HubCandidate) : list string :=
  "agent-bus-hub-candidates-v1" :: concat (map candidate_fields cs).

Definition candidates_fingerprint `{JournalCodec} (cs : list HubCandidate) : string :=
  digest_hex (String.concat "" (map hash_field (fingerprint_fields cs))).

(** ** The directory *)

Record outbox_fs := mkFs {
  fs_active : option string;
  fs_retired : gmap string string;
}.

(** One opening of the journal's path: what others did before, whether custody of the
    file was obtained, and what the open file meets. *)
Record look := mkLook {
  at_meanwhile : outbox_fs → outbox_fs;
  at_opened : bool;
  at_env : open_env;
  at_schedule : list io_outcome;
  at_fresh : uuid;
}.

(** The file is created where it is absent. *)
Definition looked {A} (a : look) (op : string → result OutboxError A * string) (fs : outbox_fs)
    : result OutboxError A * outbox_fs :=
  let fs := at_meanwhile a fs in
  if negb (at_opened a) then (Err Custody, fs)
  else
    let '(r, c) := op (from_option (λ b, b) "" (fs_active fs)) in
    (r, mkFs (Some c) (fs_retired fs)).

Definition set_active (fs : outbox_fs) (c : string) : outbox_fs := mkFs (Some c) (fs_retired fs).

(** What retiring a journal meets: the plainness of the new path, others before the
    move, whether the locked file is still the one at its path, and the move. *)
Record retire_env := mkRetire {
  re_plain : bool;
  re_before_move : outbox_fs → outbox_fs;
  re_identity : bool;
  re_move : bool;
}.

(** [JournalInspection::retire_to]: a rename that replaces nothing. *)
Definition retire_to (e : retire_env) (nm : string) (fs : outbox_fs)
    : result OutboxError unit * outbox_fs :=
  match re_identity e && re_move e, fs_active fs, fs_retired fs !! nm with
  | true, Some bytes, None => (Ok tt, mkFs None (<[nm := bytes]> (fs_retired fs)))
  | _, _, _ => (Err Custody, fs)
  end.

(** What one invocation meets. *)
Record client_env := mkClientEnv {
  ce_home : bool;
  ce_dir : bool;
  ce_plain : bool;
  ce_metadata : bool;
  ce_now : option Z;
  ce_now_retire : option Z;
  ce_start : Z;
  ce_jitter : Z;
  ce_attempts : nat → look;
  ce_clock : nat → Z;
  ce_inspect : look;
  ce_retire : retire_env;
  ce_attempts_again : nat → look;
  ce_clock_again : nat → Z;
  ce_fresh : uuid;
}.

Definition MS : Z := 1000000.

(** ** Waiting for a busy journal *)

Section opening.
Context `{UnicodeCase} `{JournalCodec}.

Definition open_at (a : look) (scope : string) (fs : outbox_fs)
    : result OutboxError Journal * outbox_fs :=
  looked a (λ bytes, open true (at_env a) bytes (at_schedule a) (at_fresh a) scope) fs.

Definition inspect_at (a : look) (fs : outbox_fs)
    : result OutboxError JournalInspection * outbox_fs :=
  looked a (λ bytes, inspect true (at_env a) bytes (at_schedule a) (at_fresh a)) fs.

Section until.
Context (scope : string) (deadline jitter : Z) (attempts : nat → look) (clock : nat → Z).

(** The loop from its [i]-th attempt on, with the current delay; [None] without fuel.
    The waits are kept. *)
Fixpoint open_loop (fuel i : nat) (delay : Z) (fs : outbox_fs)
    : option (result OutboxError Journal * outbox_fs * list Z) :=
  match fuel with
  | O => None
  | S fuel =>
      let '(r, fs) := open_at (attempts i) scope fs in
      match r with
      | Err Busy =>
          let remaining := saturating_sub deadline (clock i) in
          if (remaining =? 0)%Z then Some (Err Busy, fs, [])
          else
            let wait := Z.min (delay + jitter) remaining in
            '(r, fs, waits) ← open_loop fuel (S i) (Z.min (delay * 2) (100 * MS)) fs;
            Some (r, fs, wait :: waits)
      | opened => Some (opened, fs, [])
      end
  end.

Definition open_journal_until_with (fuel : nat) (fs : outbox_fs) :=
  open_loop fuel 0 (10 * MS) fs.
End until.

(** Twelve seconds of waits of ten milliseconds or more. *)
Definition OPEN_FUEL : nat := Z.to_nat 1202.

Definition open_journal_until (scope : string) (deadline jitter : Z) (attempts : nat → look)
    (clock : nat → Z) (fs : outbox_fs) : result OutboxError Journal * outbox_fs :=
  match open_journal_until_with scope deadline jitter attempts clock OPEN_FUEL fs with
  | Some (r, fs, _) => (r, fs)
  | None => (Err Busy, fs)
  end.
End opening.

(** ** Replay over the routes *)

Section transport.
(** One authenticated attempt, and the clock. *)
Context {W : Type}
  (native_replay : W → string → string → ReplayRequest → Z → result ReplayFailure ReplayResponse * W)
  (instant : W → Z * W).

Record HubTransport := mkTransport {
  t_routes : list string;
  t_hub_identity : string;
  t_deadline : Z;
}.

Fixpoint try_routes (t : HubTransport) (routes : list string) (w : W) (r : ReplayRequest)
    : result ReplayFailure ReplayResponse * W :=
  match routes with
  | [] => (Err Transport, w)
  | u :: rest =>
      let '(now, w) := instant w in
      let remaining := saturating_sub (t_deadline t) now in
      if (remaining =? 0)%Z then (Err Transport, w)
      else
        let '(a, w) := native_replay w u (t_hub_identity t) r (Z.min remaining (3000 * MS)) in
        match a with
        | Err Transport => try_routes t rest w r
        | a => (a, w)
        end
  end.

Definition hub_replay_via (t : HubTransport) (w : W) (r : ReplayRequest)
    : result ReplayFailure ReplayResponse * W :=
  try_routes t (t_routes t) w r.
End transport.

(** ** Configuration *)

Section config.
Context `{UnicodeCase} `{JournalCodec} `{DebugFmt} `{UrlLib}.

Definition is_authority (c : HubCandidate) : bool := bool_decide (role c = Authoritative).

(** The named authority of the first authoritative candidate. *)
Definition named_authority (cs : list HubCandidate) : option (option string) :=
  (λ c, h ← hub c; if is_empty h then None else Some h) <$> List.find is_authority cs.

Definition at_hub (h : string) (c : HubCandidate) : bool :=
  is_authority c && bool_decide (hub c = Some h).

Definition durable_replay_configured (s : HubSettings) : bool :=
  let cs := effective_hub_candidates s in
  match named_authority cs with
  | Some (Some h) =>
      existsb (λ c, negb (bool_decide (auth c = Global)) || bool_decide (is_Some (auth_token s)))
        (List.filter (at_hub h) cs)
  | _ => false
  end.

Definition replay_url (c : HubCandidate) : string := trim_end_matches "/" (url c) +:+ "/replay".

Fixpoint allowed_routes (a : HubAuth) (env : CredentialEnv) (cs : list HubCandidate)
    : Result (list string) :=
  match cs with
  | [] => Ok []
  | c :: rest =>
      match credential_for_url a (replay_url c) env with
      | Ok (Some _) => let? us := allowed_routes a env rest in Ok (url c :: us)
      | _ => Err (InvalidParams "durable replay credential provider refused")
      end
  end.

Definition replay_context (s : HubSettings) (env : CredentialEnv) (start : Z)
    : Result (string * HubTransport) :=
  match hub_config_error s with
  | Some e => Err (InvalidParams e)
  | None =>
      let cs := effective_hub_candidates s in
      match named_authority cs with
      | None => Err (InvalidParams "durable replay requires configured on-site authority")
      | Some None => Err (InvalidParams "durable replay requires explicit candidate hub identity")
      | Some (Some h) =>
          let? routes := allowed_routes (mkHubAuth (auth_token s) cs) env
                           (List.filter (at_hub h) cs) in
          Ok (candidates_fingerprint cs, mkTransport routes h (start + 12000 * MS))
      end
  end.
End config.

(** ** Reports *)

Definition operation_text (op : Operation) : string :=
  match op with
  | Send => "send" | Outbox.Presence => "presence" | Ack => "ack" | ClaimRequest => "claim_request"
  end.

Definition disposition_text (d : Disposition) : string :=
  match d with
  | DApplied => "applied" | DExpired => "expired"
  | DSuperseded => "superseded" | DRejected => "rejected"
  end.

Definition jnat (n : nat) : json := jint (Z.of_nat n).

Section client.
Context `{UnicodeCase} `{JournalCodec} `{DebugFmt} `{UrlLib} `{HubText}.

Definition juuid (u : uuid) : json := JStr (uuid_text u).

Definition request_summary (r : ReplayRequest) : json :=
  obj [("request_id", juuid (request_id r)); ("operation", JStr (operation_text (operation r)));
       ("created_ms", jint (created_ms r)); ("expires_ms", jint (expires_ms r))].

Definition report_value (rep : FlushReport) : json :=
  obj [("applied", jnat (applied rep)); ("expired", jnat (expired rep));
       ("superseded", jnat (superseded rep)); ("rejected", jnat (rejected rep));
       ("remaining", jnat (remaining rep));
       ("blocked_request", from_option juuid JNull (blocked_request rep));
       ("results", obj (map (λ '(u, v), (uuid_text u, v)) (map_to_list (results rep))));
       ("dispositions", obj (map (λ '(u, d), (uuid_text u, JStr (disposition_text d)))
                               (map_to_list (dispositions rep))))].

Definition scope_prefix (scope : string) : string := from_option (λ s, s) scope (get_to 16 scope).

Definition internal_error {A} (msg : string) : Result A := Err (Internal msg).

Definition clock_error : string := "system clock precedes durable epoch".

Definition journal_present (e : client_env) (fs : outbox_fs) : Result bool :=
  if negb (ce_plain e) then internal_error "durable outbox path unavailable; preserve journal"
  else if negb (ce_metadata e)
  then internal_error "durable outbox metadata unavailable; preserve journal"
  else Ok (bool_decide (is_Some (fs_active fs))).

(** The default path needs the user's directory; [over] is a path given by the caller. *)
Definition journal_path (e : client_env) (over : bool) : Result unit :=
  if over || ce_home e then Ok tt
  else Err (InvalidParams "user outbox root is unavailable").

(** ** Status *)

Definition outbox_status (s : HubSettings) (over : bool) (e : client_env) (fs : outbox_fs)
    : Result json * outbox_fs :=
  let scope := candidates_fingerprint (effective_hub_candidates s) in
  match (let? _ := journal_path e over in journal_present e fs) with
  | Err err => (Err err, fs)
  | Ok false => (Ok (obj [("pending", jnat 0); ("requests", JArr [])]), fs)
  | Ok true =>
      let '(r, fs) := inspect_at (ce_inspect e) fs in
      ((let? i := map_err (λ _, Internal
                    "private durable outbox status unavailable; preserve journal") r in
        let report := [("pending", jnat (length (i_pending i)));
                       ("requests", JArr (map request_summary (i_pending i)))] in
        match i_destination i with
        | Some stored =>
            if bool_decide (stored = scope) then Ok (obj report)
            else
              let? now := ok_or (Internal clock_error) (ce_now e) in
              let rotation :=
                if bool_decide (i_pending i = []) then "automatic"
                else if forallb (λ r, can_retire_expired i r now) (i_pending i) then "explicit"
                else "blocked" in
              Ok (obj (report ++ [("scope_mismatch", JBool true);
                                  ("bound_scope_prefix", JStr (scope_prefix stored));
                                  ("current_scope_prefix", JStr (scope_prefix scope));
                                  ("rotation", JStr rotation)]))
        | None => Ok (obj report)
        end), fs)
  end.

Definition legacy_write_guard (s : HubSettings) (over : bool) (e : client_env) (fs : outbox_fs)
    : Result unit * outbox_fs :=
  match named_authority (effective_hub_candidates s) with
  | Some (Some _) =>
      let '(state, fs) := outbox_status s over e fs in
      ((let? v := state in
        if bool_decide (from_option (λ n, n) 1%Z (vget v "pending" ≫= as_u64) = 0%Z) then Ok tt
        else Err (InvalidParams "retained durable requests require credentials; preserve journal before new submission")),
       fs)
  | _ => (Ok tt, fs)
  end.

(** ** Retiring a journal *)

Inductive RetirePolicy : Type := SettledOnly | ExpiredOnly.

Definition blocking (p : RetirePolicy) (i : JournalInspection) (now : Z) : list ReplayRequest :=
  List.filter (λ r, match p with
                    | SettledOnly => true
                    | ExpiredOnly => negb (can_retire_expired i r now)
                    end) (i_pending i).

Definition retired_name (origin : uuid) : string :=
  "journal.retired-" +:+ uuid_text origin +:+ ".jsonl".

Definition kept_reason (l : list (string * json)) : json := obj (("rotated", JBool false) :: l).

Definition retire_previous_scope (scope : string) (now : Z) (p : RetirePolicy)
    (a : look) (e : retire_env) (fs : outbox_fs) : Result json * outbox_fs :=
  let '(r, fs) := inspect_at a fs in
  match r with
  | Err _ => (internal_error "durable outbox inspection failed; preserve journal", fs)
  | Ok i =>
      match i_destination i, Outbox.i_origin_id i with
      | Some stored, Some origin =>
          if bool_decide (stored = scope)
          then (Ok (kept_reason
                      [("reason", JStr "journal already bound to current candidates");
                       ("pending", jnat (length (i_pending i)))]), fs)
          else
            let owed := blocking p i now in
            if negb (bool_decide (owed = []))
            then (Err (InvalidParams
                   ("outbox journal is bound to a previous hub candidate list (scope "
                    +:+ scope_prefix stored +:+ ") and retains "
                    +:+ dec (Z.of_nat (length owed))
                    +:+ " request(s) that are unexpired or await replay settlement: "
                    +:+ String.concat ", " (map (λ r, uuid_text (request_id r)) owed)
                    +:+ "; replay them with the previous configuration (`agent-bus outbox flush`) or preserve the journal")),
                  fs)
            else if negb (re_plain e)
            then (internal_error "retired outbox path unavailable; preserve journal", fs)
            else if bool_decide (is_Some (fs_retired fs !! retired_name origin))
            then (internal_error "retired outbox journal already exists; preserve both journals", fs)
            else
              let '(moved, fs) := retire_to e (retired_name origin) (re_before_move e fs) in
              match moved with
              | Err _ =>
                  (internal_error "outbox journal could not be retired (in use?); preserve journal",
                   fs)
              | Ok _ =>
                  (Ok (obj [("rotated", JBool true); ("retired_path", JStr (retired_name origin));
                            ("bound_scope_prefix", JStr (scope_prefix stored));
                            ("current_scope_prefix", JStr (scope_prefix scope));
                            ("retired_requests", JArr (map request_summary (i_pending i)))]), fs)
              end
      | _, _ => (Ok (kept_reason [("reason", JStr "journal has no bound destination")]), fs)
      end
  end.

Definition rotate (s : HubSettings) (over : bool) (now : Z) (e : client_env) (fs : outbox_fs)
    : Result json * outbox_fs :=
  let scope := candidates_fingerprint (effective_hub_candidates s) in
  match (let? _ := journal_path e over in journal_present e fs) with
  | Err err => (Err err, fs)
  | Ok false => (Ok (kept_reason [("reason", JStr "no journal")]), fs)
  | Ok true => retire_previous_scope scope now ExpiredOnly (ce_inspect e) (ce_retire e) fs
  end.

Definition rotate_now (s : HubSettings) (e : client_env) (fs : outbox_fs)
    : Result json * outbox_fs :=
  match ce_now e with
  | None => (internal_error clock_error, fs)
  | Some now => rotate s false now e fs
  end.

(** [retire_previous_scope] with [SettledOnly] at the time it reads. *)
Definition retire_settled (scope : string) (e : client_env) (fs : outbox_fs)
    : Result json * outbox_fs :=
  match ce_now_retire e with
  | None => (internal_error clock_error, fs)
  | Some now => retire_previous_scope scope now SettledOnly (ce_inspect e) (ce_retire e) fs
  end.

(** ** Submitting and flushing *)

Definition open_failed (busy : string) (other : string) (err : OutboxError) : AgentBusError :=
  Internal (match err with Busy => busy | _ => other end).

Section flushing.
Context {W : Type}
  (native_replay : W → string → string → ReplayRequest → Z → result ReplayFailure ReplayResponse * W)
  (instant : W → Z * W).

Definition submit_journal (replay : W → ReplayRequest → result ReplayFailure ReplayResponse * W)
    (op : Operation) (srf : ClientSurface) (args : fields) (now : Z) (fresh : uuid)
    (j : Journal) (w : W) : Result json * Journal * W :=
  let '(queued, j) := enqueue j op srf args now fresh in
  match queued with
  | Err _ =>
      (Err (InvalidParams
         "durable enqueue failed; retention is not established, preserve journal"), j, w)
  | Ok r =>
      let '(flushed, j, w) := flush replay now 16 j w in
      let answer (l : list (string * json)) : json :=
        obj (("request_id", juuid (request_id r)) :: ("operation", JStr (operation_text op)) :: l) in
      match flushed with
      | Err _ =>
          (Ok (answer [("status", JStr "pending_recovery"); ("claim_granted", JBool false);
                       ("retry_new_submission", JBool false);
                       ("error", JStr "durable settlement failed; preserve journal and original request identity")]),
           j, w)
      | Ok rep =>
          ((if (0 <? rejected rep)%nat && bool_decide (blocked_request rep = Some (request_id r))
            then Err (InvalidParams "durable replay rejected; no offline grant or unsafe fallback")
            else
              match dispositions rep !! request_id r with
              | Some ((DExpired | DSuperseded) as d) =>
                  Ok (answer [("status", JStr (disposition_text d));
                              ("pending", jnat (remaining rep));
                              ("claim_granted", JBool false); ("retained", JBool false)])
              | _ =>
                  match results rep !! request_id r with
                  | Some v => Ok v
                  | None =>
                      Ok (answer [("status", JStr "queued"); ("pending", jnat (remaining rep));
                                  ("claim_granted", JBool false);
                                  ("older_request_rejected", JBool (0 <? rejected rep)%nat);
                                  ("blocked_request_id",
                                   from_option juuid JNull (blocked_request rep))])
                  end
              end), j, w)
      end
  end.

Definition flush_pending (s : HubSettings) (env : CredentialEnv) (over : bool) (e : client_env)
    (fs : outbox_fs) (w : W) : Result json * outbox_fs * W :=
  let nothing := obj [("remaining", jnat 0); ("applied", jnat 0); ("requests_submitted", jnat 0)] in
  match (let? _ := journal_path e over in
         let? there := journal_present e fs in
         if negb there then Ok None
         else let? c := replay_context s env (ce_start e) in Ok (Some c)) with
  | Err err => (Err err, fs, w)
  | Ok None => (Ok nothing, fs, w)
  | Ok (Some (scope, t)) =>
      let flush_open (opened : result OutboxError Journal) (fs : outbox_fs) :=
        match opened with
        | Err err =>
            (Err (open_failed "durable outbox is busy; preserve the journal and original request IDs, then retry outbox flush"
                    "private durable outbox unavailable; preserve journal" err), fs, w)
        | Ok j =>
            match ce_now e with
            | None => (internal_error clock_error, fs, w)
            | Some now =>
                let '(rep, j, w) := flush (hub_replay_via native_replay instant t) now 16 j w in
                ((let? rep := map_err (λ _, Internal
                     "durable flush settlement failed; preserve journal and stable identities") rep in
                  Ok (report_value rep)), set_active fs (content j), w)
            end
        end in
      let '(opened, fs) :=
        open_journal_until scope (t_deadline t) (ce_jitter e) (ce_attempts e) (ce_clock e) fs in
      match opened with
      | Err ScopeChanged =>
          let '(d, fs) := retire_settled scope e fs in
          match d with
          | Err err => (Err err, fs, w)
          | Ok v =>
              if bool_decide (vget v "rotated" = Some (JBool true)) then (Ok nothing, fs, w)
              else
                let '(opened, fs) := open_journal_until scope (t_deadline t) (ce_jitter e)
                                       (ce_attempts_again e) (ce_clock_again e) fs in
                flush_open opened fs
          end
      | opened => flush_open opened fs
      end
  end.

Definition submit (s : HubSettings) (env : CredentialEnv) (op : Operation) (srf : ClientSurface)
    (args : fields) (over : bool) (e : client_env) (fs : outbox_fs) (w : W)
    : Result json * outbox_fs * W :=
  match (let? c := replay_context s env (ce_start e) in
         let? _ := journal_path e over in
         if over || ce_dir e then Ok c
         else internal_error "private outbox directory could not be established") with
  | Err err => (Err err, fs, w)
  | Ok (scope, t) =>
      let opening :=
        let '(opened, fs) :=
          open_journal_until scope (t_deadline t) (ce_jitter e) (ce_attempts e) (ce_clock e) fs in
        match opened with
        | Err ScopeChanged =>
            let '(d, fs) := retire_settled scope e fs in
            match d with
            | Err err => (Err err, fs)
            | Ok _ =>
                let '(opened, fs) := open_journal_until scope (t_deadline t) (ce_jitter e)
                                       (ce_attempts_again e) (ce_clock_again e) fs in
                (Ok opened, fs)
            end
        | opened => (Ok opened, fs)
        end in
      match opening with
      | (Err err, fs) => (Err err, fs, w)
      | (Ok (Err err), fs) =>
          (Err (open_failed "durable outbox is busy; no new request was retained; retry after the current writer finishes"
                  "private durable outbox could not be opened" err), fs, w)
      | (Ok (Ok j), fs) =>
          match ce_now e with
          | None => (internal_error clock_error, fs, w)
          | Some now =>
              let '(r, j, w) := submit_journal (hub_replay_via native_replay instant t) op srf args
                                  now (ce_fresh e) j w in
              (r, set_active fs (content j), w)
          end
      end
  end.
End flushing.
End client.
