(* ===== verification/ReplayHttp.v ===== *)
(** * ReplayHttp: the replay route and its client

    The path of one replay between a client and the hub: the bearer gate and
    [http_replay_handler] of [agent-bus-http/src/http.rs], and the native transport
    of [agent-bus-cli/src/server_mode.rs] (and of [hub_transport.rs], which is the
    same), with what the network may do in between. JSON of requests and replies is
    an interface. *)

From Stdlib Require Import ZArith Lia Ascii.
From stdpp Require Import base option list strings gmap.
From S2P Require Import Prelude Str Json Validation McpSchema ClaimTypes Outbox Redis.
From S2P Require Import Channels Messages ReplayScript OutboxHub.

(** ** The bearer gate *)

Definition byte_of (a : ascii) : Z := Z.of_N (N_of_ascii a).

Fixpoint or_diff (a b : string) (diff : Z) : Z :=
  match a, b with
  | String x a, String y b => or_diff a b (Z.lor diff (Z.lxor (byte_of x) (byte_of y)))
  | _, _ => diff
  end.

Definition constant_time_eq (a b : string) : bool :=
  if negb (String.length a =? String.length b)%nat then false
  else (or_diff a b 0 =? 0)%Z.

Inductive TokenMatch : Type := TCurrent | TPrevious | TRejected.

Definition check_token (current : string) (previous : option string) (provided : string)
    : TokenMatch :=
  let is_current := constant_time_eq provided current in
  let is_previous := from_option (constant_time_eq provided) false previous in
  if is_current then TCurrent else if is_previous then TPrevious else TRejected.

(** The value of the [Authorization] header, if any, against the configured tokens. *)
Definition require_bearer_auth (current previous : option string) (path : string)
    (header : option string) : bool :=
  match current with
  | None => true
  | Some current =>
      bool_decide (path = "/health")
      || match (h ← header; strip_prefix h "Bearer ") with
         | Some provided => match check_token current previous provided with
                            | TRejected => false
                            | _ => true
                            end
         | None => false
         end
  end.

(** ** JSON of the exchange *)

(** The arguments stand in the request and the envelope. *)
Definition envelope_nesting (ev : ReplayEnvelope) : nat :=
  2 + depth (JObj (arguments (ev_request ev))).

Class ExchangeCodec := {
  envelope_to_vec : ReplayEnvelope → option string;
  envelope_of_slice : string → option ReplayEnvelope;
  json_eof : string → bool;
  envelope_read ev b : no_float (JObj (arguments (ev_request ev))) = true →
    envelope_to_vec ev = Some b → envelope_of_slice b =
      if envelope_nesting ev <=? PARSER_DEPTH then Some ev else None;
}.

(** ** The server *)

(** The server at one request: its maintenance state, its tokens, whether it gets a
    Redis connection, whether the worker returns, and the use of the hub. *)
Record server_env := mkServer {
  se_blocked : bool;
  se_auth_token : option string;
  se_previous_token : option string;
  se_connected : bool;
  se_joined : bool;
  se_accept : accept_env;
}.

Definition error_status (e : ReplayHubError) : Z :=
  match e with
  | Invalid | Representation => 400
  | Identity => 403
  | Collision => 409
  | Unavailable => 503
  end.

Section http.
Context `{UnicodeCase} `{JournalCodec} `{Chrono} `{StoreText} `{BodyCodec} `{LuaJson} `{HubText}
  `{ClaimTool} `{ExchangeCodec}.

(** Status and body of the reply; error bodies are not read by the client. *)
Definition http_replay_handler (s : ReplaySettings) (se : server_env) (body : string)
    (w : hubworld) : Z * string * hubworld :=
  if se_blocked se then (503%Z, "", w)
  else if from_option is_empty true (se_auth_token se) then (403%Z, "", w)
  else if (RECORD_LIMIT <? str_len body)%Z then (400%Z, "", w)
  else
    match envelope_of_slice body with
    | None => (400%Z, "", w)
    | Some ev =>
        let '(res, w) :=
          if se_connected se then accept s ev (se_accept se) w else (Err Unavailable, w) in
        if negb (se_joined se) then (503%Z, "", w)
        else match res with
             | Ok a => (200%Z, response_text a, w)
             | Err e => (error_status e, "", w)
             end
    end.

Definition serve (s : ReplaySettings) (se : server_env) (header : option string) (body : string)
    (w : hubworld) : Z * string * hubworld :=
  if require_bearer_auth (se_auth_token se) (se_previous_token se) "/replay" header
  then http_replay_handler s se body w
  else (401%Z, "", w).

(** ** The client *)

(** What happens to a request on its way: no reply, with the server reached or not
    and an error that counts as transport or not; a reply of somebody in between;
    a reply whose body breaks off; or the server's reply. *)
Inductive link_fate : Type :=
  | NoReply (reached retryable : bool)
  | Foreign (reached : bool) (status : Z) (body : string)
  | Broken
  | Whole.

(** One call: the instant before it, what others did to the hub before, whether the client could be built
    with its credential, the token it presents, its link and the server. *)
Record net_call := mkCall {
  nc_now : Z;
  nc_meanwhile : hubworld → hubworld;
  nc_build : bool;
  nc_token : option string;
  nc_link : link_fate;
  nc_server : server_env;
}.

(** The reply as the client reads it; [None] for a body that breaks off. *)
Definition read_reply (code : Z) (body : option string) : result ReplayFailure ReplayResponse :=
  if (code =? 503)%Z then Err Transport
  else if negb ((200 <=? code) && (code <? 300))%Z then Err Permanent
  else
    match body with
    | None => Err Transport
    | Some bytes =>
        if (RECORD_LIMIT <? str_len bytes)%Z then Err Permanent
        else match response_of_text bytes with
             | Some a => Ok a
             | None => Err (if json_eof bytes then Transport else Permanent)
             end
    end.

(** The hub behind the network, with the calls to come. *)
Definition network : Type := hubworld * list net_call.

Definition net_instant (net : network) : Z * network :=
  (match net.2 with c :: _ => nc_now c | [] => 0%Z end, net).

Definition native_replay (s : ReplaySettings) (net : network) (u hub : string) (r : ReplayRequest)
    (timeout : Z) : result ReplayFailure ReplayResponse * network :=
  match net.2 with
  | [] => (Err Transport, net)
  | c :: rest =>
      let w := nc_meanwhile c net.1 in
      match (if nc_build c then envelope_to_vec (mkEnvelope hub r) else None) with
      | None => (Err Permanent, (w, rest))
      | Some body =>
          let '(code, reply, w') :=
            serve s (nc_server c) ((λ t, "Bearer " +:+ t) <$> nc_token c) body w in
          match nc_link c with
          | NoReply reached retryable =>
              (Err (if retryable then Transport else Permanent),
               (if reached then w' else w, rest))
          | Foreign reached code body =>
              (read_reply code (Some body), (if reached then w' else w, rest))
          | Broken => (read_reply code None, (w', rest))
          | Whole => (read_reply code (Some reply), (w', rest))
          end
      end
  end.
End http.

(** ** The gate accepts exactly the configured tokens *)

Lemma byte_of_bounds a : (0 ≤ byte_of a < 256)%Z.
Proof. unfold byte_of. pose proof (N_ascii_bounded a). lia. Qed.

Lemma or_diff_zero a b d : (0 ≤ d)%Z → String.length a = String.length b →
  or_diff a b d = 0%Z ↔ d = 0%Z ∧ a = b.
Proof.
  revert b d. induction a as [|x a IH]; intros [|y b] d Hd Hl; simpl in *; [naive_solver|done|done|].
  injection Hl as Hl. rewrite IH; [|by apply Z.lor_nonneg; split; [|apply Z.lxor_nonneg;
    pose proof (byte_of_bounds x); pose proof (byte_of_bounds y); lia]|done].
  rewrite Z.lor_eq_0_iff, Z.lxor_eq_0_iff. unfold byte_of. split.
  - intros [[-> Heq] ->]. split; [done|]. f_equal. apply N2Z.inj in Heq.
    by rewrite <- (ascii_N_embedding x), Heq, ascii_N_embedding.
  - by intros [-> [= -> ->]].
Qed.

Lemma constant_time_eq_spec a b : constant_time_eq a b = bool_decide (a = b).
Proof.
  unfold constant_time_eq. destruct (Nat.eqb_spec (String.length a) (String.length b)) as [Hl|Hl]; simpl.
  - apply eq_true_iff_eq. rewrite Z.eqb_eq, bool_decide_eq_true, or_diff_zero by done. naive_solver.
  - symmetry. apply bool_decide_eq_false. congruence.
Qed.
