(* ===== verification/Claims.v ===== *)
(** * Claims: ownership claims and their arbitration

    The claim handlers of [crates/agent-bus-core/src/channels.rs], as programs of
    Redis commands, the typed wrappers of [ops/claim.rs] and the [claim_resource] tool of
    [mcp_dispatch.rs]. A claim is stored as
    JSON text in one field, named after its agent, of the hash of its resource. *)

From Stdlib Require Import ZArith Lia Ascii.
From stdpp Require Import base option list strings gmap.
From S2P Require Import Prelude Str Json Validation McpSchema ClaimTypes Redis Channels.

(** [serde_json] on claims; what is written reads back. *)
Class ClaimCodec := {
  claim_text : OwnershipClaim → string;
  claim_of_text : string → option OwnershipClaim;
  claim_roundtrip c : claim_of_text (claim_text c) = Some c;
}.

(** ** Reroute suggestions *)

Definition REROUTE_RULES : list (string * string * string) :=
  [("cargo-target", "cargo-target:{agent}", "use --target-dir T:\RustCache\cargo-target-{agent}");
   ("target-dir", "target-dir:{agent}", "use --target-dir T:\RustCache\cargo-target-{agent}");
   ("coverage-output", "coverage-output:{agent}", "use --output-dir coverage-{agent}");
   ("coverage", "coverage:{agent}", "use --output-dir coverage-{agent}");
   ("bench-output", "bench-output:{agent}", "write benchmark results to bench-output-{agent}/");
   ("bin-install", "bin-install:{agent}", "install to ~/.local/bin-{agent}");
   ("~/bin", "bin-install:{agent}", "install to ~/.local/bin-{agent}")].

Definition mode_debug (m : ResourceLeaseMode) : string :=
  match m with
  | Shared => "Shared"
  | SharedNamespaced => "SharedNamespaced"
  | Exclusive => "Exclusive"
  end.

Section claims.
Context `{UnicodeCase} `{UnicodeAlnum} `{Chrono} `{StoreText} `{ClaimCodec}.

Definition suggest_reroute (res agent : string) (contested_by : list string)
    : option RerouteSuggestion :=
  if is_empty res || is_empty agent then None
  else
    let others := match contested_by with
                  | [] => "another agent"
                  | _ => join ", " contested_by
                  end in
    let why := "resource contested by " +:+ others in
    match find (λ '(pattern, _, _), contains (to_lowercase res) pattern) REROUTE_RULES with
    | Some (_, suggested, hint) =>
        Some (mkReroute res (replace suggested "{agent}" agent)
                (replace hint "{agent}" agent) why)
    | None =>
        Some (mkReroute res (res +:+ ":" +:+ agent)
                ("use namespaced resource '" +:+ res +:+ ":" +:+ agent +:+ "' for isolation") why)
    end.

(** ** Loading and storing *)

Definition nul_optional (v : option string) (nm : string) : Result unit :=
  match v with Some s => reject_nul_bytes s nm | None => Ok tt end.

Fixpoint nul_each (vs : list string) (nm : string) : Result unit :=
  match vs with
  | [] => Ok tt
  | v :: rest => let? _ := reject_nul_bytes v nm in nul_each rest nm
  end.

Definition validate_claim_nul_fields (c : OwnershipClaim) : Result unit :=
  let? _ := reject_nul_in_fields
    [(resource c, "resource"); (agent c, "agent");
     (priority_argument c, "priority_argument"); (timestamp c, "timestamp")] in
  let? _ := nul_optional (namespace c) "namespace" in
  let? _ := nul_optional (scope_kind c) "scope_kind" in
  let? _ := nul_optional (scope_path c) "scope_path" in
  let? _ := nul_each (repo_scopes c) "repo_scope" in
  let? _ := nul_optional (thread_id c) "thread_id" in
  nul_optional (expires_at c) "expires_at".

Fixpoint store_claims (key : string) (claims : list OwnershipClaim) : prog unit :=
  match claims with
  | [] => Ret tt
  | c :: rest =>
      let! _ := lift (validate_claim_nul_fields c) in
      let! _ := query_or "HSET claim failed" as_unit (HSET key [(agent c, claim_text c)]) in
      store_claims key rest
  end.

Definition persist_claims (key : string) (claims : list OwnershipClaim) (t : Z) : prog unit :=
  let! _ := lift (reject_nul_bytes key "claim_key") in
  match claims with
  | [] =>
      let! _ := query_or "DEL empty claims key failed" as_unit (DEL key) in
      query_or "DEL empty resolution key failed" as_unit (DEL (claim_resolution_key key))
  | _ =>
      let! _ := query_or "DEL existing claims key failed" as_unit (DEL key) in
      let! _ := store_claims key claims in
      query_or "EXPIRE claims key failed" as_unit
        (EXPIRE key (claims_hash_ttl_seconds claims t))
  end.

(** The unexpired claims of the fields read, and the fields of expired ones. *)
Definition live_claims (all : list (string * string)) (t : Z) : list OwnershipClaim :=
  omap (λ kv, c ← claim_of_text kv.2; if claim_expired c t then None else Some c) all.
Definition expired_agents (all : list (string * string)) (t : Z) : list string :=
  omap (λ kv, c ← claim_of_text kv.2; if claim_expired c t then Some kv.1 else None) all.

Definition by_timestamp (a b : OwnershipClaim) : bool := str_le (timestamp a) (timestamp b).

Definition load_active_claims (key : string) : prog (list OwnershipClaim) :=
  let! t := now in
  let! all := query_or "HGETALL claims failed" as_hash (HGETALL key) in
  if bool_decide (all = []) then Ret []
  else
    let claims := live_claims all t in
    let! _ := (match expired_agents all t with
               | [] => Ret tt
               | agents => query_or "HDEL expired claims failed" as_unit (HDEL key agents)
               end) in
    match claims with
    | [] =>
        let! _ := query_or "DEL empty claims key after prune failed" as_unit (DEL key) in
        let! _ := query_or "DEL empty resolution key after prune failed" as_unit
                    (DEL (claim_resolution_key key)) in
        Ret []
    | _ =>
        let claims := sort_by by_timestamp claims in
        let! _ := query_or "EXPIRE refreshed claims key failed" as_unit
                    (EXPIRE key (claims_hash_ttl_seconds claims t)) in
        Ret claims
    end.

(** ** Claiming *)

Definition not_by (ag : string) (c : OwnershipClaim) : bool := negb (bool_decide (agent c = ag)).

(** The claim a request stands for, before its status is decided. *)
Definition new_claim (res ag argument ts : string) (expiry : option string)
    (o : ClaimOptions) : OwnershipClaim :=
  mkClaim res ag argument ts Pending (o_mode o) (o_namespace o) (o_scope_kind o)
    (o_scope_path o) (o_repo_scopes o) (o_thread_id o) (Z.max (o_lease_ttl_seconds o) 1)
    expiry (effective_scope res (o_scope o)) None.

Definition contested_body (res ag argument : string) (m : ResourceLeaseMode)
    (others : list string) : string :=
  "CLAIM CONTESTED: " +:+ res +:+ String newline
  ("Claimant: " +:+ ag +:+ String newline
  ("Argument: " +:+ argument +:+ String newline
  ("Mode: " +:+ mode_debug m +:+ String newline
  ("Other claimants: " +:+ join ", " others +:+ String newline
  ("Use 'agent-bus resolve " +:+ res +:+ " --winner <agent>' to resolve."))))).

(** Best-effort notifications: their errors are dropped. *)
Definition best_effort {A} (p : prog A) : prog unit := let! _ := try_ p in Ret tt.

Definition claim_resource_with_options (s : BusSettings) (res ag argument : string)
    (o : ClaimOptions) : prog OwnershipClaim :=
  if is_empty res then Throw (InvalidParams "resource must not be empty")
  else if is_empty ag then Throw (InvalidParams "agent must not be empty")
  else if bool_decide (o_mode o = SharedNamespaced)
          && bool_decide (effective_namespace (o_namespace o) = None)
  then Throw (InvalidParams "shared_namespaced claims require --namespace")
  else
    let key := claims_key res in
    let! _ := connect in
    let! t := now in
    let ts := format_timestamp t in
    let! expiry := or_panic (compute_expiry t (o_lease_ttl_seconds o)) in
    let! loaded := load_active_claims key in
    let claims := recompute_claim_statuses
      (List.filter (not_by ag) loaded ++ [new_claim res ag argument ts (Some expiry) o]) in
    let! _ := persist_claims key claims t in
    let! claim :=
      match find (λ c, bool_decide (agent c = ag)) claims with
      | Some c => Ret c
      | None => Throw (Internal "claimed resource not found after persist")
      end in
    let others := map agent (List.filter (not_by ag) claims) in
    let contested := bool_decide (status claim = Contested) in
    let claim := if contested then set_reroute claim (suggest_reroute res ag others) else claim in
    let! _ := (if contested && negb (bool_decide (others = [])) then
                 best_effort (post_escalation s ag
                   (contested_body res ag argument (mode claim) others) None
                   ["arbitration:" +:+ res])
               else Ret tt) in
    let! _ := best_effort (emit_resource_event (if contested then "contested" else "claimed")
                             ag res) in
    Ret claim.

Definition default_options : ClaimOptions :=
  mkOptions Exclusive None None None [] None 0 None.

Definition claim_resource (s : BusSettings) (res ag argument : string) : prog OwnershipClaim :=
  claim_resource_with_options s res ag argument default_options.

(** ** Reading *)

Definition get_arbitration_state (res : string) : prog ArbitrationState :=
  let key := claims_key res in
  let! _ := connect in
  let! claims := load_active_claims key in
  let! winner := query as_opt (HGET (claim_resolution_key key) "winner") in
  let! reason := query as_opt (HGET (claim_resolution_key key) "reason") in
  Ret (mkArbitration res claims (match winner with Ok w => w | Err _ => None end)
         (match reason with Ok r => r | Err _ => None end)).

Fixpoint load_all (keys : list string) : prog (list OwnershipClaim) :=
  match keys with
  | [] => Ret []
  | key :: rest =>
      let! cs := load_active_claims key in
      let! more := load_all rest in
      Ret (cs ++ more)
  end.

Definition list_claims (resource_filter : option string) (status_filter : option ClaimStatus)
    : prog (list OwnershipClaim) :=
  let! _ := connect in
  let! keys := query_or "SCAN claims keys failed" as_keys (SCAN (CLAIMS_PREFIX +:+ "*")) in
  let! all := load_all keys in
  Ret (sort_by by_timestamp
         (List.filter (λ c,
            match resource_filter with Some r => bool_decide (resource c = r) | None => true end
            && match status_filter with Some st => bool_decide (status c = st) | None => true end)
            all)).

(** ** Resolving, renewing, releasing *)

Definition resolve_status (winner : string) (c : OwnershipClaim) : OwnershipClaim :=
  set_status c (if bool_decide (agent c = winner) then Granted else ReviewAssigned).

Definition outcome_body (res winner reason ag : string) : string :=
  if bool_decide (ag = winner)
  then "You won the arbitration for '" +:+ res +:+ "'." +:+ String newline
       ("Reason: " +:+ reason +:+ String newline "You may proceed with first-edit.")
  else "Arbitration for '" +:+ res +:+ "' awarded to '" +:+ winner +:+ "'." +:+ String newline
       ("Reason: " +:+ reason +:+ String newline
        "Your role: reviewer (first-edit assigned to winner).").

Fixpoint notify_all (res winner reason resolved_by : string) (claims : list OwnershipClaim)
    : prog unit :=
  match claims with
  | [] => Ret tt
  | c :: rest =>
      let! _ := best_effort (post_direct resolved_by (agent c) "arbitration-result"
                  (outcome_body res winner reason (agent c)) None ["arbitration:" +:+ res]) in
      notify_all res winner reason resolved_by rest
  end.

Definition resolve_claim (res winner_agent reason resolved_by : string) : prog ArbitrationState :=
  let key := claims_key res in
  let! _ := connect in
  let! claims := load_active_claims key in
  if bool_decide (claims = [])
  then Throw (InvalidParams ("no claims found for resource '" +:+ res +:+ "'"))
  else
    let claims := map (resolve_status winner_agent) claims in
    let! t := now in
    let! _ := persist_claims key claims t in
    let! t' := now in
    let! _ := query_or "HSET resolution metadata" as_unit
      (HSET (claim_resolution_key key)
         [("winner", winner_agent); ("reason", reason); ("resolved_by", resolved_by);
          ("resolved_at", format_timestamp t')]) in
    let! _ := query_or "EXPIRE resolution key" as_unit
                (EXPIRE (claim_resolution_key key) CLAIM_TTL_SECS) in
    let! state := get_arbitration_state res in
    let! _ := notify_all res winner_agent reason resolved_by (a_claims state) in
    let! _ := best_effort (emit_resource_event "resolved" winner_agent res) in
    Ret state.

(** The first claim of the agent gets the new lease; [None] when it has none. *)
Fixpoint renew_in (ag ts : string) (ttl : Z) (expiry : option string)
    (claims : list OwnershipClaim) : option (list OwnershipClaim) :=
  match claims with
  | [] => None
  | c :: rest =>
      if bool_decide (agent c = ag) then Some (set_lease c ttl ts expiry :: rest)
      else cons c <$> renew_in ag ts ttl expiry rest
  end.

Definition no_active_claim : AgentBusError :=
  InvalidParams "no active claim found for agent on resource".

Definition renew_claim (res ag : string) (lease_ttl : option Z) : prog OwnershipClaim :=
  let key := claims_key res in
  let! _ := connect in
  let! claims := load_active_claims key in
  let! t := now in
  let ttl := Z.max (from_option (λ x, x) CLAIM_TTL_SECS lease_ttl) 1 in
  (* the expiry is computed only for an agent that has a claim *)
  if negb (existsb (λ c, bool_decide (agent c = ag)) claims) then Throw no_active_claim
  else
    let! expiry := or_panic (compute_expiry t ttl) in
    match renew_in ag (format_timestamp t) ttl (Some expiry) claims with
    | None => Throw no_active_claim
    | Some claims =>
        let renewed := find (λ c, bool_decide (agent c = ag)) claims in
        let claims := recompute_claim_statuses claims in
        let! _ := persist_claims key claims t in
        let! _ := best_effort (emit_resource_event "renewed" ag res) in
        match find (λ c, bool_decide (agent c = ag)) claims with
        | Some c => Ret c
        | None => match renewed with Some c => Ret c | None => Throw no_active_claim end
        end
    end.

Definition release_claim (res ag : string) : prog ArbitrationState :=
  let key := claims_key res in
  let! _ := connect in
  let! loaded := load_active_claims key in
  let claims := List.filter (not_by ag) loaded in
  if (length claims =? length loaded)%nat then Throw no_active_claim
  else
    let claims := recompute_claim_statuses claims in
    let! t := now in
    let! _ := persist_claims key claims t in
    let! _ := best_effort (emit_resource_event "released" ag res) in
    get_arbitration_state res.
End claims.

(** ** The typed wrappers of [ops/claim.rs] *)

Module ops.
Record ClaimResourceRequest := mkClaimRequest {
  q_resource : string;
  q_agent : string;
  q_reason : string;
  q_mode : string;
  q_namespace : option string;
  q_scope_kind : option string;
  q_scope_path : option string;
  q_repo_scopes : list string;
  q_thread_id : option string;
  q_lease_ttl_seconds : Z;
  q_scope : option ResourceScope;
}.

Section wrappers.
Context `{UnicodeCase} `{UnicodeAlnum} `{Chrono} `{StoreText} `{ClaimCodec}.

Definition claim_resource (s : BusSettings) (q : ClaimResourceRequest) : prog OwnershipClaim :=
  let! ag := lift (non_empty (q_agent q) "agent") in
  let! res := lift (non_empty (q_resource q) "resource") in
  let! m := lift (parse_lease_mode (q_mode q)) in
  claim_resource_with_options s res ag (q_reason q)
    (mkOptions m (q_namespace q) (q_scope_kind q) (q_scope_path q) (q_repo_scopes q)
       (q_thread_id q) (Z.max (q_lease_ttl_seconds q) 1) (q_scope q)).

Definition renew_claim (res ag : string) (lease_ttl_seconds : Z) : prog OwnershipClaim :=
  let! ag := lift (non_empty ag "agent") in
  let! res := lift (non_empty res "resource") in
  renew_claim res ag (Some (Z.max lease_ttl_seconds 1)).

Definition release_claim (res ag : string) : prog ArbitrationState :=
  let! ag := lift (non_empty ag "agent") in
  let! res := lift (non_empty res "resource") in
  release_claim res ag.

Definition resolve_claim (res winner why resolved_by : string) : prog ArbitrationState :=
  let! winner := lift (non_empty winner "winner") in
  let! res := lift (non_empty res "resource") in
  resolve_claim res winner why resolved_by.

Definition parse_status (s : string) : Result ClaimStatus :=
  if bool_decide (s = "pending") then Ok Pending
  else if bool_decide (s = "granted") then Ok Granted
  else if bool_decide (s = "contested") then Ok Contested
  else if bool_decide (s = "review_assigned") then Ok ReviewAssigned
  else Err (InvalidParams ("unknown claim status '" +:+ s
              +:+ "'; expected pending|granted|contested|review_assigned")).

Definition list_claims (res st : option string) : prog (list OwnershipClaim) :=
  let! status_filter := lift (match st with
                              | Some s => let? x := parse_status s in Ok (Some x)
                              | None => Ok None
                              end) in
  list_claims res status_filter.

Definition get_arbitration_state (res : string) : prog ArbitrationState :=
  get_arbitration_state res.
End wrappers.
End ops.

(** ** The tool of [mcp_dispatch.rs] *)

Module mcp.
Section tool.
Context `{UnicodeCase} `{UnicodeAlnum} `{Chrono} `{StoreText} `{ClaimCodec}.

(** The arguments of the [claim_resource] tool. *)
Definition claim_request (args : fields) : Result ops.ClaimResourceRequest :=
  let? res := ok_or (Internal "resource is required") (get_str args "resource") in
  let? ag := ok_or (Internal "agent is required") (get_str args "agent") in
  let? sc := match get_str args "scope" with
             | Some s => let? x := parse_resource_scope s in Ok (Some x)
             | None => Ok None
             end in
  Ok (ops.mkClaimRequest res ag (get_str_or args "reason" "first-edit required")
        (get_str_or args "mode" "exclusive") (get_str args "namespace")
        (get_str args "scope_kind") (get_str args "scope_path")
        (get_string_array args "repo_scopes") (get_str args "thread_id")
        (get_u64_or args "lease_ttl_seconds" 3600) sc).

Definition claim_resource (s : BusSettings) (args : fields) : prog OwnershipClaim :=
  let! q := lift (claim_request args) in ops.claim_resource s q.
End tool.
End mcp.
