(* ===== verification/ClaimInstances.v ===== *)
(** * ClaimInstances: concrete instances for claim programs

    Instances of the interfaces of the claim component, to evaluate its programs
    on concrete inputs: claims, and instants to the microsecond, are written as
    the bits of their [Countable] code. *)

From Stdlib Require Import ZArith Lia Ascii.
From stdpp Require Import base option list strings gmap countable.
From S2P Require Import Prelude Str Json Validation ClaimTypes Redis Channels Claims.

(** ** Instants *)

Lemma bind_Some_l {A B} (a : A) (f : A → option B) : (Some a ≫= f) = f a.
Proof. done. Qed.

Definition bit_chrono_parse (s : string) : option Z :=
  (λ us, us * 1000)%Z <$> (text_pos s ≫= decode).

Definition bit_chrono : Chrono.
Proof.
  refine {| format_us t := pos_text (encode (t / 1000)%Z);
            parse_rfc3339 := bit_chrono_parse;
            four_digit_year t := (0 <=? t)%Z && (t <? 253402300800 * NANOS)%Z |}.
  intros t _. unfold bit_chrono_parse. by rewrite text_pos_text, bind_Some_l, decode_encode.
Defined.

(** ** Claims *)

Definition opt_text (o : option string) : string :=
  match o with Some s => String "S" s | None => "" end.
Definition text_opt (s : string) : option string :=
  match s with String _ t => Some t | EmptyString => None end.

Definition status_text (s : ClaimStatus) : string :=
  match s with
  | Pending => "p" | Granted => "g" | Contested => "c" | ReviewAssigned => "r"
  end.
Definition text_status (s : string) : ClaimStatus :=
  if bool_decide (s = "p") then Pending
  else if bool_decide (s = "g") then Granted
  else if bool_decide (s = "c") then Contested
  else ReviewAssigned.

Definition mode_text (m : ResourceLeaseMode) : string :=
  match m with Shared => "s" | SharedNamespaced => "n" | Exclusive => "e" end.
Definition text_mode (s : string) : ResourceLeaseMode :=
  if bool_decide (s = "s") then Shared
  else if bool_decide (s = "n") then SharedNamespaced
  else Exclusive.

Definition scope_text (s : ResourceScope) : string :=
  match s with Repo => "r" | Machine => "m" end.
Definition text_scope (s : string) : ResourceScope :=
  if bool_decide (s = "r") then Repo else Machine.

Definition Z_text (n : Z) : string := pos_text (encode n).
Definition text_Z (s : string) : Z := from_option (λ x, x) 0%Z (text_pos s ≫= decode).

(** The texts of a claim: fixed places, then the repository scopes. *)
Definition claim_texts (c : OwnershipClaim) : list string :=
  resource c :: agent c :: priority_argument c :: timestamp c :: status_text (status c)
  :: mode_text (mode c) :: opt_text (namespace c) :: opt_text (scope_kind c)
  :: opt_text (scope_path c) :: opt_text (thread_id c) :: Z_text (lease_ttl_seconds c)
  :: opt_text (expires_at c) :: scope_text (scope c)
  :: match reroute_suggestion c with
     | Some r => ["S"; original_resource r; suggested_resource r; isolation_hint r; reason r]
     | None => [""; ""; ""; ""; ""]
     end ++ repo_scopes c.

Definition texts_claim (ts : list string) : option OwnershipClaim :=
  match ts with
  | res :: ag :: arg :: t :: st :: m :: ns :: sk :: sp :: th :: ttl :: ex :: sc
    :: r :: r1 :: r2 :: r3 :: r4 :: scopes =>
      Some (mkClaim res ag arg t (text_status st) (text_mode m) (text_opt ns) (text_opt sk)
              (text_opt sp) scopes (text_opt th) (text_Z ttl) (text_opt ex) (text_scope sc)
              (if is_empty r then None else Some (mkReroute r1 r2 r3 r4)))
  | _ => None
  end.

Lemma texts_claim_texts c : texts_claim (claim_texts c) = Some c.
Proof.
  assert (∀ o, text_opt (opt_text o) = o) as Ho by by intros [].
  destruct c as [? ? ? ? st m ns sk sp ? th ttl ex sc [[]|]]; cbn;
    rewrite !Ho; unfold text_Z, Z_text; rewrite text_pos_text, bind_Some_l, decode_encode; by destruct st, m, sc.
Qed.

Definition bit_claims : ClaimCodec.
Proof.
  refine {| claim_text c := pos_text (encode (claim_texts c));
            claim_of_text s := (text_pos s ≫= decode) ≫= texts_claim |}.
  intros c. rewrite text_pos_text, bind_Some_l, decode_encode, bind_Some_l. apply texts_claim_texts.
Defined.

(** ** Values of the streams *)

Definition plain_store : StoreText :=
  {| json_text _ := "{}"; strings_text l := join "," l; presence_of_text _ := None |}.
