(* ===== verification/ClaimFacts.v ===== *)
(** * ClaimFacts: reasoning about claim programs

    Triples over programs run alone on a server: what holds of the hashes before
    gives what holds after, whatever the outcome and whichever calls fail. *)

From Stdlib Require Import ZArith Lia Ascii.
From stdpp Require Import base option list strings gmap.
From S2P Require Import Prelude Str Json Validation ClaimTypes Redis Channels Claims.

(** ** The commands of a program *)

(** Every command [p] may issue, whatever the replies, satisfies [ok]. *)
Fixpoint issues {A} (ok : cmd → Prop) (p : prog A) : Prop :=
  match p with
  | Ret _ | Throw _ | Panic => True
  | Now k => ∀ t, issues ok (k t)
  | Fresh k => ∀ i, issues ok (k i)
  | Call c k => ok c ∧ ∀ r, issues ok (k r)
  end.

Lemma issues_bind {A B} ok (p : prog A) (k : A → prog B) :
  issues ok p → (∀ a, issues ok (k a)) → issues ok (pbind p k).
Proof. intros Hp Hk. induction p; simpl in *; naive_solver. Qed.

Lemma issues_try {A} ok (p : prog A) : issues ok p → issues ok (try_ p).
Proof. intros Hp. induction p; simpl in *; naive_solver. Qed.

Lemma issues_lift {A} ok (r : Result A) : issues ok (lift r).
Proof. by destruct r. Qed.

Lemma issues_or_panic {A} ok (r : option A) : issues ok (or_panic r).
Proof. by destruct r. Qed.

Lemma issues_now ok : issues ok now.
Proof. done. Qed.

Lemma issues_fresh ok : issues ok fresh_id.
Proof. done. Qed.

Lemma issues_Ret {A} ok (a : A) : issues ok (Ret a).
Proof. done. Qed.

Lemma issues_Throw {A} ok e : issues ok (@Throw A e).
Proof. done. Qed.

Lemma issues_query {A} (ok : cmd → Prop) (conv : reply → result string A) c :
  ok c → issues ok (query conv c).
Proof. by simpl. Qed.

Lemma issues_query_or {A} (ok : cmd → Prop) msg (conv : reply → result string A) c :
  ok c → issues ok (query_or msg conv c).
Proof. intros Hc. apply issues_bind; [by apply issues_query|]. by intros []. Qed.

Lemma issues_best_effort {A} ok (p : prog A) : issues ok p → issues ok (best_effort p).
Proof. intros Hp. apply issues_bind; [by apply issues_try|done]. Qed.

Lemma issues_mono {A} (ok ok' : cmd → Prop) (p : prog A) :
  (∀ c, ok c → ok' c) → issues ok p → issues ok' p.
Proof. intros Hok. induction p; simpl; naive_solver. Qed.

Create HintDb issues.
#[export] Hint Resolve issues_try issues_lift issues_or_panic issues_now issues_fresh issues_Ret
  issues_Throw issues_best_effort issues_query issues_query_or : issues.

(** Follow a program's structure: binds, tests and known programs. *)
Ltac issues_step :=
  match goal with
  | |- issues _ (pbind _ _) => apply issues_bind; [|intros ?]
  | |- issues _ (best_effort _) => apply issues_best_effort
  | |- issues _ (try_ _) => apply issues_try
  | |- issues _ (query_or _ _ _) => apply issues_query_or
  | |- issues _ (query _ _) => apply issues_query
  | |- issues _ (if ?b then _ else _) => destruct b
  | |- issues _ (match ?x with _ => _ end) => destruct x
  | |- issues _ _ => solve [auto with issues]
  end.
Ltac issues_tac := repeat issues_step; auto with issues.

(** ** Triples *)

Section triples.
Context `{RedisLaws}.

Definition triple {A} (P : rdb → Prop) (p : prog A) (Q : outcome A → rdb → Prop) : Prop :=
  ∀ s o s', P (rdata s) → run p s = (o, s') → Q o (rdata s').

(** A command that keeps [P] at every time. *)
Definition cmd_keeps (P : rdb → Prop) (c : cmd) : Prop :=
  ∀ t d, P d → P (hash_exec c t d).2.

Lemma triple_bind {A B} P R Q (p : prog A) (k : A → prog B) :
  triple P p (λ o d, match o with
                     | Done a => R a d
                     | Failed e => Q (Failed e) d
                     | Panicked => Q Panicked d
                     end) →
  (∀ a, triple (R a) (k a) Q) → triple P (pbind p k) Q.
Proof.
  intros Hp Hk s o s' HP. rewrite run_bind. destruct (run p s) as [[a|e|] s1] eqn:E.
  - intros Hr. eapply Hk; [exact (Hp _ _ _ HP E)|exact Hr].
  - intros [= <- <-]. exact (Hp _ _ _ HP E).
  - intros [= <- <-]. exact (Hp _ _ _ HP E).
Qed.

Lemma call_keeps P c s r s' : cmd_keeps P c → call c s = (r, s') → P (rdata s) → P (rdata s').
Proof.
  intros Hc E HP. destruct r as [r|e].
  - apply call_Ok in E as (t & _ & _ & ->). by apply Hc.
  - apply call_Err in E as (t & _ & [-> | ->]); [done|by apply Hc].
Qed.

(** What every command keeps, the program keeps. *)
Lemma issues_keeps {A} (P : rdb → Prop) (p : prog A) :
  issues (cmd_keeps P) p → triple P p (λ _, P).
Proof.
  induction p as [a|e| |f IH|f IH|c f IH]; intros Hp s o s' HP; simpl in *.
  1-3: by intros [= <- <-].
  - destruct (read_clock s) as [t s1] eqn:E. apply clock_law in E as [_ Es].
    apply IH; [done|]. by rewrite Es.
  - destruct (make_id s) as [t s1] eqn:E. apply id_law in E as [_ Es].
    apply IH; [done|]. by rewrite Es.
  - destruct (call c s) as [r s1] eqn:E. destruct Hp as [Hc Hp].
    apply IH; [done|]. by eapply call_keeps.
Qed.

Lemma triple_weaken {A} (P P' : rdb → Prop) (Q Q' : outcome A → rdb → Prop) p :
  (∀ d, P d → P' d) → (∀ o d, Q' o d → Q o d) → triple P' p Q' → triple P p Q.
Proof. intros HP HQ Ht s o s' Hs Hr. apply HQ. eapply Ht; [by apply HP|done]. Qed.

Lemma triple_lift {A} (P : rdb → Prop) (r : Result A) (Q : outcome A → rdb → Prop) :
  (∀ d, P d → Q (match r with Ok a => Done a | Err e => Failed e end) d) →
  triple P (lift r) Q.
Proof. intros HQ s o s' HP. destruct r; intros [= <- <-]; by apply HQ. Qed.

(** A command whose reply is dropped: [R] if it succeeds, [E] if not. *)
Lemma triple_command (P R E : rdb → Prop) msg c :
  (∀ t d, P d → R (hash_exec c t d).2) → (∀ d, P d → E d) → (∀ d, R d → E d) →
  triple P (query_or msg as_unit c)
    (λ o d, match o with Done _ => R d | _ => E d end).
Proof.
  intros HR HPE HRE s o s' HP. unfold query_or, query. simpl.
  destruct (call c s) as [[r|e] s1] eqn:Ec; simpl; intros [= <- <-].
  - apply call_Ok in Ec as (t & _ & _ & ->). by apply HR.
  - apply call_Err in Ec as (t & _ & [-> | ->]); auto.
Qed.
End triples.

(** ** One key *)

Section keys.

(** The commands that may write [key]'s fields. *)
Definition writes (key : string) (c : cmd) : bool :=
  match c with
  | HSET k _ | HSETNX k _ _ => bool_decide (k = key)
  | _ => false
  end.

(** The commands that touch [key] at all. *)
Definition touches (key : string) (c : cmd) : bool :=
  match c with
  | HSET k _ | HSETNX k _ _ | HDEL k _ | DEL k | EXPIRE k _ => bool_decide (k = key)
  | _ => false
  end.

Lemma lookup_put_hash_ne d t key key' l : key ≠ key' → put_hash d t key l !! key' = d !! key'.
Proof. intros Hne. unfold put_hash. destruct l; [by apply lookup_delete_ne|by apply lookup_insert_ne]. Qed.

Lemma untouched key c t d :
  touches key c = false → (hash_exec c t d).2 !! key = d !! key.
Proof.
  destruct c; simpl; intros Ht; try done; bool_simplify.
  - by apply lookup_put_hash_ne.
  - case_match; [done|]. by apply lookup_put_hash_ne.
  - by apply lookup_put_hash_ne.
  - by apply lookup_delete_ne.
  - case_match; [|done]. case_match; [by apply lookup_delete_ne|by apply lookup_insert_ne].
Qed.

(** A property of a key's fields that smaller hashes keep. *)
Definition of_key (key : string) (F : list (string * string) → Prop) (d : rdb) : Prop :=
  ∀ h, d !! key = Some h → F (hfields h).

Lemma hlive_fields d t key h : hlive d t key = Some h → d !! key = Some h.
Proof. unfold hlive. repeat case_match; congruence. Qed.

Lemma of_key_unwritten key F c :
  (∀ fs l, F l → F (drop_fields fs l)) → writes key c = false → cmd_keeps (of_key key F) c.
Proof.
  intros HF Hw t d Hd. destruct (touches key c) eqn:Et.
  2: { intros h. rewrite untouched by done. apply Hd. }
  destruct c; simpl in *; try done; bool_simplify; try congruence; subst.
  - intros h. unfold put_hash. destruct (drop_fields _ _) as [|x l] eqn:Ef;
      [by rewrite lookup_delete_eq|]. rewrite lookup_insert_eq. intros [= <-]. simpl.
    rewrite <- Ef. unfold live_fields in *. destruct (hlive d t key) as [h|] eqn:El; [|done].
    apply HF. by eapply Hd, hlive_fields.
  - intros h. by rewrite lookup_delete_eq.
  - destruct (hlive d t key) as [h|] eqn:El; [|done]. case_match; intros h'.
    + by rewrite lookup_delete_eq.
    + rewrite lookup_insert_eq. intros [= <-]. simpl. by eapply Hd, hlive_fields.
Qed.

Lemma untouched_keeps key c (X : option hash) :
  touches key c = false → cmd_keeps (λ d, d !! key = X) c.
Proof. intros Ht t d Hd. by rewrite untouched. Qed.
End keys.

(** ** What the programs of the component issue *)

(** Commands that leave every claim hash and resolution hash alone. *)
Definition off_claims (c : cmd) : Prop := ∀ k, touches (CLAIMS_PREFIX +:+ k) c = false.

(** Commands that add no field to any hash. *)
Definition writes_nothing (c : cmd) : Prop := ∀ k, writes k c = false.

(** Commands that write the fields of [key] alone. *)
Definition writes_only (key : string) (c : cmd) : Prop := ∀ k, k ≠ key → writes k c = false.

Lemma writes_touches key c : touches key c = false → writes key c = false.
Proof. destruct c; simpl; congruence. Qed.

Lemma writes_nothing_only key c : writes_nothing c → writes_only key c.
Proof. intros Hc k _. apply Hc. Qed.

Lemma writes_only_own key c :
  match c with HSET k _ | HSETNX k _ _ => k = key | _ => True end → writes_only key c.
Proof. intros Hc k Hk. destruct c; simpl; try done; subst; by rewrite bool_decide_eq_false_2. Qed.

Lemma off_claims_silent c :
  match c with
  | HSET _ _ | HSETNX _ _ _ | HDEL _ _ | DEL _ | EXPIRE _ _ => False
  | _ => True
  end → off_claims c.
Proof. by destruct c. Qed.

Lemma off_claims_expire k n :
  (∀ k', k ≠ CLAIMS_PREFIX +:+ k') → off_claims (EXPIRE k n).
Proof. intros Hk k'. simpl. by apply bool_decide_eq_false_2. Qed.

Section programs.
Context `{UnicodeCase} `{UnicodeAlnum} `{Chrono} `{StoreText} `{ClaimCodec}.

Ltac off := by apply off_claims_silent.

Lemma connect_off : issues off_claims connect.
Proof. unfold connect. issues_tac. off. Qed.
#[local] Hint Resolve connect_off : issues.

Lemma emit_off event ag res : issues off_claims (emit_resource_event event ag res).
Proof. unfold emit_resource_event. issues_tac. off. Qed.

Lemma xadd_off k from to topic body th tags pr md :
  (∀ k', k ≠ CLAIMS_PREFIX +:+ k') →
  issues off_claims (xadd_to_stream k from to topic body th tags pr md).
Proof.
  intros Hk. unfold xadd_to_stream. issues_tac; [off|by apply off_claims_expire].
Qed.

Lemma post_direct_off sender recipient topic body th tags :
  issues off_claims (post_direct sender recipient topic body th tags).
Proof.
  unfold post_direct. issues_tac. apply xadd_off. intros k'. unfold direct_key.
  by destruct (str_le _ _).
Qed.

Lemma get_presences_off keys : issues off_claims (get_presences keys).
Proof. induction keys as [|k ks IH]; cbn [get_presences]; issues_tac. off. Qed.
#[local] Hint Resolve get_presences_off : issues.

Lemma find_orchestrator_off s : issues off_claims (find_orchestrator s).
Proof. unfold find_orchestrator, bus_list_presence. issues_tac. off. Qed.
#[local] Hint Resolve find_orchestrator_off : issues.

Lemma post_escalation_off s sender body th tags :
  issues off_claims (post_escalation s sender body th tags).
Proof. unfold post_escalation. issues_tac; by apply xadd_off. Qed.
#[local] Hint Resolve emit_off post_direct_off post_escalation_off : issues.

Lemma notify_off res w why by_ cs : issues off_claims (notify_all res w why by_ cs).
Proof. induction cs; cbn [notify_all]; issues_tac. Qed.

Lemma load_writes_nothing key : issues writes_nothing (load_active_claims key).
Proof. unfold load_active_claims. issues_tac; by intros k. Qed.
#[local] Hint Resolve load_writes_nothing : issues.

Lemma connect_writes_nothing : issues writes_nothing connect.
Proof. unfold connect. issues_tac. by intros k. Qed.
#[local] Hint Resolve connect_writes_nothing : issues.

Lemma arbitration_writes_nothing res : issues writes_nothing (get_arbitration_state res).
Proof. unfold get_arbitration_state. issues_tac; by intros k. Qed.

Lemma store_writes_only key cs : issues (writes_only key) (store_claims key cs).
Proof. induction cs; cbn [store_claims]; issues_tac. by apply writes_only_own. Qed.
#[local] Hint Resolve store_writes_only : issues.

Lemma persist_writes_only key cs t : issues (writes_only key) (persist_claims key cs t).
Proof. unfold persist_claims. issues_tac; by apply writes_only_own. Qed.
End programs.

#[export] Hint Resolve connect_off emit_off post_direct_off post_escalation_off notify_off
  find_orchestrator_off load_writes_nothing connect_writes_nothing
  arbitration_writes_nothing persist_writes_only : issues.

(** ** Sequencing what is kept *)

Section kept.
Context `{RedisLaws}.

Lemma kept_bind {A B} (P : rdb → Prop) (p : prog A) (k : A → prog B) :
  triple P p (λ _, P) → (∀ a, triple P (k a) (λ _, P)) → triple P (pbind p k) (λ _, P).
Proof.
  intros Hp Hk. eapply (triple_bind P (λ _, P)); [|exact Hk].
  eapply triple_weaken; [done| |exact Hp]. by intros [] d.
Qed.

Lemma unwritten_kept {A} key F (p : prog A) :
  (∀ fs l, F l → F (drop_fields fs l)) → issues (λ c, writes key c = false) p →
  triple (of_key key F) p (λ _, of_key key F).
Proof.
  intros HF Hp. apply issues_keeps. eapply issues_mono; [|exact Hp].
  intros c. by apply of_key_unwritten.
Qed.

Lemma HSET_keeps key F f v :
  F [] → (∀ l, F l → F (set_field f v l)) → cmd_keeps (of_key key F) (HSET key [(f, v)]).
Proof.
  intros Hnil HF t d Hd h. simpl. unfold put_hash, set_fields. simpl.
  assert (F (live_fields d t key)) as Hl.
  { unfold live_fields. destruct (hlive d t key) as [h'|] eqn:E; [|done].
    by eapply Hd, hlive_fields. }
  apply HF in Hl. destruct (set_field f v (live_fields d t key)) eqn:E.
  - by apply set_field_not_nil in E.
  - rewrite lookup_insert_eq. by intros [= <-].
Qed.
End kept.

(** ** Successful runs *)

Section done.
Context `{RedisLaws}.

Lemma run_bind_Done {A B} (p : prog A) (k : A → prog B) s b s' :
  run (pbind p k) s = (Done b, s') →
  ∃ a s1, run p s = (Done a, s1) ∧ run (k a) s1 = (Done b, s').
Proof. rewrite run_bind. destruct (run p s) as [[a|e|] s1]; naive_solver. Qed.

Lemma run_query_Done {A} (conv : reply → result string A) c s a s' :
  run (query conv c) s = (Done (Ok a), s') →
  ∃ r t, conv r = Ok a ∧ (rtime s ≤ t ≤ rtime s')%Z ∧
    (hash_exec c t (rdata s)).1 r ∧ rdata s' = (hash_exec c t (rdata s)).2.
Proof.
  simpl. destruct (call c s) as [[r|e] s1] eqn:E; simpl; [|done]. intros [= Hr <-].
  apply call_Ok in E as (t & ? & ? & ?). by exists r, t.
Qed.

Lemma run_query_or_Done {A} msg (conv : reply → result string A) c s a s' :
  run (query_or msg conv c) s = (Done a, s') →
  ∃ r t, conv r = Ok a ∧ (rtime s ≤ t ≤ rtime s')%Z ∧
    (hash_exec c t (rdata s)).1 r ∧ rdata s' = (hash_exec c t (rdata s)).2.
Proof.
  intros Hr. apply run_bind_Done in Hr as ([a'|e] & s1 & Hq & Hr); [|done].
  injection Hr as -> ->. by eapply run_query_Done.
Qed.

Lemma run_now_Done s t s' :
  run now s = (Done t, s') → (rtime s ≤ t ≤ rtime s')%Z ∧ rdata s' = rdata s.
Proof.
  simpl. destruct (read_clock s) as [t' s1] eqn:E. intros [= <- <-]. by apply clock_law.
Qed.

Lemma run_lift_Done {A} (r : Result A) s a s' :
  run (lift r) s = (Done a, s') → r = Ok a ∧ s' = s.
Proof. destruct r; simpl; naive_solver. Qed.

Lemma run_or_panic_Done {A} (r : option A) s a s' :
  run (or_panic r) s = (Done a, s') → r = Some a ∧ s' = s.
Proof. destruct r; simpl; naive_solver. Qed.

(** To evaluate a run up to a test of its value. *)
Lemma run_test {A} (f : A → bool) (p : prog A) s :
  match (run p s).1 with Done a => f a | _ => false end = true →
  ∃ a s', run p s = (Done a, s') ∧ f a = true.
Proof. destruct (run p s) as [[a|e|] s']; naive_solver. Qed.

(** Time never goes back. *)
Lemma run_time {A} (p : prog A) s o s' : run p s = (o, s') → (rtime s ≤ rtime s')%Z.
Proof.
  revert s. induction p as [a|e| |f IH|f IH|c f IH]; intros s; simpl.
  1-3: intros [= _ <-]; lia.
  - destruct (read_clock s) as [t s1] eqn:E. apply clock_law in E as [Ht _].
    intros Hr%IH. lia.
  - destruct (make_id s) as [t s1] eqn:E. apply id_law in E as [Ht _]. intros Hr%IH. lia.
  - destruct (call c s) as [[r|e] s1] eqn:E.
    + apply call_Ok in E as (t & Ht & _). intros Hr%IH. lia.
    + apply call_Err in E as (t & Ht & _). intros Hr%IH. lia.
Qed.

(** Programs off the claims leave every claim hash as it is. *)
Lemma off_claims_same {A} (p : prog A) k s o s' :
  issues off_claims p → run p s = (o, s') →
  rdata s' !! (CLAIMS_PREFIX +:+ k) = rdata s !! (CLAIMS_PREFIX +:+ k).
Proof.
  intros Hp Hr.
  apply (issues_keeps (λ d, d !! (CLAIMS_PREFIX +:+ k) = rdata s !! (CLAIMS_PREFIX +:+ k)) p)
    with s o; [|done|done].
  eapply issues_mono; [|exact Hp]. intros c Hc. apply untouched_keeps, Hc.
Qed.
End done.

(** Take a successful run of a sequence apart, one step per use. *)
Ltac run_step H :=
  let a := fresh "a" in let s := fresh "s" in let E := fresh "E" in
  apply run_bind_Done in H as (a & s & E & H).

(** ** Loading and persisting *)

Section storage.
Context `{RedisLaws} `{UnicodeCase} `{UnicodeAlnum} `{Chrono} `{StoreText} `{ClaimCodec}.

Lemma connect_Done s u s' : run connect s = (Done u, s') → rdata s' = rdata s.
Proof. intros Hr. by apply run_query_or_Done in Hr as (r & t & _ & _ & _ & Hd). Qed.

(** What is loaded: the unexpired claims of the fields read, by time. *)
Lemma load_Done key s cs s' :
  run (load_active_claims key) s = (Done cs, s') →
  ∃ t tr l, (rtime s ≤ t ≤ tr)%Z ∧ (tr ≤ rtime s')%Z ∧
    l ≡ₚ live_fields (rdata s) tr key ∧ cs = sort_by by_timestamp (live_claims l t).
Proof.
  unfold load_active_claims. intros Hr. run_step Hr. rename a into t, s0 into s1, E into Ht.
  run_step Hr. rename a into l, s0 into s2, E into Hl.
  apply run_now_Done in Ht as [Ht Hd]. apply run_query_or_Done in Hl as (r & tr & Hc & Htr & Hl & _).
  destruct Hl as (l' & -> & Hl). injection Hc as ->. rewrite Hd in Hl.
  pose proof (run_time _ _ _ _ Hr). exists t, tr, l. split_and!; [lia|lia|lia|done|].
  case_bool_decide as El; [subst; by injection Hr as <- _|].
  run_step Hr. destruct (live_claims l t) as [|c0 cs0] eqn:Ec.
  - do 2 run_step Hr. by injection Hr as <- _.
  - run_step Hr. by injection Hr as <- _.
Qed.

Definition stored_field (c : OwnershipClaim) : string * string := (agent c, claim_text c).

(** The key holds the fields [l] and has no deadline. *)
Definition holds (key : string) (l : list (string * string)) (d : rdb) : Prop :=
  d !! key = match l with [] => None | _ => Some (mkHash l None) end.

Lemma HSET_holds key l f v t d :
  holds key l d → holds key (set_field f v l) (hash_exec (HSET key [(f, v)]) t d).2.
Proof.
  unfold holds. intros Hd. simpl. unfold put_hash, live_fields, hlive, set_fields. simpl.
  rewrite Hd. destruct l as [|x l]; simpl; [by rewrite lookup_insert_eq|].
  destruct x as [f' v']. case_bool_decide; by rewrite lookup_insert_eq.
Qed.

Lemma store_Done key cs s u s' l :
  run (store_claims key cs) s = (Done u, s') → holds key l (rdata s) →
  holds key (set_fields (map stored_field cs) l) (rdata s').
Proof.
  revert s l. induction cs as [|c cs IH]; cbn [store_claims]; intros s l Hr Hl.
  { by injection Hr as _ <-. }
  run_step Hr. apply run_lift_Done in E as [_ ->]. run_step Hr.
  apply run_query_or_Done in E as (r & t & _ & _ & _ & Hd).
  eapply IH in Hr; [exact Hr|]. rewrite Hd. by apply HSET_holds.
Qed.

Lemma set_fields_not_nil fvs l : l ≠ [] → set_fields fvs l ≠ [].
Proof.
  revert l. induction fvs as [|fv fvs IH]; intros l Hl; [done|].
  apply (IH (set_field fv.1 fv.2 l)), set_field_not_nil.
Qed.

(** A rewritten hash holds the claims, until the longest of their leases. *)
Lemma persist_Done key cs t s u s' :
  run (persist_claims key cs t) s = (Done u, s') → cs ≠ [] →
  let ttl := claims_hash_ttl_seconds cs t in
  ∃ tx, (rtime s ≤ tx ≤ rtime s')%Z ∧
    rdata s' !! key =
      if (ttl <=? 0)%Z then None
      else Some (mkHash (set_fields (map stored_field cs) []) (Some (tx + ttl * NANOS)%Z)).
Proof.
  unfold persist_claims. intros Hr Hcs. run_step Hr. apply run_lift_Done in E as [_ ->].
  destruct cs as [|c cs]; [done|]. run_step Hr. rename E into Hdel.
  run_step Hr. rename E into Hst.
  assert (holds key [] (rdata s0)) as Hnone.
  { apply run_query_or_Done in Hdel as (r & tx & _ & _ & _ & Hd). rewrite Hd.
    apply lookup_delete_eq. }
  eapply store_Done in Hst as Hh; [|exact Hnone].
  apply run_time in Hdel. apply run_time in Hst.
  apply run_query_or_Done in Hr as (r & tx & _ & Htx & _ & Hd).
  exists tx. split; [lia|]. rewrite Hd.
  pose proof (set_fields_not_nil (map stored_field cs) (set_field (agent c) (claim_text c) [])
    (set_field_not_nil _ _ _)) as Hne.
  change (set_fields (map stored_field cs) (set_field (agent c) (claim_text c) []))
    with (set_fields (map stored_field (c :: cs)) []) in Hne.
  destruct (set_fields (map stored_field (c :: cs)) []) as [|x l] eqn:El; [done|].
  unfold holds in Hh. cbn [hash_exec snd]. unfold hlive. rewrite Hh. cbn [deadline].
  destruct (_ <=? 0)%Z; [apply lookup_delete_eq|apply lookup_insert_eq].
Qed.
End storage.
