(* ===== verification/ChannelProps.v ===== *)
(** * ChannelProps: what the channel operations guarantee

    Which stream a direct message goes to and who else shares it, what every
    posted entry respects, and that a group's origin is fixed by its creation. *)

From Stdlib Require Import ZArith Lia Ascii.
From stdpp Require Import base option list strings gmap.
From S2P Require Import Prelude Str Json Validation ClaimTypes Redis Channels.
From S2P Require Import Claims ClaimInstances ClaimFacts.

(** ** Direct channels *)

Lemma str_le_total a b : str_le a b = false → str_le b a = true.
Proof. intros E. destruct (String.leb_total a b) as [Ht | Ht]; unfold str_le in *; congruence. Qed.

Lemma direct_key_comm a b : direct_key a b = direct_key b a.
Proof.
  unfold direct_key. destruct (str_le a b) eqn:E, (str_le b a) eqn:E'; try done.
  - by rewrite (String.leb_antisym a b E E').
  - apply str_le_total in E. congruence.
Qed.

Lemma no_colon_cons a t :
  contains_char (String a t) ":" = false → a ≠ ":"%char ∧ contains_char t ":" = false.
Proof.
  rewrite contains_char_cons. intros [Ha Ht]%orb_false_iff. split; [|done].
  by apply bool_decide_eq_false_1 in Ha.
Qed.

(** Two texts without colons are told apart in [x:y]. *)
Lemma colon_inj x y x' y' :
  contains_char x ":" = false → contains_char x' ":" = false →
  x +:+ ":" +:+ y = x' +:+ ":" +:+ y' → x = x' ∧ y = y'.
Proof.
  revert x'. induction x as [|c x IH]; intros [|c' x'] Hx Hx' E; simpl in E.
  - by injection E.
  - apply no_colon_cons in Hx' as [Hne _]. by injection E.
  - apply no_colon_cons in Hx as [Hne _]. by injection E.
  - apply no_colon_cons in Hx as [_ Hx]. apply no_colon_cons in Hx' as [_ Hx'].
    injection E as -> E. destruct (IH x') as [-> ->]; done.
Qed.

(** The channel of two agents is the same from both sides, and with agent names
    free of colons no other pair shares it. *)
Theorem direct_channel_private a b c d :
  contains_char a ":" = false → contains_char b ":" = false →
  contains_char c ":" = false → contains_char d ":" = false →
  (direct_key a b = direct_key c d ↔ (a = c ∧ b = d) ∨ (a = d ∧ b = c)).
Proof.
  intros Ha Hb Hc Hd. split.
  - unfold direct_key, DIRECT_PREFIX. destruct (str_le a b), (str_le c d); simpl;
      intros E; simplify_eq; apply colon_inj in E as [-> ->]; auto.
  - intros [[-> ->] | [-> ->]]; [done|apply direct_key_comm].
Qed.

Lemma direct_channel_private_witness :
  direct_key "bob" "alice" = direct_key "alice" "bob" ∧
  direct_key "alice" "bob" ≠ direct_key "alice" "carol" ∧
  direct_key "a:b" "c" = direct_key "b:c" "a".
Proof.
  split; [|split].
  - apply (direct_channel_private "bob" "alice" "alice" "bob"); try done. right. by split.
  - intros E. apply (direct_channel_private "alice" "bob" "alice" "carol") in E; [|done..].
    destruct E as [[_ E] | [E _]]; discriminate E.
  - reflexivity.
Defined.

(** ** Posted entries *)

(** An entry of a channel stream respects the limits, and is never kept forever. *)
Definition well_posted (c : cmd) : Prop :=
  match c with
  | XADD _ maxlen fs =>
      maxlen = CHANNEL_STREAM_MAXLEN ∧
      (∃ b, field "body" fs = Some b ∧ b ≠ "" ∧ (str_len b ≤ MAX_BODY_LEN)%Z ∧
         contains_char b nul = false) ∧
      (∃ t, field "topic" fs = Some t ∧ (str_len t ≤ MAX_TOPIC_LEN)%Z ∧
         contains_char t nul = false)
  | EXPIRE _ secs => (0 < secs)%Z
  | HSET _ _ | HSETNX _ _ _ | HDEL _ _ | DEL _ => False
  | _ => True
  end.

Section posting.
Context `{UnicodeCase} `{UnicodeAlnum} `{Chrono} `{StoreText}.

Lemma issues_lift_bind {A B} ok (r : Result A) (k : A → prog B) :
  (∀ a, r = Ok a → issues ok (k a)) → issues ok (pbind (lift r) k).
Proof. intros Hk. destruct r; [by apply Hk|done]. Qed.

Lemma xadd_well_posted key from to topic body th tags pr md :
  body ≠ "" → issues well_posted (xadd_to_stream key from to topic body th tags pr md).
Proof.
  intros Hb. unfold xadd_to_stream.
  apply issues_lift_bind. intros _ Ht%reject_nul_bytes_Ok.
  apply issues_lift_bind. intros _ Hbn%reject_nul_bytes_Ok.
  destruct (MAX_TOPIC_LEN <? str_len topic)%Z eqn:Et; [done|].
  destruct (MAX_BODY_LEN <? str_len body)%Z eqn:Eb; [done|]. bool_simplify.
  issues_tac.
  - split_and!; [done| |].
    + exists body. by split_and!.
    + exists topic. by split_and!.
  - simpl. by destruct (starts_with key DIRECT_PREFIX).
Qed.

(** Whatever the server answers, every entry a direct message, a group message or
    an escalation adds to a stream has a body and a topic within their limits and
    free of NUL bytes, in a bounded stream that expires; no hash is touched. *)
Theorem posts_respect_limits bs sender recipient grp topic body th tags :
  issues well_posted (post_direct sender recipient topic body th tags) ∧
  issues well_posted (post_to_group grp sender topic body th) ∧
  issues well_posted (post_escalation bs sender body th tags).
Proof.
  assert (issues well_posted connect) as Hc by (unfold connect; by issues_tac).
  assert (∀ ks, issues well_posted (get_presences ks)) as Hp.
  { intros ks. induction ks; cbn [get_presences]; issues_tac. done. }
  split_and!.
  - unfold post_direct. apply issues_lift_bind. intros _ _.
    destruct (is_empty sender), (is_empty recipient), (is_empty body) eqn:Eb; try done.
    apply issues_bind; [done|intros _]. apply xadd_well_posted. by intros ->.
  - unfold post_to_group. apply issues_lift_bind. intros _ _.
    destruct (is_empty body) eqn:Eb; [done|]. issues_tac; try done.
    apply xadd_well_posted. by intros ->.
  - unfold post_escalation. destruct (is_empty body) eqn:Eb; [done|].
    unfold find_orchestrator, bus_list_presence. issues_tac; try done;
      apply xadd_well_posted; by intros ->.
Qed.
End posting.

(** ** The origin of a group *)

Section groups.
Context `{RedisLaws} `{UnicodeCase} `{UnicodeAlnum} `{Chrono} `{StoreText}.

(** The group was created by [by_] at [at_]; its metadata does not expire. *)
Definition origin (nm by_ at_ : string) (d : rdb) : Prop :=
  ∃ h, d !! group_meta_key nm = Some h ∧ deadline h = None ∧
    field "created_by" (hfields h) = Some by_ ∧ field "created_at" (hfields h) = Some at_.

Lemma origin_untouched nm by_ at_ c :
  touches (group_meta_key nm) c = false → cmd_keeps (origin nm by_ at_) c.
Proof. intros Hc t d (h & Hh & Ho). exists h. by rewrite untouched. Qed.

Lemma members_key_ne nm nm' : group_members_key nm ≠ group_meta_key nm'.
Proof.
  intros E. assert (ends_with (group_members_key nm) ":meta" = true) as He.
  { rewrite E. unfold group_meta_key. rewrite <- string_app_assoc. apply ends_with_app. }
  unfold ends_with, group_members_key, MEMBERS_SUFFIX in He.
  by rewrite <- string_app_assoc, str_rev_app in He.
Qed.

Lemma meta_key_inj nm nm' : group_meta_key nm = group_meta_key nm' → nm = nm'.
Proof.
  unfold group_meta_key. intros E. apply (inj (String.append GROUP_PREFIX)) in E.
  by apply string_app_inj_r in E.
Qed.

Lemma origin_live nm by_ at_ t d :
  origin nm by_ at_ d →
  field "created_by" (live_fields d t (group_meta_key nm)) = Some by_ ∧
  field "created_at" (live_fields d t (group_meta_key nm)) = Some at_.
Proof.
  intros (h & Hh & Hd & Hb & Ha). unfold live_fields, hlive. by rewrite Hh, Hd.
Qed.

(** [HSETNX] never overwrites. *)
Lemma HSETNX_origin nm by_ at_ nm' f v :
  f = "created_by" ∨ f = "created_at" →
  cmd_keeps (origin nm by_ at_) (HSETNX (group_meta_key nm') f v).
Proof.
  intros Hf. destruct (decide (nm' = nm)) as [-> | Hne].
  - intros t d Ho. destruct (origin_live _ _ _ t _ Ho) as [Hb Ha]. simpl.
    destruct Hf as [-> | ->]; by rewrite ?Hb, ?Ha.
  - apply origin_untouched. simpl. apply bool_decide_eq_false_2.
    intros E. by apply meta_key_inj in E.
Qed.

Lemma add_members_untouched nm nm' ms :
  issues (λ c, touches (group_meta_key nm) c = false) (add_members (group_members_key nm') ms).
Proof. by induction ms; cbn [add_members]; issues_tac. Qed.

Lemma add_members_keeps nm by_ at_ nm' ms :
  issues (cmd_keeps (origin nm by_ at_)) (add_members (group_members_key nm') ms).
Proof.
  eapply issues_mono; [|apply add_members_untouched]. intros c. apply origin_untouched.
Qed.

(** A creation starts by leaving the metadata alone. *)
Lemma setup_untouched {A} nm (p : prog A) s o s' :
  run p s = (o, s') → issues (λ c, touches (group_meta_key nm) c = false) p →
  rdata s' !! group_meta_key nm = rdata s !! group_meta_key nm.
Proof.
  intros Hr Hp.
  apply (issues_keeps (λ d, d !! group_meta_key nm = rdata s !! group_meta_key nm) p) with s o;
    [|done|done].
  eapply issues_mono; [|exact Hp]. intros c. apply untouched_keeps.
Qed.
#[local] Hint Resolve add_members_keeps : issues.

(** No command of a creation changes an origin. *)
Ltac origin_tac :=
  unfold connect; issues_tac;
  try solve [apply HSETNX_origin; auto];
  try solve [apply origin_untouched; simpl; done];
  try solve [apply origin_untouched, bool_decide_eq_false_2, members_key_ne].

Lemma create_group_keeps nm by_ at_ nm' ms creator :
  issues (cmd_keeps (origin nm by_ at_)) (create_group nm' ms creator).
Proof. unfold create_group, list_group_info. origin_tac. Qed.

Lemma origin_kept {A} nm by_ at_ (p : prog A) s o s' :
  run p s = (o, s') → issues (cmd_keeps (origin nm by_ at_)) p →
  origin nm by_ at_ (rdata s) → origin nm by_ at_ (rdata s').
Proof. intros Hr Hp Ho. by eapply (issues_keeps (origin nm by_ at_)). Qed.

Lemma HGET_Done msg key f s o s' :
  run (query_or msg as_opt (HGET key f)) s = (Done o, s') →
  ∃ t, o = field f (live_fields (rdata s) t key) ∧ rdata s' = rdata s.
Proof.
  intros Hr. apply run_query_or_Done in Hr as (r & t & Hc & _ & Hrep & Hd).
  cbn [hash_exec fst snd] in *. subst r. exists t. by injection Hc.
Qed.

(** What is reported of a group is its origin. *)
Lemma list_group_info_Done nm by_ at_ s g s' :
  run (list_group_info nm) s = (Done g, s') → origin nm by_ at_ (rdata s) →
  g_name g = nm ∧ g_created_by g = by_ ∧ g_created_at g = at_.
Proof.
  unfold list_group_info. intros Hr Ho. run_step Hr.
  apply run_query_or_Done in E as (r & t & _ & _ & _ & Hd). simpl in Hd. rewrite <- Hd in Ho.
  run_step Hr. apply HGET_Done in E as (t1 & -> & Hd1).
  run_step Hr. apply HGET_Done in E as (t2 & -> & Hd2).
  run_step Hr. injection Hr as <- _. cbn. rewrite Hd1.
  destruct (origin_live _ _ _ t1 _ Ho) as [_ ->]. by destruct (origin_live _ _ _ t2 _ Ho) as [-> _].
Qed.

Lemma HSETNX_absent d t key f v :
  d !! key = None → (hash_exec (HSETNX key f v) t d).2 = <[key := mkHash [(f, v)] None]> d.
Proof.
  intros Hk. unfold hash_exec, live_fields, hlive. rewrite Hk. cbn.
  unfold put_hash, hlive. by rewrite Hk.
Qed.

(** Both fields of a group created anew. *)
Lemma metadata_set nm ts creator s u s1 u' s2 :
  rdata s !! group_meta_key nm = None →
  run (query_or "HSETNX group meta created_at failed" as_unit
         (HSETNX (group_meta_key nm) "created_at" ts)) s = (Done u, s1) →
  run (query_or "HSETNX group meta created_by failed" as_unit
         (HSETNX (group_meta_key nm) "created_by" creator)) s1 = (Done u', s2) →
  origin nm creator ts (rdata s2).
Proof.
  intros Hn H1' H2'. apply run_query_or_Done in H1' as (? & t1 & _ & _ & _ & Hd1).
  apply run_query_or_Done in H2' as (? & t2 & _ & _ & _ & Hd2).
  rewrite HSETNX_absent in Hd1 by done. rewrite Hd2, Hd1. unfold hash_exec, live_fields, hlive.
  rewrite lookup_insert_eq. cbn. change (bool_decide ("created_at" = "created_by")) with false. cbn.
  eexists. split; [apply lookup_insert_eq|].
  unfold hlive. by rewrite lookup_insert_eq.
Qed.

(** A creation that succeeds reports the origin it found or made. *)
Lemma create_group_reports nm ms creator s g s' :
  run (create_group nm ms creator) s = (Done g, s') →
  (∀ by_ at_, origin nm by_ at_ (rdata s) → g_created_by g = by_ ∧ g_created_at g = at_) ∧
  (rdata s !! group_meta_key nm = None →
   origin nm creator (g_created_at g) (rdata s') ∧ g_created_by g = creator).
Proof.
  unfold create_group. intros Hr. destruct (is_empty nm); [done|].
  destruct (negb _); [done|]. cbv zeta in Hr.
  run_step Hr. run_step Hr. run_step Hr. rename a1 into t.
  run_step Hr. run_step Hr. run_step Hr. split.
  - intros by_ at_ Ho. eapply list_group_info_Done in Hr as (_ & Hg); [exact Hg|].
    do 6 (eapply origin_kept; [eassumption|origin_tac|]). exact Ho.
  - intros Hn. assert (origin nm creator (format_timestamp t) (rdata s4)) as Ho.
    { eapply metadata_set; [|exact E2|exact E3]. rewrite <- Hn.
      apply setup_untouched with (nm := nm) in E as <-; [|unfold connect; by issues_tac].
      apply setup_untouched with (nm := nm) in E0 as <-; [|apply add_members_untouched].
      by apply setup_untouched with (nm := nm) in E1 as <-. }
    eapply origin_kept in Ho; [|exact E4|origin_tac].
    eapply list_group_info_Done in Hr as Hg; [|exact Ho]. destruct Hg as (_ & <- & ->).
    split; [|done]. eapply origin_kept; [exact Hr|unfold list_group_info; origin_tac|exact Ho].
Qed.

(** A group's first creation fixes its creator and its creation time, and
    creating it again, or any other group, changes neither, whoever calls and
    wherever the call stops; a creation that succeeds reports them. *)
Theorem group_origin_fixed nm :
  (∀ nm' ms creator by_ at_ s o s',
    run (create_group nm' ms creator) s = (o, s') → origin nm by_ at_ (rdata s) →
    origin nm by_ at_ (rdata s') ∧
    (∀ g, nm' = nm → o = Done g → g_created_by g = by_ ∧ g_created_at g = at_)) ∧
  (∀ ms creator s g s',
    run (create_group nm ms creator) s = (Done g, s') → rdata s !! group_meta_key nm = None →
    origin nm creator (g_created_at g) (rdata s') ∧ g_created_by g = creator).
Proof.
  split.
  - intros nm' ms creator by_ at_ s o s' Hr Ho. split.
    + eapply origin_kept; [exact Hr|apply create_group_keeps|exact Ho].
    + intros g -> ->. by apply create_group_reports in Hr as [Hg _]; apply Hg.
  - intros ms creator s g s' Hr. by apply create_group_reports in Hr as [_ Hg].
Qed.
End groups.

Section demo.
#[local] Existing Instances ascii_case ascii_alnum bit_chrono plain_store mem_server mem_laws.

Definition empty_server : @server mem_server := mkMem ∅ (1000 * NANOS)%Z 1000000%N [].

Definition created_by_is (by_ : string) (g : GroupInfo) : bool :=
  bool_decide (g_created_by g = by_).

(** Alice creates the team, then Bob does. *)
Lemma group_origin_fixed_witness :
  ∃ g s1 g' s2,
    run (create_group "team" ["alice"] "alice") empty_server = (Done g, s1) ∧
    run (create_group "team" ["bob"] "bob") s1 = (Done g', s2) ∧
    g_created_by g' = "alice" ∧ g_created_at g' = g_created_at g.
Proof.
  destruct (run_test (created_by_is "alice") (create_group "team" ["alice"] "alice") empty_server)
    as (g & s1 & Hr & _); [by vm_compute|].
  destruct (run_test (created_by_is "alice") (create_group "team" ["bob"] "bob")
    (run (create_group "team" ["alice"] "alice") empty_server).2) as (g' & s2 & Hr' & _);
    [by vm_compute|].
  rewrite Hr in Hr'. exists g, s1, g', s2. split; [exact Hr|]. split; [exact Hr'|].
  destruct (group_origin_fixed "team") as [Hkeep Hfirst].
  destruct (Hfirst _ _ _ _ _ Hr) as [Ho Hb]; [apply lookup_empty|].
  destruct (Hkeep _ _ _ _ _ _ _ _ Hr' Ho) as [_ Hg]. by apply Hg.
Defined.
End demo.
