(* ===== verification/ClaimProps.v ===== *)
(** * ClaimProps: what the claim operations guarantee

    Run one after another, for every behaviour of the server, the operations keep
    granted claims of a resource free of conflicts; a granted claim was decided
    against the claims read; renewing, releasing and resolving do what they say.
    The last part shows where the guarantees end: interleaved operations, leases
    under two seconds, and the scan of [list_claims]. *)

From Stdlib Require Import ZArith Lia Ascii.
From stdpp Require Import base option list strings gmap.
From S2P Require Import Prelude Str Json Validation ClaimTypes Redis Channels Claims ClaimInstances ClaimFacts.

(** ** Granted claims do not conflict *)

Section exclusive.
Context `{ClaimCodec}.

(** Each field is named after its claim's agent, and no two granted claims conflict. *)
Definition fields_ok (l : list (string * string)) : Prop :=
  NoDup l.*1 ∧
  (∀ f v c, (f, v) ∈ l → claim_of_text v = Some c → agent c = f) ∧
  ∀ f v c f' v' c', (f, v) ∈ l → (f', v') ∈ l → f ≠ f' →
    claim_of_text v = Some c → claim_of_text v' = Some c' →
    status c = Granted → status c' = Granted → claim_conflicts c c' = false.

Definition exclusive (cs : list OwnershipClaim) : Prop :=
  ∀ a b, a ∈ cs → b ∈ cs → agent a ≠ agent b →
    status a = Granted → status b = Granted → claim_conflicts a b = false.

(** The fields hold some of the claims. *)
Definition stored (cs : list OwnershipClaim) (l : list (string * string)) : Prop :=
  NoDup l.*1 ∧ ∀ kv, kv ∈ l → ∃ c, c ∈ cs ∧ kv = (agent c, claim_text c).

Lemma NoDup_fst_filter f (l : list (string * string)) :
  NoDup l.*1 → NoDup (List.filter f l).*1.
Proof.
  induction l as [|kv l IH]; csimpl; [done|]. intros [Hkv Hl]%NoDup_cons.
  destruct (f kv); [|by apply IH]. csimpl. apply NoDup_cons. split; [|by apply IH].
  intros (x & Hx & Hin)%list_elem_of_fmap. apply Hkv. rewrite Hx.
  apply list_elem_of_fmap_2. by apply elem_of_filter_b in Hin as [? _].
Qed.

Lemma fields_ok_filter f l : fields_ok l → fields_ok (List.filter f l).
Proof.
  intros (Hd & Ha & Hc). split_and!; [by apply NoDup_fst_filter| |].
  - intros g v c Hin. apply elem_of_filter_b in Hin as [Hin _]. by apply Ha.
  - intros g v c g' v' c' Hin Hin'. apply elem_of_filter_b in Hin as [Hin _].
    apply elem_of_filter_b in Hin' as [Hin' _]. by apply Hc.
Qed.

Lemma stored_filter cs f l : stored cs l → stored cs (List.filter f l).
Proof.
  intros [Hd Hs]. split; [by apply NoDup_fst_filter|].
  intros kv Hin. apply elem_of_filter_b in Hin as [Hin _]. by apply Hs.
Qed.

Lemma stored_nil cs : stored cs [].
Proof. split; [constructor|]. by intros kv Hkv%not_elem_of_nil. Qed.

Lemma stored_set cs c l : c ∈ cs → stored cs l → stored cs (set_field (agent c) (claim_text c) l).
Proof.
  intros Hc [Hd Hs]. split; [by apply NoDup_set_field|].
  intros kv [-> | Hkv]%elem_of_set_field; [by exists c|by apply Hs].
Qed.

Lemma stored_ok cs l : exclusive cs → stored cs l → fields_ok l.
Proof.
  intros He [Hd Hs]. split_and!; [done| |].
  - intros f v c Hin Hv. apply Hs in Hin as (a & _ & [= -> ->]).
    rewrite claim_roundtrip in Hv. by injection Hv as ->.
  - intros f v c f' v' c' Hin Hin' Hne Hv Hv' Hg Hg'.
    apply Hs in Hin as (a & Ha & [= -> ->]). apply Hs in Hin' as (b & Hb & [= -> ->]).
    rewrite claim_roundtrip in Hv, Hv'. injection Hv as <-. injection Hv' as <-.
    by apply He.
Qed.

Lemma exclusive_recompute cs : exclusive (recompute_claim_statuses cs).
Proof.
  intros a b Ha Hb Hne Hga Hgb.
  apply list_elem_of_lookup in Ha as [i Hi]. apply list_elem_of_lookup in Hb as [j Hj].
  rewrite lookup_recompute in Hi, Hj.
  apply fmap_Some in Hi as (a' & Hi & ->). apply fmap_Some in Hj as (b' & Hj & ->).
  unfold recompute_at. rewrite claim_conflicts_set_status_l, claim_conflicts_set_status_r.
  destruct (claim_conflicts a' b') eqn:E; [|done]. exfalso.
  assert (status (recompute_at cs i a') = Contested); [|congruence].
  apply recompute_at_status. exists j, b'. split_and!; [|done|done].
  intros ->. congruence.
Qed.

Lemma exclusive_resolve winner cs : exclusive (map (resolve_status winner) cs).
Proof.
  intros a b Ha Hb Hne. change (map ?f cs) with (f <$> cs) in *.
  apply list_elem_of_fmap in Ha as (a' & -> & _). apply list_elem_of_fmap in Hb as (b' & -> & _).
  unfold resolve_status in *. simpl in *. do 2 case_bool_decide; congruence.
Qed.
End exclusive.

Section operations.
Context `{RedisLaws} `{UnicodeCase} `{UnicodeAlnum} `{Chrono} `{StoreText} `{ClaimCodec}.

Lemma store_kept key cs cs' :
  cs' ⊆ cs → issues (cmd_keeps (of_key key (stored cs))) (store_claims key cs').
Proof.
  induction cs' as [|c cs' IH]; intros Hsub; cbn [store_claims]; issues_tac.
  - apply HSET_keeps; [apply stored_nil|]. intros l. apply stored_set, Hsub. left.
  - apply IH. intros x Hx. apply Hsub. by right.
Qed.

(** Rewriting the hash of a resource keeps it conflict-free wherever it stops. *)
Lemma persist_kept key cs t : exclusive cs →
  triple (of_key key fields_ok) (persist_claims key cs t) (λ _, of_key key fields_ok).
Proof.
  intros Hcs. unfold persist_claims. apply kept_bind.
  { apply issues_keeps. issues_tac. }
  intros _. destruct cs as [|c0 cs0] eqn:Ecs.
  { apply unwritten_kept; [intros fs; apply fields_ok_filter|]. issues_tac. }
  rewrite <- Ecs in *. clear Ecs.
  eapply (triple_bind _ (λ _, of_key key (stored cs))).
  - eapply triple_weaken; [done| |apply (triple_command _ (of_key key (stored cs)))];
      [by intros []|..].
    + intros t' d _ h. simpl. by rewrite lookup_delete_eq.
    + done.
    + intros d Hd h Hh. by eapply stored_ok, Hd.
  - intros _. eapply triple_weaken; [done| |apply issues_keeps].
    { intros o d Hd h Hh. by eapply stored_ok, Hd. }
    issues_tac; [by apply store_kept|]. apply of_key_unwritten; [intros fs; apply stored_filter|done].
Qed.

(** One operation on claims, by one caller. *)
Inductive claim_op : Type :=
  | OpClaim (s : BusSettings) (res ag argument : string) (o : ClaimOptions)
  | OpRenew (res ag : string) (lease_ttl : option Z)
  | OpRelease (res ag : string)
  | OpResolve (res winner_agent why resolved_by : string)
  | OpState (res : string)
  | OpList (resource_filter : option string) (status_filter : option ClaimStatus).

Definition unit_of {A} (p : prog A) : prog unit := let! _ := p in Ret tt.

Definition op_prog (o : claim_op) : prog unit :=
  match o with
  | OpClaim s res ag argument o => unit_of (claim_resource_with_options s res ag argument o)
  | OpRenew res ag ttl => unit_of (renew_claim res ag ttl)
  | OpRelease res ag => unit_of (release_claim res ag)
  | OpResolve res winner why by_ => unit_of (resolve_claim res winner why by_)
  | OpState res => unit_of (get_arbitration_state res)
  | OpList rf sf => unit_of (list_claims rf sf)
  end.

(** Operations run one after another, each to its end, whatever that is. *)
Definition run_ops (ops : list claim_op) (s : server) : server :=
  foldl (λ s o, (run (op_prog o) s).2) s ops.

(** The resource whose hash an operation rewrites. *)
Definition op_resource (o : claim_op) : option string :=
  match o with
  | OpClaim _ res _ _ _ | OpRenew res _ _ | OpRelease res _ | OpResolve res _ _ _ => Some res
  | OpState _ | OpList _ _ => None
  end.

Lemma nothing_unwritten {A} key (p : prog A) :
  issues writes_nothing p → issues (λ c, writes key c = false) p.
Proof. apply issues_mono. intros c Hc. apply Hc. Qed.

Lemma off_unwritten {A} k (p : prog A) :
  issues off_claims p → issues (λ c, writes (CLAIMS_PREFIX +:+ k) c = false) p.
Proof. apply issues_mono. intros c Hc. apply writes_touches, Hc. Qed.

Lemma only_unwritten {A} key k (p : prog A) :
  key ≠ k → issues (writes_only k) p → issues (λ c, writes key c = false) p.
Proof. intros Hne. apply issues_mono. intros c Hc. by apply Hc. Qed.

Lemma key_not_resolution key res :
  ends_with key ":resolution" = false → claim_resolution_key (claims_key res) ≠ key.
Proof. intros Hk <-. unfold claim_resolution_key in Hk. by rewrite ends_with_app in Hk. Qed.

Lemma list_writes_nothing rf sf : issues writes_nothing (list_claims rf sf).
Proof.
  unfold list_claims. issues_tac; [by intros k|].
  match goal with |- issues _ (load_all ?ks) => induction ks as [|k ks IH] end;
    cbn [load_all]; issues_tac.
Qed.

(** Leaves of the walks below: what does not write the key. *)
Ltac unwritten_leaf :=
  first
    [ apply nothing_unwritten; solve [auto with issues]
    | apply off_unwritten; solve [auto with issues]
    | eapply only_unwritten; [|solve [auto with issues]]; congruence
    | issues_step ].

(** Operations on other resources do not write the key. *)
Lemma op_unwritten k o :
  ends_with (CLAIMS_PREFIX +:+ k) ":resolution" = false →
  match op_resource o with Some res => claims_key res ≠ CLAIMS_PREFIX +:+ k | None => True end →
  issues (λ c, writes (CLAIMS_PREFIX +:+ k) c = false) (op_prog o).
Proof.
  intros Hend Hres. destruct o; unfold op_prog, unit_of; cbn [op_resource] in Hres;
    (apply issues_bind; [|done]).
  - unfold claim_resource_with_options. repeat unwritten_leaf; auto.
  - unfold renew_claim. repeat unwritten_leaf; auto.
  - unfold release_claim. repeat unwritten_leaf; auto.
  - unfold resolve_claim. repeat unwritten_leaf; auto.
    simpl. apply bool_decide_eq_false_2. by apply key_not_resolution.
  - repeat unwritten_leaf; auto.
  - apply nothing_unwritten, list_writes_nothing.
Qed.

Lemma unwritten_fields_kept {A} key (p : prog A) :
  issues (λ c, writes key c = false) p →
  triple (of_key key fields_ok) p (λ _, of_key key fields_ok).
Proof. apply unwritten_kept. intros fs. apply fields_ok_filter. Qed.

Lemma persist_recompute_kept key cs t :
  triple (of_key key fields_ok) (persist_claims key (recompute_claim_statuses cs) t)
    (λ _, of_key key fields_ok).
Proof. apply persist_kept, exclusive_recompute. Qed.

Lemma persist_resolve_kept key w cs t :
  triple (of_key key fields_ok) (persist_claims key (map (resolve_status w) cs) t)
    (λ _, of_key key fields_ok).
Proof. apply persist_kept, exclusive_resolve. Qed.

(** An operation on the key's own resource: all but the rewriting writes nothing. *)
Ltac kept_step :=
  first
    [ apply persist_recompute_kept
    | apply persist_resolve_kept
    | apply unwritten_fields_kept; solve [repeat unwritten_leaf; auto]
    | match goal with
      | |- triple _ (pbind _ _) _ => apply kept_bind; [|intros ?]
      | |- triple _ (if ?b then _ else _) _ => destruct b
      | |- triple _ (match ?x with _ => _ end) _ => destruct x
      end ].

Lemma op_own res o :
  ends_with (claims_key res) ":resolution" = false →
  match op_resource o with Some r => claims_key r = claims_key res | None => False end →
  triple (of_key (claims_key res) fields_ok) (op_prog o)
    (λ _, of_key (claims_key res) fields_ok).
Proof.
  intros Hend Hres. destruct o; unfold op_prog, unit_of; cbn [op_resource] in Hres; try done;
    (apply kept_bind; [|intros _; apply unwritten_fields_kept; exact I]);
    unfold claim_resource_with_options, renew_claim, release_claim, resolve_claim;
    rewrite Hres; cbv zeta; repeat kept_step.
  apply unwritten_fields_kept, (issues_query_or (λ c, writes _ c = false)). simpl.
  apply bool_decide_eq_false_2. by apply key_not_resolution.
Qed.

(** C1. However the server answers and wherever operations stop, operations run one
    after another on any resources keep the claims of a resource stored under their
    agents' names, with no two granted claims in conflict: two agents never both
    hold an exclusive lease. The resource must not end in [:resolution], where its
    key is another resource's resolution key. *)
Theorem granted_never_conflict res ops s :
  ends_with (claims_key res) ":resolution" = false →
  of_key (claims_key res) fields_ok (rdata s) →
  of_key (claims_key res) fields_ok (rdata (run_ops ops s)).
Proof.
  intros Hend. revert s. induction ops as [|o ops IH]; intros s Hs; [exact Hs|].
  simpl. apply IH. destruct (run (op_prog o) s) as [out s1] eqn:E. simpl.
  assert (triple (of_key (claims_key res) fields_ok) (op_prog o)
    (λ _, of_key (claims_key res) fields_ok)) as Ht; [|by eapply Ht].
  destruct (op_resource o) as [r|] eqn:Er.
  - destruct (decide (claims_key r = claims_key res)).
    + apply op_own; [done|]. by rewrite Er.
    + apply unwritten_fields_kept, op_unwritten; [done|]. by rewrite Er.
  - apply unwritten_fields_kept, op_unwritten; [done|]. by rewrite Er.
Qed.
End operations.

(** ** What a claim request decides *)

Section claiming.
Context `{RedisLaws} `{UnicodeCase} `{UnicodeAlnum} `{Chrono} `{StoreText} `{ClaimCodec}.

(** With no other claim of the agent, the new claim comes last and is the one found. *)
Lemma find_new ag others new :
  (∀ d, d ∈ others → agent d ≠ ag) → agent new = ag →
  find (λ c, bool_decide (agent c = ag)) (recompute_claim_statuses (others ++ [new])) =
    Some (set_status new
            (if existsb (claim_conflicts new) others then Contested else Granted)).
Proof.
  intros Hothers Hnew. destruct (recompute_snoc others new) as (pre & -> & Hpre).
  apply find_snoc; [|by apply bool_decide_eq_true_2].
  intros c Hc. apply bool_decide_eq_false_2.
  apply (list_elem_of_fmap_2 agent) in Hc. change (agent <$> pre) with (map agent pre) in Hc.
  rewrite Hpre in Hc. apply list_elem_of_fmap in Hc as (d & -> & Hd). by apply Hothers.
Qed.

Lemma field_set_fields_last fvs f v l : field f (set_fields (fvs ++ [(f, v)]) l) = Some v.
Proof.
  unfold set_fields. rewrite foldl_app. simpl. rewrite field_set_field.
  by rewrite bool_decide_eq_true_2.
Qed.

(** The outcome [c] of a request that took the server from [s] to [s']: it was
    decided against the other agents' claims read, those unexpired at [t], and is
    stored under its agent unless the lease left no whole second. *)
Definition claim_decision (s s' : server) (res ag argument : string) (o : ClaimOptions)
    (c : OwnershipClaim) : Prop :=
  ∃ t0 t tr l expiry,
    (rtime s ≤ t0 ≤ t)%Z ∧ (t ≤ tr ≤ rtime s')%Z ∧
    l ≡ₚ live_fields (rdata s) tr (claims_key res) ∧
    compute_expiry t0 (o_lease_ttl_seconds o) = Some expiry ∧
    let others := List.filter (not_by ag) (sort_by by_timestamp (live_claims l t)) in
    let new := new_claim res ag argument (format_timestamp t0) (Some expiry) o in
    let conflict := existsb (claim_conflicts new) others in
    let decided := set_status new (if conflict then Contested else Granted) in
    c = set_reroute decided
          (if conflict then suggest_reroute res ag (map agent others) else None) ∧
    match rdata s' !! claims_key res with
    | Some h => field ag (hfields h) = Some (claim_text decided)
    | None =>
        (claims_hash_ttl_seconds (recompute_claim_statuses (others ++ [new])) t0 ≤ 0)%Z
    end.

Lemma not_by_other ag l d : d ∈ List.filter (not_by ag) l → agent d ≠ ag.
Proof.
  intros [_ Hd]%elem_of_filter_b. unfold not_by in Hd. by bool_simplify.
Qed.

Lemma others_recompute others new ag :
  (∀ d, d ∈ others → agent d ≠ ag) → agent new = ag →
  map agent (List.filter (not_by ag) (recompute_claim_statuses (others ++ [new]))) =
    map agent others.
Proof.
  intros Hothers Hnew. destruct (recompute_snoc others new) as (pre & -> & Hpre).
  rewrite List.filter_app. cbn [List.filter]. unfold not_by at 2. cbn [agent set_status].
  rewrite Hnew, bool_decide_eq_true_2 by done. cbn [negb]. rewrite app_nil_r, filter_all; [done|].
  intros c Hc. apply negb_true_iff, bool_decide_eq_false_2.
  apply (list_elem_of_fmap_2 agent) in Hc. change (agent <$> pre) with (map agent pre) in Hc.
  rewrite Hpre in Hc. apply list_elem_of_fmap in Hc as (d & -> & Hd). by apply Hothers.
Qed.

(** What is stored for the new claim. *)
Lemma persist_new key others new t s u s' :
  run (persist_claims key (recompute_claim_statuses (others ++ [new])) t) s = (Done u, s') →
  match rdata s' !! key with
  | Some h => field (agent new) (hfields h) =
      Some (claim_text (set_status new
              (if existsb (claim_conflicts new) others then Contested else Granted)))
  | None => (claims_hash_ttl_seconds (recompute_claim_statuses (others ++ [new])) t ≤ 0)%Z
  end.
Proof.
  intros Hr. apply persist_Done in Hr as (tx & _ & ->).
  2: { destruct (recompute_snoc others new) as (pre & -> & _). by destruct pre. }
  destruct (claims_hash_ttl_seconds _ t <=? 0)%Z eqn:E; [by apply Z.leb_le in E|].
  destruct (recompute_snoc others new) as (pre & -> & _). cbn [hfields].
  rewrite map_app. simpl. unfold stored_field at 2. simpl. apply field_set_fields_last.
Qed.

(** C28. A claim that succeeds was decided as documented, for every behaviour of the
    server: it is contested, with a suggestion, exactly when it conflicts with an
    unexpired claim of another agent that was read, otherwise granted, and it is
    stored under its agent with that status unless the hash was given no lease. *)
Theorem claim_decides bs res ag argument o s c s' :
  run (claim_resource_with_options bs res ag argument o) s = (Done c, s') →
  claim_decision s s' res ag argument o c.
Proof.
  unfold claim_resource_with_options. intros Hr.
  destruct (is_empty res); [done|]. destruct (is_empty ag); [done|].
  destruct (_ && _); [done|]. cbv zeta in Hr.
  run_step Hr. apply connect_Done in E as Hd0. apply run_time in E as Ht0.
  run_step Hr. apply run_now_Done in E0 as [Ht1 Hd1]. rename a0 into t0.
  run_step Hr. apply run_or_panic_Done in E0 as [Hexp ->]. rename a0 into expiry.
  run_step Hr. apply load_Done in E0 as (t & tr & l & Ht2 & Ht3 & Hl & ->).
  rewrite Hd1, Hd0 in Hl.
  set (others := List.filter (not_by ag) (sort_by by_timestamp (live_claims l t))) in *.
  set (new := new_claim res ag argument (format_timestamp t0) (Some expiry) o) in *.
  assert (∀ d, d ∈ others → agent d ≠ ag) as Hothers by apply not_by_other.
  run_step Hr. apply persist_new in E0 as Hst. apply run_time in E0 as Ht4. clear E0.
  rewrite find_new in Hr by done. rewrite others_recompute in Hr by done.
  run_step Hr. injection E0 as <- ->.
  run_step Hr. run_step Hr. injection Hr as <- <-.
  apply off_claims_same with (k := replace_char "\" "/" res) in E0 as Hk1;
    [|issues_tac]. apply run_time in E0.
  apply off_claims_same with (k := replace_char "\" "/" res) in E1 as Hk2;
    [|issues_tac]. apply run_time in E1.
  exists t0, t, tr, l, expiry. split_and!; try done; try lia.
  fold others new. cbv zeta. split.
  - by destruct (existsb _ _).
  - fold (claims_key res) in Hk1, Hk2. rewrite Hk2, Hk1. exact Hst.
Qed.
End claiming.

(** ** Releasing, resolving and renewing *)

Section changing.
Context `{RedisLaws} `{UnicodeCase} `{UnicodeAlnum} `{Chrono} `{StoreText} `{ClaimCodec}.

Lemma resolution_key_ne key : claim_resolution_key key ≠ key.
Proof.
  unfold claim_resolution_key. intros E. apply (f_equal String.length) in E.
  rewrite length_string_app in E. simpl in E. lia.
Qed.

Lemma stored_set_fields cs cs' l :
  cs' ⊆ cs → stored cs l → stored cs (set_fields (map stored_field cs') l).
Proof.
  revert l. induction cs' as [|c cs' IH]; intros l Hsub Hl; [done|].
  apply IH; [intros x Hx; apply Hsub; by right|].
  apply stored_set; [apply Hsub; by left|done].
Qed.

(** After a successful rewriting the hash holds the claims written and no others. *)
Lemma persist_stored key cs t s u s' :
  run (persist_claims key cs t) s = (Done u, s') → of_key key (stored cs) (rdata s').
Proof.
  intros Hr. destruct cs as [|c0 cs0] eqn:Ecs.
  - unfold persist_claims in Hr. run_step Hr. apply run_lift_Done in E as [_ ->].
    run_step Hr. apply run_query_or_Done in E as (? & ? & _ & _ & _ & Hd).
    apply run_query_or_Done in Hr as (? & ? & _ & _ & _ & Hd'). intros h. rewrite Hd', Hd. simpl.
    rewrite lookup_delete_ne by apply resolution_key_ne. by rewrite lookup_delete_eq.
  - rewrite <- Ecs in *. apply persist_Done in Hr as (tx & _ & Hk); [|by subst].
    intros h. rewrite Hk. destruct (_ <=? 0)%Z; [done|]. intros [= <-]. cbn [hfields].
    apply stored_set_fields; [done|apply stored_nil].
Qed.

(** What is read back is among what was written. *)
Lemma load_stored key cs s cs' s' :
  run (load_active_claims key) s = (Done cs', s') →
  of_key key (stored cs) (rdata s) → cs' ⊆ cs.
Proof.
  intros Hr Hs. apply load_Done in Hr as (t & tr & l & _ & _ & Hl & ->).
  intros c Hc. rewrite elem_of_sort_by in Hc. apply list_elem_of_omap in Hc as (kv & Hkv & Hc).
  rewrite Hl in Hkv. unfold live_fields in Hkv.
  destruct (hlive (rdata s) tr key) as [h|] eqn:Eh; [|by apply not_elem_of_nil in Hkv].
  apply hlive_fields in Eh. apply Hs in Eh as [_ Hin]. apply Hin in Hkv as (a & Ha & ->).
  cbn [snd] in Hc. rewrite claim_roundtrip in Hc. simpl in Hc.
  destruct (claim_expired a t); [done|]. by injection Hc as <-.
Qed.

Lemma unwritten_stored {A} key cs (p : prog A) s o s' :
  issues (λ c, writes key c = false) p → run p s = (o, s') →
  of_key key (stored cs) (rdata s) → of_key key (stored cs) (rdata s').
Proof.
  intros Hp Hr Hs. eapply unwritten_kept; [|exact Hp|exact Hs|exact Hr].
  intros f l. apply stored_filter.
Qed.

Lemma arbitration_claims res cs s st s' :
  run (get_arbitration_state res) s = (Done st, s') →
  of_key (claims_key res) (stored cs) (rdata s) → a_claims st ⊆ cs ∧ a_resource st = res.
Proof.
  unfold get_arbitration_state. intros Hr Hs. run_step Hr.
  eapply unwritten_stored in Hs; [| |exact E];
    [|apply nothing_unwritten; auto with issues].
  run_step Hr. eapply load_stored in E0; [|exact Hs].
  do 2 run_step Hr. injection Hr as <- _. done.
Qed.

(** The claims an operation on [res] loaded between [s] and [s']. *)
Definition loaded_from (s s' : server) (res : string) (loaded : list OwnershipClaim) : Prop :=
  ∃ t tr l, (rtime s ≤ t ≤ tr)%Z ∧ (tr ≤ rtime s')%Z ∧
    l ≡ₚ live_fields (rdata s) tr (claims_key res) ∧
    loaded = sort_by by_timestamp (live_claims l t).

(** The start all operations on a resource share. *)
Lemma connect_load_Done {A} res (k : list OwnershipClaim → prog A) s a s' :
  run (let! _ := connect in let! cs := load_active_claims (claims_key res) in k cs) s
    = (Done a, s') →
  ∃ loaded s1, loaded_from s s' res loaded ∧ (rtime s ≤ rtime s1)%Z ∧
    run (k loaded) s1 = (Done a, s').
Proof.
  intros Hr. run_step Hr. apply connect_Done in E as Hd. apply run_time in E. run_step Hr.
  apply load_Done in E0 as (t & tr & l & Ht & Htr & Hl & ->).
  rewrite Hd in Hl. apply run_time in Hr as Ht'.
  eexists _, s1. split; [|split; [lia|exact Hr]]. exists t, tr, l. split_and!; [lia|lia|lia|done|done].
Qed.

(** Releasing succeeds only for an agent with a live claim; the
    claims reported afterwards are claims of other agents, with the statuses they
    have among themselves, so what the released claim alone contested is granted. *)
Theorem release_releases res ag s st s' :
  run (release_claim res ag) s = (Done st, s') →
  ∃ loaded, loaded_from s s' res loaded ∧ (∃ c, c ∈ loaded ∧ agent c = ag) ∧
    a_resource st = res ∧
    a_claims st ⊆ recompute_claim_statuses (List.filter (not_by ag) loaded).
Proof.
  unfold release_claim. intros Hr. apply connect_load_Done in Hr as (loaded & s1 & Hl & _ & Hr).
  exists loaded. split; [done|]. destruct (_ =? _)%nat eqn:Elen; [done|].
  run_step Hr. run_step Hr. apply persist_stored in E0. run_step Hr.
  eapply unwritten_stored in E0; [| |exact E1].
  2: { apply off_unwritten. auto with issues. }
  eapply arbitration_claims in Hr as [Hsub Hres]; [|exact E0].
  split_and!; [|done|done]. apply Nat.eqb_neq in Elen.
  destruct (existsb (λ c, bool_decide (agent c = ag)) loaded) eqn:Ex.
  - apply existsb_True in Ex as (c & Hc & Ha). exists c. split; [done|].
    by apply bool_decide_eq_true_1 in Ha.
  - destruct Elen. rewrite filter_all; [done|]. intros c Hc.
    eapply existsb_False in Ex; [|exact Hc]. unfold not_by. by rewrite Ex.
Qed.

(** The verdict recorded for a resource, if any, is [w] for [why]. *)
Definition verdict (w why : string) (l : list (string * string)) : Prop :=
  (field "winner" l = None ∨ field "winner" l = Some w) ∧
  (field "reason" l = None ∨ field "reason" l = Some why).

Lemma verdict_drop w why fs l : verdict w why l → verdict w why (drop_fields fs l).
Proof.
  unfold verdict. rewrite !field_drop_fields. intros [Hw Hy]. split; case_bool_decide; auto.
Qed.

Lemma verdict_written key w why by_ ts t d :
  of_key key (verdict w why)
    (hash_exec (HSET key [("winner", w); ("reason", why); ("resolved_by", by_);
                          ("resolved_at", ts)]) t d).2.
Proof.
  intros h. cbn [hash_exec snd]. unfold put_hash. destruct (set_fields _ _) as [|x l] eqn:El;
    [by rewrite lookup_delete_eq|]. rewrite lookup_insert_eq. intros [= <-]. cbn [hfields].
  rewrite <- El. unfold set_fields. simpl. unfold verdict. by rewrite !field_set_field; auto.
Qed.

Lemma verdict_kept {A} key w why (p : prog A) s o s' :
  issues (λ c, writes key c = false) p → run p s = (o, s') →
  of_key key (verdict w why) (rdata s) → of_key key (verdict w why) (rdata s').
Proof.
  intros Hp Hr Hs. eapply unwritten_kept; [|exact Hp|exact Hs|exact Hr].
  intros fs l. apply verdict_drop.
Qed.

(** What is read of a verdict. *)
Lemma verdict_read key w why f s r s' :
  run (query as_opt (HGET key f)) s = (Done r, s') → of_key key (verdict w why) (rdata s) →
  of_key key (verdict w why) (rdata s') ∧
  ∀ v, r = Ok (Some v) → (f = "winner" → v = w) ∧ (f = "reason" → v = why).
Proof.
  intros Hr Hs. split.
  { eapply verdict_kept; [|exact Hr|exact Hs]. by apply (issues_query (λ c, writes key c = false)). }
  intros v ->. apply run_query_Done in Hr as (r & t & Hc & _ & Hrep & _).
  cbn [hash_exec fst] in Hrep. subst r. injection Hc as Hf. unfold live_fields in Hf.
  destruct (hlive (rdata s) t key) as [h|] eqn:Eh; [|done].
  apply hlive_fields in Eh. destruct (Hs _ Eh) as [Hw Hy].
  split; intros ->; naive_solver.
Qed.

Lemma arbitration_verdict res w why s st s' :
  run (get_arbitration_state res) s = (Done st, s') →
  of_key (claim_resolution_key (claims_key res)) (verdict w why) (rdata s) →
  (∀ v, a_winner st = Some v → v = w) ∧ (∀ v, a_resolution_reason st = Some v → v = why).
Proof.
  unfold get_arbitration_state. intros Hr Hs. run_step Hr.
  eapply verdict_kept in Hs; [| |exact E]; [|apply nothing_unwritten; auto with issues].
  run_step Hr. eapply verdict_kept in Hs; [| |exact E0];
    [|apply nothing_unwritten; auto with issues].
  run_step Hr. apply (verdict_read _ w why) in E1 as [Hs' Hw]; [|done].
  run_step Hr. apply (verdict_read _ w why) in E1 as [_ Hy]; [|done].
  injection Hr as <- _. cbn [a_winner a_resolution_reason]. split; intros v Hv.
  - destruct a1 as [o|]; [|done]. subst o. by apply (Hw v).
  - destruct a2 as [o|]; [|done]. subst o. by apply (Hy v).
Qed.

(** Resolving succeeds only when the resource has live claims; every claim it
    reports is granted if the winner made it and review-assigned if not, and the
    winner and reason it reports are those given. *)
Theorem resolve_awards res winner why by_ s st s' :
  run (resolve_claim res winner why by_) s = (Done st, s') →
  ∃ loaded, loaded_from s s' res loaded ∧ loaded ≠ [] ∧ a_resource st = res ∧
    a_claims st ⊆ map (resolve_status winner) loaded ∧
    (∀ v, a_winner st = Some v → v = winner) ∧
    (∀ v, a_resolution_reason st = Some v → v = why).
Proof.
  unfold resolve_claim. intros Hr. apply connect_load_Done in Hr as (loaded & s1 & Hl & _ & Hr).
  exists loaded. split; [done|]. case_bool_decide as Hne; [done|]. split; [done|].
  run_step Hr. run_step Hr. apply persist_stored in E0 as Hst.
  run_step Hr. apply run_now_Done in E1 as [_ Hd]. rewrite <- Hd in Hst.
  run_step Hr. eapply unwritten_stored in Hst; [| |exact E1].
  2: { apply (issues_query_or (λ c, writes _ c = false)). simpl.
       apply bool_decide_eq_false_2, resolution_key_ne. }
  apply run_query_or_Done in E1 as (r & tx & _ & _ & _ & Hd').
  assert (of_key (claim_resolution_key (claims_key res)) (verdict winner why) (rdata s4)) as Hv.
  { rewrite Hd'. apply verdict_written. }
  run_step Hr. eapply unwritten_stored in Hst; [| |exact E1].
  2: by apply (issues_query_or (λ c, writes _ c = false)).
  eapply verdict_kept in Hv; [| |exact E1].
  2: by apply (issues_query_or (λ c, writes _ c = false)).
  run_step Hr. eapply arbitration_claims in Hst as [Hsub Hres]; [|exact E2].
  eapply arbitration_verdict in E2 as [Hw Hy]; [|exact Hv].
  do 2 run_step Hr. by injection Hr as <- _.
Qed.

Lemma renew_in_Some ag ts ttl e l l' :
  renew_in ag ts ttl e l = Some l' →
  ∃ i old, l !! i = Some old ∧ agent old = ag ∧
    (∀ j d, j < i → l !! j = Some d → agent d ≠ ag) ∧
    l' = <[i := set_lease old ttl ts e]> l.
Proof.
  revert l'. induction l as [|c l IH]; simpl; intros l' Hr; [done|].
  case_bool_decide as Ha.
  - injection Hr as <-. exists 0, c. split_and!; [done|done|lia|done].
  - apply fmap_Some in Hr as (l1 & Hr & ->). apply IH in Hr as (i & old & Hi & Hag & Hj & ->).
    exists (S i), old. split_and!; [done|done| |done].
    intros [|j] d Hlt Hd; [by injection Hd as ->|]. apply (Hj j); [lia|done].
Qed.

(** The renewed claim, among claims of which it is the agent's first. *)
Lemma find_renewed loaded i old ag ttl ts e :
  loaded !! i = Some old → agent old = ag →
  (∀ j d, j < i → loaded !! j = Some d → agent d ≠ ag) →
  let l := <[i := set_lease old ttl ts e]> loaded in
  find (λ c, bool_decide (agent c = ag)) (recompute_claim_statuses l) =
    Some (recompute_at l i (set_lease old ttl ts e)) ∧
  (status (recompute_at l i (set_lease old ttl ts e)) = Contested ↔
     ∃ j d, i ≠ j ∧ loaded !! j = Some d ∧ claim_conflicts old d = true).
Proof.
  intros Hi Ha Hj l. assert (l !! i = Some (set_lease old ttl ts e)) as Hli.
  { apply list_lookup_insert_eq. by eapply lookup_lt_Some. }
  split.
  - apply find_first with i.
    + by rewrite lookup_recompute, Hli.
    + by apply bool_decide_eq_true_2.
    + intros j y Hlt Hy. rewrite lookup_recompute in Hy. apply fmap_Some in Hy as (d & Hd & ->).
      unfold l in Hd. rewrite list_lookup_insert_ne in Hd by lia.
      apply bool_decide_eq_false_2. exact (Hj j d Hlt Hd).
  - rewrite recompute_at_status. apply exist_proper. intros j. apply exist_proper. intros d.
    assert (i ≠ j → l !! j = loaded !! j) as Hl by apply list_lookup_insert_ne.
    split; intros (Hne & Hd & Hc); (split; [exact Hne|split; [|exact Hc]]).
    + by rewrite <- Hl.
    + by rewrite Hl.
Qed.

(** Renewing succeeds only for an agent with a live claim: its first claim is
    returned with a lease that starts anew, everything else of it unchanged except
    the status, which is contested exactly when another live claim conflicts. *)
Theorem renew_renews res ag lease_ttl s c s' :
  run (renew_claim res ag lease_ttl) s = (Done c, s') →
  ∃ loaded i old t expiry, loaded_from s s' res loaded ∧ loaded !! i = Some old ∧ agent old = ag ∧
    (rtime s ≤ t ≤ rtime s')%Z ∧
    let ttl := Z.max (from_option (λ x, x) CLAIM_TTL_SECS lease_ttl) 1 in
    compute_expiry t ttl = Some expiry ∧
    c = set_status (set_lease old ttl (format_timestamp t) (Some expiry)) (status c) ∧
    (status c = Contested ↔
       ∃ j d, i ≠ j ∧ loaded !! j = Some d ∧ claim_conflicts old d = true) ∧
    (status c = Contested ∨ status c = Granted).
Proof.
  unfold renew_claim. intros Hr. apply connect_load_Done in Hr as (loaded & s1 & Hl & Ht1 & Hr).
  run_step Hr. apply run_now_Done in E as [Ht _]. rename a into t.
  apply run_time in Hr as Ht2. destruct (negb _); [done|].
  run_step Hr. apply run_or_panic_Done in E as [Hexp ->]. rename a into expiry.
  destruct (renew_in _ _ _ _ _) as [l|] eqn:El; [|done].
  apply renew_in_Some in El as (i & old & Hi & Ha & Hj & ->).
  destruct (find_renewed loaded i old ag (Z.max (from_option (λ x, x) CLAIM_TTL_SECS lease_ttl) 1)
    (format_timestamp t) (Some expiry) Hi Ha Hj) as [Hf Hs].
  do 2 run_step Hr. rewrite Hf in Hr. injection Hr as <- _.
  exists loaded, i, old, t, expiry. split_and!; try done; try lia.
  apply recompute_at_status_cases.
Qed.
End changing.

(** ** The lifetime of a stored claim *)

Section lifetime.
Context `{Chrono}.

Lemma add_seconds_lease t n e :
  (1 ≤ n)%Z → add_seconds t (if (n <=? I64_MAX)%Z then n else I64_MAX) = Some e →
  e = (t + n * NANOS)%Z.
Proof.
  unfold add_seconds. intros Hn. destruct (n <=? I64_MAX)%Z eqn:E.
  - repeat case_match; [done|done|]. by intros [= <-].
  - by replace (MAX_DELTA_SECS <? I64_MAX)%Z with true by by vm_compute.
Qed.

(** A lease of [n] seconds from [t], cut to microseconds, counted in whole seconds. *)
Lemma truncated_lease t n :
  (1 ≤ n)%Z →
  let cut := ((t + n * NANOS) / 1000 * 1000)%Z in
  (t < cut)%Z ∧
  ((cut - t) / NANOS = if (t mod 1000 =? 0)%Z then n else n - 1)%Z.
Proof.
  intros Hn cut. pose proof (Z.mod_pos_bound t 1000 ltac:(lia)) as Hm.
  assert (cut = t + n * NANOS - t mod 1000)%Z as ->.
  { unfold cut, NANOS. rewrite (Z.mod_eq t 1000) by lia.
    replace (t + n * 1000000000)%Z with (t + (n * 1000000) * 1000)%Z by lia.
    rewrite Z.div_add by lia. lia. }
  unfold NANOS. split; [lia|]. destruct (t mod 1000 =? 0)%Z eqn:E; bool_simplify.
  - replace (_ - t)%Z with (n * 1000000000)%Z by lia. by apply Z.div_mul.
  - symmetry. apply Z.div_unique with (1000000000 - t mod 1000)%Z; lia.
Qed.

(** The hash of a lone claim gets the lease in whole seconds only when it was
    made on a whole microsecond; otherwise the truncated expiry costs a second, and
    a lease of one second gets none. *)
Theorem hash_ttl_of_lease c t L expiry :
  compute_expiry t L = Some expiry → expires_at c = Some expiry →
  four_digit_year (t + Z.max L 1 * NANOS) = true →
  claims_hash_ttl_seconds [c] t =
    (if (t mod 1000 =? 0)%Z then Z.max L 1 else Z.max L 1 - 1)%Z.
Proof.
  intros He Hc Hy. apply fmap_Some in He as (e & Ha & ->).
  apply add_seconds_lease in Ha as ->; [|lia].
  destruct (truncated_lease t (Z.max L 1)) as [Hlt Hdiv]; [lia|].
  unfold claims_hash_ttl_seconds. cbn [omap list_omap]. rewrite Hc. rewrite bind_Some_l.
  unfold parse_timestamp, format_timestamp. rewrite parse_format by done.
  apply Z.ltb_lt in Hlt. by rewrite Hlt, Hdiv.
Qed.
End lifetime.

(** ** Concrete runs *)

Section demo.
#[local] Existing Instances ascii_case ascii_alnum bit_chrono bit_claims plain_store
  mem_server mem_laws.

Definition demo_settings : BusSettings := mkBus "presence:".

(** An empty server at [1000s] whose steps take a millisecond. *)
Definition demo_server : @server mem_server := mkMem ∅ (1000 * NANOS)%Z 1000000%N [].

Definition shared : ClaimOptions := mkOptions Shared None None None [] None 600 None.

Definition alone : ClaimOptions := mkOptions Exclusive None None None [] None 600 None.

Definition demo_ops : list claim_op :=
  [OpClaim demo_settings "src/a.rs" "alice" "edit" alone;
   OpClaim demo_settings "src/a.rs" "bob" "read" shared;
   OpResolve "src/a.rs" "bob" "first" "carol";
   OpRelease "src/a.rs" "alice"].

(** The agents and statuses stored for a resource. *)
Definition stored_statuses (res : string) (d : rdb) : list (string * ClaimStatus) :=
  match d !! claims_key res with
  | Some h => omap (λ kv, c ← claim_of_text kv.2; Some (kv.1, status c)) (hfields h)
  | None => []
  end.

Lemma granted_never_conflict_witness :
  stored_statuses "src/a.rs" (rdata (run_ops (take 2 demo_ops) demo_server)) =
    [("alice", Contested); ("bob", Contested)] ∧
  stored_statuses "src/a.rs" (rdata (run_ops (take 3 demo_ops) demo_server)) =
    [("alice", ReviewAssigned); ("bob", Granted)] ∧
  of_key (claims_key "src/a.rs") fields_ok (rdata (run_ops demo_ops demo_server)).
Proof.
  split_and!; [by vm_compute|by vm_compute|].
  apply (granted_never_conflict "src/a.rs" demo_ops demo_server); [by vm_compute|].
  intros h. simpl. by rewrite lookup_empty.
Defined.

(** The server once Alice holds the file. *)
Definition demo_held : @server mem_server := run_ops (take 1 demo_ops) demo_server.

(** The server once Bob contests it. *)
Definition demo_contested : @server mem_server := run_ops (take 2 demo_ops) demo_server.

Definition has_status (st : ClaimStatus) (c : OwnershipClaim) : bool :=
  bool_decide (status c = st).

Lemma claim_decides_witness :
  ∃ c s',
    run (claim_resource_with_options demo_settings "src/a.rs" "bob" "read" shared) demo_held
      = (Done c, s') ∧ has_status Contested c = true ∧
    claim_decision demo_held s' "src/a.rs" "bob" "read" shared c.
Proof.
  destruct (run_test (has_status Contested)
    (claim_resource_with_options demo_settings "src/a.rs" "bob" "read" shared) demo_held)
    as (c & s' & Hr & Hc); [by vm_compute|].
  exists c, s'. split; [exact Hr|]. split; [exact Hc|].
  exact (claim_decides _ _ _ _ _ _ _ _ Hr).
Defined.

Lemma release_releases_witness :
  ∃ st s' loaded,
    run (release_claim "src/a.rs" "alice") demo_contested = (Done st, s') ∧
    map (λ c, (agent c, status c)) (a_claims st) = [("bob", Granted)] ∧
    loaded_from demo_contested s' "src/a.rs" loaded ∧
    a_claims st ⊆ recompute_claim_statuses (List.filter (not_by "alice") loaded).
Proof.
  destruct (run_test
    (λ st, bool_decide (map (λ c, (agent c, status c)) (a_claims st) = [("bob", Granted)]))
    (release_claim "src/a.rs" "alice") demo_contested) as (st & s' & Hr & Hc); [by vm_compute|].
  destruct (release_releases _ _ _ _ _ Hr) as (loaded & Hl & _ & _ & Hsub).
  exists st, s', loaded. split; [exact Hr|]. split; [|by split].
  by apply bool_decide_eq_true_1 in Hc.
Defined.

Lemma resolve_awards_witness :
  ∃ st s' loaded,
    run (resolve_claim "src/a.rs" "bob" "first" "carol") demo_contested = (Done st, s') ∧
    (a_winner st, length (a_claims st)) = (Some "bob", 2) ∧
    loaded_from demo_contested s' "src/a.rs" loaded ∧
    a_claims st ⊆ map (resolve_status "bob") loaded.
Proof.
  destruct (run_test
    (λ st, bool_decide ((a_winner st, length (a_claims st)) = (Some "bob", 2)))
    (resolve_claim "src/a.rs" "bob" "first" "carol") demo_contested)
    as (st & s' & Hr & Hc); [by vm_compute|].
  destruct (resolve_awards _ _ _ _ _ _ _ Hr) as (loaded & Hl & _ & _ & Hsub & _).
  exists st, s', loaded. split; [exact Hr|]. split; [|by split].
  by apply bool_decide_eq_true_1 in Hc.
Defined.

Lemma renew_renews_witness :
  ∃ c s' loaded i old,
    run (renew_claim "src/a.rs" "alice" (Some 60%Z)) demo_contested = (Done c, s') ∧
    (agent c, status c, lease_ttl_seconds c) = ("alice", Contested, 60%Z) ∧
    loaded_from demo_contested s' "src/a.rs" loaded ∧ loaded !! i = Some old ∧
    (∃ j d, i ≠ j ∧ loaded !! j = Some d ∧ claim_conflicts old d = true).
Proof.
  destruct (run_test
    (λ c, bool_decide ((agent c, status c, lease_ttl_seconds c) = ("alice", Contested, 60%Z)))
    (renew_claim "src/a.rs" "alice" (Some 60%Z)) demo_contested)
    as (c & s' & Hr & Hc); [by vm_compute|]. apply bool_decide_eq_true_1 in Hc.
  destruct (renew_renews _ _ _ _ _ _ Hr)
    as (loaded & i & old & t & e & Hl & Hi & _ & _ & _ & _ & Hs & _).
  exists c, s', loaded, i, old. split; [exact Hr|]. split; [exact Hc|]. split; [exact Hl|].
  split; [exact Hi|]. apply Hs. by injection Hc.
Defined.

(** ** Where the guarantees end *)

Definition request (ag reason_ m : string) (ttl : Z) : ops.ClaimResourceRequest :=
  ops.mkClaimRequest "src/a.rs" ag reason_ m None None None [] None ttl None.

Definition returned (p : outcome OwnershipClaim) : option (string * ClaimStatus) :=
  match p with Done c => Some (agent c, status c) | _ => None end.

(** *** Two requests at once *)

Section racing.
Context `{RedisLaws}.

(** What [p] returns, if it returns, whatever the replies. *)
Fixpoint returns {A} (Q : A → Prop) (p : prog A) : Prop :=
  match p with
  | Ret a => Q a
  | Throw _ | Panic => True
  | Now k => ∀ t, returns Q (k t)
  | Fresh k => ∀ i, returns Q (k i)
  | Call _ k => ∀ r, returns Q (k r)
  end.

Lemma returns_bind {A B} (R : A → Prop) (Q : B → Prop) p (k : A → prog B) :
  returns R p → (∀ a, R a → returns Q (k a)) → returns Q (pbind p k).
Proof. intros Hp Hk. induction p; simpl in *; auto. Qed.

Lemma returns_any {A} (p : prog A) : returns (λ _, True) p.
Proof. by induction p; simpl. Qed.

Lemma returns_then {A B} (Q : B → Prop) (p : prog A) (k : A → prog B) :
  (∀ a, returns Q (k a)) → returns Q (pbind p k).
Proof. intros Hk. eapply returns_bind; [apply returns_any|]. by intros a _. Qed.

Lemma step_returns {A} (Q : A → Prop) p s : returns Q p → returns Q (step p s).1.
Proof.
  destruct p as [a|e| |k|k|c k]; simpl; try done; intros Hp.
  - destruct (read_clock s). apply Hp.
  - destruct (make_id s). apply Hp.
  - destruct (call c s). apply Hp.
Qed.

(** The next [n] steps of [p] only look at a key that holds nothing. *)
Fixpoint looks {A} (key : string) (n : nat) (Q : A → Prop) (p : prog A) : Prop :=
  match n, p with
  | O, _ => returns Q p
  | S n, Ret a => Q a
  | S n, Throw _ | S n, Panic => True
  | S n, Now k => ∀ t, looks key n Q (k t)
  | S n, Fresh k => ∀ i, looks key n Q (k i)
  | S n, Call c k =>
      (c = CONNECT ∧ ∀ r, looks key n Q (k r)) ∨
      (c = HGETALL key ∧ ∀ r, is_ok r = false ∨ r = Ok (RHash []) → looks key n Q (k r))
  end.

Lemma looks_idle {A} key n (Q : A → Prop) p :
  match p with Ret a => Q a | Throw _ | Panic => True | _ => False end → looks key n Q p.
Proof. destruct n, p; simpl; done. Qed.

Lemma step_looks {A} key n (Q : A → Prop) p s :
  rdata s !! key = None → looks key (S n) Q p →
  looks key n Q (step p s).1 ∧ rdata (step p s).2 = rdata s.
Proof.
  intros Hk. destruct p as [a|e| |k|k|c k]; cbn [step]; try (intros Hp; split; [by apply looks_idle|done]).
  - intros Hp. destruct (read_clock s) as [t s1] eqn:E. split; [apply Hp|]. by apply clock_law in E as [_ ?].
  - intros Hp. destruct (make_id s) as [t s1] eqn:E. split; [apply Hp|]. by apply id_law in E as [_ ?].
  - destruct (call c s) as [r s1] eqn:E. intros Hp.
    destruct r as [r|e].
    + apply call_Ok in E as (t & _ & Hr & Hd).
      destruct Hp as [[-> Hp]|[-> Hp]]; (split; [apply Hp|exact Hd]). right.
      destruct Hr as (l & -> & Hl). unfold live_fields, hlive in Hl. rewrite Hk in Hl.
      by apply Permutation_nil_r in Hl as ->.
    + apply call_Err in E as (t & _ & Hd).
      destruct Hp as [[-> Hp]|[-> Hp]]; (split; [apply Hp; by left|by destruct Hd]).
Qed.

Definition turns (b : bool) (sched : list bool) : nat :=
  length (List.filter (Bool.eqb b) sched).

Lemma interleave_app {A B} s1 s2 (p : prog A) (q : prog B) s :
  interleave (s1 ++ s2) p q s =
  (let '(p, q, s) := interleave s1 p q s in interleave s2 p q s).
Proof.
  revert p q s. induction s1 as [|[] s1 IH]; intros p q s; simpl; [done|..].
  - destruct (step p s). apply IH.
  - destruct (step q s). apply IH.
Qed.

Lemma interleave_looks {A B} key sched (P : A → Prop) (Q : B → Prop) : ∀ n m p q s,
  rdata s !! key = None → turns true sched = n → turns false sched = m →
  looks key n P p → looks key m Q q →
  returns P (interleave sched p q s).1.1 ∧ returns Q (interleave sched p q s).1.2.
Proof.
  unfold turns. induction sched as [|b sched IH]; intros n m p q s Hk <- <- Hp Hq; simpl in *; [done|].
  destruct b; simpl in *.
  - pose proof (step_looks key _ P p s Hk Hp) as [Hp' Hd]. destruct (step p s) as [p' s']. simpl in *.
    eapply IH; [by rewrite Hd|done|done|done|done].
  - pose proof (step_looks key _ Q q s Hk Hq) as [Hq' Hd]. destruct (step q s) as [q' s']. simpl in *.
    eapply IH; [by rewrite Hd|done|done|done|done].
Qed.

Lemma interleave_returns {A B} sched (P : A → Prop) (Q : B → Prop) : ∀ p q s,
  returns P p → returns Q q →
  returns P (interleave sched p q s).1.1 ∧ returns Q (interleave sched p q s).1.2.
Proof.
  induction sched as [|[] sched IH]; intros p q s Hp Hq; simpl; [done|..].
  - pose proof (step_returns P p s Hp). destruct (step p s). by apply IH.
  - pose proof (step_returns Q q s Hq). destruct (step q s). by apply IH.
Qed.
End racing.

(** A claim as requested, and granted. *)
Definition granted_as (res ag : string) (o : ClaimOptions) (c : OwnershipClaim) : Prop :=
  resource c = res ∧ agent c = ag ∧ mode c = o_mode o ∧ status c = Granted.

(** Connecting, the clock twice and the claims: a request looks four times. *)
Lemma claim_looks `{UnicodeCase} `{UnicodeAlnum} `{Chrono} `{StoreText} `{ClaimCodec}
    s res ag argument o :
  looks (claims_key res) 4 (granted_as res ag o) (claim_resource_with_options s res ag argument o).
Proof.
  unfold claim_resource_with_options.
  destruct (is_empty res); [done|]. destruct (is_empty ag); [done|].
  destruct (bool_decide (o_mode o = SharedNamespaced) && _); [done|]. cbn zeta.
  left. split; [done|]. intros [v|e]; [|done]. intros t. cbn [pbind as_unit].
  destruct (compute_expiry t (o_lease_ttl_seconds o)) as [ex|]; [|done]. intros t'.
  right. split; [done|]. intros r [Hr | ->]; [destruct r; [done|]; exact I|].
  cbn [pbind as_hash rbind]. rewrite bool_decide_eq_true_2 by done. cbn [pbind].
  apply returns_then. intros [].
  unfold recompute_claim_statuses, enumerate. cbn. rewrite bool_decide_eq_true_2 by done. cbn.
  do 2 (apply returns_then; intros []). unfold granted_as. cbn. by split_and!.
Qed.

(** C39. Claiming is not atomic: when two requests for a resource nobody holds, of any two
    agents and for any leases, have both read the claims before either goes on, then
    whatever the rest of the schedule, the clock and the failures, each of them that
    returns a claim returns it as granted; an exclusive lease and another agent's claim as
    well, although the two conflict. *)
Theorem simultaneous_claims_both_granted `{RedisLaws} `{UnicodeCase} `{UnicodeAlnum} `{Chrono}
    `{StoreText} `{ClaimCodec} (st : BusSettings) (res a b why_a why_b : string)
    (oa ob : ClaimOptions) (early late : list bool) (s s' : server) p q :
  rdata s !! claims_key res = None →
  turns true early = 4 → turns false early = 4 →
  interleave (early ++ late) (claim_resource_with_options st res a why_a oa)
    (claim_resource_with_options st res b why_b ob) s = (p, q, s') →
  (∀ ca, p = Ret ca → granted_as res a oa ca) ∧ (∀ cb, q = Ret cb → granted_as res b ob cb) ∧
  (a ≠ b → o_mode oa = Exclusive →
   ∀ ca cb, p = Ret ca → q = Ret cb → agent ca ≠ agent cb ∧ claim_conflicts ca cb = true).
Proof.
  intros Hk Ht Hf Hi. rewrite interleave_app in Hi.
  destruct (interleave_looks (claims_key res) early _ _ 4 4 _ _ s Hk Ht Hf
    (claim_looks st res a why_a oa) (claim_looks st res b why_b ob)) as [Hp Hq].
  destruct (interleave early _ _ _) as [[p1 q1] s1]. simpl in Hp, Hq.
  destruct (interleave_returns late _ _ p1 q1 s1 Hp Hq) as [Hp' Hq']. rewrite Hi in Hp', Hq'. simpl in *.
  split_and!; [by intros ca ->|by intros cb ->|].
  intros Hne Ea ca cb -> ->. destruct Hp' as (_ & -> & Em & _), Hq' as (_ & -> & _).
  split; [done|]. unfold claim_conflicts. by rewrite Em, Ea.
Qed.

(** One command each in turn, to the end: the hash keeps both. *)
Definition demo_race : prog OwnershipClaim * prog OwnershipClaim * server :=
  interleave (List.concat (repeat [true; false] 40))
    (claim_resource_with_options demo_settings "src/a.rs" "alice" "edit" alone)
    (claim_resource_with_options demo_settings "src/a.rs" "bob" "edit" alone) demo_server.

Definition returned_claim (p : prog OwnershipClaim) : option (string * ClaimStatus) :=
  match p with Ret c => Some (agent c, status c) | _ => None end.

Lemma simultaneous_claims_both_granted_witness :
  (returned_claim demo_race.1.1, returned_claim demo_race.1.2) =
    (Some ("alice", Granted), Some ("bob", Granted)) ∧
  stored_statuses "src/a.rs" (rdata demo_race.2) = [("alice", Granted); ("bob", Granted)] ∧
  ∀ ca cb, demo_race.1.1 = Ret ca → demo_race.1.2 = Ret cb →
    agent ca ≠ agent cb ∧ claim_conflicts ca cb = true.
Proof.
  split; [by vm_compute|]. split; [by vm_compute|].
  destruct (simultaneous_claims_both_granted demo_settings "src/a.rs" "alice" "bob" "edit" "edit" alone alone
    (List.concat (repeat [true; false] 4)) (List.concat (repeat [true; false] 36)) demo_server
    demo_race.2 demo_race.1.1 demo_race.1.2) as (_ & _ & Hc);
    [by vm_compute|done|done| |by apply Hc].
  unfold demo_race. change (List.concat (repeat [true; false] 4) ++ List.concat (repeat [true; false] 36))
    with (List.concat (repeat [true; false] 40)). by destruct (interleave _ _ _ _) as [[? ?] ?].
Defined.

(** A clock that is not on a whole microsecond. *)
Definition odd_server : @server mem_server := mkMem ∅ (1000 * NANOS + 500)%Z 1000000%N [].

(** A lease of one second is stored and deleted by the same request: the next
    agent is granted the exclusive lease as well, milliseconds later. *)
Lemma one_second_lease_lost :
  let first := run (ops.claim_resource demo_settings (request "alice" "edit" "exclusive" 1))
                 odd_server in
  let second := run (ops.claim_resource demo_settings (request "bob" "edit" "exclusive" 1))
                  first.2 in
  returned first.1 = Some ("alice", Granted) ∧
  rdata first.2 !! claims_key "src/a.rs" = None ∧
  returned second.1 = Some ("bob", Granted).
Proof. split_and!; by vm_compute. Qed.

(** The server once Bob has won, with a scan that finds both keys of the resource. *)
Definition demo_resolved : @server mem_server :=
  let s := run_ops (take 3 demo_ops) demo_server in
  mkMem (m_data s) (m_time s) (m_step s)
    [claims_key "src/a.rs"; claim_resolution_key (claims_key "src/a.rs")].

Definition reported_winner (s : @server mem_server) : option string :=
  match (run (get_arbitration_state "src/a.rs") s).1 with
  | Done st => a_winner st
  | _ => None
  end.

(** Listing claims erases verdicts: the scan for claim keys also finds the
    resolution keys, whose fields hold no claim, and deletes them as empty. *)
Lemma list_claims_erases_verdict :
  reported_winner demo_resolved = Some "bob" ∧
  reported_winner (run (ops.list_claims None None) demo_resolved).2 = None.
Proof. split; by vm_compute. Qed.

(** A reason with a NUL byte is refused only after the hash was rewritten: the
    request fails, and the holder of the resource is left contested by nobody, in a
    hash that no longer expires. *)
Lemma nul_reason_contests_holder :
  let out := run (ops.claim_resource demo_settings
                    (request "bob" (String "000" EmptyString) "exclusive" 600)) demo_held in
  match out.1 with Failed (InvalidParams _) => True | _ => False end ∧
  stored_statuses "src/a.rs" (rdata demo_held) = [("alice", Granted)] ∧
  stored_statuses "src/a.rs" (rdata out.2) = [("alice", Contested)] ∧
  (deadline <$> rdata out.2 !! claims_key "src/a.rs") = Some None.
Proof. split_and!; by vm_compute. Qed.

(** A claim with the default options asks for no lease and so gets one second, where
    its documentation promises an hour: the derived default of the lease is zero. *)
Lemma default_claim_lasts_a_second :
  match (run (claim_resource demo_settings "src/a.rs" "alice" "edit") demo_server).1 with
  | Done c => lease_ttl_seconds c = 1%Z
  | _ => False
  end.
Proof. by vm_compute. Qed.

Definition odd_claim (L : Z) (expiry : string) : OwnershipClaim :=
  new_claim "src/a.rs" "alice" "edit" "now" (Some expiry)
    (mkOptions Exclusive None None None [] None L None).

Lemma hash_ttl_of_lease_witness :
  ∃ expiry, compute_expiry (1000 * NANOS + 500) 1 = Some expiry ∧
    claims_hash_ttl_seconds [odd_claim 1 expiry] (1000 * NANOS + 500) = 0%Z.
Proof.
  exists (format_timestamp (1000 * NANOS + 500 + 1 * NANOS)). split; [reflexivity|].
  change 0%Z with (if ((1000 * NANOS + 500) mod 1000 =? 0)%Z then Z.max 1 1 else Z.max 1 1 - 1)%Z.
  apply (hash_ttl_of_lease _ _ 1 (format_timestamp (1000 * NANOS + 500 + 1 * NANOS)));
    reflexivity.
Defined.
End demo.
