(* ===== verification/ReplayFacts.v ===== *)
(** * ReplayFacts: reasoning about replay scripts

    Triples over scripts whose writes may fail at any point, and the frame of a
    memo: the programs that leave it and the entries of its request alone. *)

From Stdlib Require Import ZArith Lia Ascii.
From stdpp Require Import base option list strings gmap.
From S2P Require Import Prelude Str Json Validation McpSchema ClaimTypes Outbox Redis.
From S2P Require Import Channels Messages ReplayScript OutboxHub.

(** ** Triples *)

Definition ltriple {A} (P : hubdb → Prop) (m : lua A) (Q : result string A → hubdb → Prop) : Prop :=
  ∀ s, P (ls_db s) → Q (m s).1 (ls_db (m s).2).

Lemma ltriple_bind {A B} P (R : A → hubdb → Prop) Q (m : lua A) (k : A → lua B) :
  ltriple P m (λ r d, match r with Ok a => R a d | Err e => Q (Err e) d end) →
  (∀ a, ltriple (R a) (k a) Q) → ltriple P (lbind m k) Q.
Proof.
  intros Hm Hk s HP. specialize (Hm s HP). unfold lbind. destruct (m s) as [[a|e] s'] eqn:E;
    simpl in *; [by apply Hk|done].
Qed.

Lemma ltriple_ret {A} (P : hubdb → Prop) (a : A) (Q : result string A → hubdb → Prop) :
  (∀ d, P d → Q (Ok a) d) → ltriple P (lret a) Q.
Proof. intros HQ s HP. by apply HQ. Qed.

Lemma ltriple_err {A} (P : hubdb → Prop) e (Q : result string A → hubdb → Prop) :
  (∀ d, P d → Q (Err e) d) → ltriple P (lerr e) Q.
Proof. intros HQ s HP. by apply HQ. Qed.

Lemma ltriple_read {A} (P : hubdb → Prop) (f : hubdb → Z → result string A)
    (Q : result string A → hubdb → Prop) :
  (∀ d now, P d → Q (f d now) d) → ltriple P (lread f) Q.
Proof. intros HQ s HP. by apply HQ. Qed.

Lemma ltriple_write (P : hubdb → Prop) f (Q : result string unit → hubdb → Prop) :
  (∀ d, P d → Q (Err "ERR") d) → (∀ d now, P d → Q (Ok tt) (f d now)) →
  ltriple P (lwrite f) Q.
Proof.
  intros He Hw s HP. unfold lwrite. destruct (lua_writes (ls_env s)) as [[|n]|]; simpl; auto.
Qed.

Lemma ltriple_weaken {A} (P P' : hubdb → Prop) (Q Q' : result string A → hubdb → Prop) m :
  (∀ d, P d → P' d) → (∀ r d, Q' r d → Q r d) → ltriple P' m Q' → ltriple P m Q.
Proof. intros HP HQ Ht s Hs. by apply HQ, Ht, HP. Qed.

(** A script that keeps [P] whatever happens. *)
Definition lkeeps {A} (P : hubdb → Prop) (m : lua A) : Prop := ltriple P m (λ _, P).

Lemma lkeeps_bind {A B} P (m : lua A) (k : A → lua B) :
  lkeeps P m → (∀ a, lkeeps P (k a)) → lkeeps P (lbind m k).
Proof.
  intros Hm Hk. apply (ltriple_bind P (λ _, P)); [|exact Hk].
  eapply ltriple_weaken; [done| |exact Hm]. by intros [].
Qed.

Lemma lkeeps_ret {A} P (a : A) : lkeeps P (lret a).
Proof. by apply ltriple_ret. Qed.
Lemma lkeeps_err {A} P e : lkeeps P (@lerr A e).
Proof. by apply ltriple_err. Qed.
Lemma lkeeps_read {A} P (f : hubdb → Z → result string A) : lkeeps P (lread f).
Proof. by apply ltriple_read. Qed.
Lemma lkeeps_write (P : hubdb → Prop) f : (∀ d now, P d → P (f d now)) → lkeeps P (lwrite f).
Proof. intros Hf. by apply ltriple_write. Qed.

(** Keeping [P], then on success going from [P] to [Q]. *)
Lemma lkeeps_then {A B} P Q (m : lua A) (k : A → lua B) :
  lkeeps P m → (∀ e d, P d → Q (Err e) d) → (∀ a, ltriple P (k a) Q) → ltriple P (lbind m k) Q.
Proof.
  intros Hm He Hk. apply (ltriple_bind P (λ _, P)); [|exact Hk].
  eapply ltriple_weaken; [done| |exact Hm]. intros [] d; [done|apply He].
Qed.

Create HintDb lua.
#[export] Hint Resolve lkeeps_ret lkeeps_err lkeeps_read : lua.

(** ** Streams and copies *)

(** The value of a field in a flat list of names and values. *)
Fixpoint flat_field (f : string) (l : list string) : option string :=
  match l with
  | k :: v :: rest => if (k =? f)%string then Some v else flat_field f rest
  | _ => None
  end.

(** How many entries for the identifier [rid] were ever appended to the stream [sk]. *)
Definition is_copy (sk rid : string) (a : string * list string) : bool :=
  bool_decide (a.1 = sk) && bool_decide (flat_field "client_msg_id" a.2 = Some rid).

Definition copies (sk rid : string) (d : hubdb) : nat :=
  length (List.filter (is_copy sk rid) (hd_appended d)).

Lemma copies_append sk rid key maxlen eid fs trim d now :
  copies sk rid (append_entry key maxlen eid fs trim d now) =
  copies sk rid d + (if is_copy sk rid (key, fs) then 1 else 0).
Proof.
  unfold copies, append_entry. cbn [hd_appended].
  rewrite List.filter_app, length_app. f_equal. simpl. by destruct (is_copy _ _ _).
Qed.

(** ** The frame of a memo *)

(** The entry at [memo] is [x] and there are [n] copies. *)
Definition framed (memo sk rid : string) (x : option entry) (n : nat) (d : hubdb) : Prop :=
  hd_keys d !! memo = x ∧ copies sk rid d = n.

Section frame.
Context (memo sk rid : string) (x : option entry) (n : nat).
Abbreviation P := (framed memo sk rid x n).

Lemma SET_framed key v u : key ≠ memo → lkeeps P (redis_SET key v u).
Proof.
  intros Hk. apply lkeeps_write. intros d _ [Hm Hc]. split; [|exact Hc].
  simpl. by rewrite lookup_insert_ne.
Qed.

Lemma DEL_framed ks : memo ∉ ks → lkeeps P (redis_DEL ks).
Proof.
  intros Hk. apply lkeeps_write. intros d _ [Hm Hc]. split; [|exact Hc]. simpl.
  induction ks as [|k ks IH]; [exact Hm|]. apply not_elem_of_cons in Hk as [Hne Hk].
  simpl. rewrite lookup_delete_ne by done. by apply IH.
Qed.

Lemma EXPIRE_framed key secs : key ≠ memo → lkeeps P (redis_EXPIRE key secs).
Proof.
  intros Hk. apply lkeeps_write. intros d now [Hm Hc]. case_match; [|done].
  split; [|exact Hc]. simpl. by rewrite lookup_insert_ne.
Qed.

Lemma PUBLISH_framed c p : lkeeps P (redis_PUBLISH c p).
Proof. apply lkeeps_write. by intros d now [Hm Hc]. Qed.

Lemma append_framed key maxlen eid fs trim d now :
  key ≠ memo → P d →
  framed memo sk rid x (n + (if is_copy sk rid (key, fs) then 1 else 0))
    (append_entry key maxlen eid fs trim d now).
Proof.
  intros Hk [Hm Hc]. split; [|by rewrite copies_append, Hc].
  unfold append_entry. simpl. by rewrite lookup_insert_ne.
Qed.

Lemma XADD_triple key maxlen fs : key ≠ memo →
  ltriple P (redis_XADD key maxlen fs)
    (λ r d, match r with
            | Ok _ => framed memo sk rid x (n + (if is_copy sk rid (key, fs) then 1 else 0)) d
            | Err _ => P d
            end).
Proof.
  intros Hk. unfold redis_XADD. apply lkeeps_then; [apply lkeeps_read|done|].
  intros t. destruct (_ && _); [by apply ltriple_err|].
  intros s HP. unfold lbind, lwrite, lret. cbn.
  destruct (lua_writes (ls_env s)) as [[|k]|]; cbn; [exact HP|by apply append_framed..].
Qed.

Lemma XADD_framed key maxlen fs :
  key ≠ memo → is_copy sk rid (key, fs) = false → lkeeps P (redis_XADD key maxlen fs).
Proof.
  intros Hk Hc. eapply ltriple_weaken; [done| |by apply XADD_triple].
  intros r d. rewrite Hc, Nat.add_0_r. by destruct r.
Qed.
End frame.

#[export] Hint Resolve SET_framed DEL_framed EXPIRE_framed PUBLISH_framed XADD_framed : lua.

(** Follow a script's structure. *)
Ltac lua_step :=
  match goal with
  | |- lkeeps _ (lbind _ _) => apply lkeeps_bind; [|intros ?]
  | |- lkeeps _ (if ?b then _ else _) => destruct b
  | |- lkeeps _ (match ?x with _ => _ end) => destruct x
  | |- lkeeps _ _ => solve [auto with lua]
  end.
Ltac lua_tac := repeat lua_step; auto with lua.

(** ** The replay script *)

Section script.
Context `{LuaJson}.

Lemma GET_framed P key : lkeeps P (redis_GET key).
Proof. apply lkeeps_read. Qed.
Lemma HGET_framed P key f : lkeeps P (redis_HGET key f).
Proof. apply lkeeps_read. Qed.
Lemma TYPE_framed P key : lkeeps P (redis_TYPE key).
Proof. apply lkeeps_read. Qed.
Lemma TIME_framed P : lkeeps P redis_TIME.
Proof. apply lkeeps_read. Qed.
#[local] Hint Resolve GET_framed HGET_framed TYPE_framed TIME_framed : lua.

Lemma lua_index_keeps P v key : lkeeps P (lua_index v key).
Proof. unfold lua_index. lua_tac. Qed.
#[local] Hint Resolve lua_index_keeps : lua.

Lemma preflight_keeps P keys types : lkeeps P (preflight keys types).
Proof.
  revert types. induction keys as [|k keys IH]; intros [|t types]; cbn [preflight]; lua_tac.
Qed.
#[local] Hint Resolve preflight_keeps : lua.

Lemma cached_claim_keeps P keys input record now :
  lkeeps P (cached_claim keys input record now).
Proof. unfold cached_claim. lua_tac. Qed.
#[local] Hint Resolve cached_claim_keeps : lua.

Lemma recover_keeps P keys input prior now : lkeeps P (recover keys input prior now).
Proof. unfold recover. lua_tac. Qed.
#[local] Hint Resolve recover_keeps : lua.

Lemma newer_marker_keeps P input c : lkeeps P (newer_marker input c).
Proof. unfold newer_marker. lua_tac. Qed.
Lemma newer_presence_keeps P input c : lkeeps P (newer_presence input c).
Proof. unfold newer_presence. lua_tac. Qed.
#[local] Hint Resolve newer_marker_keeps newer_presence_keeps : lua.

(** The keys and entries of a request that is not the memo's. *)
Record spared (memo sk rid : string) (keys : list string) (input : script_input) : Prop := {
  spared_keys i : i ∈ [1; 2; 4; 5; 6; 7; 8] → KEYS keys i ≠ memo;
  spared_message : is_copy sk rid (KEYS keys 2, i_message_fields input) = false;
  spared_notice fs text : i_notification_fields input = Some fs →
    is_copy sk rid (KEYS keys 4, fs ++ ["message"; text]) = false;
}.

Lemma save_framed memo sk rid x n keys ret now r :
  KEYS keys 1 ≠ memo → lkeeps (framed memo sk rid x n) (save keys ret now r).
Proof. intros Hk. unfold save. by apply SET_framed. Qed.

Lemma complete_framed memo sk rid x n keys ret now fp resp :
  KEYS keys 1 ≠ memo → lkeeps (framed memo sk rid x n) (complete keys ret now fp resp).
Proof. intros Hk. unfold complete. apply lkeeps_bind; [by apply save_framed|]. auto with lua. Qed.

Lemma message_tail_framed memo sk rid x n keys input now mj :
  (∀ i, i ∈ [4; 5; 6] → KEYS keys i ≠ memo) →
  (∀ fs, i_notification_fields input = Some fs →
     is_copy sk rid (KEYS keys 4, fs ++ ["message"; mj]) = false) →
  lkeeps (framed memo sk rid x n) (message_tail keys input now mj).
Proof.
  intros Hk Hn. unfold message_tail.
  assert (KEYS keys 4 ≠ memo ∧ KEYS keys 5 ≠ memo ∧ KEYS keys 6 ≠ memo) as (H4 & H5 & H6).
  { split_and!; apply Hk; set_solver. }
  apply lkeeps_bind; [lua_tac|intros _]. apply lkeeps_bind.
  - destruct (i_notification_fields input) as [fs|] eqn:E; [|apply lkeeps_ret].
    apply lkeeps_bind; [by apply XADD_framed; auto|]. auto with lua.
  - intros _. destruct (bool_decide _).
    + apply DEL_framed. set_solver.
    + lua_tac.
Qed.

(** A request that is not the memo's leaves it alone. *)
Lemma replay_spares memo sk rid x n keys input :
  spared memo sk rid keys input → lkeeps (framed memo sk rid x n) (replay_script keys input).
Proof.
  intros [Hk Hm Hn]. unfold replay_script.
  assert (∀ i, i ∈ [4; 5; 6] → KEYS keys i ≠ memo) as Hk' by (intros i Hi; apply Hk; set_solver).
  assert (∀ i, i ∈ [1; 2; 7; 8] → KEYS keys i ≠ memo) as Hk'' by (intros i Hi; apply Hk; set_solver).
  apply lkeeps_bind; [auto with lua|intros now]. apply lkeeps_bind; [auto with lua|intros prior].
  destruct prior as [prior|]; [auto with lua|].
  destruct (_ && _); [apply lkeeps_ret|]. destruct (_ <? _)%Z; [apply lkeeps_err|].
  apply lkeeps_bind; [auto with lua|intros _].
  apply lkeeps_bind; [apply save_framed, Hk''; set_solver|intros _].
  assert (∀ now ret, lkeeps (framed memo sk rid x n) (run_message keys ret input now)) as Hmsg.
  { intros t ret. unfold run_message. apply lkeeps_bind.
    - apply XADD_framed; [apply Hk''; set_solver|exact Hm].
    - intros sid. apply lkeeps_bind; [apply message_tail_framed; eauto|intros _].
      apply complete_framed, Hk''; set_solver. }
  destruct (i_operation input); [apply Hmsg| |apply Hmsg|apply lkeeps_ret].
  unfold run_presence. cbv zeta. lua_tac; try (apply complete_framed, Hk''; set_solver);
    apply SET_framed, Hk''; set_solver.
Qed.

(** The completion script writes its own memo only. *)
Lemma finish_framed memo sk rid x n memo' ck fp resp applied result until cexp ag :
  memo' ≠ memo →
  lkeeps (framed memo sk rid x n) (finish_script memo' ck fp resp applied result until cexp ag).
Proof.
  intros Hne. assert (∀ v u, lkeeps (framed memo sk rid x n) (redis_SET memo' v u)) as Hset
    by (intros v u; by apply SET_framed).
  unfold finish_script. lua_tac.
Qed.
End script.

(** ** The life of a message request *)

(** No memo and no copy; a reservation whose script did not finish; or sent, with the
    response that will be given again. *)
Inductive phase : Type :=
  | Fresh
  | Stuck (n : nat)
  | Sent (response : string).

Section life.
Context `{LuaJson} (memo sk rid fp : string).

Definition memo_holds (t state : string) (response : option string) : Prop :=
  ∃ r, text_memo t = Some r ∧ mr_fingerprint r = Some fp ∧ mr_state r = Some state ∧
    mr_response r = response.

Definition in_phase (ph : phase) (d : hubdb) : Prop :=
  match ph with
  | Fresh => framed memo sk rid None 0 d
  | Stuck n =>
      n ≤ 1 ∧ ∃ t, memo_holds t "pending" None ∧
        framed memo sk rid (Some (mkEntry (VString t) None)) n d
  | Sent response =>
      (∃ v, response = applied_text v) ∧ ∃ t, memo_holds t "applied" (Some response) ∧
        framed memo sk rid (Some (mkEntry (VString t) None)) 1 d
  end.

(** The keys and argument of the request. *)
Record owned (keys : list string) (input : script_input) : Prop := {
  owned_memo : KEYS keys 1 = memo;
  owned_stream : KEYS keys 2 = sk;
  owned_keys i : i ∈ [2; 4; 5; 6] → KEYS keys i ≠ memo;
  owned_fp : i_fingerprint input = fp;
  owned_timeless : i_expires_ms input = 0%Z;
  owned_op : i_operation input = Send ∨ i_operation input = Ack;
  owned_copy : is_copy sk rid (sk, i_message_fields input) = true;
  owned_notice fs text : i_notification_fields input = Some fs →
    is_copy sk rid (KEYS keys 4, fs ++ ["message"; text]) = false;
}.

Lemma GET_memo t n : 
  ltriple (framed memo sk rid (Some (mkEntry (VString t) None)) n) (redis_GET memo)
    (λ r d, r = Ok (Some t) ∧ framed memo sk rid (Some (mkEntry (VString t) None)) n d).
Proof.
  apply ltriple_read. intros d now [Hm Hc]. split; [|by split].
  unfold live_entry. by rewrite Hm.
Qed.

Lemma GET_absent n :
  ltriple (framed memo sk rid None n) (redis_GET memo)
    (λ r d, r = Ok None ∧ framed memo sk rid None n d).
Proof.
  apply ltriple_read. intros d now [Hm Hc]. split; [|by split].
  unfold live_entry. by rewrite Hm.
Qed.

(** A saved memo. *)
Lemma save_triple x n keys now r :
  KEYS keys 1 = memo →
  ltriple (framed memo sk rid x n) (save keys None now r)
    (λ o d, match o with
            | Ok _ => framed memo sk rid (Some (mkEntry (VString (memo_text r)) None)) n d
            | Err _ => framed memo sk rid x n d
            end).
Proof.
  intros <-. unfold save, redis_SET. apply ltriple_write; [done|].
  intros d _ [Hm Hc]. split; [|exact Hc]. apply lookup_insert_eq.
Qed.

(** A known request is answered from its memo. *)
Lemma recover_answer keys input t now n state response :
  i_fingerprint input = fp → i_operation input ≠ ClaimRequest → memo_holds t state response →
  ltriple (framed memo sk rid (Some (mkEntry (VString t) None)) n) (recover keys input t now)
    (λ r d, framed memo sk rid (Some (mkEntry (VString t) None)) n d ∧
       (state = "pending" → r = Ok pending_text) ∧
       (state = "applied" → ∀ a, response = Some a → r = Ok a)).
Proof.
  intros Hfp Hop (rec & Ht & Hf & Hs & Hr). unfold recover. rewrite Ht, Hf, Hfp.
  rewrite bool_decide_eq_true_2 by done. cbn [negb].
  rewrite (bool_decide_eq_false_2 (i_operation input = ClaimRequest)) by done. cbn [andb].
  rewrite Hs. case_bool_decide as Ha.
  - injection Ha as ->. intros s Hd. unfold lbind, lret. cbn. split.
    + by destruct (mr_response rec).
    + split; [done|]. intros _ a ->. by rewrite Hr.
  - apply ltriple_ret. intros d Hd. split; [done|]. split; [done|]. intros ->. by destruct Ha.
Qed.

Lemma replay_known keys input t n state response :
  owned keys input → memo_holds t state response →
  ltriple (framed memo sk rid (Some (mkEntry (VString t) None)) n) (replay_script keys input)
    (λ r d, framed memo sk rid (Some (mkEntry (VString t) None)) n d ∧
       (state = "pending" → r = Ok pending_text) ∧
       (state = "applied" → ∀ a, response = Some a → r = Ok a)).
Proof.
  intros [Hk _ _ Hfp _ Hop _ _] Ht. unfold replay_script.
  eapply (ltriple_bind _ (λ _, framed memo sk rid (Some (mkEntry (VString t) None)) n));
    [by apply ltriple_read|intros now].
  rewrite Hk.
  apply (ltriple_bind _ (λ o d, o = Some t ∧
    framed memo sk rid (Some (mkEntry (VString t) None)) n d)).
  - eapply ltriple_weaken; [done| |apply GET_memo]. intros r d [-> Hf]. by split.
  - intros o. intros s [-> Hf]. apply recover_answer; [done| |done|done].
    destruct Hop as [-> | ->]; done.
Qed.

Lemma memo_holds_text state response ce :
  memo_holds (memo_text (mkMemo (Some state) (Some fp) response ce)) state response.
Proof. eexists. split; [apply text_memo_text|]. done. Qed.

(** The reservation of the message. *)
Abbreviation reserved n :=
  (framed memo sk rid
     (Some (mkEntry (VString (memo_text (mkMemo (Some "pending") (Some fp) None None))) None)) n).

Lemma reserved_stuck n d : n ≤ 1 → reserved n d → in_phase (Stuck n) d.
Proof. intros Hn Hd. split; [done|]. eexists. split; [apply memo_holds_text|exact Hd]. Qed.

(** From the reservation on: sent, or stuck with at most one copy. *)
Lemma run_message_triple keys input now :
  owned keys input →
  ltriple (reserved 0) (run_message keys None input now)
    (λ r d, match r with
            | Ok raw => in_phase (Sent raw) d
            | Err _ => ∃ n, in_phase (Stuck n) d
            end).
Proof.
  intros [Hk Hs Hks Hfp _ _ Hc Hn]. unfold run_message.
  assert (sk ≠ memo) as Hsk by (rewrite <- Hs; apply Hks; set_solver).
  apply (ltriple_bind _ (λ _, reserved 1)).
  - eapply ltriple_weaken; [done| |apply XADD_triple; by rewrite Hs].
    intros r d. rewrite Hs, Hc. destruct r; [done|]. intros Hd. exists 0.
    by apply reserved_stuck; [lia|].
  - intros sid. apply lkeeps_then.
    + apply message_tail_framed; [intros i Hi; apply Hks; set_solver|intros fs Hf; by apply Hn].
    + intros e d Hd. exists 1. by apply reserved_stuck.
    + intros _. unfold complete. eapply ltriple_bind.
      * eapply ltriple_weaken; [done| |by apply save_triple]. intros r d.
        instantiate (1 := λ _, framed memo sk rid (Some (mkEntry (VString
          (memo_text (mkMemo (Some "applied") (Some fp)
             (Some (applied_text (with_stream_id (i_result_json input) sid))) None))) None)) 1).
        rewrite Hfp. destruct r; [done|]. intros Hd. exists 1. by apply reserved_stuck.
      * intros u. apply ltriple_ret. intros d Hd. split; [by eexists|].
        eexists. split; [apply memo_holds_text|exact Hd].
Qed.

(** The script, in each phase. *)
Lemma replay_fresh keys input :
  owned keys input →
  ltriple (in_phase Fresh) (replay_script keys input)
    (λ r d, match r with
            | Ok raw => in_phase (Sent raw) d
            | Err _ => in_phase Fresh d ∨ ∃ n, in_phase (Stuck n) d
            end).
Proof.
  intros Ho. pose proof Ho as [Hk _ _ Hfp Hx Hop _ _]. unfold replay_script.
  apply lkeeps_then; [by apply ltriple_read|by left|intros now]. rewrite Hk.
  apply (ltriple_bind _ (λ o d, o = None ∧ in_phase Fresh d)).
  { eapply ltriple_weaken; [done| |apply GET_absent]. intros r d [-> Hd]. by split. }
  intros [t|]; [by intros s [[=] _]|].
  eapply ltriple_weaken with (P' := in_phase Fresh); [by intros d [_ Hd]|intros r d Hd; exact Hd|].
  rewrite Hx, bool_decide_eq_true_2 by done. cbn [negb andb].
  destruct (_ <? _)%Z; [apply ltriple_err; by left|].
  apply lkeeps_then; [apply preflight_keeps|by left|intros _].
  rewrite (bool_decide_eq_false_2 (i_operation input = ClaimRequest))
    by (destruct Hop as [-> | ->]; done).
  apply (ltriple_bind _ (λ _, reserved 0)).
  - eapply ltriple_weaken; [done| |by apply save_triple].
    rewrite Hfp. intros [] d; [done|by left].
  - intros _. eapply ltriple_weaken with (P' := reserved 0); [done| |].
    2: { destruct Hop as [-> | ->]; by apply run_message_triple. }
    intros [raw|e] d; [done|by right].
Qed.

Lemma replay_stuck keys input n :
  owned keys input →
  ltriple (in_phase (Stuck n)) (replay_script keys input)
    (λ r d, r = Ok pending_text ∧ in_phase (Stuck n) d).
Proof.
  intros Ho s (Hn & t & Ht & Hd).
  destruct (replay_known keys input t n _ _ Ho Ht s Hd) as (Hf & Hp & _).
  split; [by apply Hp|]. split; [done|]. by exists t.
Qed.

Lemma replay_sent keys input response :
  owned keys input →
  ltriple (in_phase (Sent response)) (replay_script keys input)
    (λ r d, r = Ok response ∧ in_phase (Sent response) d).
Proof.
  intros Ho s (Hr & t & Ht & Hd).
  destruct (replay_known keys input t 1 _ _ Ho Ht s Hd) as (Hf & _ & Ha).
  split; [by apply Ha|]. split; [done|]. by exists t.
Qed.
End life.
