(* ===== verification/HubInstances.v ===== *)
(** * HubInstances: concrete instances for the hub's side of replay

    Instances of the interfaces of [ReplayScript] and [OutboxHub], to evaluate the
    scripts on concrete inputs: records are written as the bits of their
    [Countable] code, a message's text is its identifier; and the claim tool of [Claims],
    run on the keys of the hub. *)

From Stdlib Require Import ZArith Lia Ascii.
From stdpp Require Import base option list strings gmap countable.
From S2P Require Import Prelude Str Json Validation ClaimTypes Outbox Redis Channels Messages.
From S2P Require Import ReplayScript OutboxHub SyncStore ReplayHttp OutboxCodec Claims ClaimInstances.

(** ** Records of the scripts *)

(** A claim as JSON. *)
Definition claim_value (c : OwnershipClaim) : json :=
  obj [("resource", JStr (resource c)); ("agent", JStr (agent c));
       ("status", JStr (status_text (status c)));
       ("expires_at", JStr (from_option (λ s, s) "" (expires_at c)))].

Definition bit_lua : LuaJson.
Proof.
  refine {|
    memo_text r := pos_text (encode (mr_state r, mr_fingerprint r, mr_response r,
                                     mr_claim_expires_ms r));
    text_memo t := (λ '(a, b, c, d), mkMemo a b c d) <$> (text_pos t ≫= decode);
    marker_text m := pos_text (encode (pk_origin_id m, pk_sequence m, pk_created_ms m));
    text_marker t := (λ '(a, b, c), mkMarker a b c) <$> (text_pos t ≫= decode);
    cjson_decode t := Some (from_option claim_value (JStr t) (claim_of_text (ClaimCodec := bit_claims) t));
    cjson_quote t := t;
    lua_number_eq a b := bool_decide (a = b);
  |}.
  intros []. by rewrite text_pos_text, bind_Some_l, decode_encode.
Defined.

(** ** Text of the hub *)

Lemma pos_text_plain p : contains_char (pos_text p) ":" = false.
Proof. induction p as [q IH|q IH|]; simpl; rewrite ?contains_char_cons, ?IH; done. Qed.

Definition APPLIED_HEAD : string := js "{'status':'applied','result':".

Definition bit_response (t : string) : option ReplayResponse :=
  if bool_decide (t = superseded_text) then Some Superseded
  else if bool_decide (t = pending_text) then Some Outbox.Pending
  else (λ rest, Applied (JStr (drop_last rest))) <$> strip_prefix t APPLIED_HEAD.

Lemma bit_response_applied x v :
  bit_response (applied_text x) = Some v → ∃ res, v = Applied res.
Proof.
  unfold bit_response. rewrite !bool_decide_eq_false_2 by (intros E; vm_compute in E; discriminate E).
  intros (rest & _ & ->)%fmap_Some. by eexists.
Qed.

Definition named_message (t : string) : Message :=
  mkMessage t "" PROTOCOL_VERSION "" "" "" "" None [] "normal" false None (JObj [])
    None None None None None None.

Definition bit_hub : HubText.
Proof.
  refine {|
    uuid_text u := pos_text (encode u);
    message_text m := m_id m +:+ "}";
    presence_text p := p_agent p;
    deadline_text d := "{}";
    response_text r := match r with
                       | Applied v => applied_text (from_option (λ s, s) "" (as_str v))
                       | Superseded => superseded_text
                       | Outbox.Pending => pending_text
                       end;
    response_of_text := bit_response;
    message_of_json v := named_message <$> as_str v;
    presence_of_json v := None;
    response_of_applied := bit_response_applied;
  |}.
  - intros a b E. apply (f_equal text_pos) in E. rewrite !text_pos_text in E.
    injection E as E. by apply (inj encode) in E.
  - intros a. apply pos_text_plain.
  - intros [v| |] x E; [by eexists|by vm_compute in E..].
  - by vm_compute.
  - by vm_compute.
Defined.

Definition no_compression : BodyCodec := {| compress_prepend_size s := s; base64_encode s := s |}.

(** ** The claim tool, on the keys of the hub *)

(** The keys as a server of commands: the instant in nanoseconds, how long a step takes,
    how many identifiers it has given out. *)
Record hub_server := mkHubServer { hs_db : hubdb; hs_now : Z; hs_step : Z; hs_given : nat }.

Definition hash_at (d : hubdb) (now : Z) (key : string) : result string (list (string * string)) :=
  match live_entry d now key with
  | None => Ok []
  | Some (VHash l) => Ok l
  | Some _ => WRONGTYPE
  end.

Definition set_hash (key : string) (l : list (string * string)) (d : hubdb) (now : Z) : hubdb :=
  set_keys d (match l with
              | [] => delete key (hd_keys d)
              | _ => <[key := mkEntry (VHash l) (stream_until d now key)]> (hd_keys d)
              end).

(** A change of the hash at [key]. *)
Definition change_hash (key : string) (f : list (string * string) → list (string * string))
    (d : hubdb) (now : Z) : result string reply * hubdb :=
  match hash_at d now key with
  | Ok l => (Ok RUnit, set_hash key (f l) d now)
  | Err e => (Err e, d)
  end.

Definition expire_key (key : string) (secs : Z) (d : hubdb) (now : Z) : hubdb :=
  match live_entry d now key with
  | None => d
  | Some v =>
      set_keys d (if (secs <=? 0)%Z then delete key (hd_keys d)
                  else <[key := mkEntry v (Some (now + secs * 1000)%Z)]> (hd_keys d))
  end.

Definition add_entry (key : string) (maxlen : Z) (fs : list (string * string)) (eid : string)
    (d : hubdb) (now : Z) : result string reply * hubdb :=
  match live_entry d now key with
  | None | Some (VStream _) => (Ok (RText eid), append_entry key maxlen eid (flat fs) 0 d now)
  | Some _ => (WRONGTYPE, d)
  end.

(** The commands of a claim; sets are not among the values of the hub's keys. *)
Definition hub_exec (c : cmd) (eid : string) (d : hubdb) (now : Z) : result string reply * hubdb :=
  match c with
  | CONNECT => (Ok RUnit, d)
  | HGETALL key => (let? l := hash_at d now key in Ok (RHash l), d)
  | HGET key f => (let? l := hash_at d now key in Ok (ROpt (field f l)), d)
  | HSET key fvs => change_hash key (set_fields fvs) d now
  | HSETNX key f v =>
      change_hash key (λ l, match field f l with Some _ => l | None => set_field f v l end) d now
  | HDEL key fs => change_hash key (drop_fields fs) d now
  | DEL key => (Ok RUnit, set_keys d (delete key (hd_keys d)))
  | EXPIRE key secs => (Ok RUnit, expire_key key secs d now)
  | SCAN pattern =>
      (Ok (RKeys (List.filter (λ k, starts_with k (drop_last pattern) &&
                                    bool_decide (is_Some (live_entry d now k)))
                    (map fst (map_to_list (hd_keys d))))), d)
  | GET key => (match live_entry d now key with
                | None => Ok (ROpt None)
                | Some (VString v) => Ok (ROpt (Some v))
                | Some _ => WRONGTYPE
                end, d)
  | EXISTS key => (Ok (RInt (if bool_decide (is_Some (live_entry d now key)) then 1 else 0)), d)
  | XADD key maxlen fs => add_entry key maxlen fs eid d now
  | XADD_EXPIRE key maxlen fs secs =>
      let '(r, d) := add_entry key maxlen fs eid d now in (r, expire_key key secs d now)
  | SADD _ _ | SMEMBERS _ | XLEN _ => (Err "ERR unknown command", d)
  end.

Definition hub_hash (e : entry) : option hash :=
  match e_value e with
  | VHash l => Some (mkHash l ((λ ms, ms * 1000000)%Z <$> e_until e))
  | _ => None
  end.

Definition step_time (s : hub_server) (d : hubdb) : hub_server :=
  mkHubServer d (hs_now s + hs_step s) (hs_step s) (S (hs_given s)).

Definition hub_redis : RedisServer := {|
  server := hub_server;
  call c s := let '(r, d) := hub_exec c (pos_text (encode (hs_given s))) (hs_db s) (hs_now s / 1000000) in
              (r, step_time s d);
  read_clock s := (hs_now s, step_time s (hs_db s));
  make_id s := (pos_text (encode (hs_given s)), step_time s (hs_db s));
  rtime := hs_now;
  rdata s := omap hub_hash (hd_keys (hs_db s));
|}.

(** The [claim_resource] tool run on those keys from the instant [t]; [to_value] writes a claim as
    JSON. *)
Definition hub_claim_tool `{UnicodeCase} `{UnicodeAlnum} `{Chrono} `{StoreText} `{ClaimCodec}
    (settings : BusSettings) (to_value : OwnershipClaim → json) (t step : Z) : ClaimTool := {|
  dispatch_claim args d :=
    let '(o, s) := run (H := hub_redis) (mcp.claim_resource settings args)
                     (mkHubServer d t step 0) in
    (match o with Done c => Some (to_value c) | _ => None end, hs_db s)
|}.

(** Envelopes as the bits of their code. *)
Definition bit_exchange : ExchangeCodec.
Proof.
  refine {|
    envelope_to_vec ev := Some (pos_text (encode (ev_hub_identity ev, ev_request ev)));
    envelope_of_slice t :=
      '(h, r) ← text_pos t ≫= decode;
      if envelope_nesting (mkEnvelope h r) <=? PARSER_DEPTH then Some (mkEnvelope h r) else None;
    json_eof t := is_empty t;
  |}.
  intros [h r] b _ [= <-]. by rewrite text_pos_text, bind_Some_l, decode_encode.
Defined.
