(* ===== verification/SyncFacts.v ===== *)
(** * SyncFacts: the stream seen from the engine, and its invariant

    [StreamView] is what the engine may rely on: the entries of the stream now, in the
    order of their identifiers, and a bound on all identifiers given so far. Every call
    may find new entries appended and old ones trimmed ([evolves]). Batches handed to
    the cloud are recorded beside the world. *)

From Stdlib Require Import ZArith Lia Ascii.
From stdpp Require Import base option list strings gmap sorting.
From S2P Require Import Prelude Str Json Validation McpSchema ClaimTypes HubTypes Candidates.
From S2P Require Import Redis Channels Messages StreamEntry ReplayScript OutboxHub SyncStore StreamFacts CloudSync.

(** ** Order of identifiers *)

Definition m_rank (m : Message) : Z := from_option sid_rank (-1)%Z (m_stream_id m).
Definition before (a b : Message) : Prop := (m_rank a < m_rank b)%Z.

(** Entries strictly after an identifier. *)
Definition after_id (sid : string) : list Message → list Message :=
  List.filter (λ m, (sid_rank sid <? m_rank m)%Z).

Class StreamView (W : Type) := {
  world_ok : W → Prop;
  entries : W → list Message;
  top : W → Z;
}.

Definition evolves `{StreamView W} (w w' : W) : Prop :=
  world_ok w' ∧ (top w ≤ top w')%Z ∧
  ∃ k new, entries w' = drop k (entries w) ++ new ∧ Forall (λ m, (top w < m_rank m)%Z) new.

(** The documented behaviour of a stream under the calls of the engine. *)
Class StreamLaws (W : Type) `{!LocalStore W} `{!CloudApi W} `{!SyncClock W} `{!StreamView W} := {
  entries_sorted w : world_ok w → StronglySorted before (entries w);
  entries_known w m : world_ok w → m ∈ entries w →
    is_Some (m_stream_id m) ∧ (0 ≤ m_rank m ≤ top w)%Z;
  top_nonneg w : world_ok w → (0 ≤ top w)%Z;
  messages_after_law after n w r w' : world_ok w → messages_after after n w = (r, w') →
    ∃ w0, evolves w w0 ∧ evolves w0 w' ∧
      ∀ chunk, r = Ok chunk → chunk = take n (after_id after (entries w0));
  stream_tail_law w r w' : world_ok w → stream_tail w = (r, w') →
    evolves w w' ∧ ∀ sid, r = Ok sid → (0 ≤ sid_rank sid ≤ top w')%Z;
  presence_tail_law w : world_ok w → evolves w (presence_tail w).2;
  presence_after_law i n w : world_ok w → evolves w (presence_after i n w).2;
  ingest_law m w : world_ok w → evolves w (ingest_message m w).2;
  apply_presence_law p w : world_ok w → evolves w (apply_presence p w).2;
  cloud_push_law b w : world_ok w → evolves w (cloud_push_messages b w).2;
  cloud_push_presence_law b w : world_ok w → evolves w (cloud_push_presence b w).2;
  cloud_pull_law c h n w : world_ok w → evolves w (cloud_pull c h n w).2;
  cloud_pull_presence_law w : world_ok w → evolves w (cloud_pull_presence w).2;
  wall_law w : world_ok w → evolves w (wall_ms w).2;
  instant_law w : world_ok w → evolves w (instant_ms w).2;
}.

Section view.
Context {W : Type} `{!LocalStore W} `{!CloudApi W} `{!SyncClock W} `{!StreamView W}
  `{!StreamLaws W}.

Lemma evolves_refl w : world_ok w → evolves w w.
Proof.
  intros Hw. split_and!; [done|lia|]. exists 0, []. rewrite app_nil_r. by split.
Qed.

Lemma evolves_trans w w' w'' : evolves w w' → evolves w' w'' → evolves w w''.
Proof.
  intros (Ho & Ht & k & new & E & Hn) (Ho' & Ht' & k' & new' & E' & Hn').
  split_and!; [done|lia|]. rewrite E in E'.
  exists (k + k'), (drop (k' - length (drop k (entries w))) new ++ new'). split.
  - rewrite E', drop_app, drop_drop. by rewrite <- app_assoc.
  - apply Forall_app. split; [by apply Forall_drop|]. eapply Forall_impl; [exact Hn'|]. simpl. lia.
Qed.

Lemma evolves_ok w w' : evolves w w' → world_ok w'.
Proof. by intros (? & _). Qed.

(** An entry no newer than the bound was there before. *)
Lemma evolves_old w w' m :
  evolves w w' → m ∈ entries w' → (m_rank m ≤ top w)%Z → m ∈ entries w.
Proof.
  intros (_ & _ & k & new & -> & Hn) [Hm|Hm]%elem_of_app Hr.
  - eapply elem_of_sublist; [exact Hm|apply sublist_drop].
  - rewrite Forall_forall in Hn. apply Hn in Hm. lia.
Qed.
End view.

(** ** Recording what the cloud was given *)

Record push_record := mkPush { pr_batch : list Message; pr_outcome : option PushOutcome }.

Section recorded.
Context {W : Type} `{!LocalStore W} `{!CloudApi W} `{!SyncClock W}.

Definition on_fst {A} (f : W → A * W) (w : W * list push_record) : A * (W * list push_record) :=
  let '(a, w1) := f w.1 in (a, (w1, w.2)).

#[export] Instance recorded_store : LocalStore (W * list push_record) := {|
  stream_tail := on_fst stream_tail;
  messages_after after n := on_fst (messages_after after n);
  presence_tail := on_fst presence_tail;
  presence_after i n := on_fst (presence_after i n);
  ingest_message m := on_fst (ingest_message m);
  apply_presence p := on_fst (apply_presence p);
|}.

#[export] Instance recorded_cloud : CloudApi (W * list push_record) := {|
  cloud_push_messages b w :=
    let '(r, w1) := cloud_push_messages b w.1 in
    (r, (w1, w.2 ++ [mkPush b match r with Ok o => Some o | Err _ => None end]));
  cloud_push_presence b := on_fst (cloud_push_presence b);
  cloud_pull c h n := on_fst (cloud_pull c h n);
  cloud_pull_presence := on_fst cloud_pull_presence;
|}.

#[export] Instance recorded_clock : SyncClock (W * list push_record) := {|
  wall_ms := on_fst wall_ms;
  instant_ms := on_fst instant_ms;
|}.
End recorded.

(** ** The invariant *)

(** [m] was in a batch the cloud disposed of; where it was rejected, there is a receipt. *)
Definition settled_in (l : list push_record) (rs : list RejectionReceipt) (m : Message) : Prop :=
  ∃ r o, r ∈ l ∧ m ∈ pr_batch r ∧ pr_outcome r = Some o ∧
    disposed o (length (pr_batch r)) = true ∧
    (m_id m ∈ po_rejected_ids o → ∃ sid, mkReceipt (m_id m) sid ∈ rs).

Section invariant.
Context `{CursorText} {W : Type} `{!LocalStore W} `{!CloudApi W} `{!SyncClock W} `{!StreamView W}
  `{!StreamLaws W}.
Context (hub : string) (i0 : Z).
Abbreviation world := (W * list push_record)%type.

(** Everything that may leave between the first position and the cursor is settled. *)
Definition cursor_sound (wl : world) (c : SyncCursors) : Prop :=
  (i0 ≤ sid_rank (push_stream_id c) ≤ top wl.1)%Z ∧
  ∀ m, m ∈ entries wl.1 → pushable m hub = true →
    (i0 < m_rank m ≤ sid_rank (push_stream_id c))%Z →
    settled_in wl.2 (rejection_receipts c) m.

(** The file holds such a cursor, with every receipt of the one in memory. *)
Definition file_sound (wl : world) (e : Engine) (d : state_disk) : Prop :=
  ∃ text c, dk_file d = Some text ∧ text_cursors text = Some c ∧ cursor_sound wl c ∧
    rejection_receipts (en_cursors e) ⊆ rejection_receipts c.

(** The outbox holds exactly what may leave between the cursor and the reading position. *)
Definition queue_sound (wl : world) (e : Engine) : Prop :=
  let c := sid_rank (push_stream_id (en_cursors e)) in
  let r := sid_rank (en_read_to e) in
  (c ≤ r ≤ top wl.1)%Z ∧
  StronglySorted (λ a b, sid_rank a.1 < sid_rank b.1)%Z (en_outbox e) ∧
  (∀ q, q ∈ en_outbox e →
     m_stream_id q.2 = Some q.1 ∧ pushable q.2 hub = true ∧ (c < sid_rank q.1 ≤ r)%Z) ∧
  (∀ m, m ∈ entries wl.1 → pushable m hub = true → (c < m_rank m ≤ r)%Z →
     m ∈ (en_outbox e).*2).

Definition config_sound (e : Engine) : Prop :=
  en_hub e = hub ∧ is_Some (en_state_path e) ∧ 1 ≤ en_batch_size e ≤ MAX_BATCH ∧
  en_batch_size e ≤ en_outbox_cap e ∧ length (en_outbox e) ≤ en_outbox_cap e.

Definition record_sound (r : push_record) : Prop :=
  1 ≤ length (pr_batch r) ≤ MAX_BATCH ∧ ∀ m, m ∈ pr_batch r → pushable m hub = true.

(** Since some earlier state: the world has evolved, the cursor has not gone back. *)
Definition moved (since : W) (low : Z) (wl : world) (e : Engine) : Prop :=
  evolves since wl.1 ∧ (low ≤ sid_rank (push_stream_id (en_cursors e)))%Z.

Definition sound (since : W) (low : Z) (s : sync world) : Prop :=
  world_ok (sy_world s).1 ∧ Forall record_sound (sy_world s).2 ∧ config_sound (sy_engine s) ∧
  cursor_sound (sy_world s) (en_cursors (sy_engine s)) ∧
  file_sound (sy_world s) (sy_engine s) (sy_disk s) ∧ queue_sound (sy_world s) (sy_engine s) ∧
  moved since low (sy_world s) (sy_engine s).

(** *** Changes of the world *)

Lemma settled_in_mono l l' rs rs' m :
  l ⊆ l' → rs ⊆ rs' → settled_in l rs m → settled_in l' rs' m.
Proof. intros Hl Hr (r & o & ? & ? & ? & ? & Hs). exists r, o. split_and!; try done; [by apply Hl|].
  intros Hm. destruct (Hs Hm) as [sid Hsid]. exists sid. by apply Hr. Qed.

Lemma cursor_sound_evolves w w' l l' c :
  evolves w w' → l ⊆ l' → cursor_sound (w, l) c → cursor_sound (w', l') c.
Proof.
  intros Hw Hl [Hr Hs]. pose proof Hw as (_ & Ht & _). simpl in *. split; [simpl; lia|].
  intros m Hm Hp Hi. simpl in *. eapply settled_in_mono; [exact Hl|done|]. apply Hs; [|done..].
  eapply evolves_old; [done..|lia].
Qed.

Lemma queue_sound_evolves w w' l l' e :
  evolves w w' → queue_sound (w, l) e → queue_sound (w', l') e.
Proof.
  intros Hw (Hr & Hs & Hq & Hc). pose proof Hw as (_ & Ht & _). simpl in *.
  split_and!; simpl; [lia|lia|done|done|]. intros m Hm Hp Hi. apply Hc; [|done..].
  eapply evolves_old; [done..|lia].
Qed.

Lemma sound_world since low s w' l' :
  sound since low s → evolves (sy_world s).1 w' → (sy_world s).2 ⊆ l' → Forall record_sound l' →
  sound since low (mkSync (sy_engine s) (sy_status s) (sy_disk s) (w', l')).
Proof.
  destruct s as [e st d [w l]]. intros (Hw & Hl & Hc & Hcu & Hf & Hq & Hm) He Hsub Hl'. simpl in *.
  split_and!; simpl; try done.
  - by eapply evolves_ok.
  - by eapply cursor_sound_evolves.
  - destruct Hf as (text & c & ? & ? & ? & ?). exists text, c. split_and!; try done.
    by eapply cursor_sound_evolves.
  - by eapply queue_sound_evolves.
  - destruct Hm as [Hm Hlow]. split; [by eapply evolves_trans|done].
Qed.

Lemma sound_status since low s st :
  sound since low s → sound since low (mkSync (sy_engine s) st (sy_disk s) (sy_world s)).
Proof. done. Qed.

(** *** Changes of the queue *)

Lemma elem_of_eligible q chunk :
  q ∈ eligible hub chunk ↔ q.2 ∈ chunk ∧ pushable q.2 hub = true ∧ m_stream_id q.2 = Some q.1.
Proof.
  unfold eligible. rewrite list_elem_of_omap. split.
  - intros (m & [Hm Hp]%elem_of_filter_b & E). destruct (m_stream_id m) as [sid|] eqn:Es; [|done].
    simpl in E. injection E as <-. done.
  - destruct q as [sid m]. simpl. intros (Hm & Hp & Es). exists m. rewrite Es.
    split; [by apply elem_of_filter_b|done].
Qed.

Lemma eligible_sorted chunk :
  StronglySorted before chunk →
  StronglySorted (λ a b, sid_rank a.1 < sid_rank b.1)%Z (eligible hub chunk).
Proof.
  intros Hs. unfold eligible. eapply StronglySorted_omap; [|by apply StronglySorted_filter_b].
  intros x y a b Hb Ha Hb'. unfold before, m_rank in Hb.
  destruct (m_stream_id x), (m_stream_id y); simplify_eq/=. done.
Qed.

Lemma chunk_facts w0 after n x chunk :
  world_ok w0 → x :: chunk = take n (after_id after (entries w0)) →
  StronglySorted before (x :: chunk) ∧
  (∀ m, m ∈ x :: chunk → m ∈ entries w0 ∧ (sid_rank after < m_rank m ≤ top w0)%Z) ∧
  ∃ y sid, last (x :: chunk) = Some y ∧ m_stream_id y = Some sid ∧
    (sid_rank after < sid_rank sid ≤ top w0)%Z ∧
    (∀ m, m ∈ x :: chunk → (m_rank m ≤ sid_rank sid)%Z) ∧
    ∀ m, m ∈ entries w0 → (sid_rank after < m_rank m ≤ sid_rank sid)%Z → m ∈ x :: chunk.
Proof.
  intros Hw E. pose proof (entries_sorted w0 Hw) as Hs.
  assert (StronglySorted before (after_id after (entries w0))) as Hsa
    by by apply StronglySorted_filter_b.
  assert (∀ m, m ∈ x :: chunk → m ∈ entries w0 ∧ (sid_rank after < m_rank m ≤ top w0)%Z) as Hin.
  { intros m Hm. rewrite E in Hm. assert (m ∈ after_id after (entries w0)) as Hm'
      by (eapply elem_of_sublist; [exact Hm|apply sublist_take]).
    apply elem_of_filter_b in Hm' as [Hme Hr]. apply Z.ltb_lt in Hr.
    destruct (entries_known w0 m Hw Hme). split; [done|lia]. }
  assert (StronglySorted before (x :: chunk)) as Hsc
    by (rewrite E; eapply StronglySorted_sublist; [apply sublist_take|done]).
  split_and!; [done|done|].
  destruct (last (x :: chunk)) as [y|] eqn:Ey; [|by apply last_None in Ey].
  pose proof (last_Some_elem_of _ _ Ey) as Hy. destruct (Hin y Hy) as [Hye Hyr].
  destruct (entries_known w0 y Hw Hye) as [[sid Esid] _]. exists y, sid.
  assert (m_rank y = sid_rank sid) as Er by (unfold m_rank; by rewrite Esid).
  split_and!; try done; try lia.
  { intros m Hm. rewrite <- Er. by eapply (sorted_last m_rank). }
  intros m Hm Hr. rewrite E in *.
  eapply (sorted_take_covers m_rank); [exact Hsa|exact Ey| |lia].
  apply elem_of_filter_b. split; [done|]. apply Z.ltb_lt. lia.
Qed.

(** Reading a chunk and loading it. *)
Lemma queue_sound_load w0 w l e n x chunk :
  world_ok w0 → evolves w0 w → queue_sound (w, l) e →
  x :: chunk = take n (after_id (en_read_to e) (entries w0)) →
  ∃ sid, last (x :: chunk) ≫= m_stream_id = Some sid ∧
    queue_sound (w, l) (set_queue e (en_cursors e) sid (en_outbox e ++ eligible hub (x :: chunk))).
Proof.
  intros Hw He (Hr & Hs & Hq & Hc) E. simpl in *.
  destruct (chunk_facts _ _ _ _ _ Hw E) as (Hsc & Hin & y & sid & Ey & Esid & Hsid & Hmax & Hcov).
  exists sid. rewrite Ey. split; [done|]. pose proof He as (_ & Ht & _).
  split_and!; simpl; [lia|lia| | |].
  - apply StronglySorted_app_2; [|done|by apply eligible_sorted].
    intros a b Ha Hb. apply Hq in Ha as (_ & _ & Ha).
    apply elem_of_eligible in Hb as (Hb & _ & Eb). apply Hin in Hb as [_ Hb].
    unfold m_rank in Hb. rewrite Eb in Hb. simpl in Hb. lia.
  - intros q [Hq'|Hq']%elem_of_app.
    + destruct (Hq q Hq') as (? & ? & ?). split_and!; try done; lia.
    + apply elem_of_eligible in Hq' as (Hb & Hp & Eb). specialize (Hmax _ Hb).
      apply Hin in Hb as [_ Hb].
      assert (m_rank q.2 = sid_rank q.1) as Er by (unfold m_rank; by rewrite Eb).
      split_and!; try done; lia.
  - intros m Hm Hp Hi. rewrite fmap_app. apply elem_of_app.
    destruct (Z.le_gt_cases (m_rank m) (sid_rank (en_read_to e))); [left; apply Hc; done || lia|right].
    assert (m ∈ entries w0) as Hm0 by (eapply evolves_old; [done..|lia]).
    assert (m ∈ x :: chunk) as Hch by (apply Hcov; [done|lia]).
    destruct (entries_known w0 m Hw Hm0) as [[sm' Esm] _].
    apply list_elem_of_fmap. exists (sm', m). split; [done|]. by apply elem_of_eligible.
Qed.

(** Dropping the outbox and reading again from the cursor. *)
Lemma queue_sound_reread wl e :
  queue_sound wl e → queue_sound wl (set_queue e (en_cursors e) (push_stream_id (en_cursors e)) []).
Proof.
  intros (Hr & _). split_and!; simpl; [lia|lia|constructor|by intros q ?%elem_of_nil|lia].
Qed.

Lemma queue_sound_cursors wl e c :
  push_stream_id c = push_stream_id (en_cursors e) → queue_sound wl e →
  queue_sound wl (set_cursors e c).
Proof. unfold queue_sound. simpl. by intros ->. Qed.

(** Everything read has been sent: the cursor moves up to the reading position. *)
Lemma skip_sound wl e :
  en_outbox e = [] → queue_sound wl e → cursor_sound wl (en_cursors e) →
  let c := set_push (en_cursors e) (en_read_to e) in
  cursor_sound wl c ∧ queue_sound wl (set_cursors e c).
Proof.
  intros Eo (Hr & _ & _ & Hc) [Hi Hs]. rewrite Eo in Hc. simpl. split.
  - split; simpl; [lia|]. intros m Hm Hp Hle.
    destruct (Z.le_gt_cases (m_rank m) (sid_rank (push_stream_id (en_cursors e)))).
    + apply Hs; done || lia.
    + specialize (Hc m Hm Hp ltac:(lia)). by apply elem_of_nil in Hc.
  - split_and!; simpl; [lia|lia|rewrite Eo; constructor|rewrite Eo; by intros q ?%elem_of_nil|].
    intros m Hm Hp Hle. lia.
Qed.

Lemma add_receipts_facts batch ids c c' :
  add_receipts batch ids c = Ok c' →
  push_stream_id c' = push_stream_id c ∧ rejection_receipts c ⊆ rejection_receipts c' ∧
  (∀ mid, mid ∈ ids → ∃ sid, mkReceipt mid sid ∈ rejection_receipts c') ∧
  (length (rejection_receipts c) ≤ MAX_REJECTION_RECEIPTS →
   length (rejection_receipts c') ≤ MAX_REJECTION_RECEIPTS).
Proof.
  revert c. induction ids as [|mid ids IH]; intros c; cbn [add_receipts].
  { intros [= <-]. split_and!; try done. by intros ? ?%elem_of_nil. }
  intros [found [_ E]]%rbind_Ok. cbn zeta in E. case_match; [done|].
  case_bool_decide as Hin.
  - apply IH in E as (Hp & Hs & Hi & Hl). split_and!; try done.
    intros m [-> | Hm]%elem_of_cons; [|by apply Hi]. exists found.1. by apply Hs.
  - destruct (Nat.leb_spec MAX_REJECTION_RECEIPTS (length (rejection_receipts c))) as [|Hlt]; [done|].
    apply rbind_Ok in E as [total [_ E]]. apply IH in E as (Hp & Hs & Hi & Hl). simpl in *.
    split_and!; [done| | |].
    + intros x Hx. apply Hs, elem_of_app. by left.
    + intros m [-> | Hm]%elem_of_cons; [|by apply Hi]. exists found.1.
      apply Hs, elem_of_app. right. by apply list_elem_of_singleton.
    + intros _. apply Hl. rewrite length_app. simpl. lia.
Qed.

(** Where the cursor moves to: past what is taken, before what is left. *)
Lemma advance_rank wl e n c :
  queue_sound wl e → 1 ≤ n ≤ length (en_outbox e) →
  push_stream_id c = push_stream_id (en_cursors e) →
  let r := sid_rank (push_stream_id (advance e n c)) in
  (sid_rank (push_stream_id (en_cursors e)) ≤ r ≤ sid_rank (en_read_to e))%Z ∧
  (∀ q, q ∈ drop n (en_outbox e) → (r < sid_rank q.1)%Z) ∧
  (∀ q, q ∈ en_outbox e → (sid_rank q.1 ≤ r)%Z ↔ q ∈ take n (en_outbox e)).
Proof.
  intros (Hr & Hs & Hq & _) Hn Hc. unfold advance. cbn [set_push push_stream_id].
  destruct (Nat.eqb_spec (length (en_outbox e)) n) as [<- | Hne].
  { split_and!; [lia|lia| |].
    - intros q Hd. rewrite drop_all in Hd. by apply elem_of_nil in Hd.
    - intros q Hd. rewrite firstn_all. destruct (Hq q Hd) as (_ & _ & ?). split; [done|lia]. }
  destruct (lookup_lt_is_Some_2 (en_outbox e) (n - 1)) as [y Ey]; [lia|]. rewrite Ey.
  cbn [from_option]. pose proof (list_elem_of_lookup_2 _ _ _ Ey) as Hy.
  destruct (Hq y Hy) as (_ & _ & Hyr).
  assert (y ∈ take n (en_outbox e)) as Hyt.
  { apply list_elem_of_lookup. exists (n - 1). rewrite lookup_take_lt by lia. done. }
  assert (last (take n (en_outbox e)) = Some y) as Hlast.
  { rewrite last_lookup, length_take, Nat.min_l by lia. rewrite lookup_take_lt by lia.
    by rewrite <- Nat.sub_1_r. }
  split_and!; [lia|lia| |].
  - intros q Hd. by apply (sorted_take_drop _ n _ y q Hs).
  - intros q Hqin. split; intros Hle.
    + by apply (sorted_take_covers (λ q, sid_rank q.1) n _ q y).
    + apply (sorted_last (λ q, sid_rank q.1) (take n (en_outbox e))); [|done..].
      eapply StronglySorted_sublist; [apply sublist_take|done].
Qed.

Lemma advance_sound w l e n noted o r :
  queue_sound (w, l) e → cursor_sound (w, l) (en_cursors e) → 1 ≤ n ≤ length (en_outbox e) →
  let batch := take n (en_outbox e) in
  r ∈ l → pr_batch r = map snd batch → pr_outcome r = Some o → disposed o (length batch) = true →
  add_receipts batch (po_rejected_ids o) (en_cursors e) = Ok noted →
  let next := advance e n noted in
  cursor_sound (w, l) next ∧
  rejection_receipts (en_cursors e) ⊆ rejection_receipts next ∧
  queue_sound (w, l) (set_queue e next (en_read_to e) (drop n (en_outbox e))).
Proof.
  intros Hq Hc Hn batch Hr Eb Eo Hd Ha next.
  apply add_receipts_facts in Ha as (Hp & Hsub & Hids & _).
  destruct (advance_rank (w, l) e n noted Hq Hn Hp) as (Hrank & Hafter & Htake).
  fold next in Hrank, Hafter, Htake. destruct Hq as (Hrd & Hs & Hq & Hcov). destruct Hc as [Hi Hc].
  assert (∀ q, q ∈ en_outbox e → m_rank q.2 = sid_rank q.1) as Er.
  { intros q Hqin. destruct (Hq q Hqin) as (Es & _ & _). unfold m_rank. by rewrite Es. }
  assert (∀ m, m ∈ entries w → pushable m hub = true →
    (sid_rank (push_stream_id (en_cursors e)) < m_rank m ≤ sid_rank (en_read_to e))%Z →
    ∃ q, q ∈ en_outbox e ∧ m = q.2) as Hout.
  { intros m Hm Hpm Hle. specialize (Hcov m Hm Hpm Hle).
    apply list_elem_of_fmap in Hcov as (q & -> & Hqin). by exists q. }
  clear Hcov. simpl in Hrd, Hi, Hc. split; [|split; [exact Hsub|]].
  - split; [cbn [fst]; lia|]. intros m Hm Hpm Hle. cbn [fst snd] in *.
    destruct (Z.le_gt_cases (m_rank m) (sid_rank (push_stream_id (en_cursors e)))) as [Hold|Hnew].
    { eapply settled_in_mono; [done|exact Hsub|]. apply Hc; done || lia. }
    destruct (Hout m Hm Hpm ltac:(lia)) as (q & Hqin & ->). rewrite Er in Hle by done.
    assert (q ∈ batch) as Hqb by (apply Htake; [done|lia]).
    exists r, o. split_and!; try done.
    + rewrite Eb. apply list_elem_of_fmap. by exists q.
    + by rewrite Eb, length_map.
    + intros Hrej. apply Hids in Hrej as [sid Hsid]. by exists sid.
  - split_and!; cbn [set_queue en_outbox en_cursors en_read_to fst]; [lia|lia| | |].
    + eapply StronglySorted_sublist; [apply sublist_drop|done].
    + intros q Hqd. specialize (Hafter q Hqd).
      destruct (Hq q) as (? & ? & ?); [eapply elem_of_sublist; [exact Hqd|apply sublist_drop]|].
      split_and!; try done; lia.
    + intros m Hm Hpm Hle. destruct (Hout m Hm Hpm ltac:(lia)) as (q & Hqin & ->).
      apply list_elem_of_fmap. exists q. split; [done|]. rewrite Er in Hle by done.
      pose proof Hqin as Hqin'. rewrite <- (take_drop n (en_outbox e)) in Hqin'.
      apply elem_of_app in Hqin' as [Hqt|]; [|done]. apply Htake in Hqt; [lia|done].
Qed.
End invariant.
