(* ===== verification/SyncInstances.v ===== *)
(** * SyncInstances: concrete instances for synchronisation

    The texts of the stream and of the state file as the bits of their [Countable]
    code; and a world in memory: a stream whose identifiers count up, a clock, an inbox
    of the cloud. Three clouds: one that takes everything, one that is down at first and
    rejects a topic, one that serves pages. *)

From Stdlib Require Import ZArith Lia Ascii.
From stdpp Require Import countable base option list strings gmap sorting.
From S2P Require Import Prelude Str Json Validation McpSchema ClaimTypes Outbox HubTypes Candidates.
From S2P Require Import Redis Channels Messages StreamEntry ReplayScript OutboxHub SyncStore CloudSync.
From S2P Require Import OutboxCodec ClaimInstances HubInstances StreamFacts SyncFacts.

(** ** Texts *)

Lemma pos_text_utf8 p : utf8 (pos_text p) = true.
Proof.
  apply ascii_utf8. unfold is_ascii. by induction p as [q IH|q IH|]; simpl; rewrite ?IH.
Qed.

(** A presence row is its instant. *)
Definition stamped_presence (t : string) : Presence :=
  mkPresence "agent" "online" PROTOCOL_VERSION t "session" [] (JObj []) 60.

Definition bit_store : StoreText :=
  {| json_text v := pos_text (encode v); strings_text l := pos_text (encode l);
     presence_of_text t := Some (stamped_presence t) |}.

Definition bit_entry : EntryText (H := bit_store).
Proof.
  refine (Build_EntryText bit_store (λ t, text_pos t ≫= decode) (λ t, text_pos t ≫= decode)
            (λ t, Some t) (λ t, Some t) (λ _, true) _ _ _ _).
  - intros l _. change (text_pos (pos_text (encode l)) ≫= decode = Some l).
    by rewrite text_pos_text, bind_Some_l, decode_encode.
  - intros v _. change (text_pos (pos_text (encode v)) ≫= decode = Some v).
    by rewrite text_pos_text, bind_Some_l, decode_encode.
  - intros l. apply pos_text_utf8.
  - intros v. apply pos_text_utf8.
Defined.

Definition any_uuid : UuidText := {| uuid_parses _ := true |}.

Definition cursors_code (c : SyncCursors) : string * Z * Z * list (string * string) * Z :=
  (push_stream_id c, pull_cursor c, presence_origin_id c,
   map (λ r, (rc_message_id r, rc_local_stream_id r)) (rejection_receipts c), rejected_total c).

Definition code_cursors (x : string * Z * Z * list (string * string) * Z) : SyncCursors :=
  let '(s, p, o, rs, n) := x in mkCursors s p o (map (λ r, mkReceipt r.1 r.2) rs) n.

Definition bit_cursors : CursorText.
Proof.
  refine {| cursors_text c := pos_text (encode (cursors_code c));
            text_cursors t := code_cursors <$> (text_pos t ≫= decode) |}.
  intros [s p o rs n]. rewrite text_pos_text, bind_Some_l, decode_encode. simpl. do 2 f_equal.
  rewrite map_map. induction rs as [|[] rs IH]; simpl; [done|by f_equal].
Defined.

(** ** A world in memory *)

Record mem_world := mkMem {
  mw_entries : list Message;
  mw_top : Z;
  mw_clock : Z;
  mw_inbox : list Message;
}.

Definition mem_id (n : Z) : string := dec n +:+ "-0".

(** The server refuses an entry once the identifiers are used up. *)
Definition mem_add (m : Message) (w : mem_world) : result string string * mem_world :=
  let sid := mem_id (mw_top w / 2 ^ 64 + 1) in
  if (mw_top w <? sid_rank sid)%Z
  then (Ok sid, mkMem (mw_entries w ++ [set_stream_id m sid]) (sid_rank sid) (mw_clock w) (mw_inbox w))
  else (Err "ERR The stream has exhausted the last possible ID", w).

Definition mem_tick (w : mem_world) : Z * mem_world :=
  (mw_clock w, mkMem (mw_entries w) (mw_top w) (mw_clock w + 1) (mw_inbox w)).

Definition mem_tail (w : mem_world) : string :=
  match List.rev (mw_entries w) with
  | m :: _ => from_option (λ s, s) "0-0" (m_stream_id m)
  | [] => "0-0"
  end.

Definition mem_store : LocalStore mem_world := {|
  stream_tail w := (Ok (mem_tail w), w);
  messages_after after n w := (Ok (take n (after_id after (mw_entries w))), w);
  presence_tail w := (Ok 0%Z, w);
  presence_after i n w := (Ok [], w);
  ingest_message m w := let '(r, w) := mem_add m w in (map_err (λ e, e) (rbind r (λ _, Ok Ingested)), w);
  apply_presence p w := (Ok true, w);
|}.

Definition mem_clock : SyncClock mem_world := {| wall_ms := mem_tick; instant_ms := mem_tick |}.

Definition mem_page (w : mem_world) : PullPage := mkPage (mw_inbox w) 0 1 false.

(** Takes every batch. *)
Definition open_cloud : CloudApi mem_world := {|
  cloud_push_messages b w := (Ok (mkOutcome (Z.of_nat (length b)) 0 [] []), w);
  cloud_push_presence b w := (Ok (mkOutcome (Z.of_nat (length b)) 0 [] []), w);
  cloud_pull c h n w := (Ok (mem_page w), w);
  cloud_pull_presence w := (Ok [], w);
|}.

(** Down before its hour, and taking no offers. *)
Definition picky_cloud : CloudApi mem_world := {|
  cloud_push_messages b w :=
    if (mw_clock w <? 1)%Z then (Err "connection refused", w)
    else let spam := List.filter (λ m, bool_decide (m_topic m = "offer")) b in
         (Ok (mkOutcome (Z.of_nat (length b - length spam)) 0 [] (map m_id spam)), w);
  cloud_push_presence b w := (Ok (mkOutcome (Z.of_nat (length b)) 0 [] []), w);
  cloud_pull c h n w := (Ok (mem_page w), w);
  cloud_pull_presence w := (Ok [], w);
|}.

(** Three pages of one message each. *)
Definition paging_cloud : CloudApi mem_world := {|
  cloud_push_messages b w := (Ok (mkOutcome (Z.of_nat (length b)) 0 [] []), w);
  cloud_push_presence b w := (Ok (mkOutcome (Z.of_nat (length b)) 0 [] []), w);
  cloud_pull c h n w := (Ok (mkPage (mw_inbox w) 0 (Z.min 3 (c + 1)) (c + 1 <? 3)%Z), w);
  cloud_pull_presence w := (Ok [], w);
|}.

Definition mem_known (top : Z) (m : Message) : Prop :=
  is_Some (m_stream_id m) ∧ (0 ≤ m_rank m ≤ top)%Z.

Definition mem_view : StreamView mem_world := {|
  world_ok w := StronglySorted before (mw_entries w) ∧
    Forall (mem_known (mw_top w)) (mw_entries w) ∧ (0 ≤ mw_top w)%Z;
  entries := mw_entries;
  top := mw_top;
|}.

#[local] Existing Instances mem_store mem_clock mem_view.

(** Calls that leave the stream alone. *)
Lemma mem_same w w' :
  world_ok w → mw_entries w' = mw_entries w → mw_top w' = mw_top w → evolves w w'.
Proof.
  intros (Hs & Hk & Ht) Ee Et. split_and!; simpl; [split_and!; by rewrite ?Ee, ?Et|lia|].
  exists 0, []. rewrite app_nil_r. by split.
Qed.

Lemma mem_add_evolves m w : world_ok w → evolves w (mem_add m w).2.
Proof.
  intros Hw. pose proof Hw as (Hs & Hk & Ht). unfold mem_add.
  set (sid := mem_id _). destruct (Z.ltb_spec (mw_top w) (sid_rank sid)) as [Hlt|]; simpl;
    [|by apply mem_same]. split_and!; simpl; [|lia|].
  - rewrite Forall_forall in Hk. split_and!; simpl; [| |lia].
    + apply StronglySorted_app_2; [|done|repeat constructor].
      intros a b Ha ->%list_elem_of_singleton. destruct (Hk a Ha). unfold before, m_rank in *.
      simpl. lia.
    + apply Forall_app. split; [|constructor; [split; [by eexists|unfold m_rank; simpl; lia]|constructor]].
      apply Forall_forall. intros a Ha. destruct (Hk a Ha) as [? ?]. split; [done|lia].
  - exists 0, [set_stream_id m sid]. split; [done|]. by constructor; [|constructor].
Qed.

Lemma mem_tail_rank w : world_ok w →
  (0 ≤ sid_rank (mem_tail w) ≤ mw_top w)%Z.
Proof.
  intros (_ & Hk & Ht). unfold mem_tail. destruct (List.rev (mw_entries w)) as [|m l] eqn:El; [by split|].
  assert (m ∈ mw_entries w) as Hm by (apply list_elem_of_In, in_rev; rewrite El; by left).
  rewrite Forall_forall in Hk. destruct (Hk m Hm) as [[sid Es] Hr].
  unfold m_rank in Hr. by rewrite Es in *.
Qed.

Lemma mem_stream_laws `{!CloudApi mem_world} :
  (∀ b w, (cloud_push_messages b w).2 = w) → (∀ b w, (cloud_push_presence b w).2 = w) →
  (∀ c h n w, (cloud_pull c h n w).2 = w) → (∀ w, (cloud_pull_presence w).2 = w) →
  StreamLaws mem_world.
Proof.
  intros H1 H2 H3 H4. assert (∀ w : mem_world, world_ok w → evolves w w) as Hrefl
    by by intros w ?; apply mem_same.
  constructor; try (intros; rewrite ?H1, ?H2, ?H3, ?H4; by refine (Hrefl _ _)).
  - by intros w (? & _).
  - intros w m (_ & Hk & _) Hm. rewrite Forall_forall in Hk. by apply Hk.
  - by intros w (_ & _ & ?).
  - intros after n w r w' Hw [= <- <-]. exists w. split_and!; [by apply Hrefl..|]. by intros ? [= <-].
  - intros w r w' Hw [= <- <-]. split; [by apply Hrefl|]. intros sid [= <-]. by apply mem_tail_rank.
  - intros m w Hw. simpl. pose proof (mem_add_evolves m w Hw) as He. by destruct (mem_add m w).
Qed.

Lemma open_laws : @StreamLaws mem_world mem_store open_cloud mem_clock mem_view.
Proof. by apply mem_stream_laws. Qed.

Lemma picky_laws : @StreamLaws mem_world mem_store picky_cloud mem_clock mem_view.
Proof. apply mem_stream_laws; try done. intros b w. simpl. by destruct (_ <? _)%Z. Qed.

(** ** Messages *)

Definition sync_message (mid topic : string) (origin : option string) (s : option Sensitivity) : Message :=
  mkMessage mid "" PROTOCOL_VERSION "alice" "bob" topic "hello" None [] "normal" false None (JObj [])
    None None origin None None s.
