(* ===== verification/CloudHttp.v ===== *)
(** * CloudHttp: the cloud over HTTPS

    [HttpCloud] of [cloud_sync.rs]: the requests it sends, and how it reads the cloud's
    answers - above all [message_outcome], which accepts an answer to a push only if it
    accounts for every message once. The HTTP client is an interface. *)

From Stdlib Require Import ZArith Lia Ascii.
From stdpp Require Import base option list strings gmap.
From S2P Require Import Prelude Str Json Validation McpSchema ClaimTypes HubTypes Candidates.
From S2P Require Import Redis Channels Messages StreamEntry ReplayScript OutboxHub SyncStore CloudSync.
From S2P Require Import SyncInstances.

(** The [reqwest] client with the token of the configuration: a request's status and its
    body, if that is JSON. *)
Class HttpClient (W : Type) := {
  http_send : string → string → option json → W → result string (Z * option json) * W;
  with_query : string → list (string * string) → option string;
}.

Definition optional_text (name : string) (o : option string) : list (string * json) :=
  match o with Some v => [(name, JStr v)] | None => [] end.

(** [PushMessage::from_message], serialised. A [reply_to] that is the sender is the local
    default and no reply. *)
Definition push_message_json (m : Message) : json :=
  let reply := match m_reply_to m with
               | Some r => if is_empty r || bool_decide (r = m_from m) then None else Some r
               | None => None
               end in
  obj ([("id", JStr (m_id m)); ("timestamp_utc", JStr (m_timestamp_utc m));
        ("protocol_version", JStr (m_protocol_version m)); ("sender", JStr (m_from m));
        ("recipient", JStr (m_to m)); ("topic", JStr (m_topic m)); ("body", JStr (m_body m));
        ("tags", jstr_list (m_tags m)); ("priority", JStr (m_priority m));
        ("request_ack", JBool (m_request_ack m)); ("metadata", m_metadata m)]
       ++ optional_text "thread_id" (m_thread_id m) ++ optional_text "reply_to" reply
       ++ optional_text "client_msg_id" (m_client_msg_id m)
       ++ match m_origin_seq m with Some n => [("origin_seq", jint n)] | None => [] end
       ++ optional_text "hlc" (m_hlc m)).

Definition presence_event_json (p : PresenceEvent) : json :=
  obj [("origin_id", jint (pv_origin_id p)); ("timestamp_utc", JStr (pv_timestamp_utc p));
       ("protocol_version", JStr (pv_protocol_version p)); ("agent", JStr (pv_agent p));
       ("status", JStr (pv_status p)); ("session_id", JStr (pv_session_id p));
       ("capabilities", jstr_list (pv_capabilities p)); ("metadata", pv_metadata p);
       ("ttl_seconds", jint (pv_ttl_seconds p))].

(** ** Reading answers *)

Definition outcome_count (body : json) (key : string) : Z :=
  match vget body key with
  | Some (JArr items) => Z.of_nat (length items)
  | Some (JNum n) => from_option (λ n, n) 0%Z (as_u64 (JNum n))
  | _ => 0%Z
  end.

Definition outcome_from (body : json) : PushOutcome :=
  mkOutcome (outcome_count body "accepted") (outcome_count body "duplicates")
    match vget body "rejected" ≫= as_array with
    | Some items =>
        map (λ item, from_option (λ r, r) "rejected" (vget item "reason" ≫= as_str)) items
    | None => []
    end [].

Definition bad {A} : result string A :=
  Err "cloud message push disposition invalid or incomplete; retaining batch".

Definition or_bad {A} (o : option A) : result string A :=
  match o with Some a => Ok a | None => bad end.

(** Reading one more identifier: it must be expected and new. *)
Definition see (expected seen : gset string) (mid : string) : result string (gset string) :=
  if bool_decide (mid ∈ expected) && negb (bool_decide (mid ∈ seen))
  then Ok ({[mid]} ∪ seen) else bad.

Fixpoint see_texts (expected seen : gset string) (items : list json)
    : result string (gset string) :=
  match items with
  | [] => Ok seen
  | item :: rest =>
      let? mid := or_bad (as_str item) in
      let? seen := see expected seen mid in
      see_texts expected seen rest
  end.

Fixpoint see_rejected (expected seen : gset string) (ids : list string) (items : list json)
    : result string (gset string * list string) :=
  match items with
  | [] => Ok (seen, ids)
  | item :: rest =>
      let? mid := or_bad (vget item "id" ≫= as_str) in
      let? _ := or_bad (vget item "reason" ≫= as_str) in
      let? seen := see expected seen mid in
      see_rejected expected seen (ids ++ [mid]) rest
  end.

Definition message_outcome (body : json) (batch : list Message) : result string PushOutcome :=
  let expected : gset string := list_to_set (map m_id batch) in
  if negb (size expected =? length batch)%nat then bad
  else
    let? conflicts := or_bad (vget body "conflicts" ≫= as_array) in
    if negb (bool_decide (conflicts = [])) then bad
    else
      let? rejected := or_bad (vget body "rejected" ≫= as_array) in
      let? accepted := or_bad (vget body "accepted" ≫= as_array) in
      let? seen := see_texts expected ∅ accepted in
      let? duplicates := or_bad (vget body "duplicates" ≫= as_array) in
      let? seen := see_texts expected seen duplicates in
      let? seen_ids := see_rejected expected seen [] rejected in
      if negb (bool_decide (seen_ids.1 = expected)) then bad
      else
        let o := outcome_from body in
        Ok (mkOutcome (po_accepted o) (po_duplicates o) [] seen_ids.2).

Section http.
Context `{HubText} {W : Type} `{!HttpClient W}.
Variable base_url : string.

Definition cloud_url (path : string) : string := base_url +:+ path.

Definition send (method url : string) (body : option json) (w : W) : result string json * W :=
  let '(r, w) := http_send method url body w in
  (match r with
   | Err e => Err ("request failed: " +:+ e)
   | Ok (status, answer) =>
       if (status <? 200)%Z || (299 <? status)%Z then Err ("cloud answered HTTP " +:+ dec status)
       else ok_or "cloud response was not JSON" answer
   end, w).

Definition http_pull (since : Z) (exclude_origin : string) (limit : nat) (w : W)
    : result string PullPage * W :=
  match with_query (cloud_url "/sync/pull")
          [("since", dec since); ("exclude_origin", exclude_origin);
           ("limit", dec (Z.of_nat limit))] with
  | None => (Err "bad pull URL", w)
  | Some url =>
      let '(r, w) := send "GET" url None w in
      (let? body := r in
       let items := from_option (λ l, l) [] (vget body "messages" ≫= as_array) in
       let messages := omap message_of_json items in
       Ok (mkPage messages (Z.of_nat (length items - length messages))
             (from_option (λ n, n) since (vget body "next_cursor" ≫= as_u64))
             (from_option (λ b, b) false (vget body "has_more" ≫= as_bool))), w)
  end.

(** A row with its origin; a row that does not parse is skipped. *)
Definition wire_presence_of_json (row : json) : option WirePresence :=
  p ← presence_of_json row;
  match vget row "origin_hub" with
  | None | Some JNull => Some (mkWire p None)
  | Some (JStr origin) => Some (mkWire p (Some origin))
  | Some _ => None
  end.

Definition http_cloud : CloudApi W := {|
  cloud_push_messages batch w :=
    let '(r, w) := send "POST" (cloud_url "/sync/push")
                     (Some (obj [("messages", JArr (map push_message_json batch))])) w in
    (let? body := r in message_outcome body batch, w);
  cloud_push_presence events w :=
    let '(r, w) := send "POST" (cloud_url "/sync/push-presence")
                     (Some (obj [("events", JArr (map presence_event_json events))])) w in
    (let? body := r in Ok (outcome_from body), w);
  cloud_pull := http_pull;
  cloud_pull_presence w :=
    let '(r, w) := send "GET" (cloud_url "/presence") None w in
    (let? body := r in
     Ok (from_option (omap wire_presence_of_json) [] (as_array body)), w);
|}.
End http.

(** ** What an accepted answer says *)

(** The items of a list of the answer, and a rejection of [mid]. *)
Definition items_of (body : json) (key : string) (items : list json) : Prop :=
  vget body key = Some (JArr items).

Definition rejects (item : json) (mid : string) : Prop :=
  vget item "id" = Some (JStr mid) ∧ ∃ why, vget item "reason" = Some (JStr why).

Lemma or_bad_Ok {A} (o : option A) a : or_bad o = Ok a ↔ o = Some a.
Proof. destruct o; simpl; unfold bad; naive_solver. Qed.

Lemma array_Some body key items : vget body key ≫= as_array = Some items ↔ items_of body key items.
Proof. unfold items_of. destruct (vget body key) as [[]|]; simpl; naive_solver. Qed.

Lemma text_Some v key t : vget v key ≫= as_str = Some t ↔ vget v key = Some (JStr t).
Proof. destruct (vget v key) as [[]|]; simpl; naive_solver. Qed.

Lemma see_Ok expected seen mid seen' :
  see expected seen mid = Ok seen' ↔ (mid ∈ expected ∧ mid ∉ seen) ∧ seen' = {[mid]} ∪ seen.
Proof. unfold see, bad. repeat case_bool_decide; simpl; naive_solver. Qed.

(** New identifiers, each once, all expected. *)
Definition fresh_ids (expected seen : gset string) (ids : list string) : Prop :=
  NoDup ids ∧ ∀ i, i ∈ ids → i ∈ expected ∧ i ∉ seen.

Lemma fresh_ids_cons expected seen mid ids :
  fresh_ids expected seen (mid :: ids) ↔
  (mid ∈ expected ∧ mid ∉ seen) ∧ fresh_ids expected ({[mid]} ∪ seen) ids.
Proof.
  unfold fresh_ids. rewrite NoDup_cons. setoid_rewrite elem_of_cons. split.
  - intros [[Hm Hd] Hi]. split; [by apply Hi; left|]. split; [done|]. intros i Hin.
    destruct (Hi i (or_intror Hin)). set_solver.
  - intros [[He Hs] [Hd Hi]]. split_and!; [|done|].
    + intros Hin. apply Hi in Hin. set_solver.
    + intros i [-> | Hin]; [done|]. apply Hi in Hin. set_solver.
Qed.

Lemma see_texts_Ok expected seen items seen' :
  see_texts expected seen items = Ok seen' ↔
  ∃ ids, items = map JStr ids ∧ fresh_ids expected seen ids ∧ seen' = list_to_set ids ∪ seen.
Proof.
  revert seen. induction items as [|item items IH]; intros seen; cbn [see_texts].
  - split.
    + intros [= <-]. exists []. split_and!; [done|split; [constructor|by intros ? ?%elem_of_nil]|set_solver].
    + intros ([|] & E & _ & ->); [|done]. f_equal. set_solver.
  - rewrite rbind_Ok. setoid_rewrite rbind_Ok. setoid_rewrite or_bad_Ok.
    setoid_rewrite see_Ok. setoid_rewrite IH. split.
    + intros (mid & Em & s1 & [Hm ->] & ids & -> & Hf & ->).
      destruct item; simplify_eq/=. exists (mid :: ids).
      split_and!; [done|by apply fresh_ids_cons|set_solver].
    + intros ([|mid ids] & E & Hf & ->); [done|]. injection E as -> ->.
      apply fresh_ids_cons in Hf as [Hm Hf]. exists mid. split; [done|].
      exists ({[mid]} ∪ seen). split; [done|]. exists ids. split_and!; [done|done|set_solver].
Qed.

Lemma see_rejected_Ok expected seen ids items r :
  see_rejected expected seen ids items = Ok r ↔
  ∃ new, Forall2 rejects items new ∧ fresh_ids expected seen new ∧
    r = (list_to_set new ∪ seen, ids ++ new).
Proof.
  revert seen ids. induction items as [|item items IH]; intros seen ids; cbn [see_rejected].
  - split.
    + intros [= <-]. exists []. rewrite app_nil_r. split_and!; [constructor| |f_equal; set_solver].
      split; [constructor|by intros ? ?%elem_of_nil].
    + intros (new & Hnew & _ & ->). apply Forall2_nil_inv_l in Hnew as ->.
      rewrite app_nil_r. do 2 f_equal. set_solver.
  - rewrite rbind_Ok. setoid_rewrite rbind_Ok. setoid_rewrite rbind_Ok. setoid_rewrite or_bad_Ok.
    setoid_rewrite see_Ok. setoid_rewrite IH. setoid_rewrite text_Some. split.
    + intros (mid & Em & why & Ew & s1 & [Hm ->] & new & Hf2 & Hf & ->). exists (mid :: new).
      split_and!; [constructor; [|done]; by split; [|exists why]|by apply fresh_ids_cons|].
      rewrite <- app_assoc. f_equal. set_solver.
    + intros (new & Hf2 & Hf & ->). apply Forall2_cons_inv_l in Hf2 as (mid & new' & [Em [why Ew]] & Hf2 & ->).
      apply fresh_ids_cons in Hf as [Hm Hf]. exists mid. split; [done|]. exists why. split; [done|].
      exists ({[mid]} ∪ seen). split; [done|]. exists new'. split_and!; [done|done|].
      rewrite <- app_assoc. f_equal. set_solver.
Qed.

Lemma size_list_le (ids : list string) : size (list_to_set ids : gset string) ≤ length ids.
Proof.
  induction ids as [|i ids IH]; simpl; [done|]. rewrite size_union_alt, size_singleton.
  pose proof (subseteq_size (list_to_set ids ∖ {[i]} : gset string) (list_to_set ids)
    ltac:(set_solver)). lia.
Qed.

Lemma size_NoDup (ids : list string) :
  size (list_to_set ids : gset string) = length ids ↔ NoDup ids.
Proof.
  split; [|apply size_list_to_set]. induction ids as [|i ids IH]; [constructor|]. simpl.
  intros E. pose proof (size_list_le ids) as Hle. destruct (decide (i ∈ ids)) as [Hi|Hi].
  - assert ({[i]} ∪ list_to_set ids = (list_to_set ids : gset string)) as Eu by set_solver.
    rewrite Eu in E. lia.
  - apply NoDup_cons. split; [done|]. apply IH.
    rewrite size_union, size_singleton in E by set_solver. lia.
Qed.

(** An answer that accounts for the messages [ids] once each, and names no conflict. *)
Definition accounts (body : json) (ids : list string) (accepted duplicates rejected : list string)
    : Prop :=
  items_of body "conflicts" [] ∧ items_of body "accepted" (map JStr accepted) ∧
  items_of body "duplicates" (map JStr duplicates) ∧
  (∃ items, items_of body "rejected" items ∧ Forall2 rejects items rejected) ∧
  NoDup ids ∧ accepted ++ duplicates ++ rejected ≡ₚ ids.

Lemma fresh_ids_app expected seen a b :
  fresh_ids expected seen a ∧ fresh_ids expected (list_to_set a ∪ seen) b ↔
  fresh_ids expected seen (a ++ b).
Proof.
  unfold fresh_ids. rewrite NoDup_app. setoid_rewrite elem_of_app. split.
  - intros [[Ha Hia] [Hb Hib]]. split_and!; [done| |done|].
    + intros i Hi Hi'. apply Hib in Hi'. set_solver.
    + intros i [Hi|Hi]; [by apply Hia|]. apply Hib in Hi. set_solver.
  - intros [(Ha & Hab & Hb) Hi]. split_and!; [done|by auto|done|].
    intros i Hin. split; [by apply Hi; right|]. intros [Hia|Hs]%elem_of_union.
    + apply elem_of_list_to_set in Hia. by apply (Hab i).
    + by apply (Hi i (or_intror Hin)).
Qed.

(** New identifiers that make up the expected set are the expected ones in some order. *)
Lemma fresh_ids_all ids l :
  NoDup ids → fresh_ids (list_to_set ids) ∅ l ∧ (list_to_set l : gset string) = list_to_set ids ↔
  NoDup ids ∧ l ≡ₚ ids.
Proof.
  intros Hids. unfold fresh_ids. split.
  - intros [[Hl _] E]. split; [done|]. apply NoDup_Permutation; [done..|]. set_solver.
  - intros [_ Hp]. split_and!; [by rewrite Hp| |by rewrite Hp]. intros i. rewrite Hp. set_solver.
Qed.

Lemma outcome_count_items body key items :
  items_of body key items → outcome_count body key = Z.of_nat (length items).
Proof. unfold items_of, outcome_count. by intros ->. Qed.

Lemma items_of_inj body key a b : items_of body key a → items_of body key b → a = b.
Proof. unfold items_of. congruence. Qed.

(** What the three loops read together. *)
Lemma loops_Ok expected acc dup rej r :
  (let? seen := see_texts expected ∅ acc in
   let? seen := see_texts expected seen dup in
   see_rejected expected seen [] rej) = Ok r ↔
  ∃ a d x, acc = map JStr a ∧ dup = map JStr d ∧ Forall2 rejects rej x ∧
    fresh_ids expected ∅ (a ++ d ++ x) ∧ r = (list_to_set (a ++ d ++ x), x).
Proof.
  rewrite rbind_Ok. setoid_rewrite rbind_Ok. setoid_rewrite see_texts_Ok.
  setoid_rewrite see_rejected_Ok. split.
  - intros (s1 & (a & -> & Ha & ->) & s2 & (d & -> & Hd & ->) & x & Hx & Hf & ->).
    exists a, d, x. split_and!; [done|done|done| |].
    2: { rewrite !list_to_set_app_L. f_equal. set_solver. }
    apply (proj1 (fresh_ids_app _ _ _ _)). split; [done|].
    by apply (proj1 (fresh_ids_app _ _ _ _)).
  - intros (a & d & x & -> & -> & Hx & Hf & ->).
    apply fresh_ids_app in Hf as [Ha Hf]. apply fresh_ids_app in Hf as [Hd Hf].
    exists (list_to_set a ∪ ∅). split; [by exists a|].
    exists (list_to_set d ∪ (list_to_set a ∪ ∅)). split; [by exists d|].
    exists x. split_and!; [done|done|]. rewrite !list_to_set_app_L. f_equal. set_solver.
Qed.

Lemma message_outcome_Ok (body : json) (batch : list Message) (o : PushOutcome) :
  message_outcome body batch = Ok o ↔
  ∃ accepted duplicates rejected,
    accounts body (map m_id batch) accepted duplicates rejected ∧
    o = mkOutcome (Z.of_nat (length accepted)) (Z.of_nat (length duplicates)) [] rejected.
Proof.
  unfold message_outcome. rewrite <- (length_map m_id batch). generalize (map m_id batch) as ids.
  intros ids. destruct (Nat.eqb_spec (size (list_to_set ids : gset string)) (length ids)) as [Es|Es];
    cbn [negb].
  2: { unfold bad. split; [done|]. intros (a & d & x & (_ & _ & _ & _ & Hids & _) & _).
       by apply size_NoDup in Hids. }
  apply size_NoDup in Es. split.
  - intros (conf & Hc & E)%rbind_Ok. apply or_bad_Ok, array_Some in Hc.
    case_bool_decide as Ec; [subst conf|done]. cbn [negb] in E.
    apply rbind_Ok in E as (rej & Hr & E). apply or_bad_Ok, array_Some in Hr.
    apply rbind_Ok in E as (acc & Ha & E). apply or_bad_Ok, array_Some in Ha.
    apply rbind_Ok in E as (s1 & H1 & E). apply rbind_Ok in E as (dup & Hd & E).
    apply or_bad_Ok, array_Some in Hd. apply rbind_Ok in E as (s2 & H2 & E).
    apply rbind_Ok in E as (r & H3 & E).
    destruct (proj1 (loops_Ok (list_to_set ids) acc dup rej r)) as (a & d & x & -> & -> & Hx & Hf & ->).
    { apply rbind_Ok. exists s1. split; [done|]. apply rbind_Ok. by exists s2. }
    cbn [fst snd] in E. case_bool_decide as Eall; [|done]. injection E as <-.
    exists a, d, x. unfold outcome_from. cbn.
    rewrite (outcome_count_items _ _ _ Ha), (outcome_count_items _ _ _ Hd), !length_map.
    split; [|done]. split_and!; try done; [by exists rej|].
    by apply (fresh_ids_all ids).
  - intros (a & d & x & (Hc & Ha & Hd & (rej & Hr & Hx) & Hids & Hp) & ->).
    destruct (proj2 (fresh_ids_all ids (a ++ d ++ x) Hids)) as [Hf Eall]; [done|].
    pose proof (proj2 (loops_Ok (list_to_set ids) (map JStr a) (map JStr d) rej
      (list_to_set (a ++ d ++ x), x)) ltac:(by exists a, d, x)) as E.
    apply rbind_Ok in E as (s1 & H1 & E). apply rbind_Ok in E as (s2 & H2 & H3).
    unfold items_of in *. rewrite Hc, Ha, Hd, Hr. simpl. rewrite H1. simpl. rewrite H2. simpl.
    rewrite H3. simpl. rewrite bool_decide_eq_true_2 by done. simpl.
    unfold outcome_from, outcome_count. simpl. by rewrite Ha, Hd, !length_map.
Qed.

Lemma accounts_disposed body ids a d x :
  accounts body ids a d x → (Z.of_nat (length ids) ≤ U64_MAX)%Z →
  disposed (mkOutcome (Z.of_nat (length a)) (Z.of_nat (length d)) [] x) (length ids) = true.
Proof.
  intros (_ & _ & _ & _ & _ & Hp) Hl. apply Permutation_length in Hp. rewrite !length_app in Hp.
  unfold disposed, checked_add. simpl. rewrite decide_True by lia. simpl.
  rewrite decide_True by lia. apply bool_decide_eq_true. f_equal. lia.
Qed.

(** C32. A batch counts as pushed exactly when the cloud's answer names no conflict and
    lists every one of its messages once, as accepted, duplicate or rejected with a
    reason; the outcome is the numbers of the first two and the rejected identifiers,
    which is what the engine demands before it acknowledges a batch. In particular a
    batch with two messages of one identifier is never acknowledged. *)
Theorem message_outcome_accounts (body : json) (batch : list Message) (o : PushOutcome) :
  length batch ≤ MAX_BATCH →
  (message_outcome body batch = Ok o ↔
   ∃ accepted duplicates rejected,
     accounts body (map m_id batch) accepted duplicates rejected ∧
     o = mkOutcome (Z.of_nat (length accepted)) (Z.of_nat (length duplicates)) [] rejected) ∧
  (message_outcome body batch = Ok o →
   NoDup (map m_id batch) ∧ disposed o (length batch) = true).
Proof.
  intros Hl. split; [apply message_outcome_Ok|]. intros (a & d & x & Ha & ->)%message_outcome_Ok.
  split; [by destruct Ha as (_ & _ & _ & _ & ? & _)|]. rewrite <- (length_map m_id batch).
  apply (accounts_disposed body); [done|]. rewrite length_map. unfold MAX_BATCH, U64_MAX in *. lia.
Qed.

(** One message accepted, one known already, one rejected; and the same answer to a batch
    that has one of them twice. *)
Definition answer_demo : json :=
  obj [("accepted", JArr [JStr "b"]); ("duplicates", JArr [JStr "a"]);
       ("rejected", JArr [obj [("id", JStr "c"); ("reason", JStr "too long")]]);
       ("conflicts", JArr [])].

Definition batch_demo : list Message :=
  map (λ mid, sync_message mid "note" None None) ["a"; "b"; "c"].

Lemma message_outcome_accounts_witness :
  let o := mkOutcome 1 1 [] ["c"] in
  message_outcome answer_demo batch_demo = Ok o ∧
  message_outcome answer_demo (batch_demo ++ take 1 batch_demo) = bad ∧
  (message_outcome answer_demo batch_demo = Ok o ↔
   ∃ accepted duplicates rejected,
     accounts answer_demo (map m_id batch_demo) accepted duplicates rejected ∧
     o = mkOutcome (Z.of_nat (length accepted)) (Z.of_nat (length duplicates)) [] rejected) ∧
  (message_outcome answer_demo batch_demo = Ok o →
   NoDup (map m_id batch_demo) ∧ disposed o (length batch_demo) = true).
Proof.
  cbn zeta. do 2 (split; [by vm_compute|]).
  apply (message_outcome_accounts answer_demo batch_demo). unfold MAX_BATCH. simpl. lia.
Defined.
