(* ===== verification/SyncStoreProps.v ===== *)
(** * SyncStoreProps: what the hub's store promises to synchronisation

    A pulled message reads back as it was pulled, is stored once however often it
    arrives, and a pulled presence never replaces a newer local one. *)

From Stdlib Require Import ZArith Lia Ascii.
From stdpp Require Import base option list strings gmap.
From S2P Require Import Prelude Str Json Validation McpSchema ClaimTypes Outbox Redis.
From S2P Require Import Channels Messages StreamEntry ReplayScript OutboxHub ReplayFacts SyncStore StreamFacts CloudSync.
From S2P Require Import ClaimInstances HubInstances SyncInstances.

Section store.
Context `{Chrono} `{StoreText} `{!EntryText} `{HubText} `{UuidText}.

Lemma synced_fields_names msg hub :
  NoDup (synced_fields msg hub).*1 ∧ Forall (λ n, utf8 n = true) (synced_fields msg hub).*1.
Proof.
  unfold synced_fields.
  destruct (m_thread_id msg), (m_client_msg_id msg), (m_origin_seq msg), (m_hlc msg),
    (m_sensitivity msg); csimpl; (split; [by apply (bool_decide_unpack _); vm_compute|
    repeat constructor]).
Qed.

(** The fields of a stored message, as [decode_stream_entry] gets them. *)
Definition stored_fields (msg : Message) (hub : string) : entry_fields :=
  parse_fields ∅ (map BulkString (flat (synced_fields msg hub))).

Lemma stored_fields_lookup msg hub k :
  stored_fields msg hub !! k = BulkString <$> field k (synced_fields msg hub).
Proof.
  unfold stored_fields. destruct (synced_fields_names msg hub).
  rewrite parse_fields_flat by done. by destruct (field k _).
Qed.

Lemma stored_get msg hub k v :
  field k (synced_fields msg hub) = Some v → utf8 v = true →
  entry_get (stored_fields msg hub) k = v.
Proof.
  intros E Hv. unfold entry_get. rewrite stored_fields_lookup, E. by apply bool_decide_eq_true in Hv.
Qed.

Lemma stored_get_none msg hub k :
  field k (synced_fields msg hub) = None → entry_get (stored_fields msg hub) k = "".
Proof. intros E. unfold entry_get. by rewrite stored_fields_lookup, E. Qed.
(** ** Reading back *)

(** The value of every optional field. *)
Lemma optional_fields msg hub :
  field "thread_id" (synced_fields msg hub) = m_thread_id msg ∧
  field "client_msg_id" (synced_fields msg hub) = m_client_msg_id msg ∧
  field "origin_seq" (synced_fields msg hub) = dec <$> m_origin_seq msg ∧
  field "hlc" (synced_fields msg hub) = m_hlc msg ∧
  field "sensitivity" (synced_fields msg hub) = sensitivity_as_str <$> m_sensitivity msg ∧
  field "_compressed" (synced_fields msg hub) = None.
Proof.
  unfold synced_fields.
  destruct (m_thread_id msg), (m_client_msg_id msg), (m_origin_seq msg), (m_hlc msg),
    (m_sensitivity msg); split_and!; reflexivity.
Qed.

Lemma stored_optional msg hub k (o : option string) :
  field k (synced_fields msg hub) = o → opt_all filled o = true →
  non_empty (entry_get (stored_fields msg hub) k) = o.
Proof.
  intros E Ho. unfold non_empty. destruct o as [v|]; simpl in Ho.
  - apply filled_spec in Ho as [Hu He]. by rewrite (stored_get _ _ _ v), He.
  - by rewrite stored_get_none.
Qed.

Lemma stored_body msg hub : utf8 (m_body msg) = true →
  entry_body (stored_fields msg hub) = m_body msg.
Proof.
  intros Hb. unfold entry_body, entry_get_ref. rewrite (stored_get _ _ _ (m_body msg)) by done.
  rewrite stored_fields_lookup. destruct (optional_fields msg hub) as (_ & _ & _ & _ & _ & ->).
  done.
Qed.

Lemma stored_thread msg hub :
  opt_all (λ t, filled t && negb (bool_decide (t = "None"))) (m_thread_id msg) = true →
  let t := entry_get (stored_fields msg hub) "thread_id" in
  (if is_empty t || bool_decide (t = "None") then None else Some t) = m_thread_id msg.
Proof.
  intros Ht. destruct (optional_fields msg hub) as (E & _). cbn zeta.
  destruct (m_thread_id msg) as [t|]; simpl in Ht; bool_simplify.
  - match goal with Hf : filled t = true |- _ => apply filled_spec in Hf as [Hu He] end.
    by rewrite (stored_get _ _ _ t), He, bool_decide_eq_false_2.
  - by rewrite stored_get_none.
Qed.

Lemma stored_origin_seq msg hub :
  match m_origin_seq msg with Some n => (0 <=? n)%Z && (n <=? U64_MAX)%Z | None => true end = true →
  parse_u64 (entry_get (stored_fields msg hub) "origin_seq") = m_origin_seq msg.
Proof.
  intros Hn. destruct (optional_fields msg hub) as (_ & _ & E & _).
  destruct (m_origin_seq msg) as [n|]; [|by rewrite stored_get_none].
  bool_simplify. unfold entry_get. rewrite stored_fields_lookup, E. simpl.
  pose proof (dec_utf8 n) as Hd. apply bool_decide_eq_true in Hd. rewrite Hd.
  by apply parse_u64_dec.
Qed.

Lemma stored_priority msg hub : filled (m_priority msg) = true →
  let p := entry_get (stored_fields msg hub) "priority" in
  (if is_empty p then "normal" else p) = m_priority msg.
Proof.
  intros [Hu He]%filled_spec. cbn zeta. by rewrite (stored_get _ _ _ (m_priority msg)), He.
Qed.

Lemma stored_reply_to msg hub : opt_all filled (m_reply_to msg) = true →
  let r := entry_get (stored_fields msg hub) "reply_to" in
  (if is_empty r then None else Some r) = m_reply_to msg.
Proof.
  intros Hr. cbn zeta.
  assert (field "reply_to" (synced_fields msg hub) = Some (from_option (λ r, r) "" (m_reply_to msg)))
    as E by done.
  destruct (m_reply_to msg) as [r|]; simpl in Hr, E.
  - apply filled_spec in Hr as [Hu He]. by rewrite (stored_get _ _ _ r), He.
  - by rewrite (stored_get _ _ _ "").
Qed.

Lemma stored_sensitivity msg hub :
  from_stored (entry_get (stored_fields msg hub) "sensitivity") = m_sensitivity msg.
Proof.
  destruct (optional_fields msg hub) as (_ & _ & _ & _ & E & _).
  destruct (m_sensitivity msg) as [[]|];
    [by rewrite (stored_get _ _ _ _ E)..|by rewrite stored_get_none].
Qed.

(** Decoding what [xadd_synced] wrote gives the message back. *)
Lemma decode_stored msg hub sid : readable msg = true → filled hub = true →
  m_origin_hub msg = Some hub →
  set_stream_id (decode_stream_entry (stored_fields msg hub)) sid = set_stream_id msg sid.
Proof.
  unfold readable. cbn [forallb]. intros Hr Hh Eh. bool_simplify.
  destruct (optional_fields msg hub) as (_ & Ecm & _ & Ehlc & _ & _).
  apply filled_spec in Hh as Hu. destruct Hu as [Hu _].
  apply set_stream_id_ext.
  - by apply (stored_get msg hub "id").
  - by apply (stored_get msg hub "timestamp_utc").
  - by apply (stored_get msg hub "protocol_version").
  - by apply (stored_get msg hub "from").
  - by apply (stored_get msg hub "to").
  - by apply (stored_get msg hub "topic").
  - by apply stored_body.
  - by apply stored_thread.
  - change (entry_get_json_vec (stored_fields msg hub) "tags" = m_tags msg).
    unfold entry_get_json_vec. rewrite stored_fields_lookup.
    change (from_option (λ l, l) [] (strings_of_text (strings_text (m_tags msg))) = m_tags msg).
    rewrite strings_of_text_text; [done|]. by apply Forall_forall, forallb_True.
  - by apply stored_priority.
  - change (entry_get_bool (stored_fields msg hub) "request_ack" = m_request_ack msg).
    unfold entry_get_bool, entry_get_ref. rewrite stored_fields_lookup.
    unfold synced_fields. by destruct (m_request_ack msg).
  - by apply stored_reply_to.
  - change (entry_get_json_value (stored_fields msg hub) "metadata" = m_metadata msg).
    unfold entry_get_json_value. rewrite stored_fields_lookup.
    change (from_option (λ v, v) (JObj []) (json_of_text (json_text (m_metadata msg)))
            = m_metadata msg). by rewrite json_of_text_text.
  - by apply (stored_optional msg hub "client_msg_id").
  - rewrite Eh. apply (stored_optional msg hub "origin_hub"); [done|].
    unfold opt_all. done.
  - by apply stored_origin_seq.
  - by apply (stored_optional msg hub "hlc").
  - apply stored_sensitivity.
Qed.

(** ** Storing once *)

(** How many entries for the message [mid] of hub [origin] were ever appended. *)
Definition is_synced (sk origin mid : string) (a : string * list string) : bool :=
  bool_decide (a.1 = sk) && bool_decide (flat_field "id" a.2 = Some mid)
  && bool_decide (flat_field "origin_hub" a.2 = Some origin).

Definition synced_copies (sk origin mid : string) (d : hubdb) : nat :=
  length (List.filter (is_synced sk origin mid) (hd_appended d)).

Lemma is_synced_fields sk origin msg :
  is_synced sk origin (m_id msg) (sk, flat (synced_fields msg origin)) = true.
Proof.
  unfold is_synced. cbn [fst snd]. rewrite !bool_decide_eq_true_2; done.
Qed.

Section once.
Context (s : SyncSettings) (origin mid : string).
Abbreviation sk := (ss_stream_key s).
Abbreviation seen := (ingest_seen_key origin mid).
Abbreviation copies := (synced_copies sk origin mid).

(** The marker and the entries of the message are the same in both. *)
Definition spares (d d' : hubdb) : Prop :=
  hd_keys d' !! seen = hd_keys d !! seen ∧ copies d' = copies d.

Lemma spares_trans d d' d'' : spares d d' → spares d' d'' → spares d d''.
Proof. intros [? ?] [? ?]. split; congruence. Qed.

Lemma copies_append_entry key maxlen eid fs trim d now :
  copies (append_entry key maxlen eid fs trim d now) =
  copies d + (if is_synced sk origin mid (key, fs) then 1 else 0).
Proof.
  unfold synced_copies, append_entry. cbn [hd_appended].
  rewrite List.filter_app, length_app. f_equal. simpl. by destruct (is_synced _ _ _ _).
Qed.

Lemma write_spares f st :
  (∀ d now, spares d (f d now)) → spares (ls_db st) (ls_db (lwrite f st).2).
Proof. intros Hf. unfold lwrite. destruct (lua_writes (ls_env st)) as [[|n]|]; simpl; try apply Hf. done. Qed.

Lemma XADD_spares key maxlen fs st :
  key ≠ seen → key ≠ sk → spares (ls_db st) (ls_db (redis_XADD key maxlen fs st).2).
Proof.
  intros Hk Hsk. unfold redis_XADD, lbind, redis_TYPE, lread, lwrite, lret.
  destruct (_ && _); [done|]. cbn.
  destruct (lua_writes (ls_env st)) as [[|n]|]; cbn; [done|..];
    (split; [unfold append_entry; simpl; by rewrite lookup_insert_ne|]);
    rewrite copies_append_entry; unfold is_synced; cbn [fst];
    rewrite (bool_decide_eq_false_2 (key = sk)) by done; simpl; lia.
Qed.

Lemma EXPIRE_spares key secs st :
  key ≠ seen → spares (ls_db st) (ls_db (redis_EXPIRE key secs st).2).
Proof.
  intros Hk. apply write_spares. intros d now. case_match; [|done].
  split; [|done]. simpl. by rewrite lookup_insert_ne.
Qed.

Lemma attempt_spares {A} how (m : lua A) e d :
  (∀ st, spares (ls_db st) (ls_db (m st).2)) → spares d (attempt how m e d).2.
Proof.
  intros Hm. destruct how; simpl; [|done|by apply (Hm (mkLuaState d e))].
  specialize (Hm (mkLuaState d e)). by destruct (m (mkLuaState d e)).
Qed.

Lemma notification_key_not_seen ag : notification_stream_key ag ≠ seen.
Proof. discriminate. Qed.

Lemma notifications_spare e msg d :
  notification_stream_key (m_to msg) ≠ sk →
  spares d (append_notifications_for_message e msg d).2.
Proof.
  intros Hn. unfold append_notifications_for_message. destruct (_ || _); [done|]. cbn zeta.
  pose proof (λ fs, attempt_spares (ie_note e)
    (redis_XADD (notification_stream_key (m_to msg)) NOTIFICATION_STREAM_MAXLEN fs) (ie_note_lua e)
    d (λ st, XADD_spares _ _ _ st (notification_key_not_seen (m_to msg)) Hn)) as Hadd.
  match goal with |- context [redis_XADD _ _ ?fs] => specialize (Hadd fs) end.
  destruct (attempt (ie_note e) _ _ _) as [added d1]. simpl in Hadd.
  destruct (internal_or _ added); [|done].
  pose proof (attempt_spares (ie_expire e)
    (redis_EXPIRE (notification_stream_key (m_to msg)) NOTIFICATION_STREAM_TTL_SECS)
    (ie_expire_lua e) d1
    (λ st, EXPIRE_spares _ _ st (notification_key_not_seen (m_to msg)))) as Hexp.
  destruct (attempt (ie_expire e) _ _ _) as [kept d2]. by eapply spares_trans.
Qed.

(** What the script does when only the server's refusal can stop its entry. *)
Lemma exists_type d now key :
  bool_decide (is_Some (live_entry d now key)) = negb (bool_decide (key_type d now key = "none")).
Proof. unfold key_type. by destruct (live_entry d now key) as [[]|]. Qed.

Lemma ingest_script_cases msg acl refused e d :
  m_id msg = mid → sk ≠ seen → lua_writes e = None →
  let now := lua_now e in
  let '(r, st) := ingest_script seen sk INGEST_SEEN_TTL_SECONDS (ss_stream_maxlen s)
                    (flat (synced_fields msg origin)) acl refused (mkLuaState d e) in
  match r with
  | Ok None => ls_db st = d ∧ key_type d now seen ≠ "none"
  | Ok (Some _) =>
      key_type d now seen = "none" ∧ copies (ls_db st) = copies d + 1 ∧
      hd_keys (ls_db st) !! seen =
        Some (mkEntry (VString "1") (Some (now + INGEST_SEEN_TTL_SECONDS * 1000)%Z))
  | Err _ => ls_db st = d ∨ (key_type d now seen = "none" ∧ hd_keys (ls_db st) !! seen = None ∧
                               copies (ls_db st) = copies d)
  end.
Proof.
  intros Em Hsk Hw. pose proof (is_synced_fields sk origin msg) as Hi. rewrite Em in Hi.
  revert Hi. generalize (flat (synced_fields msg origin)). intros fs Hi. cbn zeta. unfold ingest_script, lbind, redis_EXISTS, redis_TYPE, lread, lret. cbn.
  rewrite exists_type. destruct (decide (key_type d (lua_now e) seen = "none")) as [Hn|Hn].
  2: { rewrite (bool_decide_eq_false_2 _ Hn). done. }
  rewrite (bool_decide_eq_true_2 _ Hn). cbn. destruct (_ && _) eqn:Et; [by left|].
  destruct (bool_decide (acl = Some false)); [by left|]. unfold redis_DEL, redis_SET_EX, lwrite, lread.
  cbn. rewrite Hw. cbn. destruct ((_ <=? 0)%Z || _); cbn.
  { right. split_and!; [done|by rewrite lookup_delete_eq|done]. }
  unfold pcall, xadd_unless. destruct refused; cbn.
  { right. split_and!; [done|by rewrite lookup_delete_eq|done]. }
  unfold redis_XADD, lbind, redis_TYPE, lread, lwrite, lret. cbn.
  match goal with |- context [if ?b then lerr _ else _] => destruct b end; cbn.
  { right. split_and!; [done|by rewrite lookup_delete_eq|done]. }
  split_and!; [done| |].
  - unfold synced_copies. rewrite List.filter_app, length_app. simpl. by rewrite Hi.
  - unfold append_entry. simpl. rewrite lookup_insert_ne by done. by rewrite lookup_insert_eq.
Qed.

(** Messages of this identity, with working writes, inside one lifetime of a marker. *)
Definition round_ok (t0 : Z) (r : (hubdb → hubdb) * Message * ingest_env) : Prop :=
  let '(others, msg, e) := r in
  (∀ d, spares d (others d)) ∧
  m_id msg = mid ∧ m_origin_hub msg = Some origin ∧ notification_stream_key (m_to msg) ≠ sk ∧
  lua_writes (ie_lua e) = None ∧
  (t0 ≤ lua_now (ie_lua e) < t0 + INGEST_SEEN_TTL_SECONDS * 1000)%Z.

Definition settled (t0 : Z) (d : hubdb) : Prop :=
  (hd_keys d !! seen = None ∧ copies d = 0) ∨
  (copies d = 1 ∧ ∃ until, (t0 + INGEST_SEEN_TTL_SECONDS * 1000 ≤ until)%Z ∧
    hd_keys d !! seen = Some (mkEntry (VString "1") (Some until))).

Lemma settled_spares t0 d d' : spares d d' → settled t0 d → settled t0 d'.
Proof. intros [Hk Hc]. unfold settled. by rewrite Hk, Hc. Qed.

Lemma settled_type t0 d now :
  settled t0 d → (now < t0 + INGEST_SEEN_TTL_SECONDS * 1000)%Z →
  key_type d now seen = "none" ↔ copies d = 0.
Proof.
  unfold key_type, live_entry. intros [[-> Hc]|(Hc & until & Hu & ->)] Hnow; [done|].
  simpl. rewrite (proj2 (Z.leb_gt _ _)) by lia. simpl. rewrite Hc. done.
Qed.

Definition is_ingested (r : Result IngestOutcome) : bool :=
  match r with Ok Ingested => true | _ => false end.

Lemma xadd_synced_settles t0 msg e d r d' :
  m_id msg = mid → sk ≠ seen → lua_writes (ie_lua e) = None →
  (t0 ≤ lua_now (ie_lua e) < t0 + INGEST_SEEN_TTL_SECONDS * 1000)%Z →
  settled t0 d → xadd_synced s msg origin e d = (r, d') →
  settled t0 d' ∧ copies d ≤ copies d' ∧
  match r with
  | Ok (Some _) => copies d = 0 ∧ copies d' = 1
  | Ok None => copies d' = 1
  | Err _ => True
  end.
Proof.
  intros Em Hsk Hw Hnow Hd. unfold xadd_synced. rewrite Em.
  destruct (attempt _ _ _ d) as [r1 d1] eqn:E. intros [= <- <-].
  apply attempt_cases in E as [(_ & -> & Hr)|(r0 & st & E & -> & Hr)].
  { destruct r1; [done|]. by split_and!. }
  pose proof (ingest_script_cases msg (ie_acl e) (ie_refused e) (ie_lua e) d Em Hsk Hw) as Hc.
  cbn zeta in Hc. rewrite E in Hc. pose proof (settled_type t0 d _ Hd (proj2 Hnow)) as Ht.
  assert (copies d ≤ 1) as Hle by (destruct Hd as [[_ ->]|[-> _]]; lia).
  destruct r0 as [[sid|]|err].
  - destruct Hc as (Hn & Hc & Hk). apply Ht in Hn.
    assert (settled t0 (ls_db st)) as Hs by (right; split; [lia|]; eexists; split; [|exact Hk]; lia).
    split_and!; [done|lia|]. destruct Hr as [-> | Hr]; [simpl; lia|by destruct r1].
  - destruct Hc as [-> Hn]. split_and!; [done|lia|].
    destruct Hr as [-> | Hr]; [|by destruct r1]. simpl. rewrite Ht in Hn. lia.
  - assert (match internal_or "atomic synced ingest failed" r1 with Err _ => True | _ => False end)
      as Hr1 by (destruct Hr as [-> | Hr]; [done|by destruct r1]).
    destruct (internal_or _ r1); [done|]. destruct Hc as [-> | (Hn & Hk & Hc)];
      [by split_and!|].
    apply Ht in Hn. split_and!; [left; split; [done|lia]|lia|done].
Qed.

Lemma ingest_settles t0 others msg e d :
  origin ≠ "" → mid ≠ "" → sk ≠ seen → round_ok t0 (others, msg, e) → settled t0 d →
  let '(r, d', _) := ingest_synced_message s msg e (others d) in
  settled t0 d' ∧ copies d ≤ copies d' ∧
  (is_ingested r = true → copies d = 0 ∧ copies d' = 1) ∧ (is_ok r = true → copies d' = 1).
Proof.
  intros Ho Hm Hsk (Hoth & Em & Eo & Hnote & Hw & Hnow) Hd. specialize (Hoth d).
  apply (settled_spares t0 _ _ Hoth) in Hd. destruct Hoth as [_ <-].
  unfold ingest_synced_message. rewrite Eo, Em. unfold is_empty. rewrite (bool_decide_eq_false_2 _ Hm).
  destruct origin as [|a t] eqn:Ea; [done|]. rewrite <- Ea in *. clear Ea a t.
  destruct (xadd_synced s msg origin e (others d)) as [r d1] eqn:E.
  destruct (xadd_synced_settles t0 msg e _ _ _ Em Hsk Hw Hnow Hd E) as (Hd1 & Hle & Hr).
  destruct r as [[sid|]|err]; simpl; [|by split_and!|by split_and!].
  pose proof (notifications_spare e (set_stream_id msg sid) d1 Hnote) as Hn.
  apply (settled_spares t0 _ _ Hn) in Hd1. destruct Hn as [_ Hn]. rewrite Hn.
  split_and!; try done; naive_solver.
Qed.
End once.

(** Storing rounds one after another, others acting before each. *)
Fixpoint ingest_rounds (s : SyncSettings)
    (rounds : list ((hubdb → hubdb) * Message * ingest_env)) (d : hubdb)
    : list (Result IngestOutcome) * hubdb :=
  match rounds with
  | [] => ([], d)
  | (others, msg, e) :: rest =>
      let '(r, d, _) := ingest_synced_message s msg e (others d) in
      let '(rs, d) := ingest_rounds s rest d in
      (r :: rs, d)
  end.

Lemma ingest_rounds_settle s origin mid t0 rounds : ∀ d,
  origin ≠ "" → mid ≠ "" → ss_stream_key s ≠ ingest_seen_key origin mid →
  Forall (round_ok s origin mid t0) rounds → settled s origin mid t0 d →
  let copies := synced_copies (ss_stream_key s) origin mid in
  let '(rs, d') := ingest_rounds s rounds d in
  settled s origin mid t0 d' ∧ copies d ≤ copies d' ∧
  copies d + length (List.filter is_ingested rs) ≤ copies d' ∧
  (existsb is_ok rs = true → copies d' = 1).
Proof.
  induction rounds as [|[[others msg] e] rest IH]; intros d Ho Hm Hsk Hok Hd; cbn zeta.
  { simpl. split_and!; [done|lia|lia|done]. }
  apply Forall_cons in Hok as [Hr Hok]. cbn [ingest_rounds].
  pose proof (ingest_settles s origin mid t0 others msg e d Ho Hm Hsk Hr Hd) as Hs.
  destruct (ingest_synced_message s msg e (others d)) as [[r d1] sent].
  destruct Hs as (Hd1 & Hle & Hi & Hk). specialize (IH d1 Ho Hm Hsk Hok Hd1). cbn zeta in IH.
  destruct (ingest_rounds s rest d1) as [rs d2]. destruct IH as (Hd2 & Hle2 & Hc2 & Hk2).
  assert (synced_copies (ss_stream_key s) origin mid d2 ≤ 1) as Hb
    by (destruct Hd2 as [[_ ->]|[-> _]]; lia).
  split_and!; [done|lia| |].
  - simpl. destruct (is_ingested r) eqn:Ei; [|lia]. destruct (Hi eq_refl). simpl. lia.
  - simpl. intros [E|E]%orb_true_iff; [|by apply Hk2]. specialize (Hk E). lia.
Qed.

(** C25. However often a pulled message is stored again - by lost calls, lost cursors or
    the server refusing its entry, with any other use of the server in between - and
    within one lifetime of its marker, the stream gets at most one entry for it; once
    some call answered, ingested or duplicate, it has exactly one, and at most one call
    says ingested. *)
Theorem ingest_once (s : SyncSettings) (origin mid : string) (t0 : Z)
    (rounds : list ((hubdb → hubdb) * Message * ingest_env)) (d : hubdb)
    (rs : list (Result IngestOutcome)) (d' : hubdb) :
  origin ≠ "" → mid ≠ "" → ss_stream_key s ≠ ingest_seen_key origin mid →
  Forall (round_ok s origin mid t0) rounds →
  hd_keys d !! ingest_seen_key origin mid = None →
  synced_copies (ss_stream_key s) origin mid d = 0 →
  ingest_rounds s rounds d = (rs, d') →
  synced_copies (ss_stream_key s) origin mid d' ≤ 1 ∧
  (existsb is_ok rs = true → synced_copies (ss_stream_key s) origin mid d' = 1) ∧
  length (List.filter is_ingested rs) ≤ 1.
Proof.
  intros Ho Hm Hsk Hok Hk Hc E.
  pose proof (ingest_rounds_settle s origin mid t0 rounds d Ho Hm Hsk Hok (or_introl (conj Hk Hc)))
    as Hr.
  cbn zeta in Hr. rewrite E in Hr. destruct Hr as (Hd & _ & Hi & He).
  assert (synced_copies (ss_stream_key s) origin mid d' ≤ 1) as Hb
    by (destruct Hd as [[_ ->]|[-> _]]; lia).
  split_and!; [done|done|lia].
Qed.

(** ** Reading a pulled message back *)

(** The key is the same in both. *)
Definition same_at (k : string) (d d' : hubdb) : Prop := hd_keys d' !! k = hd_keys d !! k.

Lemma XADD_same_at k key maxlen fs st :
  key ≠ k → same_at k (ls_db st) (ls_db (redis_XADD key maxlen fs st).2).
Proof.
  intros Hk. unfold redis_XADD, lbind, redis_TYPE, lread, lwrite, lret, same_at.
  destruct (_ && _); [done|]. cbn.
  by destruct (lua_writes (ls_env st)) as [[|n]|]; cbn; rewrite ?lookup_insert_ne.
Qed.

Lemma EXPIRE_same_at k key secs st :
  key ≠ k → same_at k (ls_db st) (ls_db (redis_EXPIRE key secs st).2).
Proof.
  intros Hk. unfold redis_EXPIRE, lwrite, same_at.
  destruct (lua_writes (ls_env st)) as [[|n]|]; cbn; [done|..]; case_match; cbn;
    by rewrite ?lookup_insert_ne.
Qed.

Lemma attempt_same_at {A} k how (m : lua A) e d :
  (∀ st, same_at k (ls_db st) (ls_db (m st).2)) → same_at k d (attempt how m e d).2.
Proof.
  intros Hm. destruct how; simpl; [|done|by apply (Hm (mkLuaState d e))].
  specialize (Hm (mkLuaState d e)). by destruct (m (mkLuaState d e)).
Qed.

Lemma notifications_same_at k e msg d :
  notification_stream_key (m_to msg) ≠ k →
  same_at k d (append_notifications_for_message e msg d).2.
Proof.
  intros Hn. unfold append_notifications_for_message. destruct (_ || _); [done|]. cbn zeta.
  match goal with |- context [attempt (ie_note e) ?m _ _] =>
    pose proof (attempt_same_at k (ie_note e) m (ie_note_lua e) d (λ st, XADD_same_at k _ _ _ st Hn))
      as Hadd end.
  destruct (attempt (ie_note e) _ _ _) as [added d1]. simpl in Hadd.
  destruct (internal_or _ added); [|done].
  match goal with |- context [attempt (ie_expire e) ?m _ _] =>
    pose proof (attempt_same_at k (ie_expire e) m (ie_expire_lua e) d1
      (λ st, EXPIRE_same_at k _ _ st Hn)) as Hexp end.
  destruct (attempt (ie_expire e) _ _ _) as [kept d2]. unfold same_at in *. simpl in *. congruence.
Qed.

(** The stream ends with the entry. *)
Definition stream_ends (sk sid : string) (fs : list string) (before : list (string * list string))
    (until : option Z) (d : hubdb) : Prop :=
  hd_keys d !! sk = Some (mkEntry (VStream (before ++ [(sid, fs)])) until).

Lemma ingest_script_adds seen sk ttl maxlen fs acl refused st sid st' :
  (1 ≤ maxlen)%Z → ingest_script seen sk ttl maxlen fs acl refused st = (Ok (Some sid), st') →
  ∃ before until, stream_ends sk sid fs before until (ls_db st').
Proof.
  intros Hmax. unfold ingest_script, lbind, redis_EXISTS, redis_TYPE, lread, lret. cbn.
  destruct (bool_decide _); cbn; [done|]. destruct (_ && _); [done|].
  destruct (bool_decide (acl = _)); [done|]. unfold redis_DEL, redis_SET_EX, lread.
  destruct (lwrite _ st) as [[[]|] s1]; [|done]. destruct (_ || _); [done|].
  destruct (lwrite _ s1) as [[[]|] s2]; [|done]. unfold pcall, xadd_unless.
  destruct refused.
  { cbn. by match goal with |- context [lwrite ?f s2] => destruct (lwrite f s2) as [[]] end. }
  unfold redis_XADD, lbind, redis_TYPE, lread, lwrite, lret. cbn.
  match goal with |- context [if ?b then lerr _ else _] => destruct b end; cbn.
  { by destruct (lua_writes (ls_env s2)) as [[|]|]. }
  assert (∀ trim now d, ∃ before until, stream_ends sk (hd "0-1" (lua_ids (ls_env s2))) fs before until
    (append_entry sk maxlen (hd "0-1" (lua_ids (ls_env s2))) fs trim d now)) as Hend.
  { intros trim now d. unfold stream_ends, append_entry. cbn [hd_keys].
    set (l := stream_entries d now sk). eexists (drop _ l), _. rewrite lookup_insert_eq.
    do 3 f_equal. rewrite drop_app_le; [done|]. rewrite length_app. simpl. lia. }
  destruct (lua_writes (ls_env s2)) as [[|n]|]; cbn; [done|intros [= <- <-]; apply Hend..].
Qed.
(** Reading after this cursor includes the identifier. *)
Definition beyond (after sid : string) : Prop :=
  after = "" ∨ after = "0-0" ∨
  ∃ r q, stream_rank after = Some r ∧ stream_rank sid = Some q ∧ (r < q)%Z.

Lemma xrange_last after (l : list (string * list string)) x n :
  beyond after x.1 → length l < n →
  ∃ l', xrange_entries (range_start after) n (l ++ [x]) = Ok (l' ++ [x]).
Proof.
  intros Hb Hn. unfold xrange_entries, range_start.
  assert (∀ l' : list (string * list string), length l' ≤ length l → take n (l' ++ [x]) = l' ++ [x])
    as Htake by (intros l' Hl; apply take_ge; rewrite length_app; simpl; lia).
  destruct Hb as [-> | [-> | (r & q & Er & Eq & Hlt)]]; [by exists l; rewrite Htake..|].
  destruct (_ || is_empty after); [by exists l; rewrite Htake|].
  rewrite bool_decide_eq_false_2 by done.
  rewrite strip_prefix_app, bind_Some_l, Er.
  rewrite List.filter_app. cbn [List.filter]. rewrite Eq, (proj2 (Z.ltb_lt _ _)) by done.
  eexists. rewrite Htake; [done|]. pose proof (filter_length_le
    (λ e, match stream_rank e.1 with Some q => (r <? q)%Z | None => false end) l). lia.
Qed.

Lemma live_until d now k v until :
  hd_keys d !! k = Some (mkEntry v until) → (∀ t, until = Some t → now < t)%Z →
  live_entry d now k = Some v.
Proof.
  intros E Ht. unfold live_entry. rewrite E. destruct until as [t|]; [|done]. simpl.
  by rewrite (proj2 (Z.leb_gt _ _)) by by apply Ht.
Qed.

(** The last message of a reply. *)
Lemma decode_last msg origin sid (l : list (string * list string)) :
  readable msg = true → filled origin = true → m_origin_hub msg = Some origin → utf8 sid = true →
  let reply := map (λ e : string * list string,
                      ArrayValue [BulkString e.1; ArrayValue (map BulkString e.2)]) in
  let decode := map (λ '(stream_id, fs), set_stream_id (decode_stream_entry fs) stream_id) in
  decode (parse_xrange_result (reply (l ++ [(sid, flat (synced_fields msg origin))]))) =
  decode (parse_xrange_result (reply l)) ++ [set_stream_id msg sid].
Proof.
  intros Hr Hf Eo Hu. cbn zeta. unfold parse_xrange_result. rewrite map_app, omap_app, map_app. f_equal.
  apply bool_decide_eq_true in Hu.
  transitivity [set_stream_id (decode_stream_entry (stored_fields msg origin)) (from_utf8_lossy sid)];
    [reflexivity|]. by rewrite Hu, decode_stored.
Qed.

(** A pulled message that was just stored reads back as it was pulled, whatever was
    in the stream and whatever became of its notification: the stream ends with its
    entry, and reading from any cursor before that, while the stream lives, ends with the
    message. That message is not pushed back: no hub but its origin's would send it. *)
Theorem pulled_reads_back (s : SyncSettings) (msg : Message) (origin : string) (e : ingest_env)
    (d d' : hubdb) (sent : list Message) :
  m_origin_hub msg = Some origin → readable msg = true → filled origin = true →
  (1 ≤ ss_stream_maxlen s)%Z → notification_stream_key (m_to msg) ≠ ss_stream_key s →
  ingest_synced_message s msg e d = (Ok Ingested, d', sent) →
  ∃ sid before until,
    stream_ends (ss_stream_key s) sid (flat (synced_fields msg origin)) before until d' ∧
    (∀ after n e2, beyond after sid → length before < n → utf8 sid = true →
       (∀ t, until = Some t → lua_now e2 < t)%Z →
       ∃ ms, read_messages_after s after n Delivered e2 d' =
         (Ok (ms ++ [set_stream_id msg sid]), d')) ∧
    ∀ hub, hub ≠ origin → pushable (set_stream_id msg sid) hub = false.
Proof.
  intros Eo Hr Hfo Hmax Hnote. unfold ingest_synced_message. rewrite Eo.
  assert (∃ a t, origin = String a t) as (a & t & Ea).
  { apply filled_spec in Hfo as [_ Hne]. destruct origin; [done|by eexists _, _]. }
  rewrite Ea. rewrite <- Ea. destruct (is_empty (m_id msg)); [done|].
  unfold xadd_synced. destruct (attempt (ie_call e) _ _ d) as [r d1] eqn:E. cbn.
  destruct r as [[sid|]|err]; cbn; [|done..]. intros [= <- _].
  pose proof (notifications_same_at (ss_stream_key s) e (set_stream_id msg sid) d1 Hnote) as Hsame.
  apply attempt_cases in E as [(_ & _ & Hx)|(r0 & st & E & -> & [<- | Hx])]; [done| |done].
  apply ingest_script_adds in E as (before & until & Hend); [|done].
  exists sid, before, until. unfold stream_ends in *. unfold same_at in Hsame. rewrite Hsame.
  split_and!; [done| |].
  - intros after n e2 Hb Hn Hu Ht. unfold read_messages_after. cbn [attempt]. unfold redis_XRANGE, lread.
    cbn [ls_db ls_env]. rewrite <- Hsame in Hend. rewrite (live_until _ _ _ _ _ Hend Ht).
    destruct (xrange_last after before (sid, flat (synced_fields msg origin)) n Hb Hn) as [l' ->].
    cbn [rbind internal_or map_err]. eexists. f_equal. f_equal. by apply decode_last.
  - intros hub Hne. unfold pushable. cbn. rewrite Eo. by rewrite bool_decide_eq_false_2.
Qed.

(** ** Presence *)

(** The row at [key] is readable and as new as [ts] or newer. *)
Definition as_new (key : string) (ts now : Z) (d : hubdb) : Prop :=
  ∃ text p t, live_entry d now key = Some (VString text) ∧ presence_of_text text = Some p ∧
    parse_timestamp_utc (p_timestamp_utc p) = Ok t ∧ (ts ≤ t)%Z.

(** What the other users of the server made of [d]. *)
Inductive by_others (es : list presence_env) (d : hubdb) : hubdb → Prop :=
  | by_refl : by_others es d d
  | by_before e d1 : e ∈ es → by_others es d d1 → by_others es d (pe_before e d1)
  | by_between e d1 : e ∈ es → by_others es d d1 → by_others es d (pe_between e d1).

(** The one write of a merge: over a row that is older, unreadable or absent, for no
    longer than the row has left. *)
Definition merged (key text : string) (p : Presence) (local_hub : string) (now : Z)
    (d1 d' : hubdb) : Prop :=
  ∃ ts ttl at_ms, parse_timestamp_utc (p_timestamp_utc p) = Ok ts ∧
    ¬ as_new key ts at_ms d1 ∧ (0 < ttl ≤ p_ttl_seconds p)%Z ∧
    (ts + p_ttl_seconds p * NANOS > now)%Z ∧
    (vget (p_metadata p) "origin_hub" ≫= as_str) ≠ Some local_hub ∧
    d' = set_keys d1 (<[key := mkEntry (VString text) (Some (at_ms + ttl * 1000)%Z)]> (hd_keys d1)).

Lemma synced_presence_ttl_Some p loc hub now ttl :
  synced_presence_ttl p loc hub now = Ok (Some ttl) →
  ∃ ts, parse_timestamp_utc (p_timestamp_utc p) = Ok ts ∧ (0 < ttl ≤ p_ttl_seconds p)%Z ∧
    (ts + p_ttl_seconds p * NANOS > now)%Z ∧
    (vget (p_metadata p) "origin_hub" ≫= as_str) ≠ Some hub ∧
    ∀ l t, loc = Some l → parse_timestamp_utc (p_timestamp_utc l) = Ok t → (t < ts)%Z.
Proof.
  unfold synced_presence_ttl. case_bool_decide as Eo; [done|].
  intros [ts [Ets E]]%rbind_Ok. exists ts. revert E. cbn zeta.
  destruct (Z.leb_spec (Z.min (p_ttl_seconds p) I64_MAX - Z.max (Z.quot (now - ts) NANOS) 0) 0)
    as [|Hpos]; [done|].
  assert (ts + p_ttl_seconds p * NANOS > now)%Z as Hnow.
  { destruct (Z.le_gt_cases 0 (now - ts)) as [Hge|]; [|unfold NANOS in *; lia].
    pose proof (Z.quot_rem' (now - ts) NANOS). pose proof (Z.rem_bound_pos (now - ts) NANOS).
    unfold NANOS in *. lia. }
  destruct loc as [l|].
  - destruct (parse_timestamp_utc (p_timestamp_utc l)) as [t|] eqn:El.
    + destruct (Z.leb_spec ts t); [done|]. intros [= <-]. split_and!; try done; try lia.
      intros l' t' [= <-] Et. rewrite El in Et. injection Et as <-. done.
    + intros [= <-]. split_and!; try done; try lia. intros l' t' [= <-] Et. congruence.
  - intros [= <-]. split_and!; try done; lia.
Qed.

Lemma presence_cas_cases key cur text ttl e d :
  let '(r, st) := presence_cas_script key cur text ttl (mkLuaState d e) in
  (r ≠ Ok true ∧ ls_db st = d) ∨
  (r = Ok true ∧
   (∀ row, live_entry d (lua_now e) key = Some (VString row) → cur = Some row) ∧
   ls_db st = set_keys d (<[key := mkEntry (VString text) (Some (lua_now e + ttl * 1000)%Z)]>
                            (hd_keys d))).
Proof.
  unfold presence_cas_script, redis_GET, redis_SET_EX, lbind, lread, lwrite, lret. cbn.
  destruct (live_entry d (lua_now e) key) as [[row| | |]|]; cbn; [|by left..|].
  - destruct cur as [v|]; cbn; [|by left]. case_bool_decide as Ev; cbn; [|by left].
    destruct (_ || _); [by left|]. destruct (lua_writes e) as [[|n]|]; cbn; [by left|right..]; split_and!; try done; congruence.
  - destruct cur as [v|]; cbn; [by left|].
    destruct (_ || _); [by left|]. destruct (lua_writes e) as [[|n]|]; cbn; [by left|right..]; by split_and!.
Qed.

Lemma presence_attempt_cases key text p hub now e d r d' :
  presence_attempt key text p hub now e d = (r, d') →
  ∃ d1, (d1 = pe_before e d ∨ d1 = pe_between e (pe_before e d)) ∧
    ((r ≠ Ok (Some true) ∧ d' = d1) ∨
     ((r = Ok (Some true) ∨ is_ok r = false) ∧ merged key text p hub now d1 d')).
Proof.
  unfold presence_attempt.
  destruct (attempt (pe_get e) _ _ _) as [existing d1] eqn:Eg.
  assert (d1 = pe_before e d) as ->.
  { apply attempt_cases in Eg as [(_ & -> & _)|(r0 & st & E & -> & _)]; [done|].
    unfold redis_GET, lread in E. by injection E as _ <-. }
  destruct (internal_or "GET presence failed" existing) as [cur|err].
  2: { intros [= <- <-]. exists (pe_before e d). auto. }
  destruct (synced_presence_ttl p (cur ≫= presence_of_text) hub now) as [[ttl|]|err] eqn:Et;
    [|intros [= <- <-]; exists (pe_before e d); auto..].
  destruct (compare_and_set_presence key cur text ttl e (pe_between e (pe_before e d)))
    as [w d2] eqn:Ec. intros [= <- <-]. exists (pe_between e (pe_before e d)). split; [by right|].
  revert Ec. generalize (pe_between e (pe_before e d)) as d1. intros d1.
  unfold compare_and_set_presence. destruct (attempt (pe_cas e) _ _ _) as [w0 d3] eqn:Ea.
  intros [= <- <-]. pose proof (presence_cas_cases key cur text ttl (pe_cas_lua e) d1) as Hc.
  apply attempt_cases in Ea as [(_ & -> & Hr)|(r0 & st & E & -> & Hr)].
  { left. split; [by destruct w0|done]. }
  rewrite E in Hc. destruct Hc as [[Hr0 ->]|(-> & Hrow & ->)].
  - left. split; [|done]. destruct Hr as [-> | Hr]; [|by destruct w0].
    destruct r0 as [[]|]; done.
  - right. split.
    { destruct Hr as [-> | Hr]; [by left|right]. by destruct w0. }
    apply synced_presence_ttl_Some in Et as (ts & Ets & Httl & Hnow' & Hhub & Hold).
    exists ts, ttl, (lua_now (pe_cas_lua e)). split_and!; try done; try lia.
    intros (row & q & t & Hl & Hq & Ht & Hle). apply Hrow in Hl as ->.
    specialize (Hold q t Hq Ht). lia.
Qed.

Lemma presence_attempts_cases fuel key text p hub now es0 : ∀ es d r d',
  es ⊆ es0 → presence_attempts fuel key text p hub now es d = (r, d') →
  ∃ d1, by_others es0 d d1 ∧
    ((r ≠ Ok true ∧ d' = d1) ∨
     ((r = Ok true ∨ is_ok r = false) ∧ merged key text p hub now d1 d')).
Proof.
  induction fuel as [|fuel IH]; intros es d r d' Hes; cbn [presence_attempts].
  { intros [= <- <-]. exists d. split; [constructor|by left]. }
  set (e := hd _ es). destruct (presence_attempt key text p hub now e d) as [r1 d2] eqn:E1.
  apply presence_attempt_cases in E1 as (d1 & Hd1 & Hcase).
  assert (by_others es0 d d1) as Hby.
  { destruct es as [|e' es']; simpl in e.
    - destruct Hd1 as [-> | ->]; constructor.
    - assert (e' ∈ es0) by (apply Hes; left).
      destruct Hd1 as [-> | ->]; [|apply by_between; [done|]]; apply by_before; by try constructor. }
  destruct r1 as [[b|]|err].
  - intros [= <- <-]. exists d1. split; [done|].
    destruct Hcase as [[Hne ->]|[[Hb|] Hm]]; [left|right|done]; (split; [|done]); [congruence|].
    left. congruence.
  - intros E2. destruct Hcase as [[_ ->]|[[|] _]]; [|done..].
    apply IH in E2 as (d3 & Hby3 & Hcase); [|intros x Hx; apply Hes; by destruct es; [|right]].
    exists d3. split; [|done]. clear -Hby Hby3. induction Hby3; [done|by constructor..].
  - intros [= <- <-]. exists d1. split; [done|].
    destruct Hcase as [[Hne ->]|[_ Hm]]; [by left|right; by split; [right|]].
Qed.

(** Merging a pulled presence writes at most once, and never over a local row that is
    as new or newer, expired, or the hub's own echo: whatever the other users of the
    server do before and between its calls, the store is what they made of it, or that
    with the pulled row put over an older, unreadable or absent one for at most the time
    the row has left. It says written only if it was. *)
Theorem presence_never_masked (s : SyncSettings) (p : Presence) (local_hub : string) (now : Z)
    (es : list presence_env) (d : hubdb) (r : Result bool) (d' : hubdb) :
  apply_synced_presence s p local_hub now es d = (r, d') →
  ∃ d1, by_others es d d1 ∧
    ((r ≠ Ok true ∧ d' = d1) ∨
     ((r = Ok true ∨ is_ok r = false) ∧
      merged (ss_presence_prefix s +:+ p_agent p) (presence_text p) p local_hub now d1 d')).
Proof. apply presence_attempts_cases. done. Qed.
End store.

(** ** On concrete inputs *)

Section demo.
#[local] Existing Instances bit_chrono bit_store bit_entry bit_hub any_uuid.

Definition pull_settings : SyncSettings :=
  mkSyncSettings "agent_bus:messages" 1000 "agent_bus:presence:".

Definition pulled : Message := sync_message "m-1" "note" (Some "there") None.

Definition pull_env (call : delivery) (refused : bool) : ingest_env :=
  mkIngestEnv call (mkLua 9 None ["1-1"] 0) None refused true "fresh" Delivered
    (mkLua 9 None ["1-2"] 0) LostAfter (mkLua 9 None [] 0).

(** Lost on the way, refused, stored with the answer lost, and again. *)
Definition pull_rounds : list ((hubdb → hubdb) * Message * ingest_env) :=
  [(λ d, d, pulled, pull_env LostBefore false); (λ d, d, pulled, pull_env Delivered true);
   (λ d, d, pulled, pull_env LostAfter false); (λ d, d, pulled, pull_env Delivered false)].

Definition empty_db : hubdb := mkHubDb ∅ [] [].
Definition after_pulls : list (Result IngestOutcome) * hubdb :=
  ingest_rounds pull_settings pull_rounds empty_db.

Lemma ingest_once_witness :
  map is_ok after_pulls.1 = [false; false; false; true] ∧
  synced_copies "agent_bus:messages" "there" "m-1" after_pulls.2 ≤ 1 ∧
  (existsb is_ok after_pulls.1 = true →
   synced_copies "agent_bus:messages" "there" "m-1" after_pulls.2 = 1) ∧
  length (List.filter is_ingested after_pulls.1) ≤ 1.
Proof.
  split; [by vm_compute|].
  apply (ingest_once pull_settings "there" "m-1" 0 pull_rounds empty_db);
    [done|done|by vm_compute|by repeat constructor|done|done|exact (surjective_pairing after_pulls)].
Defined.

Definition pulled_once : Result IngestOutcome * hubdb * list Message :=
  ingest_synced_message pull_settings pulled (pull_env Delivered false) empty_db.

Lemma pulled_reads_back_witness :
  ∃ sid before until,
    stream_ends "agent_bus:messages" sid (flat (synced_fields pulled "there")) before until
      pulled_once.1.2 ∧
    (∀ after n e2, beyond after sid → length before < n → utf8 sid = true →
       (∀ t, until = Some t → lua_now e2 < t)%Z →
       ∃ ms, read_messages_after pull_settings after n Delivered e2 pulled_once.1.2 =
         (Ok (ms ++ [set_stream_id pulled sid]), pulled_once.1.2)) ∧
    ∀ hub, hub ≠ "there" → pushable (set_stream_id pulled sid) hub = false.
Proof.
  apply (pulled_reads_back pull_settings pulled "there" (pull_env Delivered false) empty_db
           pulled_once.1.2 pulled_once.2); done || by vm_compute.
Defined.

(** A row of an instant, and a newer row arriving between the two calls. *)
Definition row_at (us : Z) (d : hubdb) : hubdb :=
  set_keys d (<["agent_bus:presence:agent" := mkEntry (VString (pos_text (encode us))) None]>
                (hd_keys d)).

Definition raced_env : presence_env :=
  mkPresenceEnv (λ d, d) Delivered (mkLua 9 None [] 0) (row_at 30) Delivered (mkLua 9 None [] 0).

Definition raced_row : Presence := stamped_presence (pos_text (encode 20%Z)).

Definition raced : Result bool * hubdb :=
  apply_synced_presence pull_settings raced_row "here" 50000 [raced_env] (row_at 10 empty_db).

Lemma presence_never_masked_witness :
  raced.1 = Ok false ∧
  hd_keys raced.2 !! "agent_bus:presence:agent" =
    Some (mkEntry (VString (pos_text (encode 30%Z))) None) ∧
  ∃ d1, by_others [raced_env] (row_at 10 empty_db) d1 ∧
    ((raced.1 ≠ Ok true ∧ raced.2 = d1) ∨
     ((raced.1 = Ok true ∨ is_ok raced.1 = false) ∧
      merged (ss_presence_prefix pull_settings +:+ p_agent raced_row) (presence_text raced_row)
        raced_row "here" 50000 d1 raced.2)).
Proof.
  do 2 (split; [by vm_compute|]).
  apply (presence_never_masked pull_settings raced_row "here" 50000 [raced_env] (row_at 10 empty_db)
           raced.1 raced.2).
  exact (surjective_pairing raced).
Defined.
End demo.
