(* ===== verification/SyncSteps.v ===== *)
(** * SyncSteps: every step of a pass keeps the engine's invariant

    Triples over the steps of [CloudSync], and the invariant of [SyncFacts] through
    each of them, on success and on failure. *)

From Stdlib Require Import ZArith Lia Ascii.
From stdpp Require Import base option list strings gmap sorting.
From S2P Require Import Prelude Str Json Validation McpSchema ClaimTypes HubTypes Candidates.
From S2P Require Import Redis Channels Messages StreamEntry ReplayScript OutboxHub SyncStore CloudSync.
From S2P Require Import StreamFacts SyncFacts.

(** ** Triples *)

Section triples.
Context {W : Type}.

(** On success [Q], on failure [E]. *)
Definition striple {A} (P : sync W → Prop) (m : sm W A) (Q : A → sync W → Prop)
    (E : sync W → Prop) : Prop :=
  ∀ s, P s → match m s with (Ok a, s') => Q a s' | (Err _, s') => E s' end.

Lemma striple_bind {A B} P (R : A → sync W → Prop) (Q : B → sync W → Prop) E (m : sm W A)
    (k : A → sm W B) :
  striple P m R E → (∀ a, striple (R a) (k a) Q E) → striple P (sbind m k) Q E.
Proof.
  intros Hm Hk s HP. specialize (Hm s HP). unfold sbind. destruct (m s) as [[a|e] s']; [|done].
  by apply Hk.
Qed.

Lemma striple_ret {A} (P : sync W → Prop) (a : A) Q E : (∀ s, P s → Q a s) → striple P (sret a) Q E.
Proof. intros HQ s HP. by apply HQ. Qed.

Lemma striple_fail {A} (P : sync W → Prop) e (Q : A → sync W → Prop) (E : sync W → Prop) :
  (∀ s, P s → E s) → striple P (sfail e) Q E.
Proof. intros HE s HP. by apply HE. Qed.

Lemma striple_weaken {A} (P P' : sync W → Prop) (Q Q' : A → sync W → Prop) (E : sync W → Prop) m :
  (∀ s, P s → P' s) → (∀ a s, Q' a s → Q a s) → striple P' m Q' E → striple P m Q E.
Proof.
  intros HP HQ Ht s Hs. specialize (Ht s (HP s Hs)). destruct (m s) as [[a|e] s']; [by apply HQ|done].
Qed.

Lemma striple_engine P E : striple P get_engine (λ e s, P s ∧ sy_engine s = e) E.
Proof. intros s HP. by split. Qed.

Lemma striple_pure {A} (φ : Prop) P (m : sm W A) Q E :
  (φ → striple P m Q E) → striple (λ s, P s ∧ φ) m Q E.
Proof. intros Hm s [HP Hφ]. by apply Hm. Qed.
End triples.

(** ** Saving *)

Section saving.
Context `{CursorText}.

Lemma replace_state_file durable text d r d' :
  replace_state durable text d = (r, d') →
  (dk_file d' = Some text) ∨ (dk_file d' = dk_file d ∧ is_ok r = false).
Proof.
  unfold replace_state. destruct (hd SaveOk (dk_saves d)); intros [= <- <-]; simpl; auto.
Qed.

Lemma save_rejection_file c d r d' :
  save_rejection_cursors c d = (r, d') →
  (dk_file d' = Some (cursors_text c)) ∨ (dk_file d' = dk_file d ∧ is_ok r = false).
Proof.
  unfold save_rejection_cursors. destruct (_ <? _)%Z; [intros [= <- <-]; auto|].
  apply replace_state_file.
Qed.

Lemma save_cursors_file c d r d' :
  save_cursors c d = (r, d') →
  (dk_file d' = Some (cursors_text c)) ∨ (dk_file d' = dk_file d ∧ is_ok r = false).
Proof.
  unfold save_cursors. destruct (_ || _); [apply save_rejection_file|apply replace_state_file].
Qed.
End saving.

(** ** What the calls of a pass keep

    A predicate that survives the evolution of the world, a saved file, and new
    positions for presence and pulling survives everything a pass does besides pushing
    messages. *)

Section stable.
Context `{CursorText} {W : Type} `{!LocalStore W} `{!CloudApi W} `{!SyncClock W} `{!StreamView W}
  `{!StreamLaws W}.
Abbreviation world := (W * list push_record)%type.

Class Stable (P : sync world → Prop) : Prop := {
  stable_ok s : P s → world_ok (sy_world s).1;
  stable_world e st d w l w' : P (mkSync e st d (w, l)) → evolves w w' →
    P (mkSync e st d (w', l));
  stable_status e st st' d wl : P (mkSync e st d wl) → P (mkSync e st' d wl);
  stable_file e st d d' wl : P (mkSync e st d wl) →
    dk_file d' = Some (cursors_text (en_cursors e)) ∨ dk_file d' = dk_file d →
    P (mkSync e st d' wl);
  stable_cursors e st d wl c : P (mkSync e st d wl) →
    push_stream_id c = push_stream_id (en_cursors e) →
    rejection_receipts c = rejection_receipts (en_cursors e) →
    P (mkSync (set_cursors e c) st d wl);
  stable_presence e st d wl t : P (mkSync e st d wl) → P (mkSync (set_presence_pull e t) st d wl);
}.

Section at_engine.
Context (P : sync world → Prop) `{!Stable P}.

(** The predicate, with this engine. *)
Definition inv_at (e : Engine) (s : sync world) : Prop := P s ∧ sy_engine s = e.

Lemma ask_inv {A} what (f : W → result string A * W) e :
  (∀ w, world_ok w → evolves w (f w).2) →
  striple (inv_at e) (ask what (on_fst f)) (λ _, inv_at e) P.
Proof.
  intros Hf [e' st d [w l]] [Hs He]. simpl in He. subst e'. unfold ask, on_fst. simpl.
  specialize (Hf w (stable_ok _ Hs)).
  destruct (f w) as [[a|err] w']; simpl in *; [split; [|done]|]; by eapply stable_world.
Qed.

Lemma time_inv (f : W → Z * W) e :
  (∀ w, world_ok w → evolves w (f w).2) →
  striple (inv_at e) (tell_time (on_fst f)) (λ _, inv_at e) P.
Proof.
  intros Hf [e' st d [w l]] [Hs He]. simpl in He. subst e'. unfold tell_time, on_fst. simpl.
  specialize (Hf w (stable_ok _ Hs)). destruct (f w) as [t w']; simpl in *.
  split; [|done]. by eapply stable_world.
Qed.

Lemma status_inv f e : striple (inv_at e) (change_status f) (λ _, inv_at e) P.
Proof. intros [e' st d wl] [Hs He]. split; [by eapply stable_status|done]. Qed.

Lemma depth_inv e : striple (inv_at e) set_depth (λ _, inv_at e) P.
Proof.
  unfold set_depth. eapply striple_bind; [apply striple_engine|]. intros e'.
  eapply striple_weaken; [| |apply (status_inv _ e)]; [by intros s [? _]|done].
Qed.

Lemma persist_inv e : striple (inv_at e) persist (λ _, inv_at e) P.
Proof.
  unfold persist. eapply striple_bind; [apply striple_engine|]. intros e'.
  destruct (en_state_path e'); [|apply striple_ret; by intros s [? _]].
  intros [e1 st d wl] [[Hs He] He']. simpl in He, He'. subst e1 e'. unfold on_disk. simpl.
  destruct (save_cursors (en_cursors e) d) as [r d'] eqn:E. split; [|done].
  eapply stable_file; [done|]. apply save_cursors_file in E as [E|[E _]]; auto.
Qed.

(** Changing what the queue and the push cursor do not depend on. *)
Lemma put_cursors_inv e c :
  push_stream_id c = push_stream_id (en_cursors e) →
  rejection_receipts c = rejection_receipts (en_cursors e) →
  striple (inv_at e) (put_engine (set_cursors e c)) (λ _, inv_at (set_cursors e c)) P.
Proof.
  intros Hp Hr [e' st d wl] [Hs He]. simpl in He. subst e'. split; [|done].
  by apply stable_cursors.
Qed.

(** A step from the engine it finds. *)
Lemma striple_at {A} (m : sm world A) (Q : A → sync world → Prop) :
  (∀ e, striple (inv_at e) m Q P) → striple P m Q P.
Proof. intros Hm s Hs. by apply (Hm (sy_engine s)). Qed.

Lemma striple_get {A} e (k : Engine → sm world A) (Q : A → sync world → Prop) :
  striple (inv_at e) (k e) Q P → striple (inv_at e) (sbind get_engine k) Q P.
Proof. intros Hk s Hs. unfold sbind, get_engine. destruct Hs as [Hs <-]. by apply Hk. Qed.

Lemma forget_engine {A} (m : sm world A) e e' :
  striple (inv_at e) m (λ _, inv_at e') P → striple (inv_at e) m (λ _, P) P.
Proof. intros Hm. eapply striple_weaken; [| |exact Hm]; [done|by intros _ s [? _]]. Qed.

(** New cursors for presence or pulling, saved. *)
Lemma cursors_persist_inv e c {A} (k : sm world A) Q :
  push_stream_id c = push_stream_id (en_cursors e) →
  rejection_receipts c = rejection_receipts (en_cursors e) →
  striple P k Q P → ∀ g : Z → CloudSyncStatus → CloudSyncStatus,
  striple (inv_at e)
    (sbind (put_engine (set_cursors e c)) (λ _, sbind persist (λ _,
       sbind (tell_time wall_ms) (λ t, sbind (change_status (g t)) (λ _, k))))) Q P.
Proof.
  intros Hp Hr Hk g. eapply striple_bind; [by apply put_cursors_inv|]. intros [].
  eapply striple_bind; [apply persist_inv|]. intros [].
  eapply striple_bind; [apply (time_inv wall_ms); by apply wall_law|]. intros t.
  eapply striple_bind; [apply status_inv|]. intros [].
  eapply striple_weaken; [| |exact Hk]; [by intros s [? _]|done].
Qed.

Lemma presence_rounds_inv n : striple P (presence_rounds n) (λ _, P) P.
Proof.
  induction n as [|n IH]; [by apply striple_ret|]. cbn [presence_rounds].
  apply striple_at. intros e. apply striple_get.
  eapply striple_bind; [apply (ask_inv _ (presence_after _ _)); intros; by apply presence_after_law|].
  intros rows. destruct (map fst rows) as [|i rest]; [apply striple_ret; by intros s [? _]|].
  eapply striple_bind.
  { apply (ask_inv _ (cloud_push_presence _)). intros. by apply cloud_push_presence_law. }
  intros o. apply striple_get.
  apply (cursors_persist_inv e _); [done|done|].
  destruct (_ <=? _)%nat; [exact IH|by apply striple_ret].
Qed.

Lemma ingest_page_inv e hub ms : striple (inv_at e) (ingest_page hub ms) (λ _, inv_at e) P.
Proof.
  induction ms as [|m ms IH]; [by apply striple_ret|]. cbn [ingest_page].
  apply (striple_bind _ (λ _, inv_at e)); [|intros []; exact IH].
  destruct (foreign hub m); [|by apply striple_ret].
  eapply striple_bind; [apply (ask_inv _ (ingest_message m)); intros; by apply ingest_law|].
  intros o. by apply striple_ret.
Qed.

Lemma pull_round_inv : striple P pull_round (λ _, P) P.
Proof.
  unfold pull_round. apply striple_at. intros e. apply striple_get.
  eapply striple_bind; [apply (ask_inv _ (cloud_pull _ _ _)); intros; by apply cloud_pull_law|].
  intros page. eapply striple_bind; [apply ingest_page_inv|]. intros [].
  apply striple_get. apply (cursors_persist_inv e _); [done|done|]. by apply striple_ret.
Qed.

Lemma pull_messages_inv fuel : striple P (pull_messages fuel) (λ _, P) P.
Proof.
  induction fuel as [|fuel IH]; [by apply striple_ret|]. cbn [pull_messages].
  eapply striple_bind; [apply pull_round_inv|]. intros []; [exact IH|by apply striple_ret].
Qed.

Lemma apply_rows_inv e rows : striple (inv_at e) (apply_rows rows) (λ _, inv_at e) P.
Proof.
  induction rows as [|r rows IH]; [by apply striple_ret|]. cbn [apply_rows].
  eapply striple_bind; [apply (ask_inv _ (apply_presence _)); intros; by apply apply_presence_law|].
  intros o. exact IH.
Qed.

Lemma pull_presence_inv : striple P pull_presence (λ _, P) P.
Proof.
  unfold pull_presence. apply striple_at. intros e. apply striple_get.
  apply (striple_bind _ (λ _, inv_at e)).
  { destruct (en_last_presence_pull e); [|by apply striple_ret].
    eapply striple_bind; [apply (time_inv instant_ms); intros; by apply instant_law|].
    intros t. by apply striple_ret. }
  intros [].
  { apply striple_ret. by intros s [? _]. }
  eapply striple_bind.
  { apply (ask_inv _ cloud_pull_presence). intros. by apply cloud_pull_presence_law. }
  intros rows. eapply striple_bind; [apply apply_rows_inv|]. intros [].
  eapply striple_bind; [apply (time_inv instant_ms); intros; by apply instant_law|]. intros t.
  apply striple_get. intros [e' st d wl] [Hs He]. simpl in He. subst e'.
  by eapply stable_presence.
Qed.

(** What follows the messages in a pass. *)
Definition tick_rest (fuel : nat) : sm world (option unit) :=
  sbind push_presence (λ _, sbind (pull_messages fuel) (λ pulled,
    match pulled with
    | None => sret None
    | Some _ => sbind pull_presence (λ _, sbind (change_status record_tick_ok) (λ _, sret (Some tt)))
    end)).

Lemma tick_rest_inv fuel : striple P (tick_rest fuel) (λ _, P) P.
Proof.
  unfold tick_rest. eapply striple_bind; [apply presence_rounds_inv|]. intros [].
  eapply striple_bind; [apply pull_messages_inv|]. intros [u|]; [|by apply striple_ret].
  eapply striple_bind; [apply pull_presence_inv|]. intros [].
  eapply (striple_bind _ (λ _, P)); [|intros []; by apply striple_ret].
  apply striple_at. intros e. eapply forget_engine, status_inv.
Qed.
End at_engine.
End stable.

Lemma tick_unfold `{CursorText} {W : Type} `{!LocalStore W} `{!CloudApi W} `{!SyncClock W} fuel :
  tick (W := W * list push_record) fuel = sbind push_messages (λ _, tick_rest fuel).
Proof. reflexivity. Qed.

(** ** The invariant through pushing *)

Section steps.
Context `{CursorText} {W : Type} `{!LocalStore W} `{!CloudApi W} `{!SyncClock W} `{!StreamView W}
  `{!StreamLaws W}.
Context (hub : string) (i0 : Z) (since : W) (low : Z).
Abbreviation world := (W * list push_record)%type.
Abbreviation I := (sound hub i0 since low).
Abbreviation inv_at := (inv_at I).

(** A file with a sound cursor that has every receipt in memory. *)
Lemma file_written wl e d d' c :
  file_sound hub i0 wl e d → cursor_sound hub i0 wl c →
  rejection_receipts (en_cursors e) ⊆ rejection_receipts c →
  dk_file d' = Some (cursors_text c) ∨ dk_file d' = dk_file d → file_sound hub i0 wl e d'.
Proof.
  intros Hf Hc Hsub [E|E]; unfold file_sound in *; rewrite E; [|done].
  exists (cursors_text c), c. by rewrite text_cursors_text.
Qed.

#[local] Instance sound_stable : Stable I.
Proof.
  constructor.
  - by intros s (Hw & _).
  - intros e st d w l w' Hs Hev. pose proof Hs as (_ & Hl & _).
    by apply (sound_world hub i0 since low _ w' l Hs).
  - intros e st st' d wl Hs. exact Hs.
  - intros e st d d' wl (Hw & Hl & Hc & Hcu & Hf & Hq & Hm) Hd. split_and!; try done.
    simpl in *. by eapply file_written.
  - intros e st d wl c (Hw & Hl & Hc & [Hcu1 Hcu2] & Hf & Hq & Hm) Hp Hr.
    split_and!; try done; simpl in *.
    + split; [by rewrite Hp|]. intros m Hin Hpm Hle. rewrite Hp in Hle. rewrite Hr. by apply Hcu2.
    + unfold file_sound in *. simpl. by rewrite Hr.
    + by apply queue_sound_cursors.
    + unfold moved in *. simpl. by rewrite Hp.
  - intros e st d wl t Hs. exact Hs.
Qed.

(** *** Flushing *)

(** The cloud answered [o] to this batch. *)
Definition answered (batch : list (string * Message)) (o : PushOutcome) (s : sync world) : Prop :=
  ∃ r, r ∈ (sy_world s).2 ∧ pr_batch r = map snd batch ∧ pr_outcome r = Some o.

Lemma push_inv e batch :
  1 ≤ length batch ≤ MAX_BATCH → (∀ q, q ∈ batch → pushable q.2 hub = true) →
  striple (inv_at e) (ask "pushing messages" (cloud_push_messages (map snd batch)))
    (λ o s, inv_at e s ∧ answered batch o s) I.
Proof.
  intros Hlen Hp [e' st d [w l]] [Hs He]. simpl in He. subst e'. unfold ask. simpl.
  pose proof Hs as (Hw & Hl & _). simpl in Hw, Hl.
  pose proof (cloud_push_law (map snd batch) w Hw) as Hev.
  destruct (cloud_push_messages (map snd batch) w) as [r w']. simpl in Hev |- *.
  set (rec := mkPush (map snd batch) match r with Ok o => Some o | Err _ => None end).
  assert (sound hub i0 since low (mkSync e st d (w', l ++ [rec]))) as Hs'.
  { apply (sound_world hub i0 since low _ w' (l ++ [rec]) Hs Hev).
    - intros x Hx. apply elem_of_app. by left.
    - apply Forall_app. split; [done|]. constructor; [|constructor]. split; simpl.
      + by rewrite length_map.
      + intros m Hm. apply list_elem_of_fmap in Hm as (q & -> & Hq). by apply Hp. }
  destruct r as [o|err]; simpl; [|done]. split; [by split|].
  exists rec. split_and!; try done. apply elem_of_app. right. by apply list_elem_of_singleton.
Qed.

(** The next cursors are sound, the queue after them too, and the file has their receipts. *)
Definition ready (e : Engine) (n : nat) (next : SyncCursors) (s : sync world) : Prop :=
  let e' := set_queue e next (en_read_to e) (drop n (en_outbox e)) in
  cursor_sound hub i0 (sy_world s) next ∧
  queue_sound hub (sy_world s) e' ∧ file_sound hub i0 (sy_world s) e' (sy_disk s) ∧
  (sid_rank (push_stream_id (en_cursors e)) ≤ sid_rank (push_stream_id next))%Z.

Lemma put_ready e n next :
  striple (λ s, inv_at e s ∧ ready e n next s)
    (put_engine (set_queue e next (en_read_to e) (drop n (en_outbox e))))
    (λ _, inv_at (set_queue e next (en_read_to e) (drop n (en_outbox e)))) I.
Proof.
  intros [e' st d wl] [[Hs He] (Hc & Hq & Hf & Hr)]. simpl in *. subst e'. split; [|done].
  destruct Hs as (Hw & Hl & Hcfg & _ & _ & _ & [Hm Hlow]). split_and!; try done.
  2: { split; [done|simpl in *; lia]. }
  destruct Hcfg as (? & ? & ? & ? & ?). unfold config_sound. simpl in *. rewrite length_drop.
  split_and!; try done; lia.
Qed.

Lemma note_rejections e n o noted :
  1 ≤ n ≤ length (en_outbox e) →
  let batch := take n (en_outbox e) in
  disposed o (length batch) = true →
  add_receipts batch (po_rejected_ids o) (en_cursors e) = Ok noted →
  let next := advance e n noted in
  striple (λ s, inv_at e s ∧ answered batch o s)
    (if negb (bool_decide (po_rejected_ids o = [])) then
       match en_state_path e with
       | None => sfail "rejection receipt requires a durable state path; retaining batch"
       | Some _ => on_disk (save_rejection_cursors next)
       end
     else sret tt)
    (λ _ s, inv_at e s ∧ ready e n next s) I.
Proof.
  intros Hn batch Hd Ha next [e' st d [w l]] [[Hs He] (r & Hr & Eb & Eo)]. simpl in He, Hr. subst e'.
  pose proof Hs as (Hw & Hl & Hcfg & Hcu & Hf & Hq & Hm). simpl in Hcu, Hf, Hq.
  assert (sid_rank (push_stream_id (en_cursors e)) ≤ sid_rank (push_stream_id next))%Z as Hr'.
  { apply add_receipts_facts in Ha as (Hp & _). by apply (advance_rank hub (w, l) e n noted Hq). }
  destruct (advance_sound hub i0 w l e n noted o r Hq Hcu Hn Hr Eb Eo Hd Ha) as (Hcn & Hsub & Hqn).
  fold next in Hcn, Hsub, Hqn. case_bool_decide as Er; cbn [negb].
  - split; [by split|]. split_and!; try done. rewrite Er in Ha. injection Ha as <-.
    destruct Hf as (text & c & ? & ? & ? & ?). by exists text, c.
  - destruct (proj1 (proj2 Hcfg)) as [p Ep]. simpl in Ep. rewrite Ep. unfold on_disk. simpl.
    destruct (save_rejection_cursors next d) as [r' d'] eqn:E.
    apply save_rejection_file in E as Hfile.
    assert (file_sound hub i0 (w, l) e d') as Hf'.
    { apply (file_written _ e d d' next); [done..|]. destruct Hfile as [?|[? _]]; auto. }
    destruct r' as [[]|err]; [|by split_and!].
    split; [split; [by split_and!|done]|]. split_and!; try done.
    destruct Hfile as [Hfile|[_ ?]]; [|done].
    exists (cursors_text next), next. by rewrite text_cursors_text.
Qed.

Lemma flush_batch_inv e :
  en_outbox e ≠ [] →
  striple (inv_at e) flush_batch
    (λ _ s, I s ∧ ∃ n next, 1 ≤ n ∧
       sy_engine s = set_queue e next (en_read_to e) (drop n (en_outbox e))) I.
Proof.
  intros Hne s Hs. destruct Hs as [HI He]. unfold flush_batch.
  pose proof HI as (_ & _ & (_ & _ & Hb & _) & _ & _ & (_ & _ & Hq & _) & _). rewrite He in Hb, Hq.
  set (n := Nat.min (length (en_outbox e)) (en_batch_size e)).
  assert (1 ≤ n ≤ length (en_outbox e) ∧ n ≤ MAX_BATCH) as [Hn Hmax].
  { assert (1 ≤ length (en_outbox e)) by (destruct (en_outbox e); [done|simpl; lia]). lia. }
  revert s HI He Hb. intros s HI He _.
  refine (striple_bind (inv_at e) (λ e1 s, inv_at e s ∧ e1 = e) _ _ get_engine _ _ _ s (conj HI He)).
  { intros s1 [? ?]. by split. }
  intros e1. apply striple_pure. intros ->. fold n. cbn zeta.
  eapply striple_bind.
  { apply push_inv.
    - rewrite length_take. lia.
    - intros q Hqt. apply Hq. eapply elem_of_sublist; [exact Hqt|apply sublist_take]. }
  intros o. destruct (disposed o _) eqn:Ed; cbn [negb]; [|apply striple_fail; by intros ? [[? _] _]].
  eapply (striple_bind _ (λ noted s, (inv_at e s ∧ answered (take n (en_outbox e)) o s) ∧
    add_receipts (take n (en_outbox e)) (po_rejected_ids o) (en_cursors e) = Ok noted)).
  { intros s1 Hs1. unfold lift_r. destruct (add_receipts _ _ _) eqn:E; [done|by destruct Hs1 as [[? _] _]]. }
  intros noted. apply striple_pure. intros Ea.
  eapply striple_bind; [by apply (note_rejections e n o noted)|]. intros [].
  eapply striple_bind; [apply put_ready|]. intros [].
  eapply (striple_bind _ (λ _, inv_at
    (set_queue e (advance e n noted) (en_read_to e) (drop n (en_outbox e))))); [|intros []].
  { destruct (negb _); [by apply striple_ret|apply (persist_inv I)]. }
  eapply striple_bind; [apply (time_inv I wall_ms); by apply wall_law|]. intros t.
  eapply striple_bind; [apply (status_inv I)|]. intros [].
  eapply striple_weaken; [done| |apply (depth_inv I)]. intros _ s1 [? ?]. split; [done|].
  exists n, (advance e n noted). by split; [lia|].
Qed.

(** The invariant after a flush: nothing is left, and this was the reading position. *)
Definition emptied (r : string) (s : sync world) : Prop :=
  I s ∧ en_outbox (sy_engine s) = [] ∧ en_read_to (sy_engine s) = r.

Lemma flush_loop_inv fuel e :
  length (en_outbox e) ≤ fuel →
  striple (inv_at e) (flush_loop fuel) (λ _, emptied (en_read_to e)) I.
Proof.
  revert e. induction fuel as [|fuel IH]; intros e Hlen.
  { apply striple_ret. intros s [Hs <-]. split_and!; try done.
    destruct (en_outbox (sy_engine s)); [done|simpl in Hlen; lia]. }
  cbn [flush_loop]. apply (striple_bind _ (λ e1 s, inv_at e s ∧ e1 = e)); [by intros s [? ?]|].
  intros e1. apply striple_pure. intros ->. destruct (en_outbox e) as [|q l] eqn:Eo.
  { apply striple_ret. intros s [Hs <-]. by split_and!. }
  rewrite <- Eo in Hlen. eapply striple_bind; [apply flush_batch_inv; by rewrite Eo|].
  intros [] s (Hs & n & next & Hn & He).
  specialize (IH (sy_engine s)). rewrite He in IH. simpl in IH. rewrite length_drop in IH.
  by apply (IH ltac:(lia) s).
Qed.

Lemma flush_outbox_inv e :
  striple (inv_at e) flush_outbox
    (λ _ s, emptied (en_read_to e) s ∧
       push_stream_id (en_cursors (sy_engine s)) = en_read_to e) I.
Proof.
  unfold flush_outbox. apply (striple_bind _ (λ e1 s, inv_at e s ∧ e1 = e)); [by intros s [? ?]|].
  intros e1. apply striple_pure. intros ->. eapply striple_bind; [by apply flush_loop_inv|].
  intros [] s (Hs & Ho & Hr).
  refine (striple_bind (inv_at (sy_engine s)) (λ e1 s1, inv_at (sy_engine s) s1 ∧ e1 = sy_engine s)
    _ _ get_engine _ _ _ s (conj Hs eq_refl)); [by intros s1 [? ?]|].
  intros e1. apply striple_pure. intros ->. revert Ho Hr. generalize (sy_engine s). clear s Hs.
  intros e2 Ho Hr. case_bool_decide as Ec; cbn [negb].
  { apply striple_ret. intros s1 [Hs1 He1]. unfold emptied. rewrite He1, Ec. by split_and!. }
  eapply (striple_bind _ (λ _, inv_at (set_cursors e2 (set_push (en_cursors e2) (en_read_to e2)))));
    [|intros []].
  - intros [e' st d wl] [Hs1 He]. simpl in He. subst e'. simpl. split; [|done].
    destruct Hs1 as (Hw & Hl & Hcfg & Hcu & Hf & Hq & [Hm Hlow]). simpl in *.
    destruct (skip_sound hub i0 wl e2 Ho Hq Hcu) as [Hcu' Hq']. split_and!; try done.
    destruct Hq as [Hq _]. split; [done|simpl; lia].
  - eapply striple_weaken; [done| |apply (persist_inv I)]. intros _ s1 [Hs1 He1].
    unfold emptied. rewrite He1. by split_and!.
Qed.

(** *** Reading and loading *)

(** The chunk read at some instant [w0]. *)
Definition chunk_of (sid : string) (n : nat) (chunk : list Message) (w0 w : W) : Prop :=
  evolves since w0 ∧ evolves w0 w ∧ chunk = take n (after_id sid (entries w0)).

Lemma read_inv e n :
  striple (inv_at e) (ask "reading the local stream" (messages_after (en_read_to e) n))
    (λ chunk s, inv_at e s ∧ ∃ w0, chunk_of (en_read_to e) n chunk w0 (sy_world s).1) I.
Proof.
  intros [e' st d [w l]] [Hs He]. simpl in He. subst e'. unfold ask. simpl. unfold on_fst. simpl.
  pose proof Hs as (Hw & Hl & _ & _ & _ & _ & [Hsince _]). simpl in Hw, Hl, Hsince.
  destruct (messages_after (en_read_to e) n w) as [r w'] eqn:E.
  destruct (messages_after_law _ _ _ _ _ Hw E) as (w0 & H1 & H2 & Hr).
  assert (sound hub i0 since low (mkSync e st d (w', l))) as Hs'.
  { apply (sound_world hub i0 since low _ w' l Hs); [by eapply evolves_trans|done|done]. }
  destruct r as [chunk|err]; simpl; [|done]. split; [by split|]. exists w0.
  split_and!; [by eapply evolves_trans|done|by apply Hr].
Qed.

(** What loading a chunk does to the reading position. *)
Definition loaded (e : Engine) (chunk : list Message) (s : sync world) : Prop :=
  I s ∧ (en_outbox e = [] → last chunk ≫= m_stream_id = Some (en_read_to (sy_engine s))).

Lemma eligible_length chunk : length (eligible hub chunk) ≤ length chunk.
Proof.
  unfold eligible. induction chunk as [|m chunk IH]; [simpl; lia|]. cbn [List.filter].
  destruct (pushable m hub); [|simpl; lia]. csimpl. destruct (m_stream_id m); csimpl; lia.
Qed.

Lemma enqueue_inv e m ms :
  striple (λ s, inv_at e s ∧
             ∃ w0, chunk_of (en_read_to e) (en_batch_size e) (m :: ms) w0 (sy_world s).1)
    (enqueue (m :: ms)) (λ _, loaded e (m :: ms)) I.
Proof.
  intros [e' st d [w l]] [[Hs He] (w0 & Hw0%evolves_ok & Hev & Ech)]. simpl in He, Hev. subst e'.
  pose proof Hs as (Hw & Hl & (Hhub & Hpath & Hb & Hbc & Hcap) & Hcu & Hf & Hq & Hm). simpl in *.
  destruct (queue_sound_load hub w0 w l e _ m ms Hw0 Hev Hq Ech) as (sid & Elast & Hq').
  unfold enqueue, sbind, get_engine, put_engine, change_status, set_depth. simpl.
  rewrite Hhub, Elast. simpl. destruct (Nat.ltb_spec (en_outbox_cap e)
    (length (en_outbox e) + length (eligible hub (m :: ms)))) as [Hover|Hfit]; simpl; split.
  - split_and!; simpl; try done; [|by apply queue_sound_reread].
    split_and!; simpl; try done; lia.
  - intros Eo. exfalso. rewrite Eo in Hover. simpl in Hover.
    pose proof (eligible_length (m :: ms)) as Hel. rewrite Ech in Hel at 2.
    rewrite length_take in Hel. simpl in Hel. lia.
  - split_and!; simpl; try done; try lia. split_and!; simpl; try done; try lia.
    rewrite length_app. lia.
  - done.
Qed.

Lemma push_rounds_inv n : striple I (push_rounds n) (λ _, I) I.
Proof.
  induction n as [|n IH]; [by apply striple_ret|]. cbn [push_rounds].
  apply (striple_bind _ (λ e s, inv_at e s)); [by intros s Hs|]. intros e.
  eapply striple_bind; [apply read_inv|]. intros chunk. cbn beta.
  apply (striple_bind _ (λ _ s, I s)); [|intros []].
  { destruct chunk as [|m ms].
    - apply striple_ret. by intros s [[? _] _].
    - eapply striple_weaken; [| |apply (enqueue_inv e)]; [done|by intros _ s [? _]]. }
  intros s Hs. assert (inv_at (sy_engine s) s) as He by done. revert He.
  generalize (sy_engine s) at 1. clear Hs. revert s. intros s e1 He1.
  refine (striple_bind (inv_at e1) (λ _, I) _ _ _ _ _ _ s He1).
  - eapply striple_weaken; [done| |apply flush_outbox_inv]. by intros _ s1 [[? _] _].
  - intros []. destruct (_ <=? _)%nat; [exact IH|by apply striple_ret].
Qed.

Lemma tick_sound fuel s r s' : I s → tick fuel s = (r, s') → I s'.
Proof.
  rewrite tick_unfold. intros Hs E.
  pose proof (striple_bind I (λ _, I) (λ _, I) I push_messages (λ _, tick_rest fuel)
    (push_rounds_inv _) (λ _, tick_rest_inv I fuel) s Hs) as Ht.
  rewrite E in Ht. by destruct r.
Qed.
End steps.

#[export] Existing Instance sound_stable.
