(* ===== verification/SyncLive.v ===== *)
(** * SyncLive: catching up

    With a store that answers and a cloud that disposes of what it is given, every pass
    moves the cursor past at least one more entry of the stream, whatever else fails. *)

From Stdlib Require Import ZArith Lia Ascii.
From stdpp Require Import base option list strings gmap sorting.
From S2P Require Import Prelude Str Json Validation McpSchema ClaimTypes HubTypes Candidates.
From S2P Require Import Redis Channels Messages StreamEntry ReplayScript OutboxHub SyncStore CloudSync.
From S2P Require Import StreamFacts SyncFacts SyncSteps.

(** ** Steps that succeed *)

Lemma sbind_ok {W A B} (m : sm W A) (k : A → sm W B) s :
  is_ok (m s).1 = true → (∀ a s', m s = (Ok a, s') → is_ok (k a s').1 = true) →
  is_ok (sbind m k s).1 = true.
Proof. intros Hm Hk. unfold sbind. destruct (m s) as [[a|e] s']; [by apply Hk|done]. Qed.

Lemma tell_time_ok {W} (f : W → Z * W) s : is_ok (tell_time f s).1 = true.
Proof. unfold tell_time. by destruct (f (sy_world s)). Qed.

(** The store answers, and the cloud takes every batch. *)
Class Healthy (W : Type) `{!LocalStore W} `{!CloudApi W} : Prop := {
  reads_answer sid n (w : W) : is_ok (messages_after sid n w).1 = true;
  pushes_answer b (w : W) : 1 ≤ length b ≤ MAX_BATCH →
    ∃ o, (cloud_push_messages b w).1 = Ok o ∧ disposed o (length b) = true ∧ po_rejected_ids o = [];
}.

Section live.
Context `{CursorText} {W : Type} `{!LocalStore W} `{!CloudApi W} `{!SyncClock W} `{!StreamView W}
  `{!StreamLaws W} `{!Healthy W}.
Context (hub : string) (i0 : Z) (since : W) (low : Z).
Abbreviation world := (W * list push_record)%type.
Abbreviation I := (sound hub i0 since low).

Lemma persist_ok (s : sync world) : is_ok (persist s).1 = true.
Proof.
  unfold persist, sbind, get_engine. destruct (en_state_path (sy_engine s)); [|done].
  by destruct (on_disk _ _).
Qed.

Lemma flush_batch_ok s : I s → en_outbox (sy_engine s) ≠ [] → is_ok (flush_batch s).1 = true.
Proof.
  intros (_ & _ & (_ & _ & Hb & _) & _) Hne. unfold flush_batch. apply sbind_ok; [done|].
  intros e s1 [= <- <-]. set (batch := take _ (en_outbox (sy_engine s))).
  assert (1 ≤ length (map snd batch) ≤ MAX_BATCH) as Hlen.
  { unfold batch. rewrite length_map, length_take.
    assert (1 ≤ length (en_outbox (sy_engine s))) by (destruct (en_outbox _); [done|simpl; lia]). lia. }
  destruct (pushes_answer (map snd batch) (sy_world s).1 Hlen) as (o & Eo & Hd & Hr).
  apply sbind_ok.
  { unfold ask. cbn [cloud_push_messages recorded_cloud].
    destruct (cloud_push_messages _ (sy_world s).1) as [r w']. simpl in Eo |- *. by subst r. }
  intros o' s1. unfold ask. cbn [cloud_push_messages recorded_cloud].
  destruct (cloud_push_messages _ (sy_world s).1) as [r w']. simpl in Eo |- *. subst r.
  intros [= <- <-]. rewrite length_map in Hd. rewrite Hd, Hr. cbn [negb].
  apply sbind_ok; [done|]. intros noted s2 [= <- <-]. cbn [add_receipts].
  rewrite bool_decide_eq_true_2 by done. cbn [negb].
  apply sbind_ok; [done|]. intros [] s2 _. apply sbind_ok; [done|]. intros [] s3 _.
  apply sbind_ok; [apply persist_ok|]. intros [] s4 _.
  apply sbind_ok; [apply tell_time_ok|]. intros t s5 _.
  apply sbind_ok; [done|]. intros [] s6 _. done.
Qed.

Lemma flush_loop_ok fuel : ∀ s, I s → is_ok (flush_loop fuel s).1 = true.
Proof.
  induction fuel as [|fuel IH]; intros s Hs; [done|]. cbn [flush_loop].
  apply sbind_ok; [done|]. intros e s1 [= <- <-].
  destruct (en_outbox (sy_engine s)) as [|q l] eqn:Eo; [done|].
  assert (en_outbox (sy_engine s) ≠ []) as Hne by by rewrite Eo.
  apply sbind_ok; [by apply flush_batch_ok|]. intros [] s1 E. apply IH.
  pose proof (flush_batch_inv hub i0 since low (sy_engine s) Hne s (conj Hs eq_refl)) as Hf.
  rewrite E in Hf. by destruct Hf.
Qed.

Lemma flush_outbox_ok s : I s → is_ok (flush_outbox s).1 = true.
Proof.
  intros Hs. unfold flush_outbox. apply sbind_ok; [done|]. intros e s1 [= <- <-].
  apply sbind_ok; [by apply flush_loop_ok|]. intros [] s1 _. apply sbind_ok; [done|].
  intros e s2 [= <- <-]. case_bool_decide; cbn [negb]; [done|].
  apply sbind_ok; [done|]. intros [] s3 _. apply persist_ok.
Qed.

Lemma enqueue_ok chunk (s : sync world) : is_ok (enqueue chunk s).1 = true.
Proof.
  unfold enqueue. apply sbind_ok; [done|]. intros e s1 [= <- <-].
  apply sbind_ok; [by destruct (_ <? _)%nat|]. by intros [] s2 _.
Qed.

(** ** One more entry *)

(** After it, the outbox is empty and everything read was sent. *)
Definition calm (e : Engine) : Prop :=
  en_outbox e = [] ∧ push_stream_id (en_cursors e) = en_read_to e.

#[local] Instance calm_stable : Stable (λ s, I s ∧ calm (sy_engine s)).
Proof.
  constructor.
  - by intros s [Hs%stable_ok _].
  - intros e st d w l w' [Hs Hc] He. split; [by eapply stable_world|done].
  - intros e st st' d wl [Hs Hc]. split; [by eapply stable_status|done].
  - intros e st d d' wl [Hs Hc] Hd. split; [by eapply stable_file|done].
  - intros e st d wl c [Hs [Ho Hc]] Hp Hr. split; [by apply stable_cursors|].
    split; [done|]. simpl in *. by rewrite Hp.
  - intros e st d wl t [Hs Hc]. split; [by eapply stable_presence|done].
Qed.

(** Entries of [w0] after [c]: there are none, or [c'] has passed the first of them. *)
Definition passed (c c' : Z) (w0 : W) : Prop :=
  (∀ m, m ∈ entries w0 → (m_rank m ≤ c)%Z) ∨
  ∃ x, x ∈ entries w0 ∧ (c < m_rank x ≤ c')%Z ∧
    ∀ m, m ∈ entries w0 → (c < m_rank m)%Z → (m_rank x ≤ m_rank m)%Z.

Lemma push_rounds_ok n : ∀ s, I s → is_ok (push_rounds n s).1 = true.
Proof.
  induction n as [|n IH]; intros s Hs; [done|]. cbn [push_rounds].
  apply sbind_ok; [done|]. intros e s1 [= <- <-].
  pose proof (read_inv hub i0 since low (sy_engine s) (en_batch_size (sy_engine s)) s
    (conj Hs eq_refl)) as Hr.
  apply sbind_ok.
  { unfold ask. cbn. unfold on_fst.
    pose proof (reads_answer (en_read_to (sy_engine s)) (en_batch_size (sy_engine s))
      (sy_world s).1) as Ha.
    by destruct (messages_after _ _ (sy_world s).1) as [[] ?]. }
  intros chunk s1 E1. rewrite E1 in Hr. destruct Hr as [Hs1 Hw0].
  assert (match (match chunk with [] => sret tt | _ => enqueue chunk end) s1 with
          | (Ok _, s2) => I s2 | (Err _, _) => False end) as He.
  { destruct chunk as [|m ms]; [by destruct Hs1|].
    pose proof (enqueue_inv hub i0 since low (sy_engine s) m ms s1 (conj Hs1 Hw0)) as He.
    pose proof (enqueue_ok (m :: ms) s1) as Hok.
    destruct (enqueue (m :: ms) s1) as [[[]|] s2]; [by destruct He|done]. }
  apply sbind_ok.
  { by destruct ((match chunk with [] => sret tt | _ => enqueue chunk end) s1) as [[[]|] s2]. }
  intros [] s2 E2. rewrite E2 in He. apply sbind_ok; [by apply flush_outbox_ok|].
  intros [] s3 E3. destruct (_ <=? _)%nat; [|done]. apply IH.
  pose proof (flush_outbox_inv hub i0 since low (sy_engine s2) s2 (conj He eq_refl)) as Hf.
  rewrite E3 in Hf. by destruct Hf as [[? _] _].
Qed.

(** *** Ending calm *)

Lemma flush_calm : striple I flush_outbox
  (λ _ s, I s ∧ calm (sy_engine s)) I.
Proof.
  apply (striple_at I). intros e. eapply striple_weaken; [done| |apply flush_outbox_inv].
  intros _ s [(Hs & Ho & Hr) Hp]. split; [done|]. split; [done|]. by rewrite Hp.
Qed.

Lemma load_inv e chunk :
  striple (λ s, inv_at I e s ∧
             ∃ w0, chunk_of since (en_read_to e) (en_batch_size e) chunk w0 (sy_world s).1)
    (match chunk with [] => sret tt | _ => enqueue chunk end) (λ _, I) I.
Proof.
  destruct chunk as [|m ms].
  - apply striple_ret. by intros s [[? _] _].
  - eapply striple_weaken; [| |apply (enqueue_inv hub i0 since low e)]; [done|by intros _ s [? _]].
Qed.

(** Messages end calm, after at least one turn. *)
Lemma push_rounds_calm n :
  striple (λ s, I s ∧ (n = 0 → calm (sy_engine s))) (push_rounds n)
    (λ _ s, I s ∧ calm (sy_engine s)) I.
Proof.
  induction n as [|n IH].
  { apply striple_ret. intros s [? Hc]. split; [done|by apply Hc]. }
  cbn [push_rounds].
  apply (striple_weaken _ I _ (λ _ s, I s ∧ calm (sy_engine s))); [by intros s [Hs _]|done|].
  apply (striple_at I). intros e. apply (striple_get I).
  eapply striple_bind; [apply read_inv|]. intros chunk.
  eapply striple_bind; [apply load_inv|]. intros [].
  eapply striple_bind; [apply flush_calm|]. intros [].
  destruct (_ <=? _)%nat; [|by apply striple_ret].
  intros s [Hs Hc]. by apply (IH s).
Qed.
End live.

#[export] Existing Instance calm_stable.

Section progress.
Context `{CursorText} {W : Type} `{!LocalStore W} `{!CloudApi W} `{!SyncClock W} `{!StreamView W}
  `{!StreamLaws W} `{!Healthy W}.
Context (hub : string) (i0 : Z) (since : W) (low : Z).
Abbreviation world := (W * list push_record)%type.
Abbreviation I := (sound hub i0 since low).

(** After a pass that began at [since] with its cursor at [low]: at some later instant the
    stream held nothing more, or the cursor has passed an entry of it. *)
Definition progressed (s : sync world) : Prop :=
  ∃ w0 low', evolves since w0 ∧ (low ≤ low')%Z ∧ passed low low' w0 ∧
    sound hub i0 w0 low' s ∧ calm (sy_engine s).

(** A sound state, counted from another state of the world. *)
Lemma sound_since w0 low' s :
  I s → evolves w0 (sy_world s).1 →
  (low' ≤ sid_rank (push_stream_id (en_cursors (sy_engine s))))%Z → sound hub i0 w0 low' s.
Proof. intros (? & ? & ? & ? & ? & ? & _) He Hl. by split_and!. Qed.

(** The turns after the one that counts. *)
Lemma rest_progress w0 low' n (b : bool) :
  evolves since w0 → (low ≤ low')%Z → passed low low' w0 →
  striple (λ s, sound hub i0 w0 low' s ∧ calm (sy_engine s))
    (if b then push_rounds n else sret tt) (λ _, progressed) (λ _, True).
Proof.
  intros He Hl Hp s [Hs Hc].
  assert (striple (λ s, sound hub i0 w0 low' s ∧ (n = 0 → calm (sy_engine s))) (push_rounds n)
    (λ _ s, sound hub i0 w0 low' s ∧ calm (sy_engine s)) (sound hub i0 w0 low')) as Hn
    by apply push_rounds_calm.
  destruct b; [|by exists w0, low'].
  specialize (Hn s (conj Hs (λ _, Hc))). destruct (push_rounds n s) as [[[]|e] s']; [|done].
  destruct Hn. by exists w0, low'.
Qed.

(** A flush of what was loaded from an instant [w0], ending at or after [low']. *)
Lemma flush_progress w0 low' :
  striple (λ s, sound hub i0 w0 low s ∧ (low' ≤ sid_rank (en_read_to (sy_engine s)))%Z)
    flush_outbox (λ _ s, sound hub i0 w0 low' s ∧ calm (sy_engine s)) (λ _, True).
Proof.
  intros s [Hs Hl].
  pose proof (flush_outbox_inv hub i0 w0 low (sy_engine s) s (conj Hs eq_refl)) as Hf.
  destruct (flush_outbox s) as [[[]|e] s']; [|done]. destruct Hf as [(Hs' & Ho & Hr) Hp].
  rewrite <- Hp in Hl. split; [|split; [done|by rewrite Hp]].
  destruct Hs' as (? & ? & ? & ? & ? & ? & ? & _). by split_and!.
Qed.

(** What reading at [w0] found is passed. *)
Lemma chunk_passed sid n w0 m ms :
  world_ok w0 → sid_rank sid = low → m :: ms = take n (after_id sid (entries w0)) →
  (low ≤ m_rank m)%Z ∧ passed low (m_rank m) w0 ∧
  ∃ sid', last (m :: ms) ≫= m_stream_id = Some sid' ∧ (m_rank m ≤ sid_rank sid')%Z.
Proof.
  intros Hw Hl E.
  destruct (chunk_facts _ _ _ _ _ Hw E) as (Hsc & Hin & y & sid' & Ey & Esid & Hsid & Hmax & Hcov).
  assert (m ∈ m :: ms) as Hm by apply elem_of_cons, or_introl, eq_refl.
  destruct (Hin m Hm) as [Hm0 Hr]. split_and!; [lia| |exists sid'; rewrite Ey; by split; [|apply Hmax]].
  right. exists m. split_and!; [done|lia|lia|]. intros m' Hm' Hr'.
  destruct (Z.le_gt_cases (m_rank m') (sid_rank sid')); [|specialize (Hmax m Hm); lia].
  assert (m' ∈ m :: ms) as [-> | Hin']%elem_of_cons by (apply Hcov; [done|lia]); [lia|].
  apply StronglySorted_inv in Hsc as [_ Hsc]. rewrite Forall_forall in Hsc.
  specialize (Hsc _ Hin'). unfold before in Hsc. lia.
Qed.

Lemma turn_progress e chunk w0 n (b : bool) :
  calm e → sid_rank (push_stream_id (en_cursors e)) = low →
  striple (λ s, inv_at I e s ∧
             chunk_of since (en_read_to e) (en_batch_size e) chunk w0 (sy_world s).1)
    (sbind (match chunk with [] => sret tt | _ => enqueue chunk end)
       (λ _, sbind flush_outbox (λ _, if b then push_rounds n else sret tt)))
    (λ _, progressed) (λ _, True).
Proof.
  intros [Ho Hc] Hlow s [[Hs He] (Hsw & Hw & Ech)]. rewrite Hc in Hlow.
  assert (sound hub i0 w0 low s) as Hs0.
  { apply sound_since; [done|done|]. rewrite He, Hc. lia. }
  assert (1 ≤ en_batch_size e) as Hb by (destruct Hs as (_ & _ & (_ & _ & ? & _) & _); subst e; lia).
  destruct chunk as [|m ms].
  - assert (passed low low w0) as Hp.
    { left. intros x Hx. rewrite <- Hlow. apply Z.nlt_ge. intros Hr.
      assert (x ∈ after_id (en_read_to e) (entries w0)) as Hx'
        by (apply elem_of_filter_b; split; [done|by apply Z.ltb_lt]).
      destruct (after_id (en_read_to e) (entries w0)); [by apply elem_of_nil in Hx'|].
      by destruct (en_batch_size e); [lia|]. }
    apply (striple_bind (λ s, sound hub i0 w0 low s ∧ (low ≤ sid_rank (en_read_to (sy_engine s)))%Z)
      (λ _ s, sound hub i0 w0 low s ∧ (low ≤ sid_rank (en_read_to (sy_engine s)))%Z)); [by intros ?| |].
    + intros []. eapply striple_bind; [apply flush_progress|]. intros [].
      by apply rest_progress.
    + rewrite He. split; [done|lia].
  - destruct (chunk_passed _ _ _ _ _ (evolves_ok _ _ Hsw) Hlow Ech) as (Hlm & Hp & sid' & Elast & Hr).
    pose proof (enqueue_inv hub i0 w0 low e m ms s) as Hen. unfold sbind at 1.
    destruct (enqueue (m :: ms) s) as [[[]|err] s1]; [|done]. destruct Hen as [Hs1 Hrd].
    { split; [done|]. exists w0. by split_and!; [apply evolves_refl; eapply evolves_ok| |]. }
    specialize (Hrd Ho). rewrite Elast in Hrd. injection Hrd as Hrd.
    eapply (striple_bind _ _ _ _ _ _ (flush_progress w0 (m_rank m))).
    + intros []. by apply rest_progress.
    + by rewrite <- Hrd.
Qed.

Lemma push_progress n :
  striple (λ s, I s ∧ calm (sy_engine s) ∧ sid_rank (push_stream_id (en_cursors (sy_engine s))) = low)
    (push_rounds (S n)) (λ _, progressed) (λ _, True).
Proof.
  intros s (Hs & Hc & Hlow). assert (inv_at I (sy_engine s) s) as Hat by done. revert Hat.
  cbn [push_rounds]. unfold sbind at 1, get_engine. intros Hat.
  pose proof (read_inv hub i0 since low (sy_engine s) (en_batch_size (sy_engine s)) s Hat) as Hr.
  unfold sbind at 1. destruct (ask _ _ s) as [[chunk|err] s1]; [|done].
  destruct Hr as [Hs1 [w0 Hw0]]. apply (turn_progress _ _ w0 n _ Hc Hlow s1). by split.
Qed.

(** ** A pass *)

Lemma progressed_stable_step {A} (m : sm world A) :
  (∀ w0 low', striple (λ s, sound hub i0 w0 low' s ∧ calm (sy_engine s)) m
     (λ _ s, sound hub i0 w0 low' s ∧ calm (sy_engine s))
     (λ s, sound hub i0 w0 low' s ∧ calm (sy_engine s))) →
  ∀ s, progressed s → progressed (m s).2.
Proof.
  intros Hm s (w0 & low' & He & Hl & Hp & Hs). specialize (Hm w0 low' s Hs). exists w0, low'.
  destruct (m s) as [[a|e] s']; by destruct Hm.
Qed.

Lemma tick_split fuel s r s' :
  I s → tick fuel s = (r, s') → ∃ s1, push_messages s = (Ok tt, s1) ∧ tick_rest fuel s1 = (r, s').
Proof.
  intros Hs. rewrite tick_unfold. unfold sbind at 1.
  assert (is_ok (push_messages s).1 = true) as Hok 
    by (unfold push_messages; by apply (push_rounds_ok hub i0 since low)).
  destruct (push_messages s) as [[[]|e] s1]; [|done]. intros E. by exists s1.
Qed.

(** A pass from any sound state ends calm, whether or not it fails. *)
Lemma tick_calms fuel s r s' : I s → tick fuel s = (r, s') → I s' ∧ calm (sy_engine s').
Proof.
  intros Hs E. destruct (tick_split _ _ _ _ Hs E) as (s1 & E1 & E2).
  assert (I s1 ∧ calm (sy_engine s1)) as Hs1.
  { unfold push_messages in E1. pose proof (push_rounds_calm hub i0 since low MAX_CHUNKS_PER_TICK s) as Hp.
    rewrite E1 in Hp. apply Hp. split; [done|]. unfold MAX_CHUNKS_PER_TICK. lia. }
  pose proof (tick_rest_inv (λ s, I s ∧ calm (sy_engine s)) fuel s1 Hs1) as Ht.
  rewrite E2 in Ht. by destruct r.
Qed.

(** A pass from a calm state progresses. *)
Lemma tick_progress fuel s r s' :
  I s → calm (sy_engine s) → sid_rank (push_stream_id (en_cursors (sy_engine s))) = low →
  tick fuel s = (r, s') → progressed s'.
Proof.
  intros Hs Hc Hl E. destruct (tick_split _ _ _ _ Hs E) as (s1 & E1 & E2).
  assert (progressed s1) as Hp.
  { unfold push_messages, MAX_CHUNKS_PER_TICK in E1.
    pose proof (push_progress 19 s (conj Hs (conj Hc Hl))) as Hp. by rewrite E1 in Hp. }
  change s' with (r, s').2. rewrite <- E2. apply progressed_stable_step; [|done].
  intros w0 low'. apply (tick_rest_inv (λ s, sound hub i0 w0 low' s ∧ calm (sy_engine s))).
Qed.
End progress.
