(* ===== verification/SyncProps.v ===== *)
(** * SyncProps: what synchronisation guarantees

    The runs of the engine are a step relation: passes, restarts from the state file at
    any point of a pass, other users of the store and the file system in between. What
    the cloud was given may leave the hub; what the cursor has passed was disposed of;
    and a working cloud and store are caught up with. *)

From Stdlib Require Import ZArith Lia Ascii.
From stdpp Require Import base option list strings gmap sorting.
From S2P Require Import Prelude Str Json Validation McpSchema ClaimTypes HubTypes Candidates.
From S2P Require Import Redis Channels Messages StreamEntry ReplayScript OutboxHub SyncStore CloudSync.
From S2P Require Import StreamFacts SyncFacts SyncInstances SyncSteps SyncLive.

Section runs.
Context `{CursorText} {W : Type} `{!LocalStore W} `{!CloudApi W} `{!SyncClock W} `{!StreamView W}
  `{!StreamLaws W}.
Abbreviation world := (W * list push_record)%type.

(** Others act: the store evolves, the file system will behave otherwise; the state file
    and the record stay. *)
Definition meanwhile (s s' : sync world) : Prop :=
  ∃ w' readable saves, evolves (sy_world s).1 w' ∧
    s' = mkSync (sy_engine s) (sy_status s)
           (mkDisk (dk_file (sy_disk s)) readable saves) (w', (sy_world s).2).

(** The process died before, in or after a pass. *)
Definition killed (s s' : sync world) : Prop := s' = s ∨ ∃ fuel r, tick fuel s = (r, s').

(** The states of a task whose first cursor was at [first]. *)
Inductive sync_reach (config : CloudSyncConfig) (first : Z) : sync world → Prop :=
  | reach_first d w s d' wl :
      dk_file d = None → world_ok w → start config d (w, []) = (Ok s, d', wl) →
      first = sid_rank (push_stream_id (en_cursors (sy_engine s))) →
      sync_reach config first s
  | reach_round poll bits failures fuel s next s' :
      sync_reach config first s → run_round poll bits failures fuel s = (Some next, s') →
      sync_reach config first s'
  | reach_meanwhile s s' :
      sync_reach config first s → meanwhile s s' → sync_reach config first s'
  | reach_restart s s1 s2 s' d' wl :
      sync_reach config first s → killed s s1 → meanwhile s1 s2 →
      start config (sy_disk s2) (sy_world s2) = (Ok s', d', wl) →
      sync_reach config first s'.

(** ** Starting *)

Lemma new_engine_sound config (wl : world) c :
  (sid_rank (push_stream_id c) ≤ top wl.1)%Z →
  config_sound (cc_hub config) (new_engine config c) ∧
  queue_sound (cc_hub config) wl (new_engine config c).
Proof.
  intros Ht. split.
  - unfold config_sound, new_engine.
    cbn [en_hub en_state_path en_batch_size en_outbox_cap en_outbox length].
    unfold MAX_BATCH. split_and!; [done|by eexists|lia..].
  - split_and!; simpl; [lia|lia|constructor|by intros q ?%elem_of_nil|lia].
Qed.

Lemma initial_cursors_first config d w c d' wl :
  dk_file d = None → world_ok w → initial_cursors config d (w, []) = (Ok c, d', wl) →
  ∃ w', wl = (w', []) ∧ evolves w w' ∧ dk_file d' = Some (cursors_text c) ∧
    (0 ≤ sid_rank (push_stream_id c) ≤ top w')%Z ∧ rejection_receipts c = [].
Proof.
  intros Hf Hw. unfold initial_cursors, load_cursors. rewrite Hf.
  destruct (negb (dk_readable d)); [done|].
  assert (∀ c w', evolves w w' → (0 ≤ sid_rank (push_stream_id c) ≤ top w')%Z →
    rejection_receipts c = [] →
    match save_cursors c d with
    | (Err e, d) => (Err e, d, (w', []))
    | (Ok _, d) => (Ok c, d, (w', []))
    end = (Ok c, d', wl) →
    ∃ w', wl = (w', []) ∧ evolves w w' ∧ dk_file d' = Some (cursors_text c) ∧
      (0 ≤ sid_rank (push_stream_id c) ≤ top w')%Z ∧ rejection_receipts c = []) as Hsave.
  { intros c0 w' He Hr Hn. destruct (save_cursors c0 d) as [[u|e] d1] eqn:Es; [|done].
    intros [= <- <-]. exists w'. split_and!; try done; try lia.
    apply save_cursors_file in Es as [Es|[_ ?]]; done. }
  destruct (cc_backfill config).
  { intros E. assert (c = default_cursors) as ->.
    { destruct (save_cursors default_cursors d) as [[|] ?]; congruence. }
    apply (Hsave default_cursors w); [by apply evolves_refl| |done|done].
    change (sid_rank (push_stream_id default_cursors)) with 0%Z.
    pose proof (top_nonneg w Hw). lia. }
  unfold stream_tail, presence_tail. simpl. unfold on_fst. simpl.
  destruct (stream_tail w) as [[tail|e] w1] eqn:E1; simpl; [|done].
  destruct (stream_tail_law w _ _ Hw E1) as [He1 Ht]. specialize (Ht tail eq_refl).
  pose proof (presence_tail_law w1 (evolves_ok _ _ He1)) as He2.
  destruct (presence_tail w1) as [[p|e] w2] eqn:E2; simpl; [|done]. simpl in He2.
  intros E. assert (c = mkCursors tail 0 p [] 0) as ->.
  { destruct (save_cursors _ d) as [[|] ?]; congruence. }
  pose proof He2 as (_ & Ht2 & _).
  apply (Hsave (mkCursors tail 0 p [] 0) w2); [by eapply evolves_trans|simpl; lia|done|done].
Qed.

Lemma start_first config d w s d' wl :
  dk_file d = None → world_ok w → start config d (w, []) = (Ok s, d', wl) →
  sound (cc_hub config) (sid_rank (push_stream_id (en_cursors (sy_engine s)))) (sy_world s).1
    (sid_rank (push_stream_id (en_cursors (sy_engine s)))) s.
Proof.
  intros Hf Hw. unfold start.
  destruct (initial_cursors config d (w, [])) as [[[c|e] d1] wl1] eqn:E; [|done].
  intros [= <- <- <-]. simpl.
  destruct (initial_cursors_first _ _ _ _ _ _ Hf Hw E) as (w' & -> & He & Hfile & Hr & Hn).
  destruct (new_engine_sound config (w', []) c (proj2 Hr)) as [Hcfg Hq].
  assert (cursor_sound (cc_hub config) (sid_rank (push_stream_id c)) (w', []) c) as Hc.
  { split; [simpl; lia|]. intros m _ _ Hle. lia. }
  pose proof (evolves_ok _ _ He) as Hw'. split_and!; simpl; try done.
  - exists (cursors_text c), c. by rewrite text_cursors_text.
  - split; [by apply evolves_refl|simpl; lia].
Qed.

(** A state in which the cursor of the file has become the engine's. *)
Lemma start_again config i0 since low s d s' d' wl :
  sound (cc_hub config) i0 since low s → dk_file d = dk_file (sy_disk s) →
  start config d (sy_world s) = (Ok s', d', wl) →
  ∃ low', sound (cc_hub config) i0 (sy_world s).1 low' s'.
Proof.
  intros (Hw & Hl & _ & _ & (text & c & Ef & Et & Hc & _) & _) Ed. unfold start, initial_cursors, load_cursors.
  rewrite Ed, Ef. destruct (negb (dk_readable d)); [done|]. rewrite Et. simpl.
  intros [= <- <- <-]. exists (sid_rank (push_stream_id c)).
  destruct (new_engine_sound config (sy_world s) c (proj2 (proj1 Hc))) as [Hcfg Hq].
  split_and!; simpl; try done.
  - exists text, c. by rewrite Ed.
  - split; [by apply evolves_refl|simpl; lia].
Qed.

Lemma meanwhile_sound hub i0 since low s s' :
  sound hub i0 since low s → meanwhile s s' → sound hub i0 since low s'.
Proof.
  intros Hs (w' & readable & saves & He & ->). pose proof Hs as (_ & Hl & _).
  apply (sound_world hub i0 since low s w' (sy_world s).2) in Hs; done.
Qed.

Lemma run_round_sound hub i0 since low poll bits failures fuel s next s' :
  sound hub i0 since low s → run_round poll bits failures fuel s = (Some next, s') →
  sound hub i0 since low s'.
Proof.
  intros Hs. unfold run_round. destruct (tick fuel s) as [[[u|]|e] s1] eqn:E; [|done|];
    intros [= _ <-]; by apply (tick_sound hub i0 since low fuel s _ s1 Hs) in E.
Qed.

Lemma reach_sound config first s :
  sync_reach config first s → ∃ since low, sound (cc_hub config) first since low s.
Proof.
  induction 1 as [d w s d' wl Hf Hw E Hi|poll bits failures fuel s next s' _ (since & low & IH) E
    |s s' _ (since & low & IH) Hm|s s1 s2 s' d' wl _ (since & low & IH) Hk Hm E].
  - rewrite Hi. eexists _, _. by eapply start_first.
  - exists since, low. by eapply run_round_sound.
  - exists since, low. by eapply meanwhile_sound.
  - assert (sound (cc_hub config) first since low s1) as Hs1.
    { destruct Hk as [-> | (fuel & r & Hk)]; [done|]. by eapply tick_sound. }
    assert (sound (cc_hub config) first since low s2) as Hs2 by by eapply meanwhile_sound.
    destruct (start_again config first since low s2 _ _ _ _ Hs2 eq_refl E) as [low' Hs'].
    by eexists _, _.
Qed.

(** ** What has left, and what has not been lost *)

(** C23. In every state a synchronisation task can reach, across failures of the store, of
    the cloud and of the state file, kills at any call and restarts: every batch handed
    to the cloud has one to [MAX_BATCH] messages, all of this hub's own and none marked
    to stay on site; the outbox is within its bound; and the state file holds cursors such
    that every message of the stream that may leave, from the first position on and up to
    the cursor of the file, or up to the cursor in memory, was in a batch the cloud
    accounted for entirely, with a receipt in the file where the cloud rejected it. *)
Theorem cursor_settled config first s :
  sync_reach config first s →
  (∀ r, r ∈ (sy_world s).2 → 1 ≤ length (pr_batch r) ≤ MAX_BATCH ∧
     ∀ m, m ∈ pr_batch r → pushable m (cc_hub config) = true) ∧
  length (en_outbox (sy_engine s)) ≤ en_outbox_cap (sy_engine s) ∧
  ∃ text c, dk_file (sy_disk s) = Some text ∧ text_cursors text = Some c ∧
    ∀ m, m ∈ entries (sy_world s).1 → pushable m (cc_hub config) = true →
      (first < m_rank m)%Z →
      (m_rank m ≤ sid_rank (push_stream_id c))%Z ∨
        (m_rank m ≤ sid_rank (push_stream_id (en_cursors (sy_engine s))))%Z →
      settled_in (sy_world s).2 (rejection_receipts c) m.
Proof.
  intros (since & low & _ & Hl & Hcfg & [_ Hcu] & (text & c & Ef & Et & [_ Hf] & Hsub) & _)%reach_sound.
  rewrite Forall_forall in Hl. destruct Hcfg as (_ & _ & _ & _ & Hcap). split; [exact Hl|].
  split; [done|]. exists text, c. split_and!; [done..|]. intros m Hm Hp Hlt [Hle|Hle].
  - by apply Hf.
  - eapply settled_in_mono; [done|exact Hsub|]. by apply Hcu.
Qed.

(** ** Catching up *)

(** [n] turns of the loop of the task, with others acting before each. *)
Inductive rounds : nat → sync world → sync world → Prop :=
  | rounds_none s : rounds 0 s s
  | rounds_next n poll bits failures fuel next s s1 s2 s' :
      meanwhile s s1 → run_round poll bits failures fuel s1 = (Some next, s2) →
      rounds n s2 s' → rounds (S n) s s'.

Section healthy.
Context `{!Healthy W}.
Context (hub : string) (i0 : Z).
Abbreviation cursor s := (sid_rank (push_stream_id (en_cursors (sy_engine s)))).
Abbreviation now s := (sy_world s).1.

(** Sound and calm; how it came there does not matter. *)
Definition idle (s : sync world) : Prop :=
  sound hub i0 (now s) (cursor s) s ∧ calm (sy_engine s).

Lemma sound_now since low s : sound hub i0 since low s → sound hub i0 (now s) (cursor s) s.
Proof.
  intros (? & ? & ? & ? & ? & ? & _). split_and!; try done. split; [by apply evolves_refl|lia].
Qed.

Lemma meanwhile_idle s s1 :
  idle s → meanwhile s s1 → idle s1 ∧ evolves (now s) (now s1) ∧ cursor s1 = cursor s.
Proof.
  intros [Hs Hc] Hm. pose proof (meanwhile_sound _ _ _ _ _ _ Hs Hm) as Hs1%sound_now.
  destruct Hm as (w' & r & d & He & ->). by split_and!.
Qed.

Lemma round_tick poll bits failures fuel (s : sync world) next s' :
  run_round poll bits failures fuel s = (Some next, s') →
  ∃ r s1, tick fuel s = (r, s1) ∧
    s' = mkSync (sy_engine s1) (sy_status s') (sy_disk s1) (sy_world s1).
Proof.
  unfold run_round. destruct (tick fuel s) as [[[[]|]|e] s1]; [|done|]; intros [= _ <-];
    eexists _, _; split; try done; by destruct s1.
Qed.

Lemma first_round poll bits failures fuel since low s next s' :
  sound hub i0 since low s → run_round poll bits failures fuel s = (Some next, s') →
  idle s' ∧ evolves (now s) (now s').
Proof.
  intros Hs%sound_now (r & s1 & E & ->)%round_tick.
  destruct (tick_calms hub i0 _ _ fuel s r s1 Hs E) as [Hs1 Hc].
  pose proof Hs1 as (_ & _ & _ & _ & _ & _ & [He _]). split; [|done]. split; [|done].
  by eapply sound_now, sound_status.
Qed.

Lemma next_round poll bits failures fuel s next s' :
  idle s → run_round poll bits failures fuel s = (Some next, s') →
  idle s' ∧ ∃ w0, evolves (now s) w0 ∧ evolves w0 (now s') ∧
    (cursor s ≤ cursor s')%Z ∧ passed (cursor s) (cursor s') w0.
Proof.
  intros [Hs Hc] (r & s1 & E & ->)%round_tick.
  destruct (tick_progress hub i0 _ _ fuel s r s1 Hs Hc eq_refl E)
    as (w0 & low' & He & Hle & Hp & Hs1 & Hc1).
  pose proof Hs1 as (_ & _ & _ & _ & _ & _ & [He' Hlow]). split.
  { split; [|done]. by eapply sound_now, sound_status. }
  exists w0. split_and!; try done; simpl; [lia|]. destruct Hp as [Hp|(x & Hx & Hr & Hmin)]; [by left|].
  right. exists x. split_and!; try done; lia.
Qed.

(** Entries of [w] behind which the cursor [c] is. *)
Definition left_after (w : W) (c : Z) : list Message :=
  List.filter (λ m, (c <? m_rank m)%Z) (entries w).

(** What is still there of [w] is no further than [c]. *)
Definition caught_up (w w' : W) (c : Z) : Prop :=
  ∀ m, m ∈ entries w' → (m_rank m ≤ top w)%Z → (m_rank m ≤ c)%Z.

Lemma caught_up_mono w w' w'' c c' :
  evolves w w' → evolves w' w'' → (c ≤ c')%Z → caught_up w w' c → caught_up w w'' c'.
Proof.
  intros (_ & Ht & _) He Hc Hu m Hm Hr. transitivity c; [|done].
  apply Hu; [|done]. eapply evolves_old; [done..|lia].
Qed.

Lemma filter_mono_length {A} (f g : A → bool) l :
  (∀ x, f x = true → g x = true) → length (List.filter f l) ≤ length (List.filter g l).
Proof.
  intros Hfg. induction l as [|x l IH]; [done|]. simpl. specialize (Hfg x).
  destruct (f x); [rewrite Hfg by done; simpl; lia|]. destruct (g x); simpl; lia.
Qed.

Lemma filter_lt_length {A} (f g : A → bool) l x :
  (∀ x, f x = true → g x = true) → x ∈ l → f x = false → g x = true →
  length (List.filter f l) < length (List.filter g l).
Proof.
  intros Hfg [l1 [l2 ->]]%list_elem_of_split Hf Hg. rewrite !List.filter_app, !length_app. simpl.
  rewrite Hf, Hg. simpl. pose proof (filter_mono_length f g l1 Hfg).
  pose proof (filter_mono_length f g l2 Hfg). lia.
Qed.

(** An entry passed is an entry less, or nothing is left. *)
Lemma passed_less w w0 c c' :
  evolves w w0 → (c ≤ c')%Z → passed c c' w0 →
  caught_up w w0 c' ∨ length (left_after w c') < length (left_after w c).
Proof.
  intros He Hc [Hnone|(x & Hx & Hr & Hmin)].
  { left. intros m Hm _. specialize (Hnone m Hm). lia. }
  destruct (Z.le_gt_cases (m_rank x) (top w)) as [Hle|Hgt].
  - right. apply (filter_lt_length _ _ _ x).
    + intros m Hm%Z.ltb_lt. apply Z.ltb_lt. lia.
    + by eapply evolves_old.
    + apply Z.ltb_ge. lia.
    + apply Z.ltb_lt. lia.
  - left. intros m Hm Hm'. destruct (Z.le_gt_cases (m_rank m) c); [lia|].
    specialize (Hmin m Hm ltac:(lia)). lia.
Qed.

Lemma rounds_caught_up w n : ∀ s s',
  idle s → evolves w (now s) → rounds n s s' →
  caught_up w (now s) (cursor s) ∨ length (left_after w (cursor s)) ≤ n →
  idle s' ∧ evolves w (now s') ∧ caught_up w (now s') (cursor s').
Proof.
  induction n as [|n IH]; intros s s' Hi He Hrs Hor; inversion Hrs as [|? ? ? ? ? ? ? s1 s2 ? Hm Hr Hn]; subst.
  - split_and!; [done..|]. destruct Hor as [|Hlen]; [done|]. intros m Hm Hle.
    apply Z.nlt_ge. intros Hlt. assert (m ∈ left_after w (cursor s')) as Hin.
    { apply elem_of_filter_b. split; [by eapply evolves_old|by apply Z.ltb_lt]. }
    destruct (left_after w (cursor s')); [by apply elem_of_nil in Hin|simpl in Hlen; lia].
  - destruct (meanwhile_idle _ _ Hi Hm) as (Hi1 & He1 & Hc1).
    assert (evolves w (now s1)) as Hw1 by by eapply evolves_trans.
    destruct (next_round _ _ _ _ _ _ _ Hi1 Hr) as (Hi2 & w0 & Hw0 & Hw2 & Hle & Hp).
    rewrite Hc1 in Hle, Hp.
    assert (evolves w w0) as Hww0 by by eapply evolves_trans.
    apply (IH s2 s' Hi2); [by eapply evolves_trans|done|].
    destruct Hor as [Hu|Hlen].
    { left. apply (caught_up_mono w (now s) _ (cursor s)); [done| |done|done].
      eapply evolves_trans; [exact He1|]. by eapply evolves_trans. }
    destruct (passed_less w w0 _ _ Hww0 Hle Hp) as [Hu|Hlt]; [left|right; lia].
    by apply (caught_up_mono w w0 _ (cursor s2)).
Qed.
End healthy.

(** C24. With a store that answers reads and a cloud that accounts for what it is given, a
    task that has run one turn more than the stream had entries has passed everything of
    that stream that is still there, whatever pulls, presence, the state file and the
    other users of the store did in between, and every message of it that may leave is
    settled. *)
Theorem sync_catches_up `{!Healthy W} config first s n s' :
  sync_reach config first s → rounds n s s' →
  length (entries (sy_world s).1) < n →
  ∀ m, m ∈ entries (sy_world s).1 → m ∈ entries (sy_world s').1 →
    let c := en_cursors (sy_engine s') in
    (m_rank m ≤ sid_rank (push_stream_id c))%Z ∧
    (pushable m (cc_hub config) = true → (first < m_rank m)%Z →
     settled_in (sy_world s').2 (rejection_receipts c) m).
Proof.
  intros (since & low & Hs)%reach_sound Hrs Hn m Hm Hm'. cbn zeta.
  inversion Hrs as [|k ? ? ? ? ? ? s1 s2 ? Hme Hr Hk]; subst; [lia|].
  pose proof (meanwhile_sound _ _ _ _ _ _ Hs Hme) as Hs1.
  destruct Hme as (w1 & rd & sv & He1 & ->).
  destruct (first_round _ _ _ _ _ _ _ _ _ _ _ Hs1 Hr) as [Hi2 He2].
  assert (evolves (sy_world s).1 (sy_world s2).1) as He by by eapply evolves_trans.
  destruct (rounds_caught_up _ _ (sy_world s).1 _ _ _ Hi2 He Hk) as ([Hs' _] & He' & Hu).
  { right. etransitivity; [apply filter_length_le|lia]. }
  pose proof Hs as (Hw & _).
  assert (m_rank m ≤ sid_rank (push_stream_id (en_cursors (sy_engine s'))))%Z as Hle.
  { apply Hu; [done|]. apply (entries_known _ _ Hw Hm). }
  split; [done|]. intros Hp Hlt. destruct Hs' as (_ & _ & _ & [_ Hcu] & _). by apply Hcu.
Qed.
End runs.

(** ** Pulling ends *)

Section pulling.
Context `{CursorText} {W : Type} `{!LocalStore W} `{!CloudApi W} `{!SyncClock W}.

(** Steps that leave the engine alone. *)
Definition keeps {A} (m : sm W A) : Prop := ∀ s, sy_engine (m s).2 = sy_engine s.

Lemma keeps_bind {A B} (m : sm W A) (k : A → sm W B) :
  keeps m → (∀ a, keeps (k a)) → keeps (sbind m k).
Proof.
  intros Hm Hk s. unfold sbind. specialize (Hm s). destruct (m s) as [[a|e] s']; [|done].
  by rewrite Hk.
Qed.

Lemma keeps_ret {A} (a : A) : keeps (sret a).
Proof. done. Qed.

Lemma keeps_ask {A} what (f : W → result string A * W) : keeps (ask what f).
Proof. intros s. unfold ask. by destruct (f (sy_world s)). Qed.

Lemma keeps_ingest hub ms : keeps (ingest_page hub ms).
Proof.
  induction ms as [|m ms IH]; [apply keeps_ret|]. apply keeps_bind; [|done].
  destruct (foreign hub m); [|apply keeps_ret]. apply keeps_bind; [apply keeps_ask|].
  intros o. apply keeps_ret.
Qed.

Lemma keeps_persist : keeps persist.
Proof.
  apply keeps_bind; [done|]. intros e. destruct (en_state_path e) as [path|]; [|done].
  intros s. unfold on_disk. by destruct (save_cursors _ _).
Qed.

(** A pulled message the store always refuses fails the pass at its page and leaves the
    cursor before it, so the next pass meets it again. *)
Lemma refused_message_stalls s page w r s' m :
  cloud_pull (pull_cursor (en_cursors (sy_engine s))) (en_hub (sy_engine s)) PULL_PAGE (sy_world s)
    = (Ok page, w) →
  m ∈ pp_messages page → foreign (en_hub (sy_engine s)) m = true →
  (∀ w, is_ok (ingest_message m w).1 = false) →
  pull_round s = (r, s') → is_ok r = false ∧ sy_engine s' = sy_engine s.
Proof.
  intros Hp Hm Hf Hi. unfold pull_round, sbind at 1, get_engine, sbind at 1, ask. rewrite Hp.
  cbn [map_err]. set (s1 := mkSync _ _ _ w). unfold sbind at 1.
  assert (is_ok (ingest_page (en_hub (sy_engine s)) (pp_messages page) s1).1 = false) as Hbad.
  { revert Hm. generalize s1. induction (pp_messages page) as [|x l IH]; intros s2.
    - by intros ?%elem_of_nil.
    - intros [<- | Hin]%elem_of_cons; cbn [ingest_page]; unfold sbind at 1.
      + rewrite Hf. unfold sbind at 1, ask. specialize (Hi (sy_world s2)).
        by destruct (ingest_message m (sy_world s2)) as [[] ?].
      + match goal with |- context [(if ?b then ?p else ?q) s2] =>
          destruct ((if b then p else q) s2) as [[[]|] s3] end; [by apply IH|done]. }
  pose proof (keeps_ingest (en_hub (sy_engine s)) (pp_messages page) s1) as Hk.
  destruct (ingest_page _ _ s1) as [[a|e] s2]; [done|]. intros [= <- <-]. by split.
Qed.

(** A cloud that says it has more has moved the cursor, within what it has. *)
Definition pages_advance (bound : Z) : Prop := ∀ c h n w page w',
  cloud_pull c h n w = (Ok page, w') → pp_has_more page = true → (c < pp_next_cursor page ≤ bound)%Z.

Abbreviation at_ s := (pull_cursor (en_cursors (sy_engine s))).

Lemma pull_round_advances bound s s' :
  pages_advance bound → pull_round s = (Ok true, s') → (at_ s < at_ s' ≤ Z.max (at_ s) bound)%Z.
Proof.
  intros Hp. unfold pull_round, sbind at 1, get_engine.
  unfold sbind at 1, ask. destruct (cloud_pull _ _ _ (sy_world s)) as [[page|e] w] eqn:E; [|done].
  cbn [map_err]. specialize (Hp _ _ _ _ _ _ E). clear E. revert Hp.
  set (s1 := mkSync _ _ _ w). intros Hp. unfold sbind at 1.
  pose proof (keeps_ingest (en_hub (sy_engine s)) (pp_messages page) s1) as Hk.
  destruct (ingest_page _ _ s1) as [[[]|e] s2]; [|done]. simpl in Hk.
  unfold sbind at 1. rewrite Hk. unfold sbind at 1, put_engine. unfold sbind at 1.
  set (s3 := mkSync (set_cursors _ _) _ _ _). pose proof (keeps_persist s3) as Hk3.
  destruct (persist s3) as [[[]|e] s4]; [|done]. cbn in Hk3.
  unfold sbind at 1, tell_time. destruct (wall_ms (sy_world s4)) as [t w4]. cbn.
  intros [= Hm <-]. cbn. rewrite Hk3. cbn. specialize (Hp Hm). lia.
Qed.

(** C33. Pulling returns: against a cloud whose pages move the cursor on whenever they
    say there is more, and stay within what the cloud has, as many turns as cursors are
    left are enough, whatever the store, the state file and the clock do - the loop in
    the code has no bound of its own. *)
Theorem pull_returns (bound : Z) (fuel : nat) (s : sync W) :
  pages_advance bound → Z.to_nat (bound - at_ s) < fuel → (pull_messages fuel s).1 ≠ Ok None.
Proof.
  intros Hp. revert s. induction fuel as [|fuel IH]; intros s Hf; [lia|].
  cbn [pull_messages]. unfold sbind. destruct (pull_round s) as [[[]|e] s'] eqn:E; [|done..].
  apply (pull_round_advances bound) in E; [|done]. apply IH. lia.
Qed.
End pulling.

(** ** A run

    A hub joins with one message in its stream, posts a note, an offer and a note that
    stays on site, finds the cloud down, then up: the cloud rejects the offer, and a
    message of another hub arrives. *)

Section demo.
#[local] Existing Instances bit_cursors mem_store mem_clock mem_view.
Context `{!CloudApi mem_world} `{!StreamLaws mem_world}.

Definition demo_config : CloudSyncConfig :=
  mkCloudConfig "https://cloud.example" "token" "here" "/state.json" 5000 500 2000 15000 false.

Definition demo_mem : mem_world :=
  (mem_add (sync_message "old" "note" None None) (mkMem [] 0 0
     [sync_message "theirs" "note" (Some "there") None])).2.

Definition posted (w : mem_world) : mem_world :=
  foldl (λ w m, (mem_add m w).2) w
    [sync_message "mine" "note" None None; sync_message "offer" "offer" None None;
     sync_message "secret" "note" None (Some NoOffsite)].

(** An hour later. *)
Definition later (w : mem_world) : mem_world :=
  mkMem (mw_entries w) (mw_top w) (mw_clock w + 1) (mw_inbox w).

Definition in_world (f : mem_world → mem_world) (s : sync (mem_world * list push_record))
    : sync (mem_world * list push_record) :=
  mkSync (sy_engine s) (sy_status s) (sy_disk s) (f (sy_world s).1, (sy_world s).2).

Definition demo_started : sync (mem_world * list push_record) :=
  match start demo_config (mkDisk None true []) (demo_mem, []) with
  | (Ok s, _, _) => s
  | (Err st, d, wl) => mkSync (new_engine demo_config default_cursors) st d wl
  end.

Definition demo_first : Z := sid_rank "1-0".

Lemma demo_meanwhile f s :
  (∀ w, world_ok w → evolves w (f w)) → world_ok (sy_world s).1 → meanwhile s (in_world f s).
Proof. intros Hf Hw. exists (f (sy_world s).1), (dk_readable (sy_disk s)), (dk_saves (sy_disk s)).
  split; [by apply Hf|]. by destruct s as [e st [] wl]. Qed.

Lemma posted_evolves w : world_ok w → evolves w (posted w).
Proof.
  intros Hw. pose proof (λ m w Hw, mem_add_evolves m w Hw) as Ha. unfold posted. simpl.
  eapply evolves_trans; [by apply Ha|]. eapply evolves_trans; [|apply Ha].
  all: repeat first [done | apply Ha | eapply evolves_ok].
Qed.

Lemma later_evolves w : world_ok w → evolves w (later w).
Proof. intros Hw. by apply mem_same. Qed.

Lemma mem_add_ok m w : world_ok w → world_ok (mem_add m w).2.
Proof. intros Hw. by apply (evolves_ok w), mem_add_evolves. Qed.

Lemma empty_ok inbox : world_ok (mkMem [] 0 0 inbox).
Proof. split_and!; simpl; [constructor|constructor|done]. Qed.

Lemma demo_started_ok : sync_reach demo_config demo_first demo_started.
Proof.
  eapply (reach_first demo_config _ (mkDisk None true []) demo_mem); [done| |by vm_compute|by vm_compute].
  apply mem_add_ok, empty_ok.
Qed.

Lemma in_world_reach f s config first :
  (∀ w, world_ok w → evolves w (f w)) → sync_reach config first s →
  sync_reach config first (in_world f s).
Proof.
  intros Hf Hs. eapply reach_meanwhile; [done|]. apply demo_meanwhile; [done|].
  by destruct (reach_sound _ _ _ Hs) as (? & ? & ? & _).
Qed.

End demo.

Section picky_demo.
#[local] Existing Instances bit_cursors mem_store mem_clock mem_view picky_cloud picky_laws.

Definition demo_down : sync (mem_world * list push_record) :=
  (run_round 2000 0 0 5 (in_world posted demo_started)).2.
Definition demo_up : sync (mem_world * list push_record) :=
  (run_round 2000 0 1 5 (in_world later demo_down)).2.

Lemma demo_up_ok : sync_reach demo_config demo_first demo_up.
Proof.
  eapply (reach_round _ _ 2000 0 1 5 (in_world later demo_down) (2000, 0)%Z); [|by vm_compute].
  apply in_world_reach; [apply later_evolves|].
  eapply (reach_round _ _ 2000 0 0 5 (in_world posted demo_started) (2 ^ 32, 1)%Z); [|by vm_compute].
  apply in_world_reach; [apply posted_evolves|apply demo_started_ok].
Qed.

Lemma cursor_settled_witness :
  map (λ r, (map m_id (pr_batch r), bool_decide (is_Some (pr_outcome r)))) (sy_world demo_up).2
    = [(["mine"; "offer"], false); (["mine"; "offer"], true)] ∧
  map m_id (entries (sy_world demo_up).1) = ["old"; "mine"; "offer"; "secret"; "theirs"] ∧
  ∃ text c, dk_file (sy_disk demo_up) = Some text ∧ text_cursors text = Some c ∧
    ∀ m, m ∈ entries (sy_world demo_up).1 → pushable m "here" = true →
      (demo_first < m_rank m)%Z →
      (m_rank m ≤ sid_rank (push_stream_id c))%Z ∨
        (m_rank m ≤ sid_rank (push_stream_id (en_cursors (sy_engine demo_up))))%Z →
      settled_in (sy_world demo_up).2 (rejection_receipts c) m.
Proof.
  do 2 (split; [by vm_compute|]). apply (cursor_settled demo_config demo_first), demo_up_ok.
Defined.
End picky_demo.

(** With a cloud that takes everything, five turns catch up with four entries. *)
Section open_demo.
#[local] Existing Instances bit_cursors mem_store mem_clock mem_view open_cloud open_laws.

Lemma open_healthy : Healthy mem_world.
Proof.
  constructor; [done|]. intros b w Hb. exists (mkOutcome (Z.of_nat (length b)) 0 [] []).
  split_and!; [done| |done]. unfold disposed, checked_add. simpl. unfold MAX_BATCH, U64_MAX in *.
  rewrite decide_True by lia. simpl. rewrite decide_True by lia. apply bool_decide_eq_true. f_equal. lia.
Qed.
#[local] Existing Instance open_healthy.

Definition open_turn (s : sync (mem_world * list push_record)) : sync (mem_world * list push_record) :=
  (run_round 2000 0 0 5 s).2.

Definition open_start : sync (mem_world * list push_record) := in_world posted demo_started.
Definition open_end : sync (mem_world * list push_record) := Nat.iter 5 open_turn open_start.

Lemma open_reach : sync_reach demo_config demo_first open_start.
Proof. apply in_world_reach; [apply posted_evolves|apply demo_started_ok]. Qed.

Lemma meanwhile_same config first s :
  sync_reach config first s → meanwhile s s.
Proof.
  intros (? & ? & Hw & _)%reach_sound. exists (sy_world s).1, (dk_readable (sy_disk s)), (dk_saves (sy_disk s)).
  split; [by apply evolves_refl|]. by destruct s as [e st [] []].
Qed.

(** Turns one after another, each returning. *)
Lemma rounds_turns n : ∀ s,
  sync_reach demo_config demo_first s →
  (∀ k, k < n → (run_round 2000 0 0 5 (Nat.iter k open_turn s)).1 = Some (2000, 0)%Z) →
  rounds n s (Nat.iter n open_turn s).
Proof.
  induction n as [|n IH]; intros s Hs Hr; [constructor|].
  assert (run_round 2000 0 0 5 s = (Some (2000, 0)%Z, open_turn s)) as E.
  { unfold open_turn. specialize (Hr 0 ltac:(lia)). simpl in Hr. rewrite <- Hr.
    by destruct (run_round _ _ _ _ s). }
  rewrite Nat.iter_succ_r. eapply (rounds_next n 2000 0 0 5); [by eapply meanwhile_same|exact E|].
  apply IH; [by eapply reach_round|]. intros k Hk. rewrite <- Nat.iter_succ_r. apply Hr. lia.
Qed.

Lemma open_rounds : rounds 5 open_start open_end.
Proof.
  apply (rounds_turns 5 open_start open_reach). intros k Hk.
  assert (k = 0 ∨ k = 1 ∨ k = 2 ∨ k = 3 ∨ k = 4) as Hc by lia.
  destruct_or! Hc; subst; by vm_compute.
Qed.

Lemma sync_catches_up_witness :
  length (entries (sy_world open_start).1) = 4 ∧
  push_stream_id (en_cursors (sy_engine open_end)) = "8-0" ∧
  ∀ m, m ∈ entries (sy_world open_start).1 → m ∈ entries (sy_world open_end).1 →
    let c := en_cursors (sy_engine open_end) in
    (m_rank m ≤ sid_rank (push_stream_id c))%Z ∧
    (pushable m "here" = true → (demo_first < m_rank m)%Z →
     settled_in (sy_world open_end).2 (rejection_receipts c) m).
Proof.
  do 2 (split; [by vm_compute|]).
  apply (sync_catches_up demo_config demo_first open_start 5 open_end);
    [apply open_reach|apply open_rounds|vm_compute; lia].
Defined.
End open_demo.

(** The pages of a cloud, and pulling from it. *)
Section paging_demo.
#[local] Existing Instances bit_cursors mem_store mem_clock mem_view paging_cloud.

Definition paging_start : sync mem_world :=
  mkSync (new_engine demo_config default_cursors) default_status (mkDisk None true []) demo_mem.

Lemma pull_returns_witness :
  (pull_messages 4 paging_start).1 ≠ Ok None ∧
  pull_cursor (en_cursors (sy_engine (pull_messages 4 paging_start).2)) = 3%Z.
Proof.
  split; [|by vm_compute]. apply (pull_returns 3); [|vm_compute; lia].
  intros c h n w page w' [= <- <-] Hm%Z.ltb_lt. cbn [pp_next_cursor]. lia.
Defined.
End paging_demo.
