(* ===== verification/OutboxHubProps.v ===== *)
(** * OutboxHubProps: a replayed message is sent at most once

    The hub's side of replay refines an abstract delivery machine: whatever is lost
    or fails, the copies of a message request never exceed one, an applied answer
    means there is one, and every applied answer is the same. *)

From Stdlib Require Import ZArith Lia Ascii.
From stdpp Require Import base option list strings gmap.
From S2P Require Import Prelude Str Json Validation McpSchema ClaimTypes Outbox Redis.
From S2P Require Import Channels Messages ReplayScript OutboxHub SyncStore ReplayFacts OutboxCodec.
From S2P Require Import Claims ClaimInstances ClaimFacts HubInstances.

(** ** Keys *)

Definition OUTBOX_PREFIX : string := "agent_bus:outbox:".

(** The stream and the presence keys stay out of the memos' name space. *)
Record separated (s : ReplaySettings) : Prop := {
  separated_stream : starts_with (rs_stream_key s) OUTBOX_PREFIX = false;
  separated_presence ag : starts_with (rs_presence_prefix s +:+ ag) OUTBOX_PREFIX = false;
}.

(** The claim tool keeps memos and appends no entry that names a request. *)
Class ClaimToolLaws `{ClaimTool} := {
  dispatch_keeps args d k :
    hd_keys (dispatch_claim args d).2 !! (OUTBOX_PREFIX +:+ k) = hd_keys d !! (OUTBOX_PREFIX +:+ k);
  dispatch_copies args d sk rid : copies sk rid (dispatch_claim args d).2 = copies sk rid d;
}.

(** Every index of a list of keys. *)
Ltac each_index H :=
  repeat (apply elem_of_cons in H as [->|H]; [cbn|]); [..|by apply not_elem_of_nil in H].

Section keys.
Context `{UnicodeCase} `{JournalCodec} `{Chrono} `{StoreText} `{BodyCodec} `{LuaJson} `{HubText}.

Lemma memo_key_prefix s r : starts_with (memo_key s r) OUTBOX_PREFIX = true.
Proof. apply prefix_app. Qed.

Lemma not_memo key s r : starts_with key OUTBOX_PREFIX = false → key ≠ memo_key s r.
Proof. intros Hk ->. by rewrite memo_key_prefix in Hk. Qed.

Lemma memo_key_inj s r r' : memo_key s r = memo_key s r' → request_id r = request_id r'.
Proof.
  unfold memo_key. intros E. do 2 apply (inj (String.append _)) in E.
  injection E as E. by apply uuid_text_inj in E.
Qed.

Lemma validated_timeless r u :
  validate r = Ok u → operation r = Send ∨ operation r = Ack → expires_ms r = 0%Z.
Proof.
  unfold validate. intros Hv Hop. apply rbind_Ok in Hv as (a & _ & Hv).
  destruct (_ || _) eqn:E; [done|]. apply orb_false_iff in E as [E _].
  apply orb_false_iff in E as [_ E].
  destruct Hop as [Hop | Hop]; rewrite Hop in E; cbn in E; by bool_simplify.
Qed.

(** The memo's unused key belongs to no request. *)
Lemma unused_not_memo s r r' : memo_key s r' +:+ ":unused" ≠ memo_key s r.
Proof.
  unfold memo_key. rewrite !string_app_assoc. intros E.
  do 2 apply (inj (String.append _)) in E. injection E as E. rewrite ?string_app_nil_l in E.
  pose proof (uuid_text_plain (request_id r)) as Hp. rewrite <- E in Hp.
  by rewrite contains_char_app, orb_true_r in Hp.
Qed.

(** Entries of the stream and of the notifications. *)
Lemma message_fields_id hub rid p :
  flat_field "client_msg_id" (message_fields hub rid p) = Some rid.
Proof. reflexivity. Qed.

Lemma notification_fields_id to p t :
  flat_field "client_msg_id" (notification_fields to p ++ ["message"; t]) = None.
Proof. reflexivity. Qed.
End keys.

(** ** Plans *)

Section plans.
Context `{UnicodeCase} `{JournalCodec} `{Chrono} `{StoreText} `{BodyCodec} `{LuaJson} `{HubText}.

(** A planned message owns its memo and its entry. *)
Lemma plan_owned s hub fp fresh now now' sse r keys input :
  separated s → validate r = Ok tt → operation r = Send ∨ operation r = Ack →
  plan s hub fp fresh now now' sse r = Ok (keys, input) →
  owned (memo_key s r) (rs_stream_key s) (uuid_text (request_id r)) fp keys input.
Proof.
  intros Hs Hv Hop Hp. pose proof (validated_timeless r tt Hv Hop) as Hx.
  assert (plan_message s hub fp fresh now now' sse r = Ok (keys, input)) as Hm.
  { unfold plan in Hp. by destruct Hop as [E | E]; rewrite E in Hp. }
  unfold plan_message in Hm. apply rbind_Ok in Hm as (p & _ & Hm).
  injection Hm as <- <-. pose proof (not_memo (rs_stream_key s) s r (separated_stream s Hs)) as Hk.
  set (direct := negb _). constructor; try done; destruct direct; try done.
  - intros i Hi. each_index Hi; [done|by apply not_memo..].
  - intros i Hi. each_index Hi; [done|apply unused_not_memo|by apply not_memo..].
  - cbn. apply andb_true_iff. split; by apply bool_decide_eq_true.
  - cbn. apply andb_true_iff. split; by apply bool_decide_eq_true.
  - intros fs t [= <-]. unfold is_copy. cbn [snd]. rewrite notification_fields_id. apply andb_false_r.
Qed.

Lemma message_plan_spared s hub fp fresh now now' sse r r' keys input :
  separated s → request_id r' ≠ request_id r →
  plan_message s hub fp fresh now now' sse r' = Ok (keys, input) →
  spared (memo_key s r) (rs_stream_key s) (uuid_text (request_id r)) keys input ∧
  KEYS keys 1 = memo_key s r'.
Proof.
  intros Hs Hid Hp.
  assert (memo_key s r' ≠ memo_key s r) as Hne by (by intros E%memo_key_inj).
  pose proof (not_memo (rs_stream_key s) s r (separated_stream s Hs)) as Hk.
  pose proof (unused_not_memo s r r') as Hu.
  unfold plan_message in Hp. apply rbind_Ok in Hp as (p & _ & Hp). injection Hp as <- <-.
  split; [|by destruct (negb _)]. constructor.
  - intros i Hi. destruct (negb _); each_index Hi; first [done | by apply not_memo].
  - unfold is_copy. destruct (negb _); cbn [i_message_fields snd]; rewrite message_fields_id;
      rewrite (bool_decide_eq_false_2 (Some _ = Some _)) by (by intros [= E%uuid_text_inj]);
      apply andb_false_r.
  - intros fs t Hf. unfold is_copy. cbn [snd]. destruct (negb _); [|done]. injection Hf as <-.
    rewrite notification_fields_id. apply andb_false_r.
Qed.

(** The plan of another request spares the memo and the entries. *)
Lemma plan_spared s hub fp fresh now now' sse r r' keys input :
  separated s → request_id r' ≠ request_id r →
  plan s hub fp fresh now now' sse r' = Ok (keys, input) →
  spared (memo_key s r) (rs_stream_key s) (uuid_text (request_id r)) keys input ∧
  KEYS keys 1 = memo_key s r'.
Proof.
  intros Hs Hid Hp.
  assert (memo_key s r' ≠ memo_key s r) as Hne by (by intros E%memo_key_inj).
  pose proof (not_memo (rs_stream_key s) s r (separated_stream s Hs)) as Hk.
  pose proof (unused_not_memo s r r') as Hu. unfold plan in Hp. destruct (operation r').
  - by apply (message_plan_spared s hub fp fresh now now' sse).
  - unfold plan_presence in Hp. repeat (apply rbind_Ok in Hp as (? & _ & Hp)).
    injection Hp as <- <-. split; [|done]. constructor; [|cbn; apply andb_false_r|done].
    intros i Hi. each_index Hi; try done; apply not_memo; by try apply Hs.
  - by apply (message_plan_spared s hub fp fresh now now' sse).
  - unfold plan_claim in Hp. repeat (apply rbind_Ok in Hp as (? & _ & Hp)).
    injection Hp as <- <-. split; [|done]. constructor; [|cbn; apply andb_false_r|done].
    intros i Hi. each_index Hi; done.
Qed.
End plans.

(** ** Calls *)

(** What holds of a script holds of its call, if a lost reply may hide it. *)
Lemma invoke_rule {A} (P : hubdb → Prop) (Q : result string A → hubdb → Prop)
    (R : result ReplayHubError A → hubdb → Prop) how (m : lua A) e d :
  ltriple P m Q → (∀ d, P d → R (Err Unavailable) d) →
  (∀ x d, Q x d → R (map_err to_status x) d ∧ R (Err Unavailable) d) →
  P d → R (invoke how m e d).1 (invoke how m e d).2.
Proof.
  intros Hm Hb Ha HP. specialize (Hm (mkLuaState d e) HP). unfold invoke.
  destruct how; [|by apply Hb|by eapply Ha].
  destruct (m _) as [x st] eqn:E. by eapply Ha in Hm as [Hx _].
Qed.

Lemma invoke_keeps {A} P how (m : lua A) e d : lkeeps P m → P d → P (invoke how m e d).2.
Proof. intros Hm. by apply (invoke_rule P (λ _, P) (λ _, P)). Qed.

(** ** The abstract machine

    A message that was not sent; one whose script died, with the copies it left; or
    one that was sent, with the result of every applied answer to come. *)

Inductive sending : Type :=
  | Unsent
  | Interrupted (n : nat)
  | Done (v : option json).

Definition sent_copies (sp : sending) : nat :=
  match sp with Unsent => 0 | Interrupted n => n | Done _ => 1 end.

Abbreviation answer := (result ReplayHubError ReplayResponse).

(** The answers of a sent message: its one result, or none yet. *)
Inductive gives (v : option json) : answer → Prop :=
  | gives_result x : v = Some x → gives v (Ok (Applied x))
  | gives_pending : gives v (Ok Pending)
  | gives_error e : gives v (Err e).

Inductive sending_step : sending → answer → sending → Prop :=
  | step_refused sp e : sending_step sp (Err e) sp
  | step_died e n : n ≤ 1 → sending_step Unsent (Err e) (Interrupted n)
  | step_sent v a : gives v a → sending_step Unsent a (Done v)
  | step_stuck n : sending_step (Interrupted n) (Ok Pending) (Interrupted n)
  | step_again v a : gives v a → sending_step (Done v) a (Done v).

Inductive sending_run : sending → list answer → sending → Prop :=
  | run_nil sp : sending_run sp [] sp
  | run_step sp a sp' answers sp'' :
      sending_step sp a sp' → sending_run sp' answers sp'' →
      sending_run sp (a :: answers) sp''.

Section accept.
Context `{UnicodeCase} `{JournalCodec} `{Chrono} `{StoreText} `{BodyCodec} `{LuaJson} `{HubText}
  `{ClaimTool}.
Context (s : ReplaySettings) (hub : string) (r : ReplayRequest).

Definition the_fingerprint : string :=
  match fingerprint r with Ok fp => fp | Err _ => "" end.

(** The copies of the request on the hub, and the phase of its memo. *)
Definition request_copies (w : hubworld) : nat :=
  copies (rs_stream_key s) (uuid_text (request_id r)) (w_db w).

Definition phase_of (ph : phase) (w : hubworld) : Prop :=
  in_phase (memo_key s r) (rs_stream_key s) (uuid_text (request_id r)) the_fingerprint ph (w_db w).

(** The result of an applied answer, from the text the hub keeps. *)
Definition kept_result (raw : string) : option json :=
  match conclude_response (mkReplaySettings "" "" "" 0 None None None "" "") hub
          (mkAcceptEnv "" 0 0 false Delivered (mkLua 0 None [] 0) None Delivered
             (mkLua 0 None [] 0) PgDone) r raw (mkRows [] []) with
  | (Ok (Applied v), _) => Some v
  | _ => None
  end.

Definition abstract (ph : phase) : sending :=
  match ph with
  | Fresh => Unsent
  | Stuck n => Interrupted n
  | Sent raw => Done (kept_result raw)
  end.

Hypothesis Hmessage : operation r = Send ∨ operation r = Ack.

Lemma conclude_gives e raw rows v : raw = applied_text v →
  gives (kept_result raw) (conclude_response s hub e r raw rows).1.
Proof.
  intros ->. unfold kept_result, conclude_response.
  destruct (response_of_text (applied_text v)) as [resp|] eqn:E; [|by constructor].
  apply response_of_applied in E as [x ->].
  destruct Hmessage as [Eop | Eop]; rewrite Eop; (destruct (message_of_json x); [|by constructor]);
    destruct (persist s _ _ rows) as [[] rows']; cbn; by constructor.
Qed.

Lemma phase_copies ph w : phase_of ph w → request_copies w = sent_copies (abstract ph).
Proof.
  unfold phase_of, request_copies.
  destruct ph as [|n|raw]; simpl; [by intros []|by intros (_ & t & _ & _ & Hc)|].
  by intros (_ & t & _ & _ & Hc).
Qed.

Hypothesis Hseparated : separated s.

Lemma applied_not_admission v : applied_text v ≠ admission_text.
Proof. intros E. vm_compute in E. discriminate E. Qed.

(** A call of the planned script, in each phase. *)
Lemma invoke_replay e keys input ph w :
  owned (memo_key s r) (rs_stream_key s) (uuid_text (request_id r)) the_fingerprint keys input →
  phase_of ph w →
  let '(raw, d) := invoke (ae_call e) (replay_script keys input) (ae_lua e) (w_db w) in
  ∃ ph', phase_of ph' (mkWorld d (w_rows w)) ∧
    match raw with
    | Err err => sending_step (abstract ph) (Err err) (abstract ph')
    | Ok raw =>
        (∃ v, raw = applied_text v ∧ ph' = Sent raw ∧ (ph = Fresh ∨ ph = ph')) ∨
        (∃ n, raw = pending_text ∧ ph = Stuck n ∧ ph' = Stuck n)
    end.
Proof.
  intros Ho Hw. unfold phase_of in *.
  set (R := λ (raw : result ReplayHubError string) d,
    ∃ ph', in_phase (memo_key s r) (rs_stream_key s) (uuid_text (request_id r))
             the_fingerprint ph' d ∧
    match raw with
    | Err err => sending_step (abstract ph) (Err err) (abstract ph')
    | Ok raw =>
        (∃ v, raw = applied_text v ∧ ph' = Sent raw ∧ (ph = Fresh ∨ ph = ph')) ∨
        (∃ n, raw = pending_text ∧ ph = Stuck n ∧ ph' = Stuck n)
    end).
  enough (R (invoke (ae_call e) (replay_script keys input) (ae_lua e) (w_db w)).1
            (invoke (ae_call e) (replay_script keys input) (ae_lua e) (w_db w)).2) as HR.
  { destruct (invoke _ _ _ _) as [raw d]. exact HR. }
  assert (∀ d err, in_phase (memo_key s r) (rs_stream_key s) (uuid_text (request_id r))
    the_fingerprint ph d → R (Err err) d) as Hsame by (intros d err Hd; exists ph; split; [done|constructor]).
  destruct ph as [|n|text].
  - eapply (invoke_rule _ _ R); [by apply replay_fresh|by intros; apply Hsame| |exact Hw].
    intros [raw|err] d Hd; cbn in Hd.
    + split; [|by exists (Sent raw); split; [exact Hd|do 2 constructor]].
      exists (Sent raw). split; [exact Hd|]. destruct Hd as [[v Hv] _]. left. exists v. auto.
    + destruct Hd as [Hd|[n Hd]]; [split; by apply Hsame|].
      split; exists (Stuck n); (split; [exact Hd|]); constructor; apply Hd.
  - eapply (invoke_rule _ _ R); [by apply replay_stuck|intros ??; by apply Hsame| |exact Hw].
    intros raw d [-> Hd]. split; [|by apply Hsame]. exists (Stuck n). split; [exact Hd|]. right. by exists n.
  - eapply (invoke_rule _ _ R); [by apply replay_sent|intros ??; by apply Hsame| |exact Hw].
    intros raw d [-> Hd]. split; [|by apply Hsame]. exists (Sent text). split; [exact Hd|].
    destruct Hd as [[v Hv] _]. left. exists v. auto.
Qed.

(** The hub's answer to the request is a step of the abstract machine. *)
Lemma accept_own e ph w :
  phase_of ph w →
  let '(a, w') := accept s (mkEnvelope hub r) e w in
  ∃ ph', phase_of ph' w' ∧ sending_step (abstract ph) a (abstract ph').
Proof.
  intros Hw. unfold accept. cbn [ev_request ev_hub_identity].
  match goal with |- context [match ?p with Ok _ => _ | Err _ => _ end] => destruct p as [[fp [keys input]]|err] eqn:E end;
    [|exists ph; split; [done|constructor]].
  apply rbind_Ok in E as ([] & Hv%map_err_Ok & E). apply rbind_Ok in E as (u & _ & E).
  apply rbind_Ok in E as (fp' & Hfp%map_err_Ok & E). apply rbind_Ok in E as (ki & Hp & E).
  injection E as -> ->.
  eapply plan_owned in Hp; [|done..].
  assert (fp = the_fingerprint) as -> by (unfold the_fingerprint; by rewrite Hfp).
  pose proof (invoke_replay e keys input ph w Hp Hw) as HR.
  destruct (invoke _ _ _ _) as [[raw|err] d]; destruct HR as (ph' & Hph' & Hstep); [|by exists ph'].
  destruct Hstep as [(v & -> & -> & Hfrom)|(n & -> & -> & ->)].
  - rewrite bool_decide_eq_false_2 by apply applied_not_admission.
    pose proof (conclude_gives e _ (w_rows w) v eq_refl) as Hg.
    destruct (conclude_response _ _ _ _ _ _) as [a rows].
    exists (Sent (applied_text v)). split; [exact Hph'|].
    destruct Hfrom as [-> | ->]; by constructor.
  - rewrite bool_decide_eq_false_2 by (by vm_compute). unfold conclude_response.
    rewrite response_of_pending. exists (Stuck n). split; [exact Hph'|constructor].
Qed.

(** What leaves the memo and the entries alone leaves the phase. *)
Definition untouched (d d' : hubdb) : Prop :=
  hd_keys d' !! memo_key s r = hd_keys d !! memo_key s r ∧
  copies (rs_stream_key s) (uuid_text (request_id r)) d' =
  copies (rs_stream_key s) (uuid_text (request_id r)) d.

Lemma phase_untouched ph d d' rows rows' :
  untouched d d' → phase_of ph (mkWorld d rows) → phase_of ph (mkWorld d' rows').
Proof.
  intros [Hk Hc]. unfold phase_of. destruct ph; simpl; unfold framed; by rewrite Hk, Hc.
Qed.

Lemma invoke_untouched {A} how (m : lua A) e d :
  (∀ x n, lkeeps (framed (memo_key s r) (rs_stream_key s) (uuid_text (request_id r)) x n) m) →
  untouched d (invoke how m e d).2.
Proof. intros Hm. eapply (invoke_keeps _ how m e d (Hm _ _)). by split. Qed.

Context `{!ClaimToolLaws}.

Lemma dispatch_untouched args d : untouched d (dispatch_claim args d).2.
Proof. split; [apply dispatch_keeps|apply dispatch_copies]. Qed.

Lemma finish_untouched e memo fp ck ag expires resp d :
  memo ≠ memo_key s r → untouched d (finish_claim e memo fp ck ag expires resp d).2.
Proof.
  intros Hne. unfold finish_claim. destruct (claim_deadline _ _); [|done].
  match goal with |- context [invoke ?h ?m ?l d] =>
    pose proof (invoke_untouched h m l d (λ x n, finish_framed _ _ _ x n _ _ _ _ _ _ _ _ _ Hne)) as Hi;
    destruct (invoke h m l d) as [c d'] end.
  exact Hi.
Qed.

Lemma untouched_trans d1 d2 d3 : untouched d1 d2 → untouched d2 d3 → untouched d1 d3.
Proof. intros [H1' H2'] [H3' H4']. split; congruence. Qed.

Lemma admit_untouched e keys fp r' d :
  KEYS keys 1 ≠ memo_key s r → untouched d (admit_claim e keys fp r' d).2.
Proof.
  intros Hne. unfold admit_claim. destruct (ae_time e) as [now|]; [|done].
  destruct (_ =? 0)%Z; [by apply finish_untouched|].
  match goal with |- context [dispatch_claim ?a d] =>
    pose proof (dispatch_untouched a d) as Hd; destruct (dispatch_claim a d) as [[v|] d'] end;
    [|exact Hd].
  eapply untouched_trans; [exact Hd|by apply finish_untouched].
Qed.

(** Another request of any kind. *)
Lemma accept_other ev e w :
  request_id (ev_request ev) ≠ request_id r → untouched (w_db w) (w_db (accept s ev e w).2).
Proof.
  intros Hid. unfold accept.
  match goal with |- context [match ?p with Ok _ => _ | Err _ => _ end] =>
    destruct p as [[fp [keys input]]|err] eqn:E end; [|done].
  apply rbind_Ok in E as (u1 & _ & E). apply rbind_Ok in E as (u2 & _ & E).
  apply rbind_Ok in E as (fp' & _ & E). apply rbind_Ok in E as (ki & Hp & E).
  injection E as -> ->.
  apply (plan_spared _ _ _ _ _ _ _ r) in Hp as [Hsp Hk1]; [|done..].
  pose proof (invoke_untouched (ae_call e) (replay_script keys input) (ae_lua e) (w_db w)
    (λ x n, replay_spares _ _ _ x n keys input Hsp)) as Hi.
  destruct (invoke _ _ _ _) as [[raw|err] d]; [|exact Hi].
  destruct (bool_decide _).
  - pose proof (admit_untouched e keys fp (ev_request ev) d) as Ha.
    rewrite Hk1 in Ha. destruct (admit_claim _ _ _ _ _) as [a d'].
    eapply untouched_trans; [exact Hi|apply Ha]. by intros E%memo_key_inj.
  - destruct (conclude_response _ _ _ _ _ _) as [a rows]. exact Hi.
Qed.

(** *** Runs

    The request is replayed any number of times, among other requests and whatever
    else leaves its memo and its entries alone. *)
Inductive hub_run : hubworld → list answer → hubworld → Prop :=
  | hub_nil w : hub_run w [] w
  | hub_replay e w a w' answers w'' :
      accept s (mkEnvelope hub r) e w = (a, w') → hub_run w' answers w'' →
      hub_run w (a :: answers) w''
  | hub_other ev e w answers w'' :
      request_id (ev_request ev) ≠ request_id r →
      hub_run (accept s ev e w).2 answers w'' → hub_run w answers w''
  | hub_outside w d rows answers w'' :
      untouched (w_db w) d → hub_run (mkWorld d rows) answers w'' → hub_run w answers w''.

Lemma phase_moved ph w w' : untouched (w_db w) (w_db w') → phase_of ph w → phase_of ph w'.
Proof. destruct w, w'. apply phase_untouched. Qed.

Lemma run_simulates ph w answers w' :
  phase_of ph w → hub_run w answers w' →
  ∃ ph', phase_of ph' w' ∧ sending_run (abstract ph) answers (abstract ph').
Proof.
  intros Hw Hrun. revert ph Hw. induction Hrun as [w|e w a w' answers w'' Ha _ IH
    |ev e w answers w'' Hid _ IH|w d rows answers w'' Hu _ IH]; intros ph Hw.
  - exists ph. split; [done|constructor].
  - pose proof (accept_own e ph w Hw) as Hstep. rewrite Ha in Hstep.
    destruct Hstep as (ph1 & Hph1 & Hs). destruct (IH _ Hph1) as (ph2 & Hph2 & Hr).
    exists ph2. split; [done|by econstructor].
  - apply IH. eapply phase_moved; [by apply accept_other|exact Hw].
  - apply IH. by eapply (phase_moved ph w (mkWorld d rows)).
Qed.

(** Two replays with another request between them. *)
Lemma run_around e e' ev e'' w :
  request_id (ev_request ev) ≠ request_id r →
  hub_run w [(accept s (mkEnvelope hub r) e w).1;
    (accept s (mkEnvelope hub r) e'' (accept s ev e' (accept s (mkEnvelope hub r) e w).2).2).1]
    (accept s (mkEnvelope hub r) e'' (accept s ev e' (accept s (mkEnvelope hub r) e w).2).2).2.
Proof.
  intros Hid. eapply hub_replay; [apply surjective_pairing|].
  apply (hub_other ev e'); [done|]. eapply hub_replay; [apply surjective_pairing|]. constructor.
Qed.

(** No memo and no entry of the request on the hub. *)
Definition unseen (w : hubworld) : Prop :=
  hd_keys (w_db w) !! memo_key s r = None ∧ request_copies w = 0.

Lemma unseen_refines w answers w' :
  unseen w → hub_run w answers w' →
  ∃ sp, sending_run Unsent answers sp ∧ request_copies w' = sent_copies sp.
Proof.
  intros Hu Hrun. apply (run_simulates Fresh) in Hrun as (ph & Hph & Hr); [|exact Hu].
  exists (abstract ph). split; [exact Hr|by apply phase_copies].
Qed.
End accept.

(** ** Runs of the abstract machine *)

Lemma done_run v answers sp :
  sending_run (Done v) answers sp → sp = Done v ∧ Forall (gives v) answers.
Proof.
  intros Hr. remember (Done v) as sp0 eqn:E. revert E.
  induction Hr as [sp|sp a sp' answers sp'' Hs _ IH]; intros ->; [done|].
  inversion Hs; subst; destruct IH as [-> Hall]; try done; split; try done;
    by repeat constructor.
Qed.

Lemma stuck_run n answers sp :
  sending_run (Interrupted n) answers sp →
  sp = Interrupted n ∧ Forall (λ a, a = Ok Pending ∨ ∃ e, a = Err e) answers.
Proof.
  intros Hr. remember (Interrupted n) as sp0 eqn:E. revert E.
  induction Hr as [sp|sp a sp' answers sp'' Hs _ IH]; intros ->; [done|].
  inversion Hs; subst; destruct IH as [-> Hall]; try done; split; try done;
    constructor; eauto.
Qed.

(** From the start: at most one copy, one result, never superseded. *)
Lemma unsent_run answers sp :
  sending_run Unsent answers sp →
  sent_copies sp ≤ 1 ∧ (Ok Superseded ∉ answers) ∧
  ∀ x, Ok (Applied x) ∈ answers → sp = Done (Some x).
Proof.
  intros Hr. remember Unsent as sp0 eqn:E. revert E.
  induction Hr as [sp|sp a sp' answers sp'' Hs Hr IH]; intros ->.
  { split; [simpl; lia|]. split; [by apply not_elem_of_nil|]. by intros x Hx%not_elem_of_nil. }
  inversion Hs as [sp0 e|e n Hn|v a' Hg| |]; subst.
  - destruct IH as (Hc & Hsup & Happ); [done|]. split; [done|]. split.
    + by intros [|]%elem_of_cons.
    + intros x [|Hx]%elem_of_cons; [done|by apply Happ].
  - apply stuck_run in Hr as [-> Hall]. rewrite Forall_forall in Hall. split; [done|]. split.
    + intros [|Hx]%elem_of_cons; [done|]. by apply Hall in Hx as [|[? ?]].
    + intros x [|Hx]%elem_of_cons; [done|]. by apply Hall in Hx as [|[? ?]].
  - apply done_run in Hr as [-> Hall]. split; [done|].
    assert (Forall (gives v) (a :: answers)) as Hall' by by constructor.
    rewrite Forall_forall in Hall'. split.
    + intros Hx%Hall'. inversion Hx.
    + intros x Hx%Hall'. by inversion Hx as [? ->| |].
Qed.

(** ** The properties *)

Section props.
Context `{UnicodeCase} `{JournalCodec} `{Chrono} `{StoreText} `{BodyCodec} `{LuaJson} `{HubText}
  `{ClaimTool} `{!ClaimToolLaws}.

(** C22. The hub refines the abstract sending machine: however often a message or
    acknowledgement is replayed, among other requests and other clients, whichever
    calls to Redis or PostgreSQL are lost before or after they took effect and
    whichever write of a script fails, the answers are those of a machine that sends
    once, or dies on the way and then answers pending, and the entries in the stream
    are those the machine has. *)
Theorem hub_refines s hub r w answers w' :
  operation r = Send ∨ operation r = Ack → separated s → unseen s r w →
  hub_run s hub r w answers w' →
  ∃ sp, sending_run Unsent answers sp ∧ request_copies s r w' = sent_copies sp.
Proof. intros Hop Hs. by apply unseen_refines. Qed.

(** C5. At most once: after any such run the stream has got at most one entry for the
    request, it was never answered as superseded, and as soon as one answer said
    applied there is exactly one entry and every applied answer has that result. *)
Theorem message_at_most_once s hub r w answers w' :
  operation r = Send ∨ operation r = Ack → separated s → unseen s r w →
  hub_run s hub r w answers w' →
  request_copies s r w' ≤ 1 ∧ (Ok Superseded ∉ answers) ∧
  ∀ x, Ok (Applied x) ∈ answers →
    request_copies s r w' = 1 ∧ ∀ y, Ok (Applied y) ∈ answers → y = x.
Proof.
  intros Hop Hs Hu Hr. eapply unseen_refines in Hr as (sp & Hrun & ->); [|done..].
  apply unsent_run in Hrun as (Hc & Hsup & Happ). split_and!; [done|done|].
  intros x Hx. apply Happ in Hx as Hsp. rewrite Hsp. split; [done|].
  intros y Hy. apply Happ in Hy. congruence.
Qed.
End props.

(** ** The claim tool keeps its promise

    Run on the hub's own keys, the claim tool writes claim hashes, streams of channels and
    of resource events, never a memo and never an entry that names a request. *)

Section claim_tool.

(** A change that spares the memos and names no request. *)
Definition spared (d d' : hubdb) : Prop :=
  (∀ k, hd_keys d' !! (OUTBOX_PREFIX +:+ k) = hd_keys d !! (OUTBOX_PREFIX +:+ k)) ∧
  ∀ sk rid, copies sk rid d' = copies sk rid d.

#[local] Instance spared_preorder : PreOrder spared.
Proof.
  split; [by split|]. intros d1 d2 d3 [K12 C12] [K23 C23]. split; intros; [by rewrite K23|by rewrite C23].
Qed.

Definition off_outbox (key : string) : Prop := starts_with key OUTBOX_PREFIX = false.

Lemma off_outbox_ne key k : off_outbox key → key ≠ OUTBOX_PREFIX +:+ k.
Proof. intros Hk ->. unfold off_outbox, starts_with in Hk. by rewrite prefix_app in Hk. Qed.

Definition spares (c : cmd) : Prop :=
  match c with
  | HSET key _ | HSETNX key _ _ | HDEL key _ | DEL key | EXPIRE key _ => off_outbox key
  | XADD key _ fs | XADD_EXPIRE key _ fs _ =>
      off_outbox key ∧ flat_field "client_msg_id" (flat fs) = None
  | _ => True
  end.

Lemma delete_spared d key : off_outbox key → spared d (set_keys d (delete key (hd_keys d))).
Proof. intros Hk. split; [|done]. intros k. by apply lookup_delete_ne, off_outbox_ne. Qed.

Lemma insert_spared d key e : off_outbox key → spared d (set_keys d (<[key := e]> (hd_keys d))).
Proof. intros Hk. split; [|done]. intros k. by apply lookup_insert_ne, off_outbox_ne. Qed.

Lemma change_spared key f d now : off_outbox key → spared d (change_hash key f d now).2.
Proof.
  intros Hk. unfold change_hash. destruct (hash_at d now key) as [l|]; [|done].
  unfold set_hash. simpl. destruct (f l); [by apply delete_spared|by apply insert_spared].
Qed.

Lemma expire_spared key secs d now : off_outbox key → spared d (expire_key key secs d now).
Proof.
  intros Hk. unfold expire_key. destruct (live_entry d now key); [|done].
  destruct (_ <=? _)%Z; [by apply delete_spared|by apply insert_spared].
Qed.

Lemma add_spared key maxlen fs eid d now :
  off_outbox key → flat_field "client_msg_id" (flat fs) = None →
  spared d (add_entry key maxlen fs eid d now).2.
Proof.
  intros Hk Hf. assert (spared d (append_entry key maxlen eid (flat fs) 0 d now)) as Ha.
  { split; intros; [by apply lookup_insert_ne, off_outbox_ne|].
    rewrite copies_append. unfold is_copy. simpl. by rewrite Hf, andb_false_r, Nat.add_0_r. }
  unfold add_entry. destruct (live_entry d now key) as [[]|]; done.
Qed.

Lemma exec_spared c eid d now : spares c → spared d (hub_exec c eid d now).2.
Proof.
  destruct c; simpl; intros Hc; try done;
    [by apply change_spared..|by apply delete_spared|by apply expire_spared|by destruct Hc; apply add_spared|].
  destruct Hc as [Hk Hf]. pose proof (add_spared key maxlen fields eid d now Hk Hf) as Ha.
  destruct (add_entry _ _ _ _ _ _) as [r d']. simpl in *.
  transitivity d'; [done|by apply expire_spared].
Qed.

Lemma run_spared {A} (p : prog A) (s : hub_server) :
  issues spares p → spared (hs_db s) (hs_db (run (H := hub_redis) p s).2).
Proof.
  revert s. induction p as [a|e| |k IH|k IH|c k IH]; intros s; simpl; intros Hp; try done.
  - apply (IH _ (step_time s (hs_db s))), Hp.
  - apply (IH _ (step_time s (hs_db s))), Hp.
  - destruct Hp as [Hc Hp].
    pose proof (exec_spared c (pos_text (encode (hs_given s))) (hs_db s) (hs_now s / 1000000) Hc) as He.
    destruct (hub_exec _ _ _ _) as [r d]. simpl in *.
    transitivity d; [done|]. apply (IH _ (step_time s d)), Hp.
Qed.

Context `{UnicodeCase} `{UnicodeAlnum} `{Chrono} `{StoreText} `{ClaimCodec}.

Lemma connect_spares : issues spares connect.
Proof. unfold connect. by issues_tac. Qed.
#[local] Hint Resolve connect_spares : issues.

Lemma load_spares res : issues spares (load_active_claims (claims_key res)).
Proof. unfold load_active_claims. by issues_tac. Qed.

Lemma persist_spares res cs t : issues spares (persist_claims (claims_key res) cs t).
Proof.
  unfold persist_claims. assert (∀ cs, issues spares (store_claims (claims_key res) cs)) as Hs.
  { clear cs. intros cs. induction cs; cbn [store_claims]; by issues_tac. }
  by issues_tac.
Qed.

Lemma presences_spare keys : issues spares (get_presences keys).
Proof. induction keys as [|k ks IH]; cbn [get_presences]; by issues_tac. Qed.
#[local] Hint Resolve load_spares persist_spares presences_spare : issues.

Lemma xadd_spares key from to topic body th tags pr md :
  off_outbox key → issues spares (xadd_to_stream key from to topic body th tags pr md).
Proof.
  intros Hk. unfold xadd_to_stream. issues_tac.
  split; [done|]. by destruct (is_empty _).
Qed.

Lemma escalation_spares s sender body th tags :
  issues spares (post_escalation s sender body th tags).
Proof.
  unfold post_escalation, find_orchestrator, bus_list_presence. issues_tac; try done;
    by apply xadd_spares.
Qed.

Lemma emit_spares event ag res : issues spares (emit_resource_event event ag res).
Proof. unfold emit_resource_event. by issues_tac. Qed.
#[local] Hint Resolve escalation_spares emit_spares : issues.

Lemma claim_spares s args : issues spares (mcp.claim_resource s args).
Proof.
  unfold mcp.claim_resource, ops.claim_resource, claim_resource_with_options. by issues_tac.
Qed.

Lemma hub_claim_tool_laws s to_value t step :
  ClaimToolLaws (H := hub_claim_tool s to_value t step).
Proof.
  split; intros args d *; unfold dispatch_claim, hub_claim_tool;
    pose proof (run_spared _ (mkHubServer d t step 0) (claim_spares s args)) as [Hk Hc];
    destruct (run _ _) as [o w]; [apply Hk|apply Hc].
Qed.
End claim_tool.

(** ** Witnesses

    An acknowledgement whose first reply is lost after the script ran; a claim, which
    goes to the claim tool; the acknowledgement again. *)

Section demo.
#[local] Existing Instances ascii_case bit_codec bit_chrono plain_store no_compression bit_lua
  bit_hub ascii_alnum bit_claims.

(** The claim tool of a hub, at the instant of the demonstration. *)
Definition demo_claim_tool : ClaimTool :=
  hub_claim_tool (mkBus "agent_bus:presence:") claim_value 9000000 1000.
#[local] Existing Instance demo_claim_tool.

Lemma demo_tool_laws : ClaimToolLaws.
Proof. apply hub_claim_tool_laws. Qed.
#[local] Existing Instance demo_tool_laws.

Definition demo_settings : ReplaySettings :=
  mkReplaySettings "agent_bus:messages" "agent_bus:events" "agent_bus:presence:" 1000
    (Some "hub") None (Some "postgres://db") "messages" "presence".

Definition demo_ack (id : uuid) : ReplayRequest :=
  mkRequest id 7 1 5 0 Ack Cli [("agent", JStr "a"); ("message_id", JStr "m")].

Definition demo_env (call : delivery) (writes : option nat) : accept_env :=
  mkAcceptEnv "fresh" 6000000 7000000 false call (mkLua 9 writes ["1-1"] 0) (Some 9%Z) Delivered
    (mkLua 9 None [] 0) PgDone.

Definition demo_claim (id : uuid) : ReplayRequest :=
  mkRequest id 7 2 5 600005 ClaimRequest Cli
    [("agent", JStr "b"); ("resource", JStr "src/a.rs"); ("lease_ttl_seconds", jint 600)].

Definition demo_world : hubworld := mkWorld (mkHubDb ∅ [] []) (mkRows [] []).

Definition demo_first : answer * hubworld :=
  accept demo_settings (mkEnvelope "hub" (demo_ack 11)) (demo_env LostAfter None) demo_world.
Definition demo_claimed : answer * hubworld :=
  accept demo_settings (mkEnvelope "hub" (demo_claim 12)) (demo_env Delivered None) demo_first.2.
Definition demo_between : hubworld := demo_claimed.2.
Definition demo_end : answer * hubworld :=
  accept demo_settings (mkEnvelope "hub" (demo_ack 11)) (demo_env Delivered None) demo_between.

Lemma demo_separated : separated demo_settings.
Proof. split; [reflexivity|]. intros ag. reflexivity. Qed.

Lemma demo_unseen : unseen demo_settings (demo_ack 11) demo_world.
Proof. split; [apply lookup_empty|reflexivity]. Qed.

Lemma demo_run : hub_run demo_settings "hub" (demo_ack 11) demo_world
  [demo_first.1; demo_end.1] demo_end.2.
Proof. unfold demo_end, demo_between, demo_claimed, demo_first. by apply run_around. Qed.

Lemma hub_refines_witness :
  ∃ sp, sending_run Unsent [demo_first.1; demo_end.1] sp ∧
    request_copies demo_settings (demo_ack 11) demo_end.2 = sent_copies sp.
Proof.
  apply (hub_refines demo_settings "hub" (demo_ack 11) demo_world);
    [by right|apply demo_separated|apply demo_unseen|apply demo_run].
Defined.

Lemma message_at_most_once_witness :
  demo_first.1 = Err Unavailable ∧ is_ok demo_end.1 = true ∧
  (match demo_claimed.1 with Ok (Applied v) => vget v "status" | _ => None end) = Some (JStr "g") ∧
  length (hd_appended (w_db demo_end.2)) = 2 ∧
  request_copies demo_settings (demo_ack 11) demo_end.2 ≤ 1 ∧
  (Ok Superseded ∉ [demo_first.1; demo_end.1]) ∧
  ∀ x, Ok (Applied x) ∈ [demo_first.1; demo_end.1] →
    request_copies demo_settings (demo_ack 11) demo_end.2 = 1 ∧
    ∀ y, Ok (Applied y) ∈ [demo_first.1; demo_end.1] → y = x.
Proof.
  do 4 (split; [by vm_compute|]).
  apply (message_at_most_once demo_settings "hub" (demo_ack 11) demo_world);
    [by right|apply demo_separated|apply demo_unseen|apply demo_run].
Defined.
End demo.
