(* ===== verification/FlushFacts.v ===== *)
(** * FlushFacts: following one request through a flush

    What a flush does to one of its requests, for any transport: the invariants of
    the transport's state it keeps, what the dispositions of its report mean for the
    queue and for the answers, and what it leaves pending. *)

From Stdlib Require Import ZArith Lia Ascii.
From stdpp Require Import base option list strings gmap sorting.
From S2P Require Import Prelude Str Json Validation McpSchema ClaimTypes Outbox OutboxFacts OutboxProps.

Section flush.
Context `{UnicodeCase} `{!JournalCodec} `{!JournalCodecLaws}.
Context {W : Type} (replay : W → ReplayRequest → result ReplayFailure ReplayResponse * W).

(** Requests of a journal are known by their identifiers. *)
Lemma durable_same_id d j k r r' :
  Durable d j → (sequence r, r) ∈ pending j → (k, r') ∈ pending j →
  request_id r' = request_id r → r' = r.
Proof.
  intros Hd Hq Hr' E. destruct (durable_wf _ _ Hd) as [ids [_ _ Hn]].
  destruct (list_elem_of_lookup_1 _ _ Hq) as [i Hi].
  destruct (list_elem_of_lookup_1 _ _ Hr') as [i' Hi'].
  assert (i = i') as <-; [|congruence].
  eapply (NoDup_lookup _ _ _ (request_id r) Hn); rewrite list_lookup_fmap, ?Hi, ?Hi'; [done|].
  simpl. by rewrite E.
Qed.

(** ** Invariants of the transport's state *)

Section tracked.
(** [I] is kept by every replay of [reqs]; [S] is reached by an applied answer to a
    request identified by [rid] and then kept. *)
Context (I S : W → Prop) (rid : uuid) (reqs0 : list ReplayRequest).
Hypothesis Hkeep : ∀ w r, r ∈ reqs0 → I w → I (replay w r).2.
Hypothesis Hstay : ∀ w r, r ∈ reqs0 → I w → S w → S (replay w r).2.
Hypothesis Hreach : ∀ w r v, r ∈ reqs0 → I w → request_id r = rid →
  (replay w r).1 = Ok (Applied v) → S (replay w r).2.

Definition applied_means (rep : FlushReport) (w : W) : Prop :=
  dispositions rep !! rid = Some DApplied → S w.

Lemma settle_with_note j r d rep k out j' :
  settle_with j r d rep k = (Ok out, j') → out = k (note rep (request_id r) d).
Proof. unfold settle_with. destruct (settle j r d) as [[[]|e] j1]; by intros [= <- <-]. Qed.

Lemma noted_applied rep id d w :
  applied_means rep w → (d = DApplied → id = rid → S w) →
  dispositions (note rep id d) !! rid = Some DApplied → S w.
Proof.
  intros Hr Hd. unfold note. cbn [dispositions]. destruct (decide (id = rid)) as [->|Hne].
  - rewrite lookup_insert_eq. intros [= ->]. by apply Hd.
  - rewrite lookup_insert_ne by done. apply Hr.
Qed.

Lemma conclude_tracked j r rep answer rep' fl j' w :
  applied_means rep w → (∀ v, answer = Ok (Applied v) → request_id r = rid → S w) →
  conclude j r rep answer = (Ok (rep', fl), j') → applied_means rep' w.
Proof.
  intros Hr Ha Hc. unfold conclude in Hc.
  destruct answer as [[v| |]|[|]]; try (injection Hc as <- <- <-; exact Hr);
    apply settle_with_note in Hc; injection Hc as -> ->; intros Hd;
    eapply (noted_applied _ _ _ w Hr); try exact Hd; try done; eauto.
Qed.

Lemma flush_one_tracked now j w rep r out j' w' :
  r ∈ reqs0 → I w → flush_one replay now j w rep r = (out, j', w') →
  I w' ∧ (S w → S w') ∧
  ∀ rep' fl, out = Ok (rep', fl) → applied_means rep w → applied_means rep' w'.
Proof.
  intros Hin Hi Hf. unfold flush_one in Hf. destruct (send_decision j r now) as [d|] eqn:Ed.
  - destruct (settle_with _ _ _ _ _) as [o j1] eqn:Es. injection Hf as <- <- <-.
    split; [done|]. split; [done|]. intros rep' fl -> Hr.
    apply settle_with_note in Es. injection Es as -> ->.
    unfold applied_means. apply noted_applied; [done|]. intros -> _.
    unfold send_decision in Ed. repeat case_match; congruence.
  - destruct (mark_attempted j r) as [[u|e] j1].
    2: { injection Hf as <- <- <-. split; [done|]. by split. }
    pose proof (Hkeep w r Hin Hi) as Hi'. pose proof (Hstay w r Hin Hi) as Hs'.
    pose proof (λ v, Hreach w r v Hin Hi) as Hv.
    destruct (replay w r) as [answer w1]. simpl in *.
    destruct (conclude _ _ _ _) as [o j2] eqn:Ec. injection Hf as <- <- <-.
    split; [done|]. split; [done|]. intros rep' fl -> Hr.
    eapply conclude_tracked; [|by eauto|exact Ec]. unfold applied_means. auto.
Qed.

Lemma flush_loop_tracked now j w rep reqs out j' w' :
  (∀ r, r ∈ reqs → r ∈ reqs0) → I w →
  flush_loop replay now j w rep reqs = (out, j', w') →
  I w' ∧ (S w → S w') ∧ ∀ rep', out = Ok rep' → applied_means rep w → applied_means rep' w'.
Proof.
  revert j w rep. induction reqs as [|r reqs IH]; intros j w rep Hin Hi Hl; simpl in Hl.
  { injection Hl as <- <- <-. split; [done|]. split; [done|]. by intros rep' [= <-]. }
  destruct (flush_one _ _ _ _ _ _) as [[o j1] w1] eqn:E.
  eapply flush_one_tracked in E as (Hi1 & Hs1 & Hr1); [|apply Hin; left|exact Hi].
  destruct o as [[rep1 fl]|e].
  - specialize (Hr1 rep1 fl eq_refl). destruct fl.
    + apply IH in Hl as (Hi' & Hs' & Hr'); [|intros x Hx; apply Hin; by right|done].
      split; [done|]. split; [auto|]. intros rep' E. auto.
    + injection Hl as <- <- <-. split; [done|]. split; [done|]. intros rep' [= <-]. exact Hr1.
  - injection Hl as <- <- <-. by split_and!.
Qed.

Lemma flush_tracked now limit j w out j' w' :
  (∀ r, r ∈ map snd (pending j) → r ∈ reqs0) → I w →
  flush replay now limit j w = (out, j', w') →
  I w' ∧ (S w → S w') ∧
  ∀ rep, out = Ok rep → dispositions rep !! rid = Some DApplied → S w'.
Proof.
  intros Hin Hi Hf. apply flush_loop_tracked in Hf as (Hi' & Hs & Hr); [|intros r Hr|done].
  - split; [done|]. split; [done|]. intros rep E. apply (Hr rep E). by intros ?.
  - apply Hin. by eapply elem_of_sublist; [|apply sublist_take].
Qed.
End tracked.

(** ** The fate of one request *)

Abbreviation answer := (result ReplayFailure ReplayResponse).
Abbreviation call := (ReplayRequest * answer)%type.

(** The transport that also keeps what it was asked and what it answered, in order. *)
Definition logging (lw : list call * W) (r : ReplayRequest) : answer * (list call * W) :=
  let '(a, w) := replay lw.2 r in (a, (lw.1 ++ [(r, a)], w)).

(** What a request was answered, if it was sent. *)
Definition answer_to (r : ReplayRequest) (calls : list call) : option answer :=
  snd <$> find (λ c, bool_decide (c.1 = r)) calls.

Lemma answer_to_snoc r calls a :
  answer_to r calls = None → answer_to r (calls ++ [(r, a)]) = Some a.
Proof.
  unfold answer_to. induction calls as [|c calls IH]; simpl; [by rewrite bool_decide_eq_true_2|].
  destruct (bool_decide _); [done|auto].
Qed.

Lemma answer_to_other r r' calls a :
  r' ≠ r → answer_to r (calls ++ [(r', a)]) = answer_to r calls.
Proof.
  intros Hne. unfold answer_to. induction calls as [|c calls IH]; simpl.
  { by rewrite bool_decide_eq_false_2. }
  destruct (bool_decide _); auto.
Qed.

Section fate.
Context (r : ReplayRequest) (now : Z) (p0 : list (Z * ReplayRequest)).
Abbreviation rid := (request_id r).
Abbreviation queued p := ((sequence r, r) ∈ p).

(** What the report, the queue and the log of the transport say of the request while
    nothing stopped at it: it waits and was not sent, it was settled with its answer, or
    it was dropped before it was sent. *)
Inductive standing (rep : FlushReport) (p : list (Z * ReplayRequest)) (calls : list call) : Prop :=
  | standing_queued :
      dispositions rep !! rid = None → results rep !! rid = None → queued p →
      answer_to r calls = None → standing rep p calls
  | standing_applied v :
      dispositions rep !! rid = Some DApplied → results rep !! rid = Some v → ¬ queued p →
      answer_to r calls = Some (Ok (Applied v)) → standing rep p calls
  | standing_superseded :
      dispositions rep !! rid = Some DSuperseded → results rep !! rid = None → ¬ queued p →
      answer_to r calls = Some (Ok Superseded) → standing rep p calls
  | standing_dropped d j :
      send_decision j r now = Drop d → (∀ kv, kv ∈ pending j → kv ∈ p0) →
      dispositions rep !! rid = Some d → results rep !! rid = None → ¬ queued p →
      standing rep p calls.

(** While the flush goes on. *)
Record going (rep : FlushReport) (p : list (Z * ReplayRequest)) (calls : list call) : Prop := {
  go_standing : standing rep p calls;
  go_rejected : rejected rep = 0;
  go_blocked : blocked_request rep = None;
  go_keys : NoDup p.*1;
  go_pending : ∀ kv, kv ∈ p → kv ∈ p0;
}.

(** At its end: it may also have stopped at the request, which was rejected, or was not
    answered for good and is kept. *)
Inductive fate (rep : FlushReport) (p : list (Z * ReplayRequest)) (calls : list call) : Prop :=
  | fate_standing :
      standing rep p calls → rejected rep = 0 ∨ blocked_request rep ≠ Some rid → fate rep p calls
  | fate_held :
      dispositions rep !! rid = None → results rep !! rid = None → queued p →
      answer_to r calls = Some (Ok Pending) ∨ answer_to r calls = Some (Err Transport) →
      rejected rep = 0 → fate rep p calls
  | fate_rejected :
      dispositions rep !! rid = Some DRejected → ¬ queued p →
      answer_to r calls = Some (Err Permanent) →
      0 < rejected rep → blocked_request rep = Some rid → fate rep p calls.

Lemma queued_removed p : NoDup p.*1 → ¬ queued (bt_remove (sequence r) p).
Proof.
  intros Hn Hin. pose proof (bt_remove_gone (sequence r) p Hn) as Hg.
  rewrite Forall_forall in Hg. by apply (Hg _ Hin).
Qed.

Lemma keys_removed k (p : list (Z * ReplayRequest)) : NoDup p.*1 → NoDup (bt_remove k p).*1.
Proof. intros Hn. eapply sublist_NoDup; [exact Hn|apply fmap_sublist, bt_remove_sublist]. Qed.

Lemma queued_other r' p : sequence r' ≠ sequence r → queued (bt_remove (sequence r') p) ↔ queued p.
Proof.
  intros Hne. split; [apply elem_of_bt_remove|by apply bt_remove_ne].
Qed.

(** Reports and logs that say the same of the request. *)
Lemma standing_ext rep rep' p p' calls calls' :
  dispositions rep' !! rid = dispositions rep !! rid → results rep' !! rid = results rep !! rid →
  (queued p' ↔ queued p) → answer_to r calls' = answer_to r calls →
  standing rep p calls → standing rep' p' calls'.
Proof.
  intros Hd Hr Hq Hc [Hd' Hr' Hp Ha|v Hd' Hr' Hp Ha|Hd' Hr' Hp Ha|d j Hdd Hsub Hd' Hr' Hp].
  - apply standing_queued; [congruence..|by apply Hq|congruence].
  - apply (standing_applied _ _ _ v); [congruence..|by rewrite Hq|congruence].
  - apply standing_superseded; [congruence..|by rewrite Hq|congruence].
  - apply (standing_dropped _ _ _ d j); [done|done|congruence..|by rewrite Hq].
Qed.

Lemma standing_queued_inv rep p calls : standing rep p calls → queued p →
  dispositions rep !! rid = None ∧ results rep !! rid = None ∧ answer_to r calls = None.
Proof. by intros []. Qed.

(** Requests of the flush: this one, or others of other identity and place. *)
Definition other (r' : ReplayRequest) : Prop :=
  request_id r' ≠ rid ∧ sequence r' ≠ sequence r ∧ r' ≠ r.

(** Settling another request changes nothing for this one. *)
Lemma going_other rep rep' p r' calls calls' :
  other r' → going rep p calls →
  dispositions rep' !! rid = dispositions rep !! rid → results rep' !! rid = results rep !! rid →
  rejected rep' = 0 → blocked_request rep' = None → answer_to r calls' = answer_to r calls →
  going rep' (bt_remove (sequence r') p) calls'.
Proof.
  intros (Hid & Hseq & Hne) [Hs Hrej Hb Hn Hp0] Hd Hr Hrej' Hb' Hc.
  constructor; [|done|done|by apply keys_removed|by intros kv ?%elem_of_bt_remove; apply Hp0].
  eapply standing_ext; [done|done|by apply queued_other|done|exact Hs].
Qed.

(** Settling this request. *)
Lemma going_settled rep rep' p calls calls' :
  going rep p calls → rejected rep' = 0 → blocked_request rep' = None →
  (¬ queued (bt_remove (sequence r) p) → standing rep' (bt_remove (sequence r) p) calls') →
  going rep' (bt_remove (sequence r) p) calls'.
Proof.
  intros [Hs Hrej Hb Hn Hp0] Hrej' Hb' Hs'.
  constructor; [|done|done|by apply keys_removed|by intros kv ?%elem_of_bt_remove; apply Hp0].
  by apply Hs', queued_removed.
Qed.

Lemma noted_eq rep id d : dispositions (note rep id d) !! id = Some d.
Proof. unfold note. cbn [dispositions]. apply lookup_insert_eq. Qed.

Lemma noted_ne rep id id' d : id ≠ id' → dispositions (note rep id d) !! id' = dispositions rep !! id'.
Proof. intros Hne. unfold note. cbn [dispositions]. by apply lookup_insert_ne. Qed.

Lemma note_rejected rep id d : d ≠ DRejected → rejected (note rep id d) = rejected rep.
Proof. intros Hd. unfold note. cbn [rejected]. rewrite decide_False by done. lia. Qed.

Lemma note_result_rejected rep id v :
  rejected (note_result (note rep id DApplied) id v) = rejected rep.
Proof. by apply (note_rejected rep id DApplied). Qed.

Lemma settle_pending j r' d u j' : settle j r' d = (Ok u, j') →
  pending j' = bt_remove (sequence r') (pending j).
Proof. intros Hs. by apply settle_frame in Hs as [(e & ? & _)|Hp]. Qed.

Lemma mark_attempted_pending j r' res j' : mark_attempted j r' = (res, j') → pending j' = pending j.
Proof.
  unfold mark_attempted. case_bool_decide; [by intros [= _ <-]|].
  destruct (append j (Attempted (request_id r'))) as [[u|e] j1] eqn:Ha; intros [= _ <-].
  - by apply append_Ok in Ha as (_ & _ & [_ _ Hp _ _] & _).
  - by apply append_Err in Ha as [[_ _ Hp _ _] _].
Qed.

Lemma settle_with_pending j r' d rep k out j' : settle_with j r' d rep k = (Ok out, j') →
  out = k (note rep (request_id r') d) ∧ pending j' = bt_remove (sequence r') (pending j).
Proof.
  unfold settle_with. destruct (settle j r' d) as [[u|e] j1] eqn:Es; [|done].
  intros [= <- <-]. split; [done|by eapply settle_pending].
Qed.

Definition after (fl : flow) (rep : FlushReport) (p : list (Z * ReplayRequest)) (calls : list call)
    : Prop :=
  match fl with Continue => going rep p calls | Break => fate rep p calls end.

(** The transport's answer to this request. *)
Lemma conclude_this j rep calls a rep' fl j' :
  going rep (pending j) calls → queued (pending j) →
  conclude j r rep a = (Ok (rep', fl), j') → after fl rep' (pending j') (calls ++ [(r, a)]).
Proof.
  intros Hg Hq Hc. pose proof Hg as [Hs Hrej Hb Hn _].
  destruct (standing_queued_inv _ _ _ Hs Hq) as (Hd & Hr & Ha).
  pose proof (answer_to_snoc r calls a Ha) as Ha'.
  unfold conclude in Hc. destruct a as [[v| |]|[|]];
    try (injection Hc as <- <- <-; apply fate_held; auto; done);
    apply settle_with_pending in Hc as [Ho Hp]; injection Ho as -> ->; rewrite Hp; cbn [after].
  - apply (going_settled rep _ _ calls); [done|by rewrite note_result_rejected|done|intros Hnq].
    apply (standing_applied _ _ _ v); [apply noted_eq|apply lookup_insert_eq|done|done].
  - apply (going_settled rep _ _ calls); [done|rewrite note_rejected; done|done|intros Hnq].
    apply standing_superseded; [apply noted_eq|exact Hr|done|done].
  - apply fate_rejected; [apply noted_eq|by apply queued_removed|done| |done].
    change (0 < rejected rep + 1). lia.
Qed.

(** The transport's answer to another one. *)
Lemma conclude_other j rep calls r' a rep' fl j' :
  other r' → going rep (pending j) calls →
  conclude j r' rep a = (Ok (rep', fl), j') → after fl rep' (pending j') (calls ++ [(r', a)]).
Proof.
  intros Hr' Hg Hc. pose proof Hg as [Hs Hrej Hb Hn _]. pose proof Hr' as (Hid & Hseq & Hne).
  pose proof (answer_to_other r r' calls a Hne) as Ha.
  unfold conclude in Hc. destruct a as [[v| |]|[|]];
    try (injection Hc as <- <- <-; apply fate_standing; [|by left];
         by apply (standing_ext rep _ (pending j) _ calls));
    apply settle_with_pending in Hc as [Ho Hp]; injection Ho as -> ->; rewrite Hp; cbn [after].
  - apply (going_other rep _ _ _ calls); [done|done|by apply noted_ne|by apply lookup_insert_ne| | |done];
      [by rewrite note_result_rejected|done].
  - apply (going_other rep _ _ _ calls); [done|done|by apply noted_ne|done| | |done];
      [rewrite note_rejected; done|done].
  - apply fate_standing; [|right; by intros [= ?]].
    apply (standing_ext rep _ (pending j) _ calls);
      [by apply noted_ne|done|by apply queued_other|done|done].
Qed.

Lemma flush_one_fate j lw rep r' rep' fl j' lw' :
  r' = r ∨ other r' → going rep (pending j) lw.1 → queued (pending j) ∨ r' ≠ r →
  flush_one logging now j lw rep r' = (Ok (rep', fl), j', lw') →
  after fl rep' (pending j') lw'.1 ∧ (r' ≠ r → queued (pending j) → queued (pending j')).
Proof.
  intros Hr' Hg Hq Hf.
  assert (pending j' = pending j ∨ pending j' = bt_remove (sequence r') (pending j)) as Hp'.
  { unfold flush_one in Hf. destruct (send_decision j r' now) as [d|].
    - destruct (settle_with _ _ _ _ _) as [o j1] eqn:Es. injection Hf as -> -> _.
      apply settle_with_pending in Es as [_ ?]. by right.
    - destruct (mark_attempted j r') as [[u|e] j1] eqn:Em; [|done].
      apply mark_attempted_pending in Em. destruct (logging lw r') as [a lw1].
      destruct (conclude _ _ _ _) as [o j2] eqn:Ec. injection Hf as -> -> _. rewrite <- Em.
      unfold conclude in Ec. destruct a as [[v| |]|[|]]; try (injection Ec as _ _ <-; by left);
        apply settle_with_pending in Ec as [_ ?]; by right. }
  split.
  2: { intros Hne Hin. destruct Hr' as [->|(_ & Hseq & _)]; [done|].
       destruct Hp' as [-> | ->]; [done|by apply queued_other]. }
  unfold flush_one in Hf. destruct (send_decision j r' now) as [d|] eqn:Ed.
  - destruct (settle_with _ _ _ _ _) as [o j1] eqn:Es. injection Hf as -> -> <-.
    apply settle_with_pending in Es as [Ho Hp]. injection Ho as -> ->. rewrite Hp. cbn [after].
    assert (d ≠ DRejected) as Hd by (unfold send_decision in Ed; repeat case_match; congruence).
    pose proof Hg as [Hs Hrej Hb Hn Hp0]. destruct Hr' as [->|Ho].
    + destruct Hq as [Hq|]; [|done]. destruct (standing_queued_inv _ _ _ Hs Hq) as (_ & Hr & _).
      apply (going_settled rep _ _ lw.1); [done|rewrite note_rejected; done|done|intros Hnq].
      apply (standing_dropped _ _ _ d j); [done|done|apply noted_eq|exact Hr|done].
    + pose proof Ho as (Hid & _ & _).
      apply (going_other rep _ _ _ lw.1); [done|done|by apply noted_ne|done| |done|done].
      rewrite note_rejected; done.
  - destruct (mark_attempted j r') as [[u|e] j1] eqn:Em; [|done].
    apply mark_attempted_pending in Em. unfold logging in Hf.
    destruct (replay lw.2 r') as [a w1]. destruct (conclude _ _ _ _) as [o j2] eqn:Ec.
    injection Hf as -> -> <-. cbn [fst]. rewrite <- Em in Hg, Hq. destruct Hr' as [->|Ho].
    + destruct Hq as [Hq|]; [|done]. by eapply conclude_this.
    + by eapply conclude_other.
Qed.

Lemma fate_remaining rep p calls n : fate rep p calls → fate (note_remaining rep n) p calls.
Proof.
  intros [Hs Hb|? ? ? ? ?|? ? ? ? ?]; [|by apply fate_held|by apply fate_rejected].
  apply fate_standing; [|done]. by apply (standing_ext rep _ p _ calls).
Qed.

Lemma flush_loop_fate j lw rep reqs rep' j' lw' :
  (∀ r', r' ∈ reqs → r' = r ∨ other r') → NoDup reqs → going rep (pending j) lw.1 →
  (r ∈ reqs → queued (pending j)) →
  flush_loop logging now j lw rep reqs = (Ok rep', j', lw') → fate rep' (pending j') lw'.1.
Proof.
  revert j lw rep. induction reqs as [|r' reqs IH]; intros j lw rep Hr' Hnd Hg Hq Hl; simpl in Hl.
  { injection Hl as <- <- <-. apply fate_remaining, fate_standing; [apply Hg|left; apply Hg]. }
  destruct (flush_one _ _ _ _ _ _) as [[[[rep1 fl]|e] j1] lw1] eqn:E; [|done].
  apply NoDup_cons in Hnd as [Hni Hnd].
  apply flush_one_fate in E as [Hfl Hk]; [|apply Hr'; left|done|].
  2: { destruct (decide (r' = r)) as [->|]; [left; apply Hq; left|by right]. }
  destruct fl; [|by injection Hl as <- <- <-; apply fate_remaining].
  apply IH in Hl; [done|intros x Hx; apply Hr'; by right|done|done|].
  intros Hin. apply Hk; [by intros ->|]. apply Hq. by right.
Qed.
End fate.

Lemma flush_fate r ids now limit j w rep j' lw' :
  pending_wf (pending j) (next_sequence j) ids → (sequence r, r) ∈ pending j →
  flush logging now limit j ([], w) = (Ok rep, j', lw') →
  fate r now (pending j) rep (pending j') lw'.1.
Proof.
  intros [Hk Hs Hn] Hq Hf. rewrite Forall_forall in Hk.
  eapply flush_loop_fate in Hf; [done| | | |by intros].
  - intros r' Hr'. destruct (decide (r' = r)) as [|Hne]; [by left|right].
    eapply flush_requests_pending in Hr'; [|by constructor; [by apply Forall_forall|done..]].
    destruct (list_elem_of_lookup_1 _ _ Hq) as [i Hi].
    destruct (list_elem_of_lookup_1 _ _ Hr') as [i' Hi'].
    assert (i ≠ i') as Hii by congruence. split_and!; [intros E; apply Hii..|done].
    + eapply (NoDup_lookup _ _ _ (request_id r) Hn); rewrite list_lookup_fmap, ?Hi, ?Hi'; [done|].
      simpl. by rewrite E.
    + eapply (NoDup_lookup _ _ _ (sequence r) (StronglySorted_lt_NoDup _ Hs));
        rewrite list_lookup_fmap, ?Hi, ?Hi'; [done|]. simpl. by rewrite E.
  - eapply sublist_NoDup; [|apply sublist_take]. apply (NoDup_fmap_1 request_id).
    change (map snd (pending j)) with (snd <$> pending j). by rewrite <- list_fmap_compose.
  - constructor; [by apply standing_queued|done|done|by apply StronglySorted_lt_NoDup|done].
Qed.
End flush.
