(* ===== verification/DeliveryProps.v ===== *)
(** * DeliveryProps: the outbox, the network and the hub together

    One request followed from the journal of a client through its transport, the
    network and the hub's replay scripts: whatever is lost on the way, it is in the
    stream at most once, and a client that recorded it as applied is right. *)

From Stdlib Require Import ZArith Lia Ascii.
From stdpp Require Import base option list strings gmap.
From S2P Require Import Prelude Str Json Validation McpSchema ClaimTypes Outbox OutboxFacts OutboxProps.
From S2P Require Import HubTypes Redis Channels Messages ReplayScript OutboxHub OutboxClient ReplayHttp.
From S2P Require Import ReplayFacts OutboxCodec ClaimInstances HubInstances OutboxHubProps FlushFacts.

Section delivery.
Context `{UnicodeCase} `{JournalCodec} `{Chrono} `{StoreText} `{BodyCodec} `{LuaJson} `{HubText}
  `{ClaimTool} `{!ClaimToolLaws} `{ExchangeCodec}.
Context (s : ReplaySettings) (r : ReplayRequest).
Hypothesis Hmessage : operation r = Send ∨ operation r = Ack.
Hypothesis Hseparated : separated s.

(** ** The hub's state *)

(** The hub knows where it stands with the request, and has sent it. *)
Definition hub_tracks (w : hubworld) : Prop := ∃ ph, phase_of s r ph w.
Definition hub_sent (w : hubworld) : Prop := ∃ raw, phase_of s r (Sent raw) w.

Lemma unseen_tracks w : unseen s r w → hub_tracks w.
Proof. intros Hu. by exists Fresh. Qed.

Lemma tracks_copies w : hub_tracks w → request_copies s r w ≤ 1.
Proof.
  intros [ph Hp]. rewrite (phase_copies s "" r ph w Hp).
  destruct ph as [|n|raw]; simpl; [lia| |lia]. by destruct Hp.
Qed.

Lemma sent_once w : hub_sent w → request_copies s r w = 1.
Proof. intros [raw Hp]. by rewrite (phase_copies s "" r (Sent raw) w Hp). Qed.

Lemma sent_tracks w : hub_sent w → hub_tracks w.
Proof. intros [raw Hp]. by eexists. Qed.

(** A step of the hub, of this request or of another. *)
Record hub_step (w w' : hubworld) : Prop := {
  step_tracks : hub_tracks w → hub_tracks w';
  step_keeps : hub_sent w → hub_sent w';
}.

#[export] Instance hub_step_preorder : PreOrder hub_step.
Proof.
  split; [by split|]. intros w1 w2 w3 [H12 K12] [H23 K23]. split; auto.
Qed.

Lemma untouched_step w w' : untouched s r (w_db w) (w_db w') → hub_step w w'.
Proof.
  intros Hu. split.
  - intros [ph Hp]. exists ph. by eapply phase_moved.
  - intros [raw Hp]. exists raw. by eapply phase_moved.
Qed.

Lemma accept_step ev e w :
  ev_request ev = r ∨ request_id (ev_request ev) ≠ request_id r → hub_tracks w →
  hub_step w (accept s ev e w).2 ∧
  (ev_request ev = r → ∀ v, (accept s ev e w).1 = Ok (Applied v) → hub_sent (accept s ev e w).2).
Proof.
  intros Hev [ph Hp]. destruct (decide (ev_request ev = r)) as [Heq|Hne].
  2: { destruct Hev as [|Hid]; [done|]. split; [by apply untouched_step, accept_other|done]. }
  destruct ev as [hub r']. cbn in Heq. subst r'.
  assert (∀ ph0, phase_of s r ph0 w → ∃ ph', phase_of s r ph' (accept s (mkEnvelope hub r) e w).2 ∧
    sending_step (abstract hub r ph0) (accept s (mkEnvelope hub r) e w).1 (abstract hub r ph')) as Hown.
  { intros ph0 Hp0. pose proof (accept_own s hub r Hmessage Hseparated e ph0 w Hp0) as Ho.
    by destruct (accept s (mkEnvelope hub r) e w). }
  split; [split|].
  - intros [ph0 Hp0]. destruct (Hown ph0 Hp0) as (ph' & Hp' & _). by exists ph'.
  - intros [raw Hp0]. destruct (Hown _ Hp0) as (ph' & Hp' & Hs). simpl in Hs.
    assert (∃ v, abstract hub r ph' = Done v) as [v Hv] by (inversion Hs; eauto).
    destruct ph' as [|n|raw']; [done..|]. by exists raw'.
  - intros _ v Hv. destruct (Hown ph Hp) as (ph' & Hp' & Hs). rewrite Hv in Hs.
    assert (∃ v, abstract hub r ph' = Done v) as [x Hx] by (inversion Hs; eauto).
    destruct ph' as [|n|raw']; [done..|]. by exists raw'.
Qed.

(** ** The server *)

Lemma read_reply_error code body v :
  code ∈ [400; 401; 403; 409; 503]%Z → read_reply code body ≠ Ok (Applied v).
Proof. intros Hc. each_index Hc; done. Qed.

Lemma error_status_listed e : error_status e ∈ [400; 401; 403; 409; 503]%Z.
Proof. destruct e; cbn; set_solver. Qed.

Lemma read_applied a v : read_reply 200 (Some (response_text a)) = Ok (Applied v) → ∃ x, a = Applied x.
Proof.
  unfold read_reply. cbn. destruct (_ <? _)%Z; [done|].
  destruct (response_of_text _) as [a'|] eqn:E; [|done]. intros [= ->].
  by eapply response_text_applied.
Qed.

Lemma serve_step se header body ev w :
  (∀ ev', envelope_of_slice body = Some ev' → ev' = ev) →
  ev_request ev = r ∨ request_id (ev_request ev) ≠ request_id r → hub_tracks w →
  let '(code, reply, w') := serve s se header body w in
  hub_step w w' ∧
  (ev_request ev = r → ∀ v, read_reply code (Some reply) = Ok (Applied v) → hub_sent w').
Proof.
  intros Hb Hev Ht.
  assert (∀ code, code ∈ [400; 401; 403; 409; 503]%Z → hub_step w w ∧
    (ev_request ev = r → ∀ v, read_reply code (Some "") = Ok (Applied v) → hub_sent w)) as Hno.
  { intros code Hc. split; [done|]. by intros _ v Hv%read_reply_error. }
  unfold serve. destruct (require_bearer_auth _ _ _ _); [|apply Hno; set_solver].
  unfold http_replay_handler. destruct (se_blocked se); [apply Hno; set_solver|].
  destruct (from_option _ _ _); [apply Hno; set_solver|].
  destruct (_ <? _)%Z; [apply Hno; set_solver|].
  destruct (envelope_of_slice body) as [ev'|]; [|apply Hno; set_solver].
  rewrite (Hb ev' eq_refl).
  pose proof (accept_step ev (se_accept se) w Hev Ht) as [Hs Ha].
  destruct (se_connected se).
  - destruct (accept s ev (se_accept se) w) as [res w']. simpl in Hs, Ha.
    destruct (se_joined se); simpl.
    + destruct res as [a|e]; (split; [exact Hs|]); intros Hr v Hv.
      * apply read_applied in Hv as [x ->]. by apply (Ha Hr x).
      * exfalso. eapply read_reply_error; [apply (error_status_listed e)|exact Hv].
    + split; [exact Hs|]. by intros _ v Hv.
  - destruct (se_joined se); simpl; (split; [done|]); by intros _ v Hv.
Qed.

(** A reply over the client's limit is taken for a permanent refusal, although the hub
    sent the message. *)
Lemma long_reply_is_permanent ev e w v :
  ev_request ev = r → hub_tracks w → (accept s ev e w).1 = Ok (Applied v) →
  (RECORD_LIMIT < str_len (response_text (Applied v)))%Z →
  hub_sent (accept s ev e w).2 ∧
  read_reply 200 (Some (response_text (Applied v))) = Err Permanent.
Proof.
  intros Hev Ht Ha Hl. destruct (accept_step ev e w (or_introl Hev) Ht) as [_ Hs].
  split; [by eapply Hs|]. unfold read_reply. cbn. by apply Z.ltb_lt in Hl as ->.
Qed.

(** ** The network *)

(** Others leave the request alone, and nobody in between answers with success. *)
Record call_ok (c : net_call) : Prop := {
  call_meanwhile w : untouched s r (w_db w) (w_db (nc_meanwhile c w));
  call_foreign : match nc_link c with
                 | Foreign _ code _ => ¬ (200 ≤ code < 300)%Z
                 | _ => True
                 end;
}.

Definition net_ok (net : network) : Prop := hub_tracks net.1 ∧ Forall call_ok net.2.

Lemma broken_not_applied code v : read_reply code None ≠ Ok (Applied v).
Proof. unfold read_reply. repeat case_match; done. Qed.

Lemma foreign_not_applied code body v : ¬ (200 ≤ code < 300)%Z → read_reply code body ≠ Ok (Applied v).
Proof.
  intros Hc. unfold read_reply. destruct (code =? 503)%Z; [done|].
  destruct (Z.leb_spec 200 code), (Z.ltb_spec code 300); simpl; try done. lia.
Qed.

(** One replay attempt of a request of the journal. *)
Lemma native_step net u hub r' timeout :
  no_float (JObj (arguments r')) = true → r' = r ∨ request_id r' ≠ request_id r → net_ok net →
  net_ok (native_replay s net u hub r' timeout).2 ∧
  (hub_sent net.1 → hub_sent (native_replay s net u hub r' timeout).2.1) ∧
  (r' = r → ∀ v, (native_replay s net u hub r' timeout).1 = Ok (Applied v) →
     hub_sent (native_replay s net u hub r' timeout).2.1).
Proof.
  intros Hf Hr' [Ht Hc]. destruct net as [w calls]. unfold native_replay. cbn [fst snd] in *.
  destruct calls as [|c calls]; [done|]. apply Forall_cons in Hc as [[Hm Hfor] Hcs].
  pose proof (untouched_step w _ (Hm w)) as Hs0.
  pose proof (step_tracks _ _ Hs0 Ht) as Ht1.
  set (w1 := nc_meanwhile c w) in *.
  assert (∀ a : result ReplayFailure ReplayResponse,
    (∀ v, a ≠ Ok (Applied v)) → ∀ w2, hub_step w1 w2 →
    net_ok (w2, calls) ∧ (hub_sent w → hub_sent w2) ∧
    (r' = r → ∀ v, a = Ok (Applied v) → hub_sent w2)) as Hquiet.
  { intros a Ha w2 Hs. split; [split; [by apply (step_tracks _ _ Hs)|done]|].
    split; [|by intros _ v Hv%Ha]. intros Hw. by apply (step_keeps _ _ Hs), (step_keeps _ _ Hs0). }
  destruct (if nc_build c then _ else _) as [body|] eqn:Eb; [|by apply Hquiet].
  destruct (nc_build c); [|done]. 
  assert (∀ ev', envelope_of_slice body = Some ev' → ev' = mkEnvelope hub r') as Hbody.
  { apply envelope_read in Eb; [|exact Hf]. rewrite Eb. intros ev'. destruct (_ <=? _); congruence. }
  pose proof (serve_step (nc_server c) ((λ t, "Bearer " +:+ t) <$> nc_token c) body _ w1 Hbody Hr' Ht1)
    as Hserve.
  destruct (serve _ _ _ _ _) as [[code reply] w2]. destruct Hserve as [Hs2 Ha2]. simpl in Ha2.
  destruct (nc_link c) as [[] ret|[] fcode fbody| |]; simpl in Hfor.
  - by apply Hquiet; [destruct ret|].
  - by apply Hquiet; [destruct ret|].
  - apply Hquiet; [intros v; by apply foreign_not_applied|done].
  - apply Hquiet; [intros v; by apply foreign_not_applied|done].
  - apply Hquiet; [apply broken_not_applied|done].
  - split; [split; [by apply (step_tracks _ _ Hs2)|done]|]. split; [|exact Ha2].
    intros Hw. by apply (step_keeps _ _ Hs2), (step_keeps _ _ Hs0).
Qed.

(** The clock of the network's next call. *)
Lemma routes_step (instant : network → Z * network) t routes net r' :
  (∀ net, (instant net).2 = net) →
  no_float (JObj (arguments r')) = true → r' = r ∨ request_id r' ≠ request_id r → net_ok net →
  net_ok (try_routes (native_replay s) instant t routes net r').2 ∧
  (hub_sent net.1 → hub_sent (try_routes (native_replay s) instant t routes net r').2.1) ∧
  (r' = r → ∀ v, (try_routes (native_replay s) instant t routes net r').1 = Ok (Applied v) →
     hub_sent (try_routes (native_replay s) instant t routes net r').2.1).
Proof.
  intros Hi Hf Hr'. revert net. induction routes as [|u routes IH]; intros net Hn; [done|].
  simpl. pose proof (Hi net) as Hnet. destruct (instant net) as [now net']. simpl in Hnet. subst net'.
  destruct (_ =? 0)%Z; [done|].
  match goal with |- context [native_replay s net u ?h r' ?z] =>
    pose proof (native_step net u h r' z Hf Hr' Hn) as (Hn' & Hk' & Ha') end.
  destruct (native_replay _ _ _ _ _ _) as [a net']. simpl in *.
  destruct a as [a|[|]]; try done.
  destruct (IH net' Hn') as (Hn2 & Hk2 & Ha2). split; [done|]. split; [auto|done].
Qed.
End delivery.

(** ** The property *)

Section props.
Context `{UnicodeCase} `{!JournalCodec} `{!JournalCodecLaws} `{Chrono} `{StoreText} `{BodyCodec}
  `{LuaJson} `{HubText} `{ClaimTool} `{!ClaimToolLaws} `{ExchangeCodec}.

(** C4. Delivery from end to end: flushing the outbox through any routes to the hub,
    with requests and replies lost on the way, scripts that die, intermediaries that
    answer errors and other users of the hub, the message has at most one entry in
    the stream, and if the flush reports it as applied it has exactly one. The hub
    still tracks the request afterwards, so this holds for every later flush too, and
    what was sent stays sent. *)
Theorem flush_exactly_once s r t d j now limit net res j' net' :
  operation r = Send ∨ operation r = Ack → separated s → Durable d j →
  (sequence r, r) ∈ pending j →
  Forall (λ kv, no_float (JObj (arguments kv.2)) = true) (pending j) → net_ok s r net →
  flush (hub_replay_via (native_replay s) net_instant t) now limit j net = (res, j', net') →
  net_ok s r net' ∧ request_copies s r net'.1 ≤ 1 ∧
  (hub_sent s r net.1 → hub_sent s r net'.1) ∧
  ∀ rep, res = Ok rep → dispositions rep !! request_id r = Some DApplied →
    request_copies s r net'.1 = 1.
Proof.
  intros Hop Hs Hd Hin Hf Hn Hfl. rewrite Forall_forall in Hf.
  assert (∀ r', r' ∈ map snd (pending j) →
    no_float (JObj (arguments r')) = true ∧ (r' = r ∨ request_id r' ≠ request_id r)) as Hreqs.
  { intros r' ([k x] & -> & Hx)%list_elem_of_fmap. split; [by apply (Hf _ Hx)|].
    destruct (decide (request_id x = request_id r)) as [E|]; [left|by right].
    by apply (durable_same_id d j k). }
  pose proof (λ net r' Hr' Hn', routes_step s r Hop Hs net_instant t (t_routes t) net r'
    (λ _, eq_refl) (proj1 (Hreqs r' Hr')) (proj2 (Hreqs r' Hr')) Hn') as Hstep.
  apply (flush_tracked _ (net_ok s r) (λ net, hub_sent s r net.1) (request_id r)
    (map snd (pending j))) in Hfl as (Hn' & Hk & Ha); [|by apply Hstep..| |done|done].
  - split; [done|]. split; [apply tracks_copies, Hn'|]. split; [done|].
    intros rep Hr Hdisp. apply sent_once. by apply (Ha rep).
  - intros net0 r' v Hr' Hn0 Hid. apply (Hstep net0 r' Hr' Hn0).
    by destruct (Hreqs r' Hr') as [_ [?|?]].
Qed.
End props.

(** ** Witness

    An acknowledgement in the journal; its first reply is lost after the hub sent it,
    the second route answers. *)

Section demo.
#[local] Existing Instances ascii_case bit_codec bit_codec_laws bit_chrono plain_store
  no_compression bit_lua bit_hub demo_claim_tool demo_tool_laws bit_exchange.

Definition demo_server : server_env :=
  mkServer false (Some "secret") None true true (demo_env Delivered None).
Definition demo_call (fate : link_fate) : net_call :=
  mkCall 0 (λ w, w) true (Some "secret") fate demo_server.
Definition demo_net : network :=
  (demo_world, [demo_call (NoReply true true); demo_call Whole]).
Definition demo_transport : HubTransport := mkTransport ["u1"; "u2"] "hub" 1000.

Definition demo_flush : result OutboxError FlushReport * Journal * network :=
  flush (hub_replay_via (native_replay demo_settings) net_instant demo_transport) 6 16
    demo_queued demo_net.

Lemma demo_net_ok : net_ok demo_settings (demo_ack 11) demo_net.
Proof.
  split; [apply unseen_tracks, demo_unseen|]. repeat constructor.
Qed.

Lemma flush_exactly_once_witness :
  pending demo_queued = [(1%Z, demo_ack 11)] ∧
  (dispositions <$> match demo_flush.1.1 with Ok rep => Some rep | Err _ => None end)
    = Some {[11%Z := DApplied]} ∧
  net_ok demo_settings (demo_ack 11) demo_flush.2 ∧
  request_copies demo_settings (demo_ack 11) demo_flush.2.1 ≤ 1 ∧
  (hub_sent demo_settings (demo_ack 11) demo_net.1 →
   hub_sent demo_settings (demo_ack 11) demo_flush.2.1) ∧
  ∀ rep, demo_flush.1.1 = Ok rep → dispositions rep !! 11%Z = Some DApplied →
    request_copies demo_settings (demo_ack 11) demo_flush.2.1 = 1.
Proof.
  split; [by vm_compute|]. split; [by vm_compute|].
  apply (flush_exactly_once demo_settings (demo_ack 11) demo_transport "h" demo_queued 6 16
    demo_net demo_flush.1.1 demo_flush.1.2 demo_flush.2);
    [by right|apply demo_separated|apply demo_queued_durable| | |apply demo_net_ok|].
  - assert (pending demo_queued = [(1%Z, demo_ack 11)]) as -> by by vm_compute. by left.
  - assert (pending demo_queued = [(1%Z, demo_ack 11)]) as -> by by vm_compute.
    by repeat constructor.
  - unfold demo_flush. by destruct (flush _ _ _ _ _) as [[? ?] ?].
Defined.
End demo.
