(* ===== verification/ClientProps.v ===== *)
(** * ClientProps: what the outbox client guarantees

    Waiting for the journal ends, a healthy outbox drains, the answer to a submission
    is what became of its request, and a retired journal owed nothing. *)

From Stdlib Require Import ZArith Lia Ascii.
From stdpp Require Import base option list strings gmap sorting.
From S2P Require Import Prelude Str Json Validation McpSchema ClaimTypes Outbox OutboxCodec OutboxFacts OutboxProps.
From S2P Require Import HubTypes NetLocation LinkRoute Candidates Hub Redis Channels Messages.
From S2P Require Import ReplayScript OutboxHub OutboxClient ReplayHttp ClaimInstances HubInstances FlushFacts.

(** ** Waiting *)

Section waiting.
Context `{UnicodeCase} `{JournalCodec}.
Context (scope : string) (deadline jitter : Z) (attempts : nat → look) (clock : nat → Z).

(** The delay and the wait after the [i]-th attempt. *)
Fixpoint delay_at (i : nat) : Z :=
  match i with O => 10 * MS | S i => Z.min (delay_at i * 2) (100 * MS) end.

Definition time_left (i : nat) : Z := saturating_sub deadline (clock i).
Definition wait_at (i : nat) : Z := Z.min (delay_at i + jitter) (time_left i).

Lemma delay_at_least i : (10 * MS ≤ delay_at i)%Z.
Proof. unfold MS. induction i; simpl; [done|]. unfold MS. lia. Qed.

Hypothesis Hjitter : (0 ≤ jitter)%Z.
(** Sleeping takes at least as long as asked. *)
Hypothesis Hclock : ∀ i, (clock i + wait_at i ≤ clock (S i))%Z.

(** One turn of the loop. *)
Lemma open_loop_turn fuel i fs :
  open_loop scope deadline jitter attempts clock (S fuel) i (delay_at i) fs =
  match open_at (attempts i) scope fs with
  | (Err Busy, fs) =>
      if (time_left i =? 0)%Z then Some (Err Busy, fs, [])
      else
        '(r, fs, waits) ← open_loop scope deadline jitter attempts clock fuel (S i)
                            (delay_at (S i)) fs;
        Some (r, fs, wait_at i :: waits)
  | (opened, fs) => Some (opened, fs, [])
  end.
Proof. simpl. by destruct (open_at (attempts i) scope fs) as [[|[]] ?]. Qed.

Lemma open_loop_ends fuel i fs :
  (time_left i ≤ 10 * MS * Z.of_nat fuel)%Z →
  ∃ r fs' waits, open_loop scope deadline jitter attempts clock (S fuel) i (delay_at i) fs =
    Some (r, fs', waits) ∧
    waits = map wait_at (seq i (length waits)) ∧
    (r = Err Busy → (deadline ≤ clock (i + length waits))%Z) ∧
    (foldr Z.add 0 waits ≤ time_left i)%Z.
Proof.
  revert i fs. induction fuel as [|fuel IH]; intros i fs Hleft; rewrite open_loop_turn;
    destruct (open_at (attempts i) scope fs) as [r fs1];
    (assert (r = Err Busy ∨ r ≠ Err Busy) as [->|Hr] by (destruct r as [|[]]; auto);
      [|exists r, fs1, []; split; [destruct r as [|[]]; done|];
        split; [done|split; [done|unfold time_left, saturating_sub; simpl; lia]]]).
  - assert (time_left i = 0%Z) as Hz by (unfold time_left, saturating_sub in *; lia).
    rewrite Hz. exists (Err Busy), fs1, []. split_and!; [done|done| |simpl; lia].
    intros _. rewrite Nat.add_0_r. unfold time_left, saturating_sub in Hz. lia.
  - destruct (Z.eqb_spec (time_left i) 0) as [Hz|Hz].
    { exists (Err Busy), fs1, []. split_and!; [done|done| |simpl; lia].
      intros _. rewrite Nat.add_0_r. unfold time_left, saturating_sub in Hz. lia. }
    pose proof (Hclock i) as Hc. pose proof (delay_at_least i) as Hd.
    assert (time_left (S i) ≤ time_left i - wait_at i)%Z as Hnext
      by (unfold wait_at, time_left, saturating_sub in *; lia).
    assert (0 < MS)%Z as HMS by done.
    destruct (IH (S i) fs1) as (r & fs' & waits & -> & Hw & Hb & Hsum).
    { unfold wait_at, time_left, saturating_sub in *. nia. }
    exists r, fs', (wait_at i :: waits). split_and!; [done| | |simpl; lia].
    + simpl. by f_equal.
    + intros Hr. specialize (Hb Hr). simpl. by rewrite Nat.add_succ_r.
Qed.

End waiting.

(** ** The scope *)

(** The fields a scope covers do not tell a list of two candidates from a list of one
    whose sites spell the second. *)
Lemma fingerprint_ambiguous u1 u2 h k :
  let two := [mkCandidate u1 Authoritative Global [] (Some h);
              mkCandidate u2 Fallback Global [] (Some k)] in
  let one := [mkCandidate u1 Authoritative Global
                [h; u2; "fallback"; "global"; "sites"] (Some k)] in
  two ≠ one ∧ fingerprint_fields two = fingerprint_fields one.
Proof. by split. Qed.

(** ** Retiring *)

Section retiring.
Context `{UnicodeCase} `{JournalCodec} `{DebugFmt} `{UrlLib} `{HubText}.

(** Inspecting changes nothing. *)
Lemma load_reads env bytes sched o sp : (load env bytes sched o None sp).2 = bytes.
Proof.
  unfold load. repeat (case_match; try done); simplify_eq/=; repeat case_match; simplify_eq/=; done.
Qed.

Lemma inspect_reads opened env bytes sched o : (inspect opened env bytes sched o).2 = bytes.
Proof.
  unfold inspect. destruct (negb opened); [done|].
  pose proof (load_reads env bytes sched o true) as Hl. by destruct (load _ _ _ _ _ _).
Qed.

(** The directory as the inspection meets it: an absent file has been created. *)
Definition met (a : look) (fs : outbox_fs) : outbox_fs :=
  let fs := at_meanwhile a fs in
  if at_opened a then mkFs (Some (from_option (λ b, b) "" (fs_active fs))) (fs_retired fs) else fs.

Lemma inspect_at_met a fs : (inspect_at a fs).2 = met a fs.
Proof.
  unfold inspect_at, looked, met. destruct (at_opened a); [simpl|done].
  pose proof (inspect_reads true (at_env a) (from_option (λ b, b) "" (fs_active (at_meanwhile a fs)))
    (at_schedule a) (at_fresh a)) as Hi. destruct (inspect _ _ _ _ _) as [r c]. simpl in *. by subst.
Qed.

(** Others keep to the lock: they leave the active file and every archive alone,
    and may only add archives. *)
Definition respectful (f : outbox_fs → outbox_fs) : Prop :=
  ∀ fs, fs_active (f fs) = fs_active fs ∧ fs_retired fs ⊆ fs_retired (f fs).

(** A request whose loss cannot matter: expired, and never handed to a hub. *)
Definition harmless (i : JournalInspection) (now : Z) (r : ReplayRequest) : Prop :=
  expires_ms r ≠ 0%Z ∧ (expires_ms r ≤ now)%Z ∧ request_id r ∉ i_attempted i.

Lemma can_retire_harmless i r now : can_retire_expired i r now = true ↔ harmless i now r.
Proof.
  unfold can_retire_expired, harmless.
  rewrite !andb_true_iff, !negb_true_iff, !bool_decide_eq_false, Z.leb_le. tauto.
Qed.

Lemma blocking_nil p i now : blocking p i now = [] → ∀ r, r ∈ i_pending i →
  p = ExpiredOnly ∧ harmless i now r.
Proof.
  unfold blocking. intros Hb r Hr.
  assert (r ∉ @nil ReplayRequest) as Hn by apply not_elem_of_nil.
  rewrite <- Hb, elem_of_filter_b in Hn. destruct p; [by destruct Hn|].
  split; [done|]. rewrite <- can_retire_harmless. destruct (can_retire_expired i r now); [done|].
  by destruct Hn.
Qed.

(** The outcome of retiring: moved whole, or left alone. *)
Inductive retired (scope : string) (now : Z) (p : RetirePolicy) (a : look) (fs : outbox_fs)
    (r : Result json) (fs' : outbox_fs) : Prop :=
  | retired_moved i stored origin bytes :
      (inspect_at a fs).1 = Ok i → i_destination i = Some stored → stored ≠ scope →
      Outbox.i_origin_id i = Some origin →
      (∀ r, r ∈ i_pending i → p = ExpiredOnly ∧ harmless i now r) →
      fs_active (met a fs) = Some bytes → fs_active fs' = None →
      fs_retired (met a fs) !! retired_name origin = None →
      fs_retired fs' !! retired_name origin = Some bytes →
      is_ok r = true → retired scope now p a fs r fs'
  | retired_kept :
      fs_active fs' = fs_active (met a fs) →
      (∀ v, r = Ok v → ∃ l, v = kept_reason l) → retired scope now p a fs r fs'.

Lemma retire_to_outcome e nm fs res fs' : retire_to e nm fs = (res, fs') →
  (res = Err Custody ∧ fs' = fs) ∨
  (∃ bytes, res = Ok tt ∧ fs_active fs = Some bytes ∧ fs_retired fs !! nm = None ∧
     fs' = mkFs None (<[nm := bytes]> (fs_retired fs))).
Proof.
  unfold retire_to. destruct (_ && _), (fs_active fs) eqn:Ea, (fs_retired fs !! nm) eqn:Er;
    intros [= <- <-]; eauto 7.
Qed.

Lemma retire_outcome scope now p a e fs r fs' :
  respectful (re_before_move e) → retire_previous_scope scope now p a e fs = (r, fs') →
  retired scope now p a fs r fs' ∧ fs_retired (met a fs) ⊆ fs_retired fs'.
Proof.
  intros He Hr. unfold retire_previous_scope in Hr. pose proof (inspect_at_met a fs) as Hm.
  destruct (inspect_at a fs) as [ins fs1] eqn:Ei. simpl in Hm. subst fs1.
  assert (∀ r, (∀ v, r = Ok v → ∃ l, v = kept_reason l) → retired scope now p a fs r (met a fs) ∧
    fs_retired (met a fs) ⊆ fs_retired (met a fs)) as Hkept by (intros r0 Hv; by split; [apply retired_kept|]).
  destruct ins as [i|err]; [|injection Hr as <- <-; by apply Hkept].
  destruct (i_destination i) as [stored|] eqn:Ed; [|injection Hr as <- <-; apply Hkept; intros v [= <-]; by eexists].
  destruct (Outbox.i_origin_id i) as [origin|] eqn:Eo; [|injection Hr as <- <-; apply Hkept; intros v [= <-]; by eexists].
  case_bool_decide as Hs; [injection Hr as <- <-; apply Hkept; intros v [= <-]; by eexists|].
  case_bool_decide as Hb; cbn [negb] in Hr; [|injection Hr as <- <-; by apply Hkept].
  destruct (negb (re_plain e)); [injection Hr as <- <-; by apply Hkept|].
  case_bool_decide as Hex; [injection Hr as <- <-; by apply Hkept|].
  destruct (retire_to e _ _) as [moved fs2] eqn:Et. destruct (He (met a fs)) as [Ha Hsub].
  apply retire_to_outcome in Et as [[-> ->]|(bytes & -> & Hact & Hnone & ->)]; injection Hr as <- <-.
  - split; [|done]. apply retired_kept; [done|]. by intros.
  - split; [|etrans; [exact Hsub|by apply insert_subseteq]].
    eapply (retired_moved _ _ _ _ _ _ _ i stored origin bytes); try done.
    + by rewrite Ei.
    + by apply blocking_nil.
    + congruence.
    + by apply eq_None_not_Some.
    + apply lookup_insert_eq.
Qed.
End retiring.

(** ** Draining *)

Section draining.
Context `{UnicodeCase} `{!JournalCodec} `{!JournalCodecLaws}.
Context {W : Type} (replay : W → ReplayRequest → result ReplayFailure ReplayResponse * W).

(** The record of an event can be written in [K] bytes. *)
Definition record_fits (K : Z) (e : Event) : bool :=
  match encode_event e with Ok enc => (str_len enc <=? K)%Z | Err _ => false end.

Definition settlement_fits (K : Z) (r : ReplayRequest) : bool :=
  forallb (record_fits K)
    (Attempted (request_id r) :: map (Settled (request_id r)) [DApplied; DExpired; DSuperseded]).

(** A journal on a file system without faults, with room for [n] more settlements. *)
Record healthy (K : Z) (n : nat) (j : Journal) : Prop := {
  he_poisoned : poisoned j = false;
  he_schedule : schedule j = [];
  he_room : (str_len (content j) + 2 * K * Z.of_nat n ≤ JOURNAL_LIMIT)%Z;
}.

Lemma append_fits K n j e :
  (0 ≤ K ≤ RECORD_LIMIT)%Z → poisoned j = false → schedule j = [] →
  (str_len (content j) + K ≤ n)%Z → (n ≤ JOURNAL_LIMIT)%Z → record_fits K e = true →
  ∃ j', append j e = (Ok tt, j') ∧ poisoned j' = false ∧ schedule j' = [] ∧
    pending j' = pending j ∧ attempted j' = attempted j ∧
    (str_len (content j') ≤ str_len (content j) + K)%Z.
Proof.
  intros HK Hp Hs Hroom Hn Hf. unfold record_fits in Hf.
  destruct (encode_event e) as [enc|] eqn:E; [|done]. apply Z.leb_le in Hf.
  unfold append, next_io. rewrite Hp, Hs. cbn. rewrite andb_false_r, E.
  pose proof (str_len_nonneg (content j)). pose proof (str_len_nonneg enc).
  destruct (Z.ltb_spec RECORD_LIMIT (str_len enc)); [lia|].
  destruct (Z.ltb_spec JOURNAL_LIMIT (saturating_add (str_len (content j)) (str_len enc)));
    [unfold saturating_add in *; lia|].
  eexists. split; [done|]. cbn. split_and!; [done..|]. rewrite str_len_app. lia.
Qed.

Hypothesis Hsettles : ∀ w r, ∃ a, (replay w r).1 = Ok a ∧ a ≠ Outbox.Pending.

Lemma settle_with_fits K n j r p d rep k :
  (0 ≤ K ≤ RECORD_LIMIT)%Z → poisoned j = false → schedule j = [] →
  (str_len (content j) + K ≤ n)%Z → (n ≤ JOURNAL_LIMIT)%Z → settlement_fits K r = true →
  d ≠ DRejected → pending j = (sequence r, r) :: p →
  ∃ j', settle_with j r d rep k = (Ok (k (note rep (request_id r) d)), j') ∧
    poisoned j' = false ∧ schedule j' = [] ∧ pending j' = p ∧
    (str_len (content j') ≤ str_len (content j) + K)%Z.
Proof.
  intros HK Hp Hs Hroom Hn Hf Hd Hq.
  assert (record_fits K (Settled (request_id r) d) = true) as Hr.
  { unfold settlement_fits in Hf. rewrite forallb_True in Hf. apply Hf.
    destruct d; [set_solver..|done]. }
  destruct (append_fits K n j _ HK Hp Hs Hroom Hn Hr) as (j1 & Ha & Hp1 & Hs1 & Hpd & _ & Hc).
  unfold settle_with, settle. rewrite Ha. eexists. split; [done|]. cbn.
  split_and!; [done|done| |done]. rewrite Hpd, Hq. cbn. by rewrite Z.eqb_refl.
Qed.

Lemma mark_fits K n j r :
  (0 ≤ K ≤ RECORD_LIMIT)%Z → poisoned j = false → schedule j = [] →
  (str_len (content j) + K ≤ n)%Z → (n ≤ JOURNAL_LIMIT)%Z → settlement_fits K r = true →
  ∃ j', mark_attempted j r = (Ok tt, j') ∧ poisoned j' = false ∧ schedule j' = [] ∧
    pending j' = pending j ∧ (str_len (content j') ≤ str_len (content j) + K)%Z.
Proof.
  intros HK Hp Hs Hroom Hn Hf. unfold mark_attempted. case_bool_decide.
  { exists j. split_and!; try done. lia. }
  unfold settlement_fits in Hf. cbn in Hf. apply andb_true_iff in Hf as [Hf _].
  destruct (append_fits K n j _ HK Hp Hs Hroom Hn Hf) as (j1 & -> & Hp1 & Hs1 & Hpd & _ & Hc).
  eexists. split; [done|]. by cbn.
Qed.

Lemma flush_one_settles K n now j w rep r p :
  (0 ≤ K ≤ RECORD_LIMIT)%Z → healthy K (S n) j → settlement_fits K r = true →
  pending j = (sequence r, r) :: p →
  ∃ rep' j' w', flush_one replay now j w rep r = (Ok (rep', Continue), j', w') ∧
    healthy K n j' ∧ pending j' = p.
Proof.
  intros HK [Hp Hs Hroom] Hf Hq. unfold flush_one.
  assert (str_len (content j) + 2 * K + 2 * K * Z.of_nat n ≤ JOURNAL_LIMIT)%Z as Hr2 by lia.
  destruct (send_decision j r now) as [d|] eqn:Ed.
  - assert (d ≠ DRejected) as Hd by (unfold send_decision in Ed; repeat case_match; congruence).
    destruct (settle_with_fits K JOURNAL_LIMIT j r p d rep (λ rep, (rep, Continue)))
      as (j' & -> & Hp' & Hs' & Hq' & Hc'); try done; [nia|].
    eexists _, _, _. split; [done|]. split; [|done]. constructor; [done..|lia].
  - destruct (mark_fits K JOURNAL_LIMIT j r) as (j1 & -> & Hp1 & Hs1 & Hq1 & Hc1); try done; [nia|].
    destruct (Hsettles w r) as (a & Ha & Hne). destruct (replay w r) as [answer w1].
    simpl in Ha. subst answer. rewrite Hq in Hq1. unfold conclude. destruct a as [v| |]; [| |done].
    + edestruct (settle_with_fits K JOURNAL_LIMIT j1 r p DApplied rep)
        as (j' & -> & Hp' & Hs' & Hq' & Hc'); try done; [nia|].
      eexists _, _, _. split; [done|]. split; [|done]. constructor; [done..|lia].
    + edestruct (settle_with_fits K JOURNAL_LIMIT j1 r p DSuperseded rep)
        as (j' & -> & Hp' & Hs' & Hq' & Hc'); try done; [nia|].
      eexists _, _, _. split; [done|]. split; [|done]. constructor; [done..|lia].
Qed.

Lemma flush_loop_settles K now reqs rest j w rep n :
  (0 ≤ K ≤ RECORD_LIMIT)%Z → healthy K (length reqs + n) j →
  Forall (λ r, settlement_fits K r = true) reqs →
  pending j = map (λ r, (sequence r, r)) reqs ++ rest →
  ∃ rep' j' w', flush_loop replay now j w rep reqs = (Ok rep', j', w') ∧
    healthy K n j' ∧ pending j' = rest.
Proof.
  intros HK. revert j w rep. induction reqs as [|r reqs IH]; intros j w rep Hh Hf Hq; simpl in *.
  { eexists _, _, _. by split. }
  apply Forall_cons in Hf as [Hf Hfs].
  destruct (flush_one_settles K (length reqs + n) now j w rep r _ HK Hh Hf Hq)
    as (rep1 & j1 & w1 & -> & Hh1 & Hq1).
  by apply IH.
Qed.

(** Flushes one after another, until one fails. *)
Fixpoint flushes (now : nat → Z) (limit n : nat) (j : Journal) (w : W) : option (Journal * W) :=
  match n with
  | O => Some (j, w)
  | S n =>
      match flush replay (now n) limit j w with
      | (Ok _, j, w) => flushes now limit n j w
      | (Err _, _, _) => None
      end
  end.

Lemma flushes_drain K now limit n j w reqs :
  (0 ≤ K ≤ RECORD_LIMIT)%Z → healthy K (length reqs) j →
  Forall (λ r, settlement_fits K r = true) reqs → pending j = map (λ r, (sequence r, r)) reqs →
  length reqs ≤ n * Nat.min limit REQUEST_LIMIT →
  ∃ j' w', flushes now limit n j w = Some (j', w') ∧ pending j' = [].
Proof.
  intros HK. revert reqs j w. induction n as [|n IH]; intros reqs j w Hh Hf Hq Hn.
  { exists j, w. split; [done|]. rewrite Hq. by destruct reqs; [|simpl in Hn; lia]. }
  cbn [flushes]. unfold flush. set (m := Nat.min limit REQUEST_LIMIT) in *.
  assert (map snd (pending j) = reqs) as Hreqs.
  { rewrite Hq, map_map. apply map_id. }
  rewrite Hreqs.
  destruct (flush_loop_settles K (now n) (take m reqs) (map (λ r, (sequence r, r)) (drop m reqs)) j w
    empty_report (length (drop m reqs))) as (rep & j' & w' & -> & Hh' & Hq'); [done| | | |].
  - by rewrite <- length_app, take_drop.
  - by apply Forall_take.
  - by rewrite <- map_app, take_drop.
  - apply (IH (drop m reqs)); [done|by apply Forall_drop|done|].
    rewrite length_drop. lia.
Qed.
End draining.

(** ** Submitting *)

Section submitting.
Context `{UnicodeCase} `{!JournalCodec} `{!JournalCodecLaws} `{DebugFmt} `{UrlLib} `{HubText}.
Context {W : Type} (replay : W → ReplayRequest → result ReplayFailure ReplayResponse * W).









End submitting.

(** ** The properties *)

Section props.
Context `{UnicodeCase} `{!JournalCodec} `{!JournalCodecLaws} `{DebugFmt} `{UrlLib} `{HubText}.

(** Waiting for a busy journal always ends: whatever each attempt meets, if a
    sleep lasts at least as long as asked, the fuel given is enough; the sleeps never
    add up to more than the time that was left, and [Busy] is only reported after an
    attempt made once the deadline had passed. *)
Theorem open_journal_until_ends scope deadline jitter attempts clock fs :
  (0 ≤ jitter)%Z → (deadline ≤ clock 0%nat + 12000 * MS)%Z →
  (∀ i, clock i + wait_at deadline jitter clock i ≤ clock (S i))%Z →
  ∃ r fs' waits,
    open_journal_until_with scope deadline jitter attempts clock OPEN_FUEL fs = Some (r, fs', waits) ∧
    open_journal_until scope deadline jitter attempts clock fs = (r, fs') ∧
    (foldr Z.add 0 waits ≤ saturating_sub deadline (clock 0%nat))%Z ∧
    (r = Err Busy → deadline ≤ clock (length waits))%Z.
Proof.
  intros Hj Hd Hc.
  assert (OPEN_FUEL = S 1201) as Hfuel by by vm_compute.
  destruct (open_loop_ends scope deadline jitter attempts clock Hj Hc 1201 0 fs)
    as (r & fs' & waits & Ho & _ & Hb & Hw).
  { unfold time_left, saturating_sub, MS in *. lia. }
  exists r, fs', waits. unfold open_journal_until, open_journal_until_with. rewrite Hfuel.
  change (10 * MS)%Z with (delay_at 0). rewrite Ho. by split_and!.
Qed.

(** Retiring a journal loses nothing: with other processes keeping to the lock,
    either the file is moved whole to an archive that did not exist, and then it was
    bound to another scope and every request still in it had expired without ever
    having been attempted (there is none at all under the automatic policy); or the
    active file is left as it was and the answer says it was not rotated. No archive
    is ever changed. *)
Theorem retire_owes_nothing scope now p a e fs r fs' :
  respectful (re_before_move e) → retire_previous_scope scope now p a e fs = (r, fs') →
  retired scope now p a fs r fs' ∧ fs_retired (met a fs) ⊆ fs_retired fs'.
Proof. apply retire_outcome. Qed.

(** C31. The outbox drains: on a file system without faults and with room for the
    settlements, if the transport gives every request a final answer, enough flushes
    of [limit] requests each all succeed and leave nothing pending. *)
Theorem outbox_drains {W} (replay : W → ReplayRequest → result ReplayFailure ReplayResponse * W)
    d K now limit n j w :
  (∀ w r, ∃ a, (replay w r).1 = Ok a ∧ a ≠ Outbox.Pending) → Durable d j →
  (0 ≤ K ≤ RECORD_LIMIT)%Z → healthy K (length (pending j)) j →
  Forall (λ kv, settlement_fits K kv.2 = true) (pending j) →
  length (pending j) ≤ n * Nat.min limit REQUEST_LIMIT →
  ∃ j' w', flushes replay now limit n j w = Some (j', w') ∧ pending j' = [].
Proof.
  intros Hr Hd HK Hh Hf Hn. destruct (durable_wf _ _ Hd) as [ids [Hk _ _]].
  assert (pending j = map (λ r, (sequence r, r)) (map snd (pending j))) as Hq.
  { rewrite map_map. clear Hh Hf Hn. induction Hk as [|[k r] p [E _] _ IH]; [done|].
    simpl in *. by rewrite <- E, <- IH. }
  apply (flushes_drain replay Hr K now limit n j w (map snd (pending j))); [done| | |done|];
    rewrite ?length_map; [done| |done].
  apply Forall_forall. intros r ([k x] & -> & Hx)%list_elem_of_fmap.
  rewrite Forall_forall in Hf. by apply (Hf _ Hx).
Qed.

End props.

(** ** Witnesses *)

Section demo.
#[local] Existing Instances ascii_case bit_codec bit_codec_laws plain_debug plain_urls bit_hub.

Definition demo_busy : look := mkLook (λ fs, fs) true (mkOpen false true true) [] 0.
Definition demo_clock (i : nat) : Z := (Z.of_nat i * (100 * MS))%Z.

Lemma delay_at_most i : (delay_at i ≤ 100 * MS)%Z.
Proof. unfold MS. destruct i; simpl; [done|]. unfold MS. lia. Qed.

Lemma open_journal_until_ends_witness :
  ∃ r fs' waits,
    open_journal_until_with "h" (250 * MS) 0 (λ _, demo_busy) demo_clock OPEN_FUEL (mkFs None ∅)
      = Some (r, fs', waits) ∧
    open_journal_until "h" (250 * MS) 0 (λ _, demo_busy) demo_clock (mkFs None ∅) = (r, fs') ∧
    (foldr Z.add 0 waits ≤ saturating_sub (250 * MS) (demo_clock 0))%Z ∧
    (r = Err Busy → 250 * MS ≤ demo_clock (length waits))%Z.
Proof.
  apply open_journal_until_ends; [done|done|].
  intros i. pose proof (delay_at_most i). unfold wait_at, demo_clock.
  etrans; [apply Z.add_le_mono_l, Z.le_min_l|]. lia.
Defined.

(** A journal bound to "h" that owes nothing, retired for another scope. *)
Definition demo_dir : outbox_fs := mkFs (Some (content demo_open)) ∅.
Definition demo_look : look := mkLook (λ fs, fs) true open_fine [] 0.
Definition demo_retire : retire_env := mkRetire true (λ fs, fs) true true.
Definition demo_retired : Result json * outbox_fs :=
  retire_previous_scope "other" 9 SettledOnly demo_look demo_retire demo_dir.

Lemma retire_owes_nothing_witness :
  fs_active demo_retired.2 = None ∧
  retired "other" 9 SettledOnly demo_look demo_dir demo_retired.1 demo_retired.2 ∧
  fs_retired (met demo_look demo_dir) ⊆ fs_retired demo_retired.2.
Proof.
  split; [by vm_compute|].
  apply (retire_owes_nothing "other" 9 SettledOnly demo_look demo_retire demo_dir);
    [by intros fs|]. unfold demo_retired. apply surjective_pairing.
Defined.

Lemma outbox_drains_witness :
  length (pending demo_three) = 3 ∧
  ∃ j' w', flushes demo_replay (λ _, 9%Z) 2 2 demo_three 0 = Some (j', w') ∧ pending j' = [].
Proof.
  split; [by vm_compute|].
  apply (outbox_drains demo_replay "h" 2000 (λ _, 9%Z) 2 2 demo_three 0);
    [by intros w r; exists (Applied JNull)|apply demo_three_durable|done| | |vm_compute; lia].
  - constructor; [done|done|]. vm_compute. discriminate.
  - apply Forall_forall. intros kv Hkv.
    assert (forallb (λ kv, settlement_fits 2000 kv.2) (pending demo_three) = true) as Hall
      by by vm_compute.
    rewrite forallb_True in Hall. by apply Hall.
Defined.


End demo.
