(* ===== verification/BusFacts.v ===== *)
(** * BusFacts: what operations leave alone

    A property of the server that others keep is kept by an operation none of whose
    commands writes where the property looks. The lemmas follow the structure of the
    operations. *)

From Stdlib Require Import ZArith Lia Ascii.
From stdpp Require Import base option list strings gmap sorting.
From S2P Require Import Prelude Str Json Validation McpSchema ClaimTypes Outbox Redis.
From S2P Require Import Channels Messages StreamEntry ReplayScript OutboxHub SyncStore StreamFacts.
From S2P Require Import Bus.

(** ** Scripts *)

Definition lua_keeps (I : hubdb → Prop) {A} (m : lua A) : Prop :=
  ∀ st, I (ls_db st) → I (ls_db (m st).2).

(** The property looks at one key. *)
Definition looks_at (k : string) (I : hubdb → Prop) : Prop :=
  ∀ d d', hd_keys d' !! k = hd_keys d !! k → I d → I d'.

Section scripts.
Context (I : hubdb → Prop).

Lemma lua_keeps_ret {A} (a : A) : lua_keeps I (lret a).
Proof. by intros st. Qed.

Lemma lua_keeps_err {A} e : lua_keeps I (lerr e : lua A).
Proof. by intros st. Qed.

Lemma lua_keeps_bind {A B} (m : lua A) (k : A → lua B) :
  lua_keeps I m → (∀ a, lua_keeps I (k a)) → lua_keeps I (lbind m k).
Proof.
  intros Hm Hk st Hst. unfold lbind. specialize (Hm st Hst).
  destruct (m st) as [[a|e] st']; [by apply Hk|done].
Qed.

Lemma lua_keeps_read {A} (f : hubdb → Z → result string A) : lua_keeps I (lread f).
Proof. by intros st. Qed.

Lemma lua_keeps_write f : (∀ d now, I d → I (f d now)) → lua_keeps I (lwrite f).
Proof.
  intros Hf st Hst. unfold lwrite. destruct (lua_writes (ls_env st)) as [[|n]|]; simpl; auto.
Qed.

Lemma keeps_PUBLISH channel payload k : looks_at k I → lua_keeps I (redis_PUBLISH channel payload).
Proof. intros HI. apply lua_keeps_write. intros d now. by apply HI. Qed.

Context (k : string) (HI : looks_at k I).

Lemma keeps_SET key v until : key ≠ k → lua_keeps I (redis_SET key v until).
Proof.
  intros Hk. apply lua_keeps_write. intros d now. apply HI. simpl. by rewrite lookup_insert_ne.
Qed.

Lemma keeps_SETEX key v secs : key ≠ k → lua_keeps I (redis_SETEX key v secs).
Proof.
  intros Hk. unfold redis_SETEX. destruct (_ <=? _)%Z; [apply lua_keeps_err|].
  apply lua_keeps_bind; [apply lua_keeps_read|]. intros now. by apply keeps_SET.
Qed.

Lemma keeps_DEL key : key ≠ k → lua_keeps I (redis_DEL [key]).
Proof.
  intros Hk. apply lua_keeps_write. intros d now. apply HI. simpl. by rewrite lookup_delete_ne.
Qed.

Lemma keeps_EXPIRE key secs : key ≠ k → lua_keeps I (redis_EXPIRE key secs).
Proof.
  intros Hk. apply lua_keeps_write. intros d now Hd. case_match; [|done].
  revert Hd. apply HI. simpl. by rewrite lookup_insert_ne.
Qed.

Lemma keeps_XADD key maxlen fs : key ≠ k → lua_keeps I (redis_XADD key maxlen fs).
Proof.
  intros Hk. apply lua_keeps_bind; [apply lua_keeps_read|]. intros t.
  destruct (_ && _); [apply lua_keeps_err|]. intros [d e] Hst. cbn.
  unfold lbind, lwrite. cbn. destruct (lua_writes e) as [[|n]|]; cbn; [done|..];
    (eapply HI; [|exact Hst]; simpl; by rewrite lookup_insert_ne).
Qed.

Lemma keeps_GET key : lua_keeps I (redis_GET key).
Proof. apply lua_keeps_read. Qed.
End scripts.

(** ** Operations *)

(** Others keep the property. *)
Definition others_keep (I : hubdb → Prop) (env : bus_env) : Prop :=
  ∀ i d, I d → I (tn_others (env i) d).

Definition keeps (I : hubdb → Prop) {A} (m : bus A) : Prop :=
  ∀ env c, others_keep I env → I (cn_db c) → I (cn_db (m env c).2).

Section operations.
Context (I : hubdb → Prop).

Lemma bus_keeps_ret {A} (a : A) : keeps I (bret a).
Proof. by intros env c. Qed.

Lemma bus_keeps_bind {A B} (m : bus A) (k : A → bus B) :
  keeps I m → (∀ a, keeps I (k a)) → keeps I (bbind m k).
Proof.
  intros Hm Hk env c He Hc. unfold bbind. specialize (Hm env c He Hc).
  destruct (m env c) as [[a|e] c']; [by apply Hk|done].
Qed.

Lemma keeps_caught {A} (m : bus A) : keeps I m → keeps I (caught m).
Proof.
  intros Hm env c He Hc. unfold caught. specialize (Hm env c He Hc). by destruct (m env c).
Qed.

Lemma keeps_when b m : keeps I m → keeps I (bwhen b m).
Proof. intros Hm. destruct b; [done|apply bus_keeps_ret]. Qed.

Lemma keeps_lift {A} (r : Result A) : keeps I (bus_lift r).
Proof. by intros env c. Qed.

Lemma keeps_clock : keeps I clock.
Proof. by intros env c. Qed.

Lemma keeps_uuid : keeps I fresh_uuid.
Proof. by intros env c. Qed.

Lemma keeps_send msg : keeps I (send_message msg).
Proof. by intros env c. Qed.

Lemma keeps_raw {A} (m : lua A) env c : lua_keeps I m → others_keep I env → I (cn_db c) →
  I (cn_db (raw_command m env c).2).
Proof.
  intros Hm He Hc. unfold raw_command. apply (He (cn_step c)) in Hc.
  destruct (attempt _ _ _ _) as [r d] eqn:E. simpl.
  apply attempt_cases in E as [(_ & -> & _)|(r0 & st & E & -> & _)]; [done|].
  specialize (Hm (mkLuaState _ (tn_lua (env (cn_step c)))) Hc). by rewrite E in Hm.
Qed.

Lemma keeps_command {A} what (m : lua A) : lua_keeps I m → keeps I (command what m).
Proof.
  intros Hm env c He Hc. unfold command. pose proof (keeps_raw m env c Hm He Hc) as Hr.
  by destruct (raw_command m env c).
Qed.

Lemma keeps_map {A B} (f : A → bus B) l : (∀ x, x ∈ l → keeps I (f x)) → keeps I (bmap f l).
Proof.
  induction l as [|x l IH]; intros Hf; [apply bus_keeps_ret|]. simpl.
  apply bus_keeps_bind; [apply Hf; by left|]. intros y. apply bus_keeps_bind; [|intros; apply bus_keeps_ret].
  apply IH. intros z Hz. apply Hf. by right.
Qed.

Lemma keeps_pipeline {A} what (ms : list (lua A)) :
  (∀ m, m ∈ ms → lua_keeps I m) → keeps I (pipeline what ms).
Proof.
  intros Hms env c He Hc. unfold pipeline.
  enough (I (cn_db (pipeline_go ms env c).2)) as Hp by by destruct (pipeline_go ms env c).
  revert c Hc. induction ms as [|m ms IH]; intros c Hc; [done|]. simpl.
  pose proof (keeps_raw m env c (Hms m ltac:(by left)) He Hc) as Hr.
  destruct (raw_command m env c) as [r c']. simpl in Hr.
  specialize (IH (λ m Hm, Hms m ltac:(by right)) c' Hr).
  destruct (tn_how _); [|done|]; by destruct (pipeline_go ms env c').
Qed.
End operations.

#[export] Hint Resolve lua_keeps_ret lua_keeps_err lua_keeps_read bus_keeps_ret keeps_lift keeps_clock
  keeps_uuid keeps_send keeps_SET keeps_SETEX keeps_DEL keeps_EXPIRE keeps_XADD keeps_PUBLISH
  keeps_GET keeps_caught keeps_when keeps_command : bus.

(** Follow an operation to its commands. *)
Ltac keep :=
  repeat (apply bus_keeps_bind; [|intros]); eauto with bus.
