(* ===== verification/BusInstances.v ===== *)
(** * BusInstances: concrete instances for the bus

    Messages as the bits of their code, a digest of the right length, and connections in
    memory: every command answered, nobody else there but the server, which drops a
    stream that has expired. *)

From Stdlib Require Import ZArith Lia Ascii.
From stdpp Require Import countable base option list strings gmap sorting.
From S2P Require Import Prelude Str Json Validation McpSchema ClaimTypes Outbox OutboxCodec.
From S2P Require Import Redis Channels Messages StreamEntry ReplayScript OutboxHub SyncStore.
From S2P Require Import StreamFacts Bus Inbox Ops ClaimInstances HubInstances SyncInstances.

(** ** Texts *)

Definition listed_opt (o : option string) : list string :=
  match o with Some s => [s] | None => [] end.

(** A message's texts: the plain ones, then a list for each of the others. *)
Definition message_texts (m : Message) : list (list string) :=
  [[m_id m; m_timestamp_utc m; m_protocol_version m; m_from m; m_to m; m_topic m; m_body m;
    m_priority m; (if m_request_ack m then "t" else "f"); pos_text (encode (m_metadata m))];
   listed_opt (m_thread_id m); m_tags m; listed_opt (m_reply_to m); listed_opt (m_stream_id m);
   listed_opt (m_client_msg_id m); listed_opt (m_origin_hub m);
   listed_opt (Z_text <$> m_origin_seq m); listed_opt (m_hlc m);
   listed_opt (sensitivity_as_str <$> m_sensitivity m)].

Definition texts_message (l : list (list string)) : option Message :=
  match l with
  | [[i; t; v; f; o; p; b; pr; a; md]; th; tg; r; sid; ci; oh; os; h; s] =>
      md ← text_pos md ≫= decode;
      Some (mkMessage i t v f o p b (head th) tg pr (bool_decide (a = "t")) (head r) md (head sid)
              (head ci) (head oh) (text_Z <$> head os) (head h) (head s ≫= sensitivity_parse))
  | _ => None
  end.

Lemma text_Z_text n : text_Z (Z_text n) = n.
Proof. unfold text_Z, Z_text. by rewrite text_pos_text, bind_Some_l, decode_encode. Qed.

Lemma head_listed o : head (listed_opt o) = o.
Proof. by destruct o. Qed.

Lemma texts_message_texts m : texts_message (message_texts m) = Some m.
Proof.
  destruct m as [i t v f o p b th tg pr a r md sid ci oh os h s]. unfold texts_message, message_texts.
  cbn -[encode decode pos_text text_pos listed_opt head].
  rewrite text_pos_text, bind_Some_l, decode_encode, bind_Some_l, !head_listed. do 2 f_equal.
  - by destruct a.
  - destruct os as [n|]; [|done]. cbn. by rewrite text_Z_text.
  - by destruct s as [[]|].
Qed.

(** The hub of [HubInstances] with messages in full. *)
Definition bus_hub : HubText :=
  match bit_hub with
  | Build_HubText u m p d r ru mj pj H1 H2 H3 H4 H5 H6 =>
      Build_HubText u (λ msg, pos_text (encode (message_texts msg))) (λ p, Z_text (p_ttl_seconds p))
        (λ d, pos_text (encode [ad_message_id d; ad_recipient d; ad_deadline_at d]))
        r ru mj pj H1 H2 H3 H4 H5 H6
  end.

Definition field_text (v : json) (k : string) : option string := vget v k ≫= as_str.

Definition bit_bus : BusText (H := bus_hub) (H0 := bit_store) :=
  {| message_of_text t := (text_pos t ≫= decode) ≫= texts_message;
     deadline_of_text t := (text_pos t ≫= decode) ≫= λ l,
       match l with [i; r; a] => Some (mkDeadline i r a 0 None) | _ => None end;
     pending_of_text t :=
       (λ v, mkPendingRecord (field_text v "message_id") (field_text v "recipient")
               (field_text v "sent_at")) <$> (text_pos t ≫= decode) |}.

(** Bodies are stored behind their size, as the bits of their code too. *)
Definition le_byte (n : Z) : ascii := ascii_of_N (Z.to_N (n mod 256)).

Definition size_bytes (n : Z) : string :=
  String (le_byte n) (String (le_byte (n / 256)) (String (le_byte (n / 65536))
    (String (le_byte (n / 16777216)) EmptyString))).

Definition bit_compression : BodyCodec :=
  {| compress_prepend_size b := size_bytes (str_len b) +:+ b;
     base64_encode b := pos_text (encode b) |}.

Definition without_size (compressed : string) : option string :=
  match compressed with
  | String _ (String _ (String _ (String _ b))) => Some b
  | _ => None
  end.

Definition bus_entry : EntryText (H := bit_store) :=
  match bit_entry with
  | @Build_EntryText _ s j _ _ ok H1 H2 H3 H4 =>
      @Build_EntryText bit_store s j (λ t, text_pos t ≫= decode) without_size ok H1 H2 H3 H4
  end.

Lemma le_byte_value n : Z.of_N (N_of_ascii (le_byte n)) = (n mod 256)%Z.
Proof.
  pose proof (Z.mod_pos_bound n 256 ltac:(lia)). unfold le_byte.
  rewrite N_ascii_embedding by lia. lia.
Qed.

Lemma size_bytes_claimed n b :
  (0 ≤ n < 2 ^ 32)%Z → claimed_size (size_bytes n +:+ b) = Some n.
Proof.
  intros Hn. pose proof (le_byte_value n) as E0. pose proof (le_byte_value (n / 256)) as E1.
  pose proof (le_byte_value (n / 65536)) as E2. pose proof (le_byte_value (n / 16777216)) as E3.
  change (Some (Z.of_N (N_of_ascii (le_byte n)) + 256 * Z.of_N (N_of_ascii (le_byte (n / 256)))
    + 65536 * Z.of_N (N_of_ascii (le_byte (n / 65536)))
    + 16777216 * Z.of_N (N_of_ascii (le_byte (n / 16777216))))%Z = Some n).
  rewrite E0, E1, E2, E3. f_equal. Z.div_mod_to_equations. lia.
Qed.

Lemma bit_message_text m :
  message_of_text (BusText := bit_bus) (message_text (HubText := bus_hub) m) = Some m.
Proof.
  change ((text_pos (pos_text (encode (message_texts m))) ≫= decode) ≫= texts_message = Some m).
  by rewrite text_pos_text, bind_Some_l, decode_encode, bind_Some_l, texts_message_texts.
Qed.

(** Threads, subscriptions and cards as lists of texts. *)
Definition thread_texts (t : Thread) : list (list string) :=
  [[th_thread_id t; th_created_by t; th_created_at t; thread_status_display (th_status t)];
   th_members t; listed_opt (th_repo t); listed_opt (th_topic t)].

Definition texts_thread (l : list (list string)) : result string Thread :=
  match l with
  | [[i; b; a; st]; ms; r; t] =>
      match thread_status_from_str st with
      | Ok s => Ok (mkThread i b a ms (head r) (head t) s)
      | Err _ => Err "unknown variant"
      end
  | _ => Err "missing field"
  end.

Lemma texts_thread_texts t : texts_thread (thread_texts t) = Ok t.
Proof. destruct t as [i b a ms r t s]. unfold texts_thread, thread_texts. cbn -[listed_opt head].
  rewrite !head_listed. by destruct s. Qed.

Definition sub_texts (s : Subscription) : list (list string) :=
  [[sb_id s; sb_agent s; sb_created_at s]; sc_repos (sb_scopes s); sc_sessions (sb_scopes s);
   sc_threads (sb_scopes s); sc_tags (sb_scopes s); sc_topics (sb_scopes s);
   listed_opt (sc_priority_min (sb_scopes s)); sc_resources (sb_scopes s);
   listed_opt (Z_text <$> sb_ttl_seconds s); listed_opt (sb_expires_at s)].

Definition texts_sub (l : list (list string)) : option Subscription :=
  match l with
  | [[i; a; c]; rp; ss; th; tg; tp; pm; rs; ttl; ex] =>
      Some (mkSub i a (mkScopes rp ss th tg tp (head pm) rs) c (text_Z <$> head ttl) (head ex))
  | _ => None
  end.

Lemma texts_sub_texts s : texts_sub (sub_texts s) = Some s.
Proof.
  destruct s as [i a [rp ss th tg tp pm rs] c ttl ex]. unfold texts_sub, sub_texts.
  cbn -[listed_opt head]. rewrite !head_listed. do 2 f_equal. destruct ttl; [|done].
  cbn. by rewrite text_Z_text.
Qed.

Definition bit_ops : OpsText :=
  {| thread_text t := pos_text (encode (thread_texts t));
     thread_of_text t := match text_pos t ≫= decode with Some l => texts_thread l | None => Err "expected value" end;
     subscription_text s := pos_text (encode (sub_texts s));
     subscription_of_text t := (text_pos t ≫= decode) ≫= texts_sub;
     card_text c := tc_body c;
     card_of_text _ := None;
     rfc3339_text := Z_text |}.

Lemma bit_thread_text t : thread_of_text (OpsText := bit_ops) (thread_text (OpsText := bit_ops) t) = Ok t.
Proof.
  change (match text_pos (pos_text (encode (thread_texts t))) ≫= decode with
          | Some l => texts_thread l | None => Err "expected value" end = Ok t).
  by rewrite text_pos_text, bind_Some_l, decode_encode, texts_thread_texts.
Qed.

Lemma bit_sub_text s :
  subscription_of_text (OpsText := bit_ops) (subscription_text (OpsText := bit_ops) s) = Some s.
Proof.
  change ((text_pos (pos_text (encode (sub_texts s))) ≫= decode) ≫= texts_sub = Some s).
  by rewrite text_pos_text, bind_Some_l, decode_encode, bind_Some_l, texts_sub_texts.
Qed.

(** A digest: the text cut to 43 characters. *)
Fixpoint cut (n : nat) (s : string) : string :=
  match n with
  | O => ""
  | S n => match s with EmptyString => String "=" (cut n "") | String a s => String a (cut n s) end
  end.

Lemma cut_length n : ∀ s, String.length (cut n s) = n.
Proof. induction n as [|n IH]; [done|]. intros [|a s]; simpl; by rewrite IH. Qed.

Definition cut_lanes : LaneText :=
  {| sha256_base64 := cut 43; identity_text '(a, l, t, p) :=
       join "," (a :: from_option (λ t, t) "" t :: from_option (λ t, t) "" p :: l);
     sha256_base64_length := cut_length 43 |}.

(** ** Connections in memory *)

(** The server's own part: a stream that has expired is gone. *)
Definition expire_due (key : string) (now : Z) (d : hubdb) : hubdb :=
  match hd_keys d !! key ≫= e_until with
  | Some t => if (t <=? now)%Z then mkHubDb (delete key (hd_keys d)) (hd_appended d) (hd_published d)
              else d
  | None => d
  end.

Lemma expire_due_unexpired key now d : unexpired key now (expire_due key now d).
Proof.
  intros e. unfold expire_due. destruct (hd_keys d !! key ≫= e_until) as [t|] eqn:E.
  - destruct (Z.leb_spec t now); simpl; [by rewrite lookup_delete_eq|].
    intros Hk. rewrite Hk in E. simpl in E. by rewrite E.
  - intros Hk. rewrite Hk in E. simpl in E. by rewrite E.
Qed.

Lemma expire_due_stream key now t d : stream_ok key t d →
  stream_ok key t (expire_due key now d) ∧ grows key t d (expire_due key now d).
Proof.
  intros Hd. unfold expire_due. destruct (_ ≫= _) as [u|]; [|by split; [|apply grows_refl]].
  destruct (u <=? now)%Z; [|by split; [|apply grows_refl]].
  assert (stream_of (mkHubDb (delete key (hd_keys d)) (hd_appended d) (hd_published d)) key = []) as E
    by (unfold stream_of; simpl; by rewrite lookup_delete_eq).
  split.
  - split; [simpl; by rewrite lookup_delete_eq|]. rewrite E. by repeat constructor.
  - exists (length (stream_of d key)), []. rewrite E, drop_all. by split.
Qed.

(** A millisecond passes at each step, an hour into the epoch; identifiers count up. *)
Definition quiet_turn (others : hubdb → hubdb) (i : nat) : turn :=
  let now := (3600000 + Z.of_nat i)%Z in
  mkTurn others Delivered (mkLua now None [dec now +:+ "-0"; dec now +:+ "-1"] 0) (now * 1000000)
    ("m" +:+ dec (Z.of_nat i)) (λ l, l).

Definition alone : bus_env := quiet_turn (λ d, d).

(** With the server's expiry of one stream. *)
Definition served (key : string) : bus_env := λ i,
  quiet_turn (expire_due key (3600000 + Z.of_nat i)) i.

Definition no_conn : conn := mkConn (mkHubDb ∅ [] []) 0 [] [].

Definition demo_bus : BusSettings :=
  mkBusSettings "agent_bus:messages" 1000 "agent_bus:events" "agent_bus:presence:" (Some "s1").

Definition demo_payload (to topic body : string) (request_ack : bool) : BatchSendPayload :=
  mkPayload "alice" to topic body None ["repo:hub"] "normal" request_ack None (JObj []).

(** The event of the first post is lost. *)
Definition deaf : bus_env := λ i,
  let t := alone i in
  if (i =? 3)%nat then mkTurn (tn_others t) LostBefore (tn_lua t) (tn_clock t) (tn_id t) (tn_scan t)
  else t.

(** A post's stream entry, as its fields. *)
Definition demo_entry (n : Z) (to topic : string) : string * list string :=
  (dec (3600000 + n) +:+ "-0",
   flat [("id", "m" +:+ dec n); ("timestamp_utc", Z_text ((3600000 + n) * 1000));
         ("from", "alice"); ("to", to); ("topic", topic); ("body", "hello")]).

Definition stream_conn (key : string) (l : list (string * list string)) : conn :=
  mkConn (mkHubDb {[ key := mkEntry (VStream l) None ]} [] []) 0 [] [].

Lemma stream_conn_of key l : stream_of (cn_db (stream_conn key l)) key = l.
Proof. unfold stream_of, stream_conn. simpl. by rewrite lookup_singleton_eq. Qed.

Lemma stream_conn_ok key l t : StronglySorted (λ a b, (erank a < erank b)%Z) l →
  forallb (λ e, (0 <=? erank e)%Z && utf8 e.1 && (erank e <=? t)%Z) l = true →
  stream_ok key t (cn_db (stream_conn key l)).
Proof.
  intros Hs Hf. assert (∀ e, e ∈ l → (0 ≤ erank e)%Z ∧ utf8 e.1 = true ∧ (erank e ≤ t)%Z) as Hl.
  { intros e He%list_elem_of_In. rewrite forallb_forall in Hf. specialize (Hf e He).
    bool_simplify. split_and!; [lia|done|lia]. }
  split; [unfold stream_conn; simpl; by rewrite lookup_singleton_eq|]. rewrite stream_conn_of.
  split; [split; [done|]|]; apply Forall_forall; intros e He; destruct (Hl e He) as (? & ? & ?); auto.
Qed.
