(* ===== verification/InboxProps.v ===== *)
(** * InboxProps: what the inbox promises

    An agent's notifications seen by one reader of a lane: [InboxView] is what is
    retained now, in the order of its identifiers, and [InboxLaws] what each call of the
    storage seam may do while others append and the server trims. Over any history of
    checks each matching notification is delivered at most once, in order, and none that
    is retained is passed over. *)

From Stdlib Require Import ZArith Lia Ascii.
From stdpp Require Import base option list strings gmap sorting.
From S2P Require Import Prelude Str Json Validation McpSchema ClaimTypes Outbox Redis.
From S2P Require Import Channels Messages StreamEntry ReplayScript OutboxHub SyncStore StreamFacts.
From S2P Require Import Bus Inbox.

(** ** Notifications in order *)

Definition note_rank (n : Notification) : Z := from_option sid_rank (-1)%Z (n_stream_id n).
Definition note_before (a b : Notification) : Prop := (note_rank a < note_rank b)%Z.

Definition notes_after (sid : string) : list Notification → list Notification :=
  List.filter (λ n, (sid_rank sid <? note_rank n)%Z).

Class InboxView (W : Type) := {
  inbox_ok : W → Prop;
  inbox_notes : W → list Notification;
  inbox_top : W → Z;
  lane : W → string;
}.

Section moves.
Context {W : Type} `{!InboxView W}.

(** Others appended, the server trimmed. *)
Definition moves (w w' : W) : Prop :=
  inbox_ok w' ∧ (inbox_top w ≤ inbox_top w')%Z ∧
  ∃ k new, inbox_notes w' = drop k (inbox_notes w) ++ new ∧
    Forall (λ n, (inbox_top w < note_rank n)%Z) new.

(** A notification of the stream at some moment between the two worlds. *)
Definition appeared (w w' : W) (n : Notification) : Prop :=
  ∃ w1, moves w w1 ∧ moves w1 w' ∧ n ∈ inbox_notes w1.
End moves.

(** The documented behaviour of the seam, for the one reader of the lane [key]. *)
Class InboxLaws (W : Type) `{!InboxStore W} `{!InboxView W} (agent key : string) := {
  notes_sorted w : inbox_ok w → StronglySorted note_before (inbox_notes w);
  notes_known w n : inbox_ok w → n ∈ inbox_notes w →
    is_Some (n_stream_id n) ∧ (0 ≤ note_rank n ≤ inbox_top w)%Z;
  lane_known w : inbox_ok w → (0 ≤ sid_rank (lane w) ≤ inbox_top w)%Z;
  load_cursor_law w r w' : inbox_ok w → load_cursor key w = (r, w') →
    moves w w' ∧ lane w' = lane w ∧ ∀ c, r = Ok c → c = lane w;
  load_page_law c n w r w' : inbox_ok w → (0 ≤ sid_rank c)%Z → load_page agent c n w = (r, w') →
    ∃ w0, moves w w0 ∧ moves w0 w' ∧ lane w' = lane w ∧
      ∀ page, r = Ok page → page = take n (notes_after c (inbox_notes w0));
  save_cursor_law v w r w' : inbox_ok w → (0 ≤ sid_rank v ≤ inbox_top w)%Z →
    save_cursor key v w = (r, w') →
    moves w w' ∧ (lane w' = v ∨ (lane w' = lane w ∧ is_ok r = false));
}.

Section lemmas.
Context {W : Type} `{!InboxStore W} `{!InboxView W} (agent key : string)
  `{!InboxLaws W agent key}.

Lemma moves_refl w : inbox_ok w → moves w w.
Proof. intros Hw. split_and!; [done|lia|]. exists 0, []. rewrite app_nil_r. by split. Qed.

Lemma moves_trans w w' w'' : moves w w' → moves w' w'' → moves w w''.
Proof.
  intros (_ & Ht & k & new & E & Hn) (Hw & Ht' & k' & new' & E' & Hn').
  split_and!; [done|lia|].
  exists (k + k'), (drop (k' - length (drop k (inbox_notes w))) new ++ new'). split.
  - rewrite E', E, drop_app, drop_drop. by rewrite <- app_assoc.
  - apply Forall_app. split; [by apply Forall_drop|].
    eapply Forall_impl; [exact Hn'|]. intros n. simpl. lia.
Qed.

Lemma moves_ok w w' : moves w w' → inbox_ok w'.
Proof. by intros (? & _). Qed.

(** What is no newer than the old bound was already there. *)
Lemma moves_old w w' n : moves w w' → n ∈ inbox_notes w' → (note_rank n ≤ inbox_top w)%Z →
  n ∈ inbox_notes w.
Proof.
  intros (_ & _ & k & new & -> & Hn) [Hd|Hd]%elem_of_app Hr.
  - by eapply elem_of_drop_in.
  - rewrite Forall_forall in Hn. specialize (Hn n Hd). lia.
Qed.

Lemma appeared_mono w w' w'' n : moves w' w'' → appeared w w' n → appeared w w'' n.
Proof. intros Hm (w1 & H1 & H2 & Hn). exists w1. split_and!; [done|by eapply moves_trans|done]. Qed.

Lemma appeared_later w w' w'' n : moves w w' → appeared w' w'' n → appeared w w'' n.
Proof. intros Hm (w1 & H1 & H2 & Hn). exists w1. split_and!; [by eapply moves_trans|done|done]. Qed.

Lemma last_stream_id_snoc c l n sid : n_stream_id n = Some sid →
  last_stream_id c (l ++ [n]) = sid.
Proof. intros E. unfold last_stream_id. rewrite foldl_app. simpl. by rewrite E. Qed.

(** The cursor after a list of notifications is that of its last one. *)
Lemma last_stream_id_rank c l :
  Forall (λ n, is_Some (n_stream_id n)) l →
  match last l with
  | Some n => sid_rank (last_stream_id c l) = note_rank n
  | None => last_stream_id c l = c
  end.
Proof.
  intros Hl. destruct l as [|n l _] using rev_ind; [done|]. rewrite last_snoc.
  apply Forall_app in Hl as [_ Hl]. apply Forall_cons in Hl as [[sid E] _].
  rewrite (last_stream_id_snoc _ _ _ _ E). unfold note_rank. by rewrite E.
Qed.

(** ** The loop over one page *)

Lemma scan_notes_spec matches limit page : ∀ s,
  Forall (λ n, is_Some (n_stream_id n)) page → length (sc_messages s) < limit →
  ∃ k s', scan_notes matches limit page s = Ok s' ∧ k ≤ length page ∧
    sc_messages s' = sc_messages s ++ map n_message (List.filter (λ n, matches (n_message n)) (take k page)) ∧
    sc_scanned s' = sc_scanned s + k ∧
    sc_cursor s' = last_stream_id (sc_cursor s) (take k page) ∧
    length (sc_messages s') ≤ limit ∧
    (k = length page ∨ length (sc_messages s') = limit) ∧ (page ≠ [] → 0 < k).
Proof.
  induction page as [|n page IH]; intros s Hp Hl.
  { exists 0, s. simpl. rewrite app_nil_r. split_and!; (done || lia || by left). }
  apply Forall_cons in Hp as [[sid E] Hp]. cbn [scan_notes]. rewrite E.
  destruct (matches (n_message n)) eqn:Em.
  - destruct (Nat.eqb_spec (length (sc_messages s ++ [n_message n])) limit) as [Hf|Hf].
    + exists 1, (mkScan sid (sc_messages s ++ [n_message n]) (S (sc_scanned s))). cbn. rewrite E, Em, (proj2 (Nat.eqb_eq _ _) Hf). simpl.
      split_and!; simpl; try done; try lia.
    + rewrite length_app in Hf. simpl in Hf.
      destruct (IH (mkScan sid (sc_messages s ++ [n_message n]) (S (sc_scanned s))) Hp)
        as (k & s' & E' & Hk & Ems & Esc & Ec & Hlen & Hfull & _).
      { simpl. rewrite length_app. simpl. lia. }
      exists (S k), s'. cbn [take]. simpl in *. rewrite E, Em, length_app. simpl.
      rewrite (proj2 (Nat.eqb_neq _ _)) by lia.
      split_and!; try done; try lia. by rewrite Ems, <- app_assoc.
  - destruct (IH (mkScan sid (sc_messages s) (S (sc_scanned s))) Hp Hl)
      as (k & s' & E' & Hk & Ems & Esc & Ec & Hlen & Hfull & _).
    exists (S k), s'. cbn [take]. simpl in *. rewrite E, Em.
    split_and!; try done; lia.
Qed.

(** ** The loop over the pages *)

Lemma note_before_trans a b c : note_before a b → note_before b c → note_before a c.
Proof. unfold note_before. lia. Qed.

(** The notifications examined so far, from the world [w0] and the cursor [c0]. *)
Definition examined (w0 : W) (c0 : string) (ns : list Notification) (c : string) (w : W) : Prop :=
  StronglySorted note_before ns ∧ (sid_rank c0 ≤ sid_rank c ≤ inbox_top w)%Z ∧
  (∀ n, n ∈ ns → (sid_rank c0 < note_rank n ≤ sid_rank c)%Z ∧ appeared w0 w n) ∧
  (∀ n, n ∈ inbox_notes w → (sid_rank c0 < note_rank n ≤ sid_rank c)%Z → n ∈ ns).

Lemma examined_moves w0 c0 ns c w w' : moves w0 w → moves w w' →
  examined w0 c0 ns c w → examined w0 c0 ns c w'.
Proof.
  intros H0 Hm (Hs & Hc & Hin & Hcov). split_and!; [done|lia|destruct Hm as (_ & ? & _); lia| |].
  - intros n Hn. destruct (Hin n Hn). split; [done|by eapply appeared_mono].
  - intros n Hn Hr. apply Hcov; [|done]. eapply moves_old; [done..|lia].
Qed.

(** Sorted lists, the second past the first. *)
Lemma sorted_append c ns page : StronglySorted note_before ns →
  (∀ n, n ∈ ns → (note_rank n ≤ sid_rank c)%Z) → StronglySorted note_before page →
  (∀ n, n ∈ page → (sid_rank c < note_rank n)%Z) → StronglySorted note_before (ns ++ page).
Proof.
  intros Hs Hc Hp Hpc. apply StronglySorted_app_2; [|done|done].
  intros a b Ha Hb. specialize (Hc a Ha). specialize (Hpc b Hb). unfold note_before. lia.
Qed.

(** Examining [k] notifications of what is after the cursor. *)
Lemma examined_take w0 c0 ns c w k :
  inbox_ok w → moves w0 w → examined w0 c0 ns c w →
  let page := take k (notes_after c (inbox_notes w)) in
  examined w0 c0 (ns ++ page) (last_stream_id c page) w.
Proof.
  intros Hw Hm (Hs & Hc & Hin & Hcov) page.
  pose proof (notes_sorted w Hw) as Hsort.
  assert (StronglySorted note_before (notes_after c (inbox_notes w))) as Hsa
    by by apply StronglySorted_filter_b.
  assert (StronglySorted note_before page) as Hsp
    by (eapply StronglySorted_sublist; [apply sublist_take|done]).
  assert (∀ n, n ∈ page → n ∈ inbox_notes w ∧ (sid_rank c < note_rank n)%Z) as Hpage.
  { intros n Hn. apply elem_of_take_in, elem_of_filter_b in Hn as [? Hn]. by apply Z.ltb_lt in Hn. }
  assert (Forall (λ n, is_Some (n_stream_id n)) page) as Hids.
  { apply Forall_forall. intros n Hn. by apply (notes_known w n Hw), Hpage. }
  pose proof (last_stream_id_rank c page Hids) as Hlast.
  destruct (last page) as [m|] eqn:Em.
  2: { apply last_None in Em. rewrite Em, app_nil_r. exact (conj Hs (conj Hc (conj Hin Hcov))). }
  pose proof (last_Some_elem_of _ _ Em) as Hmin. destruct (Hpage m Hmin) as [Hmw Hmc].
  destruct (notes_known w m Hw Hmw) as [_ Hmt]. unfold examined. rewrite Hlast.
  split_and!; [|lia|lia| |].
  - eapply sorted_append; [done| |done|by intros n Hn; apply Hpage]. intros n Hn. by apply Hin.
  - intros n [Hn|Hn]%elem_of_app.
    + destruct (Hin n Hn) as [Hr ?]. split; [lia|done].
    + destruct (Hpage n Hn). pose proof (sorted_last note_rank page n m Hsp Em Hn).
      split; [lia|]. exists w. split_and!; [done|by apply moves_refl|done].
  - intros n Hn Hr. apply elem_of_app.
    destruct (Z.le_gt_cases (note_rank n) (sid_rank c)); [left; apply Hcov; [done|lia]|right].
    eapply (sorted_take_covers note_rank); [exact Hsa|exact Em| |lia].
    apply elem_of_filter_b. split; [done|by apply Z.ltb_lt].
Qed.

Lemma last_stream_id_app c l l' :
  last_stream_id c (l ++ l') = last_stream_id (last_stream_id c l) l'.
Proof. unfold last_stream_id. by rewrite foldl_app. Qed.

(** What the scan has found: the matching messages of what it examined. *)
Definition scanned (matches : Message → bool) (w0 : W) (c0 : string) (s : scan) (w : W) : Prop :=
  moves w0 w ∧ lane w = lane w0 ∧
  ∃ ns, sc_messages s = map n_message (List.filter (λ n, matches (n_message n)) ns) ∧
    length ns = sc_scanned s ∧ examined w0 c0 ns (sc_cursor s) w.

(** Nothing after the cursor at some moment before [w]. *)
Definition caught_up (w0 : W) (c : string) (w : W) : Prop :=
  ∃ w1, moves w0 w1 ∧ moves w1 w ∧ ∀ n, n ∈ inbox_notes w1 → (note_rank n ≤ sid_rank c)%Z.

Lemma map_filter_app (matches : Message → bool) ns page :
  map n_message (List.filter (λ n, matches (n_message n)) (ns ++ page)) =
  map n_message (List.filter (λ n, matches (n_message n)) ns) ++
  map n_message (List.filter (λ n, matches (n_message n)) page).
Proof. by rewrite List.filter_app, map_app. Qed.

(** Examining all that a short page held leaves nothing after the cursor. *)
Lemma short_page_caught_up c w n : inbox_ok w →
  length (take n (notes_after c (inbox_notes w))) < n →
  ∀ m, m ∈ inbox_notes w →
    (note_rank m ≤ sid_rank (last_stream_id c (take n (notes_after c (inbox_notes w)))))%Z.
Proof.
  intros Hw Hshort m Hm. rewrite length_take in Hshort. rewrite take_ge by lia.
  set (page := notes_after c (inbox_notes w)).
  assert (Forall (λ n, is_Some (n_stream_id n)) page) as Hids.
  { apply Forall_forall. intros x [Hx _]%elem_of_filter_b. by apply (notes_known w x Hw). }
  pose proof (last_stream_id_rank c page Hids) as Hlast.
  assert (StronglySorted note_before page) as Hs by by apply StronglySorted_filter_b, notes_sorted.
  destruct (Z.le_gt_cases (note_rank m) (sid_rank c)) as [Hle|Hgt].
  - destruct (last page) as [y|] eqn:Ey; [|by rewrite Hlast]. rewrite Hlast.
    apply last_Some_elem_of, elem_of_filter_b in Ey as [_ Hy]. apply Z.ltb_lt in Hy. lia.
  - assert (m ∈ page) as Hmp by (apply elem_of_filter_b; split; [done|by apply Z.ltb_lt]).
    destruct (last page) as [y|] eqn:Ey.
    + rewrite Hlast. by apply (sorted_last note_rank page m y).
    + apply last_None in Ey. rewrite Ey in Hmp. by apply elem_of_nil in Hmp.
Qed.

(** One page more. *)
Lemma scanned_page matches limit w0 c0 s w page n :
  scanned matches w0 c0 s w → length (sc_messages s) < limit → (0 ≤ sid_rank c0)%Z →
  ∀ w1 w', moves w w1 → moves w1 w' → lane w' = lane w0 →
  page = take n (notes_after (sc_cursor s) (inbox_notes w1)) →
  ∃ k s', scan_notes matches limit page s = Ok s' ∧ scanned matches w0 c0 s' w' ∧
    length (sc_messages s') ≤ limit ∧ sc_scanned s' = sc_scanned s + k ∧ k ≤ length page ∧
    (page ≠ [] → 0 < k) ∧
    (length page < n → length (sc_messages s') = limit ∨ caught_up w0 (sc_cursor s') w').
Proof.
  intros (Hm & _ & ns & Ems & Hlen & Hex) Hl Hc0 w1 w' Hm1 Hm' Hlane Epage.
  assert (inbox_ok w1) as Hw1 by by eapply moves_ok.
  assert (moves w0 w1) as H01 by by eapply moves_trans.
  assert (Forall (λ n, is_Some (n_stream_id n)) page) as Hids.
  { subst. apply Forall_forall. intros x [Hx _]%elem_of_take_in%elem_of_filter_b.
    by apply (notes_known w1 x Hw1). }
  destruct (scan_notes_spec matches limit page s Hids Hl)
    as (k & s' & E & Hk & Ems' & Esc & Ec & Hle & Hfull & Hpos).
  exists k, s'. split_and!; try done.
  - split_and!; [by eapply moves_trans|done|]. exists (ns ++ take k page).
    rewrite map_filter_app, <- Ems, length_app, length_take, Esc. split_and!; [done|lia|].
    eapply examined_moves; [exact H01|exact Hm'|]. rewrite Ec. subst page. rewrite take_take.
    apply examined_take; [done..|]. exact (examined_moves w0 c0 ns (sc_cursor s) w w1 Hm Hm1 Hex).
  - intros Hshort. destruct Hfull as [-> | ?]; [right|by left]. exists w1. split_and!; [done..|].
    rewrite Ec, firstn_all, Epage. rewrite Epage in Hshort. by apply short_page_caught_up.
Qed.

Lemma scan_pages_spec matches limit w0 c0 : (0 ≤ sid_rank c0)%Z → ∀ fuel s w r w',
  scanned matches w0 c0 s w → length (sc_messages s) ≤ limit →
  sc_scanned s ≤ INBOX_SCAN_LIMIT → INBOX_SCAN_LIMIT < fuel + sc_scanned s →
  scan_pages fuel agent matches limit s w = (r, w') →
  moves w0 w' ∧ lane w' = lane w0 ∧
  ∀ s', r = Ok s' → scanned matches w0 c0 s' w' ∧ length (sc_messages s') ≤ limit ∧
    sc_scanned s' ≤ INBOX_SCAN_LIMIT ∧
    (length (sc_messages s') = limit ∨ sc_scanned s' = INBOX_SCAN_LIMIT ∨
     caught_up w0 (sc_cursor s') w').
Proof.
  intros Hc0. induction fuel as [|fuel IH]; intros s w r w' Hs Hl Hsc Hf; [lia|].
  pose proof Hs as (Hm & Hlane & _). cbn [scan_pages].
  destruct ((length (sc_messages s) <? limit)%nat && _) eqn:Eg.
  2: { intros [= <- <-]. split_and!; [done..|]. intros s' [= <-]. split_and!; [done..|].
       apply andb_false_iff in Eg as [Eg|Eg]; apply Nat.ltb_ge in Eg; lia. }
  apply andb_true_iff in Eg as [Eg1 Eg2]. apply Nat.ltb_lt in Eg1, Eg2.
  set (n := Nat.min _ _).
  assert (0 < n ∧ n ≤ INBOX_SCAN_LIMIT - sc_scanned s) as [Hn0 Hn].
  { unfold n. assert (0 < INBOX_PAGE_SIZE) by (unfold INBOX_PAGE_SIZE; lia). lia. }
  destruct (load_page agent (sc_cursor s) n w) as [page w2] eqn:Ep.
  pose proof Hs as (_ & _ & ns & _ & _ & _ & Hc & _).
  assert (inbox_ok w) as Hw by by eapply moves_ok.
  destruct (load_page_law _ _ _ _ _ Hw (Z.le_trans _ _ _ Hc0 (proj1 Hc)) Ep) as (w1 & H1 & H2 & Hl2 & Hpage).
  assert (moves w0 w2) as H02 by (eapply moves_trans; [done|by eapply moves_trans]).
  destruct page as [page|e]; [|intros [= <- <-]; split_and!; [done|congruence|done]].
  assert (lane w2 = lane w0) as Hl20 by congruence.
  destruct (scanned_page matches limit w0 c0 s w page n Hs Eg1 Hc0 w1 w2 H1 H2 Hl20 (Hpage _ eq_refl))
    as (k & s' & E & Hs' & Hle & Esc & Hk & Hpos & Hshort).
  assert (length page ≤ n) as Hpn by (rewrite (Hpage _ eq_refl), length_take; lia).
  rewrite E. destruct (Nat.ltb_spec (length page) n) as [Hlt|Hge].
  - intros [= <- <-]. split_and!; [done|done|]. intros x [= <-]. split_and!; [done|done|lia|].
    destruct (Hshort Hlt); auto.
  - apply IH; [done|done|lia|]. assert (page ≠ []) as Hne by (intros ->; simpl in Hge; lia).
    specialize (Hpos Hne). lia.
Qed.

Lemma scanned_start matches w0 w : inbox_ok w0 → moves w0 w → lane w = lane w0 →
  scanned matches w0 (lane w0) (mkScan (lane w0) [] 0) w.
Proof.
  intros H0 Hm Hl. split_and!; [done|done|]. exists []. split_and!; [done|done|].
  pose proof (lane_known w (moves_ok _ _ Hm)) as Hk. rewrite Hl in Hk.
  simpl. split_and!; [constructor|lia|lia|by intros n ?%elem_of_nil|lia].
Qed.

Lemma commit_cursor_spec w c now r w' : inbox_ok w → lane w = c →
  (0 ≤ sid_rank now ≤ inbox_top w)%Z → commit_cursor key c now w = (r, w') →
  moves w w' ∧ (lane w' = now ∨ (lane w' = c ∧ is_ok r = false)).
Proof.
  unfold commit_cursor. intros Hw Hl Hn. case_bool_decide as E.
  - intros [= <- <-]. split; [by apply moves_refl|left; congruence].
  - intros Es. destruct (save_cursor_law _ _ _ _ Hw Hn Es) as (Hm & Hcase). by rewrite Hl in Hcase.
Qed.

(** ** One check *)

Context `{!LaneText}.

(** A request of the lane's reader. *)
Definition serves (r : CheckInboxRequest) : Prop :=
  ci_agent r = agent ∧ ci_reset_cursor r = false ∧ lane_key r (lane_tags (ci_filters r)) = key.

Definition selects (r : CheckInboxRequest) : Message → bool :=
  inbox_matches r (lane_tags (ci_filters r)).

Definition delivered (r : CheckInboxRequest) (ns : list Notification) : list Message :=
  map n_message (List.filter (λ n, selects r (n_message n)) ns).

Lemma check_spec r w res w' : inbox_ok w → serves r → check_inbox_with_store r w = (res, w') →
  moves w w' ∧
  match res with
  | Ok i =>
      ir_cursor_was i = lane w ∧ lane w' = ir_cursor_now i ∧ length (ir_messages i) ≤ ci_limit r ∧
      ∃ ns, ir_messages i = delivered r ns ∧ length ns ≤ INBOX_SCAN_LIMIT ∧
        examined w (lane w) ns (lane w') w' ∧
        (length (ir_messages i) = ci_limit r ∨ length ns = INBOX_SCAN_LIMIT ∨
         caught_up w (lane w') w')
  | Err _ => lane w' = lane w ∨ ∃ ns, examined w (lane w) ns (lane w') w'
  end.
Proof.
  intros Hw (Ea & Er & Ek). unfold check_inbox_with_store. rewrite Er, Ek, Ea.
  destruct (load_cursor key w) as [c w1] eqn:Ec.
  destruct (load_cursor_law _ _ _ Hw Ec) as (Hm1 & Hl1 & Hc).
  destruct c as [c|e]; [|intros [= <- <-]; split; [done|by left]]. specialize (Hc c eq_refl). subst c.
  destruct (scan_pages _ _ _ _ _ w1) as [s w2] eqn:Es.
  pose proof (lane_known w Hw) as Hk.
  assert (INBOX_SCAN_LIMIT < S INBOX_SCAN_LIMIT + 0) as Hfuel by lia.
  destruct (scan_pages_spec (inbox_matches r (lane_tags (ci_filters r))) (ci_limit r) w (lane w)
    (proj1 Hk) _ _ _ _ _ (scanned_start _ w w1 Hw Hm1 Hl1) (Nat.le_0_l _) (Nat.le_0_l _)
    Hfuel Es) as (Hm2 & Hl2 & Hs).
  destruct s as [s|e]; [|intros [= <- <-]; split; [done|by left]].
  destruct (Hs s eq_refl) as ((_ & _ & ns & Ems & Hlen & Hex) & Hle & Hsc & Hdone). clear Hs Es Ec.
  destruct (commit_cursor key (lane w) (sc_cursor s) w2) as [saved w3] eqn:Eco.
  pose proof Hex as (_ & Hcr & _).
  destruct (commit_cursor_spec w2 (lane w) (sc_cursor s) saved w3 (moves_ok _ _ Hm2) Hl2
    ltac:(lia) Eco) as (Hm3 & Hl3).
  pose proof (moves_trans _ _ _ Hm2 Hm3) as H03. intros [= <- <-]. split; [done|].
  pose proof (examined_moves w (lane w) ns (sc_cursor s) w2 w3 Hm2 Hm3 Hex) as Hex3.
  destruct saved as [u|e]; simpl.
  - destruct Hl3 as [Hl3|[_ ?]]; [|done]. rewrite Hl3. split_and!; [done..|].
    exists ns. rewrite Ems. split; [done|]. split; [lia|]. split; [done|].
    destruct Hdone as [Hd|[Hd|(w4 & H4 & H4' & Hd)]].
    + left. by rewrite <- Hd, Ems.
    + right. left. lia.
    + right. right. exists w4. split_and!; [done|by eapply moves_trans|done].
  - destruct Hl3 as [Hl3|[Hl3 _]]; [right; exists ns; by rewrite Hl3|by left].
Qed.

(** ** Histories of one lane *)

(** What happens to a lane whose one reader asks with the filters of [r]: others act,
    checks of any limit are answered, and checks fail without committing. *)
Inductive history (r : CheckInboxRequest) : W → list Message → W → Prop :=
  | history_nil w : history r w [] w
  | history_others w w1 ms w' :
      moves w w1 → lane w1 = lane w → history r w1 ms w' → history r w ms w'
  | history_check limit w i w1 ms w' :
      check_inbox_with_store (mkCheck (ci_agent r) limit false (ci_filters r)) w = (Ok i, w1) →
      history r w1 ms w' → history r w (ir_messages i ++ ms) w'
  | history_failed limit w e w1 ms w' :
      check_inbox_with_store (mkCheck (ci_agent r) limit false (ci_filters r)) w = (Err e, w1) →
      lane w1 = lane w → history r w1 ms w' → history r w ms w'.

Lemma examined_join w ns w1 ns' c' w' : inbox_ok w → moves w w1 → moves w1 w' →
  examined w (lane w) ns (lane w1) w1 → examined w1 (lane w1) ns' c' w' →
  examined w (lane w) (ns ++ ns') c' w'.
Proof.
  intros Hw Hm Hm' (Hs & Hc & Hin & Hcov) (Hs' & Hc' & Hin' & Hcov'). split_and!; [|lia|lia| |].
  - apply (sorted_append (lane w1)); [done| |done|]; intros n Hn; [apply Hin in Hn|apply Hin' in Hn]; lia.
  - intros n [Hn|Hn]%elem_of_app.
    + destruct (Hin n Hn). split; [lia|by eapply appeared_mono].
    + destruct (Hin' n Hn). split; [lia|by eapply appeared_later].
  - intros n Hn Hr. apply elem_of_app.
    destruct (Z.le_gt_cases (note_rank n) (sid_rank (lane w1))); [left|right].
    + apply Hcov; [|lia]. eapply moves_old; [exact Hm'|done|lia].
    + apply Hcov'; [done|lia].
Qed.

Lemma serves_limit r limit : serves r → serves (mkCheck (ci_agent r) limit false (ci_filters r)).
Proof. by intros (? & _ & ?). Qed.

Lemma history_examined r w ms w' : serves r → inbox_ok w → history r w ms w' →
  moves w w' ∧ ∃ ns, ms = delivered r ns ∧ examined w (lane w) ns (lane w') w'.
Proof.
  intros Hr Hw Hh. induction Hh as [w|w w1 ms w' Hm Hl _ IH|limit w i w1 ms w' E _ IH|limit w e w1 ms w' E Hl _ IH].
  - split; [by apply moves_refl|]. exists []. split; [done|].
    pose proof (lane_known w Hw). split_and!; [constructor|lia|lia|by intros n ?%elem_of_nil|lia].
  - destruct (IH (moves_ok _ _ Hm)) as (Hm' & ns & -> & Hex). split; [by eapply moves_trans|].
    exists ns. split; [done|]. rewrite Hl in Hex.
    destruct Hex as (Hs & Hc & Hin & Hcov). split_and!; [done|lia|lia| |done].
    intros n Hn. destruct (Hin n Hn). split; [done|by eapply appeared_later].
  - destruct (check_spec _ _ _ _ Hw (serves_limit r limit Hr) E)
      as (Hm & _ & _ & _ & ns & Ems & _ & Hex & _).
    destruct (IH (moves_ok _ _ Hm)) as (Hm' & ns' & -> & Hex'). split; [by eapply moves_trans|].
    exists (ns ++ ns'). rewrite Ems. split; [|by eapply examined_join].
    unfold delivered. by rewrite List.filter_app, map_app.
  - destruct (check_spec _ _ _ _ Hw (serves_limit r limit Hr) E) as (Hm & _).
    destruct (IH (moves_ok _ _ Hm)) as (Hm' & ns & -> & Hex). split; [by eapply moves_trans|].
    exists ns. split; [done|]. rewrite Hl in Hex.
    destruct Hex as (Hs & Hc & Hin & Hcov). split_and!; [done|lia|lia| |done].
    intros n Hn. destruct (Hin n Hn). split; [done|by eapply appeared_later].
Qed.
End lemmas.

(** C6. Whatever others append and the server trims between and during the checks of one
    reader, the messages its answered checks return are those of a list of
    notifications of the stream, each once and in the order of their identifiers, that
    the lane's filters select; and every notification still retained that the cursor has
    passed is in that list: none is delivered twice and none is skipped. *)
Theorem inbox_exactly_once {W : Type} `{!LaneText} `{!InboxStore W} `{!InboxView W}
    (agent key : string) `{!InboxLaws W agent key} (r : CheckInboxRequest) (w : W)
    (ms : list Message) (w' : W) :
  serves agent key r → inbox_ok w → history r w ms w' →
  ∃ ns, ms = map n_message (List.filter (λ n, selects r (n_message n)) ns) ∧
    StronglySorted note_before ns ∧
    (∀ n, n ∈ ns → (sid_rank (lane w) < note_rank n ≤ sid_rank (lane w'))%Z ∧ appeared w w' n) ∧
    (∀ n, n ∈ inbox_notes w' →
      (sid_rank (lane w) < note_rank n ≤ sid_rank (lane w'))%Z → n ∈ ns).
Proof.
  intros Hr Hw Hh.
  destruct (history_examined agent key r w ms w' Hr Hw Hh) as (_ & ns & -> & Hs & _ & Hin & Hcov).
  by exists ns.
Qed.

(** ** Draining *)

Lemma length_filter_le {A} (f g : A → bool) l : (∀ x, g x = true → f x = true) →
  length (List.filter g l) ≤ length (List.filter f l).
Proof.
  intros Hgf. induction l as [|x l IH]; simpl; [done|].
  destruct (g x) eqn:Eg; [rewrite (Hgf x Eg); simpl; lia|]. destruct (f x); simpl; lia.
Qed.

Lemma length_filter_lt {A} (f g : A → bool) l x : (∀ x, g x = true → f x = true) →
  x ∈ l → f x = true → g x = false → length (List.filter g l) < length (List.filter f l).
Proof.
  intros Hgf Hx Ef Eg. apply list_elem_of_split in Hx as (l1 & l2 & ->).
  rewrite !List.filter_app, !length_app. simpl. rewrite Ef, Eg. simpl.
  pose proof (length_filter_le f g l1 Hgf). pose proof (length_filter_le f g l2 Hgf). lia.
Qed.

Section drain.
Context {W : Type} `{!LaneText} `{!InboxStore W} `{!InboxView W} (agent key : string)
  `{!InboxLaws W agent key}.

Definition unread (w : W) : nat := length (notes_after (lane w) (inbox_notes w)).

Lemma unread_zero w : unread w = 0 → ∀ n, n ∈ inbox_notes w → (note_rank n ≤ sid_rank (lane w))%Z.
Proof.
  unfold unread. intros E%length_zero_iff_nil n Hn.
  destruct (Z.le_gt_cases (note_rank n) (sid_rank (lane w))) as [|Hgt]; [done|exfalso].
  assert (n ∈ notes_after (lane w) (inbox_notes w)) as Hin
    by (apply elem_of_filter_b; split; [done|by apply Z.ltb_lt]).
  rewrite E in Hin. by apply elem_of_nil in Hin.
Qed.

(** Nothing was appended, and the check answered. *)
Definition undisturbed (r : CheckInboxRequest) (w : W) : Prop :=
  is_ok (check_inbox_with_store r w).1 = true ∧
  ∃ k, inbox_notes (check_inbox_with_store r w).2 = drop k (inbox_notes w).

Lemma check_reads_on r w : inbox_ok w → serves agent key r → 1 ≤ ci_limit r → undisturbed r w →
  let w' := (check_inbox_with_store r w).2 in unread w' = 0 ∨ unread w' < unread w.
Proof.
  intros Hw Hr Hlim [Hok [k Ek]]. destruct (check_inbox_with_store r w) as [[i|e] w'] eqn:E; [|done].
  simpl in *. destruct (check_spec agent key r w _ w' Hw Hr E)
    as (Hm & _ & _ & _ & ns & Ems & _ & (Hs & Hc & Hin & Hcov) & Hdone).
  destruct (decide (unread w' = 0)) as [|Hne]; [by left|right].
  destruct (notes_after (lane w') (inbox_notes w')) as [|m rest] eqn:Em;
    [by unfold unread in Hne; rewrite Em in Hne|].
  assert (m ∈ notes_after (lane w') (inbox_notes w')) as [Hmw Hmr]%elem_of_filter_b
    by (rewrite Em; by left). apply Z.ltb_lt in Hmr.
  assert (m ∈ inbox_notes w) as Hmo by (rewrite Ek in Hmw; by eapply elem_of_drop_in).
  pose proof (notes_known w m Hw Hmo) as [_ Hmt].
  assert (ns ≠ []) as Hns.
  { intros ->. destruct Hdone as [Hd|[Hd|(w1 & H1 & H2 & Hd)]].
    - rewrite Ems in Hd. simpl in Hd. lia.
    - simpl in Hd. unfold INBOX_SCAN_LIMIT in Hd. lia.
    - assert (m ∈ inbox_notes w1) as Hm1 by (eapply moves_old; [exact H2|exact Hmw|];
        destruct H1 as (_ & ? & _); lia). specialize (Hd m Hm1). lia. }
  destruct ns as [|n ns]; [done|]. destruct (Hin n ltac:(by left)) as [Hnr (w1 & H1 & H2 & Hn1)].
  assert (n ∈ inbox_notes w) as Hno by (eapply moves_old; [exact H1|done|lia]).
  unfold unread, notes_after at 1. rewrite Ek.
  eapply Nat.le_lt_trans; [apply (sublist_length (List.filter _ (drop k (inbox_notes w))))|
    eapply (length_filter_lt _ (λ x, (sid_rank (lane w') <? note_rank x)%Z) _ n)].
  - rewrite <- (take_drop k (inbox_notes w)) at 2. rewrite List.filter_app. by apply sublist_inserts_l.
  - intros x Hx%Z.ltb_lt. apply Z.ltb_lt. lia.
  - done.
  - apply Z.ltb_lt. lia.
  - apply Z.ltb_ge. lia.
Qed.

Fixpoint check_times (n : nat) (r : CheckInboxRequest) (w : W) : W :=
  match n with
  | O => w
  | S n => check_times n r (check_inbox_with_store r w).2
  end.

Lemma check_times_reads r n : (∀ w, inbox_ok w → undisturbed r w) → serves agent key r →
  1 ≤ ci_limit r → ∀ w, inbox_ok w → unread w < n ∨ unread w = 0 → unread (check_times n r w) = 0.
Proof.
  intros Hq Hr Hlim. induction n as [|n IH]; intros w Hw Hun; simpl; [lia|].
  pose proof (check_reads_on r w Hw Hr Hlim (Hq w Hw)) as Hd. cbn zeta in Hd.
  destruct (check_inbox_with_store r w) as [res w'] eqn:E. simpl in *.
  destruct (check_spec agent key r w _ w' Hw Hr E) as [Hm _].
  apply IH; [by eapply moves_ok|]. lia.
Qed.
End drain.

(** C27. In a quiet stream, where checks answer and nothing new arrives, more checks than
    there are unread notifications - each with room for at least one message - bring the
    cursor past everything retained, however the entries the filters refuse fill the
    pages. *)
Theorem inbox_drains {W : Type} `{!LaneText} `{!InboxStore W} `{!InboxView W}
    (agent key : string) `{!InboxLaws W agent key} (r : CheckInboxRequest) (w : W) (n : nat) :
  serves agent key r → 1 ≤ ci_limit r → inbox_ok w →
  (∀ w, inbox_ok w → undisturbed r w) →
  length (notes_after (lane w) (inbox_notes w)) < n →
  ∀ m, m ∈ inbox_notes (check_times n r w) →
    (note_rank m ≤ sid_rank (lane (check_times n r w)))%Z.
Proof.
  intros Hr Hlim Hw Hq Hn. apply unread_zero. apply (check_times_reads agent key); auto.
Qed.
