(* ===== verification/InboxRedis.v ===== *)
(** * InboxRedis: the inbox on a Redis connection

    The connection's instance of [InboxStore] obeys the laws of the inbox's interface:
    others only append to the agent's stream and trim it, no one else uses the lane's
    cursor, and the run is shorter than a cursor's lifetime. Any command may be lost. *)

From Stdlib Require Import ZArith Lia Ascii.
From stdpp Require Import base option list strings gmap sorting.
From S2P Require Import Prelude Str Json Validation McpSchema ClaimTypes Outbox Redis.
From S2P Require Import Channels Messages StreamEntry ReplayScript OutboxHub SyncStore StreamFacts.
From S2P Require Import Bus Inbox InboxProps.

(** What others do around the commands of one lane's reader. [tops] bounds the
    identifiers given so far. *)
Record lane_env (env : bus_env) (tops : nat → Z) (stream key : string) : Prop := {
  le_tops i : (tops i ≤ tops (S i))%Z;
  le_stream i d : stream_ok stream (tops i) d →
    stream_ok stream (tops (S i)) (tn_others (env i) d) ∧
    grows stream (tops i) d (tn_others (env i) d) ∧
    unexpired stream (lua_now (tn_lua (env i))) (tn_others (env i) d);
  le_cursor i d : hd_keys (tn_others (env i) d) !! key = hd_keys d !! key;
  le_span i j :
    (lua_now (tn_lua (env j)) < lua_now (tn_lua (env i)) + CURSOR_TTL_SECS * 1000)%Z;
  le_keys : key ≠ stream;
}.

Section conn.
Context `{Chrono} `{StoreText} `{BodyCodec} `{!EntryText} `{HubText} `{!BusText}.
Context (env : bus_env) (tops : nat → Z) (agent key : string).
Context (Henv : lane_env env tops (notification_stream_key agent) key).

Abbreviation stream := (notification_stream_key agent).

Definition note_of (e : string * list string) : Notification :=
  decode_notification_entry e.1 (parse_fields ∅ (map BulkString e.2)).

Definition lane_text (d : hubdb) : string :=
  match hd_keys d !! key with Some (mkEntry (VString s) _) => s | _ => "0-0" end.

(** The cursor's entry: text that outlives the run. *)
Definition lane_entry (i : nat) (d : hubdb) : Prop :=
  match hd_keys d !! key with
  | None => True
  | Some (mkEntry (VString _) until) =>
      from_option (λ t, ∀ j, i ≤ j → (lua_now (tn_lua (env j)) < t)%Z) True until
  | Some _ => False
  end.

Definition conn_view : InboxView conn := {|
  inbox_ok c := stream_ok stream (tops (cn_step c)) (cn_db c) ∧ lane_entry (cn_step c) (cn_db c) ∧
    (0 ≤ sid_rank (lane_text (cn_db c)) ≤ tops (cn_step c))%Z;
  inbox_notes c := map note_of (stream_of (cn_db c) stream);
  inbox_top c := tops (cn_step c);
  lane c := lane_text (cn_db c);
|}.

#[local] Existing Instance conn_view.
#[local] Instance conn_store_here : InboxStore conn := conn_store env.

Lemma note_of_rank e : note_rank (note_of e) = erank e.
Proof. done. Qed.

Lemma lane_entry_later i j d : i ≤ j → lane_entry i d → lane_entry j d.
Proof.
  unfold lane_entry. intros Hij. destruct (hd_keys d !! key) as [[[] [t|]]|]; simpl; auto.
  intros Ht k Hk. apply Ht. lia.
Qed.

(** A command that leaves what others left, or writes the lane's cursor only. *)
Lemma command_moves (c : conn) (d : hubdb) :
  let i := cn_step c in
  let d0 := tn_others (env i) (cn_db c) in
  inbox_ok c → stream_of d stream = stream_of d0 stream →
  stream_ok stream (tops (S i)) d → lane_entry (S i) d →
  (0 ≤ sid_rank (lane_text d) ≤ tops (S i))%Z → moves c (advance c d).
Proof.
  intros i d0 (Hs & _) E Hd Hl Hr. destruct (le_stream _ _ _ _ Henv i _ Hs) as (_ & (n & new & Eg & Hn) & _).
  split; [exact (conj Hd (conj Hl Hr))|]. split; [apply (le_tops _ _ _ _ Henv)|].
  simpl. exists n, (map note_of new). rewrite E. unfold d0. rewrite Eg, map_app, skipn_map. split; [done|].
  apply Forall_fmap. eapply Forall_impl; [exact Hn|]. done.
Qed.

(** What a step finds once others have acted. *)
Lemma others_ok (c : conn) : let i := cn_step c in
  let d := tn_others (env i) (cn_db c) in
  inbox_ok c → moves c (advance c d) ∧ lane_text d = lane_text (cn_db c) ∧
    lane_entry i d ∧ stream_ok stream (tops (S i)) d ∧
    unexpired stream (lua_now (tn_lua (env i))) d.
Proof.
  intros i d Hc. pose proof Hc as (Hs & Hl & Hr).
  destruct (le_stream _ _ _ _ Henv i _ Hs) as (Hd & _ & Hu).
  pose proof (le_cursor _ _ _ _ Henv i (cn_db c)) as Ek.
  assert (lane_text d = lane_text (cn_db c)) as El by (unfold lane_text, d; by rewrite Ek).
  assert (lane_entry i d) as Hle by (unfold lane_entry, d; by rewrite Ek).
  pose proof (le_tops _ _ _ _ Henv i) as Ht. fold i in Hr.
  split; [|exact (conj El (conj Hle (conj Hd Hu)))].
  apply (command_moves c d Hc); [done|exact Hd|by apply (lane_entry_later i); [lia|]|].
  rewrite El. fold i. lia.
Qed.

Lemma lane_get i d e : lane_entry i d → e = tn_lua (env i) →
  redis_GET key (mkLuaState d e) =
  (Ok (match hd_keys d !! key with Some _ => Some (lane_text d) | None => None end), mkLuaState d e).
Proof.
  intros Hl ->. unfold redis_GET, lread, live_entry, lane_entry, lane_text in *. simpl.
  destruct (hd_keys d !! key) as [[[s|?|?|?] until]|]; try done. simpl.
  destruct until as [t|]; [|done]. simpl in Hl. rewrite (proj2 (Z.leb_gt _ _)); [done|].
  by apply Hl.
Qed.

Lemma attempt_read {A} how (m : lua A) e d r :
  m (mkLuaState d e) = (r, mkLuaState d e) →
  attempt how m e d = (match how with Delivered => r | _ => Err "connection lost" end, d).
Proof. intros E. destruct how; simpl; by rewrite ?E. Qed.

Lemma conn_load_cursor c r c' : inbox_ok c → load_cursor key c = (r, c') →
  moves c c' ∧ lane c' = lane c ∧ ∀ v, r = Ok v → v = lane c.
Proof.
  intros Hc. destruct (others_ok c Hc) as (Hm & El & Hle & _).
  change (load_cursor key c) with (conn_cursor env key c). unfold conn_cursor, raw_command.
  rewrite (attempt_read _ _ _ _ _ (lane_get _ _ _ Hle eq_refl)). intros [= <- <-].
  split_and!; [done|exact El|]. intros v. destruct (tn_how _); [|done..]. simpl. intros [= <-].
  simpl. rewrite <- El. unfold lane_text. by destruct (hd_keys _ !! key).
Qed.

Lemma decode_reply l : good_stream l → decode_notes (map reply_entry l) = map note_of l.
Proof.
  intros Hl. unfold decode_notes. rewrite parse_reply by by apply good_utf8. by rewrite map_map.
Qed.

Lemma notes_after_map sid l :
  notes_after sid (map note_of l) = map note_of (List.filter (λ e, (sid_rank sid <? erank e)%Z) l).
Proof.
  unfold notes_after. induction l as [|e l IH]; [done|]. simpl. rewrite note_of_rank.
  destruct (_ <? _)%Z; simpl; by rewrite IH.
Qed.

Lemma good_sub f n l : good_stream l → good_stream (take n (List.filter f l)).
Proof.
  intros [Hs Hf]. split.
  - eapply StronglySorted_sublist; [apply sublist_take|]. by apply StronglySorted_filter_b.
  - apply Forall_take. by apply Forall_filter_b.
Qed.

Lemma conn_load_page cur n c r c' : inbox_ok c → (0 ≤ sid_rank cur)%Z →
  load_page agent cur n c = (r, c') →
  ∃ c0, moves c c0 ∧ moves c0 c' ∧ lane c' = lane c ∧
    ∀ page, r = Ok page → page = take n (notes_after cur (inbox_notes c0)).
Proof.
  intros Hc Hcur. change (load_page agent cur n c) with (list_notifications_since_id agent cur n env c).
  unfold list_notifications_since_id. destruct (Nat.eqb_spec n 0) as [-> | Hn].
  { intros [= <- <-]. exists c. split_and!; [by apply moves_refl..|done|]. by intros page [= <-]. }
  destruct (others_ok c Hc) as (Hm & El & Hle & Hs & Hu).
  set (d := tn_others (env (cn_step c)) (cn_db c)) in *.
  pose proof (redis_XRANGE_stream stream _ _ (Nat.max n 1) d (tn_lua (env (cn_step c))) _ Hs Hu
    (xrange_after cur _ _ (proj1 (proj2 Hs)) Hcur)) as Er.
  unfold bbind, command, raw_command. fold d. rewrite (attempt_read _ _ _ _ _ Er).
  rewrite Nat.max_l by lia. destruct (tn_how _); simpl; intros [= <- <-];
    (exists (advance c d); split_and!; [done|by eapply moves_refl, moves_ok|exact El|done || idtac]).
  intros page [= <-]. rewrite decode_reply by apply good_sub, Hs. simpl.
  by rewrite notes_after_map, firstn_map.
Qed.

(** A write of the cursor: as others left it, or the new value. *)
Lemma set_lane v until e d r st : redis_SET key v until (mkLuaState d e) = (r, st) →
  (is_ok r = false ∧ ls_db st = d) ∨
  hd_keys (ls_db st) = <[key := mkEntry (VString v) until]> (hd_keys d).
Proof.
  unfold redis_SET, lwrite. simpl.
  destruct (lua_writes e) as [[|n]|]; intros [= <- <-]; simpl; auto.
Qed.

Lemma lane_written c v until d : let i := cn_step c in
  inbox_ok c → (0 ≤ sid_rank v ≤ tops i)%Z →
  hd_keys d = <[key := mkEntry (VString v) until]> (hd_keys (tn_others (env i) (cn_db c))) →
  from_option (λ t, ∀ j, S i ≤ j → (lua_now (tn_lua (env j)) < t)%Z) True until →
  moves c (advance c d) ∧ lane_text d = v.
Proof.
  intros i Hc Hv Ek Ht. destruct (others_ok c Hc) as (_ & _ & _ & Hs & _). fold i in Hs.
  pose proof (le_keys _ _ _ _ Henv) as Hne. pose proof (le_tops _ _ _ _ Henv i) as Hti.
  assert (lane_text d = v) as El by (unfold lane_text; by rewrite Ek, lookup_insert_eq).
  assert (stream_of d stream = stream_of (tn_others (env i) (cn_db c)) stream) as Est
    by (unfold stream_of; by rewrite Ek, lookup_insert_ne).
  split; [|done]. apply (command_moves c d Hc); [done| | |].
  - unfold stream_ok in *. rewrite Est, Ek, lookup_insert_ne by done. exact Hs.
  - unfold lane_entry. by rewrite Ek, lookup_insert_eq.
  - rewrite El. fold i. lia.
Qed.

Definition save_program (v : string) : lua unit :=
  if starts_with key FILTER_CURSOR_PREFIX then redis_SETEX key v CURSOR_TTL_SECS
  else redis_SET key v None.

Lemma save_program_writes v i d r st : save_program v (mkLuaState d (tn_lua (env i))) = (r, st) →
  (is_ok r = false ∧ ls_db st = d) ∨
  ∃ until, hd_keys (ls_db st) = <[key := mkEntry (VString v) until]> (hd_keys d) ∧
    from_option (λ t, ∀ j, S i ≤ j → (lua_now (tn_lua (env j)) < t)%Z) True until.
Proof.
  unfold save_program. destruct (starts_with _ _).
  - change (redis_SETEX key v CURSOR_TTL_SECS (mkLuaState d (tn_lua (env i))))
      with (redis_SET key v (Some (lua_now (tn_lua (env i)) + CURSOR_TTL_SECS * 1000)%Z)
              (mkLuaState d (tn_lua (env i)))).
    intros [?|E]%set_lane; [by left|right]. eexists. split; [exact E|]. simpl. intros j _.
    apply (le_span _ _ _ _ Henv).
  - intros [?|E]%set_lane; [by left|right]. eexists. by split; [exact E|].
Qed.

Lemma conn_save_cursor v c r c' : inbox_ok c → (0 ≤ sid_rank v ≤ inbox_top c)%Z →
  save_cursor key v c = (r, c') →
  moves c c' ∧ (lane c' = v ∨ (lane c' = lane c ∧ is_ok r = false)).
Proof.
  intros Hc Hv. change (save_cursor key v c) with (conn_save env key v c). unfold conn_save, raw_command.
  fold (save_program v). set (i := cn_step c) in *. set (d := tn_others (env i) (cn_db c)).
  destruct (others_ok c Hc) as (Hm & El & _). fold i in Hm, El. fold d in Hm, El.
  destruct (attempt _ _ _ d) as [r0 d0] eqn:E. intros [= <- <-].
  apply attempt_cases in E as [(_ & -> & Hr)|(r1 & st & E & -> & Hr)].
  { split; [done|]. right. split; [exact El|]. by destruct r0. }
  apply save_program_writes in E as [[Hr1 ->]|(until & Ek & Ht)].
  - split; [done|]. right. split; [exact El|].
    destruct Hr as [-> | Hr]; [by destruct r1|by destruct r0].
  - destruct (lane_written c v until (ls_db st) Hc Hv Ek Ht) as [Hm' El']. split; [exact Hm'|by left].
Qed.

(** The connection keeps the inbox's promises. *)
Lemma conn_inbox_laws : @InboxLaws conn (conn_store env) conn_view agent key.
Proof.
  constructor.
  - intros c (Hs & _). apply (StronglySorted_map (λ a b, (erank a < erank b)%Z)); [done|].
    apply Hs.
  - intros c n (Hs & _ & _) (e & -> & He)%list_elem_of_fmap. split; [by eexists|].
    rewrite note_of_rank. destruct Hs as (_ & [_ Hg] & Hb). rewrite Forall_forall in Hg, Hb.
    split; [by apply Hg|by apply Hb].
  - by intros c (_ & _ & ?).
  - intros c r c' Hc E. by apply conn_load_cursor in E.
  - intros cur n c r c' Hc Hcur E. by apply conn_load_page in E.
  - intros v c r c' Hc Hv E. by apply conn_save_cursor in E.
Qed.
End conn.
