(* ===== verification/SummaryProps.v ===== *)
(** * SummaryProps: shared inbox cursors, and what a summary says of its messages

    The tags of a lane are its effective scopes in order, each once, so two requests use
    one cursor exactly when they select alike. The accumulators of [aggregate_messages] are
    sets and counts kept as ordered lists; the summary is read off them. *)

From Stdlib Require Import ZArith Lia Ascii.
From stdpp Require Import base option list strings gmap sorting.
From S2P Require Import Prelude Str Json Validation McpSchema ClaimTypes Outbox Redis.
From S2P Require Import Channels Messages StreamEntry ReplayScript OutboxHub SyncStore StreamFacts.
From S2P Require Import Bus Inbox ChannelProps ClaimInstances HubInstances SyncInstances BusInstances.

(** ** The order of texts *)

Lemma str_le_cons a s b t : str_le (String a s) (String b t) =
  match (N_of_ascii a ?= N_of_ascii b)%N with Lt => true | Eq => str_le s t | Gt => false end.
Proof.
  unfold str_le, String.leb. simpl. unfold Ascii.compare.
  by destruct (N_of_ascii a ?= N_of_ascii b)%N.
Qed.

Lemma str_le_refl s : str_le s s = true.
Proof. induction s as [|a s IH]; [done|]. by rewrite str_le_cons, N.compare_refl. Qed.

Lemma str_le_trans a b c : str_le a b = true → str_le b c = true → str_le a c = true.
Proof.
  revert b c. induction a as [|x a IH]; intros [|y b] [|z c]; try done.
  rewrite !str_le_cons.
  destruct (N.compare_spec (N_of_ascii x) (N_of_ascii y)),
    (N.compare_spec (N_of_ascii y) (N_of_ascii z)), (N.compare_spec (N_of_ascii x) (N_of_ascii z));
    try done; try lia. apply IH.
Qed.

Definition str_lt (a b : string) : Prop := str_le a b = true ∧ a ≠ b.

Lemma str_lt_trans a b c : str_lt a b → str_lt b c → str_lt a c.
Proof.
  intros [H1 N1] [H2 N2]. split; [by eapply str_le_trans|]. intros ->.
  apply N1, String.leb_antisym; done.
Qed.

(** Lists in strict order are their elements. *)
Lemma strict_sorted_unique l : ∀ l', StronglySorted str_lt l → StronglySorted str_lt l' →
  (∀ x, x ∈ l ↔ x ∈ l') → l = l'.
Proof.
  induction l as [|x l IH]; intros l' Hl Hl' Heq.
  { destruct l' as [|y l']; [done|].
    destruct (proj1 (elem_of_nil y) (proj2 (Heq y) (list_elem_of_here _ _))). }
  destruct l' as [|y l'].
  { destruct (proj1 (elem_of_nil x) (proj1 (Heq x) (list_elem_of_here _ _))). }
  apply StronglySorted_inv in Hl as [Hl Hx], Hl' as [Hl' Hy]. rewrite Forall_forall in Hx, Hy.
  assert (x = y) as ->.
  { destruct (proj1 (elem_of_cons _ _ _) (proj1 (Heq x) (list_elem_of_here _ _))) as [?|Hxl]; [done|].
    destruct (proj1 (elem_of_cons _ _ _) (proj2 (Heq y) (list_elem_of_here _ _))) as [?|Hyl]; [done|].
    destruct (Hx y Hyl) as [H1 N1], (Hy x Hxl) as [H2 _]. by destruct N1; apply String.leb_antisym. }
  f_equal. apply IH; [done..|]. intros z. split; intros Hz.
  - destruct (proj1 (elem_of_cons _ _ _) (proj1 (Heq z) (list_elem_of_further _ _ _ Hz))) as [-> | ?]; [|done].
    by destruct (Hx y Hz).
  - destruct (proj1 (elem_of_cons _ _ _) (proj2 (Heq z) (list_elem_of_further _ _ _ Hz))) as [-> | ?]; [|done].
    by destruct (Hy y Hz).
Qed.

(** ** The tags of a lane *)

Lemma elem_of_first_of_each l x : ∀ seen, x ∈ first_of_each seen l ↔ x ∈ l ∧ x ∉ seen.
Proof.
  induction l as [|y l IH]; intros seen; simpl.
  { rewrite elem_of_nil. naive_solver. }
  case_bool_decide as E; rewrite ?elem_of_cons, IH, ?not_elem_of_cons; [naive_solver|].
  destruct (decide (x = y)) as [->|]; naive_solver.
Qed.

Lemma elem_of_dedup l x : x ∈ dedup l ↔ x ∈ l.
Proof.
  induction l as [|y [|z l] IH]; [done|done|].
  change (dedup (y :: z :: l)) with (if bool_decide (y = z) then dedup (z :: l) else y :: dedup (z :: l)).
  case_bool_decide as E.
  - subst. rewrite IH, !elem_of_cons. naive_solver.
  - rewrite elem_of_cons, IH. symmetry. apply elem_of_cons.
Qed.

Lemma dedup_sorted l : StronglySorted (λ a b, str_le a b = true) l → StronglySorted str_lt (dedup l).
Proof.
  induction l as [|y [|z l] IH]; [constructor|by repeat constructor|]. intros Hs.
  change (dedup (y :: z :: l)) with (if bool_decide (y = z) then dedup (z :: l) else y :: dedup (z :: l)).
  apply StronglySorted_inv in Hs as [Hs Hy]. case_bool_decide as E; [by apply IH|].
  constructor; [by apply IH|]. apply Forall_forall. intros x Hx. rewrite elem_of_dedup in Hx.
  rewrite Forall_forall in Hy. split; [by apply Hy|]. intros ->.
  apply elem_of_cons in Hx as [?|Hx]; [done|].
  apply StronglySorted_inv in Hs as [_ Hz]. rewrite Forall_forall in Hz.
  apply E, String.leb_antisym; [apply Hy; by left|by apply Hz].
Qed.

(** The effective scopes of some filters. *)
Definition scope_tags (f : MessageFilters) : list string :=
  filled_scope "repo:" (mf_repo f) ++ filled_scope "session:" (mf_session f)
  ++ List.filter (λ t, negb (is_empty t)) (mf_tags f).

Lemma elem_of_lane_tags f x : x ∈ lane_tags f ↔ x ∈ scope_tags f.
Proof.
  unfold lane_tags, scoped_required_tags, query_scope_tags. rewrite elem_of_dedup, elem_of_sort_by.
  rewrite elem_of_first_of_each. split; [by intros [? _]|]. intros ?. split; [done|by intros ?%elem_of_nil].
Qed.

Lemma lane_tags_sorted f : StronglySorted str_lt (lane_tags f).
Proof.
  apply dedup_sorted, sort_by_sorted; [apply String.leb_total|apply str_le_trans].
Qed.

Lemma lane_tags_eq f f' :
  lane_tags f = lane_tags f' ↔ ∀ t, t ∈ scope_tags f ↔ t ∈ scope_tags f'.
Proof.
  split.
  - intros E t. by rewrite <- !elem_of_lane_tags, E.
  - intros E. apply strict_sorted_unique; [apply lane_tags_sorted..|]. intros t.
    by rewrite !elem_of_lane_tags.
Qed.

(** ** Keys *)

Lemma string_app_inj_l (p s t : string) : p +:+ s = p +:+ t → s = t.
Proof. induction p as [|a p IH]; [done|]. intros [= E]. by apply IH. Qed.

Lemma string_app_inj_len (p q s t : string) :
  String.length s = String.length t → p +:+ s = q +:+ t → s = t.
Proof.
  revert q. induction p as [|a p IH]; intros [|b q] Hl E.
  - done.
  - exfalso. apply (f_equal String.length) in E. rewrite !length_string_app in E. simpl in E. lia.
  - exfalso. apply (f_equal String.length) in E. rewrite !length_string_app in E. simpl in E. lia.
  - injection E as -> E. by eapply IH.
Qed.

Section keys.
Context `{LaneText}.

Definition lane_identity (r : CheckInboxRequest)
    : string * list string * option string * option string :=
  (ci_agent r, lane_tags (ci_filters r), mf_thread_id (ci_filters r), mf_topic (ci_filters r)).

Definition unfiltered (r : CheckInboxRequest) : bool :=
  bool_decide (lane_tags (ci_filters r) = []) && bool_decide (mf_thread_id (ci_filters r) = None)
  && bool_decide (mf_topic (ci_filters r) = None).

Lemma unfiltered_identity r : unfiltered r = true → lane_identity r = (ci_agent r, [], None, None).
Proof. unfold unfiltered, lane_identity. intros ?. bool_simplify. by repeat f_equal. Qed.

Lemma lane_key_cases r : lane_key r (lane_tags (ci_filters r)) =
  if unfiltered r then notification_cursor_key (ci_agent r)
  else FILTER_CURSOR_PREFIX +:+ ci_agent r +:+ ":v1:" +:+ sha256_base64 (identity_text (lane_identity r)).
Proof. done. Qed.

Lemma same_identity_same_key r r' : lane_identity r = lane_identity r' →
  lane_key r (lane_tags (ci_filters r)) = lane_key r' (lane_tags (ci_filters r')).
Proof.
  intros E. rewrite !lane_key_cases, E. unfold lane_identity in E. injection E as Ea Et Eh Ep.
  assert (unfiltered r = unfiltered r') as -> by (unfold unfiltered; by rewrite Et, Eh, Ep).
  by rewrite Ea.
Qed.
End keys.

(** Unless SHA-256 maps the two identities to one digest, two requests share a cursor
    exactly when they are of one agent and select alike: the same thread, the same topic
    and the same effective scopes, whatever the order, repetition or emptiness of the
    tags that name them. *)
Theorem lane_shared `{LaneText} (r r' : CheckInboxRequest) :
  (sha256_base64 (identity_text (lane_identity r)) = sha256_base64 (identity_text (lane_identity r')) →
   lane_identity r = lane_identity r') →
  lane_key r (lane_tags (ci_filters r)) = lane_key r' (lane_tags (ci_filters r')) ↔
  ci_agent r = ci_agent r' ∧ mf_thread_id (ci_filters r) = mf_thread_id (ci_filters r') ∧
  mf_topic (ci_filters r) = mf_topic (ci_filters r') ∧
  ∀ t, t ∈ scope_tags (ci_filters r) ↔ t ∈ scope_tags (ci_filters r').
Proof.
  intros Hsha. rewrite <- lane_tags_eq.
  assert (lane_identity r = lane_identity r' ↔
    ci_agent r = ci_agent r' ∧ mf_thread_id (ci_filters r) = mf_thread_id (ci_filters r') ∧
    mf_topic (ci_filters r) = mf_topic (ci_filters r') ∧
    lane_tags (ci_filters r) = lane_tags (ci_filters r')) as <-.
  { unfold lane_identity. split; [intros E; injection E; auto|].
    intros (-> & -> & -> & ->). done. }
  split; [|apply same_identity_same_key]. rewrite !lane_key_cases.
  destruct (unfiltered r) eqn:E1, (unfiltered r') eqn:E2; [| | |].
  - intros Ek%string_app_inj_l. by rewrite !unfiltered_identity, Ek.
  - discriminate.
  - discriminate.
  - intros Ek. apply Hsha. revert Ek. rewrite <- !string_app_assoc.
    apply string_app_inj_len. by rewrite !sha256_base64_length.
Qed.

(** ** Ordered sets and counts *)

Lemma str_lt_total x y : x ≠ y → str_le x y = false → str_lt y x.
Proof.
  intros Hne E. split; [by apply str_le_total|done].
Qed.

Lemma elem_of_set_insert x l a : a ∈ set_insert x l ↔ a = x ∨ a ∈ l.
Proof.
  induction l as [|y l IH]; simpl; [by rewrite elem_of_cons|].
  destruct (bool_decide_reflect (x = y)) as [->|_]; [set_solver|].
  destruct (str_le x y); [by rewrite elem_of_cons|]. rewrite !elem_of_cons, IH. tauto.
Qed.

Lemma set_insert_sorted x l : StronglySorted str_lt l → StronglySorted str_lt (set_insert x l).
Proof.
  induction 1 as [|y l Hl IH Hy]; simpl; [by repeat constructor|].
  destruct (bool_decide_reflect (x = y)) as [->|Hne]; [by constructor|].
  destruct (str_le x y) eqn:E.
  - constructor; [by constructor|]. constructor; [done|].
    eapply Forall_impl; [exact Hy|]. intros z. by apply str_lt_trans.
  - constructor; [done|]. apply Forall_forall. intros z [->|Hz]%elem_of_set_insert.
    + by apply str_lt_total.
    + rewrite Forall_forall in Hy. by apply Hy.
Qed.

(** The keys of the counts are a set. *)
Lemma count_insert_keys x l : (count_insert x l).*1 = set_insert x l.*1.
Proof.
  induction l as [|[y n] l IH]; csimpl; [done|].
  destruct (bool_decide_reflect (x = y)) as [->|_]; [done|].
  destruct (str_le x y); csimpl; [done|]. by rewrite IH.
Qed.

Lemma strict_nodup l : StronglySorted str_lt l → NoDup l.
Proof.
  induction 1 as [|x l _ IH Hx]; constructor; [|done]. intros Hin.
  rewrite Forall_forall in Hx. by destruct (Hx x Hin).
Qed.

(** What a list of counts says of one text. *)
Definition tally_of (t : string) (l : list (string * nat)) : nat :=
  sum_list_with (λ kn, if bool_decide (kn.1 = t) then kn.2 else 0) l.

Lemma tally_insert t x l :
  tally_of t (count_insert x l) = (if bool_decide (x = t) then 1 else 0) + tally_of t l.
Proof.
  induction l as [|[y n] l IH]; simpl; [done|].
  destruct (bool_decide_reflect (x = y)) as [->|_].
  - unfold tally_of. simpl. case_bool_decide; lia.
  - destruct (str_le x y); [done|]. unfold tally_of in *. simpl. rewrite IH. lia.
Qed.

Lemma count_insert_pos x l : Forall (λ kn : string * nat, 0 < kn.2) l →
  Forall (λ kn : string * nat, 0 < kn.2) (count_insert x l).
Proof.
  induction 1 as [|[y n] l Hn Hl IH]; simpl; [repeat constructor|].
  case_bool_decide; [constructor; [simpl; lia|done]|].
  destruct (str_le x y); repeat (constructor; simpl in *; auto).
Qed.

Lemma tally_absent t l : t ∉ l.*1 → tally_of t l = 0.
Proof.
  induction l as [|[y n] l IH]; csimpl; [done|]. intros [Hne Hn]%not_elem_of_cons.
  unfold tally_of. simpl. rewrite bool_decide_eq_false_2 by done. by apply IH.
Qed.

Lemma elem_of_counts t n l : NoDup l.*1 → Forall (λ kn : string * nat, 0 < kn.2) l →
  (t, n) ∈ l ↔ n = tally_of t l ∧ 0 < n.
Proof.
  intros Hnd Hpos. induction Hpos as [|[y k] l Hk _ IH].
  { split; [by intros ?%elem_of_nil|]. intros [-> H0]. simpl in H0. lia. }
  csimpl in Hnd. apply NoDup_cons in Hnd as [Hy Hnd]. specialize (IH Hnd).
  rewrite elem_of_cons, IH. unfold tally_of in *. simpl in *.
  destruct (bool_decide_reflect (y = t)) as [->|Hne].
  - pose proof (tally_absent t l Hy) as E. unfold tally_of in E. rewrite E. simpl.
    split; [intros [E2|[-> ?]]; [by simplify_eq|lia]|]. intros [-> _]. left. f_equal. lia.
  - simpl. split; [intros [E2|?]; [by simplify_eq|done]|auto].
Qed.

(** ** The loop *)

Definition count_of (f : Message → string) (t : string) (msgs : list Message) : nat :=
  length (List.filter (λ m, bool_decide (f m = t)) msgs).

Definition opt_list {A} (o : option A) : list A := match o with Some a => [a] | None => [] end.

(** The bounds of the instants so far. *)
Definition spans (first last : option string) (ts : list string) : Prop :=
  match first, last with
  | Some f, Some l => f ∈ ts ∧ l ∈ ts ∧ ∀ t, t ∈ ts → str_le f t = true ∧ str_le t l = true
  | None, None => ts = []
  | _, _ => False
  end.

Section loop.
Context `{UnicodeCase}.

(** The accumulators tell of the messages behind them. *)
Record tells (t : tally) (msgs : list Message) : Prop := {
  te_agents : StronglySorted str_lt (ta_agents t);
  te_agent a : a ∈ ta_agents t ↔ a ∈ map m_from msgs;
  te_threads : StronglySorted str_lt (ta_threads t);
  te_thread a : a ∈ ta_threads t ↔ Some a ∈ map m_thread_id msgs;
  te_topics : StronglySorted str_lt (ta_topics t).*1;
  te_counts : Forall (λ kn : string * nat, 0 < kn.2) (ta_topics t);
  te_topic x : tally_of x (ta_topics t) = count_of m_topic x msgs;
  te_span : spans (ta_first t) (ta_last t) (map m_timestamp_utc msgs);
}.

Lemma spans_snoc f l ts t : spans f l ts → spans (earlier_of f t) (later_of l t) (ts ++ [t]).
Proof.
  destruct f as [f|], l as [l|]; simpl; try done.
  2: { intros ->. split_and!; [by left..|]. intros x ->%list_elem_of_singleton.
       by split; apply str_le_refl. }
  intros (Hf & Hl & Hb). destruct (str_le f t) eqn:E1, (str_le t l) eqn:E2; cbn.
  all: try apply str_le_total in E1; try apply str_le_total in E2.
  all: split_and!; try (apply elem_of_app; first [by left|right; by apply list_elem_of_singleton]).
  all: intros x [Hx|Ex%list_elem_of_singleton]%elem_of_app; [destruct (Hb x Hx) as [Hx1 Hx2]|subst x].
  all: split; try done; try apply str_le_refl.
  all: try (eapply str_le_trans; [exact E1|done]); try (eapply str_le_trans; [exact Hx2|done]).
Qed.

Lemma tells_snoc t msgs m : tells t msgs → tells (tally_message t m) (msgs ++ [m]).
Proof.
  intros [Ha Hae Ht Hte Hp Hpp Hpe Hs]. constructor;
    cbn [tally_message ta_agents ta_topics ta_threads ta_first ta_last];
    rewrite ?map_app; cbn [map].
  - by apply set_insert_sorted.
  - intros a. rewrite elem_of_set_insert, Hae, elem_of_app, list_elem_of_singleton. tauto.
  - destruct (m_thread_id m); [by apply set_insert_sorted|done].
  - intros a. rewrite elem_of_app, list_elem_of_singleton, <- Hte.
    destruct (m_thread_id m) as [x|]; [rewrite elem_of_set_insert|]; [split|]; naive_solver.
  - rewrite count_insert_keys. by apply set_insert_sorted.
  - by apply count_insert_pos.
  - intros x. rewrite tally_insert, Hpe. unfold count_of. rewrite List.filter_app, length_app. simpl.
    case_bool_decide; simpl; lia.
  - by apply spans_snoc.
Qed.

Lemma tells_all msgs : tells (foldl tally_message (mkTally [] [] ∅ [] None None) msgs) msgs.
Proof.
  induction msgs as [|m msgs IH] using rev_ind.
  - constructor; cbn; try apply SSorted_nil; try done; intros a; split; by intros ?%elem_of_nil.
  - rewrite foldl_app. by apply tells_snoc.
Qed.
End loop.

(** ** The summary *)

Lemma histogram_total a b : histogram_le a b = true ∨ histogram_le b a = true.
Proof.
  unfold histogram_le. destruct (Nat.ltb_spec b.2 a.2), (Nat.ltb_spec a.2 b.2); auto.
  assert (a.2 = b.2) as -> by lia. rewrite Nat.eqb_refl. simpl. apply String.leb_total.
Qed.

Lemma histogram_trans a b c : histogram_le a b = true → histogram_le b c = true →
  histogram_le a c = true.
Proof.
  unfold histogram_le. intros [?|[? ?]%andb_true_iff]%orb_true_iff [?|[? ?]%andb_true_iff]%orb_true_iff;
    apply orb_true_iff; rewrite ?Nat.ltb_lt, ?Nat.eqb_eq, ?andb_true_iff in *; try (left; lia).
  right. split; [apply Nat.eqb_eq; lia|by eapply str_le_trans].
Qed.

Lemma histogram_order a b : histogram_le a b = true → b.2 < a.2 ∨ (b.2 = a.2 ∧ str_le a.1 b.1 = true).
Proof.
  unfold histogram_le. intros [?%Nat.ltb_lt|[?%Nat.eqb_eq ?]%andb_true_iff]%orb_true_iff; auto.
Qed.

Lemma counts_total (f : Message → string) (ks : list string) : NoDup ks → ∀ msgs,
  (∀ m, m ∈ msgs → f m ∈ ks) → sum_list_with (λ k, count_of f k msgs) ks = length msgs.
Proof.
  intros Hks msgs. induction msgs as [|m msgs IH]; intros Hin; simpl.
  { clear. induction ks as [|k ks IH]; [done|]. simpl. by rewrite IH. }
  rewrite <- IH by (intros x Hx; apply Hin; by right).
  assert (f m ∈ ks) as Hm by (apply Hin; by left). clear Hin IH.
  induction Hks as [|k ks Hk Hks IH]; [by apply elem_of_nil in Hm|]. simpl. unfold count_of at 1 3. simpl.
  destruct (bool_decide_reflect (f m = k)) as [<-|Hne].
  - simpl. f_equal. f_equal. clear -Hk. induction ks as [|k ks IH]; [done|].
    apply not_elem_of_cons in Hk as [Hne Hk]. simpl. rewrite IH by done.
    unfold count_of at 1. simpl. by rewrite bool_decide_eq_false_2.
  - apply elem_of_cons in Hm as [?|Hm]; [done|]. rewrite IH by done. unfold count_of. lia.
Qed.

(** A summary's histogram gives each topic of the messages once, with the number of
    messages that have it, the most frequent first and equals by name, and the counts
    sum to the messages; the senders and the threads are listed once and in order; and
    the range is that of the instants. *)
Theorem aggregate_tells `{UnicodeCase} (msgs : list Message) :
  let s := aggregate_messages msgs in
  (∀ t n, (t, n) ∈ su_topic_histogram s ↔ n = count_of m_topic t msgs ∧ 0 < n) ∧
  NoDup (su_topic_histogram s).*1 ∧
  StronglySorted (λ a b, b.2 < a.2 ∨ (b.2 = a.2 ∧ str_le a.1 b.1 = true)) (su_topic_histogram s) ∧
  sum_list (su_topic_histogram s).*2 = su_message_count s ∧
  StronglySorted str_lt (su_active_agents s) ∧
  (∀ a, a ∈ su_active_agents s ↔ a ∈ map m_from msgs) ∧
  su_agent_count s = length (su_active_agents s) ∧
  StronglySorted str_lt (su_open_threads s) ∧
  (∀ a, a ∈ su_open_threads s ↔ Some a ∈ map m_thread_id msgs) ∧
  spans (fst <$> su_time_range s) (snd <$> su_time_range s) (map m_timestamp_utc msgs).
Proof.
  intros s. destruct (tells_all msgs) as [Ha Hae Ht Hte Hp Hpp Hpe Hs].
  unfold s, aggregate_messages. set (t := foldl _ _ msgs) in *.
  cbn [su_topic_histogram su_message_count su_active_agents su_agent_count su_open_threads su_time_range].
  pose proof (strict_nodup _ Hp) as Hnd. pose proof (sort_by_perm histogram_le (ta_topics t)) as Hperm.
  split_and!; try done.
  - intros x n. rewrite elem_of_sort_by, elem_of_counts by done. by rewrite Hpe.
  - by rewrite Hperm.
  - rewrite <- (map_id (sort_by _ _)).
    apply (StronglySorted_map (λ a b, histogram_le a b = true)); [intros a b _ _; apply histogram_order|].
    apply sort_by_sorted; [apply histogram_total|apply histogram_trans].
  - rewrite Hperm. rewrite <- (counts_total m_topic (ta_topics t).*1 Hnd msgs).
    + revert Hnd Hpp Hpe. clear. intros Hnd Hpp Hpe.
      assert (∀ kn, kn ∈ ta_topics t → kn.2 = count_of m_topic kn.1 msgs) as Hc.
      { intros [k n] Hin. apply elem_of_counts in Hin as [-> _]; [|done..]. apply Hpe. }
      clear -Hc. induction (ta_topics t) as [|kn l IH]; [done|]. csimpl.
      rewrite (Hc kn) by by left. f_equal. apply IH. intros x Hx. apply Hc. by right.
    + intros m Hm. destruct (decide (m_topic m ∈ (ta_topics t).*1)) as [|Hn]; [done|exfalso].
      apply tally_absent in Hn. rewrite Hpe in Hn. apply length_zero_iff_nil in Hn.
      assert (m ∈ List.filter (λ x, bool_decide (m_topic x = m_topic m)) msgs) as Hin
        by (apply elem_of_filter_b; by rewrite bool_decide_eq_true_2).
      rewrite Hn in Hin. by apply elem_of_nil in Hin.
  - by destruct (ta_first t), (ta_last t).
Qed.
