(* ===== verification/InboxDemo.v ===== *)
(** * InboxDemo: the inbox at work

    An inbox in memory, and one on a Redis connection: instances at which the theorems
    of the inbox are evaluated. And what they leave out: a commit whose reply is lost, and a
    summary that moves the cursor of the checks. *)

From Stdlib Require Import ZArith Lia Ascii.
From stdpp Require Import base option list strings gmap sorting.
From S2P Require Import Prelude Str Json Validation McpSchema ClaimTypes Outbox Redis.
From S2P Require Import Channels Messages StreamEntry ReplayScript OutboxHub SyncStore StreamFacts.
From S2P Require Import Bus Inbox InboxProps InboxRedis SummaryProps.
From S2P Require Import ClaimInstances HubInstances SyncInstances BusInstances.

#[local] Existing Instances bit_chrono bit_store bit_compression bus_entry bus_hub bit_bus cut_lanes
  ascii_case.

Definition demo_note (n : Z) (topic : string) : Notification :=
  mkNotification ("n" +:+ dec n) "bob" "" "direct_message" false
    (mkMessage ("m" +:+ dec n) "" PROTOCOL_VERSION "alice" "bob" topic "hello" None ["repo:hub"]
       "normal" false None (JObj []) None None None None None None)
    (Some (dec n +:+ "-0")).

(** A request for what concerns one repository. *)
Definition demo_check (limit : nat) : CheckInboxRequest :=
  mkCheck "bob" limit false (mkFilters (Some "hub") None [] None (Some "status")).

Definition demo_lane : string := lane_key (demo_check 1) (lane_tags (ci_filters (demo_check 1))).

Lemma demo_serves limit : serves "bob" demo_lane (demo_check limit).
Proof. done. Qed.

(** ** In memory *)

Record shelf := mkShelf { sh_notes : list Notification; sh_cursor : string }.

Definition shelf_top : Z := (2 ^ 128)%Z.

Definition shelf_store : InboxStore shelf := {|
  load_cursor _ w := (Ok (sh_cursor w), w);
  save_cursor _ v w := (Ok tt, mkShelf (sh_notes w) v);
  load_page _ c n w := (Ok (take n (notes_after c (sh_notes w))), w);
|}.

Definition shelf_view : InboxView shelf := {|
  inbox_ok w := StronglySorted note_before (sh_notes w) ∧
    Forall (λ n, is_Some (n_stream_id n) ∧ (0 ≤ note_rank n ≤ shelf_top)%Z) (sh_notes w) ∧
    (0 ≤ sid_rank (sh_cursor w) ≤ shelf_top)%Z;
  inbox_notes := sh_notes;
  inbox_top _ := shelf_top;
  lane := sh_cursor;
|}.

#[local] Existing Instances shelf_store shelf_view.

Lemma shelf_laws agent key : InboxLaws shelf agent key.
Proof.
  constructor.
  - by intros w (? & _).
  - intros w n (_ & Hk & _) Hn. rewrite Forall_forall in Hk. by apply Hk.
  - by intros w (_ & _ & ?).
  - intros w r w' Hw [= <- <-]. split; [by apply moves_refl|]. split; [done|]. by intros c [= <-].
  - intros c n w r w' Hw _ [= <- <-]. exists w. split_and!; [by apply moves_refl..|done|].
    by intros page [= <-].
  - intros v w r w' (Hs & Hk & _) Hv [= <- <-]. split; [|by left].
    split; [done|]. split; [done|]. exists 0, []. split; [by rewrite app_nil_r|done].
Qed.

Lemma scan_notes_reads matches limit page : Forall (λ n, is_Some (n_stream_id n)) page →
  ∀ s, is_ok (scan_notes matches limit page s) = true.
Proof.
  induction 1 as [|n page [sid E] _ IH]; intros s; simpl; [done|]. rewrite E.
  destruct (matches _); [|apply IH]. cbn zeta. by destruct (_ =? _)%nat.
Qed.

Lemma shelf_page_known w c k : inbox_ok w →
  Forall (λ n, is_Some (n_stream_id n)) (take k (notes_after c (sh_notes w))).
Proof.
  intros (_ & Hk & _). apply Forall_take, Forall_filter_b. eapply Forall_impl; [exact Hk|]. by intros n [? _].
Qed.

Lemma shelf_scan_reads agent matches limit fuel : ∀ s w, inbox_ok w →
  is_ok (scan_pages fuel agent matches limit s w).1 = true ∧
  (scan_pages fuel agent matches limit s w).2 = w.
Proof.
  induction fuel as [|fuel IH]; intros s w Hw; [done|]. cbn [scan_pages].
  destruct (_ && _); [|done]. cbn -[INBOX_PAGE_SIZE INBOX_SCAN_LIMIT Nat.min].
  match goal with |- context [scan_notes _ _ ?page s] => set (p := page) end.
  assert (Forall (λ n, is_Some (n_stream_id n)) p) as Hp by by apply shelf_page_known.
  pose proof (scan_notes_reads matches limit p Hp s) as Hs.
  destruct (scan_notes _ _ _ _) as [s'|e]; [|done].
  match goal with |- context [if ?b then _ else _] => destruct b end; [done|by apply IH].
Qed.

Lemma shelf_quiet limit w : inbox_ok w → undisturbed (demo_check limit) w.
Proof.
  intros Hw. unfold undisturbed, check_inbox_with_store. cbn [ci_reset_cursor demo_check load_cursor shelf_store].
  match goal with |- context [scan_pages ?f ?a ?m ?l ?s w] =>
    pose proof (shelf_scan_reads a m l f s w Hw) as [Hok E] end.
  destruct (scan_pages _ _ _ _ _ w) as [[s|e] w']; [|done]. simpl in E. subst w'.
  unfold commit_cursor. destruct (bool_decide _); (split; [done|by exists 0]).
Qed.

Definition demo_shelf : shelf :=
  mkShelf [demo_note 1 "status"; demo_note 2 "noise"; demo_note 3 "status"; demo_note 4 "status"] "0-0".

Lemma demo_shelf_ok : inbox_ok demo_shelf.
Proof.
  split; [repeat constructor; by vm_compute|]. split; [|by split; vm_compute].
  apply (bool_decide_unpack _). by vm_compute.
Qed.

Lemma inbox_drains_witness :
  Forall (λ m, (note_rank m ≤ sid_rank (sh_cursor (check_times 5 (demo_check 1) demo_shelf)))%Z)
    (sh_notes (check_times 5 (demo_check 1) demo_shelf)).
Proof.
  apply Forall_forall. apply (@inbox_drains shelf _ shelf_store shelf_view "bob" demo_lane (shelf_laws _ _) (demo_check 1)
           demo_shelf 5).
  - apply demo_serves.
  - done.
  - exact demo_shelf_ok.
  - intros w. apply shelf_quiet.
  - vm_compute. lia.
Defined.

(** ** On a connection *)

(** Time stands still; the server drops the stream when it has expired. *)
Definition still : bus_env := λ _, quiet_turn (expire_due (notification_stream_key "bob") 3600000) 0.

Lemma still_lane : lane_env still (λ _, shelf_top) (notification_stream_key "bob") demo_lane.
Proof.
  constructor.
  - done.
  - intros i d Hd. destruct (expire_due_stream (notification_stream_key "bob") 3600000 shelf_top d Hd).
    split_and!; [done|done|apply expire_due_unexpired].
  - intros i d. unfold still, quiet_turn, expire_due. cbn [tn_others].
    destruct (_ ≫= _); [|done]. case_match; [|done]. simpl. by rewrite lookup_delete_ne.
  - by intros i j.
  - done.
Qed.

#[local] Instance still_store : InboxStore conn := conn_store still.
#[local] Instance still_view : InboxView conn :=
  conn_view still (λ _, shelf_top) "bob" demo_lane.

Definition note_entry (n : Notification) : string * list string :=
  (from_option (λ s, s) "" (n_stream_id n), flat (note_fields (n_id n) (n_message n))).

Definition demo_inbox : conn :=
  stream_conn (notification_stream_key "bob") (map note_entry (sh_notes demo_shelf)).

Lemma demo_inbox_ok : inbox_ok demo_inbox.
Proof.
  split; [|by split; vm_compute].
  apply stream_conn_ok; [repeat constructor; by vm_compute|by vm_compute].
Qed.

(** Two checks of two messages each. *)
Definition first_check : Result CheckInboxResult * conn :=
  check_inbox_with_store (demo_check 2) demo_inbox.
Definition second_check : Result CheckInboxResult * conn :=
  check_inbox_with_store (demo_check 2) first_check.2.

Definition messages_of (r : Result CheckInboxResult) : list Message :=
  match r with Ok i => ir_messages i | Err _ => [] end.

Lemma two_checks r w : ci_reset_cursor r = false →
  let one := check_inbox_with_store r w in
  let two := check_inbox_with_store r one.2 in
  is_ok one.1 = true → is_ok two.1 = true →
  history r w (messages_of one.1 ++ messages_of two.1 ++ []) two.2.
Proof.
  intros Er one two H1 H2. assert (r = mkCheck (ci_agent r) (ci_limit r) false (ci_filters r)) as E
    by (destruct r; simpl in *; by subst).
  unfold two in *. destruct one as [[i1|] c1] eqn:E1; [|done]. simpl in *.
  destruct (check_inbox_with_store r c1) as [[i2|] c2] eqn:E2; [|done]. simpl.
  eapply (history_check _ (ci_limit r)); [rewrite <- E; exact E1|].
  eapply (history_check _ (ci_limit r)); [rewrite <- E; exact E2|apply history_nil].
Qed.

Lemma inbox_exactly_once_witness :
  map m_id (messages_of first_check.1 ++ messages_of second_check.1) = ["m1"; "m3"; "m4"] ∧
  ∃ ns, messages_of first_check.1 ++ messages_of second_check.1 ++ [] =
      map n_message (List.filter (λ n, selects (demo_check 2) (n_message n)) ns) ∧
    StronglySorted note_before ns.
Proof.
  split; [by vm_compute|].
  destruct (@inbox_exactly_once conn _ still_store still_view "bob" demo_lane
    (conn_inbox_laws still (λ _, shelf_top) "bob" demo_lane still_lane) (demo_check 2) demo_inbox
    (messages_of first_check.1 ++ messages_of second_check.1 ++ []) second_check.2)
    as (ns & E & Hs & _); [apply demo_serves|exact demo_inbox_ok| |by exists ns].
  exact (two_checks (demo_check 2) demo_inbox eq_refl ltac:(by vm_compute) ltac:(by vm_compute)).
Defined.

(** ** Two requests of one lane *)

Definition tagged_check (tags : list string) : CheckInboxRequest :=
  mkCheck "bob" 1 false (mkFilters None None tags None (Some "status")).

Lemma lane_shared_witness :
  lane_key (tagged_check ["b"; ""; "a"; "b"]) (lane_tags (ci_filters (tagged_check ["b"; ""; "a"; "b"]))) =
  lane_key (tagged_check ["a"; "b"]) (lane_tags (ci_filters (tagged_check ["a"; "b"]))).
Proof.
  apply (lane_shared (tagged_check ["b"; ""; "a"; "b"]) (tagged_check ["a"; "b"])).
  - intros _. by vm_compute.
  - split; [done|]. split; [done|]. split; [done|].
    intros t. rewrite <- !elem_of_lane_tags. by replace (lane_tags (ci_filters (tagged_check ["b"; ""; "a"; "b"])))
      with (lane_tags (ci_filters (tagged_check ["a"; "b"]))) by by vm_compute.
Defined.

(** ** What the laws do not promise *)

(** The reply to the commit is lost: the check fails, its messages are consumed. *)
Definition lossy : bus_env := λ i,
  let t := still i in
  if (i =? 2)%nat then mkTurn (tn_others t) LostAfter (tn_lua t) (tn_clock t) (tn_id t) (tn_scan t) else t.

Lemma lost_commit_consumes :
  let failed := check_inbox lossy (demo_check 2) demo_inbox in
  is_ok failed.1 = false ∧
  map m_id (messages_of (check_inbox lossy (demo_check 2) failed.2).1) = ["m4"].
Proof. by vm_compute. Qed.

(** A summary without a cursor reads and moves the cursor of the unfiltered checks. *)
Definition plain_check : CheckInboxRequest := mkCheck "bob" 9 false (mkFilters None None [] None None).

Lemma summary_consumes :
  let summed := orchestrator_summary "bob" None still demo_inbox in
  is_ok summed.1 = true ∧
  length (messages_of (check_inbox still plain_check demo_inbox).1) = 4 ∧
  messages_of (check_inbox still plain_check summed.2).1 = [].
Proof. by vm_compute. Qed.
