(* ===== verification/ListingProps.v ===== *)
(** * ListingProps: listing the newest messages

    The paged listing of [redis_bus.rs] reads backwards through the stream while others
    append and trim. It returns what one look at the whole stream would: the last
    matching messages, oldest first. *)

From Stdlib Require Import ZArith Lia Ascii.
From stdpp Require Import base option list strings gmap sorting.
From S2P Require Import Prelude Str Json Validation McpSchema ClaimTypes Outbox Redis.
From S2P Require Import Channels Messages StreamEntry ReplayScript OutboxHub SyncStore StreamFacts.
From S2P Require Import Bus ClaimInstances HubInstances SyncInstances BusInstances.

(** ** Lists *)

Lemma filter_filter_b {A} (f g : A → bool) l :
  List.filter f (List.filter g l) = List.filter g (List.filter f l).
Proof.
  induction l as [|x l IH]; [done|]. simpl.
  destruct (f x) eqn:Ef, (g x) eqn:Eg; simpl; rewrite ?Ef, ?Eg, ?IH; done.
Qed.

Lemma filter_none {A} (f : A → bool) l : (∀ x, x ∈ l → f x = false) → List.filter f l = [].
Proof.
  induction l as [|x l IH]; intros Hf; [done|]. simpl. rewrite Hf by left.
  apply IH. intros y Hy. apply Hf. by right.
Qed.

Lemma filter_rev_b {A} (f : A → bool) l : List.filter f (List.rev l) = List.rev (List.filter f l).
Proof.
  induction l as [|x l IH]; [done|]. simpl. rewrite List.filter_app, IH. simpl.
  destruct (f x); simpl; [done|by rewrite app_nil_r].
Qed.

Lemma elem_of_rev {A} (l : list A) x : x ∈ List.rev l ↔ x ∈ l.
Proof. by rewrite !list_elem_of_In, <- in_rev. Qed.

Section listing.
Context `{Chrono} `{StoreText} `{BodyCodec} `{!EntryText} `{HubText} `{!BusText}.
Context (s : BusSettings) (q : Listing) (cutoff : Z).

Abbreviation key := (bs_stream_key s).
Abbreviation since := (sid_rank (stream_start cutoff)).

Definition wanted (e : string * list string) : bool := entry_wanted q cutoff (parsed_entry e).
Definition message_of (e : string * list string) : Message := decode_entry (parsed_entry e).

Definition in_window (e : string * list string) : bool := (since <=? erank e)%Z.
Definition upto (h : Z) (e : string * list string) : bool := (erank e <? h)%Z.

(** The matching messages of some entries, newest first. *)
Definition newest_first (l : list (string * list string)) : list Message :=
  map message_of (List.filter wanted (List.rev (List.filter in_window l))).

(** What a listing of these entries gives: the last matching messages, oldest first. *)
Definition recent_matching (l : list (string * list string)) : list Message :=
  let ms := map message_of (List.filter wanted (List.filter in_window l)) in
  drop (length ms - li_limit q) ms.

Lemma recent_matching_take l : List.rev (take (li_limit q) (newest_first l)) = recent_matching l.
Proof.
  unfold newest_first, recent_matching. cbn zeta.
  rewrite filter_rev_b, map_rev, firstn_rev, rev_involutive. done.
Qed.

Lemma newest_first_app l l' : newest_first (l ++ l') = newest_first l' ++ newest_first l.
Proof.
  unfold newest_first. by rewrite List.filter_app, rev_app_distr, List.filter_app, map_app.
Qed.

(** ** One page *)

Lemma scan_page_spec page : ∀ found, length found < li_limit q →
  let all := found ++ map decode_entry (List.filter (entry_wanted q cutoff) page) in
  scan_page q cutoff found page = (take (li_limit q) all, (li_limit q <=? length all)%nat).
Proof.
  induction page as [|e page IH]; intros found Hf; simpl.
  { rewrite app_nil_r, take_ge by lia. by rewrite (proj2 (Nat.leb_gt _ _)). }
  destruct (entry_wanted q cutoff e) eqn:Ee; [|by apply IH]. simpl.
  destruct (Nat.leb_spec (li_limit q) (length (found ++ [decode_entry e]))) as [Hle|Hgt].
  - assert (li_limit q = length (found ++ [decode_entry e])) as ->
      by (rewrite length_app in *; simpl in *; lia).
    generalize (map decode_entry (List.filter (entry_wanted q cutoff) page)). intros rest.
    change (decode_entry e :: rest) with ([decode_entry e] ++ rest). rewrite app_assoc, take_app_length.
    f_equal. symmetry. apply Nat.leb_le. rewrite (length_app (found ++ _)). lia.
  - rewrite IH by done. by rewrite <- app_assoc.
Qed.

Lemma newest_first_page l : Forall (λ e, in_window e = true) l →
  map decode_entry (List.filter (entry_wanted q cutoff) (map parsed_entry (List.rev l))) = newest_first l.
Proof.
  intros Hl. unfold newest_first. rewrite (filter_all in_window) by by apply Forall_forall.
  induction (List.rev l) as [|e l' IH]; [done|]. simpl. unfold wanted at 1.
  destruct (entry_wanted q cutoff (parsed_entry e)); simpl; by rewrite IH.
Qed.

(** ** The command *)

Lemma xrevrange_below hi h n l : good_stream l → (0 ≤ since)%Z → (0 ≤ h)%Z →
  (hi = "+" ∧ (∀ e, e ∈ l → (erank e < h)%Z)) ∨ (∃ sid, hi = "(" +:+ sid ∧ sid_rank sid = h) →
  xrevrange_entries hi (stream_start cutoff) n l =
  Ok (take n (List.rev (List.filter in_window (List.filter (upto h) l)))).
Proof.
  intros Hl Hs Hh Hhi. unfold xrevrange_entries.
  assert (stream_start cutoff ≠ "-") as Hne by (intros E; rewrite E in Hs; by apply Hs).
  rewrite (bool_decide_eq_false_2 (_ = "-")) by done. rewrite (sid_rank_Some _ Hs).
  assert (∀ f, (∀ e, e ∈ l → f e = in_window e && upto h e) →
    take n (List.filter f (List.rev l)) =
    take n (List.rev (List.filter in_window (List.filter (upto h) l)))) as Hfilter.
  { intros f Hf. f_equal. rewrite filter_rev_b. f_equal. rewrite (filter_ext_elem _ _ l Hf).
    clear. induction l as [|e l IH]; [done|]. simpl.
    destruct (in_window e) eqn:E1, (upto h e) eqn:E2; simpl; rewrite ?E1, IH; done. }
  destruct Hhi as [[-> Hall]|(sid & -> & Hsid)].
  - rewrite bool_decide_eq_true_2 by done. f_equal. apply Hfilter. intros e He.
    rewrite (good_rank l e) by done. unfold in_window, upto.
    by rewrite (proj2 (Z.ltb_lt _ _) (Hall e He)).
  - rewrite bool_decide_eq_false_2 by done. rewrite strip_prefix_app. cbn [mbind option_bind].
    rewrite <- Hsid in Hh. rewrite (sid_rank_Some _ Hh). cbn [fmap option_fmap option_map].
    f_equal. apply Hfilter. intros e He. rewrite (good_rank l e) by done. by rewrite Hsid.
Qed.

Lemma redis_XREVRANGE_stream t hi lo n d e found :
  stream_ok key t d → unexpired key (lua_now e) d →
  xrevrange_entries hi lo n (stream_of d key) = Ok found →
  redis_XREVRANGE key hi lo n (mkLuaState d e) = (Ok (map reply_entry found), mkLuaState d e).
Proof.
  intros Hd Hu Ef. unfold redis_XREVRANGE, lread. simpl. f_equal.
  rewrite (stream_live key t) by done.
  destruct (decide (is_Some (hd_keys d !! key))) as [Hs|Hs].
  - rewrite option_guard_True by done. simpl. by rewrite Ef.
  - rewrite option_guard_False by done. simpl. rewrite (not_stream_nil key t) in Ef by done.
    unfold xrevrange_entries in Ef. repeat case_match; simplify_eq/=; by rewrite take_nil.
Qed.

(** ** Where a page ends *)

Definition ascending : list (string * list string) → Prop :=
  StronglySorted (λ a b, (erank a < erank b)%Z).

Lemma ascending_app l l' : ascending (l ++ l') →
  ascending l ∧ ascending l' ∧ ∀ a b, a ∈ l → b ∈ l' → (erank a < erank b)%Z.
Proof.
  unfold ascending. intros Hs. induction l as [|x l IH].
  { split_and!; [constructor|done|]. by intros a b ?%elem_of_nil. }
  simpl in Hs. apply StronglySorted_inv in Hs as [Hs Hx]. destruct (IH Hs) as (Hl1 & Hl2 & Hl3).
  apply Forall_app in Hx as [Hx Hx']. rewrite Forall_forall in Hx'.
  split_and!; [by constructor|done|]. intros a b [-> | Ha]%elem_of_cons Hb; auto.
Qed.

Lemma not_upto h e : negb (upto h e) = true ↔ (h ≤ erank e)%Z.
Proof. unfold upto. by rewrite negb_true_iff, Z.ltb_ge. Qed.

Lemma ascending_partition h l : ascending l →
  l = List.filter (upto h) l ++ List.filter (λ e, negb (upto h e)) l.
Proof.
  unfold ascending. induction 1 as [|x l Hl IH Hx]; [done|]. simpl. rewrite Forall_forall in Hx.
  destruct (upto h x) eqn:Ex; simpl; [by f_equal|].
  rewrite (filter_none (upto h)); simpl.
  - f_equal. rewrite filter_all; [done|]. intros y Hy. apply not_upto.
    apply negb_true_iff in Ex. rewrite not_upto in Ex. specialize (Hx y Hy). lia.
  - intros y Hy. apply negb_true_iff, not_upto. apply negb_true_iff in Ex.
    rewrite not_upto in Ex. specialize (Hx y Hy). lia.
Qed.

(** The oldest entry [o] of a full page splits what is left of the snapshot. *)
Lemma full_page l n p page0 o : ascending l →
  take p (List.rev (List.filter in_window (drop n l))) = page0 ++ [o] →
  let low := List.filter (upto (erank o)) l in
  let high := List.filter (λ e, negb (upto (erank o) e)) l in
  l = low ++ high ∧ List.rev (List.filter in_window high) = page0 ++ [o] ∧
  length low < length l ∧ o ∈ drop n l.
Proof.
  intros Hl Hp low high. set (f := List.filter in_window (drop n l)) in *.
  pose proof (take_drop p (List.rev f)) as Ef. rewrite Hp in Ef.
  apply (f_equal (@List.rev _)) in Ef. rewrite rev_involutive, !rev_app_distr in Ef.
  simpl in Ef. set (r := List.rev (drop p (List.rev f))) in *.
  assert (o ∈ f) as Hof by (rewrite <- Ef; apply elem_of_app; right; left).
  assert (o ∈ drop n l) as Hod by by apply elem_of_filter_b in Hof as [? _].
  pose proof (ascending_partition (erank o) l Hl) as Epart. fold low high in Epart.
  assert (ascending f) as Hf.
  { unfold f, ascending. apply StronglySorted_filter_b.
    eapply StronglySorted_sublist; [apply sublist_drop|done]. }
  split_and!; [done| | |done].
  - transitivity (List.rev (o :: List.rev page0)); [|simpl; by rewrite rev_involutive].
    f_equal. unfold high. rewrite filter_filter_b.
    rewrite <- (take_drop n l) at 1. rewrite !List.filter_app. fold f.
    rewrite (filter_none _ (List.filter in_window (take n l))).
    2: { intros x [Hx _]%elem_of_filter_b. apply negb_false_iff, Z.ltb_lt.
         by apply (sorted_take_drop _ n l x o Hl). }
    simpl. rewrite <- Ef in *. rewrite List.filter_app.
    apply ascending_app in Hf as (_ & Hs & Hlt). unfold ascending in Hs.
    rewrite (filter_none _ r).
    2: { intros x Hx. apply negb_false_iff, Z.ltb_lt. apply Hlt; [done|by left]. }
    apply filter_all. intros x Hx. apply not_upto. apply elem_of_cons in Hx as [-> | Hx]; [lia|].
    apply StronglySorted_inv in Hs as [_ Hs]. rewrite Forall_forall in Hs. specialize (Hs x Hx). lia.
  - rewrite (f_equal length Epart), length_app.
    assert (o ∈ high) as Ho.
    { apply elem_of_filter_b. split; [by eapply elem_of_drop_in|]. apply not_upto. lia. }
    destruct high; [by apply elem_of_nil in Ho|]. simpl. lia.
Qed.

(** The matches of a page continue those found so far. *)
Lemma newest_first_window l : newest_first l = newest_first (List.filter in_window l).
Proof.
  unfold newest_first. do 3 f_equal. symmetry. apply filter_all.
  by intros e [_ ?]%elem_of_filter_b.
Qed.

Lemma page_found l p u : let pg := take p (List.rev (List.filter in_window l)) in
  newest_first u ++ map decode_entry (List.filter (entry_wanted q cutoff) (map parsed_entry pg)) =
  newest_first (List.rev pg ++ u).
Proof.
  intros pg. rewrite newest_first_app. f_equal.
  rewrite <- (newest_first_page (List.rev pg)); [by rewrite rev_involutive|].
  apply Forall_forall. intros e He. rewrite elem_of_rev in He. apply elem_of_take_in in He.
  rewrite elem_of_rev in He. by apply elem_of_filter_b in He as [_ ?].
Qed.

Lemma page_prefix l p : ∃ more, newest_first l =
  newest_first (List.rev (take p (List.rev (List.filter in_window l)))) ++ more.
Proof.
  rewrite (newest_first_window l). set (f := List.filter in_window l).
  exists (newest_first (List.rev (drop p (List.rev f)))).
  rewrite <- newest_first_app, <- rev_app_distr, take_drop. by rewrite rev_involutive.
Qed.

Lemma short_page l p : length (take p (List.rev (List.filter in_window l))) < p →
  newest_first l = newest_first (List.rev (take p (List.rev (List.filter in_window l)))).
Proof.
  rewrite (newest_first_window l). intros Hp. rewrite take_ge; [by rewrite rev_involutive|].
  rewrite length_take in Hp. lia.
Qed.

(** What the read finds below [h], given what has become of the snapshot. *)
Lemma below_snapshot h low high n new :
  (∀ e, e ∈ low → (erank e < h)%Z) → (∀ e, e ∈ high → (h ≤ erank e)%Z) →
  Forall (λ e, (h ≤ erank e)%Z) new →
  List.filter (upto h) (drop n (low ++ high) ++ new) = drop n low.
Proof.
  intros Hlow Hhigh Hnew. rewrite drop_app, <- app_assoc, !List.filter_app.
  rewrite (filter_all _ (drop n low)), (filter_none _ (drop _ high)), (filter_none _ new).
  - by rewrite !app_nil_r.
  - rewrite Forall_forall in Hnew. intros e He. apply Z.ltb_ge. by apply Hnew.
  - intros e He%elem_of_drop_in. apply Z.ltb_ge. by apply Hhigh.
  - intros e He%elem_of_drop_in. apply Z.ltb_lt. by apply Hlow.
Qed.

(** The trimmed part of the snapshot is gone. *)
Lemma trimmed_gone h low high n new e : ascending (low ++ high) →
  (∀ e, e ∈ low → (erank e < h)%Z) → Forall (λ e, (h ≤ erank e)%Z) new →
  e ∈ take n low → e ∉ drop n (low ++ high) ++ new.
Proof.
  intros Hs Hlow Hnew He [Hd|Hn]%elem_of_app.
  - assert (e ∈ take n (low ++ high)) as Ht by (rewrite take_app; apply elem_of_app; by left).
    pose proof (sorted_take_drop _ n _ _ _ Hs Ht Hd) as Hlt. simpl in Hlt. lia.
  - rewrite Forall_forall in Hnew. specialize (Hnew e Hn).
    specialize (Hlow e (elem_of_take_in _ _ _ He)). lia.
Qed.
(** ** The loop *)

(** Others append to the stream and trim it, and every command is answered. *)
Record stream_env (env : bus_env) (tops : nat → Z) : Prop := {
  se_tops i : (tops i ≤ tops (S i))%Z;
  se_stream i d : stream_ok key (tops i) d →
    stream_ok key (tops (S i)) (tn_others (env i) d) ∧
    grows key (tops i) d (tn_others (env i) d) ∧
    unexpired key (lua_now (tn_lua (env i))) (tn_others (env i) d);
  se_delivered i : tn_how (env i) = Delivered;
}.

(** The answer is that of one look at what was kept of the snapshot. *)
Definition listed (snapshot : list (string * list string)) (r : Result (option (list Message)) * conn)
    : Prop :=
  ∃ old kept, snapshot = old ++ kept ∧
    r.1 = Ok (Some (take (li_limit q) (newest_first kept))) ∧
    ∀ e, e ∈ old → e ∉ stream_of (cn_db r.2) key.

Lemma page_size_pos : (200 ≤ listing_page_size q)%Z.
Proof. unfold listing_page_size, XREVRANGE_MIN_FETCH. lia. Qed.

Lemma last_id pg : List.last (map (λ e : string * entry_fields, Some e.1) (map parsed_entry pg)) None =
  fst <$> last pg.
Proof.
  destruct pg as [|o pg _] using rev_ind; [done|]. rewrite !map_app, last_snoc. simpl.
  by rewrite last_last.
Qed.

Lemma read_page env c hi h low high n new t : let d := tn_others (env (cn_step c)) (cn_db c) in
  tn_how (env (cn_step c)) = Delivered → stream_ok key t d →
  unexpired key (lua_now (tn_lua (env (cn_step c)))) d → (0 ≤ since)%Z → (0 ≤ h)%Z →
  stream_of d key = drop n (low ++ high) ++ new →
  (∀ e, e ∈ low → (erank e < h)%Z) → (∀ e, e ∈ high → (h ≤ erank e)%Z) →
  Forall (λ e, (h ≤ erank e)%Z) new →
  (hi = "+" ∧ (∀ e, e ∈ stream_of d key → (erank e < h)%Z)) ∨ (∃ sid, hi = "(" +:+ sid ∧ sid_rank sid = h) →
  command "XREVRANGE failed" (redis_XREVRANGE key hi (stream_start cutoff) (Z.to_nat (listing_page_size q)))
    env c =
  (Ok (map reply_entry (take (Z.to_nat (listing_page_size q))
         (List.rev (List.filter in_window (drop n low))))), advance c d).
Proof.
  intros d How Hd Hu Hs Hh Est Hlow Hhigh Hnew Hhi.
  pose proof (xrevrange_below hi h (Z.to_nat (listing_page_size q)) _ (proj1 (proj2 Hd)) Hs Hh Hhi) as Ex.
  rewrite Est, (below_snapshot h), <- Est in Ex by done.
  pose proof (redis_XREVRANGE_stream t _ _ _ d (tn_lua (env (cn_step c))) _ Hd Hu Ex) as Er.
  unfold command, raw_command. fold d. rewrite How. cbn [attempt]. by rewrite Er.
Qed.

(** A short page ends the listing: what was trimmed is older than all that was read. *)
Lemma listed_short c low high n : (∀ e, e ∈ take n low → e ∉ stream_of (cn_db c) key) →
  let p := Z.to_nat (listing_page_size q) in
  let pg := take p (List.rev (List.filter in_window (drop n low))) in
  length pg < p → length (newest_first (List.rev pg ++ high)) < li_limit q →
  listed (low ++ high) (Ok (Some (newest_first (List.rev pg ++ high))), c).
Proof.
  intros Hgone p pg Hshort Hlen. exists (take n low), (drop n low ++ high).
  rewrite app_assoc, take_drop. split_and!; [done| |done]. cbn. do 2 f_equal.
  rewrite (newest_first_app (drop n low)), (short_page (drop n low) p) by done. fold pg.
  rewrite <- newest_first_app. symmetry. apply take_ge. lia.
Qed.

(** A page that meets the limit ends it too. *)
Lemma listed_full c low high n p : let pg := take p (List.rev (List.filter in_window (drop n low))) in
  li_limit q ≤ length (newest_first (List.rev pg ++ high)) →
  listed (low ++ high) (Ok (Some (take (li_limit q) (newest_first (List.rev pg ++ high)))), c).
Proof.
  intros pg Hfull. exists [], (low ++ high). split_and!; [done| |by intros e ?%elem_of_nil].
  cbn. do 2 f_equal.
  rewrite <- (take_drop n low), <- app_assoc, (newest_first_app (take n low)),
    (newest_first_app (drop n low)), (newest_first_app (List.rev pg)).
  destruct (page_prefix (drop n low) p) as [more ->]. fold pg.
  rewrite (newest_first_app (List.rev pg)) in Hfull. rewrite (app_assoc _ _ more), <- (app_assoc _ more).
  by rewrite (take_app_le (_ ++ _)) by lia.
Qed.

(** What the next read meets once [h] has come down to the rank of [o]. *)
Lemma next_stream env tops c snapshot low high n new o h : stream_env env tops →
  let d := tn_others (env (cn_step c)) (cn_db c) in
  let d' := tn_others (env (S (cn_step c))) d in
  stream_ok key (tops (S (cn_step c))) d → snapshot = low ++ high →
  stream_of d key = drop n snapshot ++ new → Forall (λ e, (h ≤ erank e)%Z) new →
  o ∈ drop n low → (erank o < h)%Z →
  ∃ m new', stream_of d' key = drop m snapshot ++ new' ∧ Forall (λ e, (erank o ≤ erank e)%Z) new'.
Proof.
  intros Henv d d' Hd -> Est Hnew Ho Hoh.
  destruct (se_stream _ _ Henv (S (cn_step c)) d Hd) as (_ & (n1 & new1 & E1 & Hn1) & _).
  assert (o ∈ stream_of d key) as Hos.
  { rewrite Est, drop_app, <- app_assoc. apply elem_of_app. by left. }
  assert (erank o ≤ tops (S (cn_step c)))%Z as Hot.
  { destruct Hd as (_ & _ & Hb). rewrite Forall_forall in Hb. by apply Hb. }
  exists (n + n1), (drop (n1 - length (drop n (low ++ high))) new ++ new1). split.
  - unfold d'. rewrite E1, Est, drop_app, drop_drop. by rewrite <- app_assoc.
  - apply Forall_app. split.
    + apply Forall_drop. eapply Forall_impl; [exact Hnew|]. simpl. intros e He. lia.
    + eapply Forall_impl; [exact Hn1|]. simpl. intros e He. lia.
Qed.

Lemma list_pages_listed env tops snapshot : stream_env env tops → (0 ≤ since)%Z →
  ascending snapshot → (∀ e, e ∈ snapshot → (0 ≤ erank e)%Z ∧ utf8 e.1 = true) →
  ∀ fuel c hi h low high n new,
  let d := tn_others (env (cn_step c)) (cn_db c) in
  stream_ok key (tops (cn_step c)) (cn_db c) → snapshot = low ++ high →
  (∀ e, e ∈ low → (erank e < h)%Z) → (∀ e, e ∈ high → (h ≤ erank e)%Z) → (0 ≤ h)%Z →
  stream_of d key = drop n snapshot ++ new → Forall (λ e, (h ≤ erank e)%Z) new →
  (hi = "+" ∧ (∀ e, e ∈ stream_of d key → (erank e < h)%Z)) ∨ (∃ sid, hi = "(" +:+ sid ∧ sid_rank sid = h) →
  length (newest_first high) < li_limit q → length low < fuel →
  listed snapshot (list_pages fuel s q cutoff (stream_start cutoff) hi (newest_first high) env c).
Proof.
  intros Henv Hs Hasc Hgood. induction fuel as [|fuel IH];
    intros c hi h low high n new d Hok Esn Hlow Hhigh Hh Est Hnew Hhi Hfound Hfuel; [lia|].
  destruct (se_stream _ _ Henv _ _ Hok) as (Hd & _ & Hu). fold d in Hd, Hu.
  pose proof Est as Est'. rewrite Esn in Est, Hasc. cbn [list_pages]. unfold bbind at 1.
  rewrite (read_page env c hi h low high n new (tops (S (cn_step c)))); try done; [|by apply (se_delivered _ _ Henv)].
  fold d. apply ascending_app in Hasc as Hparts. destruct Hparts as (Hasl & _ & _).
  set (p := Z.to_nat (listing_page_size q)). set (pg := take p _). pose proof page_size_pos as Hps.
  rewrite parse_reply, last_id, length_map.
  2: { apply Forall_forall. intros e He. apply elem_of_take_in in He. rewrite elem_of_rev in He.
       apply elem_of_filter_b in He as [He _]. apply elem_of_drop_in in He.
       apply Hgood. rewrite Esn. apply elem_of_app. by left. }
  assert (∀ e, e ∈ take n low → e ∉ stream_of d key) as Hgone.
  { intros e He. rewrite Est. by apply (trimmed_gone h). }
  destruct (last pg) as [o|] eqn:Elast; cbn [fmap option_fmap option_map].
  2: { apply last_None in Elast. rewrite Esn.
       pose proof (listed_short (advance c d) low high n Hgone) as Hl.
       cbn zeta in Hl. fold p in Hl. fold pg in Hl. rewrite Elast in Hl. apply Hl; [simpl; lia|done]. }
  apply last_Some in Elast as [page0 Epg].
  pose proof (scan_page_spec (map parsed_entry pg) (newest_first high) Hfound) as Escan.
  cbn zeta in Escan. unfold pg in Escan at 2 3. rewrite (page_found (drop n low) p high) in Escan.
  fold pg in Escan. rewrite Escan. clear Escan.
  destruct (Nat.leb_spec (li_limit q) (length (newest_first (List.rev pg ++ high)))) as [Hfull|Hfull].
  { rewrite Esn. by apply (listed_full (advance c d)). }
  rewrite (take_ge _ (li_limit q)) by lia.
  destruct (Z.ltb_spec (Z.of_nat (length pg)) (listing_page_size q)) as [Hshort|Hlong].
  { rewrite Esn. apply (listed_short (advance c d)); [done| |done]. fold p pg. lia. }
  destruct (full_page low n p page0 o Hasl Epg) as (Elow & Ehigh & Hlen & Hod).
  set (low' := List.filter (upto (erank o)) low) in *.
  set (mid := List.filter (λ e, negb (upto (erank o) e)) low) in *.
  assert (newest_first (List.rev pg ++ high) = newest_first (mid ++ high)) as Emid.
  { rewrite !newest_first_app. f_equal.
    rewrite (newest_first_window mid), <- (rev_involutive (List.filter in_window mid)).
    by rewrite Ehigh, <- Epg. }
  rewrite Emid in *. assert (o ∈ low) as Hol by by eapply elem_of_drop_in.
  destruct (next_stream env tops c snapshot low high n new o h Henv Hd Esn Est' Hnew Hod (Hlow o Hol))
    as (m & new' & E1 & Hn1).
  apply (IH (advance c d) ("(" +:+ o.1) (erank o) low' (mid ++ high) m new'); try done.
  - by rewrite Esn, app_assoc, <- Elow.
  - intros e [_ He]%elem_of_filter_b. by apply Z.ltb_lt.
  - intros e [He|He]%elem_of_app; [by apply elem_of_filter_b in He as [_ ?%not_upto]|].
    specialize (Hhigh e He). specialize (Hlow o Hol). lia.
  - apply Hgood. rewrite Esn. apply elem_of_app. by left.
  - right. by exists o.1.
  - lia.
Qed.
End listing.

(** ** The window *)

Lemma dec_go_digits fuel : ∀ n rest, str_all is_digit rest = true →
  str_all is_digit (dec_go fuel n rest) = true.
Proof.
  induction fuel as [|fuel IH]; intros n rest Hr; simpl; [done|].
  assert (str_all is_digit (String (digit_char (n mod 10)) rest) = true) as Hs.
  { simpl. pose proof (Z.mod_pos_bound n 10 ltac:(lia)) as Hm.
    by destruct (digit_char_value _ Hm) as [-> _]. }
  destruct (n <? 10)%Z; [done|by apply IH].
Qed.

Lemma split_once_digits t u : str_all is_digit t = true →
  split_once "-" (t +:+ "-" +:+ u) = Some (t, u).
Proof.
  induction t as [|a t IH]; [done|]. simpl. intros [Ha Ht]%andb_true_iff.
  destruct (ascii_dec a "-") as [-> | _]; [done|]. by rewrite IH.
Qed.

Lemma stream_start_rank cutoff : (0 ≤ cutoff / 1000000 ≤ U64_MAX)%Z →
  sid_rank (stream_start cutoff) = (cutoff / 1000000 * 2 ^ 64)%Z.
Proof.
  intros Hc. unfold sid_rank, stream_start, stream_rank. rewrite Z.max_l by lia.
  change "-0" with ("-" +:+ "0"). rewrite split_once_digits by by apply dec_go_digits.
  rewrite parse_u64_dec by done. simpl. lia.
Qed.

(** C8. While others post and the server trims, a listing whose commands are answered
    ends, and returns what one look at the stream would have given: of a snapshot less
    entries trimmed meanwhile, the last matching messages of the time window, as many as
    the limit allows, oldest first; however many pages it takes to find them. *)
Theorem recent_listing `{Chrono} `{StoreText} `{BodyCodec} `{!EntryText} `{HubText} `{!BusText}
    (s : BusSettings) (q : Listing) (env : bus_env) (tops : nat → Z) (c : conn) (fuel : nat) :
  stream_env s env tops → stream_ok (bs_stream_key s) (tops (cn_step c)) (cn_db c) →
  0 < li_limit q →
  let cutoff := (tn_clock (env (cn_step c)) - li_since_minutes q * 60 * NANOS)%Z in
  (0 ≤ cutoff / 1000000 ≤ U64_MAX)%Z →
  let snapshot := stream_of (tn_others (env (S (cn_step c))) (cn_db c)) (bs_stream_key s) in
  length snapshot < fuel →
  ∃ old kept c', snapshot = old ++ kept ∧
    bus_list_messages_from_redis_with_filters fuel s q env c =
      (Ok (Some (recent_matching q cutoff kept)), c') ∧
    ∀ e, e ∈ old → e ∉ stream_of (cn_db c') (bs_stream_key s).
Proof.
  intros Henv Hok Hlim cutoff Hcut snapshot Hfuel.
  assert (stream_ok (bs_stream_key s) (tops (S (cn_step c))) (cn_db c)) as Hok1.
  { destruct Hok as (Hk & Hg & Hb). split_and!; [done|apply Hg..|].
    eapply Forall_impl; [exact Hb|]. intros e. pose proof (se_tops _ _ _ Henv (cn_step c)). simpl. lia. }
  destruct (se_stream _ _ _ Henv _ _ Hok1) as ((_ & [Hasc Hg] & Hb) & _).
  fold snapshot in Hasc, Hg, Hb. rewrite Forall_forall in Hg, Hb.
  set (t := tops (S (S (cn_step c)))) in *.
  pose proof (list_pages_listed s q cutoff env tops snapshot Henv
    ltac:(rewrite stream_start_rank by done; lia) Hasc Hg fuel (advance c (cn_db c)) "+" (Z.max 0 t + 1) snapshot
    [] 0 [] Hok1 ltac:(by rewrite app_nil_r)) as Hl.
  destruct Hl as (old & kept & E & Er & Hgone);
    [intros e He; specialize (Hb e He); lia|by intros e ?%elem_of_nil|lia|by rewrite app_nil_r|done| |done|done|].
  { left. split; [done|]. intros e He. specialize (Hb e He). lia. }
  unfold bus_list_messages_from_redis_with_filters.
  rewrite (proj2 (Nat.eqb_neq _ _)) by lia. unfold bbind, clock. cbn beta iota zeta. fold cutoff.
  destruct (list_pages _ _ _ _ _ _ _ _ _) as [r c'] eqn:El. cbn in El, Er, Hgone.
  eexists old, kept, c'. split; [done|]. split; [|done].
  rewrite Er. simpl.
  by rewrite recent_matching_take.
Qed.

(** ** A listing of three entries *)

#[local] Existing Instances bit_chrono bit_store bit_compression bus_entry bus_hub bit_bus.

Definition demo_stream : conn :=
  stream_conn (bs_stream_key demo_bus)
    [demo_entry 0 "bob" "status"; demo_entry 1 "carol" "status"; demo_entry 2 "bob" "status"].

Definition demo_listing : Listing := mkListing (Some "bob") None 10 5 true (Some "status") None [].

Definition demo_top : Z := (3600003 * 2 ^ 64)%Z.

Lemma served_stream s : stream_env s (served (bs_stream_key s)) (λ _, demo_top).
Proof.
  constructor; [done| |done]. intros i d Hd.
  destruct (expire_due_stream (bs_stream_key s) (3600000 + Z.of_nat i) demo_top d Hd).
  split_and!; [done|done|apply expire_due_unexpired].
Qed.

Lemma recent_listing_witness :
  ∃ old kept c', [demo_entry 0 "bob" "status"; demo_entry 1 "carol" "status";
                  demo_entry 2 "bob" "status"] = old ++ kept ∧
    bus_list_messages_from_redis_with_filters 9 demo_bus demo_listing (served "agent_bus:messages")
      demo_stream = (Ok (Some (recent_matching demo_listing 3000000000000 kept)), c').
Proof.
  destruct (recent_listing demo_bus demo_listing (served "agent_bus:messages") (λ _, demo_top)
    demo_stream 9) as (old & kept & c' & E & Er & _).
  - apply (served_stream demo_bus).
  - apply stream_conn_ok; [repeat constructor; by vm_compute|by vm_compute].
  - by vm_compute; lia.
  - by vm_compute.
  - vm_compute. lia.
  - exists old, kept, c'. split; [|exact Er]. rewrite <- E. by vm_compute.
Defined.
