(* ===== verification/PostProps.v ===== *)
(** * PostProps: what posting a message does

    A single post and a batch store the same entry; what was posted reads back; a lost
    event leaves a stored message that its recipient is not told of. *)

From Stdlib Require Import ZArith Lia Ascii.
From stdpp Require Import base option list strings gmap sorting.
From S2P Require Import Prelude Str Json Validation McpSchema ClaimTypes Outbox Redis.
From S2P Require Import Channels Messages StreamEntry ReplayScript OutboxHub SyncStore StreamFacts.
From S2P Require Import Bus BusFacts ClaimInstances HubInstances SyncInstances BusInstances.

(** ** Fields read back *)

Section fields.
Context `{EntryText} (l : list (string * string)).
Context (Hnames : NoDup l.*1) (Hutf : Forall (λ n, utf8 n = true) l.*1).

Abbreviation fs := (parse_fields ∅ (map BulkString (flat l))).

Lemma got k : fs !! k = BulkString <$> field k l.
Proof. rewrite parse_fields_flat by done. by destruct (field k l). Qed.

Lemma got_text k v : field k l = Some v → utf8 v = true → entry_get fs k = v.
Proof. intros E Hv. unfold entry_get. rewrite got, E. by apply bool_decide_eq_true in Hv. Qed.

Lemma got_nothing k : field k l = None → entry_get fs k = "".
Proof. intros E. unfold entry_get. by rewrite got, E. Qed.

Lemma got_ref k v : field k l = Some v → entry_get_ref fs k = v.
Proof. intros E. unfold entry_get_ref. by rewrite got, E. Qed.

Lemma got_no_ref k : field k l = None → entry_get_ref fs k = "".
Proof. intros E. unfold entry_get_ref. by rewrite got, E. Qed.
End fields.

(** [base64] writes ASCII that reads back; [lz4_flex] puts the length in the first four
    bytes, and undoes what it compressed. *)
Class BodyCodecLaws `{BodyCodec} `{EntryText} := {
  encoded_utf8 b : utf8 (base64_encode b) = true;
  decode_encoded b : base64_decode (base64_encode b) = Some b;
  size_prepended b : (str_len b < 2 ^ 32)%Z →
    claimed_size (compress_prepend_size b) = Some (str_len b);
  decompress_compressed b : (str_len b < 2 ^ 32)%Z →
    decompress_size_prepended (compress_prepend_size b) = Some b;
}.

(** A body within the decoder's bound reads back: the claimed size passes it. *)
Lemma decompress_compress `{BodyCodecLaws} b :
  (str_len b ≤ MAX_DECOMPRESSED_BODY_LEN)%Z → utf8 b = true →
  lz4_decompress_body (lz4_compress_body b) = Some b.
Proof.
  intros Hlen Hu. assert (str_len b < 2 ^ 32)%Z as Hw.
  { eapply Z.le_lt_trans; [exact Hlen|]. by vm_compute. }
  unfold lz4_decompress_body, lz4_compress_body. rewrite decode_encoded. cbn.
  rewrite size_prepended by done. cbn. rewrite (proj2 (Z.ltb_ge _ _) Hlen).
  rewrite decompress_compressed by done. cbn. by rewrite Hu.
Qed.

Section post.
Context `{Chrono} `{StoreText} `{BodyCodec} `{!EntryText} `{HubText} `{!BusText}.

(** ** Two preparations *)

Definition with_metadata (m : Message) (v : json) : Message :=
  mkMessage (m_id m) (m_timestamp_utc m) (m_protocol_version m) (m_from m) (m_to m) (m_topic m)
    (m_body m) (m_thread_id m) (m_tags m) (m_priority m) (m_request_ack m) (m_reply_to m) v
    (m_stream_id m) (m_client_msg_id m) (m_origin_hub m) (m_origin_seq m) (m_hlc m)
    (m_sensitivity m).

(** The batch's preparation of the same input. *)
Definition batch_preparation (s : BusSettings) (p : BatchSendPayload) (schema : option MessageSchema)
    (id : string) (now : Z) : PreparedMessage :=
  prepare_message id now (bp_from p) (bp_to p) (bp_topic p) (bp_body p) (bp_thread_id p) (bp_tags p)
    (bp_priority p) (bp_request_ack p) (bp_reply_to p) (bp_metadata p) (bs_session_id s) schema.

Definition inferred_schema (p : BatchSendPayload) (schema : option MessageSchema) : option string :=
  first_some (schema_as_str <$> schema) (infer_schema_from_topic (bp_topic p) None).

(** A schema applies, or the caller named one. *)
Definition annotated (p : BatchSendPayload) (schema : option MessageSchema) : Prop :=
  is_Some (inferred_schema p schema) ∨ is_Some (vget (bp_metadata p) "_schema").

Lemma final_metadata_plain v body : vget v "_schema" = None → final_metadata v None false body = v.
Proof.
  intros E. unfold final_metadata. rewrite E.
  by rewrite !(bool_decide_eq_false_2 (is_Some None)) by by intros [? ?].
Qed.
End post.

(** The two ways of posting prepare the same stream entry from the same input, and
    the same message but for its metadata: those the single path returns to its caller,
    and shows to subscribers and PostgreSQL, lack the marks of compression exactly where
    no schema applies to a long body. *)
Theorem preparations_agree `{Chrono} `{StoreText} `{BodyCodec} (s : BusSettings)
    (p : BatchSendPayload) (schema : option MessageSchema) (id : string) (now : Z) :
  let one := post_preparation s p schema id now in
  let many := batch_preparation s p schema id now in
  entry_of one = entry_of many ∧
  pm_message many = with_metadata (pm_message one) (m_metadata (pm_message many)) ∧
  (annotated p schema ∨ (str_len (bp_body p) ≤ COMPRESS_THRESHOLD)%Z →
   pm_message one = pm_message many) ∧
  (¬ annotated p schema → (COMPRESS_THRESHOLD < str_len (bp_body p))%Z →
   m_metadata (pm_message one) = bp_metadata p ∧
   vget (m_metadata (pm_message many)) "_compressed" = Some (JStr "lz4")).
Proof.
  intros one many. split_and!; [done|done| |].
  - intros Hcase. unfold one, many, post_preparation, batch_preparation, prepare_message.
    cbn [pm_message]. f_equal. unfold effective_metadata.
    fold (inferred_schema p schema). destruct (_ || _) eqn:E; [done|]. bool_simplify.
    destruct Hcase as [[Ha|Ha]|Hs]; [done|done|].
    rewrite (proj2 (Z.ltb_ge _ _)) by done. destruct (inferred_schema p schema); [naive_solver|].
    symmetry. apply final_metadata_plain. by apply eq_None_not_Some.
  - intros Ha Hl. unfold annotated in Ha. apply Decidable.not_or in Ha as [Ha1 Ha2].
    unfold one, many, post_preparation, batch_preparation, prepare_message.
    cbn [pm_message m_metadata]. fold (inferred_schema p schema).
    unfold effective_metadata, final_metadata.
    rewrite (bool_decide_eq_false_2 _ Ha1), (bool_decide_eq_false_2 _ Ha2), (proj2 (Z.ltb_lt _ _)) by done.
    split; [done|]. rewrite (bool_decide_eq_true_2 (is_Some (Some _))) by by eexists. cbn.
    rewrite get_insert_ne, get_insert_eq by done. done.
Qed.

(** ** Reading a posted message back *)

Section readback.
Context `{Chrono} `{StoreText} `{BodyCodec} `{!EntryText} `{HubText} `{!BusText}.

Lemma entry_names p :
  NoDup (entry_of p).*1 ∧ Forall (λ n, utf8 n = true) (entry_of p).*1.
Proof.
  unfold entry_of. destruct (is_empty _), (pm_is_compressed p); csimpl;
    (split; [by apply (bool_decide_unpack _); vm_compute|repeat constructor]).
Qed.

Lemma entry_optional p :
  field "thread_id" (entry_of p) = (if is_empty (pm_thread_str p) then None else Some (pm_thread_str p)) ∧
  field "_compressed" (entry_of p) = (if pm_is_compressed p then Some "lz4" else None) ∧
  field "client_msg_id" (entry_of p) = None ∧ field "origin_hub" (entry_of p) = None ∧
  field "origin_seq" (entry_of p) = None ∧ field "hlc" (entry_of p) = None ∧
  field "sensitivity" (entry_of p) = None.
Proof.
  unfold entry_of. destruct (is_empty (pm_thread_str p)), (pm_is_compressed p); by split_and!.
Qed.

(** The prepared message with what belongs to its entry. *)
Record prepared_ok (p : PreparedMessage) : Prop := {
  po_readable : readable (pm_message p) = true;
  po_version : m_protocol_version (pm_message p) = PROTOCOL_VERSION;
  po_tags : pm_tags_json p = strings_text (m_tags (pm_message p));
  po_ack : pm_ack_str p = if m_request_ack (pm_message p) then "true" else "false";
  po_reply : is_Some (m_reply_to (pm_message p));
  po_meta : pm_meta_json p = json_text (m_metadata (pm_message p));
  po_thread : pm_thread_str p = from_option (λ t, t) "" (m_thread_id (pm_message p));
  po_body : if pm_is_compressed p
            then pm_stored_body p = lz4_compress_body (m_body (pm_message p)) ∧
                 (str_len (m_body (pm_message p)) ≤ MAX_DECOMPRESSED_BODY_LEN)%Z
            else pm_stored_body p = m_body (pm_message p);
  po_local : m_client_msg_id (pm_message p) = None ∧ m_origin_hub (pm_message p) = None ∧
    m_origin_seq (pm_message p) = None ∧ m_hlc (pm_message p) = None ∧
    m_sensitivity (pm_message p) = None;
}.

Section one.
Context `{!BodyCodecLaws} (p : PreparedMessage) (Hp : prepared_ok p).

Abbreviation l := (entry_of p).
Abbreviation m := (pm_message p).
Abbreviation fs := (parse_fields ∅ (map BulkString (flat (entry_of p)))).

Lemma read_text k v : field k l = Some v → utf8 v = true → entry_get fs k = v.
Proof. destruct (entry_names p). by apply got_text. Qed.

Lemma read_nothing k : field k l = None → entry_get fs k = "".
Proof. destruct (entry_names p). by apply got_nothing. Qed.

Lemma read_lookup k : fs !! k = BulkString <$> field k l.
Proof. destruct (entry_names p). by apply got. Qed.

Lemma read_body : utf8 (m_body m) = true → entry_body fs = m_body m.
Proof.
  intros Hb. destruct (entry_names p) as [Hn Hu]. destruct (entry_optional p) as (_ & Ec & _).
  pose proof (po_body p Hp) as Hs. unfold entry_body.
  destruct (pm_is_compressed p).
  - destruct Hs as [Es Hlen]. rewrite (got_ref l Hn Hu _ "lz4" Ec), bool_decide_eq_true_2 by done.
    rewrite (read_text "body" (pm_stored_body p)); [|done|by rewrite Es; apply encoded_utf8].
    rewrite Es, decompress_compress; done.
  - rewrite (got_no_ref l Hn Hu _ Ec), bool_decide_eq_false_2 by done.
    rewrite (read_text "body" (pm_stored_body p)); [done|done|by rewrite Hs].
Qed.

Lemma read_thread :
  opt_all (λ t, filled t && negb (bool_decide (t = "None"))) (m_thread_id m) = true →
  let t := entry_get fs "thread_id" in
  (if is_empty t || bool_decide (t = "None") then None else Some t) = m_thread_id m.
Proof.
  intros Ht. destruct (entry_optional p) as (E & _). rewrite (po_thread p Hp) in E. cbn zeta.
  destruct (m_thread_id m) as [t|]; simpl in Ht, E.
  - apply andb_true_iff in Ht as [[Hu He]%filled_spec Hn%negb_true_iff]. rewrite He in E.
    by rewrite (read_text _ t), He, Hn.
  - by rewrite read_nothing.
Qed.

Lemma read_reply_to : opt_all filled (m_reply_to m) = true →
  let r := entry_get fs "reply_to" in (if is_empty r then None else Some r) = m_reply_to m.
Proof.
  intros Hr. cbn zeta. destruct (po_reply p Hp) as [r Er].
  assert (field "reply_to" l = Some r) as E by (unfold entry_of; by rewrite Er).
  rewrite Er in *. apply filled_spec in Hr as [Hu He]. by rewrite (read_text _ r), He.
Qed.

Lemma read_tags : forallb utf8 (m_tags m) = true → entry_get_json_vec fs "tags" = m_tags m.
Proof.
  intros Ht. unfold entry_get_json_vec. rewrite read_lookup.
  change (field "tags" l) with (Some (pm_tags_json p)). cbn. rewrite (po_tags p Hp), strings_of_text_text;
    [done|]. by apply Forall_forall, forallb_True.
Qed.

Lemma read_metadata : json_storable (m_metadata m) = true →
  entry_get_json_value fs "metadata" = m_metadata m.
Proof.
  intros Ht. unfold entry_get_json_value. rewrite read_lookup.
  change (field "metadata" l) with (Some (pm_meta_json p)). cbn.
  by rewrite (po_meta p Hp), json_of_text_text.
Qed.

Lemma read_ack : entry_get_bool fs "request_ack" = m_request_ack m.
Proof.
  destruct (entry_names p) as [Hn Hu]. unfold entry_get_bool.
  rewrite (got_ref l Hn Hu _ (pm_ack_str p)) by done. rewrite (po_ack p Hp).
  by destruct (m_request_ack m).
Qed.

(** The entry decodes to the message. *)
Lemma decode_prepared sid :
  set_stream_id (decode_stream_entry fs) sid = set_stream_id m sid.
Proof.
  pose proof (po_readable p Hp) as Hr. unfold readable in Hr. cbn [forallb] in Hr. bool_simplify.
  destruct (po_local p Hp) as (E1 & E2 & E3 & E4 & E5).
  destruct (entry_optional p) as (_ & _ & F1 & F2 & F3 & F4 & F5).
  match goal with Hf : filled (m_priority m) = true |- _ => apply filled_spec in Hf as [Hpu Hpe] end.
  apply set_stream_id_ext.
  - by apply (read_text "id").
  - by apply (read_text "timestamp_utc").
  - rewrite (po_version p Hp). by apply (read_text "protocol_version").
  - by apply (read_text "from").
  - by apply (read_text "to").
  - by apply (read_text "topic").
  - by apply read_body.
  - by apply read_thread.
  - by apply read_tags.
  - change (let t := entry_get fs "priority" in (if is_empty t then "normal" else t) = m_priority m).
    cbn zeta. by rewrite (read_text "priority" (m_priority m)), Hpe.
  - apply read_ack.
  - by apply read_reply_to.
  - by apply read_metadata.
  - change (StreamEntry.non_empty (entry_get fs "client_msg_id") = m_client_msg_id m). by rewrite (read_nothing _ F1), E1.
  - change (StreamEntry.non_empty (entry_get fs "origin_hub") = m_origin_hub m). by rewrite (read_nothing _ F2), E2.
  - change (parse_u64 (entry_get fs "origin_seq") = m_origin_seq m). by rewrite (read_nothing _ F3), E3.
  - change (StreamEntry.non_empty (entry_get fs "hlc") = m_hlc m). by rewrite (read_nothing _ F4), E4.
  - change (from_stored (entry_get fs "sensitivity") = m_sensitivity m). by rewrite (read_nothing _ F5), E5.
Qed.
End one.
End readback.

(** ** From the operation to the entry *)

Lemma bbind_ok {A B} (m : bus A) (k : A → bus B) env c b c' :
  bbind m k env c = (Ok b, c') ↔ ∃ a c1, m env c = (Ok a, c1) ∧ k a env c1 = (Ok b, c').
Proof.
  unfold bbind. destruct (m env c) as [[a|e] c1]; split; try naive_solver; intros; by eexists a, c1.
Qed.

Lemma bbind_err {A B} (m : bus A) (k : A → bus B) env c e c' :
  bbind m k env c = (Err e, c') ↔
    m env c = (Err e, c') ∨ ∃ a c1, m env c = (Ok a, c1) ∧ k a env c1 = (Err e, c').
Proof. unfold bbind. destruct (m env c) as [[a|e1] c1]; naive_solver. Qed.

Lemma command_ok {A} what (m : lua A) env c a c' : command what m env c = (Ok a, c') →
  let t := env (cn_step c) in
  ∃ st, m (mkLuaState (tn_others t (cn_db c)) (tn_lua t)) = (Ok a, st) ∧ c' = advance c (ls_db st).
Proof.
  intros E t. unfold command, raw_command in E. fold t in E.
  destruct (attempt _ _ _ _) as [r d] eqn:Ea. apply attempt_cases in Ea.
  destruct r as [a0|]; simplify_eq/=. destruct Ea as [(_ & _ & [=])|(r0 & st & Em & -> & Hr)].
  exists st. destruct Hr as [<-|[=]]. by rewrite Em.
Qed.

Lemma command_err {A} what (m : lua A) env c e c' : command what m env c = (Err e, c') →
  (∃ t, e = Internal (what +:+ ": " +:+ t)) ∧ cn_sent c' = cn_sent c.
Proof.
  unfold command, raw_command. destruct (attempt _ _ _ _) as [[a|t] d]; intros [= <- <-].
  split; [by exists t|done].
Qed.

(** What an [XADD] adds is not what it trims. *)
Lemma XADD_adds key maxlen fs d e eid st : (1 ≤ maxlen)%Z →
  redis_XADD key maxlen fs (mkLuaState d e) = (Ok eid, st) → (eid, fs) ∈ stream_of (ls_db st) key.
Proof.
  intros Hm. unfold redis_XADD, lbind, redis_TYPE, lread, lwrite, lret. cbn [fst snd ls_db ls_env].
  destruct (_ && _); [done|]. cbn.
  assert (∀ new, (new : string * list string) ∈
    stream_of (append_entry key maxlen new.1 new.2 (lua_trim e) d (lua_now e)) key) as Hin.
  { intros new. unfold stream_of, append_entry. cbn. rewrite lookup_insert_eq, <- surjective_pairing.
    rewrite drop_app_le by (rewrite length_app; simpl; lia).
    apply elem_of_app. right. by apply list_elem_of_singleton. }
  destruct (lua_writes e) as [[|n]|]; cbn; intros [= <- <-]; by apply (Hin (_, fs)).
Qed.

(** The stream's key is none of those posting writes besides. *)
Definition stream_apart (s : BusSettings) : Prop :=
  ∀ x, pending_ack_key x ≠ bs_stream_key s ∧ ack_deadline_key x ≠ bs_stream_key s ∧
       notification_stream_key x ≠ bs_stream_key s.

Definition entry_at (s : BusSettings) (e : string * list string) (d : hubdb) : Prop :=
  e ∈ stream_of d (bs_stream_key s).

Lemma entry_looks s e : looks_at (bs_stream_key s) (entry_at s e).
Proof. intros d d' Hk. unfold entry_at, stream_of. by rewrite Hk. Qed.

Section operation.
Context `{Chrono} `{StoreText} `{BodyCodec} `{!EntryText} `{HubText} `{!BusText}.

Lemma track_keeps I s : looks_at (bs_stream_key s) I → stream_apart s →
  ∀ id to at_, keeps I (track_pending_ack id to at_).
Proof. intros HI Hs id to at_. destruct (Hs id) as (? & _). unfold track_pending_ack. keep. Qed.

Lemma deadline_keeps I s : looks_at (bs_stream_key s) I → stream_apart s →
  ∀ id to pr, keeps I (store_ack_deadline id to pr).
Proof.
  intros HI Hs id to pr. destruct (Hs id) as (_ & ? & _). unfold store_ack_deadline, track_ack_deadline.
  keep.
Qed.

Lemma notifications_keep I s : looks_at (bs_stream_key s) I → stream_apart s →
  ∀ msg, keeps I (append_notifications msg).
Proof.
  intros HI Hs msg. destruct (Hs (m_to msg)) as (_ & _ & ?). unfold append_notifications.
  destruct (negb (direct msg)); [apply bus_keeps_ret|keep].
Qed.

Lemma after_entry_keeps I s msg pg_writer sse : looks_at (bs_stream_key s) I → stream_apart s →
  keeps I (after_entry s msg pg_writer sse).
Proof.
  intros HI Hs. pose proof (track_keeps I s HI Hs). pose proof (deadline_keeps I s HI Hs).
  pose proof (notifications_keep I s HI Hs). unfold after_entry. keep. apply keeps_when. keep.
Qed.

Lemma after_entry_message s msg pg_writer sse env c posted c' :
  after_entry s msg pg_writer sse env c = (Ok posted, c') → po_message posted = msg.
Proof.
  unfold after_entry. repeat setoid_rewrite bbind_ok. unfold bret. naive_solver.
Qed.

(** Only a lost event ends what follows the entry early. *)
Lemma after_entry_err s msg pg_writer sse env c e c' :
  after_entry s msg pg_writer sse env c = (Err e, c') →
  (∃ t, e = Internal ("PUBLISH failed: " +:+ t)) ∧
  cn_sent c' = cn_sent c ++ (if pg_writer then [msg] else []) ∧
  ∀ k I, looks_at k I → others_keep I env → I (cn_db c) → I (cn_db c').
Proof.
  unfold after_entry. rewrite bbind_err. intros [Es|(? & c1 & Es & E)].
  { by destruct pg_writer. }
  assert (cn_sent c1 = cn_sent c ++ (if pg_writer then [msg] else []) ∧ cn_db c1 = cn_db c) as [<- <-].
  { destruct pg_writer; [by injection Es as <- <-|]. injection Es as <- <-. by rewrite app_nil_r. }
  apply bbind_err in E as [Ep|(? & ? & _ & E)].
  2: { apply bbind_err in E as [E|(? & ? & _ & E)];
         [|unfold bbind, caught in E; by destruct (append_notifications _ _ _)].
       destruct (m_request_ack msg); [|done]. cbn [bwhen] in E. unfold bbind, caught in E.
       destruct (track_pending_ack _ _ _ _ _); by destruct (store_ack_deadline _ _ _ _ _). }
  destruct (should_publish_message_event msg sse); [|done]. cbn [bwhen] in Ep.
  apply command_err in Ep as Ht. destruct Ht as [Ht Hsent]. split_and!; [done..|].
  intros k I HI Ho Hc. apply (f_equal snd) in Ep. cbn [snd] in Ep. rewrite <- Ep.
  apply keeps_command; [|done|done]. by apply (keeps_PUBLISH I _ _ k).
Qed.

(** The message as its entry has it: the metadata is the stored one. *)
Definition posted_preparation (s : BusSettings) (p : BatchSendPayload) (schema : option MessageSchema)
    (env : bus_env) (c : conn) : PreparedMessage :=
  batch_preparation s p schema (tn_id (env (cn_step c))) (tn_clock (env (S (cn_step c)))).

Lemma post_unfold s p schema pg_writer sse env c :
  let pm := post_preparation s p schema (tn_id (env (cn_step c))) (tn_clock (env (S (cn_step c)))) in
  bus_post_message_with_schema s p pg_writer sse schema env c =
  (let+ sid := command "XADD failed"
                 (redis_XADD (bs_stream_key s) (bs_stream_maxlen s) (flat (entry_of pm))) in
   after_entry s (set_stream_id (pm_message pm) sid) pg_writer sse) env
    (advance (advance c (cn_db c)) (cn_db c)).
Proof. done. Qed.

Lemma batch_prepared_ok s p schema id now :
  readable (pm_message (batch_preparation s p schema id now)) = true →
  (str_len (bp_body p) ≤ MAX_DECOMPRESSED_BODY_LEN)%Z →
  prepared_ok (batch_preparation s p schema id now).
Proof.
  intros Hr Hb. split; try done.
  unfold batch_preparation, prepare_message. cbn. by destruct (_ <? _)%Z.
Qed.
End operation.

(** C7. A message that was posted is in the stream under the identifier the caller is
    given, and its entry reads back as the message returned, with the stored metadata. *)
Theorem posted_reads_back `{Chrono} `{StoreText} `{BodyCodec} `{!EntryText} `{HubText} `{!BusText}
    `{!BodyCodecLaws} (s : BusSettings) (p : BatchSendPayload) (schema : option MessageSchema)
    (pg_writer sse : bool) (env : bus_env) (c : conn) (posted : PostedMessage) (c' : conn) :
  stream_apart s → (1 ≤ bs_stream_maxlen s)%Z → (∀ e, others_keep (entry_at s e) env) →
  let stored := pm_message (posted_preparation s p schema env c) in
  readable stored = true → (str_len (bp_body p) ≤ MAX_DECOMPRESSED_BODY_LEN)%Z →
  bus_post_message_with_schema s p pg_writer sse schema env c = (Ok posted, c') →
  ∃ sid fs, m_stream_id (po_message posted) = Some sid ∧
    (sid, fs) ∈ stream_of (cn_db c') (bs_stream_key s) ∧
    decode_entry (parsed_entry (sid, fs)) = with_metadata (po_message posted) (m_metadata stored).
Proof.
  intros Hs Hm Ho stored Hr Hb E. rewrite post_unfold in E.
  apply bbind_ok in E as (sid & c1 & Ex & Ea). apply command_ok in Ex as (st & Ex & ->).
  apply XADD_adds in Ex; [|done]. exists sid, (flat (entry_of (posted_preparation s p schema env c))).
  rewrite (after_entry_message _ _ _ _ _ _ _ _ Ea). split_and!; [done| |].
  - apply (f_equal snd) in Ea. cbn [snd] in Ea. rewrite <- Ea.
    apply (after_entry_keeps (entry_at s (sid, _)) s); [apply entry_looks|done|apply Ho|exact Ex].
  - unfold decode_entry. cbn [fst snd parsed_entry].
    rewrite (decode_prepared (posted_preparation s p schema env c)); [done|]. by apply batch_prepared_ok.
Qed.

(** A post that fails has either lost its [XADD], and told nobody of anything; or has
    lost its event after the entry was stored and the message handed to PostgreSQL: then
    no key but the stream has changed, the recipient has no notification and a requested
    acknowledgement is not tracked. *)
Theorem failed_post `{Chrono} `{StoreText} `{BodyCodec} `{!EntryText} `{HubText} `{!BusText}
    (s : BusSettings) (p : BatchSendPayload) (schema : option MessageSchema)
    (pg_writer sse : bool) (env : bus_env) (c : conn) (err : AgentBusError) (c' : conn) :
  (1 ≤ bs_stream_maxlen s)%Z → (∀ e, others_keep (entry_at s e) env) →
  let pm := posted_preparation s p schema env c in
  bus_post_message_with_schema s p pg_writer sse schema env c = (Err err, c') →
  (∀ k I, k ≠ bs_stream_key s → looks_at k I → others_keep I env → I (cn_db c) → I (cn_db c')) ∧
  ((∃ t, err = Internal ("XADD failed: " +:+ t)) ∧ cn_sent c' = cn_sent c ∨
   (∃ t, err = Internal ("PUBLISH failed: " +:+ t)) ∧
   ∃ sid msg, (sid, flat (entry_of pm)) ∈ stream_of (cn_db c') (bs_stream_key s) ∧
     with_metadata msg (m_metadata (pm_message pm)) = set_stream_id (pm_message pm) sid ∧
     cn_sent c' = cn_sent c ++ (if pg_writer then [msg] else [])).
Proof.
  intros Hm Ho pm E. rewrite post_unfold in E. apply bbind_err in E as [E|(sid & c1 & Ex & Ea)].
  - split; [|left; by apply command_err in E]. intros k I Hk HI Hoth Hc.
    apply (f_equal snd) in E. cbn [snd] in E. rewrite <- E. apply keeps_command; [|done|done].
    by apply (keeps_XADD I k).
  - apply after_entry_err in Ea as (Ht & Hsent & Hkeep). apply command_ok in Ex as Ex'.
    destruct Ex' as (st & Ex' & E1). split.
    + intros k I Hk HI Hoth Hc. apply (Hkeep k); [done..|].
      apply (f_equal snd) in Ex. cbn [snd] in Ex. rewrite <- Ex. apply keeps_command; [|done|done].
      by apply (keeps_XADD I k).
    + right. split; [done|]. eexists sid, _. split; [|split; [|by rewrite Hsent, E1]; done].
      eapply (Hkeep _ (entry_at s (sid, _))); [apply entry_looks|apply Ho|]. rewrite E1.
      by eapply XADD_adds.
Qed.

(** ** Two posts of one message *)

#[local] Existing Instances bit_chrono bit_store bit_compression bus_entry bus_hub bit_bus.

Lemma bit_compression_laws : BodyCodecLaws.
Proof.
  constructor; intros b; [apply pos_text_utf8| | |done].
  - change (text_pos (pos_text (encode b)) ≫= decode = Some b).
    by rewrite text_pos_text, bind_Some_l, decode_encode.
  - intros Hb. apply size_bytes_claimed. split; [apply str_len_nonneg|exact Hb].
Qed.

Definition demo_post (env : bus_env) : Result PostedMessage * conn :=
  bus_post_message_with_schema demo_bus (demo_payload "bob" "status" "hello" true) true true None env
    no_conn.

Lemma demo_apart : stream_apart demo_bus.
Proof. by intros x. Qed.

Lemma posted_reads_back_witness :
  ∃ posted c' sid fs, demo_post alone = (Ok posted, c') ∧
    m_stream_id (po_message posted) = Some sid ∧
    (sid, fs) ∈ stream_of (cn_db c') (bs_stream_key demo_bus) ∧
    m_body (decode_entry (parsed_entry (sid, fs))) = "hello".
Proof.
  destruct (demo_post alone) as [[posted|e] c'] eqn:E; [|by vm_compute in E].
  destruct (@posted_reads_back _ _ _ _ _ _ bit_compression_laws demo_bus
    (demo_payload "bob" "status" "hello" true) None true true alone no_conn posted c')
    as (sid & fs & Es & Hin & Hd); [exact demo_apart|done|by intros e i d|by vm_compute|done|exact E|].
  exists posted, c', sid, fs. split; [done|]. split; [done|]. split; [done|]. rewrite Hd.
  replace posted with (from_option (λ p, p) posted (match (demo_post alone).1 with Ok p => Some p | _ => None end))
    by (by rewrite E). by vm_compute.
Defined.

Lemma failed_post_witness : ∃ err c', demo_post deaf = (Err err, c') ∧
  hd_keys (cn_db c') !! notification_stream_key "bob" = None ∧
  hd_keys (cn_db c') !! pending_ack_key "m0" = None ∧
  ∃ sid msg, (sid, flat (entry_of (posted_preparation demo_bus
                (demo_payload "bob" "status" "hello" true) None deaf no_conn)))
      ∈ stream_of (cn_db c') (bs_stream_key demo_bus) ∧ cn_sent c' = [msg].
Proof.
  destruct (demo_post deaf) as [[posted|e] c'] eqn:E; [by vm_compute in E|]. exists e, c'.
  assert (∀ i d, tn_others (deaf i) d = d) as Hquiet.
  { intros i d. unfold deaf. by destruct (i =? 3)%nat. }
  destruct (failed_post demo_bus (demo_payload "bob" "status" "hello" true) None true true deaf no_conn e c')
    as (Hkeep & Hcase); [done|intros x i d; by rewrite Hquiet|exact E|].
  assert (∀ k, k ≠ bs_stream_key demo_bus → hd_keys (cn_db c') !! k = None) as Hnone.
  { intros k Hk. apply (Hkeep k (λ d, hd_keys d !! k = None)); [done|by intros d d' ->| |done].
    intros i d. by rewrite Hquiet. }
  split; [done|]. split; [by apply Hnone|]. split; [by apply Hnone|].
  destruct Hcase as [[_ Hs]|(_ & sid & msg & Hin & _ & Hs)].
  - exfalso. assert (cn_sent (demo_post deaf).2 = []) as Hs' by (by rewrite E). by vm_compute in Hs'.
  - by exists sid, msg.
Defined.
