(* ===== verification/TaskProps.v ===== *)
(** * TaskProps: the task queues

    One agent's queue under any pushes and pulls of this connection and of others: first
    in, first out, as an abstract list does it. *)

From Stdlib Require Import ZArith Lia Ascii.
From stdpp Require Import base option list strings gmap sorting.
From S2P Require Import Prelude Str Json Validation McpSchema ClaimTypes Outbox Redis.
From S2P Require Import Channels Messages StreamEntry ReplayScript OutboxHub SyncStore StreamFacts.
From S2P Require Import Bus Ops ClaimInstances HubInstances SyncInstances BusInstances.

Definition queue_of (d : hubdb) (key : string) : list string :=
  match hd_keys d !! key with Some (mkEntry (VList l) _) => l | _ => [] end.

(** The key holds a list, or nothing. *)
Definition queue_ok (key : string) (d : hubdb) : Prop :=
  match hd_keys d !! key with None | Some (mkEntry (VList _) _) => True | _ => False end.

(** *** What others do

    At their turn before a command they take from the head and add at the tail, in any
    number; the server drops the queue when it has expired. [turns] says what they do
    from each database. *)

Abbreviation turn := (nat * list string)%type.

Definition others_do (t : turn) (q : list string) : list string := drop t.1 q ++ t.2.

Record task_env (env : bus_env) (key : string) (turns : nat → hubdb → turn) : Prop := {
  tk_others i d : queue_ok key d →
    queue_ok key (tn_others (env i) d) ∧
    unexpired key (lua_now (tn_lua (env i))) (tn_others (env i) d) ∧
    queue_of (tn_others (env i) d) key = others_do (turns i d) (queue_of d key);
}.

(** *** The abstract queue

    A call, whether the server carried it out, and the turns of others on its way, on a
    first-in first-out list. *)

Inductive task_call : Type := Push (task : string) | Pull.
Inductive task_reply : Type := Pushed (len : Z) | Pulled (task : option string).

Definition fifo_call (k : task_call) (made : bool) (ts : list turn) (q : list string)
    : task_reply * list string :=
  match k, ts with
  | Push task, t :: ts =>
      let q := others_do t q in
      let q := if made then q ++ [task] else q in
      (Pushed (Z.of_nat (length q)), foldl (λ q t, others_do t q) q ts)
  | Pull, t :: _ =>
      let q := others_do t q in (Pulled (head q), if made then tail q else q)
  | Push _, [] => (Pushed 0, q)
  | Pull, [] => (Pulled None, q)
  end.

Fixpoint fifo (ks : list (task_call * bool * list turn)) (q : list string)
    : list task_reply * list string :=
  match ks with
  | [] => ([], q)
  | (k, made, ts) :: ks =>
      let '(a, q) := fifo_call k made ts q in
      let '(l, q) := fifo ks q in
      (a :: l, q)
  end.

Section queue.
Context (key : string).

Abbreviation q d := (queue_of d key).

Lemma list_at_queue d now : queue_ok key d → unexpired key now d → list_at d now key = Ok (q d).
Proof.
  unfold queue_ok, unexpired, list_at, live_entry, queue_of. intros Hq Hu.
  destruct (hd_keys d !! key) as [[v until]|]; [|done]. destruct v; try done.
  specialize (Hu _ eq_refl). simpl in *. destruct until as [t|]; [|done]. simpl in Hu.
  by rewrite (proj2 (Z.leb_gt _ _)).
Qed.

(** The write of a command, if it is made. *)
Lemma lwrite_cases f d e r st : lwrite f (mkLuaState d e) = (r, st) →
  (is_ok r = false ∧ ls_db st = d) ∨ (r = Ok tt ∧ ls_db st = f d (lua_now e)).
Proof.
  unfold lwrite. cbn. destruct (lua_writes e) as [[|n]|]; intros [= <- <-]; auto.
Qed.

Lemma RPUSH_adds v d e r st : queue_ok key d → unexpired key (lua_now e) d →
  redis_RPUSH key v (mkLuaState d e) = (r, st) →
  (is_ok r = false ∧ ls_db st = d) ∨
  (queue_ok key (ls_db st) ∧ q (ls_db st) = q d ++ [v] ∧
   ∀ n, r = Ok n → n = Z.of_nat (length (q d ++ [v]))).
Proof.
  intros Hq Hu. unfold redis_RPUSH, redis_LRANGE_all, lbind, lread. cbn.
  rewrite list_at_queue by done. cbn. destruct (lwrite _ _) as [r0 st0] eqn:E.
  apply lwrite_cases in E as [[Hr Hd]|[-> Hd]].
  - destruct r0; [done|]. intros [= <- <-]. by left.
  - intros [= <- <-]. right. unfold queue_ok, queue_of. rewrite Hd. simpl.
    rewrite lookup_insert_eq. split_and!; [done|done|]. intros n [= <-].
    rewrite length_app. simpl. lia.
Qed.

Lemma LPOP_takes d e r st : queue_ok key d → unexpired key (lua_now e) d →
  redis_LPOP key (mkLuaState d e) = (r, st) →
  (is_ok r = false ∧ ls_db st = d) ∨ (r = Ok None ∧ q d = [] ∧ ls_db st = d) ∨
  ∃ v, r = Ok (Some v) ∧ queue_ok key (ls_db st) ∧ q d = v :: q (ls_db st).
Proof.
  intros Hq Hu. unfold redis_LPOP, redis_LRANGE_all, lbind, lread. cbn.
  rewrite list_at_queue by done. cbn. destruct (q d) as [|v rest]; [intros [= <- <-]; auto|].
  destruct (lwrite _ _) as [r0 st0] eqn:E. apply lwrite_cases in E as [[Hr Hd]|[-> Hd]].
  - destruct r0; [done|]. intros [= <- <-]. by left.
  - intros [= <- <-]. right. right. exists v. split; [done|]. unfold queue_ok, queue_of. rewrite Hd. simpl.
    case_bool_decide as Er; simpl; [subst rest; by rewrite lookup_delete_eq|by rewrite lookup_insert_eq].
Qed.

Lemma EXPIRE_keeps_queue secs d e r st : queue_ok key d → redis_EXPIRE key secs (mkLuaState d e) = (r, st) →
  queue_ok key (ls_db st) ∧ q (ls_db st) = q d.
Proof.
  intros Hq E. apply lwrite_cases in E as [[_ ->]|[_ ->]]; [done|].
  destruct (live_entry d (lua_now e) key) as [v|] eqn:El; [|done].
  unfold live_entry in El. unfold queue_ok, queue_of in *. simpl. rewrite lookup_insert_eq.
  destruct (hd_keys d !! key) as [[v' [t|]]|]; simpl in El; [|by simplify_eq|done].
  destruct (t <=? _)%Z; by simplify_eq.
Qed.

(** ** One command among others *)

Context (env : bus_env) (turns : nat → hubdb → turn) (Henv : task_env env key turns).

Definition turn_at (c : conn) : turn := turns (cn_step c) (cn_db c).

(** A command that changes the queue by [f], if it is made, and answers as [P] says. *)
Lemma raw_queue {A} (m : lua A) (f : list string → list string)
    (P : result string A → list string → Prop) c r c' :
  (∀ d e r st, queue_ok key d → unexpired key (lua_now e) d → m (mkLuaState d e) = (r, st) →
     queue_ok key (ls_db st) ∧
     ((is_ok r = false ∧ q (ls_db st) = q d) ∨ (q (ls_db st) = f (q d) ∧ P r (q d)))) →
  raw_command m env c = (r, c') → queue_ok key (cn_db c) →
  let q' := others_do (turn_at c) (q (cn_db c)) in
  queue_ok key (cn_db c') ∧
  ((is_ok r = false ∧ q (cn_db c') = q') ∨
   (q (cn_db c') = f q' ∧ tn_how (env (cn_step c)) ≠ LostBefore ∧ (is_ok r = false ∨ P r q'))).
Proof.
  intros Hm E Hq. unfold raw_command in E.
  destruct (tk_others _ _ _ Henv (cn_step c) _ Hq) as (Hq' & Hu & Eo).
  destruct (attempt _ _ _ _) as [r1 d1] eqn:Ea. injection E as <- <-. cbn zeta.
  unfold turn_at. rewrite <- Eo. clear Eo. simpl.
  assert (tn_how (env (cn_step c)) = LostBefore → is_ok r1 = false ∧ d1 = tn_others (env (cn_step c)) (cn_db c)) as Hlost.
  { intros El. rewrite El in Ea. by injection Ea as <- <-. }
  assert (tn_how (env (cn_step c)) = LostBefore ∨ tn_how (env (cn_step c)) ≠ LostBefore)
    as [El|Hne] by (destruct (tn_how (env (cn_step c))); [by right|by left|by right]).
  { destruct (Hlost El) as [Hr ->]. split; [done|]. by left. }
  apply attempt_cases in Ea as [(_ & -> & Hr)|(r0 & st & Em & -> & Hr)].
  - split; [done|]. by left.
  - destruct (Hm _ _ _ _ Hq' Hu Em) as (Hst & Hcase). split; [done|].
    destruct Hcase as [[Hn E]|[E HP]]; [left|right].
    + split; [|exact E]. by destruct Hr as [-> | Hr].
    + split; [exact E|]. split; [done|]. destruct Hr as [-> |Hr]; auto.
Qed.
End queue.

(** ** Runs *)

Section runs.
Context `{Chrono} `{StoreText} `{BodyCodec} `{!EntryText} `{HubText} `{!BusText} `{OpsText}.
Context (agent : string) (env : bus_env) (turns : nat → hubdb → turn).

Abbreviation key := (task_queue_key agent).
Abbreviation q c := (queue_of (cn_db c) key).

Definition call (k : task_call) : bus task_reply :=
  match k with
  | Push task => let+ n := push_task agent task in bret (Pushed n)
  | Pull => let+ task := pull_task agent in bret (Pulled task)
  end.

(** Others' turns while a call is made: one before each of its commands. *)
Definition call_turns (k : task_call) (c : conn) : list turn :=
  match k with
  | Push task =>
      match reject_nul_in_fields [(agent, "agent"); (task, "task")] with
      | Err _ => []
      | Ok _ =>
          turn_at turns c ::
          match tn_how (env (cn_step c)) with
          | LostBefore => []
          | _ => [turn_at turns (raw_command (keeping (redis_RPUSH key task)) env c).2]
          end
      end
  | Pull => [turn_at turns c]
  end.

(** Calls one after the other, whatever becomes of each, with others' turns. *)
Fixpoint run_calls (ks : list task_call) (c : conn)
    : list (Result task_reply * list turn) * conn :=
  match ks with
  | [] => ([], c)
  | k :: ks =>
      let ts := call_turns k c in
      let '(r, c) := call k env c in
      let '(rs, c) := run_calls ks c in
      ((r, ts) :: rs, c)
  end.

(** An answered call was made, and its answer is the abstract queue's. *)
Definition agrees (r : Result task_reply) (made : bool) (a : task_reply) : Prop :=
  ∀ x, r = Ok x → made = true ∧ x = a.

Hypothesis Henv : task_env env key turns.

(** What a call does, as the abstract queue does it. *)
Definition refines (k : task_call) (c : conn) (r : Result task_reply) (c' : conn) : Prop :=
  queue_ok key (cn_db c') ∧ ∃ made a,
    fifo_call k made (call_turns k c) (q c) = (a, q c') ∧ agrees r made a.

Lemma rpush_step task c r c' : queue_ok key (cn_db c) →
  raw_command (keeping (redis_RPUSH key task)) env c = (r, c') →
  let q' := others_do (turn_at turns c) (q c) in
  queue_ok key (cn_db c') ∧
  ((is_ok r = false ∧ q c' = q') ∨
   (q c' = q' ++ [task] ∧ tn_how (env (cn_step c)) ≠ LostBefore ∧
    ∀ x, r = Ok x → x = Some (Z.of_nat (length (q' ++ [task]))))).
Proof.
  intros Hq E. cbn zeta.
  apply (raw_queue key env turns Henv _ (λ l, l ++ [task])
    (λ r l, ∀ x, r = Ok x → x = Some (Z.of_nat (length (l ++ [task]))))) in E as [Hq1 Hc1]; [| |done].
  - split; [done|]. destruct Hc1 as [?|(? & ? & Hc1)]; [by left|right]. split_and!; [done|done|].
    intros x ->. destruct Hc1 as [?|Hc1]; [done|by apply Hc1].
  - intros d e r0 st Hd Hu Em. unfold keeping, lbind in Em.
    destruct (redis_RPUSH key task _) as [rp stp] eqn:Ep.
    assert (ls_db st = ls_db stp ∧ is_ok r0 = is_ok rp) as [-> Er] by (destruct rp; by injection Em as <- <-).
    destruct (RPUSH_adds key task d e rp stp Hd Hu Ep) as [[Hr Est]|(Hok & Eq & Hr)].
    + rewrite Est, Er. split; [done|]. by left.
    + split; [done|]. right. split; [done|]. intros x ->. destruct rp as [n|]; [|done].
      injection Em as <- _. by rewrite (Hr n eq_refl).
Qed.

Lemma expire_step {B} c (r : result string (option B)) c' : queue_ok key (cn_db c) →
  raw_command (ignoring (redis_EXPIRE key TASK_QUEUE_TTL_SECS)) env c = (r, c') →
  queue_ok key (cn_db c') ∧ q c' = others_do (turn_at turns c) (q c).
Proof.
  intros Hq E. apply (raw_queue key env turns Henv _ (λ l, l) (λ _ _, True)) in E as [Hq1 Hc1]; [| |done].
  - split; [done|]. by destruct Hc1 as [[_ ?]|[? _]].
  - intros d e r0 st Hd _ Em. unfold ignoring, lbind in Em.
    destruct (redis_EXPIRE key _ _) as [re ste] eqn:Ee.
    destruct (EXPIRE_keeps_queue key _ d e re ste Hd Ee) as [Hok Eq].
    assert (ls_db st = ls_db ste) as -> by (destruct re; by injection Em as <- <-).
    split; [done|]. by right.
Qed.

Lemma push_step task c r c' : queue_ok key (cn_db c) → call (Push task) env c = (r, c') →
  refines (Push task) c r c'.
Proof.
  intros Hq. unfold refines. cbn [call call_turns]. unfold push_task, bbind, bus_lift.
  destruct (reject_nul_in_fields _) as [[]|e].
  2: { intros [= <- <-]. split; [done|]. exists false, (Pushed 0). split; [done|]. by intros x. }
  unfold pipeline. cbn [pipeline_go].
  destruct (raw_command (keeping _) env c) as [r1 c1] eqn:E1.
  destruct (rpush_step task c r1 c1 Hq E1) as [Hq1 Hc1]. cbn [snd].
  destruct (raw_command (ignoring _) env c1) as [r2 c2] eqn:E2.
  destruct (expire_step c1 r2 c2 Hq1 E2) as [Hq2 Hc2].
  intros E. destruct Hc1 as [[Hr Hc1]|(Hc1 & Hne & Hans)].
  - assert (is_ok r = false ∧ c' = match tn_how (env (cn_step c)) with LostBefore => c1 | _ => c2 end)
      as [Hr' ->].
    { destruct r1; [done|]. by destruct (tn_how (env (cn_step c))), (tn_how (env (cn_step c1)));
        injection E as <- <-. }
    split; [destruct (tn_how (env (cn_step c))); assumption|]. exists false, (Pushed (Z.of_nat (length (q c1)))).
    split; [|by intros x ->]. cbn. rewrite <- Hc1. destruct (tn_how _); cbn; by rewrite ?Hc2.
  - assert (c' = c2 ∧ ∀ x, r = Ok x → ∃ a, r1 = Ok a ∧ x = Pushed (from_option (λ n, n) 0%Z a))
      as [-> Hr].
    { destruct (tn_how (env (cn_step c))); [|done|];
        (destruct r1 as [a|e]; [rewrite (Hans a eq_refl) in *|]);
        destruct (tn_how (env (cn_step c1))), r2 as [b|]; cbn in E;
        injection E as <- <-; (split; [done|]); intros x [= <-]; eauto. }
    split; [done|]. exists true, (Pushed (Z.of_nat (length (q c1)))). rewrite Hc1. split.
    + destruct (tn_how (env (cn_step c))); [|done|]; cbn; by rewrite Hc2, Hc1.
    + intros x Hx. apply Hr in Hx as (a & -> & ->). split; [done|]. by rewrite (Hans a eq_refl).
Qed.

Lemma pull_step c r c' : queue_ok key (cn_db c) → call Pull env c = (r, c') → refines Pull c r c'.
Proof.
  intros Hq. unfold refines. cbn [call call_turns]. unfold pull_task, command, bbind.
  destruct (raw_command _ env c) as [r1 c1] eqn:E1.
  apply (raw_queue key env turns Henv _ tail (λ r l, ∀ x, r = Ok x → x = head l)) in E1 as [Hq1 Hc1]; [| |done].
  - intros E. assert (c' = c1 ∧ ∀ x, r = Ok x → ∃ a, r1 = Ok a ∧ x = Pulled a) as [-> Hr].
    { destruct r1; injection E as <- <-; (split; [done|]); intros x [= <-]; eauto. }
    split; [done|]. destruct Hc1 as [[Hn Hc1]|(Hc1 & _ & Hans)]; rewrite Hc1.
    + exists false. eexists. split; [reflexivity|]. intros x (a & -> & _)%Hr. done.
    + exists true. eexists. split; [reflexivity|]. intros x (a & -> & ->)%Hr. split; [done|].
      destruct Hans as [?|Hans]; [done|]. by rewrite (Hans a eq_refl).
  - intros d e r0 st Hd Hu Em.
    destruct (LPOP_takes key d e r0 st Hd Hu Em) as [[Hr ->]|[[-> [Eq ->]]|(v & -> & Hok & Eq)]].
    + split; [done|]. by left.
    + split; [done|]. right. rewrite Eq. split; [done|]. by intros x [= <-].
    + split; [done|]. right. rewrite Eq. split; [done|]. by intros x [= <-].
Qed.

Lemma run_refines ks : ∀ c rs c', queue_ok key (cn_db c) → run_calls ks c = (rs, c') →
  ∃ made answers, length made = length ks ∧
    fifo (zip (zip ks made) (map snd rs)) (q c) = (answers, q c') ∧
    Forall3 agrees (map fst rs) made answers.
Proof.
  induction ks as [|k ks IH]; intros c rs c' Hq; cbn [run_calls].
  { intros [= <- <-]. exists [], []. by split_and!; [| |constructor]. }
  destruct (call k env c) as [r c1] eqn:E1. destruct (run_calls ks c1) as [rs1 c2] eqn:E2.
  intros [= <- <-].
  assert (refines k c r c1) as (Hq1 & m & a & Ef & Ha) by (destruct k; [by apply push_step|by apply pull_step]).
  destruct (IH c1 rs1 c2 Hq1 E2) as (made & answers & Hlen & Efs & Has).
  exists (m :: made), (a :: answers). split_and!; [simpl; congruence| |by constructor].
  cbn [map zip zip_with fst snd fifo]. rewrite Ef. by rewrite Efs.
Qed.
End runs.

(** C9. The task queue refines a first-in first-out list: whatever pushes and pulls of
    others come between its commands and whichever replies are lost, there is for every
    call whether the server carried it out, and it was carried out if it was answered,
    such that the list treated so, with others' turns in their places, is the queue in
    the end, and gave every answer: the length after a push, the oldest task to a pull,
    and nothing only when there is none. *)
Theorem task_queue_fifo `{Chrono} `{StoreText} `{BodyCodec} `{!EntryText} `{HubText} `{!BusText}
    `{OpsText} (agent : string) (env : bus_env) (turns : nat → hubdb → turn) (c : conn)
    (ks : list task_call) (rs : list (Result task_reply * list turn)) (c' : conn) :
  let key := task_queue_key agent in
  task_env env key turns → queue_ok key (cn_db c) →
  run_calls agent env turns ks c = (rs, c') →
  ∃ made answers, length made = length ks ∧
    fifo (zip (zip ks made) (map snd rs)) (queue_of (cn_db c) key)
      = (answers, queue_of (cn_db c') key) ∧
    Forall3 agrees (map fst rs) made answers.
Proof. intros key Henv Hq E. by eapply run_refines. Qed.

(** ** A queue at work *)

#[local] Existing Instances bit_chrono bit_store bit_compression bus_entry bus_hub bit_bus bit_ops.

(** Others leave the queue alone; it is dropped when it has expired. *)
Definition served_turns (key : string) (i : nat) (d : hubdb) : turn :=
  (length (queue_of d key) - length (queue_of (tn_others (served key i) d) key), []).

Lemma served_tasks key : task_env (served key) key (served_turns key).
Proof.
  constructor. intros i d Hd. unfold served_turns, others_do. cbn [fst snd].
  split_and!; [|apply expire_due_unexpired|]; unfold served, quiet_turn; cbn [tn_others]; unfold expire_due.
  - destruct (_ ≫= _) as [t|]; [|done]. destruct (t <=? _)%Z; [|done].
    unfold queue_ok. simpl. by rewrite lookup_delete_eq.
  - rewrite app_nil_r. destruct (_ ≫= _) as [t|]; [|by rewrite Nat.sub_diag].
    destruct (t <=? _)%Z; [|by rewrite Nat.sub_diag].
    unfold queue_of. simpl. rewrite lookup_delete_eq. simpl.
    by rewrite Nat.sub_0_r, drop_all.
Qed.

Definition demo_calls : list task_call :=
  [Push "one"; Push "two"; Pull; Push "three"; Pull; Pull; Pull].
Definition demo_tasks : list (Result task_reply * list turn) * conn :=
  run_calls "bob" (served (task_queue_key "bob")) (served_turns (task_queue_key "bob")) demo_calls no_conn.

Lemma task_queue_fifo_witness :
  map fst demo_tasks.1 = map Ok [Pushed 1; Pushed 2; Pulled (Some "one"); Pushed 2;
    Pulled (Some "two"); Pulled (Some "three"); Pulled None] ∧
  ∃ made answers, length made = 7 ∧
    fifo (zip (zip demo_calls made) (map snd demo_tasks.1)) []
      = (answers, queue_of (cn_db demo_tasks.2) (task_queue_key "bob")) ∧
    Forall3 agrees (map fst demo_tasks.1) made answers.
Proof.
  split; [by vm_compute|].
  apply (task_queue_fifo "bob" (served (task_queue_key "bob")) (served_turns (task_queue_key "bob"))
    no_conn demo_calls demo_tasks.1 demo_tasks.2);
    [apply served_tasks|by vm_compute|apply surjective_pairing].
Defined.
