(* ===== verification/OpsProps.v ===== *)
(** * OpsProps: typed operations

    A batch is checked as its items would be alone; threads keep their members a set;
    an agent's subscriptions are listed. *)

From Stdlib Require Import ZArith Lia Ascii.
From stdpp Require Import base option list strings gmap sorting.
From S2P Require Import Prelude Str Json Validation McpSchema ClaimTypes Outbox Redis.
From S2P Require Import Channels Messages StreamEntry ReplayScript OutboxHub SyncStore StreamFacts.
From S2P Require Import Bus Inbox Ops BusFacts ChannelProps SummaryProps ClaimInstances HubInstances SyncInstances BusInstances.

(** ** Checking a batch *)

(** The error names the item. *)
Definition names_item (k : nat) (e : AgentBusError) : Prop :=
  ∃ t, e = InvalidParams ("item " +:+ dec (Z.of_nat k) +:+ ": " +:+ t) ∨
       e = Internal ("item " +:+ dec (Z.of_nat k) +:+ ": schema validation failed: " +:+ t).

Section batch.
Context `{UnicodeCase} (transport : string).

(** What a checked item is: what the item would have been sent as. *)
Definition sent_as (i : ValidatedItem) (p : CheckedBatchSendPayload) : Prop :=
  ∃ b, checked_send transport i = Ok (b, cp_schema p) ∧ cp_payload p = with_plain_metadata b ∧
    validate_message_schema (bp_body b) (schema_as_str <$> cp_schema p) = Ok tt.

Lemma checked_fields_verdict i p schema verdict : checked_fields transport i = Ok (p, schema, verdict) →
  verdict = validate_message_schema (bp_body p) (schema_as_str <$> schema).
Proof.
  unfold checked_fields. repeat setoid_rewrite rbind_Ok.
  intros (? & _ & s & _ & r & _ & t & _ & b & _ & sc & _ & E). by injection E as <- <- <-.
Qed.

Lemma checked_item_cases k i :
  match checked_item transport k i with
  | Ok p => sent_as i p
  | Err e => is_ok (checked_send transport i) = false ∧ names_item k e
  end.
Proof.
  unfold checked_item, sent_as, checked_send.
  destruct (checked_fields transport i) as [[[p schema] verdict]|e] eqn:E; simpl.
  - apply checked_fields_verdict in E as ->.
    destruct (validate_message_schema _ _) as [[]|e] eqn:Ev; simpl.
    + by exists p.
    + split; [done|]. eexists. by right.
  - split; [done|]. eexists. by left.
Qed.

Lemma checked_items_cases items : ∀ n,
  match checked_items transport n items with
  | Ok ps => Forall2 sent_as items ps
  | Err e => ∃ k i, items !! k = Some i ∧ is_ok (checked_send transport i) = false ∧
      (∀ j i', j < k → items !! j = Some i' → is_ok (checked_send transport i') = true) ∧
      names_item (n + k) e
  end.
Proof.
  induction items as [|i items IH]; intros n; simpl; [constructor|].
  pose proof (checked_item_cases n i) as Hi. destruct (checked_item transport n i) as [p|e]; simpl.
  - specialize (IH (S n)). destruct (checked_items transport (S n) items) as [ps|e]; simpl.
    + by constructor.
    + destruct IH as (k & i' & Hk & Hbad & Hgood & Hn). exists (S k), i'. split_and!; [done|done| |].
      * intros [|j] x Hj Hx; simpl in Hx; [|apply (Hgood j); [lia|done]].
        injection Hx as <-. destruct Hi as (b & Eb & _). by rewrite Eb.
      * by rewrite Nat.add_succ_r.
  - destruct Hi as [Hbad Hn]. exists 0, i. split_and!; [done|done| |by rewrite Nat.add_0_r].
    intros j x Hj. lia.
Qed.
End batch.

(** A batch is accepted exactly when each of its items would be accepted alone, and
    each is sent as it would have been - but that a null metadata becomes an empty
    object - with a body its schema admits; otherwise nothing at all is sent, and the
    error names the first item that would have been refused. *)
Theorem batch_accepts `{UnicodeCase} `{Chrono} `{StoreText} `{BodyCodec} `{!EntryText} `{HubText}
    `{!BusText} (s : BusSettings) (transport : string) (items : list ValidatedItem)
    (pg_writer sse : bool) (env : bus_env) (c : conn) :
  match checked_items transport 0 items with
  | Ok ps =>
      Forall2 (sent_as transport) items ps ∧
      validated_batch_send s transport items pg_writer sse env c =
        bus_post_messages_batch_with_schema s ps pg_writer sse env c
  | Err e =>
      validated_batch_send s transport items pg_writer sse env c = (Err e, c) ∧
      ∃ k i, items !! k = Some i ∧ is_ok (checked_send transport i) = false ∧
        (∀ j i', j < k → items !! j = Some i' → is_ok (checked_send transport i') = true) ∧
        names_item k e
  end.
Proof.
  pose proof (checked_items_cases transport items 0) as Hc. unfold validated_batch_send, bbind, bus_lift.
  by destruct (checked_items transport 0 items).
Qed.

(** ** Threads *)

Class OpsTextLaws `{OpsText} := {
  thread_reads t : thread_of_text (thread_text t) = Ok t;
  subscription_reads s : subscription_of_text (subscription_text s) = Some s;
}.

Inductive thread_call : Type := Join (agent : string) | Leave (agent : string) | Close.

Definition thread_effect (k : thread_call) (t : Thread) : Thread :=
  match k with
  | Join a => add_member a t
  | Leave a => drop_member a t
  | Close => with_status t Closed
  end.

Section threads.
Context `{Chrono} `{StoreText} `{BodyCodec} `{!EntryText} `{HubText} `{!BusText} `{OpsText}.
Context `{!OpsTextLaws}.

Definition thread_request (id : string) (k : thread_call) : bus Thread :=
  match k with
  | Join a => join_thread_record id a
  | Leave a => leave_thread_record id a
  | Close => close_thread_record id
  end.

(** Requests one after the other, whatever becomes of each. *)
Fixpoint run_thread (id : string) (ks : list thread_call) (env : bus_env) (c : conn)
    : list (thread_call * Result Thread) * conn :=
  match ks with
  | [] => ([], c)
  | k :: ks =>
      let '(r, c) := thread_request id k env c in
      let '(rs, c) := run_thread id ks env c in
      ((k, r) :: rs, c)
  end.

(** The requests that were answered. *)
Definition answered (rs : list (thread_call * Result Thread)) : list thread_call :=
  map fst (List.filter (λ kr, is_ok kr.2) rs).

(** The record at the thread's key: kept without expiry. *)
Definition holds (id : string) (t : Thread) (d : hubdb) : Prop :=
  hd_keys d !! thread_key id = Some (mkEntry (VString (thread_text t)) None).

Definition leave_alone (key : string) (env : bus_env) : Prop :=
  ∀ i d, hd_keys (tn_others (env i) d) !! key = hd_keys d !! key.

Context (id : string) (env : bus_env) (Henv : leave_alone (thread_key id) env).

Lemma load_holds t c r c' : holds id t (cn_db c) → load_thread id env c = (r, c') →
  holds id t (cn_db c') ∧ ∀ x, r = Ok x → x = t.
Proof.
  intros Ht. unfold load_thread, bbind, command, raw_command.
  set (d := tn_others _ _). assert (holds id t d) as Hd by (unfold holds, d; by rewrite Henv).
  set (m := let$ v := redis_GET _ in _). set (e := tn_lua _).
  assert (m (mkLuaState d e) = (Ok (thread_text t), mkLuaState d e)) as Em.
  { unfold m, redis_GET, lbind, lread, live_entry. cbn. by rewrite Hd. }
  destruct (attempt _ m e d) as [r0 d0] eqn:Ea. apply attempt_cases in Ea.
  assert (d0 = d ∧ ∀ v, r0 = Ok v → v = thread_text t) as [-> Hv].
  { destruct Ea as [(_ & -> & Hr)|(r1 & st & E1 & -> & Hr)].
    - split; [done|]. by intros v ->.
    - rewrite Em in E1. injection E1 as <- <-. split; [done|]. intros v ->. by destruct Hr as [[= ->]|]. }
  destruct r0 as [v|e0]; cbn; [|intros [= <- <-]; by split].
  rewrite (Hv v), thread_reads by done. intros [= <- <-]. split; [done|]. by intros x [= <-].
Qed.

Lemma update_holds f t c r c' : holds id t (cn_db c) → update_thread id f env c = (r, c') →
  (holds id t (cn_db c') ∧ is_ok r = false) ∨
  (holds id (f t) (cn_db c') ∧ ∀ x, r = Ok x → x = f t).
Proof.
  intros Ht. unfold update_thread, bbind at 1. destruct (load_thread id env c) as [r0 c1] eqn:El.
  destruct (load_holds t c r0 c1 Ht El) as [Ht1 Hr0].
  destruct r0 as [x|e]; [|intros [= <- <-]; by left]. rewrite (Hr0 x) by done.
  unfold bbind, command, raw_command. set (d := tn_others _ _).
  assert (holds id t d) as Hd by (unfold holds, d; by rewrite Henv).
  destruct (attempt _ _ _ d) as [r1 d1] eqn:Ea.
  apply attempt_cases in Ea as [(_ & -> & Hr)|(r2 & st & E2 & -> & Hr)].
  { destruct r1; [done|]. intros [= <- <-]. by left. }
  unfold redis_SET, lwrite in E2. cbn in E2.
  destruct (lua_writes _) as [[|n]|]; injection E2 as <- <-.
  { destruct Hr as [-> | Hr]; [|destruct r1; [done|]]; intros [= <- <-]; by left. }
  all: intros E; right; destruct r1; injection E as <- <-; split; try (by intros x' [= <-]);
    unfold holds; simpl; by rewrite lookup_insert_eq.
Qed.

Lemma request_holds k t c r c' : holds id t (cn_db c) → thread_request id k env c = (r, c') →
  (holds id t (cn_db c') ∧ is_ok r = false) ∨
  (holds id (thread_effect k t) (cn_db c') ∧ ∀ x, r = Ok x → x = thread_effect k t).
Proof. destruct k; apply update_holds. Qed.

Lemma run_holds ks : ∀ t c rs c', holds id t (cn_db c) → run_thread id ks env c = (rs, c') →
  ∃ done, answered rs `sublist_of` done ∧ done `sublist_of` ks ∧
    holds id (foldl (λ t k, thread_effect k t) t done) (cn_db c').
Proof.
  induction ks as [|k ks IH]; intros t c rs c' Ht; cbn [run_thread].
  { intros [= <- <-]. by exists []. }
  destruct (thread_request id k env c) as [r c1] eqn:E1.
  destruct (run_thread id ks env c1) as [rs1 c2] eqn:E2. intros [= <- <-].
  destruct (request_holds k t c r c1 Ht E1) as [[Ht1 Hr]|[Ht1 _]];
    destruct (IH _ c1 rs1 c2 Ht1 E2) as (ds & Ha & Hs & Hd).
  - exists ds. split_and!; [unfold answered; simpl; by rewrite Hr|by apply sublist_cons|done].
  - exists (k :: ds). split_and!; [|by apply sublist_skip|done].
    unfold answered. simpl. destruct (is_ok r); [by apply sublist_skip|by apply sublist_cons].
Qed.
End threads.

(** What no request changes, and what they keep. *)
Definition thread_kept (t t' : Thread) : Prop :=
  th_thread_id t' = th_thread_id t ∧ th_created_by t' = th_created_by t ∧
  th_created_at t' = th_created_at t ∧ th_repo t' = th_repo t ∧ th_topic t' = th_topic t ∧
  (NoDup (th_members t) → NoDup (th_members t')) ∧
  (th_status t' = th_status t ∨ th_status t' = Closed).

Lemma effect_kept k t : thread_kept t (thread_effect k t).
Proof.
  destruct k as [a|a|]; cbn [thread_effect]; [| |by split_and!; auto].
  - unfold add_member. destruct (existsb _ _) eqn:E; [by split_and!; auto|].
    split_and!; auto. intros Hn. apply NoDup_app. split_and!; [done| |apply NoDup_singleton].
    intros x Hx ->%list_elem_of_singleton. apply not_true_iff_false in E. apply E.
    apply existsb_exists. exists a. split; [by apply list_elem_of_In|by apply bool_decide_eq_true_2].
  - split_and!; auto. intros Hn. cbn. apply NoDup_ListNoDup, List.NoDup_filter, NoDup_ListNoDup, Hn.
Qed.

Lemma kept_trans t t1 t' : thread_kept t t1 → thread_kept t1 t' → thread_kept t t'.
Proof.
  intros (E1 & E2 & E3 & E4 & E5 & Hn & Hs) (F1 & F2 & F3 & F4 & F5 & Hn' & Hs').
  split_and!; try congruence; [by auto|]. destruct Hs' as [-> | ->]; auto.
Qed.

Lemma effects_kept ds : ∀ t, thread_kept t (foldl (λ t k, thread_effect k t) t ds).
Proof.
  induction ds as [|k ds IH]; intros t; [by split_and!; auto|].
  eapply kept_trans; [apply (effect_kept k)|apply IH].
Qed.

(** Who is a member is decided by the last join or leave of that agent. *)
Definition last_says (a : string) (before : bool) (ds : list thread_call) : bool :=
  foldl (λ b k, match k with
                | Join x => if bool_decide (x = a) then true else b
                | Leave x => if bool_decide (x = a) then false else b
                | Close => b
                end) before ds.

Lemma effect_member a k t : bool_decide (a ∈ th_members (thread_effect k t)) =
  match k with
  | Join x => if bool_decide (x = a) then true else bool_decide (a ∈ th_members t)
  | Leave x => if bool_decide (x = a) then false else bool_decide (a ∈ th_members t)
  | Close => bool_decide (a ∈ th_members t)
  end.
Proof.
  destruct k as [x|x|]; cbn [thread_effect]; [| |done].
  - unfold add_member. destruct (existsb _ _) eqn:E.
    + apply existsb_exists in E as (y & Hy%list_elem_of_In & ->%bool_decide_eq_true).
      destruct (bool_decide_reflect (x = a)) as [<-|]; [by apply bool_decide_eq_true_2|done].
    + cbn. destruct (bool_decide_reflect (x = a)) as [->|Hne].
      * apply bool_decide_eq_true_2, elem_of_app. right. by left.
      * apply bool_decide_ext. rewrite elem_of_app, list_elem_of_singleton. naive_solver.
  - cbn. destruct (bool_decide_reflect (x = a)) as [->|Hne].
    + apply bool_decide_eq_false_2. intros [_ Hx]%elem_of_filter_b. by rewrite bool_decide_eq_true_2 in Hx.
    + apply bool_decide_ext. rewrite elem_of_filter_b. rewrite bool_decide_eq_false_2 by done. naive_solver.
Qed.

Lemma effects_member a ds : ∀ t, bool_decide (a ∈ th_members (foldl (λ t k, thread_effect k t) t ds)) =
  last_says a (bool_decide (a ∈ th_members t)) ds.
Proof.
  induction ds as [|k ds IH]; intros t; [done|]. simpl. rewrite IH, effect_member. by destruct k.
Qed.

(** Requests to a thread made one after the other, each answered or lost: those that
    took effect are some of them, in order, with every answered one among them; the
    members stay distinct and are decided by each agent's last join or leave that took
    effect; a closed thread is never reopened, and nothing else of the thread changes. *)
Theorem thread_requests_effect `{Chrono} `{StoreText} `{BodyCodec} `{!EntryText} `{HubText} `{!BusText}
    `{OpsText} `{!OpsTextLaws} (id : string) (env : bus_env) (c : conn) (t : Thread)
    (ks : list thread_call) (rs : list (thread_call * Result Thread)) (c' : conn) :
  leave_alone (thread_key id) env → holds id t (cn_db c) → NoDup (th_members t) →
  run_thread id ks env c = (rs, c') →
  ∃ ds t', answered rs `sublist_of` ds ∧ ds `sublist_of` ks ∧ holds id t' (cn_db c') ∧
    NoDup (th_members t') ∧ thread_kept t t' ∧
    ∀ a, bool_decide (a ∈ th_members t') = last_says a (bool_decide (a ∈ th_members t)) ds.
Proof.
  intros Henv Ht Hnd E. destruct (run_holds id env Henv ks t c rs c' Ht E) as (ds & Ha & Hs & Hd).
  exists ds, (foldl (λ t k, thread_effect k t) t ds). pose proof (effects_kept ds t) as Hk.
  exact (conj Ha (conj Hs (conj Hd (conj (proj1 (proj2 (proj2 (proj2 (proj2 (proj2 Hk))))) Hnd)
    (conj Hk (λ a, effects_member a ds t)))))).
Qed.

#[local] Existing Instances bit_chrono bit_store bit_compression bus_entry bus_hub bit_bus bit_ops.

Lemma bit_ops_laws : OpsTextLaws.
Proof. constructor; [apply bit_thread_text|apply bit_sub_text]. Qed.

Definition demo_thread : Thread := mkThread "t1" "alice" "" ["alice"] None None Open.

Definition thread_conn (t : Thread) : conn :=
  mkConn (mkHubDb {[ thread_key (th_thread_id t) := mkEntry (VString (thread_text t)) None ]} [] []) 0 [] [].

Definition demo_requests : list thread_call := [Join "bob"; Close; Leave "alice"; Join "bob"].

Lemma thread_requests_effect_witness :
  length (answered (run_thread "t1" demo_requests alone (thread_conn demo_thread)).1) = 4 ∧
  ∃ t', holds "t1" t' (cn_db (run_thread "t1" demo_requests alone (thread_conn demo_thread)).2) ∧
    NoDup (th_members t').
Proof.
  split; [by vm_compute|].
  destruct (@thread_requests_effect _ _ _ _ _ _ _ bit_ops_laws "t1" alone (thread_conn demo_thread)
    demo_thread demo_requests (run_thread "t1" demo_requests alone (thread_conn demo_thread)).1
    (run_thread "t1" demo_requests alone (thread_conn demo_thread)).2)
    as (ds & t' & _ & _ & Ht & Hn & _); [by intros i d|by vm_compute|repeat constructor; set_solver
    |apply surjective_pairing|by exists t'].
Defined.

(** Another client's whole operation, between two commands of this one. *)
Definition meanwhile {A} (m : bus A) (d : hubdb) : hubdb := cn_db (m alone (mkConn d 0 [] [])).2.

Definition between (step : nat) (others : hubdb → hubdb) : bus_env := λ i,
  quiet_turn (if (i =? step)%nat then others else (λ d, d)) i.

Definition members_at (id : string) (d : hubdb) : list string :=
  match (get_thread_record id alone (mkConn d 0 [] [])).1 with
  | Ok (Some t) => th_members t
  | _ => []
  end.

(** Two joins at once: both are answered, one is gone. *)
Lemma simultaneous_joins_lose_one :
  let c' := join_thread_record "t1" "bob" (between 1 (meanwhile (join_thread_record "t1" "carol")))
              (thread_conn demo_thread) in
  is_ok (join_thread_record "t1" "carol" alone (thread_conn demo_thread)).1 = true ∧
  is_ok c'.1 = true ∧ members_at "t1" (cn_db c'.2) = ["alice"; "bob"].
Proof. by vm_compute. Qed.

(** Two creations of one thread: both are answered, the second replaces the first. *)
Lemma simultaneous_creations_both_succeed :
  let c' := create_thread_record demo_thread
              (between 1 (meanwhile (create_thread_record (mkThread "t1" "dave" "" ["dave"] None None Open))))
              no_conn in
  is_ok c'.1 = true ∧ members_at "t1" (cn_db c'.2) = ["alice"].
Proof. by vm_compute. Qed.

(** ** Subscriptions *)

(** Nobody else is there, time stands still and the scan gives the keys in any order and
    any number of times. *)
Record still_env (env : bus_env) (now : Z) : Prop := {
  st_others i d : tn_others (env i) d = d;
  st_how i : tn_how (env i) = Delivered;
  st_now i : lua_now (tn_lua (env i)) = now;
  st_scan i l k : k ∈ tn_scan (env i) l ↔ k ∈ l;
}.

Section subscriptions.
Context `{Chrono} `{StoreText} `{BodyCodec} `{!EntryText} `{HubText} `{!BusText} `{OpsText}.
Context `{!OpsTextLaws}.

(** What is under the prefix was saved there, by agents whose names have no colon. *)
Definition saved (d : hubdb) : Prop := ∀ k e, hd_keys d !! k = Some e →
  starts_with k SUBSCRIPTION_KEY_PREFIX = true →
  ∃ s, e_value e = VString (subscription_text s) ∧ k = subscription_key (sb_agent s) (sb_id s) ∧
    contains_char (sb_agent s) ":" = false.

Definition live_sub (d : hubdb) (now : Z) (s : Subscription) : Prop :=
  live_entry d now (subscription_key (sb_agent s) (sb_id s)) = Some (VString (subscription_text s)).

Lemma get_each_still {A} what (decode : string → option A) env now : still_env env now → ∀ ks c,
  (∀ k, k ∈ ks → ∃ v, live_entry (cn_db c) now k = Some (VString v)) →
  ∃ c', get_each what decode ks env c =
    (Ok (omap (λ k, match live_entry (cn_db c) now k with
                    | Some (VString v) => decode v
                    | _ => None
                    end) ks), c') ∧ cn_db c' = cn_db c.
Proof.
  intros [Ho Hd Hn _]. induction ks as [|k ks IH]; intros c Hk; [by exists c|]. cbn [get_each].
  destruct (Hk k ltac:(by left)) as [v Ev].
  assert (command what (redis_GET k) env c = (Ok (Some v), advance c (cn_db c))) as Eg.
  { unfold command, raw_command. rewrite Hd, Ho. cbn [attempt].
    unfold redis_GET, lread. cbn. by rewrite Hn, Ev. }
  unfold bbind at 1. rewrite Eg. cbn.
  destruct (IH (advance c (cn_db c))) as (c' & E & Ec); [by intros k' Hk'; apply Hk; right|].
  exists c'. unfold bbind. rewrite E. cbn. rewrite Ev. split; [|done]. by destruct (decode v).
Qed.

Lemma subscription_prefix agent s : contains_char agent ":" = false →
  contains_char (sb_agent s) ":" = false →
  starts_with (subscription_key (sb_agent s) (sb_id s)) (SUBSCRIPTION_KEY_PREFIX +:+ agent +:+ ":") = true ↔
    sb_agent s = agent.
Proof.
  intros Ha Hs. rewrite starts_with_spec. unfold subscription_key. split.
  - intros [t E]. rewrite !string_app_assoc in E.
    apply (string_app_inj_l SUBSCRIPTION_KEY_PREFIX) in E. by apply colon_inj in E as [-> _].
  - intros ->. exists (sb_id s). by rewrite !string_app_assoc.
Qed.

Lemma sub_prefix_prefix agent k : starts_with k (SUBSCRIPTION_KEY_PREFIX +:+ agent +:+ ":") = true →
  starts_with k SUBSCRIPTION_KEY_PREFIX = true.
Proof. rewrite !starts_with_spec. intros [t ->]. eexists. by rewrite !string_app_assoc. Qed.

Lemma elem_of_live_keys prefix d now k :
  k ∈ live_keys prefix d now ↔ starts_with k prefix = true ∧ is_Some (live_entry d now k).
Proof.
  unfold live_keys. rewrite elem_of_filter_b, andb_true_iff, bool_decide_eq_true.
  split; [naive_solver|]. intros [Hp Hl]. split; [|done].
  unfold live_entry in Hl. destruct (hd_keys d !! k) as [e|] eqn:Ek; [|by destruct Hl].
  apply list_elem_of_fmap. exists (k, e). split; [done|by apply elem_of_map_to_list].
Qed.

(** Every key a scan of one agent gives holds a subscription saved there. *)
Lemma scanned_saved d now agent k : saved d → contains_char agent ":" = false →
  k ∈ live_keys (SUBSCRIPTION_KEY_PREFIX +:+ agent +:+ ":") d now →
  ∃ s, k = subscription_key (sb_agent s) (sb_id s) ∧ live_sub d now s ∧ sb_agent s = agent.
Proof.
  intros Hsv Ha [Hp Hl]%elem_of_live_keys. unfold live_entry in Hl.
  destruct (hd_keys d !! k) as [e|] eqn:Ek; [|by destruct Hl].
  destruct (Hsv k e Ek (sub_prefix_prefix _ _ Hp)) as (s & Ev & -> & Hc). exists s. split; [done|].
  split; [|by apply subscription_prefix in Hp]. unfold live_sub, live_entry. rewrite Ek.
  destruct (e_until e) as [t|]; [|by rewrite Ev]. destruct (t <=? now)%Z; [by destruct Hl|by rewrite Ev].
Qed.
End subscriptions.

(** For agent names free of colons, an agent is given exactly its own subscriptions:
    those saved under its name that have not expired, oldest first. *)
Theorem subscriptions_listed `{Chrono} `{StoreText} `{BodyCodec} `{!EntryText} `{HubText} `{!BusText}
    `{OpsText} `{!OpsTextLaws} (agent : string) (env : bus_env) (now : Z) (c : conn) :
  still_env env now → saved (cn_db c) → contains_char agent ":" = false →
  ∃ subs c', list_subscriptions_record agent env c = (Ok subs, c') ∧
    StronglySorted (λ a b, str_le (sb_created_at a) (sb_created_at b) = true) subs ∧
    ∀ s, s ∈ subs ↔ live_sub (cn_db c) now s ∧ sb_agent s = agent ∧
                     contains_char (sb_agent s) ":" = false.
Proof.
  intros Hst Hsv Ha. pose proof Hst as [Ho Hd Hn Hs].
  set (prefix := SUBSCRIPTION_KEY_PREFIX +:+ agent +:+ ":"). set (d := cn_db c).
  set (keys := tn_scan (env (cn_step c)) (live_keys prefix d now)).
  assert (∀ k, k ∈ keys → ∃ s, k = subscription_key (sb_agent s) (sb_id s) ∧ live_sub d now s ∧
            sb_agent s = agent) as Hkeys by (intros k Hk%Hs; by apply scanned_saved).
  destruct (get_each_still "GET subscription failed" subscription_of_text env now Hst keys (advance c d))
    as (c' & E & _); [intros k Hk; destruct (Hkeys k Hk) as (s & -> & Hl & _); by eexists|].
  eexists _, c'. split; [|split].
  - unfold list_subscriptions_record, bbind, scan_keys, command, raw_command.
    rewrite Hd, Ho. cbn [attempt]. unfold lread. cbn -[get_each sort_by live_keys].
    rewrite Hn. fold prefix d keys. rewrite E. done.
  - apply sort_by_sorted; [intros a b; apply String.leb_total|intros a b x; apply str_le_trans].
  - intros s. rewrite elem_of_sort_by, list_elem_of_omap. cbn. split.
    + intros (k & Hk & Ek). destruct (Hkeys k Hk) as (s' & -> & Hl & Hag). pose proof Hl as Hl'.
      unfold live_sub in Hl'. fold d in Hl'. rewrite Hl', subscription_reads in Ek. injection Ek as <-.
      split; [done|]. split; [done|]. by rewrite Hag.
    + intros (Hl & Hag & Hc). exists (subscription_key (sb_agent s) (sb_id s)). split.
      * apply Hs, elem_of_live_keys. split; [|by eexists]. by apply subscription_prefix.
      * unfold live_sub in Hl. fold d in Hl. by rewrite Hl, subscription_reads.
Qed.

(** ** Two agents' subscriptions *)

Definition demo_sub (agent sub_id at_ : string) : Subscription :=
  mkSub sub_id agent (mkScopes ["hub"] [] [] [] [] None []) at_ None None.

Definition subs_conn (l : list Subscription) : conn :=
  mkConn (mkHubDb (list_to_map (map (λ s, (subscription_key (sb_agent s) (sb_id s),
    mkEntry (VString (subscription_text s)) None)) l)) [] []) 0 [] [].

(** Time stands still. *)
Definition frozen : bus_env := λ _, quiet_turn (λ d, d) 0.

Lemma subs_saved l : Forall (λ s, contains_char (sb_agent s) ":" = false) l → saved (cn_db (subs_conn l)).
Proof.
  rewrite Forall_forall. intros Hl k e Hk _.
  apply elem_of_list_to_map_2, list_elem_of_fmap in Hk as (s & [= -> ->] & Hs). exists s.
  split; [done|]. split; [done|by apply Hl].
Qed.

Lemma subscriptions_listed_witness : ∃ subs c',
  list_subscriptions_record "bob" frozen
    (subs_conn [demo_sub "bob" "2" "20"; demo_sub "carol" "3" "15"; demo_sub "bob" "1" "10"]) = (Ok subs, c') ∧
  ∀ s, s ∈ subs → sb_agent s = "bob".
Proof.
  destruct (@subscriptions_listed _ _ _ _ _ _ _ bit_ops_laws "bob" frozen 3600000
    (subs_conn [demo_sub "bob" "2" "20"; demo_sub "carol" "3" "15"; demo_sub "bob" "1" "10"]))
    as (subs & c' & E & _ & Hin).
  - by split.
  - apply subs_saved. by repeat constructor.
  - done.
  - exists subs, c'. split; [exact E|]. intros s Hs%Hin. by destruct Hs as (_ & -> & _).
Defined.

(** An agent's name with a colon: another agent is given its subscriptions. *)
Lemma colon_agent_shared :
  match (list_subscriptions_record "bob" frozen (subs_conn [demo_sub "bob:x" "1" "10"])).1 with
  | Ok subs => map sb_agent subs = ["bob:x"]
  | Err _ => False
  end.
Proof. by vm_compute. Qed.
