(* ===== verification/Tokens.v ===== *)
(** * Tokens: a context that fits a budget

    [token.rs]: the estimate of a text's tokens, the short form of a message and the
    newest messages whose short forms fit a budget; and [compact_context] and
    [compact_thread] of [ops/inbox.rs], which compact a listing. *)

From Stdlib Require Import ZArith Lia Ascii.
From stdpp Require Import base option list strings.
From S2P Require Import Prelude Str Json Validation ClaimTypes Outbox Redis Channels Messages StreamEntry.
From S2P Require Import ReplayScript OutboxHub SyncStore Bus Inbox Ops.

(** ** Estimates *)

(** Braces, brackets, the quotation mark and the colon, by their codes. *)
Definition json_char (c : string) : bool :=
  match c with
  | String a "" => bool_decide (N_of_ascii a ∈ [123; 125; 91; 93; 34; 58]%N)
  | _ => false
  end.

(** [n.div_ceil(d)]. *)
Definition div_ceil (n d : Z) : Z := ((n + d - 1) / d)%Z.

Definition estimate_tokens (text : string) : Z :=
  if is_empty text then 0%Z
  else
    let total := Z.of_nat (length (chars text)) in
    let json_chars := Z.of_nat (length (List.filter json_char (chars text))) in
    let denominator := if (total * 15 <? json_chars * 100)%Z then 25%Z else 40%Z in
    div_ceil (total * 10) denominator.

Lemma div_ceil_spec n d : (0 < d)%Z → (d * (div_ceil n d - 1) < n ∧ n ≤ d * div_ceil n d)%Z.
Proof.
  intros Hd. unfold div_ceil. pose proof (Z.div_mod (n + d - 1) d ltac:(lia)).
  pose proof (Z.mod_pos_bound (n + d - 1) d Hd). nia.
Qed.

Lemma chars_empty s : chars s = [] → s = "".
Proof. destruct s as [|a s]; [done|]. simpl. destruct (chars s) as [|[|b c] cs]; try done. by destruct (byte_in _ _ b). Qed.

(** A text's tokens are between a quarter and two fifths of its characters, rounded up;
    only the empty text has none. *)
Lemma estimate_bounds s :
  let n := Z.of_nat (length (chars s)) in
  (n ≤ 4 * estimate_tokens s ∧ 5 * estimate_tokens s < 2 * n + 5 ∧ (s ≠ "" → 1 ≤ estimate_tokens s))%Z.
Proof.
  unfold estimate_tokens. destruct s as [|a s]; [simpl; split_and!; [lia|lia|done]|].
  assert (0 < length (chars (String a s))) as Hn.
  { destruct (chars (String a s)) eqn:E; [|simpl; lia]. by apply chars_empty in E. }
  revert Hn. generalize (chars (String a s)). intros l Hn.
  change (is_empty (String a s)) with false. cbv iota zeta.
  set (d := if (_ <? _)%Z then 25%Z else 40%Z). assert (d = 25 ∨ d = 40)%Z as Hd by (unfold d; case_match; auto). clearbody d.
  pose proof (div_ceil_spec (Z.of_nat (length l) * 10) d ltac:(lia)). destruct Hd as [-> | ->]; (split_and!; [lia|lia|intros _; lia]).
Qed.

(** ** The short form of a message *)

Definition put_some {A} (key : string) (f : A → json) (o : option A) (m : fields) : fields :=
  match o with Some a => insert key (f a) m | None => m end.

Definition include_meta (metadata : json) : bool :=
  match metadata with
  | JNull => false
  | JObj o => negb (bool_decide (o = []))
  | _ => true
  end.

Definition minimize_message (msg : Message) : json :=
  let map := insert "ts" (JStr (m_timestamp_utc msg)) [] in
  let map := insert "f" (JStr (m_from msg)) map in
  let map := insert "t" (JStr (m_to msg)) map in
  let map := insert "tp" (JStr (m_topic msg)) map in
  let map := insert "b" (JStr (m_body msg)) map in
  let map := if decide (m_priority msg = "normal") then map else insert "p" (JStr (m_priority msg)) map in
  let map := if m_request_ack msg then insert "ack" (JBool true) map else map in
  let map := put_some "rt" JStr (m_reply_to msg) map in
  let map := put_some "tid" JStr (m_thread_id msg) map in
  let map := match m_tags msg with [] => map | tags => insert "tg" (JArr (List.map JStr tags)) map end in
  JObj (if include_meta (m_metadata msg) then insert "m" (m_metadata msg) map else map).

(** ** Compaction *)

Section compaction.
Context `{StoreText}.

Definition cost (msg : Message) : Z := estimate_tokens (json_text (minimize_message msg)).

(** The loop, over the messages with their places from the newest. *)
Fixpoint collect (newest_first : list (nat * Message)) (budget : Z) (indices : list nat) : list nat :=
  match newest_first with
  | [] => indices
  | (i, msg) :: rest =>
      if bool_decide (indices = []) || (cost msg <=? budget)%Z
      then collect rest (Z.max 0 (budget - cost msg)) (indices ++ [i])
      else indices
  end.

(** An index out of range would panic. *)
Definition compact_context (messages : list Message) (max_tokens : Z) : list json :=
  let indices := collect (reverse (enumerate messages)) max_tokens [] in
  omap (λ i, minimize_message <$> messages !! i) (reverse indices).

Record CompactContextResult := mkCompact {
  cc_messages : list json;
  cc_token_count : Z;
  cc_truncated : bool;
}.

(** What [compact_context] and [compact_thread] of [ops/inbox.rs] make of a listing. *)
Definition compact_result (msgs : list Message) (max_tokens : Z) : CompactContextResult :=
  let compacted := compact_context msgs max_tokens in
  mkCompact compacted
    (foldr (λ v n, (estimate_tokens (json_text v) + n)%Z) 0%Z compacted)
    (length compacted <? length msgs).

Definition total_cost (messages : list Message) : Z := foldr (λ m n, (cost m + n)%Z) 0%Z messages.

Lemma total_cost_app l l' : total_cost (l ++ l') = (total_cost l + total_cost l')%Z.
Proof. unfold total_cost. induction l as [|m l IH]; simpl; lia. Qed.

Lemma enumerate_snoc (l : list Message) m : enumerate (l ++ [m]) = enumerate l ++ [(length l, m)].
Proof.
  unfold enumerate. assert (∀ n, enumerate_from n (l ++ [m]) = enumerate_from n l ++ [(n + length l, m)]) as E.
  { induction l as [|x l IH]; intros n; simpl; [by rewrite Nat.add_0_r|]. by rewrite IH, Nat.add_succ_comm. }
  apply E.
Qed.

Lemma lookups_tail older kept :
  omap (λ i, minimize_message <$> (older ++ kept) !! i) (seq (length older) (length kept)) =
  map minimize_message kept.
Proof.
  revert older. induction kept as [|m kept IH]; intros older; [done|]. cbn [length seq].
  cbn [omap list_omap]. rewrite list_lookup_middle by done. simpl. f_equal.
  specialize (IH (older ++ [m])). rewrite <- app_assoc, length_app, Nat.add_comm in IH. exact IH.
Qed.

(** Where the loop stops: the messages that are left, and those it took. *)
Lemma collect_suffix (Htext : ∀ v, json_text v ≠ "") : ∀ (older kept : list Message) (max : Z), (0 ≤ max)%Z →
  (length kept ≤ 1 ∨ (total_cost kept ≤ max)%Z) →
  let budget := Z.max 0 (max - total_cost kept) in
  ∃ older' mid, older = older' ++ mid ∧
    reverse (collect (reverse (enumerate older)) budget (reverse (seq (length older) (length kept)))) =
      seq (length older') (length (mid ++ kept)) ∧
    (older ++ kept ≠ [] → mid ++ kept ≠ []) ∧
    (length (mid ++ kept) ≤ 1 ∨ (total_cost (mid ++ kept) ≤ max)%Z) ∧
    (∀ l m, older' = l ++ [m] → max < total_cost (m :: mid ++ kept))%Z.
Proof.
  assert (∀ m, 1 ≤ cost m)%Z as Hcost by (intros m; apply estimate_bounds, Htext).
  intros older. induction older as [|m older IH] using rev_ind; intros kept max Hmax Hk budget.
  - exists [], []. simpl. rewrite reverse_involutive. split_and!; try done. by intros [].
  - rewrite enumerate_snoc, reverse_snoc, length_app, Nat.add_comm. cbn [length Nat.add collect].
    assert (reverse (seq (S (length older)) (length kept)) ++ [length older] =
            reverse (seq (length older) (length (m :: kept)))) as Ei by (cbn [length seq]; by rewrite reverse_cons).
    destruct (bool_decide (reverse (seq (S (length older)) (length kept)) = []) || (cost m <=? budget)%Z) eqn:Eb.
    + assert (length (m :: kept) ≤ 1 ∨ (total_cost (m :: kept) ≤ max)%Z) as Hk'.
      { apply orb_true_iff in Eb as [Eb%bool_decide_eq_true|Eb%Z.leb_le].
        - left. apply (f_equal length) in Eb. rewrite length_reverse, length_seq in Eb. simpl in *. lia.
        - right. specialize (Hcost m). cbn [total_cost foldr] in *. subst budget. unfold total_cost in *. lia. }
      specialize (IH (m :: kept) max Hmax Hk') as (older' & mid & -> & Er & Hne & Hb & Hl).
      exists older', (mid ++ [m]). rewrite <- !app_assoc. cbn [app].
      split_and!; try done; [|intros _ E; by destruct mid].
      rewrite Ei. replace (Z.max 0 (budget - cost m)) with (Z.max 0 (max - total_cost (m :: kept))); [exact Er|].
      specialize (Hcost m). subst budget. cbn [total_cost foldr]. fold (total_cost kept). lia.
    + apply orb_false_iff in Eb as [Eb%bool_decide_eq_false Ec%Z.leb_gt].
      exists (older ++ [m]), []. rewrite app_nil_r, length_app, Nat.add_comm. cbn [length Nat.add app].
      rewrite reverse_involutive. split_and!; try done.
      * intros _ ->. by apply Eb.
      * intros l x [-> ->]%app_inj_tail. cbn [total_cost foldr]. fold (total_cost kept). subst budget. lia.
Qed.

(** C38. Compaction keeps, in their order, the short forms of the newest messages: at least
    one of any, and unless it is one alone, as many as fit the budget. The next older one
    does not fit. (The text of a value is never empty.) *)
Theorem compact_newest messages max_tokens :
  (∀ v, json_text v ≠ "") → (0 ≤ max_tokens)%Z →
  ∃ older kept, messages = older ++ kept ∧
    compact_context messages max_tokens = map minimize_message kept ∧
    (messages ≠ [] → kept ≠ []) ∧
    (length kept ≤ 1 ∨ (total_cost kept ≤ max_tokens)%Z) ∧
    (∀ older' m, older = older' ++ [m] → max_tokens < total_cost (m :: kept))%Z.
Proof.
  intros Htext Hmax.
  destruct (collect_suffix Htext messages [] max_tokens Hmax) as (older & kept & -> & Er & Hne & Hb & Hl); [left; simpl; lia|].
  rewrite !app_nil_r in *. exists older, kept. split_and!; try done.
  - unfold compact_context. change (reverse (seq _ (length []))) with (@nil nat) in Er.
    replace (Z.max 0 (max_tokens - total_cost [])) with max_tokens in Er by (cbn; lia).
    rewrite Er. apply lookups_tail.
Qed.
End compaction.

(** ** Listings *)

Section listings.
Context `{Chrono} `{StoreText} `{BodyCodec} `{!EntryText} `{HubText} `{!BusText}.

Definition FETCH_LIMIT : nat := 500.

(** [ops::compact_context]; the topic of the request's filters is not used. *)
Definition compact_live (fuel : nat) (s : BusSettings) (agent : option string) (f : MessageFilters)
    (since_minutes max_tokens : Z) : bus (option CompactContextResult) :=
  let+ msgs := list_messages_live fuel s agent None since_minutes FETCH_LIMIT true
    (mkFilters (mf_repo f) (mf_session f) (mf_tags f) (mf_thread_id f) None) in
  bret ((λ msgs, compact_result msgs max_tokens) <$> msgs).

Definition compact_thread (fuel : nat) (s : BusSettings) (thread_id : string)
    (token_budget since_minutes : Z) (limit : nat) : bus (option CompactContextResult) :=
  let+ msgs := list_messages_live fuel s None None since_minutes limit true
    (mkFilters None None [] (Some thread_id) None) in
  bret ((λ msgs, compact_result msgs token_budget) <$> msgs).
End listings.

(** ** At concrete messages *)

Definition listed_store : StoreText :=
  {| json_text v := String "=" (pos_text (countable.encode v));
     strings_text _ := "";
     presence_of_text _ := None |}.

#[local] Existing Instance listed_store.

Definition said (id body : string) : Message :=
  mkMessage id "t" "1.0" "alice" "bob" "status" body None [] "normal" false None JNull None None None None
    None None.

Definition conversation : list Message := [said "a" "one"; said "b" "two"; said "c" "three"].

Lemma compact_newest_witness :
  (0 ≤ cost (said "c" "three") + cost (said "b" "two"))%Z ∧
  ∃ older kept, conversation = older ++ kept ∧
    compact_context conversation (cost (said "c" "three") + cost (said "b" "two")) = map minimize_message kept ∧
    kept ≠ [].
Proof.
  assert (0 ≤ cost (said "c" "three") + cost (said "b" "two"))%Z as Hm by (vm_compute; discriminate).
  split; [exact Hm|].
  destruct (compact_newest conversation (cost (said "c" "three") + cost (said "b" "two")))
    as (older & kept & E & Ec & Hn & _).
  - intros v. discriminate.
  - exact Hm.
  - exists older, kept. split; [exact E|]. split; [exact Ec|]. apply Hn. discriminate.
Defined.

Example compacted_two :
  compact_context conversation (cost (said "c" "three") + cost (said "b" "two")) =
    [minimize_message (said "b" "two"); minimize_message (said "c" "three")] ∧
  compact_context conversation 1 = [minimize_message (said "c" "three")].
Proof. vm_compute. split; reflexivity. Qed.
