(* ===== verification/PgWriter.v ===== *)
(** * PgWriter: the background writer of PostgreSQL

    The second half of [postgres_store.rs]: the channel, the task that batches and
    writes, flushing and shutting down. Senders and the task run side by side: a send
    first counts itself as pending and then enters the channel; the task takes one
    request at a time. A flush of the batch does not look at the channel, so what
    senders do meanwhile comes after it. *)

From Stdlib Require Import ZArith Lia Ascii.
From stdpp Require Import base option list strings gmap.
From S2P Require Import Prelude Str Json Validation ClaimTypes Redis Channels.
From S2P Require Import OutboxHub SyncStore PgStore.

Definition PG_BATCH_SIZE : nat := 20.

(** A completion signal is a number, one for each flush that waits. *)
Inductive PgWriteRequest : Type :=
  | WriteMessage (m : Message)
  | WritePresence (p : Presence)
  | WriteFlush (completion : option nat)
  | WriteShutdown.

Definition is_write (r : PgWriteRequest) : bool :=
  match r with WriteMessage _ | WritePresence _ => true | _ => false end.

(** The task: in its loop, emptying the channel after a shutdown, past that, about to
    return, and gone with the receiving end. *)
Inductive task_mode : Type := Looping | Draining | Closing | Returning | Gone.

#[export] Instance task_mode_eq_dec : EqDecision task_mode.
Proof. solve_decision. Defined.

(** [wr_begun] are the sends between their two halves. The last four fields record what
    happened: writes that entered the channel, writes tried with their success, writes
    in the channel when it closed, and for each waiting flush how many writes had
    entered the channel before it. *)
Record writer := mkWriter {
  wr_queue : list PgWriteRequest;
  wr_senders : bool;
  wr_mode : task_mode;
  wr_batch : list PgWriteRequest;
  wr_pending : Z;
  wr_completed : list nat;
  wr_begun : list PgWriteRequest;
  wr_world : pg_world;
  wr_accepted : list PgWriteRequest;
  wr_settled : list (PgWriteRequest * bool);
  wr_abandoned : list PgWriteRequest;
  wr_marks : list (nat * nat);
}.

Definition spawn (world : pg_world) : writer :=
  mkWriter [] true Looping [] 0 [] [] world [] [] [] [].

(** [AtomicU64]: additions and subtractions wrap. *)
Definition wrap64 (z : Z) : Z := z mod (U64_MAX + 1).

Definition with_queue (w : writer) (q : list PgWriteRequest) : writer :=
  mkWriter q (wr_senders w) (wr_mode w) (wr_batch w) (wr_pending w) (wr_completed w) (wr_begun w)
    (wr_world w) (wr_accepted w) (wr_settled w) (wr_abandoned w) (wr_marks w).
Definition with_mode (w : writer) (mode : task_mode) : writer :=
  mkWriter (wr_queue w) (wr_senders w) mode (wr_batch w) (wr_pending w) (wr_completed w) (wr_begun w)
    (wr_world w) (wr_accepted w) (wr_settled w) (wr_abandoned w) (wr_marks w).
Definition with_batch (w : writer) (batch : list PgWriteRequest) : writer :=
  mkWriter (wr_queue w) (wr_senders w) (wr_mode w) batch (wr_pending w) (wr_completed w) (wr_begun w)
    (wr_world w) (wr_accepted w) (wr_settled w) (wr_abandoned w) (wr_marks w).
Definition with_completed (w : writer) (cs : list nat) : writer :=
  mkWriter (wr_queue w) (wr_senders w) (wr_mode w) (wr_batch w) (wr_pending w) cs (wr_begun w)
    (wr_world w) (wr_accepted w) (wr_settled w) (wr_abandoned w) (wr_marks w).

(** ** Counters *)

Definition count_queued (m : PgWriteMetrics) : PgWriteMetrics :=
  mkPgMetrics (wrap64 (mt_messages_queued m + 1)) (mt_messages_written m) (mt_batches_flushed m)
    (mt_write_errors m) (mt_dropped_writes m).
Definition count_written (m : PgWriteMetrics) : PgWriteMetrics :=
  mkPgMetrics (mt_messages_queued m) (wrap64 (mt_messages_written m + 1)) (mt_batches_flushed m)
    (mt_write_errors m) (mt_dropped_writes m).
Definition count_batch (m : PgWriteMetrics) : PgWriteMetrics :=
  mkPgMetrics (mt_messages_queued m) (mt_messages_written m) (wrap64 (mt_batches_flushed m + 1))
    (mt_write_errors m) (mt_dropped_writes m).
Definition count_error (m : PgWriteMetrics) : PgWriteMetrics :=
  mkPgMetrics (mt_messages_queued m) (mt_messages_written m) (mt_batches_flushed m)
    (wrap64 (mt_write_errors m + 1)) (mt_dropped_writes m).
Definition count_drop (m : PgWriteMetrics) : PgWriteMetrics :=
  mkPgMetrics (mt_messages_queued m) (mt_messages_written m) (mt_batches_flushed m)
    (mt_write_errors m) (wrap64 (mt_dropped_writes m + 1)).

Definition bump (f : PgWriteMetrics → PgWriteMetrics) : pgop unit :=
  pg_update (λ _ st, with_metrics st (f (ps_metrics st))).

(** ** Flushing a batch *)

Section writer.
Context `{Chrono} `{PgText}.

Definition pcatch {A} (m : pgop A) : pgop (Result A) :=
  λ env w, let '(r, w) := m env w in (Ok r, w).

(** One request of a batch, and whether it was written. *)
Definition persist_request (s : PgSettings) (req : PgWriteRequest) : pgop (option bool) :=
  match req with
  | WriteMessage m =>
      let^ done := pcatch (persist_message_postgres s m) in
      if is_ok done then let^ _ := bump count_written in pret (Some true)
      else let^ _ := bump count_error in let^ _ := bump count_drop in pret (Some false)
  | WritePresence p =>
      let^ done := pcatch (persist_presence_postgres s p) in
      if is_ok done then let^ _ := bump count_written in pret (Some true)
      else let^ _ := bump count_error in pret (Some false)
  | WriteFlush _ | WriteShutdown => pret None
  end.

(** A request taken out of the batch: the write, and one less pending. *)
Definition settle_request (s : PgSettings) (env : pg_env) (req : PgWriteRequest) (rest : list PgWriteRequest)
    (w : writer) : writer :=
  let '(r, world) := persist_request s req env (wr_world w) in
  let '(pending, settled) :=
    match r with
    | Ok (Some b) => (wrap64 (wr_pending w - 1), wr_settled w ++ [(req, b)])
    | _ => (wr_pending w, wr_settled w)
    end in
  mkWriter (wr_queue w) (wr_senders w) (wr_mode w) rest pending (wr_completed w) (wr_begun w)
    world (wr_accepted w) settled (wr_abandoned w) (wr_marks w).

(** [batch.drain(..)]. *)
Fixpoint drain_batch (s : PgSettings) (env : pg_env) (batch : list PgWriteRequest) (w : writer)
    : writer :=
  match batch with
  | [] => w
  | req :: rest => drain_batch s env rest (settle_request s env req rest w)
  end.

Definition flush_pg_batch (s : PgSettings) (env : pg_env) (w : writer) : writer :=
  let w := drain_batch s env (wr_batch w) w in
  mkWriter (wr_queue w) (wr_senders w) (wr_mode w) (wr_batch w) (wr_pending w) (wr_completed w)
    (wr_begun w) (bump count_batch env (wr_world w)).2 (wr_accepted w) (wr_settled w)
    (wr_abandoned w) (wr_marks w).

Definition flush_nonempty (s : PgSettings) (env : pg_env) (w : writer) : writer :=
  match wr_batch w with [] => w | _ :: _ => flush_pg_batch s env w end.

Definition complete (c : option nat) (w : writer) : writer :=
  match c with Some c => with_completed w (wr_completed w ++ [c]) | None => w end.

(** ** The task *)

Definition task_tick (s : PgSettings) (env : pg_env) (w : writer) : writer := flush_nonempty s env w.

(** The receiving end goes with the task: requests still in the channel are dropped. *)
Definition task_gone (w : writer) : writer :=
  mkWriter [] (wr_senders w) Gone (wr_batch w) (wr_pending w) (wr_completed w) (wr_begun w)
    (wr_world w) (wr_accepted w) (wr_settled w)
    (wr_abandoned w ++ List.filter is_write (wr_queue w)) (wr_marks w).

(** One turn of the task on its channel; [None] while it waits for a request. *)
Definition task_receive (s : PgSettings) (env : pg_env) (w : writer) : option writer :=
  match wr_mode w with
  | Looping =>
      match wr_queue w with
      | [] => if wr_senders w then None else Some (task_gone (flush_nonempty s env w))
      | WriteShutdown :: q => Some (with_mode (with_queue w q) Draining)
      | WriteFlush c :: q => Some (complete c (flush_nonempty s env (with_queue w q)))
      | req :: q =>
          let w := with_batch (with_queue w q) (wr_batch w ++ [req]) in
          Some (if PG_BATCH_SIZE <=? length (wr_batch w) then flush_pg_batch s env w else w)
      end
  | Draining =>
      match wr_queue w with
      | [] => Some (with_mode w Closing)
      | WriteShutdown :: q => Some (with_queue w q)
      | WriteFlush c :: q => Some (complete c (flush_nonempty s env (with_queue w q)))
      | req :: q => Some (with_batch (with_queue w q) (wr_batch w ++ [req]))
      end
  | Closing => Some (with_mode (flush_nonempty s env w) Returning)
  | Returning => Some (task_gone w)
  | Gone => None
  end.

(** ** The senders *)

(** The first half of [send_message] and of [send_presence]. *)
Definition send_begin (req : PgWriteRequest) (w : writer) : writer :=
  mkWriter (wr_queue w) (wr_senders w) (wr_mode w) (wr_batch w) (wrap64 (wr_pending w + 1))
    (wr_completed w) (wr_begun w ++ [req]) (wr_world w) (wr_accepted w) (wr_settled w)
    (wr_abandoned w) (wr_marks w).

(** [tx.send]. *)
Definition channel_send (req : PgWriteRequest) (w : writer) : option writer :=
  if decide (wr_mode w = Gone) then None
  else Some (with_queue w (wr_queue w ++ [req])).

(** The second half, of the send at a position of [wr_begun]. *)
Definition send_finish (i : nat) (req : PgWriteRequest) (env : pg_env) (w : writer) : writer :=
  let begun := take i (wr_begun w) ++ drop (S i) (wr_begun w) in
  let entered := bool_decide (wr_mode w ≠ Gone) in
  let dropped := match req with WriteMessage _ => negb entered | _ => false end in
  mkWriter (if entered then wr_queue w ++ [req] else wr_queue w) (wr_senders w) (wr_mode w)
    (wr_batch w) (if entered then wr_pending w else wrap64 (wr_pending w - 1)) (wr_completed w) begun
    ((let^ _ := (if dropped then bump count_drop else pret tt) in bump count_queued)
       env (wr_world w)).2
    (if entered then wr_accepted w ++ [req] else wr_accepted w) (wr_settled w) (wr_abandoned w)
    (wr_marks w).

Definition request_shutdown (w : writer) : writer :=
  from_option (λ w, w) w (channel_send WriteShutdown w).

Definition flush (w : writer) : writer := from_option (λ w, w) w (channel_send (WriteFlush None) w).

(** The request of [flush_and_wait_async]; when the channel is closed it answers [false]. *)
Definition flush_request (c : nat) (w : writer) : option writer :=
  (λ w', mkWriter (wr_queue w') (wr_senders w') (wr_mode w') (wr_batch w') (wr_pending w')
           (wr_completed w') (wr_begun w') (wr_world w') (wr_accepted w') (wr_settled w')
           (wr_abandoned w') (wr_marks w' ++ [(c, length (wr_accepted w'))]))
  <$> channel_send (WriteFlush (Some c)) w.

(** Its wait. The receiver of the signal is ready when the signal was sent, or when the
    sender is gone with the request that held it; the wait is over then, or when its time
    is up, and the answer is whether the time was up. *)
Definition signal_ready (c : nat) (w : writer) : bool :=
  bool_decide (c ∈ wr_completed w) || bool_decide (wr_mode w = Gone).

Definition flush_answer (c : nat) (timed_out : bool) (w : writer) : option bool :=
  if signal_ready c w then Some true else if timed_out then Some false else None.

(** The last handle is dropped; a send under way holds one. *)
Definition drop_senders (w : writer) : writer :=
  mkWriter (wr_queue w) false (wr_mode w) (wr_batch w) (wr_pending w) (wr_completed w) (wr_begun w)
    (wr_world w) (wr_accepted w) (wr_settled w) (wr_abandoned w) (wr_marks w).

(** ** Runs *)

Inductive writer_step (s : PgSettings) : writer → writer → Prop :=
  | StepTick env w : wr_mode w = Looping → writer_step s w (task_tick s env w)
  | StepReceive env w w' : task_receive s env w = Some w' → writer_step s w w'
  | StepBegin req w : wr_senders w = true → is_write req = true → writer_step s w (send_begin req w)
  | StepFinish env i req w :
      wr_begun w !! i = Some req → writer_step s w (send_finish i req env w)
  | StepShutdown w : wr_senders w = true → writer_step s w (request_shutdown w)
  | StepFlush w : wr_senders w = true → writer_step s w (flush w)
  | StepFlushWait c w w' :
      wr_senders w = true → c ∉ (wr_marks w).*1 → flush_request c w = Some w' → writer_step s w w'
  | StepDrop w : wr_begun w = [] → writer_step s w (drop_senders w)
  | StepOthers w world :
      writer_step s w (mkWriter (wr_queue w) (wr_senders w) (wr_mode w) (wr_batch w) (wr_pending w)
        (wr_completed w) (wr_begun w) world (wr_accepted w) (wr_settled w) (wr_abandoned w)
        (wr_marks w)).

Definition reachable (s : PgSettings) (w : writer) : Prop :=
  ∃ world, rtc (writer_step s) (spawn world) w.

(** The task alone, for so many turns. *)
Fixpoint run_task (s : PgSettings) (env : pg_env) (turns : nat) (w : writer) : writer :=
  match turns with
  | O => w
  | S turns => match task_receive s env w with
               | Some w => run_task s env turns w
               | None => w
               end
  end.
End writer.
