(* ===== verification/PgProps.v ===== *)
(** * PgProps: what the PostgreSQL writer promises

    Every write that entered the channel is tried once, in order; a flush that signals
    its end has tried all that came before it; a shutdown drains the channel. With a
    database that answers, a batch is stored; but a row the database refuses opens the
    circuit breaker, and the rest of the minute is lost. *)

From Stdlib Require Import ZArith Lia Ascii.
From stdpp Require Import base option list strings gmap relations.
From S2P Require Import Prelude Str Json Validation ClaimTypes Redis Channels.
From S2P Require Import OutboxHub SyncStore PgStore PgWriter.

Lemma wrap64_wrap_add a b : wrap64 (wrap64 a + b) = wrap64 (a + b).
Proof. unfold wrap64. by rewrite Zplus_mod_idemp_l. Qed.

Lemma wrap64_wrap_sub a b : wrap64 (wrap64 a - b) = wrap64 (a - b).
Proof. unfold wrap64. by rewrite Zminus_mod_idemp_l. Qed.

Lemma nodup_fst_inj {A B} (l : list (A * B)) a b b' :
  NoDup l.*1 → (a, b) ∈ l → (a, b') ∈ l → b = b'.
Proof.
  induction l as [|[x y] l IH]; simpl; intros Hnd Hb Hb'; [by apply elem_of_nil in Hb|].
  apply NoDup_cons in Hnd as [Hx Hnd].
  apply elem_of_cons in Hb as [Hb|Hb], Hb' as [Hb'|Hb']; simplify_eq; [done| | |by apply IH];
    destruct Hx; apply list_elem_of_fmap; (eexists; split; [|eassumption]; done).
Qed.

Section writer.
Context `{Chrono} `{PgText}.

Implicit Types (s : PgSettings) (env : pg_env) (w : writer) (req : PgWriteRequest).

(** ** A batch is tried whole, in order *)

Lemma persist_request_tried s req env world :
  is_write req = true → ∃ b, (persist_request s req env world).1 = Ok (Some b).
Proof.
  destruct req as [m|p| |]; intros ?; try done; simpl; unfold pbind, pcatch;
    [destruct (persist_message_postgres s m env world) as [[]?]
    |destruct (persist_presence_postgres s p env world) as [[]?]];
    simpl; unfold bump, pg_update, pg_step; simpl; eauto.
Qed.

(** The writes of a batch one after the other, and which were written. *)
Fixpoint flush_requests (s : PgSettings) (batch : list PgWriteRequest) (env : pg_env) (world : pg_world)
    : list (PgWriteRequest * bool) * pg_world :=
  match batch with
  | [] => ([], world)
  | req :: batch =>
      let '(r, world) := persist_request s req env world in
      let '(rs, world) := flush_requests s batch env world in
      (match r with Ok (Some b) => (req, b) :: rs | _ => rs end, world)
  end.

(** One less pending for each. *)
Definition released (pending : Z) (done : list (PgWriteRequest * bool)) : Z :=
  foldl (λ n _, wrap64 (n - 1)) pending done.

Lemma released_wrapped p done : released (wrap64 p) done = wrap64 (p - Z.of_nat (length done)).
Proof.
  revert p. induction done as [|x done IH]; intros p; simpl; [by rewrite Z.sub_0_r|].
  rewrite wrap64_wrap_sub. unfold released in IH. rewrite IH. f_equal. lia.
Qed.

(** What flushing the batch comes to, item by item. *)
Lemma flush_pg_batch_settles s env w :
  flush_pg_batch s env w =
  (let '(done, world) := flush_requests s (wr_batch w) env (wr_world w) in
   mkWriter (wr_queue w) (wr_senders w) (wr_mode w) [] (released (wr_pending w) done)
     (wr_completed w) (wr_begun w) (bump count_batch env world).2 (wr_accepted w)
     (wr_settled w ++ done) (wr_abandoned w) (wr_marks w)).
Proof.
  assert (∀ batch w, wr_batch w = batch → drain_batch s env batch w =
    (let '(done, world) := flush_requests s batch env (wr_world w) in
     mkWriter (wr_queue w) (wr_senders w) (wr_mode w) [] (released (wr_pending w) done)
       (wr_completed w) (wr_begun w) world (wr_accepted w) (wr_settled w ++ done)
       (wr_abandoned w) (wr_marks w))) as Hd.
  { clear w. intros batch. induction batch as [|req rest IH]; intros w Hb; simpl.
    - destruct w; simpl in *; subst. by rewrite app_nil_r.
    - unfold settle_request. destruct (persist_request s req env (wr_world w)) as [[[b|]|e] world]; rewrite IH; simpl; try done;
        destruct (flush_requests s rest env world); [by rewrite <- app_assoc|done..]. }
  unfold flush_pg_batch. rewrite Hd by done.
  by destruct (flush_requests s (wr_batch w) env (wr_world w)).
Qed.

Lemma flush_requests_tried s batch env world :
  Forall (λ r, is_write r = true) batch → (flush_requests s batch env world).1.*1 = batch.
Proof.
  intros Hb. revert world. induction Hb as [|req batch Hr _ IH]; intros world; simpl; [done|].
  destruct (persist_request s req env world) as [r world'] eqn:E.
  destruct (persist_request_tried s req env world Hr) as [b Hb].
  rewrite E in Hb. simpl in Hb. subst r. specialize (IH world').
  destruct (flush_requests s batch env world') as [rs world'']. cbn. f_equal. exact IH.
Qed.

(** ** The invariant of the writer *)

Abbreviation writes := (List.filter is_write).

(** What has entered the channel and is neither tried nor lost. *)
Definition waiting (w : writer) : list PgWriteRequest :=
  wr_batch w ++ writes (wr_queue w) ++ wr_abandoned w.

Record writer_inv (w : writer) : Prop := {
  inv_order : wr_accepted w = (wr_settled w).*1 ++ waiting w;
  inv_pending : wr_pending w = wrap64 (Z.of_nat (length (wr_begun w) + length (waiting w)));
  inv_alive : wr_mode w ≠ Gone → wr_abandoned w = [];
  inv_gone : wr_mode w = Gone → wr_batch w = [] ∧ wr_queue w = [];
  inv_returning : wr_mode w = Returning → wr_batch w = [];
  inv_batch : Forall (λ r, is_write r = true) (wr_batch w);
  inv_begun : Forall (λ r, is_write r = true) (wr_begun w);
  inv_flush q q' c : wr_queue w = q ++ WriteFlush (Some c) :: q' →
    (c, length (wr_settled w) + length (wr_batch w) + length (writes q)) ∈ wr_marks w;
  inv_done c : c ∈ wr_completed w → ∃ n, (c, n) ∈ wr_marks w ∧ n ≤ length (wr_settled w);
  inv_fresh : NoDup (wr_marks w).*1;
}.

Lemma inv_spawn world : writer_inv (spawn world).
Proof.
  split; unfold waiting; simpl; try done; try (by constructor).
  - intros q q' c Hq. destruct q; discriminate.
  - intros c Hc. by apply elem_of_nil in Hc.
Qed.

Lemma pg_batch_inv s env w : writer_inv w → writer_inv (flush_pg_batch s env w).
Proof.
  intros [Ho Hp Ha Hg Hr Hb Hbg Hf Hd Hnd]. rewrite flush_pg_batch_settles. unfold waiting in *.
  pose proof (flush_requests_tried s (wr_batch w) env (wr_world w) Hb) as Ht.
  destruct (flush_requests s (wr_batch w) env (wr_world w)) as [done world]. simpl in *.
  assert (length done = length (wr_batch w)) as Hl by (by rewrite <- Ht, length_map).
  split; unfold waiting; simpl; try done.
  - by rewrite Ho, fmap_app, Ht, <- app_assoc.
  - rewrite Hp, released_wrapped. f_equal. rewrite !length_app. lia.
  - intros Hm. by destruct (Hg Hm).
  - intros q q' c Hq. specialize (Hf q q' c Hq). rewrite length_app, Hl. by rewrite Nat.add_0_r.
  - intros c Hc. destruct (Hd c Hc) as (n & Hn & Hle). exists n. split; [done|].
    rewrite length_app. lia.
Qed.

Lemma flush_nonempty_inv s env w : writer_inv w → writer_inv (flush_nonempty s env w).
Proof. intros Hw. unfold flush_nonempty. destruct (wr_batch w); [done|by apply pg_batch_inv]. Qed.

(** What a flush of the batch leaves alone. *)
Lemma flush_nonempty_frame s env w :
  wr_queue (flush_nonempty s env w) = wr_queue w ∧ wr_mode (flush_nonempty s env w) = wr_mode w ∧
  wr_senders (flush_nonempty s env w) = wr_senders w ∧
  wr_begun (flush_nonempty s env w) = wr_begun w ∧
  wr_accepted (flush_nonempty s env w) = wr_accepted w ∧
  wr_abandoned (flush_nonempty s env w) = wr_abandoned w ∧
  wr_marks (flush_nonempty s env w) = wr_marks w ∧ wr_batch (flush_nonempty s env w) = [].
Proof.
  unfold flush_nonempty. destruct (wr_batch w) as [|r b] eqn:E; [by split_and!|].
  rewrite flush_pg_batch_settles.
  destruct (flush_requests s _ env _) as [done world]. by split_and!.
Qed.

Lemma flush_nonempty_settled s env w :
  writer_inv w →
  length (wr_settled (flush_nonempty s env w)) = length (wr_settled w) + length (wr_batch w).
Proof.
  intros Hw. pose proof (inv_order _ Hw) as Ho.
  pose proof (inv_order _ (flush_nonempty_inv s env w Hw)) as Ho'.
  destruct (flush_nonempty_frame s env w) as (Eq & _ & _ & _ & Ea & Eb & _ & E0).
  rewrite Ea, Ho in Ho'. unfold waiting in Ho'. rewrite Eq, Eb, E0 in Ho'.
  apply (f_equal length) in Ho'. rewrite !length_app, !length_fmap in Ho'. simpl in Ho'.
  rewrite ?length_app in Ho'. lia.
Qed.

Lemma with_mode_inv w mode :
  writer_inv w → wr_mode w ≠ Gone → mode ≠ Gone → (mode = Returning → wr_batch w = []) →
  writer_inv (with_mode w mode).
Proof.
  intros [Ho Hp Ha Hg Hr Hb Hbg Hf Hd Hnd] Hw Hm Hret. split; unfold waiting; simpl; try done. by intros _; apply Ha.
Qed.

(** Taking a control request, and a write, out of the channel. *)
Lemma pop_control_inv w req q :
  writer_inv w → wr_queue w = req :: q → is_write req = false → writer_inv (with_queue w q).
Proof.
  intros [Ho Hp Ha Hg Hr Hb Hbg Hf Hd Hnd] Hq Hc. unfold waiting in *. rewrite Hq in *. simpl in *.
  rewrite Hc in *. split; unfold waiting; simpl; try done.
  - intros Hm. by destruct (Hg Hm).
  - intros q1 q2 c ->. specialize (Hf (req :: q1) q2 c eq_refl). simpl in Hf. by rewrite Hc in Hf.
Qed.

Lemma pop_write_inv w req q :
  writer_inv w → wr_queue w = req :: q → is_write req = true → wr_mode w ≠ Returning →
  writer_inv (with_batch (with_queue w q) (wr_batch w ++ [req])).
Proof.
  intros [Ho Hp Ha Hg Hr Hb Hbg Hf Hd Hnd] Hq Hc Hmode. unfold waiting in *. rewrite Hq in *. simpl in *.
  rewrite Hc in *. split; unfold waiting; simpl; try done.
  - by rewrite Ho, <- !app_assoc.
  - rewrite Hp. f_equal. rewrite ?length_app. simpl. rewrite ?length_app. lia.
  - intros Hm. by destruct (Hg Hm).
  - apply Forall_app_2; [done|by constructor].
  - intros q1 q2 c ->. specialize (Hf (req :: q1) q2 c eq_refl). simpl in Hf. rewrite Hc in Hf.
    rewrite length_app. simpl in *.
    by replace (length (wr_settled w) + (length (wr_batch w) + 1) + length (writes q1))
      with (length (wr_settled w) + length (wr_batch w) + S (length (writes q1))) by lia.
Qed.

Lemma complete_inv c w n :
  writer_inv w → (∀ c', c = Some c' → (c', n) ∈ wr_marks w) → n ≤ length (wr_settled w) →
  writer_inv (complete c w).
Proof.
  intros Hw Hc Hn. destruct c as [c|]; [|done]. destruct Hw as [Ho Hp Ha Hg Hr Hb Hbg Hf Hd Hnd].
  split; unfold waiting; simpl; try done. intros c' [Hin | ->%list_elem_of_singleton]%elem_of_app; [by apply Hd|].
  exists n. eauto.
Qed.

Lemma pop_flush_inv s env w c q :
  writer_inv w → wr_queue w = WriteFlush c :: q →
  writer_inv (complete c (flush_nonempty s env (with_queue w q))).
Proof.
  intros Hw Hq. pose proof (pop_control_inv w _ q Hw Hq eq_refl) as Hw'.
  eapply complete_inv; [by apply flush_nonempty_inv| |].
  - intros c' ->. destruct (flush_nonempty_frame s env (with_queue w q)) as (_&_&_&_&_&_&->&_).
    exact (inv_flush w Hw [] q c' Hq).
  - rewrite (flush_nonempty_settled s env _ Hw'). simpl. lia.
Qed.

Lemma task_gone_inv w :
  writer_inv w → wr_batch w = [] → writer_inv (task_gone w).
Proof.
  intros [Ho Hp Ha Hg Hr Hb Hbg Hf Hd Hnd] E0. unfold waiting in *. rewrite E0 in *. simpl in *.
  destruct (decide (wr_mode w = Gone)) as [Hm|Hm].
  - destruct (Hg Hm) as [_ Hq]. rewrite Hq in *. simpl in *.
    split; unfold waiting; simpl; rewrite ?E0, ?Hq; simpl; rewrite ?app_nil_r; try done;
      intros q q' c Eq; destruct q; discriminate.
  - rewrite (Ha Hm) in *. rewrite app_nil_r in *.
    split; unfold waiting; simpl; rewrite ?E0, ?(Ha Hm); simpl; try done;
      intros q q' c Eq; destruct q; discriminate.
Qed.

Lemma task_receive_inv s env w w' :
  writer_inv w → task_receive s env w = Some w' → writer_inv w'.
Proof.
  unfold task_receive. intros Hw Hr. destruct (wr_mode w) eqn:Em; try done.
  - destruct (wr_queue w) as [|[m|p|c|] q] eqn:Eq; [| | | |]; simplify_eq/=.
    + destruct (wr_senders w); simplify_eq. apply task_gone_inv; [by apply flush_nonempty_inv|].
      by destruct (flush_nonempty_frame s env w) as (_&_&_&_&_&_&_&?).
    + pose proof (pop_write_inv w _ q Hw Eq eq_refl ltac:(congruence)).
      case_match; [by apply pg_batch_inv|done].
    + pose proof (pop_write_inv w _ q Hw Eq eq_refl ltac:(congruence)).
      case_match; [by apply pg_batch_inv|done].
    + by apply pop_flush_inv.
    + apply with_mode_inv; [by eapply pop_control_inv|simpl; congruence|done|done].
  - destruct (wr_queue w) as [|[m|p|c|] q] eqn:Eq; [| | | |]; simplify_eq/=.
    + apply with_mode_inv; [done|congruence|done|done].
    + apply (pop_write_inv w); [done|done|done|congruence].
    + apply (pop_write_inv w); [done|done|done|congruence].
    + by apply pop_flush_inv.
    + by eapply pop_control_inv.
  - simplify_eq. destruct (flush_nonempty_frame s env w) as (_&Em'&_&_&_&_&_&E0).
    apply with_mode_inv; [by apply flush_nonempty_inv|rewrite Em'; congruence|done|done].
  - simplify_eq. apply task_gone_inv; [done|by apply inv_returning].
Qed.

Lemma snoc_flush (q q1 q2 : list PgWriteRequest) req c :
  q ++ [req] = q1 ++ WriteFlush (Some c) :: q2 →
  (∃ q', q = q1 ++ WriteFlush (Some c) :: q') ∨ q1 = q ∧ req = WriteFlush (Some c).
Proof.
  intros E. destruct q2 as [|r q2 _] using rev_ind.
  - apply app_inj_tail in E as [-> ->]. by right.
  - rewrite app_comm_cons, app_assoc in E. apply app_inj_tail in E as [-> ->]. left. by exists q2.
Qed.

(** A request enters the channel. *)
Lemma push_control_inv w req marks :
  writer_inv w → wr_mode w ≠ Gone → is_write req = false → wr_marks w ⊆ marks → NoDup marks.*1 →
  (∀ c, req = WriteFlush (Some c) → (c, length (wr_accepted w)) ∈ marks) →
  writer_inv (mkWriter (wr_queue w ++ [req]) (wr_senders w) (wr_mode w) (wr_batch w) (wr_pending w)
    (wr_completed w) (wr_begun w) (wr_world w) (wr_accepted w) (wr_settled w) (wr_abandoned w) marks).
Proof.
  intros [Ho Hp Ha Hg Hr Hb Hbg Hf Hd Hnd] Hm Hc Hsub Hnd' Hreq. unfold waiting in *.
  assert (writes (wr_queue w ++ [req]) = writes (wr_queue w)) as E.
  { rewrite List.filter_app. simpl. by rewrite Hc, app_nil_r. }
  split; unfold waiting; simpl; rewrite ?E; try done.
  - intros q q' c [[q'' Eq] | [-> ->]]%snoc_flush; [apply Hsub; by eapply Hf|].
    specialize (Hreq c eq_refl). rewrite Ho, (Ha Hm), app_nil_r in Hreq.
    rewrite !length_app, length_fmap in Hreq. by rewrite <- Nat.add_assoc.
  - intros c Hcc. destruct (Hd c Hcc) as (n & Hn & Hle). exists n. split; [by apply Hsub|done].
Qed.

Lemma send_begin_inv w req :
  writer_inv w → is_write req = true → writer_inv (send_begin req w).
Proof.
  intros [Ho Hp Ha Hg Hr Hb Hbg Hf Hd Hnd] Hc. split; unfold waiting in *; simpl; try done.
  - rewrite Hp, wrap64_wrap_add, !length_app. f_equal. simpl. lia.
  - apply Forall_app_2; [done|by constructor].
Qed.

Lemma send_finish_inv i req env w :
  writer_inv w → wr_begun w !! i = Some req → writer_inv (send_finish i req env w).
Proof.
  intros [Ho Hp Ha Hg Hr Hb Hbg Hf Hd Hnd] Hi. unfold send_finish, waiting in *.
  pose proof (proj1 (Forall_lookup _ _) Hbg i req Hi) as Hw. simpl in Hw.
  rewrite <- (take_drop_middle _ _ _ Hi) in Hp, Hbg. apply Forall_app in Hbg as [Hb1 Hb2].
  apply Forall_cons in Hb2 as [_ Hb2]. rewrite length_app in Hp. simpl in Hp.
  destruct (decide (wr_mode w = Gone)) as [Hm|Hm].
  - rewrite bool_decide_eq_false_2 by tauto. split; unfold waiting; simpl; try done.
    + rewrite Hp, wrap64_wrap_sub, !length_app. f_equal. lia.
    + by apply Forall_app_2.
  - rewrite bool_decide_eq_true_2 by done. rewrite (Ha Hm) in *.
    assert (writes (wr_queue w ++ [req]) = writes (wr_queue w) ++ [req]) as E.
    { rewrite List.filter_app. simpl. by rewrite Hw. }
    split; unfold waiting; simpl; rewrite ?E, ?(Ha Hm); try done.
    + by rewrite Ho, !app_nil_r, <- !app_assoc.
    + rewrite Hp. f_equal. rewrite !app_nil_r, !length_app. simpl. lia.
    + by apply Forall_app_2.
    + intros q q' c [[q'' Eq] | [_ ->]]%snoc_flush; [by eapply Hf|done].
Qed.

Lemma writer_step_inv s w w' : writer_step s w w' → writer_inv w → writer_inv w'.
Proof.
  intros Hs Hw. destruct Hs as [env w _|env w w' E|req w _ Hc|env i req w Hi|w _|w _|c w w' _ Hc E|w _
                               |w world].
  - by apply flush_nonempty_inv.
  - by eapply task_receive_inv.
  - by apply send_begin_inv.
  - by apply send_finish_inv.
  - unfold request_shutdown, channel_send. case_decide; simpl; [done|].
    apply push_control_inv; try done. by apply inv_fresh.
  - unfold flush, channel_send. case_decide; simpl; [done|].
    apply push_control_inv; try done. by apply inv_fresh.
  - unfold flush_request, channel_send in E. case_decide; simplify_eq/=.
    apply push_control_inv; try done; [set_solver| |intros c' [= ->]; set_solver].
    rewrite fmap_app. apply NoDup_app. split_and!; [by apply inv_fresh|set_solver|apply NoDup_singleton].
  - by destruct Hw.
  - by destruct Hw.
Qed.

Lemma reachable_inv s w : reachable s w → writer_inv w.
Proof.
  intros [world Hs]. remember (spawn world) as w0 eqn:E0. pose proof (inv_spawn world) as Hw.
  rewrite <- E0 in Hw. clear E0. induction Hs; eauto using writer_step_inv.
Qed.

(** C10. Whatever senders, other threads and the database do, the writes that entered the
    channel are the ones tried so far, each once and in order, followed by those still
    waiting; the pending count is what waits and the sends under way, and no write is
    abandoned while the task lives. *)
Theorem writer_accounts s w :
  reachable s w →
  wr_accepted w = (wr_settled w).*1 ++ wr_batch w ++ writes (wr_queue w) ++ wr_abandoned w ∧
  wr_pending w = wrap64 (Z.of_nat (length (wr_begun w) + length (wr_batch w)
                                   + length (writes (wr_queue w)) + length (wr_abandoned w))) ∧
  (wr_mode w ≠ Gone → wr_abandoned w = []).
Proof.
  intros Hw%reachable_inv. split_and!; [by apply inv_order| |by apply inv_alive].
  rewrite (inv_pending w Hw). f_equal. unfold waiting. rewrite !length_app. lia.
Qed.

(** C15. A waiting flush whose end is signalled has seen every write that entered the
    channel before it tried. *)
Theorem flush_settles s w c :
  reachable s w → c ∈ wr_completed w →
  ∃ n, (∀ n', (c, n') ∈ wr_marks w ↔ n' = n) ∧ n ≤ length (wr_settled w) ∧
       take n (wr_accepted w) = take n (wr_settled w).*1.
Proof.
  intros Hw%reachable_inv Hc. destruct (inv_done w Hw c Hc) as (n & Hn & Hle). exists n.
  split_and!; [|done|rewrite (inv_order w Hw); apply take_app_le; by rewrite length_fmap].
  intros n'. split; [|by intros ->]. intros Hn'.
  by pose proof (nodup_fst_inj _ c n' n (inv_fresh w Hw) Hn' Hn).
Qed.

(** ** Shutting down *)

Lemma task_receive_frame s env w w' :
  task_receive s env w = Some w' → wr_accepted w' = wr_accepted w ∧ wr_begun w' = wr_begun w.
Proof.
  intros E. unfold task_receive in E.
  destruct (wr_mode w); try done.
  - destruct (wr_queue w) as [|[m|p|c|] q]; [| | | |]; simplify_eq/=.
    + destruct (wr_senders w); simplify_eq/=.
      by destruct (flush_nonempty_frame s env w) as (_&_&_&?&?&_).
    + case_match; [|done]. rewrite flush_pg_batch_settles. by destruct (flush_requests _ _ _ _).
    + case_match; [|done]. rewrite flush_pg_batch_settles. by destruct (flush_requests _ _ _ _).
    + destruct (flush_nonempty_frame s env (with_queue w q)) as (_&_&_&?&?&_). by destruct c.
    + done.
  - destruct (wr_queue w) as [|[m|p|c|] q]; [| | | |]; simplify_eq/=; try done.
    destruct (flush_nonempty_frame s env (with_queue w q)) as (_&_&_&?&?&_). by destruct c.
  - simplify_eq/=. by destruct (flush_nonempty_frame s env w) as (_&_&_&?&?&_).
  - by simplify_eq.
Qed.

Lemma run_task_frame s env turns w :
  wr_accepted (run_task s env turns w) = wr_accepted w ∧
  wr_begun (run_task s env turns w) = wr_begun w.
Proof.
  revert w. induction turns as [|turns IH]; intros w; simpl; [done|].
  destruct (task_receive s env w) as [w'|] eqn:E; [|done].
  destruct (task_receive_frame s env w w' E) as [<- <-]. apply IH.
Qed.

Lemma run_task_inv s env turns w : writer_inv w → writer_inv (run_task s env turns w).
Proof.
  revert w. induction turns as [|turns IH]; intros w Hw; simpl; [done|].
  destruct (task_receive s env w) eqn:E; [|done]. by eapply IH, task_receive_inv.
Qed.

(** The channel is emptied, nothing is left in it when the task ends. *)
Definition emptied (w : writer) : Prop := wr_mode w = Gone ∧ wr_abandoned w = [].

Lemma gone_run s env turns w : emptied w → emptied (run_task s env turns w).
Proof.
  intros [Hm Ha]. destruct turns; simpl; [by split|]. unfold task_receive. rewrite Hm. by split.
Qed.

Lemma closing_run s env turns w :
  wr_mode w = Closing → wr_queue w = [] → wr_abandoned w = [] → emptied (run_task s env (2 + turns) w).
Proof.
  intros Hm Hq Ha. simpl. unfold task_receive at 1. rewrite Hm. simpl.
  apply gone_run. unfold emptied. simpl.
  destruct (flush_nonempty_frame s env w) as (-> & _ & _ & _ & _ & -> & _). by rewrite Hq, Ha.
Qed.

(** On its way out: emptying the channel, or with a shutdown in it. *)
Definition leaving (w : writer) : Prop :=
  wr_mode w = Draining ∨ wr_mode w = Looping ∧ WriteShutdown ∈ wr_queue w.

Lemma complete_flush_frame s env c w :
  let w' := complete c (flush_nonempty s env w) in
  wr_queue w' = wr_queue w ∧ wr_mode w' = wr_mode w ∧ wr_abandoned w' = wr_abandoned w.
Proof. destruct (flush_nonempty_frame s env w) as (?&?&_&_&_&?&_). by destruct c. Qed.

Lemma leaving_turn s env w :
  leaving w → wr_queue w ≠ [] → wr_abandoned w = [] →
  ∃ w', task_receive s env w = Some w' ∧ leaving w' ∧
    S (length (wr_queue w')) = length (wr_queue w) ∧ wr_abandoned w' = [].
Proof.
  intros Hl Hq Ha. destruct (wr_queue w) as [|req q] eqn:Eq; [done|].
  destruct (complete_flush_frame s env (match req with WriteFlush c => c | _ => None end)
              (with_queue w q)) as (E1 & E2 & E3). unfold task_receive, leaving. rewrite Eq.
  destruct Hl as [Hm|[Hm Hin]]; rewrite Hm; [|rewrite Eq in Hin].
  - destruct req; (eexists; split; [done|]); rewrite ?E1, ?E2, ?E3; simpl; rewrite ?Hm; eauto.
  - destruct req as [m|p|c|]; (eexists; split; [done|]).
    3: { rewrite E1, E2, E3. simpl. split_and!; [right; split; [done|set_solver]|done|done]. }
    3: { simpl. split_and!; [by left|done|done]. }
    all: case_match.
    2,4: simpl; split_and!; [right; split; [done|set_solver]|done|done].
    all: rewrite flush_pg_batch_settles; destruct (flush_requests s _ env _); simpl;
      split_and!; [right; split; [done|set_solver]|done|done].
Qed.

Lemma leaving_run s env turns w :
  leaving w → wr_abandoned w = [] → length (wr_queue w) + 3 ≤ turns →
  emptied (run_task s env turns w).
Proof.
  revert w. induction turns as [|turns IH]; intros w Hl Ha Hn; [lia|].
  destruct (decide (wr_queue w = [])) as [Hq|Hq].
  - destruct Hl as [Hm|[_ Hin]]; [|rewrite Hq in Hin; by apply elem_of_nil in Hin].
    simpl. unfold task_receive. rewrite Hm, Hq.
    destruct turns as [|[|turns]]; [lia|lia|]. by apply closing_run.
  - destruct (leaving_turn s env w Hl Hq Ha) as (w' & E & Hl' & Hlen & Ha'). simpl. rewrite E.
    apply IH; [done|done|lia].
Qed.

(** C14. From the moment a shutdown is in the channel, as many turns of the task as there
    are requests in it, and three more, end it with every write tried that had entered,
    and nothing abandoned or counted as pending but the sends still under way. *)
Theorem shutdown_drains s env w turns :
  reachable s w → leaving w → length (wr_queue w) + 3 ≤ turns →
  let w' := run_task s env turns w in
  wr_mode w' = Gone ∧ wr_abandoned w' = [] ∧ (wr_settled w').*1 = wr_accepted w ∧
  wr_pending w' = wrap64 (Z.of_nat (length (wr_begun w))).
Proof.
  intros Hr%reachable_inv Hl Hn w'. assert (wr_abandoned w = []) as Ha.
  { apply inv_alive; [done|]. by destruct Hl as [-> | [-> _]]. }
  destruct (leaving_run s env turns w Hl Ha Hn) as [Hm Ha'].
  pose proof (run_task_inv s env turns w Hr) as Hw'. fold w' in Hm, Ha', Hw'.
  destruct (inv_gone w' Hw' Hm) as [Hb Hq].
  destruct (run_task_frame s env turns w) as [Eacc Ebeg]. fold w' in Eacc, Ebeg.
  split_and!; [done|done| |].
  - rewrite <- Eacc, (inv_order w' Hw'). unfold waiting. by rewrite Hb, Hq, Ha', app_nil_r.
  - rewrite (inv_pending w' Hw'). unfold waiting. rewrite Hb, Hq, Ha', Ebeg. simpl. f_equal. lia.
Qed.
End writer.
