(* ===== verification/PgStoreProps.v ===== *)
(** * PgStoreProps: batches and the database

    With a database that answers and a closed circuit breaker a batch is stored as it
    is; one row that the database refuses opens the breaker, and what follows within the
    minute is dropped although the database answers. *)

From Stdlib Require Import ZArith Lia Ascii.
From stdpp Require Import base option list strings gmap relations.
From S2P Require Import Prelude Str Json Validation ClaimTypes Redis Channels.
From S2P Require Import OutboxHub SyncStore PgStore PgWriter PgProps.

(** ** Undisturbed runs *)

(** The database answers and nobody else acts. *)
Definition quiet (env : pg_env) : Prop :=
  ∀ n, pt_fate (env n) = PgDone ∧ (∀ st, pt_others (env n) st = st) ∧
       (∀ l, pt_order (env n) l ≡ₚ l).

(** An operation from a state, with its answer and what is true of the state after it. *)
Definition runs {A} (env : pg_env) (m : pgop A) (st : pg_state) (r : Result A) (Q : pg_state → Prop)
    : Prop :=
  ∀ n naps, ∃ n' naps' st', m env (mkPgWorld st n naps) = (r, mkPgWorld st' n' naps') ∧ Q st'.

(** Equal but for the connection and the known tables. *)
Definition same_data (st st' : pg_state) : Prop :=
  ps_rows st' = ps_rows st ∧ ps_events st' = ps_events st ∧ ps_down st' = ps_down st ∧
  ps_metrics st' = ps_metrics st.

#[export] Instance same_data_preorder : PreOrder same_data.
Proof. split; [done|]. intros x y z (?&?&?&?) (?&?&?&?). split_and!; congruence. Qed.

Section runs.
Context (env : pg_env).

Lemma runs_ret {A} (a : A) st (Q : pg_state → Prop) : Q st → runs env (pret a) st (Ok a) Q.
Proof. intros HQ n naps. by exists n, naps, st. Qed.

Lemma runs_lift {A} (r : Result A) st (Q : pg_state → Prop) : Q st → runs env (pg_lift r) st r Q.
Proof. intros HQ n naps. by exists n, naps, st. Qed.

Lemma runs_bind {A B} (m : pgop A) (k : A → pgop B) st a r Q R :
  runs env m st (Ok a) Q → (∀ st', Q st' → runs env (k a) st' r R) → runs env (pbind m k) st r R.
Proof.
  intros Hm Hk n naps. destruct (Hm n naps) as (n' & naps' & st' & E & HQ). unfold pbind. rewrite E.
  apply (Hk st' HQ).
Qed.

Lemma runs_bind_err {A B} (m : pgop A) (k : A → pgop B) st e Q :
  runs env m st (Err e) Q → runs env (pbind m k) st (Err e) Q.
Proof.
  intros Hm n naps. destruct (Hm n naps) as (n' & naps' & st' & E & HQ). unfold pbind. rewrite E.
  by exists n', naps', st'.
Qed.

Lemma runs_weaken {A} (m : pgop A) st r (Q Q' : pg_state → Prop) :
  runs env m st r Q → (∀ st', Q st' → Q' st') → runs env m st r Q'.
Proof.
  intros Hm HQ n naps. destruct (Hm n naps) as (n' & naps' & st' & E & HQ').
  exists n', naps', st'. eauto.
Qed.

Lemma runs_nap ms st (Q : pg_state → Prop) : Q st → runs env (nap ms) st (Ok tt) Q.
Proof. intros HQ n naps. by eexists _, _, st. Qed.

Context (Henv : quiet env).

Lemma runs_step {A} (f : pg_turn → pg_state → Result A * pg_state) st r (Q : pg_state → Prop) :
  (∀ t, (∃ n, t = env n) → pt_fate t = PgDone → (∀ l, pt_order t l ≡ₚ l) →
    ∃ st', f t st = (r, st') ∧ Q st') →
  runs env (pg_step f) st r Q.
Proof.
  intros Hf n naps. destruct (Henv n) as (Hfate & Hothers & Horder).
  destruct (Hf (env n) (ex_intro _ n eq_refl) Hfate Horder) as (st' & E & HQ).
  unfold pg_step. simpl. rewrite Hothers, E. eauto.
Qed.

Lemma runs_update f st (Q : pg_state → Prop) :
  (∀ t, (∃ n, t = env n) → Q (f t st)) → runs env (pg_update f) st (Ok tt) Q.
Proof. intros HQ. apply runs_step. eauto. Qed.

Lemma runs_statement {A} (f : pg_state → Result A * pg_state) st r st' (Q : pg_state → Prop) :
  f st = (r, st') → Q st' → runs env (statement f) st r Q.
Proof. intros E HQ. apply runs_step. intros t _ -> _. eauto. Qed.

(** ** The connection and the tables *)

Lemma push_new_grows seen l : ∃ l', push_new seen l = seen ++ l'.
Proof.
  revert seen. induction l as [|x l IH]; intros seen; simpl; [exists []; by rewrite app_nil_r|].
  case_bool_decide; [apply IH|]. destruct (IH (seen ++ [x])) as [l' ->]. exists (x :: l').
  by rewrite <- app_assoc.
Qed.

Lemma push_new_some x l : push_new [] (x :: l) ≠ [].
Proof.
  cbn [push_new]. rewrite bool_decide_eq_false_2 by apply not_elem_of_nil.
  by destruct (push_new_grows ([] ++ [x]) l) as [l' ->].
Qed.

Lemma loopback_url_candidates_some url : loopback_url_candidates url ≠ [].
Proof.
  unfold loopback_url_candidates. destruct (url_host_span url) as [[[first last] host]|]; [|done].
  case_match; [done|]. apply push_new_some.
Qed.

Lemma open_pg_client_runs url st : runs env (open_pg_client url) st (Ok tt) (same_data st).
Proof.
  unfold open_pg_client. pose proof (loopback_url_candidates_some url) as Hne.
  destruct (loopback_url_candidates url) as [|c cs]; [done|]. cbn [connect_first].
  apply (runs_bind _ _ st true _ (same_data st)); [|intros st' Hst; by apply runs_ret].
  apply runs_step. intros t _ -> _. by eexists.
Qed.

Lemma get_pg_client_runs s st :
  is_Some (pgs_database_url s) → runs env (get_pg_client s) st (Ok (Some tt)) (same_data st).
Proof.
  intros [url Hurl]. unfold get_pg_client. rewrite Hurl.
  apply (runs_bind _ _ st (ps_pool st) _ (same_data st)).
  { apply runs_step. intros t _ -> _. destruct (ps_pool st) eqn:E; by eexists. }
  intros st' Hst. destruct (ps_pool st); [by apply runs_ret|].
  eapply runs_bind; [apply open_pg_client_runs|]. intros st'' Hst'. apply runs_ret.
  by transitivity st'.
Qed.

Lemma ensure_runs s st : runs env (ensure_postgres_storage s) st (Ok tt) (same_data st).
Proof.
  unfold ensure_postgres_storage, storage_ready. destruct (storage_cache_key s) as [key|]; [|by apply runs_ret].
  apply (runs_bind _ _ st (bool_decide (key ∈ ps_ready st)) _ (λ st', st' = st)).
  { apply runs_step. intros t _ _ _. by eexists. }
  intros st' ->. case_bool_decide; [by apply runs_ret|].
  assert (∀ st0, same_data st st0 → runs env batch_execute st0 (Ok tt) (same_data st)) as Hb.
  { intros st0 H0. by apply (runs_statement (λ st, (Ok tt, st)) st0 (Ok tt) st0). }
  eapply runs_bind; [by apply Hb|]. intros st1 H1. eapply runs_bind; [by apply Hb|].
  intros st2 H2. apply runs_update. intros t _. by destruct H2.
Qed.

Lemma return_runs st : runs env return_pg_client st (Ok tt) (same_data st).
Proof. by apply runs_update. Qed.

(** ** Retries *)

Lemma retry_ok {A} (op : pgop A) st a Q :
  ps_down st = None → runs env op st (Ok a) Q →
  runs env (with_pg_retry op) st (Ok a) (λ st', ∃ st0, Q st0 ∧ st' = with_down st0 None).
Proof.
  intros Hd Hop. unfold with_pg_retry.
  apply (runs_bind _ _ st false _ (λ st', st' = st)).
  { apply runs_step. intros t _ _ _. rewrite Hd. by eexists. }
  intros st' -> n naps. unfold PG_MAX_RETRIES. simpl.
  destruct (Hop n naps) as (n' & naps' & st' & E & HQ). rewrite E.
  eapply (runs_bind (mark_pg_up) (λ _, pret a) st' tt _ (λ st1, st1 = with_down st' None)).
  { by apply runs_update. }
  intros st1 ->. apply runs_ret. eauto.
Qed.

(** Three failures open the breaker. *)
Lemma retry_fails {A} (op : pgop A) st e :
  ps_down st = None → (∀ st', same_data st st' → runs env op st' (Err e) (same_data st)) →
  runs env (with_pg_retry op) st (Err e)
    (λ st', ps_rows st' = ps_rows st ∧ ps_events st' = ps_events st ∧
            ps_metrics st' = ps_metrics st ∧ ∃ n, ps_down st' = Some (pt_now (env n))).
Proof.
  intros Hd Hop. unfold with_pg_retry.
  apply (runs_bind _ _ st false _ (same_data st)).
  { apply runs_step. intros t _ _ _. rewrite Hd. by eexists. }
  intros st' Hst.
  assert (∀ k attempt last st', k ≠ 0 → same_data st st' →
    runs env (retry_from k attempt last op) st' (Err e)
    (λ st', ps_rows st' = ps_rows st ∧ ps_events st' = ps_events st ∧
            ps_metrics st' = ps_metrics st ∧ ∃ n, ps_down st' = Some (pt_now (env n)))) as Hgo;
    [|by apply Hgo].
  clear st' Hst. induction k as [|k IH]; intros attempt last st' Hk Hst; [done|].
  intros n naps. cbn [retry_from]. destruct (Hop st' Hst n naps) as (n1 & naps1 & st1 & E & H1). rewrite E.
  eapply (runs_bind _ _ st1 tt _ (same_data st)).
  { case_decide; [by apply runs_nap|by apply runs_ret]. }
  intros st2 H2. destruct k as [|k]; [|by apply IH].
  cbn [retry_from from_option]. eapply (runs_bind _ _ st2 tt _ (λ st', ∃ n, ps_down st' = Some (pt_now (env n)) ∧ same_data st (with_down st' (ps_down st)))).
  { apply runs_update. intros t [m ->]. exists m. split; [done|]. by destruct H2 as (?&?&?&?). }
  intros st3 (m & Hm & ?&?&?&?) n3 naps3. do 3 eexists. split; [done|]. eauto.
Qed.

(** While it is open nothing is tried. *)
Lemma retry_open {A} (op : pgop A) st :
  (∀ n, circuit_open (ps_down st) (pt_now (env n)) = true) →
  runs env (with_pg_retry op) st (Err (Internal "PostgreSQL circuit breaker open — skipping retry"))
    (λ st', st' = st).
Proof.
  intros Hopen. unfold with_pg_retry. apply (runs_bind _ _ st true _ (λ st', st' = st)).
  { apply runs_step. intros t [n ->] _ _. rewrite Hopen. by eexists. }
  intros st' -> n naps. by do 3 eexists.
Qed.
End runs.

Section batches.
Context `{Chrono} `{PgText} (s : PgSettings) (env : pg_env) (Henv : quiet env).
Context (Hurl : is_Some (pgs_database_url s)).

Implicit Types (st : pg_state) (req : PgWriteRequest).

(** ** One row *)

(** The row a message is stored as; none for one that cannot be stored. *)
Definition sound_row (m : Message) : option Message :=
  id ← canonical_uuid (m_id m);
  if is_ok (parse_timestamp_utc (m_timestamp_utc m)) && is_ok (origin_seq_sql (m_origin_seq m))
  then Some (message_row m id) else None.

Definition sound_presence (p : Presence) : bool :=
  is_ok (parse_timestamp_utc (p_timestamp_utc p)) && (p_ttl_seconds p <=? I64_MAX)%Z.

(** What the database makes of a request, and whether it takes it. *)
Definition storable (req : PgWriteRequest) : Prop :=
  match req with
  | WriteMessage m => ∃ row, sound_row m = Some row ∧ pg_takes_message row = true
  | WritePresence p => sound_presence p = true ∧ pg_takes_presence p = true
  | _ => False
  end.

Definition refused (req : PgWriteRequest) : Prop :=
  match req with
  | WriteMessage m => ∃ row, sound_row m = Some row ∧ pg_takes_message row = false
  | WritePresence p => sound_presence p = true ∧ pg_takes_presence p = false
  | _ => False
  end.

Definition store_rows (rows : pg_rows) (req : PgWriteRequest) : pg_rows :=
  match req with
  | WriteMessage m => from_option (λ row, insert_message row rows) rows (sound_row m)
  | _ => rows
  end.

Definition store_events (events : list Presence) (req : PgWriteRequest) : list Presence :=
  match req with WritePresence p => events ++ [p] | _ => events end.

(** The rows, the presences, the breaker and the counters of a state. *)
Definition data_is (rows : pg_rows) (events : list Presence) (down : option Z) (m : PgWriteMetrics)
    (st : pg_state) : Prop :=
  ps_rows st = rows ∧ ps_events st = events ∧ ps_down st = down ∧ ps_metrics st = m.

Lemma lift_bind {A B} (a : A) (k : A → pgop B) st r Q :
  runs env (k a) st r Q → runs env (pbind (pg_lift (Ok a)) k) st r Q.
Proof. done. Qed.

Lemma message_once m row st :
  sound_row m = Some row →
  runs env (persist_message_once s m) st
    (if pg_takes_message row then Ok tt else Err (Postgres "db error"))
    (data_is (if pg_takes_message row then insert_message row (ps_rows st) else ps_rows st)
       (ps_events st) (ps_down st) (ps_metrics st)).
Proof.
  intros Hrow. unfold sound_row in Hrow.
  destruct (canonical_uuid (m_id m)) as [id|] eqn:Eid; [|done]. simpl in Hrow.
  destruct (parse_timestamp_utc (m_timestamp_utc m)) as [ts|] eqn:Ets; [|done].
  destruct (origin_seq_sql (m_origin_seq m)) as [[]|] eqn:Eseq; [|done]. simplify_eq/=.
  unfold persist_message_once. eapply runs_bind; [by apply get_pg_client_runs|]. intros st1 H1.
  cbn beta iota. eapply runs_bind; [by apply ensure_runs|]. intros st2 H2.
  assert (same_data st st2) as (E1 & E2 & E3 & E4) by (by transitivity st1).
  rewrite Eid, Ets, Eseq. do 3 apply lift_bind. unfold execute_insert.
  destruct (pg_takes_message (message_row m id)) eqn:Et.
  - eapply runs_bind.
    { eapply (runs_statement env Henv); [done|]. instantiate (1 := data_is _ _ _ _).
      split_and!; simpl; [by rewrite E1|done..]. }
    intros st3 (F1 & F2 & F3 & F4). eapply runs_weaken; [by apply return_runs|].
    intros st4 (G1 & G2 & G3 & G4). split_and!; congruence.
  - eapply runs_bind_err, (runs_statement env Henv); [done|]. by split_and!.
Qed.

Lemma presence_once p st :
  sound_presence p = true →
  runs env (persist_presence_once s p) st
    (if pg_takes_presence p then Ok tt else Err (Postgres "db error"))
    (data_is (ps_rows st) (if pg_takes_presence p then ps_events st ++ [p] else ps_events st)
       (ps_down st) (ps_metrics st)).
Proof.
  unfold sound_presence. intros Hp.
  destruct (parse_timestamp_utc (p_timestamp_utc p)) as [ts|] eqn:Ets; [|done]. simpl in Hp.
  unfold persist_presence_once. eapply runs_bind; [by apply get_pg_client_runs|]. intros st1 H1.
  cbn beta iota. eapply runs_bind; [by apply ensure_runs|]. intros st2 H2.
  assert (same_data st st2) as (E1 & E2 & E3 & E4) by (by transitivity st1).
  rewrite Ets, Hp. do 2 apply lift_bind. destruct (pg_takes_presence p) eqn:Et.
  - eapply runs_bind.
    { eapply (runs_statement env Henv); [done|]. instantiate (1 := data_is _ _ _ _).
      split_and!; simpl; [done|by rewrite E2|done..]. }
    intros st3 (F1 & F2 & F3 & F4). eapply runs_weaken; [by apply return_runs|].
    intros st4 (G1 & G2 & G3 & G4). split_and!; congruence.
  - eapply runs_bind_err, (runs_statement env Henv); [done|]. by split_and!.
Qed.

(** ** One request of a batch *)

Lemma runs_pcatch {A} (m : pgop A) st r Q : runs env m st r Q → runs env (pcatch m) st (Ok r) Q.
Proof.
  intros Hm n naps. destruct (Hm n naps) as (n' & naps' & st' & E & HQ). unfold pcatch. rewrite E.
  by exists n', naps', st'.
Qed.

Lemma runs_bump f st :
  runs env (bump f) st (Ok tt)
    (data_is (ps_rows st) (ps_events st) (ps_down st) (f (ps_metrics st))).
Proof. by apply (runs_update env Henv). Qed.

(** The counters after a write that failed. *)
Definition count_failed (m : PgWriteMetrics) (req : PgWriteRequest) : PgWriteMetrics :=
  match req with WriteMessage _ => count_drop (count_error m) | _ => count_error m end.

Lemma failed_request req st e rows events down :
  is_write req = true →
  (match req with
   | WriteMessage m => runs env (persist_message_postgres s m) st (Err e)
                         (λ st', ∃ d, down d ∧ data_is rows events d (ps_metrics st) st')
   | WritePresence p => runs env (persist_presence_postgres s p) st (Err e)
                         (λ st', ∃ d, down d ∧ data_is rows events d (ps_metrics st) st')
   | _ => True
   end) →
  runs env (persist_request s req) st (Ok (Some false))
    (λ st', ∃ d, down d ∧ data_is rows events d (count_failed (ps_metrics st) req) st').
Proof.
  intros Hw Hr. destruct req as [m|p| |]; try done; simpl.
  - eapply runs_bind; [by apply runs_pcatch|]. intros st1 (d & Hd & E1 & E2 & E3 & E4). simpl.
    eapply runs_bind; [apply runs_bump|]. intros st2 (F1 & F2 & F3 & F4).
    eapply runs_bind; [apply runs_bump|]. intros st3 (G1 & G2 & G3 & G4). apply runs_ret.
    exists d. split; [done|]. split_and!; congruence.
  - eapply runs_bind; [by apply runs_pcatch|]. intros st1 (d & Hd & E1 & E2 & E3 & E4). simpl.
    eapply runs_bind; [apply runs_bump|]. intros st2 (F1 & F2 & F3 & F4). apply runs_ret.
    exists d. split; [done|]. split_and!; congruence.
Qed.

Lemma stored_request req st :
  storable req → ps_down st = None →
  runs env (persist_request s req) st (Ok (Some true))
    (data_is (store_rows (ps_rows st) req) (store_events (ps_events st) req) None
       (count_written (ps_metrics st))).
Proof.
  intros Hreq Hd. destruct req as [m|p| |]; try done; simpl.
  - destruct Hreq as (row & Hrow & Ht). pose proof (message_once m row st Hrow) as Ho.
    rewrite Ht in Ho. rewrite Hrow. simpl.
    eapply runs_bind; [by apply runs_pcatch, (retry_ok env Henv)|]. simpl.
    intros st1 (st0 & (E1 & E2 & E3 & E4) & ->).
    eapply runs_bind; [apply runs_bump|]. intros st2 (F1 & F2 & F3 & F4). apply runs_ret.
    simpl in *. split_and!; congruence.
  - destruct Hreq as [Hp Ht]. pose proof (presence_once p st Hp) as Ho. rewrite Ht in Ho.
    eapply runs_bind; [by apply runs_pcatch, (retry_ok env Henv)|]. simpl.
    intros st1 (st0 & (E1 & E2 & E3 & E4) & ->).
    eapply runs_bind; [apply runs_bump|]. intros st2 (F1 & F2 & F3 & F4). apply runs_ret.
    simpl in *. split_and!; congruence.
Qed.

Lemma once_same {A} (op : pgop A) r st :
  (∀ st, runs env op st r (data_is (ps_rows st) (ps_events st) (ps_down st) (ps_metrics st))) →
  ∀ st', same_data st st' → runs env op st' r (same_data st).
Proof.
  intros Hop st' Hst. eapply runs_weaken; [apply Hop|]. intros st1 Hst1. by transitivity st'.
Qed.

(** The clock readings of a run are less than the breaker's time apart. *)
Definition within_cooldown : Prop :=
  ∀ n k, (pt_now (env n) - pt_now (env k) < PG_CIRCUIT_BREAKER_SECONDS * NANOS_PER_SECOND)%Z.

Definition opened (down : option Z) : Prop := ∃ n, down = Some (pt_now (env n)).

Lemma refused_request req st :
  refused req → ps_down st = None →
  runs env (persist_request s req) st (Ok (Some false))
    (λ st', ∃ d, opened d ∧
       data_is (ps_rows st) (ps_events st) d (count_failed (ps_metrics st) req) st').
Proof.
  intros Hreq Hd. apply (failed_request req st (Postgres "db error")); [by destruct req|].
  destruct req as [m|p| |]; try done.
  - destruct Hreq as (row & Hrow & Ht). eapply runs_weaken.
    { apply (retry_fails env Henv); [done|]. apply once_same. intros st0.
      pose proof (message_once m row st0 Hrow) as Ho. by rewrite Ht in Ho. }
    intros st' (E1 & E2 & E3 & E4). eexists. split; [exact E4|]. by split_and!.
  - destruct Hreq as [Hp Ht]. eapply runs_weaken.
    { apply (retry_fails env Henv); [done|]. apply once_same. intros st0.
      pose proof (presence_once p st0 Hp) as Ho. by rewrite Ht in Ho. }
    intros st' (E1 & E2 & E3 & E4). eexists. split; [exact E4|]. by split_and!.
Qed.

Lemma blocked_request req st :
  within_cooldown → is_write req = true → opened (ps_down st) →
  runs env (persist_request s req) st (Ok (Some false))
    (λ st', ∃ d, opened d ∧
       data_is (ps_rows st) (ps_events st) d (count_failed (ps_metrics st) req) st').
Proof.
  intros Hcool Hw Hopen.
  assert (∀ n, circuit_open (ps_down st) (pt_now (env n)) = true) as Hc.
  { intros n. destruct Hopen as [k ->]. simpl. apply Z.ltb_lt, Z.div_lt_upper_bound; [done|].
    specialize (Hcool n k). unfold PG_CIRCUIT_BREAKER_SECONDS, NANOS_PER_SECOND in *. lia. }
  eapply (failed_request req st); [done|].
  destruct req as [m|p| |]; try done; (eapply runs_weaken; [by apply (retry_open env Henv)|]);
    intros st' ->; exists (ps_down st); by split_and!.
Qed.

(** ** A whole batch *)

Lemma flush_requests_stored batch n naps st :
  Forall storable batch → ps_down st = None →
  ∃ n' naps' st', flush_requests s batch env (mkPgWorld st n naps)
    = (map (λ r, (r, true)) batch, mkPgWorld st' n' naps') ∧
    data_is (foldl store_rows (ps_rows st) batch) (foldl store_events (ps_events st) batch) None
      (Nat.iter (length batch) count_written (ps_metrics st)) st'.
Proof.
  intros Hb. revert n naps st. induction Hb as [|req batch Hr _ IH]; intros n naps st Hd.
  { exists n, naps, st. by split. }
  destruct (stored_request req st Hr Hd n naps) as (n1 & naps1 & st1 & E & E1 & E2 & E3 & E4).
  destruct (IH n1 naps1 st1 E3) as (n2 & naps2 & st2 & F & Hst2). exists n2, naps2, st2.
  cbn [flush_requests map]. rewrite E, F. split; [done|].
  cbn [foldl length]. rewrite Nat.iter_succ_r. by rewrite <- E1, <- E2, <- E4.
Qed.

Lemma flush_requests_blocked batch n naps st :
  within_cooldown → Forall (λ r, is_write r = true) batch → opened (ps_down st) →
  ∃ n' naps' st', flush_requests s batch env (mkPgWorld st n naps)
    = (map (λ r, (r, false)) batch, mkPgWorld st' n' naps') ∧
    ∃ d, opened d ∧ data_is (ps_rows st) (ps_events st) d
      (foldl count_failed (ps_metrics st) batch) st'.
Proof.
  intros Hcool Hb. revert n naps st. induction Hb as [|req batch Hr _ IH]; intros n naps st Hd.
  { exists n, naps, st. split; [done|]. exists (ps_down st). by split. }
  destruct (blocked_request req st Hcool Hr Hd n naps)
    as (n1 & naps1 & st1 & E & d1 & Hd1 & E1 & E2 & E3 & E4).
  rewrite <- E3 in Hd1. destruct (IH n1 naps1 st1 Hd1) as (n2 & naps2 & st2 & F & d2 & Hd2 & Hst2).
  exists n2, naps2, st2. cbn [flush_requests map]. rewrite E, F. split; [done|]. exists d2.
  split; [done|]. cbn [foldl]. by rewrite <- E1, <- E2, <- E4.
Qed.
End batches.

Section flushing.
Context `{Chrono} `{PgText}.

(** With a database that answers and a closed breaker, flushing a batch of writes that
    can be stored stores each of them, in order and skipping what is there already, and
    counts them written. *)
Theorem batch_stored s env (w : writer) :
  quiet env → is_Some (pgs_database_url s) → Forall storable (wr_batch w) →
  let st := pw_state (wr_world w) in
  ps_down st = None →
  let w' := flush_pg_batch s env w in
  wr_settled w' = wr_settled w ++ map (λ r, (r, true)) (wr_batch w) ∧
  data_is (foldl store_rows (ps_rows st) (wr_batch w)) (foldl store_events (ps_events st) (wr_batch w))
    None (count_batch (Nat.iter (length (wr_batch w)) count_written (ps_metrics st)))
    (pw_state (wr_world w')).
Proof.
  intros Henv Hurl Hb st Hd. unfold st in *. rewrite flush_pg_batch_settles.
  destruct (wr_world w) as [st0 n naps]. simpl in Hd.
  destruct (flush_requests_stored s env Henv Hurl _ n naps st0 Hb Hd)
    as (n' & naps' & st' & E & E1 & E2 & E3 & E4).
  rewrite E. destruct (runs_bump env Henv count_batch st' n' naps') as (n2 & naps2 & st2 & F & F').
  cbv zeta. cbn [wr_settled wr_world]. rewrite F. split; [done|]. destruct F' as (F1 & F2 & F3 & F4).
  simpl. split_and!; congruence.
Qed.

(** C16. One write that the database refuses - a text with a zero byte, which no check
    before it excludes - opens the circuit breaker: the writes behind it in the batch fail
    without being tried, however good they and the database are, and the breaker stays
    open. *)
Theorem refused_row_blocks s env (w : writer) req rest :
  quiet env → within_cooldown env → is_Some (pgs_database_url s) →
  wr_batch w = req :: rest → refused req → Forall (λ r, is_write r = true) rest →
  let st := pw_state (wr_world w) in
  ps_down st = None →
  let w' := flush_pg_batch s env w in
  wr_settled w' = wr_settled w ++ map (λ r, (r, false)) (req :: rest) ∧
  ∃ d, opened env d ∧
    data_is (ps_rows st) (ps_events st) d
      (count_batch (foldl count_failed (ps_metrics st) (req :: rest))) (pw_state (wr_world w')).
Proof.
  intros Henv Hcool Hurl Hb Hreq Hrest st Hd. unfold st in *. rewrite flush_pg_batch_settles, Hb.
  destruct (wr_world w) as [st0 n naps]. simpl in Hd. cbn [flush_requests pw_state].
  destruct (refused_request s env Henv Hurl req st0 Hreq Hd n naps)
    as (n1 & naps1 & st1 & E & d1 & Hd1 & E1 & E2 & E3 & E4). rewrite E. rewrite <- E3 in Hd1.
  destruct (flush_requests_blocked s env Henv rest n1 naps1 st1 Hcool Hrest Hd1)
    as (n2 & naps2 & st2 & F & d2 & Hd2 & F1 & F2 & F3 & F4). rewrite F.
  destruct (runs_bump env Henv count_batch st2 n2 naps2) as (n3 & naps3 & st3 & G & G1 & G2 & G3 & G4).
  cbv zeta. cbn [wr_settled wr_world]. rewrite G. split; [done|]. exists d2. split; [done|].
  split_and!; simpl; rewrite ?G1, ?G2, ?G3, ?G4; congruence.
Qed.
End flushing.
