(* ===== verification/PgDemo.v ===== *)
(** * PgDemo: the PostgreSQL writer at work

    A database that takes any text without a zero byte, and runs of the writer at which
    its theorems are evaluated. And what a waiting flush may be told when the task ends
    beside it. *)

From Stdlib Require Import ZArith Lia Ascii.
From stdpp Require Import base option list strings gmap relations.
From S2P Require Import Prelude Str Json Validation ClaimTypes Redis Channels.
From S2P Require Import OutboxHub SyncStore PgStore PgWriter PgProps PgStoreProps ClaimInstances.

#[local] Existing Instance bit_chrono.

Lemma to_ascii_lower_twice a : to_ascii_lower (to_ascii_lower a) = to_ascii_lower a.
Proof. destruct a as [[] [] [] [] [] [] [] []]; reflexivity. Qed.

Lemma lowercase_twice t : to_ascii_lowercase (to_ascii_lowercase t) = to_ascii_lowercase t.
Proof.
  unfold to_ascii_lowercase. induction t as [|a t IH]; simpl; [done|].
  by rewrite to_ascii_lower_twice, IH.
Qed.

Lemma lowercase_length t : String.length (to_ascii_lowercase t) = String.length t.
Proof. unfold to_ascii_lowercase. induction t; simpl; [done|]. by rewrite IHt. Qed.

(** Identifiers of four characters, in either case. *)
Definition four_uuid (t : string) : option string :=
  if decide (String.length t = 4) then Some (to_ascii_lowercase t) else None.

Definition demo_pg : PgText.
Proof.
  refine {| canonical_uuid := four_uuid;
            pg_takes_message m := negb (contains_char (m_body m) nul);
            pg_takes_presence p := negb (contains_char (p_status p) nul) |}.
  unfold four_uuid. intros t u Hu. case_decide; simplify_eq.
  rewrite lowercase_length, lowercase_twice. by rewrite decide_True.
Defined.

#[local] Existing Instance demo_pg.

Definition demo_settings : PgSettings :=
  mkPgSettings (Some "postgresql://localhost/bus") "messages" "presence_events".

Definition calm : pg_env := λ n, mkPgTurn (λ st, st) (Z.of_nat n) PgDone (λ l, l).

(** The same clock, standing still from some step on. *)
Definition slow : pg_env := λ n, mkPgTurn (λ st, st) 5 PgDone (λ l, l).

Lemma calm_quiet : quiet calm.
Proof. by intros n. Qed.
Lemma slow_quiet : quiet slow.
Proof. by intros n. Qed.

Definition demo_state : pg_state :=
  mkPgState (mkRows [] []) [] None false [] (mkPgMetrics 0 0 0 0 0).
Definition demo_world : pg_world := mkPgWorld demo_state 0 [].

Definition demo_message (id body : string) : Message :=
  mkMessage id (format_timestamp 3000) PROTOCOL_VERSION "alice" "bob" "status" body None [] "normal"
    false None (JObj []) None None None None None None.

Definition good : PgWriteRequest := WriteMessage (demo_message "AB12" "hello").
Definition better : PgWriteRequest := WriteMessage (demo_message "cd34" "again").
Definition zeroed : PgWriteRequest :=
  WriteMessage (demo_message "ef56" (String nul "")).

(** ** A run *)

Definition the_turn (w : writer) : writer := from_option (λ w, w) w (task_receive demo_settings calm w).

Definition sent : writer := send_finish 0 good calm (send_begin good (spawn demo_world)).
Definition asked : writer := from_option (λ w, w) sent (flush_request 7 sent).
Definition flushed : writer := the_turn (the_turn asked).
Definition stopping : writer := request_shutdown (send_finish 0 better calm (send_begin better flushed)).

Lemma one_step s w w' : reachable s w → writer_step s w w' → reachable s w'.
Proof. intros [world Hw] Hs. exists world. by eapply rtc_r. Qed.

Lemma sent_reachable : reachable demo_settings sent.
Proof.
  apply (one_step _ (send_begin good (spawn demo_world))); [|by apply StepFinish].
  apply (one_step _ (spawn demo_world)); [by exists demo_world|by apply StepBegin].
Qed.

Lemma asked_reachable : reachable demo_settings asked.
Proof.
  apply (one_step _ sent _ sent_reachable), (StepFlushWait _ 7); [done|apply not_elem_of_nil|done].
Qed.

Lemma flushed_reachable : reachable demo_settings flushed.
Proof.
  apply (one_step _ (the_turn asked)); [|by apply (StepReceive _ calm); vm_compute].
  apply (one_step _ asked _ asked_reachable). by apply (StepReceive _ calm); vm_compute.
Qed.

Lemma stopping_reachable : reachable demo_settings stopping.
Proof.
  apply (one_step _ (send_finish 0 better calm (send_begin better flushed))); [|by apply StepShutdown].
  apply (one_step _ (send_begin better flushed)); [|by apply StepFinish].
  apply (one_step _ flushed _ flushed_reachable). by apply StepBegin.
Qed.

Lemma writer_accounts_witness :
  wr_pending stopping = 1%Z ∧ wr_settled stopping = [(good, true)] ∧
  wr_accepted stopping = [good] ++ [] ++ List.filter is_write (wr_queue stopping) ++ [].
Proof.
  split_and!; [by vm_compute|by vm_compute|].
  exact (proj1 (writer_accounts demo_settings stopping stopping_reachable)).
Defined.

Lemma flush_settles_witness :
  wr_completed flushed = [7] ∧
  ∃ n, (7, n) ∈ wr_marks flushed ∧ n ≤ length (wr_settled flushed).
Proof.
  split; [by vm_compute|].
  destruct (flush_settles demo_settings flushed 7 flushed_reachable) as (n & Hn & Hle & _).
  - by apply list_elem_of_singleton.
  - exists n. split; [by apply Hn|done].
Defined.

Lemma shutdown_drains_witness :
  let w' := run_task demo_settings calm 5 stopping in
  wr_mode w' = Gone ∧ (wr_settled w').*1 = [good; better] ∧ wr_pending w' = 0%Z.
Proof.
  cbv zeta. destruct (shutdown_drains demo_settings calm stopping 5 stopping_reachable) as (Hm & _ & Hs & Hp).
  - right. split; [done|]. vm_compute. do 2 constructor.
  - vm_compute. lia.
  - split_and!; [exact Hm|by rewrite Hs; vm_compute|by rewrite Hp; vm_compute].
Defined.

(** ** Batches *)

Definition full : writer := with_batch (spawn demo_world) [good; better].
Definition spoilt : writer := with_batch (spawn demo_world) [zeroed; good; better].

Lemma batch_stored_witness :
  let w' := flush_pg_batch demo_settings calm full in
  map m_id (pg_messages (ps_rows (pw_state (wr_world w')))) = ["ab12"; "cd34"].
Proof.
  cbv zeta. destruct (batch_stored demo_settings calm full) as [_ [E _]].
  - apply calm_quiet.
  - by eexists.
  - repeat constructor; (eexists; split; [by vm_compute|by vm_compute]).
  - done.
  - rewrite E. by vm_compute.
Defined.

Lemma refused_row_blocks_witness :
  let w' := flush_pg_batch demo_settings slow spoilt in
  (wr_settled w').*2 = [false; false; false] ∧
  mt_dropped_writes (ps_metrics (pw_state (wr_world w'))) = 3%Z ∧
  pg_messages (ps_rows (pw_state (wr_world w'))) = [].
Proof.
  cbv zeta. destruct (refused_row_blocks demo_settings slow spoilt zeroed [good; better])
    as (E & d & _ & F & _ & _ & G).
  - apply slow_quiet.
  - intros n k. vm_compute. done.
  - by eexists.
  - done.
  - eexists. split; [by vm_compute|by vm_compute].
  - repeat constructor.
  - done.
  - split_and!; [by rewrite E|by rewrite G; vm_compute|by rewrite F].
Defined.

(** ** A flush beside the end *)

Definition draining : writer := the_turn (request_shutdown (spawn demo_world)).
Definition ending : writer := the_turn (the_turn draining).
Definition late : writer := send_finish 0 good calm (send_begin good ending).
Definition late_asked : writer := from_option (λ w, w) late (flush_request 7 late).

(** The task has found its channel empty and is about to end: a message that still enters
    the channel, and the flush behind it, go with the channel. The wait for the flush is
    over then, before its time, and answers [true]; the message was never tried. *)
Lemma flush_answers_for_nothing :
  let w := the_turn late_asked in
  reachable demo_settings w ∧ (7, 1) ∈ wr_marks w ∧ flush_answer 7 false w = Some true ∧
  wr_accepted w = [good] ∧ wr_settled w = [] ∧ wr_abandoned w = [good].
Proof.
  intros w. assert (reachable demo_settings w) as Hr.
  { apply (one_step _ late_asked); [|by apply (StepReceive _ calm); vm_compute].
    apply (one_step _ late); [|by apply (StepFlushWait _ 7); [done|apply not_elem_of_nil|done]].
    apply (one_step _ (send_begin good ending)); [|by apply StepFinish].
    apply (one_step _ ending); [|by apply StepBegin].
    apply (one_step _ (the_turn draining)); [|by apply (StepReceive _ calm); vm_compute].
    apply (one_step _ draining); [|by apply (StepReceive _ calm); vm_compute].
    apply (one_step _ (request_shutdown (spawn demo_world)));
      [|by apply (StepReceive _ calm); vm_compute].
    apply (one_step _ (spawn demo_world)); [by exists demo_world|by apply StepShutdown]. }
  split; [done|]. split; [vm_compute; left|]. by split_and!; vm_compute.
Qed.
