(* ===== verification/Consistency.v ===== *)
(** * Consistency: comparing and repairing the two stores

    [store_consistency.rs] and [reconcile.rs]: the identifiers the stream and PostgreSQL
    hold for one time range, their comparison, and the backfill of what only the stream
    holds. An operation runs over a connection and a database; others act on both. The
    instants, in nanoseconds, stay in [chrono]'s range, outside which it panics; reports
    hold them instead of their texts. *)

From Stdlib Require Import ZArith Lia Ascii.
From stdpp Require Import base option list strings gmap.
From S2P Require Import Prelude Str Json Validation McpSchema ClaimTypes Outbox Redis.
From S2P Require Import Channels Messages StreamEntry ReplayScript OutboxHub SyncStore Bus Inbox.
From S2P Require Import Ops PgStore.

Definition DEFAULT_SETTLE_SECONDS : Z := 30.
Definition DEFAULT_MAX_LISTED : nat := 50.
Definition DEFAULT_MAX_INSERT : nat := 1000.
Definition XRANGE_PAGE : nat := 1000.
Definition STREAM_START_SLACK_MS : Z := 60000.

Inductive Scope : Type := Window (duration : Z) | Full.

Record IdSetReport := mkIdSetReport {
  rp_ok : bool;
  rp_redis_count : nat;
  rp_pg_count : nat;
  rp_redis_digest : string;
  rp_pg_digest : string;
  rp_redis_only_count : nat;
  rp_pg_only_count : nat;
  rp_redis_only : list string;
  rp_pg_only : list string;
  rp_listing_truncated : bool;
}.

Record StoreCheck := mkStoreCheck {
  sc_scope : string;
  sc_from : Z;
  sc_to : Z;
  sc_redis_retention_start : option Z;
  sc_redis_non_uuid_skipped : nat;
  sc_redis_untimed_skipped : nat;
  sc_report : IdSetReport;
}.

(** ** Sets of identifiers *)

(** A [BTreeSet] collected from a list. *)
Definition id_set (ids : list string) : list string := foldr set_insert [] ids.

(** [format!("{n:032x}")]. *)
Fixpoint hex_digits (count : nat) (n : Z) (acc : string) : string :=
  match count with
  | O => acc
  | S count => hex_digits count (Z.shiftr n 4) (String (HEX (Z.land n 15)) acc)
  end.

Definition be_value (bytes : list Z) : Z := foldl (λ acc b, acc * 256 + b)%Z 0%Z bytes.

Definition set_difference (a b : list string) : list string :=
  List.filter (λ x, negb (bool_decide (x ∈ b))) a.

Section digest.
Context `{JournalCodec}.

(** The first 128 bits of the SHA-256 of an identifier. *)
Definition id_head (id : string) : Z := be_value (take 16 (sha256 id)).

Definition id_sum (unique : list string) : Z :=
  foldl (λ sum id, (sum + id_head id) mod 2 ^ 128)%Z 0%Z unique.

Definition id_set_digest (ids : list string) : string := hex_digits 32 (id_sum (id_set ids)) "".

Definition compare_id_sets (redis pg : list string) (max_listed : nat) : IdSetReport :=
  let redis_set := id_set redis in
  let pg_set := id_set pg in
  let redis_only := set_difference redis_set pg_set in
  let pg_only := set_difference pg_set redis_set in
  mkIdSetReport (bool_decide (redis_only = []) && bool_decide (pg_only = []))
    (length redis_set) (length pg_set) (id_set_digest redis_set) (id_set_digest pg_set)
    (length redis_only) (length pg_only) (take max_listed redis_only) (take max_listed pg_only)
    ((max_listed <? length redis_only) || (max_listed <? length pg_only)).
End digest.

(** ** Replies *)

Definition value_text (v : redis_value) : option string :=
  match v with
  | BulkString b => Some (from_utf8_lossy b)
  | SimpleString t => Some t
  | _ => None
  end.

(** The first pair with that name and a value that is a text. *)
Fixpoint field_text (fields : list redis_value) (name : string) : option string :=
  match fields with
  | k :: v :: rest =>
      match value_text k with
      | Some key => if bool_decide (key = name)
                    then match value_text v with Some t => Some t | None => field_text rest name end
                    else field_text rest name
      | None => field_text rest name
      end
  | _ => None
  end.

Definition parse_range_entry (e : redis_value) : option (string * list redis_value) :=
  match e with
  | ArrayValue (sid :: rest) =>
      stream_id ← value_text sid;
      match rest with ArrayValue fields :: _ => Some (stream_id, fields) | _ => None end
  | _ => None
  end.

Definition parse_range_page (raw : list redis_value) : list (string * list redis_value) :=
  omap parse_range_entry raw.

(** ** The stream's side *)

(** [XRANGE key start + COUNT count], for the starts of [xrange_entries] and a lone
    identifier, which is inclusive. *)
Definition xrange_from (start : string) (count : nat) (l : list (string * list string))
    : result string (list (string * list string)) :=
  if starts_with start "(" || bool_decide (start = "-") then xrange_entries start count l
  else match stream_rank start with
       | Some r => Ok (take count (List.filter (λ e, match stream_rank e.1 with
                                                     | Some q => (r <=? q)%Z
                                                     | None => false
                                                     end) l))
       | None => Err "ERR Invalid stream ID specified as stream command argument"
       end.

Definition redis_XRANGE_FROM (key start : string) (count : nat) : lua (list redis_value) :=
  lread (λ d now,
    match live_entry d now key with
    | None => Ok []
    | Some (VStream l) =>
        let? found := xrange_from start count l in
        Ok (map (λ e, ArrayValue [BulkString e.1; ArrayValue (map BulkString e.2)]) found)
    | Some _ => WRONGTYPE
    end).

(** [str::parse::<i64>]. *)
Definition parse_i64 (s : string) : option Z :=
  match strip_prefix s "-" with
  | Some body =>
      if is_empty body then None
      else v ← digits_value 0 body; if (v <=? Prelude.I64_MAX + 1)%Z then Some (- v)%Z else None
  | None => v ← parse_u64 s; if (v <=? Prelude.I64_MAX)%Z then Some v else None
  end.

Definition MIN_UTC_SECS : Z := -8334601228800.

(** [DateTime::from_timestamp_millis]. *)
Definition from_timestamp_millis (ms : Z) : option Z :=
  if (MIN_UTC_SECS <=? ms / 1000)%Z && (ms / 1000 <=? MAX_UTC_SECS)%Z then Some (ms * 1000000)%Z
  else None.

Definition timestamp_millis (t : Z) : Z := t / 1000000.

Record RedisIds := mkRedisIds {
  ri_ids : list string;
  ri_non_uuid_skipped : nat;
  ri_untimed_skipped : nat;
  ri_retention_start : option Z;
  ri_effective_from : Z;
}.

Record StoreScan := mkStoreScan {
  sn_scope : string;
  sn_from : Z;
  sn_to : Z;
  sn_redis_retention_start : option Z;
  sn_redis_ids : list string;
  sn_pg_ids : list string;
  sn_redis_non_uuid_skipped : nat;
  sn_redis_untimed_skipped : nat;
}.

Record ReconcileReport := mkReconcileReport {
  rr_applied : bool;
  rr_planned_redis_to_pg : nat;
  rr_inserted : nat;
  rr_pg_only_not_restorable : nat;
  rr_before : StoreCheck;
  rr_after : option StoreCheck;
}.

(** Both stores, and what each of their steps meets. *)
Record stores := mkStores { st_conn : conn; st_pg : pg_world }.
Record stores_env := mkStoresEnv { se_bus : bus_env; se_pg : pg_env }.

Definition both (A : Type) : Type := stores_env → stores → Result A * stores.

Definition bothret {A} (a : A) : both A := λ _ w, (Ok a, w).
Definition bothfail {A} (e : AgentBusError) : both A := λ _ w, (Err e, w).
Definition bothbind {A B} (m : both A) (k : A → both B) : both B :=
  λ env w, match m env w with
           | (Ok a, w') => k a env w'
           | (Err e, w') => (Err e, w')
           end.

Notation "'let%' x ':=' m 'in' k" := (bothbind m (fun x => k))
  (at level 10, x pattern, m at level 200, k at level 200) : bus_scope.

Definition on_redis {A} (m : bus A) : both A :=
  λ env w, let '(r, c) := m (se_bus env) (st_conn w) in (r, mkStores c (st_pg w)).
Definition on_pg {A} (m : pgop A) : both A :=
  λ env w, let '(r, p) := m (se_pg env) (st_pg w) in (r, mkStores (st_conn w) p).

(** A loop that ran out of fuel has no result. *)
Definition both_some {A B} (o : option A) (k : A → both (option B)) : both (option B) :=
  match o with Some a => k a | None => bothret None end.

Section scan.
Context `{JournalCodec} `{Chrono} `{EntryText} `{PgText}.

Definition entry_time (fields : list redis_value) : option Z :=
  ts ← field_text fields "timestamp_utc";
  match parse_timestamp_utc ts with Ok t => Some t | Err _ => None end.

Definition entry_uuid (fields : list redis_value) : option string :=
  field_text fields "id" ≫= canonical_uuid.

(** The boundary given by the first retained entry. *)
Definition retention_of (first : list redis_value) : option Z :=
  match parse_range_page first with
  | [] => None
  | (stream_id, fields) :: _ =>
      match entry_time fields with
      | Some t => Some t
      | None =>
          let ms := match split_once "-" stream_id with Some (ms, _) => ms | None => stream_id end in
          parse_i64 ms ≫= from_timestamp_millis
      end
  end.

(** The body of the loop over a page. *)
Fixpoint scan_ids (from to : Z) (page : list (string * list redis_value)) (out : RedisIds) : RedisIds :=
  match page with
  | [] => out
  | (_, fields) :: page =>
      match entry_time fields with
      | None =>
          scan_ids from to page
            (mkRedisIds (ri_ids out) (ri_non_uuid_skipped out) (S (ri_untimed_skipped out))
               (ri_retention_start out) (ri_effective_from out))
      | Some timestamp =>
          if (timestamp <? from)%Z || (to <? timestamp)%Z then scan_ids from to page out
          else
            scan_ids from to page
              match entry_uuid fields with
              | Some uuid =>
                  mkRedisIds (ri_ids out ++ [uuid]) (ri_non_uuid_skipped out)
                    (ri_untimed_skipped out) (ri_retention_start out) (ri_effective_from out)
              | None =>
                  mkRedisIds (ri_ids out) (S (ri_non_uuid_skipped out)) (ri_untimed_skipped out)
                    (ri_retention_start out) (ri_effective_from out)
              end
      end
  end.

(** The loop over the pages; [None] when the fuel has run out. *)
Fixpoint scan_stream (fuel : nat) (key : string) (from to : Z) (cursor : string) (out : RedisIds)
    : bus (option RedisIds) :=
  match fuel with
  | O => bret None
  | S fuel =>
      let+ raw := command "XRANGE failed" (redis_XRANGE_FROM key cursor XRANGE_PAGE) in
      let page := parse_range_page raw in
      match List.last (map (λ e, Some e.1) page) None with
      | None => bret (Some out)
      | Some last =>
          let out := scan_ids from to page out in
          if (XRANGE_PAGE <=? length page)%nat then scan_stream fuel key from to ("(" +:+ last) out
          else bret (Some out)
      end
  end.

Definition start_cursor (from : Z) : string :=
  dec (Z.max (timestamp_millis from - STREAM_START_SLACK_MS) 0) +:+ "-0".

(** A connection is a command that may be lost. *)
Definition redis_connect : bus unit := command "Redis connection failed" (lret tt).

Definition read_redis_ids (fuel : nat) (key : string) (from to : Z) : bus (option RedisIds) :=
  let+ _ := redis_connect in
  let+ first := command "XRANGE failed" (redis_XRANGE_FROM key "-" 1) in
  let retention_start := retention_of first in
  let from := match retention_start with Some start => Z.max from start | None => from end in
  scan_stream fuel key from to (start_cursor from) (mkRedisIds [] 0 0 retention_start from).

Definition scan_stores (fuel : nat) (key : string) (s : PgSettings) (scope : Scope) (settle : Z)
    : both (option StoreScan) :=
  match pgs_database_url s with
  | None => bothfail (Internal "store consistency needs PostgreSQL (database_url is not configured)")
  | Some _ =>
      let% now := on_redis clock in
      let to := (now - settle)%Z in
      let requested_from := match scope with Window window => (to - window)%Z | Full => 0%Z end in
      let% redis := on_redis (read_redis_ids fuel key requested_from to) in
      both_some redis (λ redis,
        let from := ri_effective_from redis in
        let% pg_ids := on_pg (list_message_ids_between s from to) in
        bothret (Some (mkStoreScan (match scope with Window _ => "window" | Full => "full" end)
          from to (ri_retention_start redis) (ri_ids redis) pg_ids (ri_non_uuid_skipped redis)
          (ri_untimed_skipped redis))))
  end.

Definition scan_check (n : StoreScan) (max_listed : nat) : StoreCheck :=
  mkStoreCheck (sn_scope n) (sn_from n) (sn_to n) (sn_redis_retention_start n)
    (sn_redis_non_uuid_skipped n) (sn_redis_untimed_skipped n)
    (compare_id_sets (sn_redis_ids n) (sn_pg_ids n) max_listed).

Definition check_stores (fuel : nat) (key : string) (s : PgSettings) (scope : Scope) (settle : Z)
    (max_listed : nat) : both (option StoreCheck) :=
  let% scan := scan_stores fuel key s scope settle in
  bothret ((λ n, scan_check n max_listed) <$> scan).

(** ** Repair ([reconcile.rs]) *)

Definition plan_redis_to_pg (redis pg : list string) : list string :=
  id_set (List.filter (λ id, negb (bool_decide (id ∈ pg))) redis).

Definition is_wanted (wanted : list string) (id : string) : bool :=
  match canonical_uuid id with
  | Some parsed => bool_decide (parsed ∈ wanted)
  | None => bool_decide (id ∈ wanted)
  end.

(** The loop over names and values ends at a name that is no bulk string. *)
Fixpoint bulk_fields (acc : entry_fields) (flat : list redis_value) : entry_fields :=
  match flat with
  | BulkString key :: v :: rest => bulk_fields (<[from_utf8_lossy key := v]> acc) rest
  | _ => acc
  end.

(** The body of the loop over a page, with the last identifier seen. *)
Fixpoint fetch_page (wanted : list string) (from to : Z) (raw : list redis_value)
    (last : option string) (found : list Message) : option string * list Message :=
  match raw with
  | [] => (last, found)
  | ArrayValue (sid :: ArrayValue flat :: _) :: raw =>
      match value_text sid with
      | None => fetch_page wanted from to raw last found
      | Some stream_id =>
          let message := decode_stream_entry (bulk_fields ∅ flat) in
          let in_range := match parse_timestamp_utc (m_timestamp_utc message) with
                          | Ok t => (from <=? t)%Z && (t <=? to)%Z
                          | Err _ => false
                          end in
          fetch_page wanted from to raw (Some stream_id)
            (if is_wanted wanted (m_id message) && in_range
             then found ++ [set_stream_id message stream_id] else found)
      end
  | _ :: raw => fetch_page wanted from to raw last found
  end.

Fixpoint fetch_pages (fuel : nat) (key : string) (wanted : list string) (from to : Z) (cursor : string)
    (found : list Message) : bus (option (list Message)) :=
  match fuel with
  | O => bret None
  | S fuel =>
      let+ raw := command "XRANGE failed" (redis_XRANGE_FROM key cursor XRANGE_PAGE) in
      match fetch_page wanted from to raw None found with
      | (Some last, found) =>
          if (XRANGE_PAGE <=? length raw)%nat then fetch_pages fuel key wanted from to ("(" +:+ last) found
          else bret (Some found)
      | (None, found) => bret (Some found)
      end
  end.

Definition fetch_redis_messages (fuel : nat) (key : string) (wanted : list string) (from to : Z)
    : bus (option (list Message)) :=
  let+ _ := redis_connect in
  fetch_pages fuel key wanted from to (start_cursor from) [].

Definition reconcile (fuel : nat) (key : string) (s : PgSettings) (scope : Scope) (settle : Z)
    (max_listed : nat) (apply : bool) (max_insert : nat) : both (option ReconcileReport) :=
  let% scan := scan_stores fuel key s scope settle in
  both_some scan (λ scan,
    let before := scan_check scan max_listed in
    let plan := plan_redis_to_pg (sn_redis_ids scan) (sn_pg_ids scan) in
    let pg_only := rp_pg_only_count (sc_report before) in
    if negb apply then bothret (Some (mkReconcileReport false (length plan) 0 pg_only before None))
    else if (max_insert <? length plan)%nat
    then bothfail (Internal ("refusing to backfill " +:+ dec (Z.of_nat (length plan))
           +:+ " messages: more than --max-insert " +:+ dec (Z.of_nat max_insert)
           +:+ "; narrow the window or raise the cap after reviewing the dry run"))
    else
      let% inserted :=
        (match plan with
         | [] => bothret (Some 0)
         | _ :: _ =>
             let% messages := on_redis (fetch_redis_messages fuel key plan (sn_from scan) (sn_to scan)) in
             both_some messages (λ messages,
               let% (_, newly) := on_pg (sync_redis_to_postgres s messages) in
               bothret (Some newly))
         end) in
      both_some inserted (λ inserted,
        let% after := scan_stores fuel key s scope settle in
        both_some after (λ after,
          bothret (Some (mkReconcileReport true (length plan) inserted pg_only before
                           (Some (scan_check after max_listed))))))).
End scan.
