(* ===== verification/ConsistencyProps.v ===== *)
(** * ConsistencyProps: comparing the stores

    The comparison is one of sets, whatever the order and the repetitions of the two
    lists. Over stores that nobody writes to meanwhile, a check says [ok] exactly when
    stream and table hold the same identifiers in the range it reports. *)

From Stdlib Require Import ZArith Lia Ascii.
From stdpp Require Import base option list strings gmap sorting.
From S2P Require Import Prelude Str Json Validation McpSchema ClaimTypes Outbox Redis.
From S2P Require Import Channels Messages StreamEntry ReplayScript OutboxHub SyncStore StreamFacts.
From S2P Require Import Bus Inbox Ops ListingProps SummaryProps PgStore PgWriter PgStoreProps.
From S2P Require Import Consistency.

(** ** Sets *)

Lemma elem_of_id_set x ids : x ∈ id_set ids ↔ x ∈ ids.
Proof.
  unfold id_set. induction ids as [|y ids IH]; simpl; [done|].
  by rewrite elem_of_set_insert, IH, elem_of_cons.
Qed.

Lemma id_set_sorted ids : StronglySorted str_lt (id_set ids).
Proof. induction ids; simpl; [constructor|by apply set_insert_sorted]. Qed.

Lemma elem_of_set_difference x a b : x ∈ set_difference a b ↔ x ∈ a ∧ x ∉ b.
Proof.
  unfold set_difference. rewrite elem_of_filter_b, negb_true_iff, bool_decide_eq_false. done.
Qed.

Lemma str_lt_irrefl x : ¬ str_lt x x.
Proof.
  intros [_ Hn]. unfold str_le in Hn. pose proof (String.leb_total x x) as [?|?]; congruence.
Qed.

Lemma sorted_same (a b : list string) :
  StronglySorted str_lt a → StronglySorted str_lt b → (∀ x, x ∈ a ↔ x ∈ b) → a = b.
Proof.
  intros Ha. revert b. induction Ha as [|x a Ha IH Hx]; intros b Hb Hab.
  { destruct b as [|y b]; [done|]. exfalso. by eapply not_elem_of_nil, (Hab y), list_elem_of_here. }
  destruct Hb as [|y b Hb Hy]. { exfalso. by eapply not_elem_of_nil, (Hab x), list_elem_of_here. }
  rewrite Forall_forall in Hx, Hy.
  assert (x = y) as <-.
  { destruct (proj1 (elem_of_cons _ _ _) (proj1 (Hab x) ltac:(by left))) as [?|Hxb]; [done|].
    destruct (proj1 (elem_of_cons _ _ _) (proj2 (Hab y) ltac:(by left))) as [?|Hya]; [done|].
    destruct (str_lt_irrefl x). eapply str_lt_trans; [by apply Hx|by apply Hy]. }
  f_equal. apply IH; [done|]. intros z. specialize (Hab z). rewrite !elem_of_cons in Hab.
  split; intros Hz.
  - destruct (proj1 Hab (or_intror Hz)) as [->|?]; [|done]. destruct (str_lt_irrefl x). by apply Hx.
  - destruct (proj2 Hab (or_intror Hz)) as [->|?]; [|done]. destruct (str_lt_irrefl x). by apply Hy.
Qed.

Lemma id_set_same a b : (∀ x, x ∈ a ↔ x ∈ b) → id_set a = id_set b.
Proof.
  intros Hab. apply sorted_same; [apply id_set_sorted..|]. intros x. by rewrite !elem_of_id_set.
Qed.

Lemma empty_difference a b : set_difference a b = [] ↔ ∀ x, x ∈ a → x ∈ b.
Proof.
  split.
  - intros E x Hx. destruct (decide (x ∈ b)) as [?|Hn]; [done|].
    assert (x ∈ set_difference a b) as Hd by by apply elem_of_set_difference.
    rewrite E in Hd. by apply elem_of_nil in Hd.
  - intros Hab. apply filter_none. intros x Hx. apply negb_false_iff, bool_decide_eq_true. by apply Hab.
Qed.

(** ** The comparison *)

Section comparison.
Context `{JournalCodec}.

(** One side of a comparison: exactly the identifiers of one list that the other lacks,
    each once, in order. *)
Definition only_in (a b : list string) : list string := set_difference (id_set a) (id_set b).

Lemma elem_of_only_in x a b : x ∈ only_in a b ↔ x ∈ a ∧ x ∉ b.
Proof. unfold only_in. by rewrite elem_of_set_difference, !elem_of_id_set. Qed.

Lemma only_in_sorted a b : StronglySorted str_lt (only_in a b).
Proof. apply StronglySorted_filter_b, id_set_sorted. Qed.

Lemma compare_ok redis pg n :
  rp_ok (compare_id_sets redis pg n) = true ↔ ∀ x, x ∈ redis ↔ x ∈ pg.
Proof.
  simpl. rewrite andb_true_iff, !bool_decide_eq_true, !empty_difference.
  setoid_rewrite elem_of_id_set. naive_solver.
Qed.

(** The digest is one of the set. *)
Lemma digest_same a b : (∀ x, x ∈ a ↔ x ∈ b) → id_set_digest a = id_set_digest b.
Proof. intros Hab. unfold id_set_digest. by rewrite (id_set_same a b). Qed.

Lemma size_id_set ids : length (id_set ids) = size (list_to_set ids : gset string).
Proof.
  assert (list_to_set ids = (list_to_set (id_set ids) : gset string)) as ->.
  { apply leibniz_equiv. intros x. rewrite !elem_of_list_to_set. by rewrite elem_of_id_set. }
  by rewrite size_list_to_set by apply strict_nodup, id_set_sorted.
Qed.

Lemma size_only_in a b :
  length (only_in a b) = size (list_to_set a ∖ list_to_set b : gset string).
Proof.
  assert (list_to_set a ∖ list_to_set b = (list_to_set (only_in a b) : gset string)) as ->.
  { apply leibniz_equiv. intros x.
    by rewrite elem_of_difference, !elem_of_list_to_set, elem_of_only_in. }
  by rewrite size_list_to_set by apply strict_nodup, only_in_sorted.
Qed.

(** What one listing says: sorted, of the identifiers the other side lacks, all of them
    unless it was cut. *)
Definition lists_missing (listing : list string) (count cut : nat) (a b : list string) : Prop :=
  StronglySorted str_lt listing ∧ (∀ x, x ∈ listing → x ∈ a ∧ x ∉ b) ∧
  count = size (list_to_set a ∖ list_to_set b : gset string) ∧ length listing = min cut count ∧
  (count ≤ cut → ∀ x, x ∈ a → x ∉ b → x ∈ listing).

Lemma listing_missing a b cut :
  lists_missing (take cut (only_in a b)) (length (only_in a b)) cut a b.
Proof.
  split_and!.
  - eapply StronglySorted_sublist; [apply sublist_take|apply only_in_sorted].
  - intros x Hx%elem_of_take_in. by apply elem_of_only_in.
  - apply size_only_in.
  - apply length_take.
  - intros Hc x Ha Hb. rewrite take_ge by done. by apply elem_of_only_in.
Qed.

(** A report is of the two sets, whatever order and repetitions the stores' lists
    have: [ok] says that they are equal, and then the digests are; the counts are their
    sizes and those of their differences; each side's listing holds, in order, identifiers
    only that side has, and all of them unless the report says it was cut. *)
Theorem comparison_tells redis pg cut :
  let r := compare_id_sets redis pg cut in
  (rp_ok r = true ↔ ∀ x, x ∈ redis ↔ x ∈ pg) ∧
  (rp_ok r = true → rp_redis_digest r = rp_pg_digest r) ∧
  rp_redis_count r = size (list_to_set redis : gset string) ∧
  rp_pg_count r = size (list_to_set pg : gset string) ∧
  lists_missing (rp_redis_only r) (rp_redis_only_count r) cut redis pg ∧
  lists_missing (rp_pg_only r) (rp_pg_only_count r) cut pg redis ∧
  (rp_listing_truncated r = true ↔ cut < rp_redis_only_count r ∨ cut < rp_pg_only_count r).
Proof.
  split; [apply compare_ok|]. cbv zeta. split_and!.
  - intros Hok. pose proof (proj1 (compare_ok _ _ _) Hok) as Hs.
    apply digest_same. intros x. by rewrite !elem_of_id_set.
  - apply size_id_set.
  - apply size_id_set.
  - apply listing_missing.
  - apply listing_missing.
  - simpl. by rewrite orb_true_iff, !Nat.ltb_lt.
Qed.

(** ** The digest *)

Lemma HEX_inj a b : (0 ≤ a < 16)%Z → (0 ≤ b < 16)%Z → HEX a = HEX b → a = b.
Proof.
  intros Ha Hb. assert (∀ z, (0 ≤ z < 16)%Z → z ∈ [0;1;2;3;4;5;6;7;8;9;10;11;12;13;14;15]%Z) as Hin.
  { intros z Hz. rewrite !elem_of_cons. lia. }
  apply Hin in Ha, Hb. intros E. rewrite !elem_of_cons, elem_of_nil in Ha, Hb.
  destruct_or!; subst; try done; by vm_compute in E.
Qed.

Lemma hex_digits_inj count : ∀ n m acc acc', (0 ≤ n < 16 ^ Z.of_nat count)%Z →
  (0 ≤ m < 16 ^ Z.of_nat count)%Z → hex_digits count n acc = hex_digits count m acc' →
  n = m ∧ acc = acc'.
Proof.
  induction count as [|count IH]; intros n m acc acc' Hn Hm E; simpl in E.
  { simpl in *. split; [lia|done]. }
  rewrite Nat2Z.inj_succ, Z.pow_succ_r in Hn, Hm by lia.
  assert (∀ z, (0 ≤ z < 16 * 16 ^ Z.of_nat count)%Z → (0 ≤ Z.shiftr z 4 < 16 ^ Z.of_nat count)%Z) as Hs.
  { intros z Hz. rewrite Z.shiftr_div_pow2 by lia. change (2 ^ 4)%Z with 16%Z.
    split; [apply Z.div_pos; lia|apply Z.div_lt_upper_bound; lia]. }
  apply IH in E as [Eq Et]; [|by apply Hs..]. injection Et as Eh ->.
  assert (∀ z, Z.land z 15 = z mod 16)%Z as Hl by (intros z; apply (Z.land_ones z 4); lia).
  rewrite !Hl in Eh. apply HEX_inj in Eh; [|apply Z.mod_pos_bound; lia..].
  rewrite !Z.shiftr_div_pow2 in Eq by lia. change (2 ^ 4)%Z with 16%Z in Eq. split; [|done].
  rewrite (Z.div_mod n 16), (Z.div_mod m 16) by lia. by rewrite Eq, Eh.
Qed.

(** The sum, without the order. *)
Definition head_total (l : list string) : Z := foldr (λ id t, id_head id + t)%Z 0%Z l.

Lemma id_sum_total l : id_sum l = (head_total l mod 2 ^ 128)%Z.
Proof.
  unfold id_sum. enough (∀ a, (0 ≤ a < 2 ^ 128)%Z →
    foldl (λ sum id, (sum + id_head id) mod 2 ^ 128)%Z a l = ((a + head_total l) mod 2 ^ 128)%Z) as Hg.
  { rewrite (Hg 0%Z) by lia. done. }
  induction l as [|x l IH]; intros a Ha; simpl.
  { rewrite Z.add_0_r. symmetry. by apply Z.mod_small. }
  rewrite IH by by apply Z.mod_pos_bound. rewrite Zplus_mod_idemp_l. f_equal. lia.
Qed.

Lemma head_total_insert x l : x ∉ l → head_total (set_insert x l) = (id_head x + head_total l)%Z.
Proof.
  induction l as [|y l IH]; simpl; [done|]. intros [Hne Hl]%not_elem_of_cons.
  rewrite bool_decide_eq_false_2 by done. destruct (str_le x y); simpl; [done|]. rewrite IH by done. lia.
Qed.

(** One identifier more changes the digest, unless the first half of its hash is zero. *)
Lemma digest_one_more x ids :
  x ∉ ids → (id_set_digest (x :: ids) = id_set_digest ids ↔ (id_head x mod 2 ^ 128 = 0)%Z).
Proof.
  intros Hx. unfold id_set_digest. change (id_set (x :: ids)) with (set_insert x (id_set ids)).
  rewrite !id_sum_total, head_total_insert by by rewrite elem_of_id_set.
  set (t := head_total (id_set ids)). split.
  - intros E. apply hex_digits_inj in E as [E _]; [|apply Z.mod_pos_bound; lia..].
    replace (id_head x) with (id_head x + t - t)%Z by lia. by rewrite Zminus_mod, E, Z.sub_diag.
  - intros E. rewrite <- Zplus_mod_idemp_l, E. done.
Qed.
End comparison.
