(* ===== verification/ScanProps.v ===== *)
(** * ScanProps: checking and repairing stores at rest

    The scan of the stream reads page after page and finds exactly the identifiers of the
    range; with the table's answer a check is right, and a repair leaves nothing behind
    that only the stream holds. While it runs nobody else writes. *)

From Stdlib Require Import ZArith Lia Ascii.
From stdpp Require Import base option list strings gmap sorting.
From S2P Require Import Prelude Str Json Validation McpSchema ClaimTypes Outbox Redis.
From S2P Require Import Channels Messages StreamEntry ReplayScript OutboxHub SyncStore StreamFacts.
From S2P Require Import Bus Inbox Ops ListingProps SummaryProps PgStore PgWriter PgStoreProps.
From S2P Require Import Consistency ConsistencyProps.

(** ** Ranges of a sorted stream *)

Lemma sorted_from l r : good_stream l →
  ∃ k, List.filter (λ e, (r <=? erank e)%Z) l = drop k l ∧
       (∀ e, e ∈ take k l → (erank e < r)%Z).
Proof.
  intros [Hs _]. induction Hs as [|x l Hl (k & E & Hk) Hx].
  { exists 0. split; [done|]. by intros e ?%elem_of_nil. }
  simpl.
  rewrite Forall_forall in Hx. destruct (Z.leb_spec r (erank x)) as [Hr|Hr].
  - exists 0. split; [|by intros e ?%elem_of_nil]. simpl. f_equal. apply filter_all.
    intros y Hy. apply Z.leb_le. specialize (Hx y Hy). lia.
  - exists (S k). split; [done|]. simpl. intros e [-> | He]%elem_of_cons; [done|by apply Hk].
Qed.

Lemma sorted_after l k e : good_stream l → l !! k = Some e →
  List.filter (λ e', (erank e <? erank e')%Z) l = drop (S k) l.
Proof.
  intros [Hs _]. revert k. induction Hs as [|x l Hl IH Hx]; intros k Hk; [done|].
  rewrite Forall_forall in Hx. simpl. destruct k as [|k]; simplify_eq/=.
  - rewrite (proj2 (Z.ltb_ge _ _)) by lia. rewrite drop_0. apply filter_all.
    intros y Hy. apply Z.ltb_lt. by apply Hx.
  - assert (erank x < erank e)%Z by (apply Hx; by eapply list_elem_of_lookup_2).
    rewrite (proj2 (Z.ltb_ge _ _)) by lia. by apply IH.
Qed.

(** The entries an [XRANGE] from this start lists are the stream's from a position on. *)
Definition starts_at (l : list (string * list string)) (start : string) (k : nat) : Prop :=
  ∀ n, xrange_from start n l = Ok (take n (drop k l)).

Lemma starts_first l : starts_at l "-" 0.
Proof. intros n. unfold xrange_from. simpl. by rewrite drop_0. Qed.

Lemma starts_with_paren s : starts_with ("(" +:+ s) "(" = true.
Proof. unfold starts_with. simpl. by destruct s. Qed.

Lemma starts_after l k e : good_stream l → l !! k = Some e → starts_at l ("(" +:+ e.1) (S k).
Proof.
  intros Hl Hk n. unfold xrange_from. rewrite starts_with_paren. cbn [orb]. rewrite xrange_after; [|done|].
  - do 2 f_equal. exact (sorted_after l k e Hl Hk).
  - destruct Hl as [_ Hf]. rewrite Forall_forall in Hf. apply (Hf e). by eapply list_elem_of_lookup_2.
Qed.

Lemma dec_digits n : str_all is_digit (dec n) = true.
Proof. by apply dec_go_digits. Qed.

Lemma dec_rank n : is_u64 n → stream_rank (dec n +:+ "-0") = Some (n * 2 ^ 64)%Z.
Proof.
  intros Hn. unfold stream_rank. change "-0" with ("-" +:+ "0").
  rewrite split_once_digits by apply dec_digits. rewrite parse_u64_dec by done. simpl. f_equal. lia.
Qed.

Lemma dec_start n : is_u64 n →
  starts_with (dec n +:+ "-0") "(" = false ∧ (dec n +:+ "-0") ≠ "-".
Proof.
  intros Hn. pose proof (dec_digits n) as Hd. pose proof (parse_u64_dec n Hn) as Hp.
  unfold starts_with. destruct (dec n) as [|a t]; [done|]. simpl in *.
  apply andb_true_iff in Hd as [Ha _]. split.
  - case_match; [|done]. by subst.
  - intros [= -> _]. done.
Qed.

Lemma starts_from l n : is_u64 n → good_stream l → ∃ k, starts_at l (dec n +:+ "-0") k ∧
  (∀ e, e ∈ take k l → (erank e < n * 2 ^ 64)%Z).
Proof.
  intros Hn Hl. destruct (sorted_from l (n * 2 ^ 64) Hl) as (k & E & Hk). exists k. split; [|done].
  intros m. destruct (dec_start n Hn) as [Hp Hne]. unfold xrange_from. rewrite Hp, dec_rank by done.
  rewrite bool_decide_eq_false_2 by done. cbn [orb]. rewrite <- E. do 2 f_equal.
  apply filter_ext_elem. intros e He. by rewrite (good_rank l e).
Qed.

(** ** Pages *)

Section scan.
Context `{JournalCodec} `{Chrono} `{EntryText} `{PgText}.

Definition raw_fields (e : string * list string) : list redis_value := map BulkString e.2.

(** The identifier of an entry whose time is in the range. *)
Definition range_id (from to : Z) (fields : list redis_value) : option string :=
  t ← entry_time fields;
  if (t <? from)%Z || (to <? t)%Z then None else entry_uuid fields.

Definition ids_between (from to : Z) (l : list (string * list string)) : list string :=
  omap (λ e, range_id from to (raw_fields e)) l.

Lemma range_page l : Forall (λ e, utf8 e.1 = true) l →
  parse_range_page (map reply_entry l) = map (λ e, (e.1, raw_fields e)) l.
Proof.
  induction 1 as [|[sid fs] l Hu _ IH]; [done|]. apply bool_decide_eq_true in Hu. simpl in Hu.
  unfold parse_range_page in *. csimpl. by rewrite Hu, IH.
Qed.

Lemma scan_ids_spec from to page : ∀ out,
  ri_ids (scan_ids from to page out) = ri_ids out ++ omap (range_id from to) page.*2 ∧
  ri_retention_start (scan_ids from to page out) = ri_retention_start out ∧
  ri_effective_from (scan_ids from to page out) = ri_effective_from out.
Proof.
  induction page as [|[sid fields] page IH]; intros out; csimpl; [by rewrite app_nil_r|].
  unfold range_id at 1. destruct (entry_time fields) as [t|]; cbn [mbind option_bind].
  - destruct ((t <? from)%Z || (to <? t)%Z); [apply IH|].
    match goal with |- context [scan_ids from to page ?o] => destruct (IH o) as (-> & -> & ->) end.
    destruct (entry_uuid fields); simpl; [by rewrite <- app_assoc|done].
  - match goal with |- context [scan_ids from to page ?o] => destruct (IH o) as (-> & -> & ->) end.
    done.
Qed.

(** Every command is answered, and nobody else acts on the stream. *)
Definition still (key : string) (d : hubdb) (env : bus_env) : Prop :=
  ∀ i, tn_how (env i) = Delivered ∧ (∀ d', tn_others (env i) d' = d') ∧
       unexpired key (lua_now (tn_lua (env i))) d.

Lemma xrange_from_nil start n : is_ok (xrange_from start n []) = true → xrange_from start n [] = Ok [].
Proof.
  unfold xrange_from, xrange_entries.
  repeat case_match; try done; intros _; simpl; by rewrite ?take_nil.
Qed.

Lemma redis_XRANGE_FROM_stream key t start n d e found :
  stream_ok key t d → unexpired key (lua_now e) d →
  xrange_from start n (stream_of d key) = Ok found →
  redis_XRANGE_FROM key start n (mkLuaState d e) = (Ok (map reply_entry found), mkLuaState d e).
Proof.
  intros Hd Hu Ef. unfold redis_XRANGE_FROM, lread. simpl. f_equal.
  rewrite (stream_live key t) by done.
  destruct (decide (is_Some (hd_keys d !! key))) as [Hs|Hs].
  - rewrite option_guard_True by done. simpl. by rewrite Ef.
  - rewrite option_guard_False by done. simpl. rewrite (not_stream_nil key t) in Ef by done.
    rewrite xrange_from_nil in Ef by by rewrite Ef. by simplify_eq/=.
Qed.

Lemma range_command key t env c start n found :
  still key (cn_db c) env → stream_ok key t (cn_db c) →
  xrange_from start n (stream_of (cn_db c) key) = Ok found →
  command "XRANGE failed" (redis_XRANGE_FROM key start n) env c
  = (Ok (map reply_entry found), advance c (cn_db c)).
Proof.
  intros Henv Hd Ef. destruct (Henv (cn_step c)) as (How & Hothers & Hu).
  unfold command, raw_command. rewrite How, Hothers. cbn [attempt].
  by rewrite (redis_XRANGE_FROM_stream key t _ _ _ _ found).
Qed.

Lemma last_ids (pg : list (string * list string)) :
  List.last (map (λ e : string * list redis_value, Some e.1) (map (λ e, (e.1, raw_fields e)) pg)) None
  = fst <$> last pg.
Proof.
  destruct pg as [|o pg _] using rev_ind; [done|]. rewrite !map_app, last_snoc. simpl.
  by rewrite last_last.
Qed.

Lemma page_pos : 2 ≤ XRANGE_PAGE.
Proof. by apply Nat.leb_le. Qed.

(** A loop over pages: each page is worked into the result, and a full one is followed by
    the page after its last entry. *)
Section pages.
Context {O : Type} (loop : nat → string → O → bus (option O)).
Context (work : list (string * list string) → O → O) (key : string) (t : Z) (env : bus_env).

Context (work_nil : ∀ out, work [] out = out).
Context (work_app : ∀ l l' out, work (l ++ l') out = work l' (work l out)).

Context (loop_turn : ∀ fuel c cursor out pg,
  Forall (λ e, utf8 e.1 = true) pg →
  command "XRANGE failed" (redis_XRANGE_FROM key cursor XRANGE_PAGE) env c
    = (Ok (map reply_entry pg), advance c (cn_db c)) →
  loop (S fuel) cursor out env c =
    match last pg with
    | None => (Ok (Some out), advance c (cn_db c))
    | Some o => if (XRANGE_PAGE <=? length pg)%nat
                then loop fuel ("(" +:+ o.1) (work pg out) env (advance c (cn_db c))
                else (Ok (Some (work pg out)), advance c (cn_db c))
    end).

(** From a position on, the loop reads all that is left. *)
Lemma pages_all : ∀ fuel c cursor k out,
  still key (cn_db c) env → stream_ok key t (cn_db c) →
  starts_at (stream_of (cn_db c) key) cursor k → length (stream_of (cn_db c) key) < k + fuel →
  0 < fuel →
  ∃ n', loop fuel cursor out env c
    = (Ok (Some (work (drop k (stream_of (cn_db c) key)) out)),
       mkConn (cn_db c) n' (cn_sent c) (cn_presence c)).
Proof.
  induction fuel as [|fuel IH]; intros c cursor k out Henv Hd Hstart Hfuel Hpos; [lia|].
  pose proof page_pos as Hpp. set (l := stream_of (cn_db c) key) in *.
  pose proof (proj1 (proj2 Hd)) as Hl. fold l in Hl.
  set (pg := take XRANGE_PAGE (drop k l)).
  assert (Forall (λ e, utf8 e.1 = true) pg) as Hu by by apply Forall_take, Forall_drop, good_utf8.
  rewrite (loop_turn fuel c cursor out pg Hu (range_command key t env c cursor _ _ Henv Hd (Hstart _))).
  destruct (last pg) as [o|] eqn:Eo.
  2: { apply last_None in Eo. assert (drop k l = []) as E0.
       { unfold pg, XRANGE_PAGE in Eo. by destruct (drop k l). }
       exists (S (cn_step c)). by rewrite E0, work_nil. }
  destruct (Nat.leb_spec XRANGE_PAGE (length pg)) as [Hfull|Hshort].
  - assert (length pg = XRANGE_PAGE) as Hp by (unfold pg in *; rewrite length_take in *; lia).
    assert (l !! (k + (XRANGE_PAGE - 1)) = Some o) as Ho.
    { rewrite last_lookup, Hp in Eo. unfold pg in Eo. rewrite lookup_take, lookup_drop in Eo.
      case_decide; [|lia]. by rewrite <- Eo. }
    destruct (IH (advance c (cn_db c)) ("(" +:+ o.1) (k + XRANGE_PAGE) (work pg out)) as (n' & E);
      [done|done| | | |].
    + fold l. replace (k + XRANGE_PAGE) with (S (k + (XRANGE_PAGE - 1))) by lia.
      by apply starts_after.
    + change (length l < k + XRANGE_PAGE + fuel). lia.
    + apply lookup_lt_Some in Ho. lia.
    + exists n'. rewrite E. simpl. fold l. rewrite <- drop_drop. unfold pg.
      by rewrite <- work_app, take_drop.
  - exists (S (cn_step c)). unfold pg in *. rewrite length_take in Hshort.
    by rewrite (take_ge (drop k l)) by lia.
Qed.
End pages.

Lemma scan_ids_app from to pg pg' : ∀ out,
  scan_ids from to (pg ++ pg') out = scan_ids from to pg' (scan_ids from to pg out).
Proof.
  induction pg as [|[sid fields] pg IH]; intros out; simpl; [done|].
  destruct (entry_time fields); [|apply IH]. destruct (_ || _); [apply IH|].
  destruct (entry_uuid fields); apply IH.
Qed.

Definition scan_entries (from to : Z) (l : list (string * list string)) : RedisIds → RedisIds :=
  scan_ids from to (map (λ e, (e.1, raw_fields e)) l).

Lemma scan_stream_all key t from to env fuel c cursor k out :
  still key (cn_db c) env → stream_ok key t (cn_db c) →
  starts_at (stream_of (cn_db c) key) cursor k → length (stream_of (cn_db c) key) < k + fuel →
  0 < fuel →
  ∃ out' n', scan_stream fuel key from to cursor out env c
    = (Ok (Some out'), mkConn (cn_db c) n' (cn_sent c) (cn_presence c)) ∧
  ri_ids out' = ri_ids out ++ ids_between from to (drop k (stream_of (cn_db c) key)) ∧
  ri_retention_start out' = ri_retention_start out ∧ ri_effective_from out' = ri_effective_from out.
Proof.
  intros Henv Hd Hstart Hfuel Hpos.
  destruct (pages_all (λ fuel cursor out, scan_stream fuel key from to cursor out)
    (scan_entries from to) key t env) with (fuel := fuel) (c := c) (cursor := cursor) (k := k)
    (out := out) as (n' & E); try done.
  - intros pg pg' out0. unfold scan_entries. by rewrite map_app, scan_ids_app.
  - intros fuel0 c0 cursor0 out0 pg Hu Er. cbn [scan_stream]. unfold bbind. rewrite Er.
    rewrite (range_page pg Hu), last_ids. destruct (last pg) as [o|]; [|done].
    cbn [fmap option_fmap option_map]. rewrite length_map. by destruct (XRANGE_PAGE <=? length pg).
  - eexists _, n'. split; [exact E|]. unfold scan_entries.
    match goal with |- context [scan_ids from to ?pg out] => destruct (scan_ids_spec from to pg out) as (-> & -> & ->) end.
    split; [|done]. f_equal. unfold ids_between. generalize (drop k (stream_of (cn_db c) key)). clear.
    intros l. induction l as [|e l IH]; csimpl; [done|]. by rewrite IH.
Qed.

(** ** The whole scan *)

(** The milliseconds of an entry's identifier. *)
Definition entry_ms (e : string * list string) : Z := erank e / 2 ^ 64.

(** No sender's clock is more than the slack ahead of the server's. *)
Definition close_clocks (l : list (string * list string)) : Prop :=
  ∀ e t, e ∈ l → entry_time (raw_fields e) = Some t →
    (t / 1000000 ≤ entry_ms e + STREAM_START_SLACK_MS)%Z.

Lemma digits_value_pos s : ∀ acc v, (0 ≤ acc)%Z → digits_value acc s = Some v → (0 ≤ v)%Z.
Proof.
  induction s as [|a s IH]; intros acc v Ha Hv; simpl in Hv; [by simplify_eq|].
  destruct (is_digit a) eqn:Ed; [|done]. eapply IH; [|exact Hv].
  unfold is_digit, byte_in in Ed. apply andb_true_iff in Ed as [Ed _]. apply N.leb_le in Ed. lia.
Qed.

Lemma parse_u64_range s v : parse_u64 s = Some v → is_u64 v.
Proof.
  unfold parse_u64, is_u64. intros Hv. destruct (is_empty _); [done|].
  destruct (digits_value 0 _) as [w|] eqn:Ew; simplify_eq/=.
  destruct (Z.leb_spec w U64_MAX); simplify_eq. split; [|done]. by eapply digits_value_pos in Ew.
Qed.

Lemma rank_ms id r : stream_rank id = Some r → is_u64 (r / 2 ^ 64).
Proof.
  unfold stream_rank. destruct (split_once "-" id) as [[ms sq]|]; intros Hr.
  - destruct (parse_u64 ms) as [a|] eqn:Ea; [|done]. destruct (parse_u64 sq) as [b|] eqn:Eb; [|done].
    simplify_eq/=. apply parse_u64_range in Ea, Eb. unfold is_u64, U64_MAX in *.
    rewrite Z.div_add_l by lia. rewrite (Z.div_small b) by lia. lia.
  - destruct (parse_u64 id) as [a|] eqn:Ea; simplify_eq/=. apply parse_u64_range in Ea.
    by rewrite Z.div_mul.
Qed.

(** The start of the retention, as the first entry gives it. *)
Definition retention (l : list (string * list string)) : option Z :=
  retention_of (map reply_entry (take 1 l)).

Definition effective (requested : Z) (l : list (string * list string)) : Z :=
  match retention l with Some start => Z.max requested start | None => requested end.

Lemma retention_bound l t : good_stream l → close_clocks l → retention l = Some t →
  (t / 1000000 ≤ U64_MAX + STREAM_START_SLACK_MS)%Z.
Proof.
  intros Hl Hclose Hr. unfold retention, retention_of in Hr. destruct l as [|e l]; [done|].
  rewrite range_page in Hr by by apply Forall_take, good_utf8.
  cbn [take map] in Hr. destruct (entry_time (raw_fields e)) as [t'|] eqn:Et.
  - simplify_eq. specialize (Hclose e t ltac:(by left) Et).
    pose proof (rank_ms _ _ (good_rank _ e Hl ltac:(by left))) as [_ Hms].
    unfold entry_ms in Hclose. unfold STREAM_START_SLACK_MS in *. lia.
  - destruct (parse_i64 _) as [ms|]; [|done]. simpl in Hr. unfold from_timestamp_millis in Hr.
    destruct (_ && _) eqn:Eb; [|done]. simplify_eq. apply andb_true_iff in Eb as [_ Eb].
    apply Z.leb_le in Eb. rewrite Z.div_mul by lia. unfold MAX_UTC_SECS, U64_MAX, STREAM_START_SLACK_MS in *.
    pose proof (Z.div_mod ms 1000 ltac:(lia)). pose proof (Z.mod_pos_bound ms 1000 ltac:(lia)). lia.
Qed.

(** The scan starts no later than the first entry of its range. *)
Lemma start_spec requested l : good_stream l → close_clocks l →
  (requested / 1000000 ≤ U64_MAX)%Z →
  let from := effective requested l in
  ∃ k, starts_at l (start_cursor from) k ∧
    ∀ e t, e ∈ take k l → entry_time (raw_fields e) = Some t → (t < from)%Z.
Proof.
  intros Hl Hclose Hreq from. set (start := Z.max (timestamp_millis from - STREAM_START_SLACK_MS) 0).
  assert (is_u64 start) as Hstart.
  { unfold is_u64, start, timestamp_millis. split; [lia|]. apply Z.max_lub; [|done].
    unfold from, effective. destruct (retention l) as [r|] eqn:Er; [|unfold STREAM_START_SLACK_MS; lia].
    pose proof (retention_bound l r Hl Hclose Er). destruct (Z.max_spec requested r) as [[_ ->]|[_ ->]];
      unfold STREAM_START_SLACK_MS in *; lia. }
  destruct (starts_from l start Hstart Hl) as (k & Hk & Hbefore). exists k. split; [exact Hk|].
  intros e t' He Et. pose proof (elem_of_take_in _ _ _ He) as Hel. specialize (Hclose e t' Hel Et).
  specialize (Hbefore e He). pose proof (rank_ms _ _ (good_rank _ e Hl Hel)) as [Hms _].
  unfold entry_ms in *.
  assert (erank e / 2 ^ 64 < start)%Z as Hlt by (apply Z.div_lt_upper_bound; lia).
  unfold start, timestamp_millis in Hlt. apply Z.nle_gt. intros Hle.
  apply (Z.div_le_mono _ _ 1000000) in Hle; [|lia]. lia.
Qed.

Lemma connect_still key env c : still key (cn_db c) env →
  redis_connect env c = (Ok tt, advance c (cn_db c)).
Proof.
  intros Henv. unfold redis_connect, command, raw_command.
  by destruct (Henv (cn_step c)) as (-> & -> & _).
Qed.

Lemma read_ids_spec fuel key t requested to env c :
  let l := stream_of (cn_db c) key in
  still key (cn_db c) env → stream_ok key t (cn_db c) → close_clocks l → length l < fuel →
  (requested / 1000000 ≤ U64_MAX)%Z →
  ∃ out n', read_redis_ids fuel key requested to env c
    = (Ok (Some out), mkConn (cn_db c) n' (cn_sent c) (cn_presence c)) ∧
  ri_ids out = ids_between (effective requested l) to l ∧ ri_retention_start out = retention l ∧
  ri_effective_from out = effective requested l.
Proof.
  intros l Henv Hd Hclose Hfuel Hreq. pose proof (proj1 (proj2 Hd)) as Hl. fold l in Hl.
  unfold read_redis_ids. unfold bbind at 1. rewrite (connect_still key) by done.
  unfold bbind. rewrite (range_command key t env (advance c (cn_db c)) "-" 1 (take 1 l) Henv Hd)
    by by rewrite (starts_first l).
  change (match retention_of (map reply_entry (take 1 l)) with
          | Some start => Z.max requested start | None => requested end) with (effective requested l).
  set (from := effective requested l). fold (retention l).
  destruct (start_spec requested l Hl Hclose Hreq) as (k & Hk & Hbefore). fold from in Hk, Hbefore.
  destruct (scan_stream_all key t from to env fuel (advance (advance c (cn_db c)) (cn_db c))
    (start_cursor from) k (mkRedisIds [] 0 0 (retention l) from) Henv Hd Hk) as (out & n' & E & E1 & E2 & E3).
  { change (length l < k + fuel). lia. }
  { lia. }
  exists out, n'. split; [done|]. split; [|by split]. rewrite E1. simpl. fold l.
  rewrite <- (take_drop k l) at 2. unfold ids_between. rewrite omap_app.
  enough (omap (λ e, range_id from to (raw_fields e)) (take k l) = []) as -> by done.
  clear -Hbefore. induction (take k l) as [|e l' IH]; [done|]. csimpl.
  rewrite IH by (intros e' t' He'; apply Hbefore; by right). unfold range_id.
  destruct (entry_time (raw_fields e)) as [t'|] eqn:Et; [|done]. simpl.
  by rewrite (proj2 (Z.ltb_lt _ _) (Hbefore e t' ltac:(by left) Et)).
Qed.

(** ** The table's side *)

(** The identifiers of the rows in a range. *)
Definition rows_between (from to : Z) (rows : pg_rows) : list string :=
  map m_id (List.filter (row_between from to) (pg_messages rows)).

Lemma list_ids_spec s from to env p :
  quiet env → is_Some (pgs_database_url s) →
  ∃ ids p', list_message_ids_between s from to env p = (Ok ids, p') ∧
    ids ≡ₚ rows_between from to (ps_rows (pw_state p)) ∧ same_data (pw_state p) (pw_state p').
Proof.
  intros Henv Hurl. destruct p as [st n naps].
  destruct (get_pg_client_runs env Henv s st Hurl n naps) as (n1 & naps1 & st1 & E & G1).
  unfold list_message_ids_between, pbind. rewrite E.
  destruct (Henv n1) as (Hfate & Hothers & Horder).
  unfold select_ids_between, pg_step. cbn [pw_step pw_state]. rewrite Hfate, Hothers.
  destruct (return_runs env Henv st1 (S n1) naps1) as (n2 & naps2 & st2 & F & G2).
  cbn [pw_naps]. rewrite F. eexists _, _. split; [done|]. split.
  - rewrite Horder. unfold rows_between. simpl. by destruct G1 as (-> & _).
  - simpl. by transitivity st1.
Qed.

(** ** Both *)

Definition requested_from (scope : Scope) (to : Z) : Z :=
  match scope with Window window => (to - window)%Z | Full => 0%Z end.

(** Two stores at rest: a stream whose senders' clocks are close, a database that
    answers, and nobody else there. *)
Record at_rest (key : string) (t : Z) (env : stores_env) (w : stores) : Prop := {
  ar_still : still key (cn_db (st_conn w)) (se_bus env);
  ar_stream : stream_ok key t (cn_db (st_conn w));
  ar_clocks : close_clocks (stream_of (cn_db (st_conn w)) key);
  ar_quiet : quiet (se_pg env);
}.

Lemma scan_spec fuel key t s scope settle env w :
  at_rest key t env w → is_Some (pgs_database_url s) →
  let l := stream_of (cn_db (st_conn w)) key in
  let to := (tn_clock (se_bus env (cn_step (st_conn w))) - settle)%Z in
  let from := effective (requested_from scope to) l in
  length l < fuel → (requested_from scope to / 1000000 ≤ U64_MAX)%Z →
  ∃ sn w', scan_stores fuel key s scope settle env w = (Ok (Some sn), w') ∧
    sn_from sn = from ∧ sn_to sn = to ∧ sn_redis_retention_start sn = retention l ∧
    sn_redis_ids sn = ids_between from to l ∧
    sn_pg_ids sn ≡ₚ rows_between from to (ps_rows (pw_state (st_pg w))) ∧
    cn_db (st_conn w') = cn_db (st_conn w) ∧ same_data (pw_state (st_pg w)) (pw_state (st_pg w')).
Proof.
  intros [Hstill Hd Hclose Hquiet] [url Hurl] l to from Hfuel Hreq.
  unfold scan_stores. rewrite Hurl. unfold bothbind at 1, on_redis at 1, clock at 1.
  cbn [fst snd]. unfold bothbind at 1, on_redis at 1.
  destruct (read_ids_spec fuel key t (requested_from scope to) to (se_bus env)
    (advance (st_conn w) (cn_db (st_conn w))) Hstill Hd Hclose Hfuel Hreq)
    as (out & n' & E & E1 & E2 & E3).
  cbn [st_conn st_pg]. cbv zeta. fold to. fold (requested_from scope to). rewrite E. cbn [both_some].
  destruct (list_ids_spec s (ri_effective_from out) to (se_pg env) (st_pg w) Hquiet ltac:(by eexists))
    as (ids & p' & F & F1 & F2).
  unfold bothbind, on_pg. cbn [st_pg]. fold to. rewrite F. eexists _, _. split; [done|]. simpl.
  rewrite E3 in F1. split_and!; done.
Qed.

(** C13. Over stores at rest a check ends with enough fuel for the stream, and says [ok]
    exactly when stream and table hold the same identifiers in the range it reports: from
    the time asked for, but no earlier than the first entry of the stream, to the time
    from which on messages are not judged yet. *)
Theorem check_tells fuel key t s scope settle cut env w :
  at_rest key t env w → is_Some (pgs_database_url s) →
  let l := stream_of (cn_db (st_conn w)) key in
  let to := (tn_clock (se_bus env (cn_step (st_conn w))) - settle)%Z in
  let from := effective (requested_from scope to) l in
  length l < fuel → (requested_from scope to / 1000000 ≤ U64_MAX)%Z →
  ∃ check w', check_stores fuel key s scope settle cut env w = (Ok (Some check), w') ∧
    sc_from check = from ∧ sc_to check = to ∧ sc_redis_retention_start check = retention l ∧
    (rp_ok (sc_report check) = true ↔
     ∀ id, id ∈ ids_between from to l ↔ id ∈ rows_between from to (ps_rows (pw_state (st_pg w)))) ∧
    cn_db (st_conn w') = cn_db (st_conn w) ∧ ps_rows (pw_state (st_pg w')) = ps_rows (pw_state (st_pg w)).
Proof.
  intros Hrest Hurl l to from Hfuel Hreq.
  destruct (scan_spec fuel key t s scope settle env w Hrest Hurl Hfuel Hreq)
    as (sn & w' & E & E1 & E2 & E3 & E4 & E5 & E6 & E7 & _).
  unfold check_stores, bothbind. rewrite E. eexists _, w'. split; [done|]. split; [done|].
  split; [done|]. split; [done|]. split; [|by split].
  unfold scan_check. cbn [sc_report]. rewrite compare_ok, E4.
  by setoid_rewrite E5.
Qed.
End scan.
