(* ===== verification/ReconcileProps.v ===== *)
(** * ReconcileProps: what a repair does to the stores

    Whatever fails on the way, a repair leaves the stream alone, and adds to the table at
    most as many rows as its cap allows, none for an identifier the table has; a dry run
    adds none. Over stores at rest it leaves nothing behind that only the stream holds. *)

From Stdlib Require Import ZArith Lia Ascii.
From stdpp Require Import base option list strings gmap sorting.
From S2P Require Import Prelude Str Json Validation McpSchema ClaimTypes Outbox Redis.
From S2P Require Import Channels Messages StreamEntry ReplayScript OutboxHub SyncStore StreamFacts.
From S2P Require Import Bus BusFacts Inbox Ops ListingProps SummaryProps.
From S2P Require Import PgStore PgWriter PgStoreProps Consistency ConsistencyProps ScanProps.

(** ** What operations do to the table *)

Abbreviation table st := (pg_messages (ps_rows st)).

(** Rows were added at the end: new identifiers, each one of [ids]. *)
Definition adds (ids : list string) (st st' : pg_state) : Prop :=
  ∃ new, table st' = table st ++ new ∧ Forall (λ r, m_id r ∈ ids) new ∧
         NoDup (map m_id new) ∧ Forall (λ r, m_id r ∉ map m_id (table st)) new.

Lemma adds_refl ids st : adds ids st st.
Proof. exists []. rewrite app_nil_r. by repeat split; constructor. Qed.

Lemma adds_same ids st st' : ps_rows st' = ps_rows st → adds ids st st'.
Proof. intros E. exists []. rewrite E, app_nil_r. by repeat split; constructor. Qed.

Lemma adds_trans ids st st' st'' : adds ids st st' → adds ids st' st'' → adds ids st st''.
Proof.
  intros (n1 & E1 & F1 & D1 & G1) (n2 & E2 & F2 & D2 & G2). exists (n1 ++ n2). split_and!.
  - by rewrite E2, E1, app_assoc.
  - by apply Forall_app.
  - rewrite map_app. apply NoDup_app. split_and!; [done| |done]. intros x Hx Hx2.
    change (x ∈ m_id <$> n2) in Hx2. apply list_elem_of_fmap in Hx2 as (r & -> & Hr).
    rewrite Forall_forall in G2. apply (G2 r Hr). rewrite E1, map_app. apply elem_of_app. by right.
  - apply Forall_app. split; [done|]. eapply Forall_impl; [exact G2|]. intros r Hr Hin. apply Hr.
    rewrite E1, map_app. apply elem_of_app. by left.
Qed.

Lemma adds_few ids st st' : adds ids st st' → NoDup ids →
  length (table st') ≤ length (table st) + length ids.
Proof.
  intros (new & -> & Hin & Hnd & _) Hids. rewrite length_app.
  enough (length (map m_id new) ≤ length ids) by (rewrite length_map in *; lia).
  apply submseteq_length, NoDup_submseteq; [done|]. intros x Hx.
  change (x ∈ m_id <$> new) in Hx. apply list_elem_of_fmap in Hx as (r & -> & Hr).
  rewrite Forall_forall in Hin. by apply Hin.
Qed.

(** Nobody else acts on the database; statements may fail in any way. *)
Definition nobody_else (env : pg_env) : Prop := ∀ n st, pt_others (env n) st = st.

Definition only_adds (ids : list string) {A} (m : pgop A) : Prop :=
  ∀ env w, nobody_else env → adds ids (pw_state w) (pw_state (m env w).2).

Section adding.
Context (ids : list string).

Lemma only_ret {A} (a : A) : only_adds ids (pret a).
Proof. intros env w _. apply adds_refl. Qed.

Lemma only_fail {A} e : only_adds ids (pfail e : pgop A).
Proof. intros env w _. apply adds_refl. Qed.

Lemma only_lift {A} (r : Result A) : only_adds ids (pg_lift r).
Proof. intros env w _. apply adds_refl. Qed.

Lemma only_bind {A B} (m : pgop A) (k : A → pgop B) :
  only_adds ids m → (∀ a, only_adds ids (k a)) → only_adds ids (pbind m k).
Proof.
  intros Hm Hk env w He. unfold pbind. specialize (Hm env w He).
  destruct (m env w) as [[a|e] w']; [|done]. eapply adds_trans; [exact Hm|]. by apply Hk.
Qed.

Lemma only_step {A} (f : pg_turn → pg_state → Result A * pg_state) :
  (∀ t st, adds ids st (f t st).2) → only_adds ids (pg_step f).
Proof.
  intros Hf env w He. unfold pg_step. rewrite He. specialize (Hf (env (pw_step w)) (pw_state w)).
  by destruct (f _ _).
Qed.

Lemma only_statement {A} (f : pg_state → Result A * pg_state) :
  (∀ st, adds ids st (f st).2) → only_adds ids (statement f).
Proof.
  intros Hf. apply only_step. intros t st. destruct (pt_fate t) as [|[]]; simpl; [apply Hf..|apply adds_refl].
Qed.

Lemma only_update f : (∀ t st, ps_rows (f t st) = ps_rows st) → only_adds ids (pg_update f).
Proof. intros Hf. apply only_step. intros t st. apply adds_same, Hf. Qed.

Lemma only_read {A} (f : pg_turn → pg_state → A) : only_adds ids (pg_read f).
Proof. apply only_step. intros t st. apply adds_refl. Qed.

Lemma only_connect cs : only_adds ids (connect_first cs).
Proof.
  induction cs as [|c cs IH]; simpl; [apply only_fail|].
  apply only_bind; [apply only_read|]. intros []; [apply only_ret|done].
Qed.

Lemma only_client s : only_adds ids (get_pg_client s).
Proof.
  unfold get_pg_client, open_pg_client. destruct (pgs_database_url s); [|apply only_ret].
  apply only_bind.
  { apply only_step. intros t st. destruct (ps_pool st); by apply adds_same. }
  intros []; [apply only_ret|]. apply only_bind; [apply only_connect|]. intros. apply only_ret.
Qed.

Lemma only_ensure s : only_adds ids (ensure_postgres_storage s).
Proof.
  unfold ensure_postgres_storage, storage_ready. destruct (storage_cache_key s); [|apply only_ret].
  apply only_bind; [apply only_read|]. intros []; [apply only_ret|].
  do 2 (apply only_bind; [apply only_statement; intros; by apply adds_same|intros _]).
  by apply only_update.
Qed.

Lemma only_return : only_adds ids return_pg_client.
Proof. by apply only_update. Qed.
End adding.

#[export] Hint Resolve only_ret only_fail only_lift only_client only_ensure only_return only_read : bus.

Section reconcile.
Context `{JournalCodec} `{Chrono} `{EntryText} `{PgText}.

Lemma insert_adds ids row : m_id row ∈ ids → only_adds ids (execute_insert row).
Proof.
  intros Hin. apply only_statement. intros st. destruct (negb _); [by apply adds_same|]. simpl.
  unfold insert_message. destruct (existsb _ _) eqn:E; [by apply adds_same|].
  exists [row]. split_and!; [done|by constructor|apply NoDup_singleton|]. constructor; [|done].
  intros Hx. change (m_id row ∈ m_id <$> table st) in Hx.
  apply list_elem_of_fmap in Hx as (r & Er & Hr). rewrite existsb_False in E.
  specialize (E r Hr). unfold message_conflict in E. rewrite bool_decide_eq_true_2 in E; done.
Qed.

(** Messages that a plan asked for. *)
Definition planned (plan : list string) (m : Message) : Prop := is_wanted plan (m_id m) = true.

Lemma sync_rows_adds plan ms : Forall (planned plan) ms → ∀ k, only_adds plan (sync_rows ms k).
Proof.
  induction 1 as [|m ms Hm _ IH]; intros k; [apply only_ret|]. simpl.
  destruct (canonical_uuid (m_id m)) as [id|] eqn:E; [|apply IH].
  destruct (parse_timestamp_utc (m_timestamp_utc m)); [|apply IH].
  apply only_bind; [apply only_lift|]. intros _. apply only_bind; [|intros; apply IH].
  apply insert_adds. unfold planned, is_wanted in Hm. rewrite E in Hm. by apply bool_decide_eq_true in Hm.
Qed.

Lemma sync_adds plan s ms : Forall (planned plan) ms → only_adds plan (sync_redis_to_postgres s ms).
Proof.
  intros Hms. unfold sync_redis_to_postgres. apply only_bind; [apply only_client|].
  intros [[]|]; [|apply only_ret]. apply only_bind; [apply only_ensure|]. intros _.
  apply only_bind; [by apply sync_rows_adds|]. intros n. apply only_bind; auto with bus.
Qed.

Lemma list_ids_adds ids s from to : only_adds ids (list_message_ids_between s from to).
Proof.
  unfold list_message_ids_between. apply only_bind; [apply only_client|].
  intros [[]|]; [|apply only_fail]. apply only_bind; [|intros; apply only_bind; auto with bus].
  apply only_step. intros t st. destruct (pt_fate t); by apply adds_same.
Qed.

(** ** Both stores *)

(** Nobody else acts on either store; commands and statements may fail in any way. *)
Definition alone_on_both (env : stores_env) : Prop :=
  (∀ n d, tn_others (se_bus env n) d = d) ∧ nobody_else (se_pg env).

(** The stream stays as it is, and the table only gains rows of [ids]. *)
Definition repairs (ids : list string) (w w' : stores) : Prop :=
  cn_db (st_conn w') = cn_db (st_conn w) ∧ adds ids (pw_state (st_pg w)) (pw_state (st_pg w')).

Definition only_repairs (ids : list string) {A} (m : both A) : Prop :=
  ∀ env w, alone_on_both env → repairs ids w (m env w).2.

Lemma repairs_refl ids w : repairs ids w w.
Proof. split; [done|apply adds_refl]. Qed.

Lemma repairs_trans ids w w' w'' : repairs ids w w' → repairs ids w' w'' → repairs ids w w''.
Proof. intros [E F] [E' F']. split; [congruence|by eapply adds_trans]. Qed.

Lemma repairs_mono ids ids' w w' : ids ⊆ ids' → repairs ids w w' → repairs ids' w w'.
Proof.
  intros Hsub [E (new & E1 & E2 & E3)]. split; [done|]. exists new. split_and!; [done| |by destruct E3..].
  eapply Forall_impl; [exact E2|]. intros r. simpl. apply Hsub.
Qed.

Lemma both_ret ids {A} (a : A) : only_repairs ids (bothret a).
Proof. intros env w _. apply repairs_refl. Qed.

Lemma both_bind ids {A B} (m : both A) (k : A → both B) :
  only_repairs ids m → (∀ a, only_repairs ids (k a)) → only_repairs ids (bothbind m k).
Proof.
  intros Hm Hk env w He. unfold bothbind. specialize (Hm env w He).
  destruct (m env w) as [[a|e] w']; [|done]. eapply repairs_trans; [exact Hm|]. by apply Hk.
Qed.

Lemma both_redis ids {A} (m : bus A) : (∀ d, keeps (λ d', d' = d) m) → only_repairs ids (on_redis m).
Proof.
  intros Hm env w [Hb Hp]. unfold on_redis.
  pose proof (Hm (cn_db (st_conn w)) (se_bus env) (st_conn w)) as Hk.
  destruct (m (se_bus env) (st_conn w)) as [r c]. split; simpl; [|apply adds_refl].
  apply Hk; [|done]. intros n d ->. apply Hb.
Qed.

Lemma both_pg ids {A} (m : pgop A) : only_adds ids m → only_repairs ids (on_pg m).
Proof.
  intros Hm env w [Hb Hp]. unfold on_pg. specialize (Hm (se_pg env) (st_pg w) Hp).
  by destruct (m (se_pg env) (st_pg w)).
Qed.

Lemma both_option ids {A B} (o : option A) (k : A → both (option B)) :
  (∀ a, only_repairs ids (k a)) → only_repairs ids (both_some o k).
Proof. intros Hk. destruct o; [apply Hk|apply both_ret]. Qed.

(** ** Reading the stream changes nothing *)

Lemma range_keeps I key start n : keeps I (command "XRANGE failed" (redis_XRANGE_FROM key start n)).
Proof. apply keeps_command, lua_keeps_read. Qed.

Lemma connect_keeps I : keeps I redis_connect.
Proof. apply keeps_command, lua_keeps_ret. Qed.

Lemma scan_stream_keeps I key from to : ∀ fuel cursor out, keeps I (scan_stream fuel key from to cursor out).
Proof.
  induction fuel as [|fuel IH]; intros cursor out; simpl; [apply bus_keeps_ret|].
  apply bus_keeps_bind; [apply range_keeps|]. intros raw.
  destruct (List.last _ None); [|apply bus_keeps_ret]. case_match; [apply IH|apply bus_keeps_ret].
Qed.

Lemma fetch_pages_keeps I key plan from to : ∀ fuel cursor found,
  keeps I (fetch_pages fuel key plan from to cursor found).
Proof.
  induction fuel as [|fuel IH]; intros cursor found; simpl; [apply bus_keeps_ret|].
  apply bus_keeps_bind; [apply range_keeps|]. intros raw.
  destruct (fetch_page _ _ _ _ _ _) as [[last|] found']; [|apply bus_keeps_ret].
  case_match; [apply IH|apply bus_keeps_ret].
Qed.

Lemma read_ids_keeps I fuel key from to : keeps I (read_redis_ids fuel key from to).
Proof.
  unfold read_redis_ids. apply bus_keeps_bind; [apply connect_keeps|]. intros _.
  apply bus_keeps_bind; [apply range_keeps|]. intros first. apply scan_stream_keeps.
Qed.

Lemma scan_repairs ids fuel key s scope settle : only_repairs ids (scan_stores fuel key s scope settle).
Proof.
  unfold scan_stores. destruct (pgs_database_url s); [|intros env w _; apply repairs_refl].
  apply both_bind; [apply both_redis; intros; apply keeps_clock|]. intros now.
  apply both_bind; [apply both_redis; intros; apply read_ids_keeps|]. intros redis.
  apply both_option. intros out. apply both_bind; [apply both_pg, list_ids_adds|].
  intros. apply both_ret.
Qed.

(** ** What is fetched was planned *)

Lemma fetch_page_planned plan from to raw : ∀ last found,
  Forall (planned plan) found → Forall (planned plan) (fetch_page plan from to raw last found).2.
Proof.
  induction raw as [|e raw IH]; intros last found Hf; [done|].
  destruct e as [| |[|sid [|[| |flat|] rest]]|]; simpl; try by apply IH.
  destruct (value_text sid); [|by apply IH]. apply IH.
  match goal with |- context [if ?b then _ else _] => destruct b eqn:E end; [|done].
  apply andb_true_iff in E as [E _]. apply Forall_app_2; [done|]. by constructor.
Qed.

Lemma fetch_pages_planned plan key from to env : ∀ fuel cursor found c ms c',
  Forall (planned plan) found →
  fetch_pages fuel key plan from to cursor found env c = (Ok (Some ms), c') → Forall (planned plan) ms.
Proof.
  induction fuel as [|fuel IH]; intros cursor found c ms c' Hf E; simpl in E; [done|].
  unfold bbind in E. destruct (command _ _ env c) as [[raw|] c1]; [|done].
  pose proof (fetch_page_planned plan from to raw None found Hf) as Hp.
  destruct (fetch_page plan from to raw None found) as [[last|] found']; simpl in Hp.
  - case_match; [by eapply IH|]. unfold bret in E. by simplify_eq.
  - unfold bret in E. by simplify_eq.
Qed.

Lemma plan_nodup redis pg : NoDup (plan_redis_to_pg redis pg).
Proof. apply strict_nodup, id_set_sorted. Qed.

(** The writing half of a repair. *)
Lemma backfill_repairs fuel key s plan from to :
  only_repairs plan (match plan with
    | [] => bothret (Some 0)
    | _ :: _ =>
        let% messages := on_redis (fetch_redis_messages fuel key plan from to) in
        both_some messages (λ messages,
          let% (_, newly) := on_pg (sync_redis_to_postgres s messages) in bothret (Some newly))
    end).
Proof.
  destruct plan as [|x plan']; [apply both_ret|]. set (plan := x :: plan'). intros env w He.
  unfold bothbind at 1. assert (only_repairs plan (on_redis (fetch_redis_messages fuel key plan from to))) as Hr.
  { apply both_redis. intros d. unfold fetch_redis_messages.
    apply bus_keeps_bind; [apply connect_keeps|]. intros _. apply fetch_pages_keeps. }
  specialize (Hr env w He). unfold on_redis in *.
  destruct (fetch_redis_messages fuel key plan from to (se_bus env) (st_conn w)) as [[[ms|]|e] c] eqn:E;
    [|done|done]. cbn [both_some]. eapply repairs_trans; [exact Hr|].
  assert (Forall (planned plan) ms) as Hms.
  { unfold fetch_redis_messages, bbind in E. destruct (redis_connect _ _) as [[[]|] c1]; [|done].
    by eapply fetch_pages_planned in E. }
  apply (both_bind plan (on_pg (sync_redis_to_postgres s ms))); [|intros []; apply both_ret|done].
  by apply both_pg, sync_adds.
Qed.

(** C12. However its commands and statements fail, a repair leaves the stream as it is and
    the rows of the table where they are; it adds at most as many as its cap says, each for
    an identifier the table lacks and none twice; and a dry run adds none. *)
Theorem reconcile_bounded fuel key s scope settle cut (apply : bool) max_insert env w :
  alone_on_both env →
  let w' := (reconcile fuel key s scope settle cut apply max_insert env w).2 in
  cn_db (st_conn w') = cn_db (st_conn w) ∧
  ∃ new, table (pw_state (st_pg w')) = table (pw_state (st_pg w)) ++ new ∧ length new ≤ max_insert ∧
    NoDup (map m_id new) ∧ Forall (λ r, m_id r ∉ map m_id (table (pw_state (st_pg w)))) new ∧
    (apply = false → new = []).
Proof.
  intros He w'. enough (∃ ids, repairs ids w w' ∧ NoDup ids ∧ length ids ≤ max_insert ∧
    (apply = false → ids = [])) as (ids & [Ed Ha] & Hnd & Hle & Hdry).
  { split; [done|]. pose proof (adds_few _ _ _ Ha Hnd) as Hfew.
    destruct Ha as (new & E & Hin & Hn & Hold). exists new. split_and!; try done.
    - rewrite E, length_app in Hfew. lia.
    - intros Hf. rewrite (Hdry Hf) in Hin. destruct Hin as [|r new Hr _]; [done|].
      by apply elem_of_nil in Hr. }
  unfold w', reconcile. pose proof (scan_repairs [] fuel key s scope settle env w He) as Hs.
  unfold bothbind at 1. destruct (scan_stores _ _ _ _ _ env w) as [[[scan|]|e] w1]; cbn [both_some].
  2, 3: exists []; split_and!; [exact Hs|constructor|simpl; lia|done].
  set (plan := plan_redis_to_pg (sn_redis_ids scan) (sn_pg_ids scan)). destruct apply; simpl.
  2: { exists []. split_and!; [exact Hs|constructor|simpl; lia|done]. }
  destruct (Nat.ltb_spec max_insert (length plan)) as [Hover|Hfits].
  { exists []. split_and!; [exact Hs|constructor|simpl; lia|done]. }
  exists plan. split_and!; [|apply plan_nodup|done|done].
  eapply repairs_trans; [eapply repairs_mono; [|exact Hs]; by apply list_subseteq_nil|].
  apply (both_bind plan); [apply backfill_repairs| |done]. intros o. apply both_option. intros n.
  apply both_bind; [apply scan_repairs|]. intros sc. apply both_option. intros. apply both_ret.
Qed.
End reconcile.
