(* ===== verification/RepairProps.v ===== *)
(** * RepairProps: a repair repairs

    Over stores at rest, a repair within its cap brings every message of the range that
    only the stream held into the table: the check after it finds none left. *)

From Stdlib Require Import ZArith Lia Ascii.
From stdpp Require Import base option list strings gmap sorting.
From S2P Require Import Prelude Str Json Validation McpSchema ClaimTypes Outbox Redis.
From S2P Require Import Channels Messages StreamEntry ReplayScript OutboxHub SyncStore StreamFacts.
From S2P Require Import Bus Inbox Ops ListingProps SummaryProps.
From S2P Require Import PgStore PgWriter PgStoreProps Consistency ConsistencyProps ScanProps.

(** ** Entries as both loops read them *)

(** The names of an entry are distinct texts. *)
Definition plain (e : string * list string) : Prop :=
  ∃ fvs, e.2 = flat fvs ∧ NoDup fvs.*1 ∧ Forall (λ n, utf8 n = true) fvs.*1.

Lemma flat_cons f v fvs :
  map BulkString (flat ((f, v) :: fvs)) = BulkString f :: BulkString v :: map BulkString (flat fvs).
Proof. done. Qed.

Lemma field_text_flat fvs name :
  Forall (λ n, utf8 n = true) fvs.*1 →
  Consistency.field_text (map BulkString (flat fvs)) name = from_utf8_lossy <$> field name fvs.
Proof.
  induction fvs as [|[f v] fvs IH]; [done|]. change ((((f, v) :: fvs) : list _).*1) with (f :: fvs.*1).
  intros [Hu Hus]%Forall_cons.
  apply bool_decide_eq_true in Hu. rewrite flat_cons, field_cons. cbn [Consistency.field_text value_text].
  rewrite Hu. case_bool_decide; [done|by apply IH].
Qed.

Lemma bulk_fields_bulk l : ∀ acc,
  bulk_fields acc (map BulkString l) = parse_fields acc (map BulkString l).
Proof.
  enough (∀ n l, length l ≤ n → ∀ acc,
    bulk_fields acc (map BulkString l) = parse_fields acc (map BulkString l)) as Hn by by eapply Hn.
  clear l. induction n as [|n IH]; intros [|a [|b l]] Hl acc; simpl in *; try done; [lia|].
  apply IH. lia.
Qed.

Section repair.
Context `{JournalCodec} `{Chrono} `{EntryText} `{PgText}.

(** The message of an entry, and the row it is stored as. *)
Definition entry_message (e : string * list string) : Message :=
  set_stream_id (decode_stream_entry (parse_fields ∅ (raw_fields e))) e.1.
Definition entry_row (e : string * list string) : option Message := sound_row (entry_message e).

Lemma entry_get_flat fvs name :
  NoDup fvs.*1 → Forall (λ n, utf8 n = true) fvs.*1 →
  entry_get (parse_fields ∅ (map BulkString (flat fvs))) name =
  from_option (λ t, t) "" (Consistency.field_text (map BulkString (flat fvs)) name).
Proof.
  intros Hnd Hu. unfold entry_get. rewrite parse_fields_flat, field_text_flat by done.
  by destruct (field name fvs).
Qed.

(** An entry with an identifier and a time is read alike by the scan and by the repair. *)
Lemma entry_read e t id : plain e → entry_time (raw_fields e) = Some t →
  entry_uuid (raw_fields e) = Some id →
  canonical_uuid (m_id (entry_message e)) = Some id ∧
  parse_timestamp_utc (m_timestamp_utc (entry_message e)) = Ok t.
Proof.
  intros (fvs & E & Hnd & Hu) Ht Hid. unfold entry_time, entry_uuid, raw_fields in *.
  unfold entry_message, raw_fields. rewrite E in *. simpl. rewrite !entry_get_flat by done.
  destruct (Consistency.field_text _ "timestamp_utc") as [ts|]; [|done].
  destruct (Consistency.field_text _ "id") as [i|]; [|done]. simpl in *. split; [done|].
  by destruct (parse_timestamp_utc ts); simplify_eq.
Qed.

(** ** Fetching *)

Definition message_in (from to : Z) (m : Message) : bool :=
  match parse_timestamp_utc (m_timestamp_utc m) with
  | Ok t => (from <=? t)%Z && (t <=? to)%Z
  | Err _ => false
  end.

Definition fetched (plan : list string) (from to : Z) (l : list (string * list string)) : list Message :=
  List.filter (λ m, is_wanted plan (m_id m) && message_in from to m) (map entry_message l).

Lemma fetch_page_spec plan from to pg : Forall (λ e, utf8 e.1 = true) pg → ∀ sid found,
  fetch_page plan from to (map reply_entry pg) sid found =
  (match last pg with Some e => Some e.1 | None => sid end, found ++ fetched plan from to pg).
Proof.
  induction 1 as [|e pg Hu _ IH]; intros sid found; [by rewrite app_nil_r|].
  apply bool_decide_eq_true in Hu. unfold fetched in *. cbn [map reply_entry fetch_page value_text].
  rewrite Hu, bulk_fields_bulk, IH. f_equal.
  { destruct pg as [|e' pg]; [done|]. change (last (e :: e' :: pg)) with (last (e' :: pg)).
    destruct (last (e' :: pg)) eqn:El; [done|]. by apply last_None in El. }
  cbn [List.filter]. change (parse_fields ∅ (map BulkString e.2)) with (parse_fields ∅ (raw_fields e)).
  change (m_id (entry_message e)) with (m_id (decode_stream_entry (parse_fields ∅ (raw_fields e)))).
  unfold message_in at 2.
  change (m_timestamp_utc (entry_message e))
    with (m_timestamp_utc (decode_stream_entry (parse_fields ∅ (raw_fields e)))).
  match goal with |- context [if ?b then _ else _] => destruct b end; [by rewrite <- app_assoc|done].
Qed.

Lemma fetched_app plan from to l l' :
  fetched plan from to (l ++ l') = fetched plan from to l ++ fetched plan from to l'.
Proof. unfold fetched. by rewrite map_app, List.filter_app. Qed.

Lemma fetch_pages_all plan key t from to env fuel c cursor k :
  still key (cn_db c) env → stream_ok key t (cn_db c) →
  starts_at (stream_of (cn_db c) key) cursor k → length (stream_of (cn_db c) key) < k + fuel →
  0 < fuel →
  ∃ n', fetch_pages fuel key plan from to cursor [] env c
    = (Ok (Some (fetched plan from to (drop k (stream_of (cn_db c) key)))),
       mkConn (cn_db c) n' (cn_sent c) (cn_presence c)).
Proof.
  intros Henv Hd Hstart Hfuel Hpos.
  destruct (pages_all (λ fuel cursor out, fetch_pages fuel key plan from to cursor out)
    (λ l out, out ++ fetched plan from to l) key t env) with (fuel := fuel) (c := c)
    (cursor := cursor) (k := k) (out := @nil Message) as (n' & E); try done; [| | |by exists n'].
  - intros out. by rewrite app_nil_r.
  - intros pg pg' out. by rewrite fetched_app, app_assoc.
  - intros fuel0 c0 cursor0 out0 pg Hu Er. cbn [fetch_pages]. unfold bbind. rewrite Er.
    rewrite fetch_page_spec by done. rewrite length_map. destruct (last pg) as [o|] eqn:Eo.
    + by destruct (XRANGE_PAGE <=? length pg).
    + apply last_None in Eo as ->. unfold fetched. simpl. by rewrite app_nil_r.
Qed.

(** ** Inserting *)

Abbreviation insert_all := (foldl (λ rows m, store_rows rows (WriteMessage m))).

Definition row_taken (m : Message) : Prop := ∃ row, sound_row m = Some row ∧ pg_takes_message row = true.

Lemma sync_rows_runs env ms : quiet env → Forall row_taken ms → ∀ k st, ∃ k',
  runs env (sync_rows ms k) st (Ok k') (λ st', ps_rows st' = insert_all (ps_rows st) ms).
Proof.
  intros Henv. induction 1 as [|m ms (row & Hrow & Ht) _ IH]; intros k st; cbn [sync_rows foldl].
  { exists k. by apply runs_ret. }
  unfold store_rows. rewrite Hrow. unfold sound_row in Hrow.
  destruct (canonical_uuid (m_id m)) as [id|] eqn:Eid; [|done]. simpl in Hrow.
  destruct (parse_timestamp_utc (m_timestamp_utc m)) as [ts|] eqn:Ets; [|done].
  destruct (origin_seq_sql (m_origin_seq m)) as [[]|] eqn:Eseq; [|done]. simplify_eq/=.
  set (row := message_row m id) in *.
  set (n := if existsb (message_conflict row) (pg_messages (ps_rows st)) then 0 else 1).
  set (st1 := with_rows st (insert_message row (ps_rows st))).
  destruct (IH (if decide (0 < n) then k + 1 else k) st1) as (k' & Hk'). exists k'.
  apply (runs_bind env (execute_insert row) _ st n _ (λ st', st' = st1)).
  - unfold execute_insert. eapply (runs_statement env Henv); [|reflexivity]. by rewrite Ht.
  - by intros st' ->.
Qed.

Lemma sync_spec env s ms p : quiet env → is_Some (pgs_database_url s) → Forall row_taken ms →
  ∃ k p', sync_redis_to_postgres s ms env p = (Ok (length ms, k), p') ∧
    ps_rows (pw_state p') = insert_all (ps_rows (pw_state p)) ms.
Proof.
  intros Henv Hurl Hms. destruct p as [st n naps].
  destruct (get_pg_client_runs env Henv s st Hurl n naps) as (n1 & naps1 & st1 & E1 & G1).
  destruct (ensure_runs env Henv s st1 n1 naps1) as (n2 & naps2 & st2 & E2 & G2).
  destruct (sync_rows_runs env ms Henv Hms 0 st2) as (k & Hk).
  destruct (Hk n2 naps2) as (n3 & naps3 & st3 & E3 & G3).
  destruct (return_runs env Henv st3 n3 naps3) as (n4 & naps4 & st4 & E4 & G4).
  exists k. unfold sync_redis_to_postgres, pbind. rewrite E1, E2, E3, E4. eexists. split; [done|].
  simpl. destruct G4 as (-> & _). rewrite G3. destruct G2 as (-> & _). by destruct G1 as (-> & _).
Qed.

(** ** Stores a repair can work on *)

(** Every entry with a time and an identifier can be stored, and an identifier stands for
    one message: two rows of the stream or the table with one identifier have one time,
    and no unique index holds two identifiers. *)
Record repairable (l : list (string * list string)) (rows : list Message) : Prop := {
  ra_plain : Forall plain l;
  ra_taken e : e ∈ l → is_Some (canonical_uuid (m_id (entry_message e))) →
    is_ok (parse_timestamp_utc (m_timestamp_utc (entry_message e))) = true → row_taken (entry_message e);
  ra_one r r' : r ∈ omap entry_row l → r' ∈ omap entry_row l ++ rows →
    (m_id r = m_id r' → m_timestamp_utc r = m_timestamp_utc r') ∧
    (message_conflict r r' = true → m_id r = m_id r');
}.

Lemma sound_row_spec m row : sound_row m = Some row →
  canonical_uuid (m_id m) = Some (m_id row) ∧ m_timestamp_utc row = m_timestamp_utc m.
Proof.
  unfold sound_row. destruct (canonical_uuid (m_id m)) as [id|] eqn:E; [|done]. simpl.
  destruct (_ && _); [|done]. by intros [= <-].
Qed.

(** Rows of one identifier and one time. *)
Definition held (rows : list Message) (r : Message) : Prop :=
  ∃ r', r' ∈ rows ∧ m_id r' = m_id r ∧ m_timestamp_utc r' = m_timestamp_utc r.

Lemma insert_all_holds l rows0 ms : repairable l (pg_messages rows0) →
  (∀ m, m ∈ ms → ∃ e, e ∈ l ∧ m = entry_message e) →
  ∀ rows, (∀ r, r ∈ pg_messages rows → r ∈ omap entry_row l ++ pg_messages rows0) →
  (∀ r, r ∈ pg_messages rows → r ∈ pg_messages (insert_all rows ms)) ∧
  (∀ m row, m ∈ ms → sound_row m = Some row → held (pg_messages (insert_all rows ms)) row).
Proof.
  intros Hra. induction ms as [|m ms IH]; intros Hms rows Hrows; cbn [foldl].
  { split; [done|]. by intros m row ?%elem_of_nil. }
  assert (∃ rows', store_rows rows (WriteMessage m) = rows' ∧
    (∀ r, r ∈ pg_messages rows → r ∈ pg_messages rows') ∧
    (∀ r, r ∈ pg_messages rows' → r ∈ omap entry_row l ++ pg_messages rows0) ∧
    (∀ row, sound_row m = Some row → held (pg_messages rows') row)) as (rows' & -> & H1' & H2' & H3').
  { destruct (Hms m ltac:(by left)) as (e & He & ->). eexists. split; [done|]. cbn [store_rows].
    destruct (sound_row (entry_message e)) as [row|] eqn:Er; [|by split_and!]. cbn [from_option].
    assert (row ∈ omap entry_row l) as Hrow by (apply list_elem_of_omap; by exists e).
    unfold insert_message. destruct (existsb _ _) eqn:Ec.
    - split_and!; [done|done|]. intros ? [= <-]. apply existsb_True in Ec as (r' & Hr' & Ec).
      destruct (ra_one _ _ Hra row r' Hrow (Hrows r' Hr')) as [Hts Hid]. exists r'.
      split_and!; [done|by rewrite Hid|by rewrite Hts by by apply Hid].
    - simpl. split_and!.
      + intros r Hr. apply elem_of_app. by left.
      + intros r [Hr|Hr]%elem_of_app; [by apply Hrows|].
        apply list_elem_of_singleton in Hr as ->. apply elem_of_app. by left.
      + intros ? [= <-]. exists row. split_and!; [|done|done]. apply elem_of_app. right. by left. }
  destruct (IH ltac:(intros m' Hm'; apply Hms; by right) rows' H2') as [G1 G2]. split; [auto|].
  intros m' row [-> | Hm']%elem_of_cons Er; [|by apply (G2 m')].
  destruct (H3' row Er) as (r' & Hr' & E1 & E2). exists r'. split; [by apply G1|done].
Qed.

(** ** The run *)

Lemma elem_of_plan x redis pg : x ∈ plan_redis_to_pg redis pg ↔ x ∈ redis ∧ x ∉ pg.
Proof.
  unfold plan_redis_to_pg.
  rewrite elem_of_id_set, elem_of_filter_b, negb_true_iff, bool_decide_eq_false. done.
Qed.

Lemma plan_perm redis pg pg' : pg ≡ₚ pg' → plan_redis_to_pg redis pg = plan_redis_to_pg redis pg'.
Proof.
  intros Hp. apply sorted_same; [apply id_set_sorted..|]. intros x. by rewrite !elem_of_plan, Hp.
Qed.

Lemma elem_of_ids_between x from to l : x ∈ ids_between from to l ↔
  ∃ e t, e ∈ l ∧ entry_time (raw_fields e) = Some t ∧ entry_uuid (raw_fields e) = Some x ∧
         (from ≤ t ≤ to)%Z.
Proof.
  unfold ids_between. rewrite list_elem_of_omap. unfold range_id. split.
  - intros (e & He & Er). destruct (entry_time (raw_fields e)) as [t|] eqn:Et; [|done]. simpl in Er.
    destruct (_ || _) eqn:Eb; [done|]. apply orb_false_iff in Eb as [Eb1 Eb2].
    exists e, t. split_and!; [done|done|done|lia|lia].
  - intros (e & t & He & Et & Eu & Hle). exists e. split; [done|]. rewrite Et. simpl.
    rewrite (proj2 (Z.ltb_ge _ _)), (proj2 (Z.ltb_ge _ _)) by lia. done.
Qed.

(** The backfill inserts messages of the stream, among them all that are wanted. *)
Lemma backfill_spec fuel key t s env w requested to plan :
  at_rest key t env w → is_Some (pgs_database_url s) →
  let l := stream_of (cn_db (st_conn w)) key in
  let from := effective requested l in
  (requested / 1000000 ≤ U64_MAX)%Z → length l < fuel →
  (∀ m, m ∈ fetched plan from to l → row_taken m) → Forall plain l →
  ∃ n w' ms, (match plan with
    | [] => bothret (Some 0)
    | _ :: _ =>
        let% messages := on_redis (fetch_redis_messages fuel key plan from to) in
        both_some messages (λ messages,
          let% (_, newly) := on_pg (sync_redis_to_postgres s messages) in bothret (Some newly))
    end) env w = (Ok (Some n), w') ∧ cn_db (st_conn w') = cn_db (st_conn w) ∧
  ps_rows (pw_state (st_pg w')) = insert_all (ps_rows (pw_state (st_pg w))) ms ∧
  (∀ m, m ∈ ms → ∃ e, e ∈ l ∧ m = entry_message e) ∧
  (∀ e x t', e ∈ l → x ∈ plan → entry_time (raw_fields e) = Some t' → entry_uuid (raw_fields e) = Some x →
    (from ≤ t' ≤ to)%Z → entry_message e ∈ ms).
Proof.
  intros [Hstill Hd Hclose Hquiet] Hurl l from Hreq Hfuel Htaken Hplain.
  destruct plan as [|x0 plan'].
  { exists 0, w, []. split_and!; try done; [by intros m ?%elem_of_nil|].
    by intros e x t' _ ?%elem_of_nil. }
  set (plan := x0 :: plan') in *. pose proof (proj1 (proj2 Hd)) as Hl. fold l in Hl.
  destruct (start_spec requested l Hl Hclose Hreq) as (k & Hk & Hbefore). fold from in Hk, Hbefore.
  destruct (fetch_pages_all plan key t from to (se_bus env) fuel (advance (st_conn w) (cn_db (st_conn w)))
    (start_cursor from) k Hstill Hd Hk) as (n' & E);
    [change (length l < k + fuel); lia|lia|]. simpl in E. fold l in E.
  set (ms := fetched plan from to (drop k l)) in *.
  assert (∀ m, m ∈ ms → m ∈ fetched plan from to l) as Hsub.
  { intros m Hm. rewrite <- (take_drop k l), fetched_app. apply elem_of_app. by right. }
  assert (Forall row_taken ms) as Hms by (apply Forall_forall; auto).
  destruct (sync_spec (se_pg env) s ms (st_pg w) Hquiet Hurl Hms) as (n & p' & F & Frows).
  exists n, (mkStores (mkConn (cn_db (st_conn w)) n' (cn_sent (st_conn w)) (cn_presence (st_conn w))) p'), ms.
  split.
  { unfold bothbind at 1, on_redis, fetch_redis_messages, bbind. rewrite (connect_still key) by done.
    rewrite E. cbn [both_some]. unfold bothbind, on_pg. cbn [st_pg]. by rewrite F. }
  split_and!; [done|done| |].
  - intros m Hm. apply elem_of_filter_b in Hm as [Hm _]. change (m ∈ entry_message <$> drop k l) in Hm.
    apply list_elem_of_fmap in Hm as (e & -> & He). exists e. split; [by eapply elem_of_drop_in|done].
  - intros e x t' He Hx Et Eu Hle. rewrite Forall_forall in Hplain.
    destruct (entry_read e t' x (Hplain e He) Et Eu) as [Hc Hp].
    apply elem_of_filter_b. split.
    + change (entry_message e ∈ entry_message <$> drop k l). apply list_elem_of_fmap_2.
      rewrite <- (take_drop k l) in He. apply elem_of_app in He as [He|He]; [|done].
      specialize (Hbefore e t' He Et). lia.
    + unfold is_wanted, message_in. rewrite Hc, Hp, bool_decide_eq_true_2 by done. simpl.
      apply andb_true_iff. split; apply Z.leb_le; lia.
Qed.

(** ** Nothing is left behind *)

Lemma effective_mono req req' l : (req ≤ req')%Z → (effective req l ≤ effective req' l)%Z.
Proof. intros Hle. unfold effective. destruct (retention l); lia. Qed.

Lemma requested_mono scope to to' : (to ≤ to')%Z → (requested_from scope to ≤ requested_from scope to')%Z.
Proof. destruct scope; simpl; lia. Qed.

Lemma pg_time_mono t t' : (t ≤ t')%Z → (pg_time t ≤ pg_time t')%Z.
Proof.
  intros Hle. unfold pg_time. enough (Z.quot (t - PG_EPOCH) 1000 ≤ Z.quot (t' - PG_EPOCH) 1000)%Z by lia.
  apply Z.quot_le_mono; lia.
Qed.

(** A row with the time of an entry in the range is in the range. *)
Lemma row_between_in from to r t : parse_timestamp_utc (m_timestamp_utc r) = Ok t →
  (from ≤ t ≤ to)%Z → row_between from to r = true.
Proof.
  intros E [Hf Ht]. unfold row_between. rewrite E.
  apply andb_true_iff. split; apply Z.leb_le; by apply pg_time_mono.
Qed.

(** The row an entry with a time and an identifier is stored as. *)
Lemma entry_row_of l rows e t x : repairable l rows → e ∈ l →
  entry_time (raw_fields e) = Some t → entry_uuid (raw_fields e) = Some x →
  row_taken (entry_message e) ∧ ∃ row, sound_row (entry_message e) = Some row ∧ row ∈ omap entry_row l ∧
    m_id row = x ∧ parse_timestamp_utc (m_timestamp_utc row) = Ok t.
Proof.
  intros Hra He Et Eu. pose proof (ra_plain _ _ Hra) as Hp. rewrite Forall_forall in Hp.
  destruct (entry_read e t x (Hp e He) Et Eu) as [Hc Ht].
  assert (row_taken (entry_message e)) as Htaken by (eapply ra_taken; [done|done|by eexists|by rewrite Ht]).
  split; [done|]. destruct Htaken as (row & Er & _). exists row.
  destruct (sound_row_spec _ _ Er) as [Hid ->]. rewrite Hc in Hid. simplify_eq.
  split_and!; [done| |done|done]. apply list_elem_of_omap. by exists e.
Qed.

(** What a plan asks for can be stored. *)
Lemma fetched_taken l rows from to plan : repairable l rows →
  (∀ x, x ∈ plan → ∃ s, canonical_uuid s = Some x) →
  ∀ m, m ∈ fetched plan from to l → row_taken m.
Proof.
  intros Hra Hplan m Hm. apply elem_of_filter_b in Hm as [Hm Hb].
  change (m ∈ entry_message <$> l) in Hm. apply list_elem_of_fmap in Hm as (e & -> & He).
  apply andb_true_iff in Hb as [Hw Hin]. eapply ra_taken; [done|done| |].
  - unfold is_wanted in Hw. destruct (canonical_uuid (m_id (entry_message e))) eqn:E; [by eexists|].
    apply bool_decide_eq_true in Hw. destruct (Hplan _ Hw) as (s & Es).
    apply canonical_uuid_canonical in Es. congruence.
  - unfold message_in in Hin. by destruct (parse_timestamp_utc _).
Qed.

(** Once the planned messages are inserted, the table has every identifier of a later
    range that the stream has there. *)
Lemma range_held l rows ms from to from' to' pg x : repairable l (pg_messages rows) →
  pg ≡ₚ rows_between from to rows → (from ≤ from')%Z →
  (∀ m, m ∈ ms → ∃ e, e ∈ l ∧ m = entry_message e) →
  (∀ e x t, e ∈ l → x ∈ plan_redis_to_pg (ids_between from to l) pg →
    entry_time (raw_fields e) = Some t → entry_uuid (raw_fields e) = Some x → (from ≤ t ≤ to)%Z →
    entry_message e ∈ ms) →
  (∀ e t, e ∈ l → entry_time (raw_fields e) = Some t → (t ≤ to')%Z → (t ≤ to)%Z) →
  x ∈ ids_between from' to' l → x ∈ rows_between from' to' (insert_all rows ms).
Proof.
  intros Hra Hpg Hfrom Hms Hall Hto (e & t & He & Et & Eu & Hle)%elem_of_ids_between.
  specialize (Hto e t He Et (proj2 Hle)).
  destruct (insert_all_holds l rows ms Hra Hms rows) as [Hkeep Hheld].
  { intros r Hr. apply elem_of_app. by right. }
  destruct (entry_row_of _ _ e t x Hra He Et Eu) as (_ & row & Er & Hrow & Hid & Htime).
  assert (∀ r, r ∈ pg_messages (insert_all rows ms) → m_id r = x →
    m_timestamp_utc r = m_timestamp_utc row → x ∈ rows_between from' to' (insert_all rows ms)) as Hdone.
  { intros r Hr <- Ets. apply (list_elem_of_fmap_2 m_id). apply elem_of_filter_b. split; [done|].
    apply (row_between_in _ _ _ t); [by rewrite Ets|lia]. }
  destruct (decide (x ∈ pg)) as [Hin|Hout].
  - rewrite Hpg in Hin. change (x ∈ m_id <$> List.filter (row_between from to) (pg_messages rows)) in Hin.
    apply list_elem_of_fmap in Hin as (r & E & Hr). apply elem_of_filter_b in Hr as [Hr _].
    apply (Hdone r); [by apply Hkeep|done|]. symmetry.
    eapply (ra_one _ _ Hra row r Hrow); [|by rewrite Hid]. apply elem_of_app. by right.
  - destruct (Hheld (entry_message e) row) as (r & Hr & Eid & Ets); [|done|by apply (Hdone r); congruence].
    apply (Hall e x t); try done; [|lia]. apply elem_of_plan. split; [|done].
    apply elem_of_ids_between. exists e, t. split_and!; try done; lia.
Qed.

Lemma redis_only_none redis pg cut : (∀ x, x ∈ redis → x ∈ pg) →
  rp_redis_only_count (compare_id_sets redis pg cut) = 0.
Proof.
  intros Hsub. unfold compare_id_sets. simpl.
  enough (set_difference (id_set redis) (id_set pg) = []) as -> by done.
  unfold set_difference. apply filter_none. intros x Hx. rewrite elem_of_id_set in Hx.
  rewrite bool_decide_eq_true_2; [done|]. rewrite elem_of_id_set. by apply Hsub.
Qed.

(** C11. Over stores at rest whose messages can be stored, a repair within its cap ends
    with a report of what it planned, and the check after it finds no identifier that only
    the stream holds. The stream stays as it was. The clock does not go back meanwhile,
    and no message of the stream settles between the two checks. *)
Theorem reconcile_repairs fuel key t s scope settle cut max_insert env w :
  at_rest key t env w → is_Some (pgs_database_url s) →
  let l := stream_of (cn_db (st_conn w)) key in
  let rows := ps_rows (pw_state (st_pg w)) in
  let now := tn_clock (se_bus env (cn_step (st_conn w))) in
  let to := (now - settle)%Z in
  let from := effective (requested_from scope to) l in
  let plan := plan_redis_to_pg (ids_between from to l) (rows_between from to rows) in
  repairable l (pg_messages rows) → length l < fuel → length plan ≤ max_insert →
  (∀ i, (now ≤ tn_clock (se_bus env i))%Z ∧
        (requested_from scope (tn_clock (se_bus env i) - settle) / 1000000 ≤ U64_MAX)%Z) →
  (∀ i e t', e ∈ l → entry_time (raw_fields e) = Some t' →
    (t' ≤ tn_clock (se_bus env i) - settle)%Z → (t' ≤ to)%Z) →
  ∃ rep after w', reconcile fuel key s scope settle cut true max_insert env w = (Ok (Some rep), w') ∧
    rr_applied rep = true ∧ rr_planned_redis_to_pg rep = length plan ∧ rr_after rep = Some after ∧
    rp_redis_only_count (sc_report after) = 0 ∧ cn_db (st_conn w') = cn_db (st_conn w).
Proof.
  intros Hrest Hurl l rows now to from plan Hra Hfuel Hcap Hclock Hsettled.
  destruct (scan_spec fuel key t s scope settle env w Hrest Hurl Hfuel)
    as (sn & w1 & E & Ef & Et & _ & Er & Ep & Ed & Hsame); [by apply Hclock|].
  fold l in Ef, Er. fold to in Ef, Et, Er, Ep. fold from in Ef, Er, Ep.
  assert (plan_redis_to_pg (sn_redis_ids sn) (sn_pg_ids sn) = plan) as Eplan.
  { rewrite Er. by apply plan_perm. }
  assert (at_rest key t env w1) as Hrest1 by (destruct Hrest; split; by rewrite ?Ed).
  destruct (backfill_spec fuel key t s env w1 (requested_from scope to) to plan Hrest1 Hurl)
    as (n & w2 & ms & F & Fd & Frows & Hms & Hall).
  { apply Hclock. }
  { by rewrite Ed. }
  { rewrite Ed. eapply fetched_taken; [done|]. intros x Hx. apply elem_of_plan in Hx as [Hx _].
    apply elem_of_ids_between in Hx as (e & t' & _ & _ & Eu & _). unfold entry_uuid in Eu.
    destruct (Consistency.field_text _ "id") as [i|]; [by exists i|done]. }
  { rewrite Ed. apply Hra. }
  rewrite Ed in F, Hms, Hall. fold l in F, Hms, Hall. fold from in F, Hall. rewrite Ed in Fd.
  destruct Hsame as (Hrows & _). rewrite Hrows in Frows.
  assert (at_rest key t env w2) as Hrest2 by (destruct Hrest; split; by rewrite ?Fd).
  set (clock2 := tn_clock (se_bus env (cn_step (st_conn w2)))).
  destruct (scan_spec fuel key t s scope settle env w2 Hrest2 Hurl)
    as (sn2 & w3 & G & _ & _ & _ & G1 & G2 & G3 & _).
  { by rewrite Fd. }
  { apply Hclock. }
  rewrite Fd in G1, G2, G3. fold l in G1, G2. fold clock2 in G1, G2. rewrite Frows in G2.
  unfold reconcile, bothbind at 1. rewrite E. cbn [both_some negb]. rewrite Eplan, Ef, Et.
  change (tn_clock (se_bus env (cn_step (st_conn w))) - settle)%Z with to. fold from.
  rewrite (proj2 (Nat.ltb_ge _ _)) by done. unfold bothbind at 1. rewrite F. cbn [both_some].
  unfold bothbind at 1. rewrite G. cbn [both_some]. unfold bothret.
  do 3 eexists. split; [done|]. simpl. split_and!; try done. apply redis_only_none.
  intros x Hx. rewrite G2. rewrite G1 in Hx. revert Hx.
  apply (range_held l rows ms from to _ _ (rows_between from to rows)); try done.
  - apply effective_mono, requested_mono. destruct (Hclock (cn_step (st_conn w2))). lia.
  - intros e t' He Et'. by apply (Hsettled _ e).
Qed.
End repair.
