(* ===== verification/ScanDemo.v ===== *)
(** * ScanDemo: a check and a repair at work

    A small stream and a table that lacks some of its messages, at which the theorems of
    the check and of the repair are evaluated. And what they leave out: a first entry
    whose time is not the first, and an entry PostgreSQL refuses. *)

From Stdlib Require Import ZArith Lia Ascii.
From stdpp Require Import base option list strings gmap sorting.
From S2P Require Import Prelude Str Json Validation McpSchema ClaimTypes Outbox OutboxCodec Redis.
From S2P Require Import Channels Messages StreamEntry ReplayScript OutboxHub SyncStore StreamFacts.
From S2P Require Import Bus PgStore PgStoreProps Consistency ConsistencyProps ScanProps.
From S2P Require Import ReconcileProps RepairProps ClaimInstances SyncInstances BusInstances PgDemo.

#[local] Existing Instances bit_codec bit_chrono bit_store bus_entry demo_pg.

Definition MS : Z := 1000000.

(** An entry sent at [ms] milliseconds by its sender's clock. *)
Definition sent_entry (sid : string) (ms : Z) (id : string) : string * list string :=
  (sid, flat [("id", id); ("timestamp_utc", format_timestamp (ms * MS)); ("from", "alice");
              ("to", "bob"); ("topic", "status"); ("body", "hello")]).

Definition demo_key : string := "agent_bus:messages".

(** Clocks stand still at one hour. *)
Definition both_calm : stores_env := mkStoresEnv (λ _, quiet_turn (λ d, d) 0) calm.

Definition demo_stores (l : list (string * list string)) (rows : list Message) : stores :=
  mkStores (stream_conn demo_key l)
    (mkPgWorld (mkPgState (mkRows rows []) [] None false [] (mkPgMetrics 0 0 0 0 0)) 0 []).

Definition three : list (string * list string) :=
  [sent_entry "3500000-0" 3500000 "AB12"; sent_entry "3510000-0" 3509000 "cd34";
   sent_entry "3520000-0" 3521000 "ef56"].

(** The row of an entry. *)
Definition row_of (e : string * list string) : Message :=
  from_option (λ r, r) (entry_message e) (entry_row e).

Definition behind : stores := demo_stores three [row_of (sent_entry "3510000-0" 3509000 "cd34")].

Lemma calm_at_rest key l rows t : key = demo_key →
  StronglySorted (λ a b, (erank a < erank b)%Z) l →
  forallb (λ e, (0 <=? erank e)%Z && utf8 e.1 && (erank e <=? t)%Z) l = true →
  forallb (λ e, match entry_time (raw_fields e) with
                | Some u => (u / 1000000 <=? entry_ms e + STREAM_START_SLACK_MS)%Z
                | None => true
                end) l = true →
  at_rest key t both_calm (demo_stores l rows).
Proof.
  intros -> Hs Hf Hc. split.
  - intros i. split; [done|]. split; [done|]. intros e. simpl. intros He.
    apply lookup_singleton_Some in He as [_ <-]. done.
  - by apply stream_conn_ok.
  - cbn [demo_stores st_conn]. rewrite stream_conn_of. intros e u He Hu. rewrite forallb_forall in Hc.
    specialize (Hc e). rewrite Hu in Hc. apply Z.leb_le, Hc. by apply list_elem_of_In.
  - apply calm_quiet.
Qed.

Lemma three_at_rest rows : at_rest demo_key (3520000 * 2 ^ 64) both_calm (demo_stores three rows).
Proof.
  apply calm_at_rest; [done| |by vm_compute|by vm_compute].
  repeat constructor; by vm_compute.
Qed.

Lemma check_tells_witness :
  let r := (check_stores 4 demo_key demo_settings Full (30000 * MS) 50 both_calm behind).1 in
  ∃ check, r = Ok (Some check) ∧ (sc_from check, sc_to check) = (3500000 * MS, 3570000 * MS)%Z ∧
    rp_ok (sc_report check) = false ∧ rp_redis_only (sc_report check) = ["ab12"; "ef56"].
Proof.
  cbv zeta. destruct (check_tells 4 demo_key (3520000 * 2 ^ 64) demo_settings Full (30000 * MS) 50
    both_calm behind) as (check & w' & E & _).
  - apply three_at_rest.
  - by eexists.
  - unfold behind, demo_stores. cbn [st_conn]. rewrite stream_conn_of. vm_compute. lia.
  - by vm_compute.
  - exists check. split; [rewrite E; reflexivity|].
    assert (Some (Ok (Some check)) =
      Some (check_stores 4 demo_key demo_settings Full (30000 * MS) 50 both_calm behind).1) as Hc
      by (rewrite E; reflexivity).
    clear E. vm_compute in Hc. injection Hc as ->. split_and!; reflexivity.
Defined.

Lemma reconcile_bounded_witness :
  let w' := (reconcile 4 demo_key demo_settings Full (30000 * MS) 50 true 2 both_calm behind).2 in
  map m_id (table (pw_state (st_pg w'))) = ["cd34"; "ab12"; "ef56"] ∧
  ∃ new, table (pw_state (st_pg w')) = table (pw_state (st_pg behind)) ++ new ∧ length new ≤ 2.
Proof.
  cbv zeta. split; [by vm_compute|].
  destruct (reconcile_bounded 4 demo_key demo_settings Full (30000 * MS) 50 true 2 both_calm behind)
    as (_ & new & E & Hle & _).
  - split; [intros n d|intros n st]; reflexivity.
  - exists new. exact (conj E Hle).
Defined.

(** ** Stores a repair can work on, decidably *)

Lemma repairable_dec l rows :
  Forall plain l → Forall (λ e, row_taken (entry_message e)) l →
  forallb (λ r, forallb (λ r',
    implb (bool_decide (m_id r = m_id r')) (bool_decide (m_timestamp_utc r = m_timestamp_utc r')) &&
    implb (message_conflict r r') (bool_decide (m_id r = m_id r')))
    (omap entry_row l ++ rows)) (omap entry_row l) = true →
  repairable l rows.
Proof.
  intros Hp Ht Hb. split; [done| |].
  - intros e He _ _. rewrite Forall_forall in Ht. by apply Ht.
  - intros r r' Hr Hr'. rewrite forallb_forall in Hb. apply list_elem_of_In in Hr, Hr'.
    specialize (Hb r Hr). rewrite forallb_forall in Hb. specialize (Hb r' Hr').
    apply andb_true_iff in Hb as [H1 H2]. split; intros E.
    + rewrite bool_decide_eq_true_2 in H1 by done. by apply bool_decide_eq_true in H1.
    + rewrite E in H2. by apply bool_decide_eq_true in H2.
Qed.

Lemma plain_sent sid ms id : plain (sent_entry sid ms id).
Proof.
  eexists. split; [done|]. split; [|by repeat constructor].
  apply (bool_decide_unpack _). by vm_compute.
Qed.

Lemma three_repairable : repairable three [row_of (sent_entry "3510000-0" 3509000 "cd34")].
Proof.
  apply repairable_dec; [repeat constructor; apply plain_sent| |by vm_compute].
  repeat constructor; (eexists; split; [by vm_compute|by vm_compute]).
Qed.

Lemma reconcile_repairs_witness :
  ∃ rep after, (reconcile 4 demo_key demo_settings Full (30000 * MS) 50 true 2 both_calm behind).1
    = Ok (Some rep) ∧ rr_planned_redis_to_pg rep = 2 ∧ rr_after rep = Some after ∧
  rp_redis_only_count (sc_report after) = 0.
Proof.
  destruct (reconcile_repairs 4 demo_key (3520000 * 2 ^ 64) demo_settings Full (30000 * MS) 50 2
    both_calm behind) as (rep & after & w' & E & _ & Hp & Ha & Hn & _).
  - apply three_at_rest.
  - by eexists.
  - unfold behind, demo_stores. cbn [st_conn]. rewrite stream_conn_of. apply three_repairable.
  - unfold behind, demo_stores. cbn [st_conn]. rewrite stream_conn_of. vm_compute. lia.
  - vm_compute. lia.
  - intros i. split; [done|by vm_compute].
  - intros i e t'. cbn. auto.
  - exists rep, after. split; [rewrite E; reflexivity|]. split; [|exact (conj Ha Hn)].
    rewrite Hp. vm_compute. reflexivity.
Defined.

(** ** What the hypotheses leave out *)

(** The first entry came from another hub and was sent long before it arrived here. *)
Definition late_first : list (string * list string) :=
  [sent_entry "3510000-0" 3000000 "cd34"; sent_entry "3520000-0" 3520000 "ef56"].

(** Everything was stored, also a message of this hub that was trimmed since. *)
Definition trimmed : stores :=
  demo_stores late_first (map row_of (sent_entry "3400000-0" 3400000 "ab12" :: late_first)).

(** The retention is taken to start at the first entry's own time, so the trimmed message
    lies after it, and is reported as missing from the stream. *)
Lemma trimmed_reported :
  at_rest demo_key (3520000 * 2 ^ 64) both_calm trimmed ∧
  match (check_stores 4 demo_key demo_settings Full (30000 * MS) 50 both_calm trimmed).1 with
  | Ok (Some check) => rp_ok (sc_report check) = false ∧ rp_pg_only (sc_report check) = ["ab12"]
  | _ => False
  end.
Proof.
  split; [|vm_compute; split; reflexivity].
  apply calm_at_rest; [done| |by vm_compute|by vm_compute]. repeat constructor; by vm_compute.
Qed.

(** An entry whose number is past what PostgreSQL's integers hold. *)
Definition unstorable : string * list string :=
  ("3510000-0", flat [("id", "cd34"); ("timestamp_utc", format_timestamp (3510000 * MS));
     ("from", "alice"); ("to", "bob"); ("topic", "status"); ("body", "hello");
     ("origin_hub", "other"); ("origin_seq", "9223372036854775808")]).

(** A repair whose plan has such an entry fails, and stores nothing of what follows it. *)
Lemma unstorable_blocks_repair :
  let l := [sent_entry "3500000-0" 3500000 "AB12"; unstorable; sent_entry "3520000-0" 3521000 "ef56"] in
  let r := reconcile 4 demo_key demo_settings Full (30000 * MS) 50 true 10 both_calm (demo_stores l []) in
  is_ok r.1 = false ∧ map m_id (table (pw_state (st_pg r.2))) = ["ab12"].
Proof. vm_compute. split; reflexivity. Qed.
