(* ===== verification/Programs.v ===== *)
(** * Programs: programs of calls to the system

    Paths by their components, and programs that call the file system, the clock, tools
    and the network: what they may do ([runs_as]) whatever is answered, what they do under
    a server of the calls ([serve]), and fallible programs with the notations [let&] and
    [let@]. Then lemmas that take a run apart at its steps, bounds on the calls of a
    program, and what a call may change, with the tactic [through] that goes through a
    program and the hint database [tokens] of bounds that are known. Used by the cloud
    credentials and by the settings. *)

From Stdlib Require Import ZArith Lia Ascii.
From stdpp Require Import base option list strings.
From S2P Require Import Prelude Str Json StreamEntry.

(** ** Paths

    A [Path] by its components, which is how paths are compared; [.] is one only at the
    start. *)

Record fpath := mkPath { fp_root : bool; fp_comps : list string }.

#[export] Instance fpath_eq_dec : EqDecision fpath.
Proof. solve_decision. Defined.

Definition components (s : string) : fpath :=
  let parts := split_char "/" s in
  let rooted := starts_with s "/" in
  let kept := List.filter (λ c, negb (bool_decide (c ∈ [""; "."]))) parts in
  mkPath rooted (if negb rooted && bool_decide (hd_error parts = Some ".") then "." :: kept else kept).

Definition push (p q : fpath) : fpath :=
  if fp_root q then q
  else mkPath (fp_root p)
         (fp_comps p ++ match fp_comps q with
                        | "." :: rest => match fp_comps p, fp_root p with
                                         | [], false => fp_comps q
                                         | _, _ => rest
                                         end
                        | cs => cs
                        end).

Definition join_path (p : fpath) (s : string) : fpath := push p (components s).

Definition file_name (p : fpath) : option string :=
  c ← last (fp_comps p); if bool_decide (c ∈ [".."; "."]) then None else Some c.

Definition parent (p : fpath) : option fpath :=
  match fp_comps p with
  | [] => None
  | _ => Some (mkPath (fp_root p) (take (length (fp_comps p) - 1) (fp_comps p)))
  end.

Definition with_file_name (p : fpath) (name : string) : fpath :=
  match file_name p, parent p with
  | Some _, Some dir => join_path dir name
  | _, _ => join_path p name
  end.

(** ** Programs of calls

    [Metadata] answers whether the path is a directory. *)

Inductive io_error : Type := IoNotFound | IoAlreadyExists | IoOther.

Abbreviation io := (result io_error).

(** An HTTP answer, its body in the pieces it came in; a piece may fail to be read. *)
Record http_answer := mkAnswer {
  ha_status : Z;
  ha_length : option Z;
  ha_chunks : list (option string);
}.

Inductive call : Type :=
  | ReadFile (p : fpath)
  | IsFile (p : fpath)
  | IsDir (p : fpath)
  | Exists (p : fpath)
  | IsSymlink (p : fpath)
  | Metadata (p : fpath)
  | Canonicalize (p : fpath)
  | CreateDirAll (p : fpath)
  | CopyFile (from to : fpath)
  | CreateNew (p : fpath)
  | OpenExisting (p : fpath)
  | WriteAll (p : fpath) (text : string)
  | SyncAll (p : fpath)
  | Rename (from to : fpath)
  | RemoveFile (p : fpath)
  | TryLock (p : fpath)
  | Unlock (p : fpath)
  | Entropy (bytes : nat)
  | NewUuid
  | Now
  | Invoke (program : string) (args : list string) (input : option string) (cwd : option fpath)
  | HttpGet (url : string) (bearer : option string).

#[export] Instance call_eq_dec : EqDecision call.
Proof. solve_decision. Defined.

Definition answer (c : call) : Type :=
  match c with
  | ReadFile _ => io string
  | IsFile _ | IsDir _ | Exists _ | TryLock _ => bool
  | IsSymlink _ | Metadata _ => io bool
  | Canonicalize _ => io fpath
  | CreateDirAll _ | CopyFile _ _ | CreateNew _ | OpenExisting _ | WriteAll _ _ | SyncAll _
  | Rename _ _ | RemoveFile _ => io unit
  | Unlock _ => unit
  | Entropy _ => option (list Z)
  | NewUuid => string
  | Now => Z
  | Invoke _ _ _ _ => option string
  | HttpGet _ _ => option http_answer
  end.

Inductive prog (A : Type) : Type :=
  | Done (a : A)
  | Ask (c : call) (k : answer c → prog A).
Arguments Done {A}.
Arguments Ask {A}.

Definition event : Type := { c : call & answer c }.
Abbreviation did c a := (existT (P := answer) c a).

(** What a program does: its calls with their answers, and its value. The process may end
    after any call; there is no value then. *)
Inductive runs_as {A} : prog A → list event → option A → Prop :=
  | RunDone a : runs_as (Done a) [] (Some a)
  | RunStop p : runs_as p [] None
  | RunAsk c k a log r : runs_as (k a) log r → runs_as (Ask c k) (did c a :: log) r.

(** The same under a server of the calls. *)
Fixpoint serve {A S} (h : ∀ c, S → answer c * S) (p : prog A) (s : S) : A * S * list event :=
  match p with
  | Done a => (a, s, [])
  | Ask c k =>
      let '(a, s) := h c s in
      let '(r, s, log) := serve h (k a) s in
      (r, s, did c a :: log)
  end.

Fixpoint pbind {A B} (m : prog A) (k : A → prog B) : prog B :=
  match m with
  | Done a => k a
  | Ask c j => Ask c (λ a, pbind (j a) k)
  end.

Definition ask (c : call) : prog (answer c) := Ask c Done.

(** Fallible programs; an error is the outermost text of the chain. *)
Abbreviation cmd A := (prog (result string A)).

Definition okay {A} (a : A) : cmd A := Done (Ok a).
Definition bail {A} (e : string) : cmd A := Done (Err e).
Definition lift {A} (r : result string A) : cmd A := Done r.
Definition cbind {A B} (m : cmd A) (k : A → cmd B) : cmd B :=
  pbind m (λ r, match r with Ok a => k a | Err e => Done (Err e) end).

Notation "'let&' x ':=' m 'in' k" := (pbind m (fun x => k))
  (at level 10, x pattern, m at level 200, k at level 200) : bus_scope.
Notation "'let@' x ':=' m 'in' k" := (cbind m (fun x => k))
  (at level 10, x pattern, m at level 200, k at level 200) : bus_scope.

(** A call of the file system, with the text of its failure. *)
Definition io_or {A} (e : string) (m : prog (io A)) : cmd A :=
  let& r := m in Done (map_err (λ _, e) r).
Definition some_or {A} (e : string) (m : prog (option A)) : cmd A :=
  let& r := m in Done (ok_or e r).

(** [.context(e)]. *)
Definition context {A} (e : string) (m : cmd A) : cmd A := let& r := m in Done (map_err (λ _, e) r).

Definition read_to_string (e : string) (p : fpath) : cmd string :=
  let@ bytes := io_or e (ask (ReadFile p)) in if utf8 bytes then okay bytes else bail e.

Definition read_bytes (e : string) (p : fpath) : cmd string := io_or e (ask (ReadFile p)).

Fixpoint each {A B} (f : B → A → cmd B) (l : list A) (acc : B) : cmd B :=
  match l with
  | [] => okay acc
  | a :: l => let@ acc := f acc a in each f l acc
  end.

(** ** Steps *)

Section runs.
Context {A B : Type}.

Lemma runs_done (a : A) log r : runs_as (Done a) log r → log = [] ∧ from_option (λ b, b = a) True r.
Proof. by inversion 1. Qed.

Lemma runs_ask_inv c (k : answer c → prog A) log r : runs_as (Ask c k) log r →
  (log = [] ∧ r = None) ∨ ∃ a l, log = did c a :: l ∧ runs_as (k a) l r.
Proof.
  inversion 1 as [|p|c' k' a l r' Hr]; subst; [by left|right; exists a, l; split; [done|]].
  match goal with E : existT _ _ = existT _ _ |- _ =>
    apply (Eqdep_dec.inj_pair2_eq_dec _ call_eq_dec) in E as -> end. done.
Qed.

Lemma runs_bind_inv (m : prog A) (k : A → prog B) log r : runs_as (pbind m k) log r →
  (runs_as m log None ∧ r = None) ∨
  ∃ l1 l2 a, log = l1 ++ l2 ∧ runs_as m l1 (Some a) ∧ runs_as (k a) l2 r.
Proof.
  revert log. induction m as [a|c j IH]; intros log; cbn [pbind].
  { intros Hr. right. exists [], log, a. split_and!; [done|constructor|done]. }
  inversion 1 as [|p|c' j' a log' r' Hr]; subst; [left; split; [constructor|done]|].
  match goal with E : existT _ _ = existT _ _ |- _ =>
    apply (Eqdep_dec.inj_pair2_eq_dec _ call_eq_dec) in E as -> end.
  destruct (IH a log' Hr) as [[Hm ->]|(l1 & l2 & b & -> & Hm & Hk)].
  - left. split; [by constructor|done].
  - right. exists (did c a :: l1), l2, b. split_and!; [done|by constructor|done].
Qed.
End runs.

Lemma runs_cbind_inv {A B} (m : cmd A) (k : A → cmd B) log r : runs_as (cbind m k) log r →
  (∃ r', runs_as m log r' ∧ (∀ a, r' ≠ Some (Ok a)) ∧ ∀ b, r ≠ Some (Ok b)) ∨
  ∃ l1 l2 a, log = l1 ++ l2 ∧ runs_as m l1 (Some (Ok a)) ∧ runs_as (k a) l2 r.
Proof.
  intros [[Hm ->]|(l1 & l2 & [a|e] & -> & Hm & Hk)]%runs_bind_inv; [left; by eauto|right; by eauto 10|].
  apply runs_done in Hk as [-> Hk]. rewrite app_nil_r. left. exists (Some (Err e)).
  split_and!; [done|done|]. intros b ->. by simpl in Hk.
Qed.

(** A step that gave a value. *)
Lemma runs_cbind_ok {A B} (m : cmd A) (k : A → cmd B) log b : runs_as (cbind m k) log (Some (Ok b)) →
  ∃ l1 l2 a, log = l1 ++ l2 ∧ runs_as m l1 (Some (Ok a)) ∧ runs_as (k a) l2 (Some (Ok b)).
Proof. intros [(r & _ & _ & Hr)|?]%runs_cbind_inv; [by destruct (Hr b)|done]. Qed.

Lemma runs_okay_ok {A} (a b : A) log : runs_as (okay a) log (Some (Ok b)) → log = [] ∧ b = a.
Proof. intros [-> Hr]%runs_done. by simplify_eq/=. Qed.

Lemma runs_lift_ok {A} (x : result string A) b log :
  runs_as (lift x) log (Some (Ok b)) → log = [] ∧ x = Ok b.
Proof. by intros [-> Hr]%runs_done. Qed.

Lemma runs_bail_ok {A} e (b : A) log : ¬ runs_as (bail e) log (Some (Ok b)).
Proof. by intros [_ Hr]%runs_done. Qed.

Lemma runs_ask {A} c (k : answer c → prog A) log b : runs_as (Ask c k) log (Some b) →
  ∃ a l, log = did c a :: l ∧ runs_as (k a) l (Some b).
Proof. by intros [[_ ?]|?]%runs_ask_inv. Qed.

Lemma runs_ask_ok c (a : answer c) log : runs_as (ask c) log (Some a) → log = [did c a].
Proof.
  intros (x & l & -> & Hr)%runs_ask. apply runs_done in Hr as [-> Hr]. by simplify_eq/=.
Qed.

Lemma runs_pbind_ok {A B} (m : prog A) (k : A → prog B) log b : runs_as (pbind m k) log (Some b) →
  ∃ l1 l2 a, log = l1 ++ l2 ∧ runs_as m l1 (Some a) ∧ runs_as (k a) l2 (Some b).
Proof. by intros [[_ ?]|?]%runs_bind_inv. Qed.

Lemma runs_io_ok {A} e (m : prog (io A)) a log :
  runs_as (io_or e m) log (Some (Ok a)) → runs_as m log (Some (Ok a)).
Proof.
  intros (l1 & l2 & r & -> & Hm & Hk)%runs_pbind_ok. apply runs_done in Hk as [-> Hk].
  rewrite app_nil_r. by destruct r; simplify_eq/=.
Qed.

Lemma runs_some_ok {A} e (m : prog (option A)) a log :
  runs_as (some_or e m) log (Some (Ok a)) → runs_as m log (Some (Some a)).
Proof.
  intros (l1 & l2 & r & -> & Hm & Hk)%runs_pbind_ok. apply runs_done in Hk as [-> Hk].
  rewrite app_nil_r. by destruct r; simplify_eq/=.
Qed.

Lemma runs_context_ok {A} e (m : cmd A) a log :
  runs_as (context e m) log (Some (Ok a)) → runs_as m log (Some (Ok a)).
Proof.
  intros (l1 & l2 & r & -> & Hm & Hk)%runs_pbind_ok. apply runs_done in Hk as [-> Hk].
  rewrite app_nil_r. by destruct r; simplify_eq/=.
Qed.

Lemma runs_context {A} e (m : cmd A) log r : runs_as (context e m) log r →
  ∃ r', runs_as m log r' ∧ ∀ a, r = Some (Ok a) → r' = Some (Ok a).
Proof.
  intros [[Hm ->]|(l1 & l2 & x & -> & Hm & [-> Hr]%runs_done)]%runs_bind_inv; [by exists None|].
  exists (Some x). rewrite app_nil_r. split; [done|]. intros a ->. simpl in Hr. by destruct x; simplify_eq/=.
Qed.

(** A served program runs. *)
Lemma serve_runs {A S} (h : ∀ c, S → answer c * S) (p : prog A) : ∀ s,
  runs_as p (serve h p s).2 (Some (serve h p s).1.1).
Proof.
  induction p as [a|c k IH]; intros s; simpl; [constructor|].
  destruct (h c s) as [a s']. specialize (IH a s'). destruct (serve h (k a) s') as [[r s''] log].
  by constructor.
Qed.

(** ** Bounds on calls *)

Definition calls {A} (P : call → Prop) (m : prog A) : Prop :=
  ∀ log r, runs_as m log r → Forall (λ ev, P (projT1 ev)) log.

Section calls.
Context (P : call → Prop).

Lemma calls_done {A} (a : A) : calls P (Done a).
Proof. by intros log r [-> _]%runs_done. Qed.

Lemma calls_bind {A B} (m : prog A) (k : A → prog B) :
  calls P m → (∀ a, calls P (k a)) → calls P (pbind m k).
Proof.
  intros Hm Hk log r [[Hr _]|(l1 & l2 & a & -> & H1 & H2)]%runs_bind_inv; [by eapply Hm|].
  apply Forall_app. split; [by eapply Hm|by eapply Hk].
Qed.

Lemma calls_ask c : P c → calls P (ask c).
Proof.
  intros Hc log r [[-> _]|(a & l & -> & Hk)]%runs_ask_inv; [constructor|].
  apply runs_done in Hk as [-> _]. by repeat constructor.
Qed.

Lemma calls_okay {A} (a : A) : calls P (okay a).
Proof. apply calls_done. Qed.

Lemma calls_bail {A} e : calls P (bail e : cmd A).
Proof. apply calls_done. Qed.

Lemma calls_lift {A} (r : result string A) : calls P (lift r).
Proof. apply calls_done. Qed.

Lemma calls_cbind {A B} (m : cmd A) (k : A → cmd B) :
  calls P m → (∀ a, calls P (k a)) → calls P (cbind m k).
Proof. intros Hm Hk. apply calls_bind; [done|]. intros []; [done|apply calls_done]. Qed.

Lemma calls_io {A} e (m : prog (io A)) : calls P m → calls P (io_or e m).
Proof. intros Hm. apply calls_bind; [done|]. intros. apply calls_done. Qed.

Lemma calls_some {A} e (m : prog (option A)) : calls P m → calls P (some_or e m).
Proof. intros Hm. apply calls_bind; [done|]. intros. apply calls_done. Qed.

Lemma calls_context {A} e (m : cmd A) : calls P m → calls P (context e m).
Proof. intros Hm. apply calls_bind; [done|]. intros. apply calls_done. Qed.

Lemma calls_each {A B} (f : B → A → cmd B) l : (∀ acc a, calls P (f acc a)) →
  ∀ acc, calls P (each f l acc).
Proof.
  intros Hf. induction l as [|a l IH]; intros acc; [apply calls_done|].
  by apply calls_cbind.
Qed.
End calls.

Lemma calls_mono {A} (P Q : call → Prop) (m : prog A) : (∀ c, P c → Q c) → calls P m → calls Q m.
Proof. intros HPQ Hm log r Hr. eapply Forall_impl; [by eapply Hm|]. intros [c a]. apply HPQ. Qed.

(** An event is in the first step, or the first step gave a value. *)
Lemma event_after_bind {A B} (Q : call → Prop) (m : prog A) (k : A → prog B) l1 c a l2 r :
  calls Q m → ¬ Q c → runs_as (pbind m k) (l1 ++ did c a :: l2) r →
  ∃ lm x l1', l1 = lm ++ l1' ∧ runs_as m lm (Some x) ∧ Forall (λ ev, Q (projT1 ev)) lm ∧
    runs_as (k x) (l1' ++ did c a :: l2) r.
Proof.
  intros Hm Hc Hr. apply runs_bind_inv in Hr as [[Hr _]|(lm & lk & x & E & Hlm & Hk)].
  - apply Hm, Forall_app in Hr as [_ Hno]. by inversion Hno.
  - pose proof (Hm _ _ Hlm) as Hno. apply app_eq_inv in E as [(l & -> & ->)|(l & -> & E)].
    + by exists lm, x, l.
    + destruct l as [|ev l]; simplify_eq/=.
      * rewrite app_nil_r in *. exists l1, x, []. rewrite app_nil_r. by split_and!.
      * apply Forall_app in Hno as [_ Hno]. by inversion Hno.
Qed.

Lemma event_after {A B} (Q : call → Prop) (m : cmd A) (k : A → cmd B) l1 c a l2 r :
  calls Q m → ¬ Q c → runs_as (cbind m k) (l1 ++ did c a :: l2) r →
  ∃ lm x l1', l1 = lm ++ l1' ∧ runs_as m lm (Some (Ok x)) ∧ Forall (λ ev, Q (projT1 ev)) lm ∧
    runs_as (k x) (l1' ++ did c a :: l2) r.
Proof.
  intros Hm Hc Hr. apply (event_after_bind Q) in Hr as (lm & [x|e] & l1' & -> & Hlm & Hno & Hr); [| |done..].
  - by exists lm, x, l1'.
  - apply runs_done in Hr as [E _]. by destruct l1'.
Qed.

(** An event that the rest of a program cannot make is in its first step. *)
Lemma event_before {A B} (Q : call → Prop) (m : prog A) (k : A → prog B) l1 c a l2 r :
  (∀ x, calls Q (k x)) → ¬ Q c → runs_as (pbind m k) (l1 ++ did c a :: l2) r →
  ∃ l2' r', runs_as m (l1 ++ did c a :: l2') r'.
Proof.
  intros Hk Hc Hr. apply runs_bind_inv in Hr as [[Hr _]|(lm & lk & x & E & Hm & Hr)]; [by exists l2, None|].
  apply Hk in Hr. apply app_eq_inv in E as [(l & -> & ->)|(l & -> & E)].
  - apply Forall_app in Hr as [_ Hr]. by inversion Hr.
  - destruct l as [|ev l]; simplify_eq/=; [by inversion Hr|]. by exists l, (Some x).
Qed.

(** ** What a call may change *)

Inductive effect : Type := Looks | Locks | Files | Recovery | Deploys.

#[export] Instance effect_eq_dec : EqDecision effect.
Proof. solve_decision. Defined.

(** Any call of a tool but the known questions to [bw] is taken to change the recovery copy
    or what is deployed. *)
Definition effect_of (c : call) : effect :=
  match c with
  | CreateDirAll _ | CopyFile _ _ | CreateNew _ | OpenExisting _ | WriteAll _ _ | SyncAll _
  | Rename _ _ | RemoveFile _ => Files
  | TryLock _ | Unlock _ => Locks
  | Invoke program args _ _ =>
      if decide (program = "bw")
      then if bool_decide (hd_error args ∈ [Some "status"; Some "list"; Some "get"]) then Looks else Recovery
      else Deploys
  | _ => Looks
  end.

Definition harmless (c : call) : Prop := effect_of c = Looks.

(** No tool is told to change anything. *)
Definition quiet (c : call) : Prop := effect_of c ≠ Deploys ∧ effect_of c ≠ Recovery.

Lemma harmless_quiet c : harmless c → quiet c.
Proof. unfold quiet. by intros ->. Qed.

Lemma calls_weak {A} (P : call → Prop) (m : prog A) :
  (∀ c, harmless c → P c) → calls harmless m → calls P m.
Proof. apply calls_mono. Qed.

Create HintDb tokens.

(** A call within the bound. *)
Ltac look := match goal with |- calls ?P (ask ?c) => apply (calls_ask P c); first [reflexivity | by vm_compute] end.

(** Steps known to be harmless, under any bound that allows them. *)
Ltac weakly :=
  match goal with |- calls ?P ?m =>
    apply (calls_weak P m);
    [let c := fresh in let G := fresh in
     intros c G; first [exact G | by destruct (harmless_quiet c G) | by left | by (hnf; rewrite G) | by destruct c]
    |solve [auto with tokens nocore]] end.

(** Goes through a program; what is left are the calls. *)
Ltac through :=
  repeat first
    [ solve [auto with tokens nocore] | weakly | look
    | apply calls_done | apply calls_okay | apply calls_bail | apply calls_lift
    | apply calls_context | apply calls_io | apply calls_some
    | apply calls_cbind; [|intros] | apply calls_bind; [|intros]
    | apply calls_each; intros
    | match goal with
      | |- calls _ (match ?x with _ => _ end) => destruct x
      | |- calls _ (if ?b then _ else _) => destruct b
      end
    | progress cbv beta zeta ].
