(* ===== verification/CloudTokens.v ===== *)
(** * CloudTokens: the operator's cloud credentials

    [cloud_tokens.rs] of the command line: the map of cloud credentials with its client
    file, minting, rotating, activating, the copy in Bitwarden, the upload to the Worker
    and the revocation of retired credentials. An action is a program of calls to the file
    system, the clock, the tools [bw] and [wrangler] and the cloud; nothing is assumed of
    their answers. What is printed is left out, and so is the control of the tools'
    processes: a call to a tool ends with its output or an error. The build is the one for
    Unix with the feature [server-mode]. *)

From Stdlib Require Import ZArith Lia Ascii.
From stdpp Require Import base option list strings.
From S2P Require Import Prelude Str Json Validation ClaimTypes Outbox HubTypes Redis StreamEntry Programs.

(** ** Records *)

Record AntiLockout := mkAntiLockout {
  al_keep_previous_map_backup : bool;
  al_backup_dir : string;
  al_require_bw_item_before_wrangler_put : bool;
}.

Definition default_backup_dir : string := "~/.config/agent-bus/token-backups".
Definition anti_lockout_default : AntiLockout := mkAntiLockout true default_backup_dir true.

Record Storage := mkStorage {
  so_tokens_map_path : string;
  so_client_token_path : string;
  so_client_token_role : string;
  so_client_token_agent : string;
  so_client_token_host : option string;
}.

Record Identity := mkIdentity {
  it_id : string;
  it_role : string;
  it_agent : string;
  it_host : option string;
  it_hub : option string;
}.

Record TokenMeta := mkTokenMeta {
  tm_agent : string;
  tm_role : string;
  tm_host : option string;
  tm_hub : option string;
}.

Record DeployedMapAuthority := mkAuthority {
  da_source_kind : string;
  da_authority_reference : string;
  da_baseline_path : string;
  da_baseline_sha256 : string;
  da_candidate_sha256 : string;
}.

Record RetiredToken := mkRetired {
  rt_identity_id : string;
  rt_token_sha256 : string;
  rt_cutover_receipt_path : string;
  rt_cutover_receipt_sha256 : string;
}.

Record Revocation := mkRevocation {
  rv_retired : list RetiredToken;
  rv_exclusive_lease_path : string;
  rv_exclusive_lease_sha256 : string;
}.

Record RevocationLease := mkLease {
  le_status : string;
  le_owner : string;
  le_resource : string;
  le_expires_at_utc : string;
  le_evidence_reference : string;
}.

Record CutoverReceipt := mkReceipt {
  cr_identity_id : string;
  cr_retired_token_sha256 : string;
  cr_replacement_token_sha256 : string;
  cr_baseline_sha256 : string;
  cr_cloud_base_url : string;
  cr_replacement_authenticated : bool;
  cr_retired_client_disconnected : bool;
  cr_evidence_reference : string;
}.

(** [bitwarden] holds the item's name alone. *)
Record Manifest := mkManifest {
  mf_cloud_base_url : string;
  mf_worker_name : option string;
  mf_storage : Storage;
  mf_anti_lockout : AntiLockout;
  mf_item_name : string;
  mf_identities : list Identity;
  mf_deployed_map_authority : option DeployedMapAuthority;
  mf_revocation : option Revocation;
}.

Inductive RevocationPhase : Type := BeforeUpload | AfterUpload.

#[export] Instance phase_eq_dec : EqDecision RevocationPhase.
Proof. solve_decision. Defined.

Inductive CloudTokensAction : Type :=
  | InitManifest | Mint | Rotate | Activate | WriteClient | Status | Smoke | WranglerHint
  | BwUpsert | WranglerPut | Revoke.

(** ** JSON and third parties *)

Class TokenText := {
  value_text : json → string;
  value_pretty : json → string;
  value_of_text : string → option json;
  manifest_of_text : string → option Manifest;
  lease_of_text : string → option RevocationLease;
  receipt_of_text : string → option CutoverReceipt;
  base64_text : string → string;
}.

(** A token map is a [BTreeMap] of values, like an object. *)
Abbreviation token_map := fields (only parsing).

Definition map_remove (token : string) (m : fields) : fields :=
  List.filter (λ kv, negb (bool_decide (kv.1 = token))) m.

(** [serde_json::from_value::<TokenMeta>]: of an object, or of a sequence of its fields. *)
Definition optional_text (o : option json) : option (option string) :=
  match o with
  | None | Some JNull => Some None
  | Some (JStr s) => Some (Some s)
  | Some _ => None
  end.

Definition meta_of_value (v : json) : option TokenMeta :=
  match v with
  | JObj m =>
      agent ← get m "agent" ≫= as_str;
      role ← get m "role" ≫= as_str;
      host ← optional_text (get m "host");
      hub ← optional_text (get m "hub");
      Some (mkTokenMeta agent role host hub)
  | JArr [JStr agent; JStr role; host; hub] =>
      host ← optional_text (Some host);
      hub ← optional_text (Some hub);
      Some (mkTokenMeta agent role host hub)
  | _ => None
  end.

Definition meta_value (m : TokenMeta) : json :=
  obj ([("agent", JStr (tm_agent m)); ("role", JStr (tm_role m))]
       ++ from_option (λ h, [("host", JStr h)]) [] (tm_host m)
       ++ from_option (λ h, [("hub", JStr h)]) [] (tm_hub m)).

(** The environment of the process. *)
Record operator_env := mkOperator {
  oe_userprofile : option string;
  oe_home : option string;
  oe_current_dir : option fpath;
}.

Section tokens.
Context (op : operator_env) `{JournalCodec} `{Chrono} `{TokenText} `{UrlLib}.

(** ** Files *)

Definition home_dir : result string fpath :=
  match oe_userprofile op, oe_home op with
  | Some p, _ => Ok (components p)
  | None, Some p => Ok (components p)
  | None, None => Err "neither USERPROFILE nor HOME is set"
  end.

Definition expand_path (raw : string) : result string fpath :=
  let? home := home_dir in
  match strip_prefix raw "~/" with
  | Some rest => Ok (join_path home rest)
  | None => Ok (if decide (raw = "~") then home else components raw)
  end.

Definition default_manifest_path : result string fpath :=
  let? home := home_dir in Ok (join_path home ".config/agent-bus/cloud-tokens.manifest.json").

Definition default_example_path (repo_hint : option fpath) : fpath :=
  match repo_hint with
  | Some root => join_path root "config/cloud-tokens.manifest.example.json"
  | None => components "config/cloud-tokens.manifest.example.json"
  end.

Definition token_sha256 (token : string) : string := hex_bytes (sha256 token).
Definition sha256_hex16 (data : string) : string := hex_bytes (take 8 (sha256 data)).

(** The reserved names of Windows are left out. *)
Fixpoint strip_dots (rev : string) : string :=
  match rev with
  | String a t => if bool_decide (a = "."%char ∨ a = " "%char) then strip_dots t else rev
  | "" => ""
  end.

Definition validate_secret_path (p : fpath) : result string unit :=
  let? leaf := ok_or "secret path has no filename" (file_name p) in
  let base := to_ascii_uppercase
                (from_option (λ b, b) "" (hd_error (split_char "." (str_rev (strip_dots (str_rev leaf)))))) in
  if decide (base = "$NULL") then Err "literal null-sink filenames are refused" else Ok tt.

Definition create_private_file (e : string) (p : fpath) : cmd unit :=
  let@ _ := lift (validate_secret_path p) in io_or e (ask (CreateNew p)).

Definition create_parent (e : string) (p : fpath) : cmd unit :=
  match parent p with Some dir => io_or e (ask (CreateDirAll dir)) | None => okay tt end.

(** The part of [write_secret_file] after which the staging file is published. *)
Definition fill_and_publish (tmp p : fpath) (contents : string) : cmd unit :=
  let@ _ := io_or "write" (ask (WriteAll tmp contents)) in
  let@ _ := (if ends_with contents (String newline "") then okay tt
             else io_or "write" (ask (WriteAll tmp (String newline "")))) in
  let@ _ := io_or "sync" (ask (SyncAll tmp)) in
  io_or "publish private secret file" (ask (Rename tmp p)).

Definition write_secret_file (p : fpath) (contents : string) : cmd unit :=
  let@ _ := lift (validate_secret_path p) in
  let@ _ := create_parent "mkdir" p in
  let& id := ask NewUuid in
  let tmp := with_file_name p (".cloud-secret-" +:+ id +:+ ".tmp") in
  let@ _ := context "create private staging file" (create_private_file "" tmp) in
  let& outcome := fill_and_publish tmp p contents in
  match outcome with
  | Ok _ => okay tt
  | Err e =>
      let& there := ask (Exists tmp) in
      let@ _ := (if there : bool
                 then io_or "remove failed private staging file" (ask (RemoveFile tmp)) else okay tt) in
      bail e
  end.

Definition load_manifest (manifest : fpath) : cmd Manifest :=
  let@ raw := read_to_string "read" manifest in
  lift (ok_or "parse manifest" (manifest_of_text raw)).

Definition ensure_manifest (manifest example : fpath) : cmd Manifest :=
  let& there := ask (IsFile manifest) in
  let@ _ := (if there : bool then okay tt
             else
               let& known := ask (IsFile example) in
               if negb known then bail "missing manifest"
               else
                 let@ _ := create_parent "mkdir" manifest in
                 io_or "copy example manifest" (ask (CopyFile example manifest))) in
  load_manifest manifest.

Definition action_manifest (manifest example : fpath) (dry_run : bool) : cmd Manifest :=
  if dry_run
  then let& there := ask (IsFile manifest) in
       if there : bool then ensure_manifest manifest example else load_manifest example
  else ensure_manifest manifest example.

(** The lock file's path. *)
Definition lock_path (store : fpath) : fpath := with_file_name store ".cloud-token-operations.lock".

Definition lock_token_map (store : fpath) : cmd unit :=
  let@ _ := lift (validate_secret_path store) in
  let@ _ := create_parent "mkdir" store in
  let@ _ := lift (validate_secret_path (lock_path store)) in
  let& created := ask (CreateNew (lock_path store)) in
  let@ _ := (match created with
             | Ok _ => okay tt
             | Err IoAlreadyExists =>
                 let@ symlink := io_or "metadata" (ask (IsSymlink (lock_path store))) in
                 if symlink : bool then bail "token lock must not be a symlink"
                 else io_or "open" (ask (OpenExisting (lock_path store)))
             | Err _ => bail "create"
             end) in
  let& held := ask (TryLock (lock_path store)) in
  if held : bool then okay tt else bail "another cloud-token operation holds the map lock".

(** The lock lives to the end of the action. *)
Definition locked {A} (dry_run : bool) (store : fpath) (body : cmd A) : cmd A :=
  if dry_run then body
  else
    let@ _ := lock_token_map store in
    let& r := body in
    let& _ := ask (Unlock (lock_path store)) in
    Done r.

(** ** Token maps *)

Definition onsite_hub_token_fp : cmd (option string) :=
  let@ home := lift home_dir in
  let cfg := join_path home ".config/agent-bus/config.json" in
  let& there := ask (IsFile cfg) in
  if negb there then okay None
  else
    let@ raw := read_to_string "read" cfg in
    let@ v := lift (ok_or "parse on-site config.json" (value_of_text raw)) in
    match vget v "auth_token" ≫= as_str with
    | None => okay None
    | Some tok => okay (if is_empty tok then None else Some (sha256_hex16 tok))
    end.

Definition new_token_hex (bytes : nat) : cmd string :=
  let@ buf := some_or "OS token entropy unavailable" (ask (Entropy bytes)) in okay (hex_bytes buf).

Definition assert_no_onsite_reuse (m : fields) (onsite : option string) : result string unit :=
  match onsite with
  | None => Ok tt
  | Some ofp =>
      if existsb (λ kv, bool_decide (sha256_hex16 kv.1 = ofp)) m
      then Err "refusing token map: cloud token fingerprint matches on-site hub auth_token" else Ok tt
  end.

Definition known_role (role : string) : bool := bool_decide (role ∈ ["agent"; "hub"; "operator"]).

Definition validate_entry (kv : string * json) : result string unit :=
  if (str_len kv.1 <? 32)%Z || has_whitespace kv.1 then Err "invalid token-map key"
  else
    let? meta := ok_or "invalid token metadata" (meta_of_value kv.2) in
    if is_empty (tm_agent meta) || negb (known_role (tm_role meta))
       || (bool_decide (tm_role meta = "hub") && from_option is_empty true (tm_hub meta))
    then Err "invalid token identity binding" else Ok tt.

Definition validate_token_map (m : fields) : result string unit :=
  match m with
  | [] => Err "operational token map must not be empty; revocation is a separate operation"
  | _ => foldl (λ r kv, let? _ := r in validate_entry kv) (Ok tt) m
  end.

(** [serde_json::from_str::<BTreeMap<String, Value>>]. *)
Definition map_of_text (raw : string) : option fields := value_of_text raw ≫= as_object.

Definition read_token_map (p : fpath) : cmd fields :=
  let@ raw := read_to_string "read token map" p in
  let@ m := lift (ok_or "parse token map object" (map_of_text raw)) in
  let@ _ := lift (validate_token_map m) in
  okay m.

Definition recovered_token_map (item : json) : result string fields :=
  let? notes := ok_or "existing recovery item has no notes" (vget item "notes" ≫= as_str) in
  let? recovered := ok_or "parse recovered token map" (map_of_text notes) in
  let? _ := validate_token_map recovered in
  Ok recovered.

(** Whether every entry of [old] is one of [new]. *)
Definition keeps_entries (old new : fields) : bool :=
  forallb (λ kv, bool_decide (get new kv.1 = Some kv.2)) old.

Definition require_recovery_entries_preserved (existing : json) (candidate : fields) : result string unit :=
  let? recovered := recovered_token_map existing in
  if keeps_entries recovered candidate then Ok tt
  else Err "candidate map omits or changes an existing recovery entry; update refused".

Definition identity_matches (m : TokenMeta) (role agent : string) (host hub : option string) : bool :=
  bool_decide (tm_role m = role) && bool_decide (tm_agent m = agent)
  && bool_decide (tm_host m = host) && bool_decide (tm_hub m = hub).

Definition identifies (i : Identity) (v : json) : bool :=
  match meta_of_value v with
  | Some m => identity_matches m (it_role i) (it_agent i) (it_host i) (it_hub i)
  | None => false
  end.

(** ** Where the files are *)

(** The loop over the components of an absolute path. *)
Fixpoint resolve_components (cs : list string) (resolved : fpath) : cmd fpath :=
  match cs with
  | [] => okay resolved
  | c :: cs =>
      if decide (c = ".") then resolve_components cs resolved
      else if decide (c = "..")
      then resolve_components cs (from_option (λ p, p) resolved (parent resolved))
      else
        let resolved := mkPath (fp_root resolved) (fp_comps resolved ++ [c]) in
        let& there := ask (Canonicalize resolved) in
        match there with
        | Ok canonical => resolve_components cs canonical
        | Err IoNotFound => resolve_components cs resolved
        | Err _ => bail "resolve storage path"
        end
  end.

Definition resolved_storage_path (p : fpath) : cmd fpath :=
  let@ absolute :=
    lift (if fp_root p then Ok p
          else let? dir := ok_or "current directory" (oe_current_dir op) in Ok (push dir p)) in
  let& root := ask (Canonicalize (mkPath true [])) in
  match root with
  | Ok root => resolve_components (fp_comps absolute) root
  | Err IoNotFound => resolve_components (fp_comps absolute) (mkPath true [])
  | Err _ => bail "resolve storage path"
  end.

Definition pending_client_path (client : fpath) : result string fpath :=
  let? _ := validate_secret_path client in
  let? leaf := ok_or "client path has no filename" (file_name client) in
  let pending := with_file_name client (leaf +:+ ".pending") in
  let? _ := validate_secret_path pending in
  Ok pending.

Definition validate_storage_paths (s : Storage) : cmd unit :=
  let@ map := lift (expand_path (so_tokens_map_path s)) in
  let@ client := lift (expand_path (so_client_token_path s)) in
  let@ _ := lift (validate_secret_path map) in
  let@ _ := lift (validate_secret_path client) in
  let@ pending := lift (pending_client_path client) in
  let@ map_resolved := resolved_storage_path map in
  let@ client_resolved := resolved_storage_path client in
  let@ pending_resolved := resolved_storage_path pending in
  if bool_decide (map_resolved = client_resolved) || bool_decide (map_resolved = pending_resolved)
     || bool_decide (client_resolved = pending_resolved)
  then bail "token map and client credential paths must be distinct" else okay tt.

Definition backup_map (directory : fpath) (m : fields) (dry_run : bool) : cmd unit :=
  if dry_run then okay tt
  else
    let& id := ask NewUuid in
    write_secret_file (join_path directory ("cloud-tokens-" +:+ id +:+ ".json")) (value_pretty (JObj m)).

(** ** Minting and rotating *)

Definition onsite_fresh (onsite : option string) (tok : string) : bool :=
  match onsite with Some ofp => negb (bool_decide (sha256_hex16 tok = ofp)) | None => true end.

(** The loop for a token that is new. *)
Fixpoint unique_token (tries : nat) (m : fields) (onsite : option string) (tok : string) : cmd string :=
  match tries with
  | O => okay tok
  | S tries =>
      if negb (contains_key m tok) && onsite_fresh onsite tok then okay tok
      else let@ tok := new_token_hex 32 in unique_token tries m onsite tok
  end.

Definition is_selected (s : Storage) (i : Identity) : bool :=
  bool_decide (it_role i = so_client_token_role s) && bool_decide (it_agent i = so_client_token_agent s)
  && bool_decide (it_host i = so_client_token_host s).

Definition bad_identity (i : Identity) : option string :=
  if is_empty (it_agent i) || negb (known_role (it_role i)) then Some "bad role"
  else if bool_decide (it_role i = "hub") && is_empty (from_option (λ h, h) "" (it_hub i))
  then Some "hub identity requires hub field" else None.

(** One identity of the roster: the map with its token, and the token of a rotation. *)
Definition mint_identity (s : Storage) (onsite : option string) (rotate : bool)
    (acc : fields * option string) (i : Identity) : cmd (fields * option string) :=
  let '(m, rotated) := acc in
  match bad_identity i with
  | Some e => bail e
  | None =>
      let selected := is_selected s i in
      if existsb (λ kv, identifies i kv.2) m && negb (rotate && selected) then okay acc
      else
        let@ tok := new_token_hex 32 in
        let@ tok := unique_token 8 m onsite tok in
        if contains_key m tok then bail "could not generate a unique token"
        else if rotate && selected && bool_decide (rotated ≠ None)
        then bail "multiple selected client identities"
        else okay (insert tok (meta_value (mkTokenMeta (it_agent i) (it_role i) (it_host i) (it_hub i))) m,
                   if rotate && selected then Some tok else rotated)
  end.

Definition cmd_mint_mode (manifest example : fpath) (dry_run rotate : bool) : cmd unit :=
  let@ m := action_manifest manifest example dry_run in
  let s := mf_storage m in
  let@ _ := validate_storage_paths s in
  let@ store := lift (expand_path (so_tokens_map_path s)) in
  locked dry_run store
    (let@ backup_dir := lift (expand_path (al_backup_dir (mf_anti_lockout m))) in
     let@ onsite := onsite_hub_token_fp in
     let& there := ask (IsFile store) in
     let@ original := (if there : bool then read_token_map store else okay []) in
     let@ minted := each (mint_identity s onsite rotate) (mf_identities m) (original, None) in
     let '(map, rotated_client) := minted in
     let@ _ := lift (assert_no_onsite_reuse map onsite) in
     if rotate && bool_decide (rotated_client = None)
     then bail "rotation identity is absent from the manifest roster"
     else
       let& there := ask (IsFile store) in
       let@ _ := (if there && al_keep_previous_map_backup (mf_anti_lockout m)
                  then backup_map backup_dir original dry_run else okay tt) in
       let body := value_pretty (JObj map) +:+ String newline "" in
       if dry_run then okay tt
       else
         let@ _ := write_secret_file store body in
         match rotated_client with
         | None => okay tt
         | Some token =>
             let@ client := lift (expand_path (so_client_token_path s)) in
             let@ pending := lift (pending_client_path client) in
             write_secret_file pending token
         end).

Definition cmd_init_manifest (manifest example : fpath) : cmd unit :=
  let@ _ := ensure_manifest manifest example in okay tt.

Definition cmd_mint (manifest example : fpath) (dry_run : bool) : cmd unit :=
  cmd_mint_mode manifest example dry_run false.

(** ** The client's credential *)

(** Reading a file that may be missing. *)
Definition read_optional (e : string) (p : fpath) : cmd (option string) :=
  let& r := ask (ReadFile p) in
  match r with
  | Ok s => if utf8 s then okay (Some s) else bail e
  | Err IoNotFound => okay None
  | Err _ => bail e
  end.

Definition selects (s : Storage) (m : TokenMeta) : bool :=
  bool_decide (tm_role m = so_client_token_role s) && bool_decide (tm_agent m = so_client_token_agent s)
  && bool_decide (tm_host m = so_client_token_host s).

Definition selected_entry (s : Storage) (v : json) : bool :=
  match meta_of_value v with Some m => selects s m | None => false end.

(** The token the client file gets. *)
Definition choose_client (s : Storage) (m : fields) (current : option string) : result string string :=
  if negb (forallb (λ kv, bool_decide (is_Some (meta_of_value kv.2))) m) then Err "invalid token metadata"
  else
    let matches := map fst (List.filter (λ kv, selected_entry s kv.2) m) in
    match List.find (λ tok, bool_decide (current = Some tok)) matches, matches with
    | Some tok, _ => Ok tok
    | None, [tok] => Ok tok
    | None, _ :: _ :: _ =>
        Err "multiple client tokens match; restore the existing client file or use rotate"
    | None, [] => Err "no token for the client"
    end.

Definition cmd_write_client (manifest example : fpath) (dry_run : bool) : cmd unit :=
  let@ m := action_manifest manifest example dry_run in
  let s := mf_storage m in
  let@ _ := validate_storage_paths s in
  let@ store := lift (expand_path (so_tokens_map_path s)) in
  locked dry_run store
    (let@ client := lift (expand_path (so_client_token_path s)) in
     let@ map := read_token_map store in
     let@ onsite := onsite_hub_token_fp in
     let@ _ := lift (assert_no_onsite_reuse map onsite) in
     let@ current := read_optional "read existing client credential" client in
     let@ tok := lift (choose_client s map (trim <$> current)) in
     if dry_run then okay tt else write_secret_file client tok).

(** Only the checks of what it shows. *)
Definition cmd_status (manifest example : fpath) : cmd unit :=
  let@ m := ensure_manifest manifest example in
  let@ store := lift (expand_path (so_tokens_map_path (mf_storage m))) in
  let@ client := lift (expand_path (so_client_token_path (mf_storage m))) in
  let& _ := ask (IsFile store) in
  let& _ := ask (IsFile client) in
  let@ _ := onsite_hub_token_fp in
  let& there := ask (IsFile store) in
  if negb there then okay tt
  else
    let@ map := read_token_map store in
    if forallb (λ kv, bool_decide (is_Some (vget kv.2 "role" ≫= as_str))) map then okay tt
    else bail "missing token role".

Definition cmd_wrangler_hint (manifest example : fpath) : cmd unit :=
  let@ m := ensure_manifest manifest example in
  let@ store := lift (expand_path (so_tokens_map_path (mf_storage m))) in
  let& there := ask (IsFile store) in
  if there : bool then okay tt else bail "missing token map".

(** ** Requests to the cloud

    A client that cannot be built, and a deadline that passes, are requests without an
    answer. *)

Definition is_success (a : http_answer) : bool := (200 <=? ha_status a)%Z && (ha_status a <=? 299)%Z.

Fixpoint whole_body (chunks : list (option string)) : option string :=
  match chunks with
  | [] => Some ""
  | Some c :: chunks => rest ← whole_body chunks; Some (c +:+ rest)
  | None :: _ => None
  end.

Definition smoke_http (base token : string) : cmd unit :=
  let base := trim_end_matches "/" base in
  let@ health := some_or "GET /health" (ask (HttpGet (base +:+ "/health") None)) in
  if negb (is_success health) then bail "unexpected health status"
  else
    let@ v := lift (ok_or "health json" (whole_body (ha_chunks health) ≫= value_of_text)) in
    if negb (bool_decide (vget v "ok" ≫= as_bool = Some true)) then bail "health did not report ok=true"
    else
      let@ presence := some_or "GET /presence" (ask (HttpGet (base +:+ "/presence") (Some token))) in
      if is_success presence then okay tt else bail "unexpected presence status".

Definition smoke_url_ok (u : Url) : bool :=
  is_empty (username u) && bool_decide (password u = None) && bool_decide (HubTypes.query u = None)
  && bool_decide (fragment u = None)
  && (bool_decide (scheme u = "https")
      || (bool_decide (scheme u = "http")
          && bool_decide (host u ∈ [Some (Domain "localhost"); Some (Ipv4 2130706433); Some (Ipv6 1)]))).

Definition authenticated_smoke (base token : string) : cmd unit :=
  let@ u := lift (ok_or "invalid cloud URL" (url_parse base)) in
  if negb (smoke_url_ok u)
  then bail "cloud URL requires HTTPS (HTTP allowed only for local fixtures), without credentials/query/fragment"
  else smoke_http base token.

Definition cmd_smoke (manifest example : fpath) : cmd unit :=
  let@ m := ensure_manifest manifest example in
  let@ client := lift (expand_path (so_client_token_path (mf_storage m))) in
  let@ token := read_to_string "authenticated smoke requires a readable client token file" client in
  let token := trim token in
  if (str_len token <? 32)%Z || has_whitespace token then bail "invalid client token"
  else authenticated_smoke (mf_cloud_base_url m) token.

(** ** The recovery copy *)

Definition require_unlocked_bw : cmd unit :=
  let@ raw := some_or "bw" (ask (Invoke "bw" ["status"] None None)) in
  let@ status := lift (ok_or "parse Bitwarden status" (value_of_text raw)) in
  if bool_decide (vget status "status" ≫= as_str = Some "unlocked") then okay tt
  else bail "unlock Bitwarden before recovery or upload".

Definition get_item (name : string) : cmd json :=
  let@ raw := some_or "bw" (ask (Invoke "bw" ["get"; "item"; name] None None)) in
  lift (ok_or "parse Bitwarden recovery item" (value_of_text raw)).

Definition verify_recovery (m : Manifest) (map : fields) : cmd unit :=
  let@ _ := require_unlocked_bw in
  let@ item := get_item (mf_item_name m) in
  let@ recovered := lift (recovered_token_map item) in
  if decide (recovered = map) then okay tt
  else bail "Bitwarden recovery differs from the local map; upload refused".

Definition cmd_activate (manifest example : fpath) (dry_run : bool) : cmd unit :=
  let@ m := action_manifest manifest example dry_run in
  let s := mf_storage m in
  let@ _ := validate_storage_paths s in
  let@ store := lift (expand_path (so_tokens_map_path s)) in
  let@ client := lift (expand_path (so_client_token_path s)) in
  let@ pending := lift (pending_client_path client) in
  locked dry_run store
    (let@ map := read_token_map store in
     let@ onsite := onsite_hub_token_fp in
     let@ _ := lift (assert_no_onsite_reuse map onsite) in
     let@ raw := read_to_string "read staged client credential" pending in
     let token := trim raw in
     let@ value := lift (ok_or "staged credential is absent from the map" (get map token)) in
     let@ meta := lift (ok_or "invalid staged credential metadata" (meta_of_value value)) in
     if negb (selects s meta) then bail "staged credential does not match the selected client identity"
     else if dry_run then okay tt
     else
       let@ _ := verify_recovery m map in
       let@ _ := authenticated_smoke (mf_cloud_base_url m) token in
       let@ _ := write_secret_file client token in
       io_or "remove activated staging credential" (ask (RemoveFile pending))).

(** ** What is deployed *)

Fixpoint canonical_metadata (v : json) : json :=
  match v with
  | JObj o =>
      JObj (foldl (λ m kv, insert kv.1 kv.2 m) []
              (map (λ '(k, v), (k, canonical_metadata v)) o))
  | JArr l => JArr (map canonical_metadata l)
  | other => other
  end.

Definition token_map_sha256 (m : fields) : string :=
  hex_bytes (sha256 (value_text (canonical_metadata (JObj m)))).

Definition lower_hex_digit (a : ascii) : bool := is_digit a || byte_in 97 102 a.

Definition hash_text (h : string) : bool := (str_len h =? 64)%Z && str_all lower_hex_digit h.

Definition authority_baseline (m : Manifest) (candidate : fields) : cmd fields :=
  let@ evidence :=
    lift (ok_or "deployed-map authority UNKNOWN; upload refused; preserve the opaque deployed secret"
            (mf_deployed_map_authority m)) in
  if negb (bool_decide (da_source_kind evidence = "independently-verified-stored-baseline"))
     || is_empty (trim (da_authority_reference evidence))
     || negb (hash_text (da_baseline_sha256 evidence) && hash_text (da_candidate_sha256 evidence))
  then bail "independently established stored-baseline evidence required; upload refused"
  else
    let@ _ := validate_storage_paths (mf_storage m) in
    let@ baseline := lift (expand_path (da_baseline_path evidence)) in
    let@ resolved := resolved_storage_path baseline in
    let@ map := lift (expand_path (so_tokens_map_path (mf_storage m))) in
    let@ client := lift (expand_path (so_client_token_path (mf_storage m))) in
    let@ pending := lift (pending_client_path client) in
    let@ _ := each (λ _ p,
        let@ r := resolved_storage_path p in
        if decide (resolved = r)
        then bail "authoritative baseline must be distinct from mutable toolkit files" else okay tt)
      [map; client; pending] tt in
    let@ recovered := read_token_map baseline in
    if negb (bool_decide (token_map_sha256 recovered = da_baseline_sha256 evidence))
       || negb (bool_decide (token_map_sha256 candidate = da_candidate_sha256 evidence))
    then bail "stored-baseline or candidate authority binding differs; upload refused"
    else okay recovered.

Definition require_deployment_authority (m : Manifest) (candidate : fields) : cmd unit :=
  let@ baseline := authority_baseline m candidate in
  if keeps_entries baseline candidate then okay tt
  else bail "candidate omits or changes an authoritative baseline entry; upload refused".

Definition default_worker (m : Manifest) : string :=
  from_option (λ w, w) "agentbus-cloud" (mf_worker_name m).

Definition valid_worker (w : string) : bool :=
  negb (is_empty w) && str_all (λ a, is_ascii_alphanumeric a || bool_decide (a = "-"%char ∨ a = "_"%char)) w.

Definition worker_dir (root : option fpath) : fpath :=
  join_path (from_option (λ p, p) (components ".") root) "cloud/agentbus".

(** The call that replaces the deployed secret. *)
Definition put_secret (worker : string) (body : string) (cwd : fpath) : call :=
  Invoke "wrangler" ["secret"; "put"; "AGENT_BUS_TOKENS"; "--name"; worker] (Some body) (Some cwd).

Definition cmd_upload (manifest example : fpath) (root : option fpath) (dry_run : bool) : cmd unit :=
  let@ m := action_manifest manifest example dry_run in
  if negb (al_require_bw_item_before_wrangler_put (mf_anti_lockout m))
  then bail "the recovery upload gate cannot be disabled"
  else
    let@ store := lift (expand_path (so_tokens_map_path (mf_storage m))) in
    locked dry_run store
      (let@ map := read_token_map store in
       let@ onsite := onsite_hub_token_fp in
       let@ _ := lift (assert_no_onsite_reuse map onsite) in
       let@ _ := require_deployment_authority m map in
       let@ _ := verify_recovery m map in
       if negb (valid_worker (default_worker m)) then bail "invalid Worker name"
       else
         let& there := ask (IsDir (worker_dir root)) in
         if negb there then bail "cloud Worker directory is missing"
         else if dry_run then okay tt
         else
           let@ _ := some_or "wrangler"
             (ask (put_secret (default_worker m) (value_text (JObj map)) (worker_dir root))) in
           okay tt).

(** [item[key] = value] of an object. *)
Definition set_key (key : string) (v item : json) : json :=
  match item with JObj o => JObj (insert key v o) | other => other end.

Definition encoded_item (item : json) : string := base64_text (value_text item).

Definition cmd_bw_upsert (manifest example : fpath) (dry_run : bool) : cmd unit :=
  let@ m := action_manifest manifest example dry_run in
  let@ store := lift (expand_path (so_tokens_map_path (mf_storage m))) in
  locked dry_run store
    (let@ map := read_token_map store in
     let@ onsite := onsite_hub_token_fp in
     let@ _ := lift (assert_no_onsite_reuse map onsite) in
     if dry_run then okay tt
     else
       let name := mf_item_name m in
       let@ _ := require_unlocked_bw in
       let@ raw := some_or "bw" (ask (Invoke "bw" ["list"; "items"; "--search"; name] None None)) in
       let@ items := lift (ok_or "parse Bitwarden item search" (value_of_text raw ≫= as_array)) in
       let matches := List.filter (λ i, bool_decide (vget i "name" ≫= as_str = Some name)) items in
       if (1 <? length matches)%nat
       then bail "multiple exact Bitwarden recovery items; resolve duplicates before updating"
       else
         let existing := hd_error matches in
         let@ _ := lift (match existing with
                         | Some item => require_recovery_entries_preserved item map
                         | None => Ok tt
                         end) in
         let id := existing ≫= λ item, vget item "id" ≫= as_str in
         if bool_decide (existing ≠ None) && from_option is_empty true id
         then bail "existing Bitwarden recovery item has no id"
         else
           let@ item :=
             (match existing with
              | Some item => okay item
              | None =>
                  let@ raw := some_or "bw" (ask (Invoke "bw" ["get"; "template"; "item"] None None)) in
                  lift (ok_or "parse Bitwarden secure-note template" (value_of_text raw))
              end) in
           if negb (is_object item) then bail "invalid Bitwarden item object"
           else
             let item := set_key "type" (jint 2) item in
             let item := set_key "name" (JStr name) item in
             let item := set_key "secureNote" (obj [("type", jint 0)]) item in
             let item := set_key "notes" (JStr (value_text (JObj map))) item in
             let@ _ := some_or "bw"
               (ask (Invoke "bw" (match id with
                                  | Some id => ["edit"; "item"; id]
                                  | None => ["create"; "item"]
                                  end) (Some (encoded_item item)) None)) in
             verify_recovery m map).

(** ** Revocation *)

Definition read_cutover_receipt (selection : RetiredToken) : cmd CutoverReceipt :=
  let@ p := lift (expand_path (rt_cutover_receipt_path selection)) in
  let@ _ := lift (validate_secret_path p) in
  let@ bytes := read_bytes "read cutover evidence" p in
  if negb (bool_decide (hex_bytes (sha256 bytes) = rt_cutover_receipt_sha256 selection))
  then bail "cutover evidence changed; revocation refused"
  else lift (ok_or "parse cutover evidence" (receipt_of_text bytes)).

(** The first entry whose token has a hash. *)
Definition entry_of_hash (hash : string) (m : fields) : option (string * json) :=
  List.find (λ kv, bool_decide (token_sha256 kv.1 = hash)) m.

(** The receipt speaks for this selection, and names a replacement of the same identity. *)
Definition receipt_binds (m : Manifest) (baseline_sha256 : string) (i : Identity) (selection : RetiredToken)
    (token : string) (proof : CutoverReceipt) (replacement : string * json) (meta : TokenMeta) : bool :=
  bool_decide (cr_identity_id proof = rt_identity_id selection)
  && bool_decide (cr_retired_token_sha256 proof = rt_token_sha256 selection)
  && bool_decide (cr_baseline_sha256 proof = baseline_sha256)
  && bool_decide (cr_cloud_base_url proof = mf_cloud_base_url m)
  && cr_replacement_authenticated proof && cr_retired_client_disconnected proof
  && negb (is_empty (trim (cr_evidence_reference proof)))
  && negb (bool_decide (replacement.1 = token))
  && identity_matches meta (it_role i) (it_agent i) (it_host i) (it_hub i).

(** One selection of the first loop: the candidate and the hashes seen. *)
Definition retire_one (m : Manifest) (baseline : fields) (active_client : string)
    (receipt : RetiredToken → cmd CutoverReceipt) (acc : fields * list string) (selection : RetiredToken)
    : cmd (fields * list string) :=
  let '(candidate, selected) := acc in
  if bool_decide (rt_token_sha256 selection ∈ selected) then bail "duplicate retired-token selection"
  else
    match List.filter (λ i, bool_decide (it_id i = rt_identity_id selection)) (mf_identities m) with
    | [ident] =>
        let@ entry := lift (ok_or "selected retired token is not in the baseline"
                              (entry_of_hash (rt_token_sha256 selection) baseline)) in
        let '(token, value) := entry in
        if decide (token = active_client) then bail "current active client token cannot be revoked"
        else
          let@ meta := lift (ok_or "metadata" (meta_of_value value)) in
          if negb (identity_matches meta (it_role ident) (it_agent ident) (it_host ident)
                     (it_hub ident))
          then bail "retired token does not match its named identity"
          else
            let@ proof := receipt selection in
            let@ replacement := lift (ok_or "cutover replacement is not in the authoritative baseline"
                                        (entry_of_hash (cr_replacement_token_sha256 proof) baseline)) in
            let@ replacement_meta := lift (ok_or "metadata" (meta_of_value replacement.2)) in
            if negb (receipt_binds m (token_map_sha256 baseline) ident selection token proof
                       replacement replacement_meta)
            then bail "cutover evidence is incomplete or has a different binding"
            else okay (map_remove token candidate, rt_token_sha256 selection :: selected)
    | _ => bail "retired identity must identify exactly one manifest identity"
    end.

Definition has_role (role : string) (m : fields) : bool :=
  existsb (λ kv, bool_decide (vget kv.2 "role" ≫= as_str = Some role)) m.

(** One selection of the last loop. *)
Definition survives (receipt : RetiredToken → cmd CutoverReceipt) (candidate : fields) (_ : unit)
    (selection : RetiredToken) : cmd unit :=
  let@ proof := receipt selection in
  if bool_decide (is_Some (entry_of_hash (cr_replacement_token_sha256 proof) candidate)) then okay tt
  else bail "cutover replacement must survive the complete selection".

Definition revocation_candidate (m : Manifest) (baseline : fields) (active_client : string)
    (receipt : RetiredToken → cmd CutoverReceipt) : cmd fields :=
  let@ _ := lift (validate_token_map baseline) in
  let@ revocation := lift (ok_or "missing explicit revocation selection" (mf_revocation m)) in
  if bool_decide (rv_retired revocation = []) || negb (contains_key baseline active_client)
  then bail "empty selection or active client is not in the baseline"
  else
    let@ retired := each (retire_one m baseline active_client receipt) (rv_retired revocation)
                      (baseline, []) in
    let candidate := retired.1 in
    let@ _ := lift (validate_token_map candidate) in
    if negb (has_role "operator" candidate && has_role "hub" candidate)
    then bail "revocation would leave no operator or hub token"
    else
      let@ _ := each (survives receipt candidate) (rv_retired revocation) tt in
      okay candidate.

Definition require_revocation_shape (m : Manifest) (baseline candidate : fields) (active_client : string)
    (receipt : RetiredToken → cmd CutoverReceipt) : cmd unit :=
  let@ expected := revocation_candidate m baseline active_client receipt in
  if decide (expected = candidate) then okay tt
  else bail "revocation candidate must be exactly baseline minus the selected retired tokens".

Definition require_revocation_authority (m : Manifest) (candidate : fields) (active_client : string)
    : cmd fields :=
  let@ baseline := authority_baseline m candidate in
  let@ _ := require_revocation_shape m baseline candidate active_client read_cutover_receipt in
  okay baseline.

(** [(expires - now).num_seconds()]. *)
Definition num_seconds (expires now : Z) : Z := Z.quot (expires - now) NANOS.

Definition lease_covers (m : Manifest) (lease : RevocationLease) (expires now remaining_seconds : Z) : bool :=
  bool_decide (le_status lease = "GRANTED") && negb (is_empty (trim (le_owner lease)))
  && negb (is_empty (trim (le_evidence_reference lease)))
  && bool_decide (le_resource lease = "cloudflare-worker:" +:+ default_worker m +:+ ":AGENT_BUS_TOKENS")
  && (remaining_seconds <=? num_seconds expires now)%Z.

Definition require_revocation_lease (m : Manifest) (remaining_seconds : Z) : cmd unit :=
  let@ revocation := lift (ok_or "missing revocation selection" (mf_revocation m)) in
  let@ p := lift (expand_path (rv_exclusive_lease_path revocation)) in
  let@ _ := lift (validate_secret_path p) in
  let@ bytes := read_bytes "read exclusive mutation lease" p in
  if negb (bool_decide (hex_bytes (sha256 bytes) = rv_exclusive_lease_sha256 revocation))
  then bail "exclusive mutation lease changed"
  else
    let@ lease := lift (ok_or "parse exclusive mutation lease" (lease_of_text bytes)) in
    let@ expires := lift (ok_or "invalid mutation lease expiry" (parse_rfc3339 (le_expires_at_utc lease))) in
    let& now := ask Now in
    if lease_covers m lease expires now remaining_seconds then okay tt
    else bail "exclusive mutation lease is missing or has insufficient remaining time".

(** ** Reading back what production has *)

Definition validate_live_token_manifest (value : json) (raw_sha256 : string) (count : nat)
    : result string unit :=
  if bool_decide (vget value "representation" ≫= as_str = Some "utf8-secret-binding-v1")
     && bool_decide (vget value "sha256" ≫= as_str = Some raw_sha256)
     && bool_decide (vget value "entry_count" ≫= as_u64 = Some (Z.of_nat count))
  then Ok tt else Err "live production token manifest differs; mutation/readback not verified".

Definition MANIFEST_BODY_LIMIT : Z := 65536.

Definition checked_manifest_content_length (length : option Z) : result string unit :=
  match length with
  | Some n => if (MANIFEST_BODY_LIMIT <? n)%Z
              then Err "production manifest response exceeds the bounded body limit" else Ok tt
  | None => Ok tt
  end.

Definition checked_manifest_body_size (current additional : Z) : result string Z :=
  if (current + additional <=? MANIFEST_BODY_LIMIT)%Z then Ok (current + additional)%Z
  else Err "production manifest response exceeds the bounded body limit".

Fixpoint read_chunks (chunks : list (option string)) (bytes : string) : result string string :=
  match chunks with
  | [] => Ok bytes
  | None :: _ => Err "read production manifest body"
  | Some chunk :: chunks =>
      let? _ := checked_manifest_body_size (str_len bytes) (str_len chunk) in
      read_chunks chunks (bytes +:+ chunk)
  end.

Definition read_live_token_manifest (a : http_answer) : result string json :=
  let? _ := checked_manifest_content_length (ha_length a) in
  let? bytes := read_chunks (ha_chunks a) "" in
  ok_or "parse production manifest" (value_of_text bytes).

Record LiveRevocationReadback := mkReadback {
  lr_base : string;
  lr_operator : string;
  lr_replacements : list string;
  lr_retired : list string;
  lr_expected_hash : string;
  lr_count : nat;
  lr_phase : RevocationPhase;
}.

(** A request for [presence] with this token, whose answer must satisfy [want]. *)
Definition present (base lost refused : string) (want : http_answer → bool) (_ : unit) (token : string)
    : cmd unit :=
  let@ response := some_or lost (ask (HttpGet (base +:+ "/presence") (Some token))) in
  if want response then okay tt else bail refused.

Definition live_revocation_requests (r : LiveRevocationReadback) : cmd unit :=
  let@ _ := each (present (lr_base r) "replacement authentication transport failed"
                    "replacement is not currently authenticated" is_success) (lr_replacements r) tt in
  let@ _ := (if decide (lr_phase r = AfterUpload)
             then each (present (lr_base r) "retired credential readback transport failed"
                          "retired credential rejection is not verified"
                          (λ a, (ha_status a =? 401)%Z)) (lr_retired r) tt
             else okay tt) in
  let@ response := some_or "production manifest transport failed"
                     (ask (HttpGet (lr_base r +:+ "/admin/tokens/manifest") (Some (lr_operator r)))) in
  if negb (is_success response) then bail "operator manifest readback denied"
  else
    let@ value := lift (read_live_token_manifest response) in
    lift (validate_live_token_manifest value (lr_expected_hash r) (lr_count r)).

Definition revocation_url_ok (u : Url) : bool :=
  is_empty (username u) && bool_decide (password u = None) && bool_decide (HubTypes.query u = None)
  && bool_decide (fragment u = None) && bool_decide (scheme u = "https").

(** One selection: its replacement in the candidate and its token in the baseline. *)
Definition readback_pair (baseline candidate : fields) (acc : list string * list string)
    (selection : RetiredToken) : cmd (list string * list string) :=
  let@ proof := read_cutover_receipt selection in
  let@ replacement := lift (ok_or "replacement must survive"
                              (entry_of_hash (cr_replacement_token_sha256 proof) candidate)) in
  let@ retired := lift (ok_or "retired baseline entry missing"
                          (entry_of_hash (rt_token_sha256 selection) baseline)) in
  okay (acc.1 ++ [replacement.1], acc.2 ++ [retired.1]).

Definition verify_live_revocation (m : Manifest) (baseline candidate : fields) (phase : RevocationPhase)
    : cmd unit :=
  let@ base := lift (ok_or "invalid cloud URL" (url_parse (mf_cloud_base_url m))) in
  if negb (revocation_url_ok base) then bail "live revocation requires a credential-free HTTPS cloud URL"
  else
    let@ authority := lift (ok_or "authority missing" (mf_deployed_map_authority m)) in
    let@ bytes :=
      (if decide (phase = BeforeUpload)
       then
         let@ p := lift (expand_path (da_baseline_path authority)) in
         let@ bytes := read_bytes "read" p in
         let@ captured := lift (ok_or "parse production proof baseline" (map_of_text bytes)) in
         if decide (captured = baseline) then okay bytes else bail "production proof baseline changed"
       else okay (value_text (JObj candidate))) in
    let count := if decide (phase = BeforeUpload) then length baseline else length candidate in
    let@ operator :=
      lift (ok_or "no surviving operator for manifest readback"
              (List.find (λ kv, bool_decide (vget kv.2 "role" ≫= as_str = Some "operator")) candidate)) in
    let@ revocation := lift (ok_or "missing revocation" (mf_revocation m)) in
    let@ pairs := each (readback_pair baseline candidate) (rv_retired revocation) ([], []) in
    live_revocation_requests
      (mkReadback (trim_end_matches "/" (serialization base)) operator.1 pairs.1 pairs.2
         (hex_bytes (sha256 bytes)) count phase).

Definition rollback_path (backup_dir : fpath) (baseline : fields) : fpath :=
  join_path backup_dir ("revocation-baseline-" +:+ token_map_sha256 baseline +:+ ".json").

Definition preserve_revocation_rollback (m : Manifest) (baseline : fields) (store client : fpath) : cmd unit :=
  let@ backup_dir := lift (expand_path (al_backup_dir (mf_anti_lockout m))) in
  let@ _ := lift (validate_secret_path backup_dir) in
  let@ _ := io_or "mkdir" (ask (CreateDirAll backup_dir)) in
  let rollback := rollback_path backup_dir baseline in
  let@ authority := lift (ok_or "authority missing" (mf_deployed_map_authority m)) in
  let@ baseline_path := lift (expand_path (da_baseline_path authority)) in
  let@ baseline_bytes := read_bytes "read" baseline_path in
  let@ backup_map := lift (ok_or "parse rollback baseline" (map_of_text baseline_bytes)) in
  if negb (bool_decide (backup_map = baseline))
  then bail "authoritative baseline changed before rollback preservation"
  else
    let@ _ := each (λ _ protected,
        let@ a := resolved_storage_path rollback in
        let@ b := resolved_storage_path protected in
        if decide (a = b) then bail "rollback must be distinct from live files and authority baseline"
        else okay tt) [store; client; baseline_path] tt in
    let& there := ask (Exists rollback) in
    if there : bool
    then
      let@ _ := lift (validate_secret_path rollback) in
      let@ kept := read_bytes "read" rollback in
      if decide (kept = baseline_bytes) then okay tt else bail "rollback baseline collision"
    else
      let@ _ := create_private_file "create" rollback in
      let@ _ := io_or "write" (ask (WriteAll rollback baseline_bytes)) in
      io_or "sync" (ask (SyncAll rollback)).

(** The local map and the active client are what they were. *)
Definition local_unchanged (e : string) (store client : fpath) (baseline : fields) (active_client : string)
    : cmd unit :=
  let@ now := read_token_map store in
  if negb (bool_decide (now = baseline)) then bail e
  else
    let@ raw := read_to_string "read" client in
    if decide (trim raw = active_client) then okay tt else bail e.

(** The recovery copy is replaced by the candidate, between the checks. *)
Definition move_recovery (m : Manifest) (store client : fpath) (baseline candidate : fields) : cmd unit :=
  let@ _ := require_unlocked_bw in
  let@ item := get_item (mf_item_name m) in
  let@ recovered := lift (recovered_token_map item) in
  if negb (bool_decide (recovered = baseline)) then bail "recovery baseline differs; revocation refused"
  else
    let@ id := lift (ok_or "existing recovery item has no id" (vget item "id" ≫= as_str)) in
    if is_empty id then bail "existing recovery item has no id"
    else
      let@ _ := preserve_revocation_rollback m baseline store client in
      let item := set_key "notes" (JStr (value_text (JObj candidate))) item in
      let@ _ := require_revocation_lease m 150 in
      let@ _ := context "recovery mutation failed; inspect retained rollback before any retry"
        (some_or "bw" (ask (Invoke "bw" ["edit"; "item"; id] (Some (encoded_item item)) None))) in
      context "candidate recovery not verified; upload not attempted" (verify_recovery m candidate).

(** The part of a revocation under the lock. *)
Definition revoke_locked (m : Manifest) (store client cwd : fpath) (baseline candidate : fields)
    (active_client : string) : cmd unit :=
  let@ _ := local_unchanged "local baseline or active client changed before revocation" store client
              baseline active_client in
  let@ _ := move_recovery m store client baseline candidate in
  let@ _ := require_revocation_lease m 150 in
  let@ _ := verify_live_revocation m baseline candidate BeforeUpload in
  let@ _ := require_revocation_lease m 150 in
  let@ _ := local_unchanged
    "local baseline or active client changed before upload; recovery may contain candidate" store client
    baseline active_client in
  let@ _ := context "upload failed or ambiguous; recovery may contain candidate; do not retry blindly"
    (some_or "wrangler" (ask (put_secret (default_worker m) (value_text (JObj candidate)) cwd))) in
  let@ _ := context "upload returned success but lease no longer covers readback; reconcile before retry"
    (require_revocation_lease m 25) in
  let@ _ := context
    "upload returned success but production revocation readback failed; do not retry blindly"
    (verify_live_revocation m baseline candidate AfterUpload) in
  let@ _ := context "production readback returned but mutation lease expired before local publication"
    (require_revocation_lease m 1) in
  let@ _ := context
    "upload returned success but local map publication failed; reconcile before retry"
    (write_secret_file store (value_pretty (JObj candidate))) in
  context "local map was published but mutation lease expired; reconcile before retry"
    (require_revocation_lease m 1).

Definition cmd_revoke_with_onsite (manifest : fpath) (root : option fpath) (dry_run : bool)
    (onsite : cmd (option string)) : cmd unit :=
  let@ m := load_manifest manifest in
  let@ _ := validate_storage_paths (mf_storage m) in
  if negb (al_keep_previous_map_backup (mf_anti_lockout m))
     || negb (al_require_bw_item_before_wrangler_put (mf_anti_lockout m))
  then bail "revocation requires baseline backup and recovery gates"
  else
    let@ store := lift (expand_path (so_tokens_map_path (mf_storage m))) in
    let@ client := lift (expand_path (so_client_token_path (mf_storage m))) in
    let@ raw := read_to_string "read active client binding" client in
    let active_client := trim raw in
    let@ original := read_token_map store in
    let@ candidate := revocation_candidate m original active_client read_cutover_receipt in
    let@ baseline := require_revocation_authority m candidate active_client in
    if negb (bool_decide (original = baseline))
    then bail "local map must equal the authoritative baseline before revocation"
    else if negb (valid_worker (default_worker m)) then bail "invalid Worker name"
    else
      let& there := ask (IsDir (worker_dir root)) in
      if negb there then bail "cloud Worker directory is missing"
      else if dry_run then okay tt
      else
        let@ fp := onsite in
        let@ _ := lift (assert_no_onsite_reuse baseline fp) in
        let@ _ := require_revocation_lease m 150 in
        locked false store
          (revoke_locked m store client (worker_dir root) baseline candidate active_client).

Definition cmd_revoke (manifest : fpath) (root : option fpath) (dry_run : bool) : cmd unit :=
  cmd_revoke_with_onsite manifest root dry_run onsite_hub_token_fp.

(** ** The command *)

Definition run_cloud_tokens (action : CloudTokensAction) (manifest example : option fpath)
    (repo_root : option fpath) (dry_run : bool) : cmd unit :=
  let@ manifest_path := lift (match manifest with
                              | Some p => Ok p
                              | None => default_manifest_path
                              end) in
  let example_path := from_option (λ p, p) (default_example_path repo_root) example in
  if dry_run && match action with InitManifest | Status | Smoke | WranglerHint => true | _ => false end
  then let@ _ := action_manifest manifest_path example_path true in okay tt
  else
    match action with
    | InitManifest => cmd_init_manifest manifest_path example_path
    | Mint => cmd_mint manifest_path example_path dry_run
    | Rotate => cmd_mint_mode manifest_path example_path dry_run true
    | Activate => cmd_activate manifest_path example_path dry_run
    | WriteClient => cmd_write_client manifest_path example_path dry_run
    | Status => cmd_status manifest_path example_path
    | Smoke => cmd_smoke manifest_path example_path
    | WranglerHint => cmd_wrangler_hint manifest_path example_path
    | BwUpsert => cmd_bw_upsert manifest_path example_path dry_run
    | WranglerPut => cmd_upload manifest_path example_path repo_root dry_run
    | Revoke => cmd_revoke manifest_path repo_root dry_run
    end.
End tokens.
