(* ===== verification/CloudTokenFacts.v ===== *)
(** * CloudTokenFacts: what runs of the credential actions contain

    Bounds on the calls of each step of the actions, and what a run publishes: the files
    that were staged and renamed into place. *)

From Stdlib Require Import ZArith Lia Ascii.
From stdpp Require Import base option list strings.
From S2P Require Import Prelude Str Json Validation ClaimTypes Outbox HubTypes Redis StreamEntry Programs.
From S2P Require Import CloudTokens.

Section looking.
Context (op : operator_env) `{JournalCodec} `{Chrono} `{TokenText} `{UrlLib}.

Lemma calls_read e p : calls harmless (read_to_string e p).
Proof. unfold read_to_string. through. Qed.

Lemma calls_read_bytes e p : calls harmless (read_bytes e p).
Proof. unfold read_bytes. through. Qed.

Hint Resolve calls_read calls_read_bytes : tokens.

Lemma calls_load_manifest p : calls harmless (load_manifest p).
Proof. unfold load_manifest. through. Qed.

Lemma calls_onsite : calls harmless (onsite_hub_token_fp op).
Proof. unfold onsite_hub_token_fp. through. Qed.

Lemma calls_token_map p : calls harmless (read_token_map p).
Proof. unfold read_token_map. through. Qed.

Lemma calls_components cs : ∀ p, calls harmless (resolve_components cs p).
Proof.
  induction cs as [|c cs IH]; intros p; cbn [resolve_components]; [through|].
  through; apply IH.
Qed.

Hint Resolve calls_components calls_token_map : tokens.

Lemma calls_resolved p : calls harmless (resolved_storage_path op p).
Proof. unfold resolved_storage_path. through. Qed.

Hint Resolve calls_resolved : tokens.

Lemma calls_storage s : calls harmless (validate_storage_paths op s).
Proof. unfold validate_storage_paths. through. Qed.

Hint Resolve calls_storage : tokens.

Lemma calls_unlocked : calls harmless require_unlocked_bw.
Proof. unfold require_unlocked_bw. through. Qed.

Lemma calls_get_item name : calls harmless (get_item name).
Proof. unfold get_item. through. Qed.

Hint Resolve calls_unlocked calls_get_item : tokens.

Lemma calls_verify_recovery m map : calls harmless (verify_recovery m map).
Proof. unfold verify_recovery. through. Qed.

Lemma calls_baseline m candidate : calls harmless (authority_baseline op m candidate).
Proof. unfold authority_baseline. through. Qed.

Hint Resolve calls_baseline : tokens.

Lemma calls_deployment m candidate : calls harmless (require_deployment_authority op m candidate).
Proof. unfold require_deployment_authority. through. Qed.

Lemma calls_receipt sel : calls harmless (read_cutover_receipt op sel).
Proof. unfold read_cutover_receipt. through. Qed.

Lemma calls_candidate m baseline active :
  calls harmless (revocation_candidate m baseline active (read_cutover_receipt op)).
Proof.
  pose proof calls_receipt. unfold revocation_candidate, retire_one, survives. through.
Qed.

Hint Resolve calls_receipt calls_candidate : tokens.

Lemma calls_authority m candidate active : calls harmless (require_revocation_authority op m candidate active).
Proof. unfold require_revocation_authority, require_revocation_shape. through. Qed.

Lemma calls_lease m n : calls harmless (require_revocation_lease op m n).
Proof. unfold require_revocation_lease. through. Qed.

Lemma calls_live m baseline candidate phase : calls harmless (verify_live_revocation op m baseline candidate phase).
Proof.
  unfold verify_live_revocation, live_revocation_requests, present, readback_pair. through.
Qed.

Lemma calls_local e store client baseline active :
  calls harmless (local_unchanged e store client baseline active).
Proof. unfold local_unchanged. through. Qed.

Lemma calls_smoke base token : calls harmless (authenticated_smoke base token).
Proof. unfold authenticated_smoke, smoke_http. through. Qed.

Lemma calls_fresh_token tries m onsite : ∀ tok, calls harmless (unique_token tries m onsite tok).
Proof.
  induction tries as [|tries IH]; intros tok; cbn [unique_token]; [through|].
  unfold new_token_hex. through; apply IH.
Qed.

Hint Resolve calls_fresh_token : tokens.

Lemma calls_mint_identity s onsite rotate acc i : calls harmless (mint_identity s onsite rotate acc i).
Proof. unfold mint_identity, new_token_hex. through. Qed.

Lemma calls_read_optional e p : calls harmless (read_optional e p).
Proof. unfold read_optional. through. Qed.
End looking.

#[export] Hint Resolve calls_read calls_read_bytes calls_load_manifest calls_onsite calls_token_map
  calls_resolved calls_storage calls_unlocked calls_get_item calls_verify_recovery calls_baseline
  calls_deployment calls_receipt calls_candidate calls_authority calls_lease calls_live calls_local
  calls_smoke calls_mint_identity calls_read_optional : tokens.

(** ** Steps that change files only *)

Section quiet.
Context (op : operator_env) `{JournalCodec} `{Chrono} `{TokenText} `{UrlLib}.

Lemma quiet_write p contents : calls quiet (write_secret_file p contents).
Proof. unfold write_secret_file, create_parent, create_private_file, fill_and_publish. through. Qed.

Lemma quiet_ensure manifest example : calls quiet (ensure_manifest manifest example).
Proof. unfold ensure_manifest, create_parent. through. Qed.

Hint Resolve quiet_write quiet_ensure : tokens.

Lemma quiet_action manifest example dry_run : calls quiet (action_manifest manifest example dry_run).
Proof. unfold action_manifest. through. Qed.

Lemma quiet_lock store : calls quiet (lock_token_map store).
Proof. unfold lock_token_map, create_parent. through. Qed.

Hint Resolve quiet_action quiet_lock : tokens.

Lemma quiet_locked {A} dry_run store (body : cmd A) : calls quiet body → calls quiet (locked dry_run store body).
Proof. intros Hb. unfold locked. through. Qed.

Lemma quiet_rollback m baseline store client : calls quiet (preserve_revocation_rollback op m baseline store client).
Proof. unfold preserve_revocation_rollback, create_private_file. through. Qed.

Lemma quiet_mint manifest example dry_run rotate : calls quiet (cmd_mint_mode op manifest example dry_run rotate).
Proof.
  unfold cmd_mint_mode, backup_map. through. apply quiet_locked. through.
Qed.

Lemma quiet_write_client manifest example dry_run : calls quiet (cmd_write_client op manifest example dry_run).
Proof. unfold cmd_write_client. through. apply quiet_locked. through. Qed.

Lemma quiet_activate manifest example dry_run : calls quiet (cmd_activate op manifest example dry_run).
Proof. unfold cmd_activate. through. apply quiet_locked. through. Qed.

Lemma quiet_status manifest example : calls quiet (cmd_status op manifest example).
Proof. unfold cmd_status. through. Qed.

Lemma quiet_hint manifest example : calls quiet (cmd_wrangler_hint op manifest example).
Proof. unfold cmd_wrangler_hint. through. Qed.

Lemma quiet_smoke manifest example : calls quiet (cmd_smoke op manifest example).
Proof. unfold cmd_smoke. through. Qed.
End quiet.

#[export] Hint Resolve quiet_write quiet_ensure quiet_action quiet_lock quiet_rollback quiet_mint
  quiet_write_client quiet_activate quiet_status quiet_hint quiet_smoke : tokens.

(** ** What is published

    A file that was staged next to another and renamed over it. *)

Definition staged_text (t : fpath) (staged : list (fpath * string)) : string :=
  from_option snd "" (List.find (λ e, bool_decide (e.1 = t)) staged).

(** One event: the staged files with their texts, and what was published so far. *)
Definition publish_step (st : list (fpath * string) * list (fpath * string)) (ev : event)
    : list (fpath * string) * list (fpath * string) :=
  let '(staged, out) := st in
  let 'existT c a := ev in
  match c return answer c → list (fpath * string) * list (fpath * string) with
  | CreateNew t => λ a, if is_ok a then ((t, "") :: staged, out) else st
  | WriteAll t s => λ a, if is_ok a then ((t, staged_text t staged +:+ s) :: staged, out) else st
  | Rename t p => λ a, if is_ok a then (staged, out ++ [(p, staged_text t staged)]) else st
  | _ => λ _, st
  end a.

Definition publishes (staged : list (fpath * string)) (log : list event) : list (fpath * string) :=
  (foldl publish_step (staged, []) log).2.
Definition staged_after (staged : list (fpath * string)) (log : list event) : list (fpath * string) :=
  (foldl publish_step (staged, []) log).1.

Definition published (log : list event) : list (fpath * string) := publishes [] log.

Lemma publish_out staged out ev :
  publish_step (staged, out) ev =
  ((publish_step (staged, []) ev).1, out ++ (publish_step (staged, []) ev).2).
Proof.
  destruct ev as [c a]. destruct c; simpl; try (by rewrite app_nil_r);
    destruct (is_ok a); simpl; by rewrite ?app_nil_r.
Qed.

Lemma publish_fold log : ∀ staged out,
  foldl publish_step (staged, out) log = (staged_after staged log, out ++ publishes staged log).
Proof.
  unfold staged_after, publishes.
  induction log as [|ev log IH]; intros staged out; [by rewrite app_nil_r|]. cbn [foldl].
  rewrite publish_out. destruct (publish_step (staged, []) ev) as [s o]. cbn [fst snd].
  rewrite (IH s (out ++ o)), (IH s o). simpl. by rewrite app_assoc.
Qed.

Lemma publishes_app staged l1 l2 :
  publishes staged (l1 ++ l2) = publishes staged l1 ++ publishes (staged_after staged l1) l2.
Proof. unfold publishes at 1. rewrite foldl_app, publish_fold, publish_fold. done. Qed.

Definition unrenamed (c : call) : Prop := match c with Rename _ _ => False | _ => True end.

Lemma publishes_none log : Forall (λ ev, unrenamed (projT1 ev)) log → ∀ staged, publishes staged log = [].
Proof.
  induction 1 as [|[c a] log Hc _ IH]; intros staged; [done|]. unfold publishes. cbn [foldl].
  destruct (publish_step (staged, []) (existT c a)) as [s o] eqn:E.
  rewrite publish_fold, IH, app_nil_r. simpl.
  destruct c; simpl in E; try (by simplify_eq); by destruct (is_ok a); simplify_eq.
Qed.

(** A first step that publishes nothing. *)
Lemma publishes_bind {A B} (m : prog A) (k : A → prog B) staged log r :
  calls unrenamed m → runs_as (pbind m k) log r →
  (publishes staged log = [] ∧ r = None) ∨
  ∃ lm x lk, log = lm ++ lk ∧ runs_as m lm (Some x) ∧ runs_as (k x) lk r ∧
    publishes staged log = publishes (staged_after staged lm) lk.
Proof.
  intros Hm [[Hr ->]|(lm & lk & x & -> & Hlm & Hk)]%runs_bind_inv.
  - left. split; [|done]. by eapply publishes_none, Hm.
  - right. exists lm, x, lk. split_and!; try done. rewrite publishes_app.
    by rewrite (publishes_none lm) by by eapply Hm.
Qed.

Lemma publishes_cbind {A B} (m : cmd A) (k : A → cmd B) staged log r :
  calls unrenamed m → runs_as (cbind m k) log r →
  (publishes staged log = [] ∧ ∀ b, r ≠ Some (Ok b)) ∨
  ∃ lm x lk, log = lm ++ lk ∧ runs_as m lm (Some (Ok x)) ∧ runs_as (k x) lk r ∧
    publishes staged log = publishes (staged_after staged lm) lk.
Proof.
  intros Hm [[Hp ->]|(lm & [x|e] & lk & -> & Hlm & Hk & E)]%(publishes_bind _ _ staged); [by left| | |done].
  - right. by exists lm, x, lk.
  - apply runs_done in Hk as [-> Hk]. left. rewrite E. split; [done|]. intros b ->. done.
Qed.

(** Takes a first step that publishes nothing off a run. *)
Ltac pass Hr st :=
  cbv beta in Hr;
  match type of Hr with
  | runs_as (cbind ?m ?k) ?log ?r =>
      apply (publishes_cbind m k st log r) in Hr; [|solve [through]]
  | runs_as (pbind ?m ?k) ?log ?r =>
      apply (publishes_bind m k st log r) in Hr; [|solve [through]]
  end.

Section writing.
Context (op : operator_env).

Definition ended (text : string) : string :=
  if ends_with text (String newline "") then text else text +:+ String newline "".

Lemma staged_text_new t s staged : staged_text t ((t, s) :: staged) = s.
Proof. unfold staged_text. simpl. by rewrite bool_decide_eq_true_2. Qed.

Lemma staged_write t s staged :
  staged_after staged [did (WriteAll t s) (Ok tt)] = (t, staged_text t staged +:+ s) :: staged.
Proof. done. Qed.

Lemma staged_nil staged : staged_after staged [] = staged.
Proof. done. Qed.

Lemma rename_publishes e t p staged log r :
  runs_as (io_or e (ask (Rename t p))) log r →
  (publishes staged log = [] ∧ r ≠ Some (Ok tt)) ∨ publishes staged log = [(p, staged_text t staged)].
Proof.
  unfold io_or. cbn [pbind ask]. intros [[-> ->]|(a & l & -> & [-> Hr]%runs_done)]%runs_ask_inv; [by left|].
  destruct a as [[]|e']; [by right|]. left. split; [done|]. intros ->. done.
Qed.

Lemma write_all_log e t s log : runs_as (io_or e (ask (WriteAll t s))) log (Some (Ok tt)) →
  log = [did (WriteAll t s) (Ok tt)].
Proof. intros Hr%runs_io_ok. by apply (runs_ask_ok (WriteAll t s)). Qed.

Lemma fill_publishes tmp p text staged log r : staged_text tmp staged = "" →
  runs_as (fill_and_publish tmp p text) log r →
  (publishes staged log = [] ∧ r ≠ Some (Ok tt)) ∨ publishes staged log = [(p, ended text)].
Proof.
  intros Hs Hr. unfold fill_and_publish in Hr.
  apply (publishes_cbind _ _ staged) in Hr as [[E Hn]|(l1 & [] & l2 & -> & ->%write_all_log & Hr & ->)];
    [by left| |through].
  apply (publishes_cbind _ _ (staged_after staged [did (WriteAll tmp text) (Ok tt)]))
    in Hr as [[E Hn]|(l3 & [] & l4 & -> & Hw & Hr & ->)]; [by left| |through].
  assert (staged_text tmp (staged_after (staged_after staged [did (WriteAll tmp text) (Ok tt)]) l3) = ended text)
    as Et.
  { unfold ended. destruct (ends_with _ _).
    - apply runs_okay_ok in Hw as [-> _]. by rewrite staged_nil, staged_write, staged_text_new, Hs.
    - apply write_all_log in Hw as ->. by rewrite !staged_write, !staged_text_new, Hs. }
  revert Et. generalize (staged_after (staged_after staged [did (WriteAll tmp text) (Ok tt)]) l3).
  intros st Et.
  assert (calls unrenamed (io_or "sync" (ask (SyncAll tmp)))) as Hc by through.
  pose proof (publishes_cbind _ _ st _ _ Hc Hr) as Hp. clear Hr.
  destruct Hp as [[E Hn]|(l5 & [] & l6 & -> & Hsync%runs_io_ok & Hr & ->)]; [by left|].
  apply (runs_ask_ok (SyncAll tmp)) in Hsync as ->.
  destruct (rename_publishes _ _ _ (staged_after st [did (SyncAll tmp) (Ok tt)]) _ _ Hr) as [?| ->]; [by left|].
  right. by rewrite <- Et.
Qed.

Lemma staged_create t staged : staged_text t (staged_after staged [did (CreateNew t) (Ok tt)]) = "".
Proof. apply staged_text_new. Qed.

Lemma create_log e p log : runs_as (create_private_file e p) log (Some (Ok tt)) →
  log = [did (CreateNew p) (Ok tt)].
Proof.
  unfold create_private_file. intros (? & l & ? & -> & [-> _]%runs_lift_ok & Hr%runs_io_ok)%runs_cbind_ok.
  by apply (runs_ask_ok (CreateNew p)).
Qed.

(** Writing a file publishes its text, once, or nothing. *)
Lemma write_publishes p text staged log r :
  runs_as (write_secret_file p text) log r →
  (publishes staged log = [] ∧ r ≠ Some (Ok tt)) ∨ publishes staged log = [(p, ended text)].
Proof.
  unfold write_secret_file. intros Hr.
  pose proof (publishes_cbind _ _ staged _ _ (calls_lift _ _) Hr) as [[E Hn]|(? & [] & k1 & -> & _ & Hr1 & ->)];
    [by left|]. clear Hr. generalize (staged_after staged x). intros st1.
  assert (calls unrenamed (create_parent "mkdir" p)) as Hc1 by (unfold create_parent; through).
  pose proof (publishes_cbind _ _ st1 _ _ Hc1 Hr1) as [[E Hn]|(? & [] & k2 & -> & _ & Hr2 & ->)];
    [by left|]. clear Hr1. generalize (staged_after st1 x0). intros st2.
  assert (calls unrenamed (ask NewUuid)) as Hc2 by through.
  pose proof (publishes_bind _ _ st2 _ _ Hc2 Hr2) as [[E ->]|(? & id & k3 & -> & _ & Hr3 & ->)];
    [by left|]. clear Hr2. generalize (staged_after st2 x1). intros st3. cbv zeta in Hr3.
  set (tmp := with_file_name p _) in *.
  assert (calls unrenamed (context "create private staging file" (create_private_file "" tmp))) as Hc3
    by (unfold create_private_file; through).
  pose proof (publishes_cbind _ _ st3 _ _ Hc3 Hr3) as [[E Hn]|(? & [] & k4 & -> & Hnew & Hr4 & ->)];
    [by left|]. clear Hr3. apply runs_context_ok, create_log in Hnew as ->.
  pose proof (staged_create tmp st3) as Hst. revert Hst. generalize (staged_after st3 [did (CreateNew tmp) (Ok tt)]).
  intros st4 Hst. apply runs_bind_inv in Hr4 as [[Hf ->]|(lf & lk & o & -> & Hf & Hk)].
  { destruct (fill_publishes _ _ _ _ _ _ Hst Hf) as [[? _]|?]; [by left|by right]. }
  assert (publishes st4 (lf ++ lk) = publishes st4 lf ∧ (r = Some (Ok tt) → o = Ok tt)) as [-> Hro].
  { destruct o as [[]|e].
    - apply runs_done in Hk as [-> _]. by rewrite app_nil_r.
    - assert (calls unrenamed (let& there := ask (Exists tmp) in
        let@ _ := (if there : bool then io_or "remove failed private staging file" (ask (RemoveFile tmp))
                   else okay tt) in bail e : cmd unit)) as Hc by through.
      rewrite publishes_app, (publishes_none lk) by by eapply Hc. rewrite app_nil_r. split; [done|].
      intros ->. exfalso. apply runs_pbind_ok in Hk as (? & ? & there & _ & _ & Hk).
      by apply runs_cbind_ok in Hk as (? & ? & ? & _ & _ & Hk%runs_bail_ok). }
  destruct (fill_publishes _ _ _ _ _ _ Hst Hf) as [[E Hn]|E]; [left|by right]. split; [done|].
  intros Hr. rewrite (Hro Hr) in Hn. done.
Qed.

Lemma unrenamed_action `{TokenText} manifest example dry_run :
  calls unrenamed (action_manifest manifest example dry_run).
Proof. unfold action_manifest, ensure_manifest, create_parent. through. Qed.

Lemma locked_publishes {A} store (body : cmd A) staged log r :
  runs_as (locked false store body) log r →
  (publishes staged log = [] ∧ ∀ a, r ≠ Some (Ok a)) ∨
  ∃ lk lb lu r', log = lk ++ lb ++ lu ∧ runs_as body lb r' ∧
    publishes staged log = publishes (staged_after staged lk) lb ∧
    ∀ a, r = Some (Ok a) → r' = Some (Ok a).
Proof.
  intros Hr. unfold locked in Hr.
  assert (calls unrenamed (lock_token_map store)) as Hc by (unfold lock_token_map, create_parent; through).
  pose proof (publishes_cbind _ _ staged _ _ Hc Hr) as [?|(lk & [] & l1 & -> & _ & Hr1 & E)]; [by left|].
  clear Hr. right. apply runs_bind_inv in Hr1 as [[Hb ->]|(lb & lu & rb & -> & Hb & Hu)].
  { exists lk, l1, [], None. rewrite app_nil_r. by split_and!. }
  exists lk, lb, lu, (Some rb). split_and!; [done|done| |].
  - rewrite E, publishes_app, (publishes_none lu), app_nil_r; [done|].
    eapply (calls_bind unrenamed (ask (Unlock (lock_path store)))); [through|intros; apply calls_done|exact Hu].
  - intros a ->. apply runs_pbind_ok in Hu as (? & ? & ? & _ & _ & Hu). apply runs_done in Hu as [_ Hu].
    simpl in Hu. by subst.
Qed.
End writing.

#[export] Hint Resolve unrenamed_action : tokens.
