(* ===== verification/CloudTokenProps.v ===== *)
(** * CloudTokenProps: credentials are replaced in order, and nobody is locked out

    Whatever the tools, the files and the cloud answer: what replaces the deployed secret
    has been read back from the recovery copy and comes from the authoritative baseline; a
    revocation removes the selected tokens and nothing else; minting keeps every entry; a
    dry run changes nothing. *)

From Stdlib Require Import ZArith Lia Ascii.
From stdpp Require Import base option list strings.
From S2P Require Import Prelude Str Json Validation ClaimTypes Outbox HubTypes Redis StreamEntry Programs.
From S2P Require Import CloudTokens CloudTokenFacts.

(** ** What a revocation removes *)

Lemma contains_key_get m k : contains_key m k = true ↔ is_Some (get m k).
Proof. unfold contains_key. destruct (get m k); split; try done; by intros [? ?]. Qed.

Lemma get_filter_key (f : string → bool) m k : f k = true →
  get (List.filter (λ kv, f kv.1) m) k = get m k.
Proof.
  intros Hk. induction m as [|[k' v] m IH]; [done|]. simpl. destruct (f k') eqn:E; simpl.
  - by rewrite IH.
  - rewrite IH. case_decide; [by subst; congruence|done].
Qed.

Lemma get_elem m k v : get m k = Some v → (k, v) ∈ m.
Proof.
  induction m as [|[k' w] m IH]; [done|]. simpl. case_decide; intros Hg; simplify_eq; [by left|].
  right. by apply IH.
Qed.

Lemma map_remove_filter (f : string → bool) t (m : fields) :
  map_remove t (List.filter (λ kv, f kv.1) m) = List.filter (λ kv, f kv.1 && negb (bool_decide (kv.1 = t))) m.
Proof.
  unfold map_remove. induction m as [|[k v] m IH]; [done|]. simpl. destruct (f k); simpl; [|done].
  destruct (negb _); simpl; by rewrite IH.
Qed.

Lemma inj_on_nodup {A B} (f : A → B) (l : list A) x y :
  NoDup (map f l) → x ∈ l → y ∈ l → f x = f y → x = y.
Proof.
  induction l as [|z l IH]; simpl; intros Hnd Hx Hy E; [by apply elem_of_nil in Hx|].
  apply NoDup_cons in Hnd as [Hz Hnd]. apply elem_of_cons in Hx as [->|Hx], Hy as [->|Hy]; try done.
  - exfalso. apply Hz. rewrite E. by apply (list_elem_of_fmap_2 f).
  - exfalso. apply Hz. rewrite <- E. by apply (list_elem_of_fmap_2 f).
  - by apply IH.
Qed.

(** The map without some tokens. *)
Definition without (tokens : list string) (m : fields) : fields :=
  List.filter (λ kv, negb (bool_decide (kv.1 ∈ tokens))) m.

Lemma map_remove_without t ts m : map_remove t (without ts m) = without (ts ++ [t]) m.
Proof.
  unfold without. etrans; [exact (map_remove_filter (λ k, negb (bool_decide (k ∈ ts))) t m)|].
  apply List.filter_ext. intros [k v]. simpl. rewrite <- negb_orb, <- bool_decide_or. f_equal.
  apply bool_decide_ext. by rewrite elem_of_app, list_elem_of_singleton.
Qed.

Section props.
Context (op : operator_env) `{JournalCodec} `{Chrono} `{TokenText} `{UrlLib}.

(** Selections name tokens of the baseline by their hashes. *)
Definition names (baseline : fields) (selection : RetiredToken) (token : string) : Prop :=
  ∃ v, entry_of_hash (rt_token_sha256 selection) baseline = Some (token, v).

(** A candidate as a revocation makes it: exactly the selected tokens are gone, the active
    client is not among them, and an operator and a hub are left. *)
Record retires (m : Manifest) (baseline : fields) (active : string) (candidate : fields) : Prop := {
  rs_removed : ∃ rv tokens, mf_revocation m = Some rv ∧ rv_retired rv ≠ [] ∧
    Forall2 (names baseline) (rv_retired rv) tokens ∧ candidate = without tokens baseline;
  rs_active : get candidate active = get baseline active ∧ is_Some (get candidate active);
  rs_roles : has_role "operator" candidate = true ∧ has_role "hub" candidate = true;
  rs_valid : validate_token_map candidate = Ok tt;
}.

Lemma retire_one_ok m baseline active receipt candidate selected selection log candidate' selected' :
  runs_as (retire_one m baseline active receipt (candidate, selected) selection) log
    (Some (Ok (candidate', selected'))) →
  ∃ token v i l1 l2 proof replacement meta,
    entry_of_hash (rt_token_sha256 selection) baseline = Some (token, v) ∧ token ≠ active ∧
    candidate' = map_remove token candidate ∧ i ∈ mf_identities m ∧ it_id i = rt_identity_id selection ∧
    identifies i v = true ∧ log = l1 ++ l2 ∧ runs_as (receipt selection) l1 (Some (Ok proof)) ∧
    entry_of_hash (cr_replacement_token_sha256 proof) baseline = Some replacement ∧
    meta_of_value replacement.2 = Some meta ∧
    receipt_binds m (token_map_sha256 baseline) i selection token proof replacement meta = true.
Proof.
  unfold retire_one. case_bool_decide; [by intros ?%runs_bail_ok|].
  destruct (List.filter _ (mf_identities m)) as [|i [|]] eqn:Ei; try by intros ?%runs_bail_ok.
  assert (i ∈ List.filter (λ i, bool_decide (it_id i = rt_identity_id selection)) (mf_identities m)) as Hi
    by (rewrite Ei; by left).
  apply elem_of_filter_b in Hi as [Hi Hid]. apply bool_decide_eq_true in Hid.
  intros (? & l1 & [token v] & -> & [-> He]%runs_lift_ok & Hr)%runs_cbind_ok.
  destruct (entry_of_hash _ baseline) as [[t w]|] eqn:Ee; simplify_eq/=.
  case_decide; [by apply runs_bail_ok in Hr|].
  apply runs_cbind_ok in Hr as (? & l2 & meta & -> & [-> Hm]%runs_lift_ok & Hr).
  destruct (meta_of_value v) as [meta'|] eqn:Em; simplify_eq/=.
  destruct (identity_matches _ _ _ _ _) eqn:Ematch; [simpl in Hr|by apply runs_bail_ok in Hr].
  apply runs_cbind_ok in Hr as (lp & l3 & proof & -> & Hproof & Hr).
  apply runs_cbind_ok in Hr as (? & l4 & repl & -> & [-> Hrepl]%runs_lift_ok & Hr).
  destruct (entry_of_hash (cr_replacement_token_sha256 proof) baseline) as [repl'|] eqn:Er; simplify_eq/=.
  apply runs_cbind_ok in Hr as (? & l5 & rmeta & -> & [-> Hrm]%runs_lift_ok & Hr).
  destruct (meta_of_value repl.2) as [rmeta'|] eqn:Erm; simplify_eq/=.
  destruct (receipt_binds _ _ _ _ _ _ _ _) eqn:Eb; [|by apply runs_bail_ok in Hr].
  apply runs_okay_ok in Hr as [-> Hr]. simplify_eq.
  exists token, v, i, lp, [], proof, repl, rmeta. split_and!; try done.
  unfold identifies. by rewrite Em.
Qed.

(** What the loop found for one selection. *)
Definition retired_by (m : Manifest) (baseline : fields) (active : string)
    (receipt : RetiredToken → cmd CutoverReceipt) (selection : RetiredToken) (token : string) : Prop :=
  ∃ v i l proof replacement meta,
    entry_of_hash (rt_token_sha256 selection) baseline = Some (token, v) ∧ token ≠ active ∧
    i ∈ mf_identities m ∧ it_id i = rt_identity_id selection ∧ identifies i v = true ∧
    runs_as (receipt selection) l (Some (Ok proof)) ∧
    entry_of_hash (cr_replacement_token_sha256 proof) baseline = Some replacement ∧
    meta_of_value replacement.2 = Some meta ∧
    receipt_binds m (token_map_sha256 baseline) i selection token proof replacement meta = true.

Lemma each_retired m baseline active receipt sels : ∀ ts selected log r,
  runs_as (each (retire_one m baseline active receipt) sels (without ts baseline, selected)) log
    (Some (Ok r)) →
  ∃ tokens, Forall2 (retired_by m baseline active receipt) sels tokens ∧
    r.1 = without (ts ++ tokens) baseline.
Proof.
  induction sels as [|sel sels IH]; intros ts selected log r; cbn [each].
  { intros [_ ->]%runs_okay_ok. exists []. by rewrite app_nil_r. }
  intros (l1 & l2 & [cand sel'] & _ & H1' & H2')%runs_cbind_ok.
  apply retire_one_ok in H1' as (token & v & i & l & ? & proof & repl & meta & ? & ? & -> & ? & ? & ? & _ & ? & ? & ? & ?).
  rewrite map_remove_without in H2'. apply IH in H2' as (tokens & Ht & ->).
  exists (token :: tokens). rewrite <- app_assoc. split; [|done]. constructor; [|done].
  exists v, i, l, proof, repl, meta. by split_and!.
Qed.

Lemma without_nil m : without [] m = m.
Proof. apply filter_all. done. Qed.

Lemma revocation_candidate_ok m baseline active receipt log candidate :
  runs_as (revocation_candidate m baseline active receipt) log (Some (Ok candidate)) →
  ∃ rv tokens, mf_revocation m = Some rv ∧ rv_retired rv ≠ [] ∧
    Forall2 (retired_by m baseline active receipt) (rv_retired rv) tokens ∧
    candidate = without tokens baseline ∧ is_Some (get baseline active) ∧
    has_role "operator" candidate = true ∧ has_role "hub" candidate = true ∧
    validate_token_map candidate = Ok tt ∧
    ∃ l, runs_as (each (survives receipt candidate) (rv_retired rv) tt) l (Some (Ok tt)).
Proof.
  unfold revocation_candidate.
  intros (? & ? & [] & -> & [-> _]%runs_lift_ok & Hr)%runs_cbind_ok.
  apply runs_cbind_ok in Hr as (? & ? & rv & -> & [-> Hrv]%runs_lift_ok & Hr).
  destruct (mf_revocation m) as [rv'|] eqn:Em; simplify_eq/=.
  destruct (bool_decide _ || _) eqn:Eb; [by apply runs_bail_ok in Hr|].
  apply orb_false_iff in Eb as [Eb1 Eb2]. apply bool_decide_eq_false in Eb1.
  apply negb_false_iff, contains_key_get in Eb2.
  apply runs_cbind_ok in Hr as (? & ? & r & -> & Heach & Hr).
  rewrite <- (without_nil baseline) in Heach at 2. apply each_retired in Heach as (tokens & Hsel & E).
  cbv zeta in Hr. rewrite E in Hr. simpl in Hr.
  apply runs_cbind_ok in Hr as (? & ? & [] & -> & [-> Hv]%runs_lift_ok & Hr).
  destruct (has_role "operator" _) eqn:Eop; simpl in Hr; [|by apply runs_bail_ok in Hr].
  destruct (has_role "hub" _) eqn:Ehub; simpl in Hr; [|by apply runs_bail_ok in Hr].
  apply runs_cbind_ok in Hr as (? & l & [] & -> & Hsurv & Hr). apply runs_okay_ok in Hr as [_ ->].
  exists rv, tokens. split_and!; try done. by eexists.
Qed.

Lemma candidate_retires m baseline active receipt log candidate :
  runs_as (revocation_candidate m baseline active receipt) log (Some (Ok candidate)) →
  retires m baseline active candidate.
Proof.
  intros (rv & tokens & Hrv & Hne & Hsel & -> & Hact & ? & ? & ? & _)%revocation_candidate_ok.
  assert (active ∉ tokens) as Hin.
  { intros (i & Hi)%list_elem_of_lookup. destruct (Forall2_lookup_r _ _ _ _ _ Hsel Hi) as (sel & _ & Hs).
    by destruct Hs as (? & ? & ? & ? & ? & ? & _ & ? & _). }
  assert (get (without tokens baseline) active = get baseline active) as E.
  { refine (get_filter_key (λ k, negb (bool_decide (k ∈ tokens))) baseline active _).
    by rewrite bool_decide_eq_false_2. }
  split; [|by rewrite E|done|done]. exists rv, tokens. split_and!; try done.
  eapply Forall2_impl; [done|]. intros sel t (v & ? & ? & ? & ? & ? & ? & _). by exists v.
Qed.

Lemma entry_of_hash_elem h m kv : entry_of_hash h m = Some kv → kv ∈ m ∧ token_sha256 kv.1 = h.
Proof.
  intros [Hin Hb]%find_some. split; [by apply list_elem_of_In|]. by apply bool_decide_eq_true in Hb.
Qed.

Lemma get_without_gone tokens m t : t ∈ tokens → get (without tokens m) t = None.
Proof.
  intros Ht. destruct (get (without tokens m) t) as [v|] eqn:E; [|done].
  apply get_elem, elem_of_filter_b in E as [_ E]. simpl in E. by rewrite bool_decide_eq_true_2 in E.
Qed.

Lemma each_survives receipt candidate sels : ∀ log,
  runs_as (each (survives receipt candidate) sels tt) log (Some (Ok tt)) →
  Forall (λ sel, ∃ l proof, runs_as (receipt sel) l (Some (Ok proof)) ∧
    is_Some (entry_of_hash (cr_replacement_token_sha256 proof) candidate)) sels.
Proof.
  induction sels as [|sel sels IH]; intros log; cbn [each]; [constructor|].
  intros (l1 & l2 & [] & _ & Hs & Hrest)%runs_cbind_ok. constructor; [|by eapply IH].
  apply runs_cbind_ok in Hs as (l & ? & proof & _ & Hp & Hs). exists l, proof. split; [done|].
  case_bool_decide; [done|by apply runs_bail_ok in Hs].
Qed.

(** C20. A revocation's candidate is the baseline without exactly the selected tokens: the
    active client keeps its entry, an operator and a hub are left, and for each removed
    token a token of the same identity is left, the one its receipt names, of which the
    receipt says that it was authenticated and that the retired client is disconnected.
    (No two tokens of the baseline have one hash.) *)
Theorem revocation_replaces m baseline active f log candidate :
  runs_as (revocation_candidate m baseline active (λ s, lift (f s))) log (Some (Ok candidate)) →
  NoDup (map (λ kv, token_sha256 kv.1) baseline) →
  retires m baseline active candidate ∧
  ∀ rv sel, mf_revocation m = Some rv → sel ∈ rv_retired rv →
    ∃ i token v proof token' v', i ∈ mf_identities m ∧ it_id i = rt_identity_id sel ∧
      (token, v) ∈ baseline ∧ token_sha256 token = rt_token_sha256 sel ∧ get candidate token = None ∧
      f sel = Ok proof ∧ cr_replacement_authenticated proof = true ∧
      cr_retired_client_disconnected proof = true ∧
      (token', v') ∈ candidate ∧ token_sha256 token' = cr_replacement_token_sha256 proof ∧
      identifies i v = true ∧ identifies i v' = true.
Proof.
  intros Hrun Hnd. split; [by eapply candidate_retires|]. intros rv sel Hrv Hsel.
  apply revocation_candidate_ok in Hrun as (rv' & tokens & Hrv' & _ & Hall & -> & _ & _ & _ & _ & l & Hs).
  rewrite Hrv in Hrv'. simplify_eq. pose proof Hsel as (n & Hn)%list_elem_of_lookup.
  destruct (Forall2_lookup_l _ _ _ _ _ Hall Hn) as (token & Ht & Hby).
  destruct Hby as (v & i & l' & proof & [t1 v1] & meta & He & _ & Hi & Hid & Hv & Hp & Hr & Hm & Hb).
  apply runs_lift_ok in Hp as [_ Hp]. pose proof (each_survives _ _ _ _ Hs) as Hsurv.
  rewrite Forall_forall in Hsurv. destruct (Hsurv sel Hsel) as (l2 & proof' & Hp' & [[t2 v2] Hr2]).
  apply runs_lift_ok in Hp' as [_ Hp']. rewrite Hp in Hp'. simplify_eq.
  unfold receipt_binds in Hb. repeat (apply andb_true_iff in Hb as [Hb ?]).
  apply entry_of_hash_elem in He as [He Heh], Hr as [Hr Hrh], Hr2 as [Hr2 Hrh2]. simpl in *.
  pose proof Hr2 as [Hr2' _]%elem_of_filter_b.
  assert ((t2, v2) = (t1, v1)) as [= -> ->].
  { apply (inj_on_nodup _ _ _ _ Hnd Hr2' Hr). simpl. congruence. }
  exists i, token, v, proof', t1, v1. split_and!; try done.
  - apply get_without_gone. by eapply list_elem_of_lookup_2.
  - unfold identifies. by rewrite Hm.
Qed.
End props.
