(* ===== verification/CloudTokenDeploy.v ===== *)
(** * CloudTokenDeploy: what is checked before the deployed secret is replaced

    Every call that may replace the deployed secret, in any run of any action, comes after
    the lock was taken, after the map in question was read back from the recovery copy, and
    after the authoritative baseline was read and compared. *)

From Stdlib Require Import ZArith Lia Ascii.
From stdpp Require Import base option list strings.
From S2P Require Import Prelude Str Json Validation ClaimTypes Outbox HubTypes Redis StreamEntry Programs.
From S2P Require Import CloudTokens CloudTokenFacts CloudTokenProps.

(** ** Facts of a log *)

Abbreviation all_calls P log := (Forall (λ ev : event, P (projT1 ev)) log).

Definition deploys (c : call) : Prop := effect_of c = Deploys.

(** The lock was taken and not given back. *)
Definition holds_lock (store : fpath) (log : list event) : Prop :=
  ∃ l l', log = l ++ did (TryLock (lock_path store)) true :: l' ∧
    all_calls (λ c, c ≠ Unlock (lock_path store)) l'.

Lemma holds_lock_app store log log' : holds_lock store log →
  all_calls (λ c, c ≠ Unlock (lock_path store)) log' → holds_lock store (log ++ log').
Proof.
  intros (l & l' & -> & Hl) Hl'. exists l, (l' ++ log'). rewrite <- app_assoc. split; [done|].
  by apply Forall_app.
Qed.

(** The answer to the first reading of a file. *)
Fixpoint first_read (p : fpath) (log : list event) : option (io string) :=
  match log with
  | [] => None
  | existT c a :: log =>
      match c return answer c → option (io string) with
      | ReadFile q => λ a, if decide (q = p) then Some a else first_read p log
      | _ => λ _, first_read p log
      end a
  end.

Definition unread (c : call) : Prop := match c with ReadFile _ => False | _ => True end.

Lemma first_read_later p log log' : all_calls unread log →
  first_read p (log ++ log') = first_read p log'.
Proof. induction 1 as [|[c a] log Hc _ IH]; [done|]. by destruct c. Qed.

Lemma no_event_done {A} (a : A) l1 ev l2 r : ¬ runs_as (Done a) (l1 ++ ev :: l2) r.
Proof. intros [E _]%runs_done. by destruct l1. Qed.

Lemma no_event_calls {A} (Q : call → Prop) (m : prog A) l1 c a l2 r :
  calls Q m → ¬ Q c → ¬ runs_as m (l1 ++ did c a :: l2) r.
Proof.
  intros Hm Hc Hr%Hm. apply Forall_app in Hr as [_ Hr]. by inversion Hr.
Qed.

(** Peels a step without such a call off a run that has one. *)
Tactic Notation "peel" constr(Q) ident(H) ident(lm) ident(x) ident(Hm) ident(Hno) :=
  let l1' := fresh "l1" in
  apply (event_after Q) in H as (lm & x & l1' & -> & Hm & Hno & H); [|through|done].

Section deploy.
Context (op : operator_env) `{JournalCodec} `{Chrono} `{TokenText} `{UrlLib}.

(** The manifest as the run read it. *)
Definition manifest_in (p : fpath) (log : list event) : option Manifest :=
  match first_read p log with Some (Ok raw) => manifest_of_text raw | _ => None end.

Lemma manifest_later p log log' : all_calls unread log → manifest_in p (log ++ log') = manifest_in p log'.
Proof. intros Hl. unfold manifest_in. by rewrite first_read_later. Qed.

Lemma load_manifest_in p m log : runs_as (load_manifest p) log (Some (Ok m)) →
  ∀ log', manifest_in p (log ++ log') = Some m.
Proof.
  unfold load_manifest, read_to_string.
  intros (l1 & l2 & raw & -> & (l3 & l4 & bytes & -> & Hr%runs_io_ok & Hk)%runs_cbind_ok & Hm)%runs_cbind_ok.
  apply (runs_ask_ok (ReadFile p)) in Hr as ->.
  destruct (utf8 bytes); [|by apply runs_bail_ok in Hk]. apply runs_okay_ok in Hk as [-> ->].
  apply runs_lift_ok in Hm as [-> Hm]. intros log'. unfold manifest_in. cbn.
  rewrite decide_True by done. by destruct (manifest_of_text bytes); simplify_eq/=.
Qed.

Lemma ensure_manifest_in p example m log : runs_as (ensure_manifest p example) log (Some (Ok m)) →
  ∀ log', manifest_in p (log ++ log') = Some m.
Proof.
  unfold ensure_manifest. intros (l1 & l2 & there & -> & Hi & Hr)%runs_pbind_ok log'.
  apply (runs_ask_ok (IsFile p)) in Hi as ->.
  apply runs_cbind_ok in Hr as (l3 & l4 & [] & -> & Hc & Hr).
  rewrite <- !app_assoc. rewrite manifest_later by by repeat constructor.
  rewrite manifest_later; [by apply load_manifest_in|].
  revert Hc. generalize (Some (@Ok string unit tt)). intros r Hc. revert l3 r Hc.
  match goal with |- ∀ l r, runs_as ?body l r → _ => assert (calls unread body) as Hb; [|exact Hb] end.
  unfold create_parent. through; try (by apply (calls_ask unread (IsFile example))).
Qed.

(** The recovery copy was read and holds this map; nothing was told to change it since. *)
Definition read_back (name : string) (m : fields) (log : list event) : Prop :=
  ∃ l l' raw item, log = l ++ did (Invoke "bw" ["get"; "item"; name] None None) (Some raw) :: l' ∧
    value_of_text raw = Some item ∧ recovered_token_map item = Ok m ∧
    all_calls (λ c, effect_of c ≠ Recovery) l'.

(** A file was read and holds this map. *)
Definition read_map (p : fpath) (m : fields) (log : list event) : Prop :=
  ∃ raw, did (ReadFile p) (Ok raw) ∈ log ∧ map_of_text raw = Some m ∧ validate_token_map m = Ok tt.

(** The baseline was read, and both maps have the hashes the evidence names. *)
Definition authorised (m : Manifest) (baseline candidate : fields) (log : list event) : Prop :=
  ∃ evidence p, mf_deployed_map_authority m = Some evidence ∧
    expand_path op (da_baseline_path evidence) = Ok p ∧ read_map p baseline log ∧
    token_map_sha256 baseline = da_baseline_sha256 evidence ∧
    token_map_sha256 candidate = da_candidate_sha256 evidence.

Lemma read_back_app name m log log' : read_back name m log →
  all_calls (λ c, effect_of c ≠ Recovery) log' → read_back name m (log ++ log').
Proof.
  intros (l & l' & raw & item & -> & ? & ? & Hl) Hl'. exists l, (l' ++ log'), raw, item.
  rewrite <- app_assoc. split_and!; try done. by apply Forall_app.
Qed.

Lemma read_back_later name m log log' : read_back name m log' → read_back name m (log ++ log').
Proof.
  intros (l & l' & raw & item & -> & ? & ? & Hl). exists (log ++ l), l', raw, item.
  by rewrite <- app_assoc.
Qed.

Lemma read_map_sub p m log log' : (∀ ev, ev ∈ log → ev ∈ log') → read_map p m log → read_map p m log'.
Proof. intros Hs (raw & ? & ? & ?). exists raw. split_and!; auto. Qed.

Lemma authorised_sub m b c log log' : (∀ ev, ev ∈ log → ev ∈ log') →
  authorised m b c log → authorised m b c log'.
Proof.
  intros Hs (e & p & ? & ? & ? & ? & ?). exists e, p. split_and!; try done. by eapply read_map_sub.
Qed.

(** ** What steps leave in the log *)

Lemma read_bytes_log e p log s :
  runs_as (read_bytes e p) log (Some (Ok s)) → log = [did (ReadFile p) (Ok s)].
Proof. intros Hr%runs_io_ok. by apply (runs_ask_ok (ReadFile p)). Qed.

Lemma read_string_log e p log s :
  runs_as (read_to_string e p) log (Some (Ok s)) → log = [did (ReadFile p) (Ok s)].
Proof.
  unfold read_to_string. intros (l1 & l2 & bytes & -> & Hr & Hk)%runs_cbind_ok.
  apply (read_bytes_log e) in Hr as ->. destruct (utf8 bytes); [|by apply runs_bail_ok in Hk].
  by apply runs_okay_ok in Hk as [-> ->].
Qed.

Lemma token_map_log p log m : runs_as (read_token_map p) log (Some (Ok m)) → read_map p m log.
Proof.
  unfold read_token_map. intros (l1 & l2 & raw & -> & ->%read_string_log & Hr)%runs_cbind_ok.
  apply runs_cbind_ok in Hr as (? & l3 & m' & -> & [-> Hm]%runs_lift_ok & Hr).
  apply runs_cbind_ok in Hr as (? & l4 & [] & -> & [-> Hv]%runs_lift_ok & Hr).
  apply runs_okay_ok in Hr as [-> ->]. exists raw. split_and!; [by left| |done].
  by destruct (map_of_text raw); simplify_eq/=.
Qed.

Lemma get_item_log name log item : runs_as (get_item name) log (Some (Ok item)) →
  ∃ raw, log = [did (Invoke "bw" ["get"; "item"; name] None None) (Some raw)] ∧
    value_of_text raw = Some item.
Proof.
  unfold get_item. intros (l1 & l2 & raw & -> & Hr & Hk)%runs_cbind_ok.
  apply runs_some_ok, (runs_ask_ok (Invoke "bw" ["get"; "item"; name] None None)) in Hr as ->.
  apply runs_lift_ok in Hk as [-> Hk]. exists raw. split; [done|].
  by destruct (value_of_text raw); simplify_eq/=.
Qed.

Lemma verify_recovery_log m map log :
  runs_as (verify_recovery m map) log (Some (Ok tt)) → read_back (mf_item_name m) map log.
Proof.
  unfold verify_recovery. intros (l1 & l2 & [] & -> & _ & Hr)%runs_cbind_ok.
  apply read_back_later. apply runs_cbind_ok in Hr as (l3 & l4 & item & -> & Hg & Hr).
  apply get_item_log in Hg as (raw & -> & Hraw).
  apply runs_cbind_ok in Hr as (? & l5 & rec & -> & [-> Hrec]%runs_lift_ok & Hr).
  case_decide; [|by apply runs_bail_ok in Hr]. apply runs_okay_ok in Hr as [-> _]. subst.
  by exists [], [], raw, item.
Qed.

Lemma baseline_log m candidate log baseline :
  runs_as (authority_baseline op m candidate) log (Some (Ok baseline)) →
  authorised m baseline candidate log.
Proof.
  unfold authority_baseline. intros (? & l1 & e & -> & [-> He]%runs_lift_ok & Hr)%runs_cbind_ok.
  destruct (mf_deployed_map_authority m) as [e'|] eqn:Ee; simplify_eq/=.
  destruct (_ || _); [by apply runs_bail_ok in Hr|].
  apply runs_cbind_ok in Hr as (la & l2 & ? & -> & _ & Hr).
  apply runs_cbind_ok in Hr as (lb & l3 & p & -> & [-> Hp]%runs_lift_ok & Hr).
  apply runs_cbind_ok in Hr as (lc & l4 & ? & -> & _ & Hr).
  apply runs_cbind_ok in Hr as (ld & l5 & ? & -> & _ & Hr).
  apply runs_cbind_ok in Hr as (le & l6 & ? & -> & _ & Hr).
  apply runs_cbind_ok in Hr as (lf & l7 & ? & -> & _ & Hr).
  apply runs_cbind_ok in Hr as (lg & l8 & ? & -> & _ & Hr).
  apply runs_cbind_ok in Hr as (lh & l9 & rec & -> & Hrec%token_map_log & Hr).
  destruct (_ || _) eqn:Eb; [by apply runs_bail_ok in Hr|]. apply runs_okay_ok in Hr as [-> ->].
  apply orb_false_iff in Eb as [Eb1 Eb2]. apply negb_false_iff, bool_decide_eq_true in Eb1, Eb2.
  exists e, p. split_and!; try done. eapply read_map_sub; [|done].
  intros ev Hev. rewrite !elem_of_app. tauto.
Qed.

(** ** Under the lock *)

Lemma lock_log store log : runs_as (lock_token_map store) log (Some (Ok tt)) → holds_lock store log.
Proof.
  unfold lock_token_map. intros (? & l1 & ? & -> & [-> _]%runs_lift_ok & Hr)%runs_cbind_ok.
  apply runs_cbind_ok in Hr as (l2 & l3 & ? & -> & _ & Hr).
  apply runs_cbind_ok in Hr as (? & l4 & ? & -> & [-> _]%runs_lift_ok & Hr).
  apply runs_pbind_ok in Hr as (l5 & l6 & created & -> & _ & Hr).
  apply runs_cbind_ok in Hr as (l7 & l8 & ? & -> & _ & Hr).
  apply runs_pbind_ok in Hr as (l9 & l10 & held & -> & Ht & Hr).
  apply (runs_ask_ok (TryLock (lock_path store))) in Ht as ->.
  destruct held; [|by apply runs_bail_ok in Hr]. apply runs_okay_ok in Hr as [-> _].
  exists ([] ++ l2 ++ [] ++ l5 ++ l7), []. split; [|constructor]. by rewrite !app_nil_l, <- !app_assoc.
Qed.

Lemma holds_lock_later store log log' : holds_lock store log' → holds_lock store (log ++ log').
Proof. intros (l & l' & -> & ?). exists (log ++ l), l'. by rewrite <- app_assoc. Qed.

(** A call under the lock, in the body. *)
Lemma locked_event {A} (Q : call → Prop) store (body : cmd A) l1 c a l2 r :
  ¬ Q c → (∀ c', quiet c' → Q c') →
  runs_as (locked false store body) (l1 ++ did c a :: l2) r →
  ∃ lk l1' l2' l3 r', l1 = lk ++ l1' ∧ l2 = l2' ++ l3 ∧ holds_lock store lk ∧
    all_calls Q lk ∧ all_calls Q l3 ∧
    runs_as body (l1' ++ did c a :: l2') r'.
Proof.
  intros Hc Hquiet Hr. unfold locked in Hr. apply (event_after Q) in Hr as (lk & [] & l1' & -> & Hk%lock_log & Hno & Hr);
    [|eapply calls_mono; [exact Hquiet|through]|done].
  apply runs_bind_inv in Hr as [[Hr _]|(lb & lu & rb & E & Hb & Hu)].
  { exists lk, l1', l2, [], None. rewrite app_nil_r. by split_and!. }
  assert (all_calls quiet lu) as Hlu.
  { eapply (calls_bind quiet (ask (Unlock (lock_path store)))); [through|intros; apply calls_done|exact Hu]. }
  apply app_eq_inv in E as [(l & -> & ->)|(l & -> & E)].
  - apply Forall_app in Hlu as [_ Hlu]. inversion Hlu; subst. by destruct Hc; apply Hquiet.
  - destruct l as [|ev l]; simplify_eq/=.
    + inversion Hlu; subst. by destruct Hc; apply Hquiet.
    + exists lk, l1', l, lu, (Some rb). split_and!; try done. eapply Forall_impl; [exact Hlu|].
      intros [c' a']. apply Hquiet.
Qed.

(** A step that makes one call. *)
Definition single {A} (c' : call) (m : prog A) : Prop :=
  ∀ log r, runs_as m log r → log = [] ∨ ∃ a, log = [did c' a].

Lemma single_ask c : single c (ask c).
Proof.
  intros log r [[-> _]|(a & l & -> & [-> _]%runs_done)]%runs_ask_inv; [by left|right; by exists a].
Qed.

Lemma single_map {A B} c (f : A → B) (m : prog A) : single c m → single c (pbind m (λ a, Done (f a))).
Proof.
  intros Hm log r [[Hr _]|(l1 & l2 & a & -> & H1' & [-> _]%runs_done)]%runs_bind_inv; [by eapply Hm|].
  rewrite app_nil_r. by eapply Hm.
Qed.

Lemma single_event {A B} (Q : call → Prop) c' (m : cmd A) (k : A → cmd B) l1 c a l2 r :
  single c' m → (∀ o, calls Q (k o)) → ¬ Q c →
  runs_as (cbind m k) (l1 ++ did c a :: l2) r →
  l1 = [] ∧ c = c' ∧ all_calls Q l2.
Proof.
  intros Hs Hk Hc Hr. assert (∀ lm lk, l1 ++ did c a :: l2 = lm ++ lk → all_calls Q lk →
    (lm = [] ∨ ∃ a, lm = [did c' a]) → l1 = [] ∧ c = c' ∧ all_calls Q l2) as Hgo.
  { intros lm lk E Hlk [-> | [x ->]].
    - simpl in E. subst lk. apply Forall_app in Hlk as [_ Hlk]. by inversion Hlk.
    - destruct l1 as [|ev l1]; simpl in E; injection E.
      + intros -> _ ->. by split_and!.
      + intros <- _. apply Forall_app in Hlk as [_ Hlk]. by inversion Hlk. }
  apply runs_cbind_inv in Hr as [(r' & Hr & _)|(lm & lk & x & E & Hlm & Hlk)].
  - apply (Hgo (l1 ++ did c a :: l2) []); [by rewrite app_nil_r|constructor|by eapply Hs].
  - apply (Hgo lm lk E); [by eapply Hk|by eapply Hs].
Qed.

Lemma upload_body m worker cwd store l1 c a l2 r :
  ¬ harmless c →
  runs_as (let@ map := read_token_map store in
       let@ onsite := onsite_hub_token_fp op in
       let@ _ := lift (assert_no_onsite_reuse map onsite) in
       let@ _ := require_deployment_authority op m map in
       let@ _ := verify_recovery m map in
       if negb (valid_worker worker) then bail "invalid Worker name"
       else
         let& there := ask (IsDir cwd) in
         if negb there then bail "cloud Worker directory is missing"
         else
           let@ _ := some_or "wrangler" (ask (put_secret worker (value_text (JObj map)) cwd)) in
           okay tt) (l1 ++ did c a :: l2) r →
  ∃ map baseline, c = put_secret worker (value_text (JObj map)) cwd ∧
    read_map store map l1 ∧ authorised m baseline map l1 ∧ keeps_entries baseline map = true ∧
    read_back (mf_item_name m) map l1 ∧ all_calls harmless l1 ∧ all_calls harmless l2.
Proof.
  intros Hc Hr. peel harmless Hr la mp Hmap Ha. peel harmless Hr lb onsite Ho Hb. peel harmless Hr lc u Hu Hc'.
  peel harmless Hr ld u' Hauth Hd. peel harmless Hr le u'' Hver He. destruct (valid_worker worker); [cbn [negb] in Hr|by apply no_event_done in Hr].
  apply token_map_log in Hmap. destruct u''. apply verify_recovery_log in Hver.
  unfold require_deployment_authority in Hauth.
  apply runs_cbind_ok in Hauth as (lf & lg & baseline & -> & Hbase%baseline_log & Hk).
  destruct (keeps_entries baseline mp) eqn:Ekeep; [|by apply runs_bail_ok in Hk].
  apply runs_okay_ok in Hk as [-> ->].
  apply (event_after_bind harmless) in Hr as (lh & there & l7 & -> & _ & Hh & Hr); [|through|done].
  destruct there; [cbn [negb] in Hr|by apply no_event_done in Hr].
  apply (single_event harmless (put_secret worker (value_text (JObj mp)) cwd)) in Hr as (-> & -> & Hl2);
    [|apply single_map; exact (single_ask (put_secret _ _ _))|intros; through|done].
  exists mp, baseline. split_and!; try done.
  - eapply read_map_sub; [|done]. intros ev. rewrite !elem_of_app. tauto.
  - eapply authorised_sub; [|done]. intros ev. rewrite !elem_of_app. tauto.
  - do 4 apply read_back_later. apply read_back_app; [done|]. rewrite app_nil_r.
    eapply Forall_impl; [exact Hh|]. intros [c' a'] E E'. simpl in *. unfold harmless in E. congruence.
  - rewrite !app_nil_r in *. by repeat apply Forall_app_2.
Qed.

(** ** Revocation *)

Definition undeployed (c : call) : Prop := effect_of c ≠ Deploys.

Lemma quiet_undeployed c : quiet c → undeployed c.
Proof. by intros [? _]. Qed.

(** The rollback file holds the baseline, written now or found. *)
Definition rollback_kept (m : Manifest) (baseline : fields) (log : list event) : Prop :=
  ∃ dir bytes, expand_path op (al_backup_dir (mf_anti_lockout m)) = Ok dir ∧
    map_of_text bytes = Some baseline ∧
    let p := rollback_path dir baseline in
    (did (ReadFile p) (Ok bytes) ∈ log ∨
     (did (CreateNew p) (Ok tt) ∈ log ∧ did (WriteAll p bytes) (Ok tt) ∈ log ∧ did (SyncAll p) (Ok tt) ∈ log)).

(** The operator's readback named the hash and the number of entries of a text. *)
Definition production_is (base text : string) (count : nat) (log : list event) : Prop :=
  ∃ operator a v, did (HttpGet (base +:+ "/admin/tokens/manifest") (Some operator)) (Some a) ∈ log ∧
    is_success a = true ∧ read_live_token_manifest a = Ok v ∧
    validate_live_token_manifest v (hex_bytes (sha256 text)) count = Ok tt.

(** Production was seen in a phase of the revocation. *)
Definition production_seen (m : Manifest) (baseline candidate : fields) (phase : RevocationPhase)
    (log : list event) : Prop :=
  ∃ u, url_parse (mf_cloud_base_url m) = Some u ∧ revocation_url_ok u = true ∧
    let base := trim_end_matches "/" (serialization u) in
    match phase with
    | BeforeUpload => ∃ text, map_of_text text = Some baseline ∧ production_is base text (length baseline) log
    | AfterUpload => production_is base (value_text (JObj candidate)) (length candidate) log ∧
        ∀ rv sel, mf_revocation m = Some rv → sel ∈ rv_retired rv →
          ∃ token a, did (HttpGet (base +:+ "/presence") (Some token)) (Some a) ∈ log ∧
            names baseline sel token ∧ ha_status a = 401%Z
    end.

Lemma rollback_kept_sub m b log log' : (∀ ev, ev ∈ log → ev ∈ log') →
  rollback_kept m b log → rollback_kept m b log'.
Proof. intros Hs (d & t & ? & ? & [?|(? & ? & ?)]); exists d, t; split_and!; auto 6. Qed.

Lemma production_is_sub base text count log log' : (∀ ev, ev ∈ log → ev ∈ log') →
  production_is base text count log → production_is base text count log'.
Proof. intros Hs (o & a & v & ? & ? & ? & ?). exists o, a, v. split_and!; auto. Qed.

Lemma production_seen_sub m b c phase log log' : (∀ ev, ev ∈ log → ev ∈ log') →
  production_seen m b c phase log → production_seen m b c phase log'.
Proof.
  intros Hs (u & ? & ? & Hp). exists u. split_and!; [done..|]. destruct phase.
  - destruct Hp as (t & ? & ?). exists t. split; [done|]. by eapply production_is_sub.
  - destruct Hp as [? Hr]. split; [by eapply production_is_sub|]. intros rv sel Hrv Hsel.
    destruct (Hr rv sel Hrv Hsel) as (t & a & ? & ? & ?). exists t, a. split_and!; auto.
Qed.

Lemma local_log e store client baseline active log :
  runs_as (local_unchanged e store client baseline active) log (Some (Ok tt)) →
  read_map store baseline log ∧ ∃ raw, did (ReadFile client) (Ok raw) ∈ log ∧ trim raw = active.
Proof.
  unfold local_unchanged. intros (l1 & l2 & now & -> & Hnow%token_map_log & Hr)%runs_cbind_ok.
  destruct (bool_decide (now = baseline)) eqn:Eb; [cbn [negb] in Hr|by apply runs_bail_ok in Hr].
  apply bool_decide_eq_true in Eb as ->.
  apply runs_cbind_ok in Hr as (l3 & l4 & raw & -> & ->%read_string_log & Hr).
  case_decide; [|by apply runs_bail_ok in Hr]. apply runs_okay_ok in Hr as [-> _]. split.
  - eapply read_map_sub; [|done]. intros ev ?. apply elem_of_app. by left.
  - exists raw. split; [|done]. apply elem_of_app. right. by left.
Qed.

Lemma rollback_log m baseline store client log :
  runs_as (preserve_revocation_rollback op m baseline store client) log (Some (Ok tt)) →
  rollback_kept m baseline log.
Proof.
  unfold preserve_revocation_rollback. intros (? & l1 & dir & -> & [-> Hd]%runs_lift_ok & Hr)%runs_cbind_ok.
  apply runs_cbind_ok in Hr as (? & l2 & ? & -> & [-> _]%runs_lift_ok & Hr).
  apply runs_cbind_ok in Hr as (k1 & l3 & ? & -> & _ & Hr).
  apply runs_cbind_ok in Hr as (k2 & l4 & ? & -> & [-> _]%runs_lift_ok & Hr).
  apply runs_cbind_ok in Hr as (k3 & l5 & ? & -> & [-> _]%runs_lift_ok & Hr).
  apply runs_cbind_ok in Hr as (k4 & l6 & bytes & -> & _ & Hr).
  apply runs_cbind_ok in Hr as (k5 & l7 & kept & -> & [-> Hm]%runs_lift_ok & Hr).
  destruct (map_of_text bytes) as [m'|] eqn:Em; [|done]. injection Hm as ->.
  destruct (bool_decide (kept = baseline)) eqn:Eb; [cbn [negb] in Hr|by apply runs_bail_ok in Hr].
  apply bool_decide_eq_true in Eb as ->.
  apply runs_cbind_ok in Hr as (k6 & l8 & ? & -> & _ & Hr).
  apply runs_pbind_ok in Hr as (k7 & l9 & there & -> & _ & Hr). exists dir, bytes. split_and!; [done..|].
  set (p := rollback_path dir baseline) in *. destruct there.
  - apply runs_cbind_ok in Hr as (? & l10 & ? & -> & _ & Hr).
    apply runs_cbind_ok in Hr as (k8 & l11 & kept & -> & ->%read_bytes_log & Hr).
    case_decide; [|by apply runs_bail_ok in Hr]. subst kept. left. rewrite !elem_of_app, elem_of_cons. tauto.
  - apply runs_cbind_ok in Hr as (k8 & l10 & [] & -> & Hc & Hr). unfold create_private_file in Hc.
    apply runs_cbind_ok in Hc as (? & k9 & ? & -> & _ & Hc%runs_io_ok).
    apply (runs_ask_ok (CreateNew p)) in Hc as ->.
    apply runs_cbind_ok in Hr as (k10 & k11 & [] & -> & Hw%runs_io_ok & Hr%runs_io_ok).
    apply (runs_ask_ok (WriteAll p bytes)) in Hw as ->. apply (runs_ask_ok (SyncAll p)) in Hr as ->.
    right. rewrite !elem_of_app, !elem_of_cons. tauto.
Qed.
End deploy.
