(* ===== verification/CloudTokenRevoke.v ===== *)
(** * CloudTokenRevoke: the order of a revocation, and what the command may change

    The deployed secret is replaced only after everything that could undo it is in place,
    and the local map only after production was seen to have the candidate. Of the whole
    command only an upload and a revocation replace the secret, after the same gates; a dry
    run changes nothing, unless it finds no manifest any more that was there when it
    looked. *)

From Stdlib Require Import ZArith Lia Ascii.
From stdpp Require Import base option list strings.
From S2P Require Import Prelude Str Json Validation ClaimTypes Outbox HubTypes Redis StreamEntry Programs.
From S2P Require Import CloudTokens CloudTokenFacts CloudTokenProps CloudTokenDeploy.

Section revoke.
Context (op : operator_env) `{JournalCodec} `{Chrono} `{TokenText} `{UrlLib}.

(** ** Production *)

Lemma each_present base lost refused want tokens log :
  runs_as (each (present base lost refused want) tokens tt) log (Some (Ok tt)) →
  ∀ t, t ∈ tokens → ∃ a, did (HttpGet (base +:+ "/presence") (Some t)) (Some a) ∈ log ∧ want a = true.
Proof.
  revert log. induction tokens as [|t tokens IH]; intros log; cbn [each]; [by intros _ t ?%elem_of_nil|].
  intros (l1 & l2 & [] & -> & Hp & Hr)%runs_cbind_ok t' [-> | Ht]%elem_of_cons.
  - unfold present in Hp. apply runs_cbind_ok in Hp as (l3 & l4 & a & -> & Ha%runs_some_ok & Hp).
    apply (runs_ask_ok (HttpGet (base +:+ "/presence") (Some t))) in Ha as ->.
    destruct (want a) eqn:E; [|by apply runs_bail_ok in Hp]. exists a. split; [|done].
    rewrite !elem_of_app, elem_of_cons. tauto.
  - destruct (IH _ Hr t' Ht) as (a & Ha & ?). exists a. split; [|done]. apply elem_of_app. by right.
Qed.

Lemma each_pairs baseline candidate sels : ∀ acc log r,
  runs_as (each (readback_pair op baseline candidate) sels acc) log (Some (Ok r)) →
  (∀ t, t ∈ acc.2 → t ∈ r.2) ∧ ∀ sel, sel ∈ sels → ∃ t, t ∈ r.2 ∧ names baseline sel t.
Proof.
  induction sels as [|sel sels IH]; intros acc log r; cbn [each].
  { intros [_ ->]%runs_okay_ok. split; [done|]. by intros s ?%elem_of_nil. }
  intros (l1 & l2 & acc' & -> & Hp & Hr)%runs_cbind_ok. apply IH in Hr as [Hkeep Hall].
  unfold readback_pair in Hp. apply runs_cbind_ok in Hp as (? & ? & proof & _ & _ & Hp).
  apply runs_cbind_ok in Hp as (? & ? & repl & _ & _ & Hp).
  apply runs_cbind_ok in Hp as (? & ? & ret & _ & [_ Hret]%runs_lift_ok & Hp).
  destruct (entry_of_hash (rt_token_sha256 sel) baseline) as [ret'|] eqn:Er; [|done]. injection Hret as ->.
  apply runs_okay_ok in Hp as [_ ->]. simpl in *. split.
  - intros t Ht. apply Hkeep, elem_of_app. by left.
  - intros s [-> | Hs]%elem_of_cons; [|by apply Hall]. exists ret.1. destruct ret as [t v]. split; [|by exists v].
    apply Hkeep, elem_of_app. right. by left.
Qed.

Lemma requests_log r log : runs_as (live_revocation_requests r) log (Some (Ok tt)) →
  (∃ a v, did (HttpGet (lr_base r +:+ "/admin/tokens/manifest") (Some (lr_operator r))) (Some a) ∈ log ∧
    is_success a = true ∧ read_live_token_manifest a = Ok v ∧
    validate_live_token_manifest v (lr_expected_hash r) (lr_count r) = Ok tt) ∧
  (lr_phase r = AfterUpload → ∀ t, t ∈ lr_retired r → ∃ a,
    did (HttpGet (lr_base r +:+ "/presence") (Some t)) (Some a) ∈ log ∧ ha_status a = 401%Z).
Proof.
  unfold live_revocation_requests. intros (l1 & l2 & [] & -> & _ & Hr)%runs_cbind_ok.
  apply runs_cbind_ok in Hr as (l3 & l4 & [] & -> & Hret & Hr).
  apply runs_cbind_ok in Hr as (l5 & l6 & a & -> & Ha%runs_some_ok & Hr).
  apply (runs_ask_ok (HttpGet (lr_base r +:+ "/admin/tokens/manifest") (Some (lr_operator r)))) in Ha as ->.
  destruct (is_success a) eqn:Es; [cbn [negb] in Hr|by apply runs_bail_ok in Hr].
  apply runs_cbind_ok in Hr as (l7 & l8 & v & -> & [-> Hv]%runs_lift_ok & [-> Hval]%runs_lift_ok). split.
  - exists a, v. split_and!; try done. rewrite !elem_of_app, elem_of_cons. tauto.
  - intros E t Ht. rewrite decide_True in Hret by done.
    destruct (each_present _ _ _ _ _ _ Hret t Ht) as (a' & Ha' & Hw). exists a'.
    split; [rewrite !elem_of_app; tauto|by apply Z.eqb_eq].
Qed.

Lemma live_log m baseline candidate phase log :
  runs_as (verify_live_revocation op m baseline candidate phase) log (Some (Ok tt)) →
  production_seen m baseline candidate phase log.
Proof.
  unfold verify_live_revocation. intros (? & l1 & u & -> & [-> Hu]%runs_lift_ok & Hr)%runs_cbind_ok.
  destruct (url_parse _) as [u'|] eqn:Eu; [|done]. injection Hu as ->.
  destruct (revocation_url_ok u) eqn:Eok; [cbn [negb] in Hr|by apply runs_bail_ok in Hr].
  apply runs_cbind_ok in Hr as (? & l2 & auth & -> & [-> _]%runs_lift_ok & Hr).
  apply runs_cbind_ok in Hr as (l3 & l4 & bytes & -> & Hb & Hr).
  apply runs_cbind_ok in Hr as (? & l5 & oper & -> & [-> _]%runs_lift_ok & Hr).
  apply runs_cbind_ok in Hr as (? & l6 & rv & -> & [-> Hrv]%runs_lift_ok & Hr).
  destruct (mf_revocation m) as [rv'|] eqn:Erv; [|done]. injection Hrv as ->.
  apply runs_cbind_ok in Hr as (l7 & l8 & pairs & -> & Hpairs & Hr).
  apply requests_log in Hr as [(a & v & Ha & Hs & Hv & Hval) Hret]. cbn [lr_base lr_operator] in Ha.
  exists u. split_and!; [done..|]. destruct phase.
  - rewrite decide_True in Hb by done. apply runs_cbind_ok in Hb as (? & k1 & p & -> & _ & Hb).
    apply runs_cbind_ok in Hb as (k2 & k3 & text & -> & _ & Hb).
    apply runs_cbind_ok in Hb as (? & k4 & captured & -> & [-> Hc]%runs_lift_ok & Hb).
    destruct (decide (captured = baseline)) as [-> |]; [|by apply runs_bail_ok in Hb].
    apply runs_okay_ok in Hb as [-> ->].
    exists text. split; [by destruct (map_of_text text); simplify_eq/=|].
    exists oper.1, a, v. split_and!; try done. rewrite !elem_of_app. tauto.
  - rewrite decide_False in Hb by done. apply runs_okay_ok in Hb as [-> ->]. split.
    + exists oper.1, a, v. split_and!; try done. rewrite !elem_of_app. tauto.
    + intros rv' sel E Hsel. rewrite Erv in E. injection E as <-. apply each_pairs in Hpairs as [_ Hpairs].
      destruct (Hpairs sel Hsel) as (t & Ht & Eh). destruct (Hret eq_refl t Ht) as (a' & Ha' & ?).
      exists t, a'. split_and!; try done. cbn [lr_base] in Ha'. rewrite !elem_of_app. tauto.
Qed.

(** ** The recovery copy *)

Lemma move_log m store client baseline candidate log :
  runs_as (move_recovery op m store client baseline candidate) log (Some (Ok tt)) →
  rollback_kept op m baseline log ∧ read_back (mf_item_name m) candidate log.
Proof.
  unfold move_recovery. intros (l1 & l2 & ? & -> & _ & Hr)%runs_cbind_ok.
  apply runs_cbind_ok in Hr as (l3 & l4 & item & -> & _ & Hr).
  apply runs_cbind_ok in Hr as (? & l5 & rec & -> & [-> _]%runs_lift_ok & Hr).
  destruct (negb _); [by apply runs_bail_ok in Hr|].
  apply runs_cbind_ok in Hr as (? & l6 & id & -> & [-> _]%runs_lift_ok & Hr).
  destruct (is_empty id); [by apply runs_bail_ok in Hr|].
  apply runs_cbind_ok in Hr as (l7 & l8 & [] & -> & Hroll%rollback_log & Hr). cbv zeta in Hr.
  apply runs_cbind_ok in Hr as (l9 & l10 & ? & -> & _ & Hr).
  apply runs_cbind_ok in Hr as (l11 & l12 & ? & -> & _ & Hr%runs_context_ok%verify_recovery_log). split.
  - eapply rollback_kept_sub; [|done]. intros ev. rewrite !elem_of_app. tauto.
  - by repeat apply read_back_later.
Qed.

(** Neither the deployed secret nor the lock is touched. *)
Definition mild (c : call) : Prop := effect_of c ≠ Deploys ∧ effect_of c ≠ Locks.

Lemma mild_undeployed log : all_calls mild log → all_calls undeployed log.
Proof. intros Hm. eapply Forall_impl; [exact Hm|]. by intros ev [? _]. Qed.

Lemma mild_unlocking store log : all_calls mild log → all_calls (λ c, c ≠ Unlock (lock_path store)) log.
Proof. intros Hm. eapply Forall_impl; [exact Hm|]. by intros ev [_ Hn] E; rewrite E in Hn. Qed.

Lemma move_mild m store client baseline candidate :
  calls mild (move_recovery op m store client baseline candidate).
Proof.
  unfold move_recovery, preserve_revocation_rollback, create_private_file. through.
Qed.

(** ** The replacement *)

(** The client file was read, and it is this client's. *)
Definition reads_client (client : fpath) (active : string) (log : list event) : Prop :=
  ∃ raw, did (ReadFile client) (Ok raw) ∈ log ∧ trim raw = active.

(** What a revocation has established when it replaces the deployed secret. *)
Record revocation_ready (m : Manifest) (store client : fpath) (baseline candidate : fields)
    (active : string) (log : list event) : Prop := {
  rr_lock : holds_lock store log;
  rr_local : read_map store baseline log;
  rr_client : reads_client client active log;
  rr_rollback : rollback_kept op m baseline log;
  rr_recovery : read_back (mf_item_name m) candidate log;
  rr_production : production_seen m baseline candidate BeforeUpload log;
}.

Hint Resolve move_mild : tokens.

Lemma mild_write p text : calls mild (write_secret_file p text).
Proof. unfold write_secret_file, create_parent, create_private_file, fill_and_publish. through. Qed.

Hint Resolve mild_write : tokens.

Lemma revoke_body_ready m store client cwd baseline candidate active l0 l1 c a l2 r :
  effect_of c = Deploys → holds_lock store l0 →
  runs_as (revoke_locked op m store client cwd baseline candidate active) (l1 ++ did c a :: l2) r →
  c = put_secret (default_worker m) (value_text (JObj candidate)) cwd ∧
  revocation_ready m store client baseline candidate active (l0 ++ l1) ∧
  all_calls mild l1 ∧ all_calls mild l2.
Proof.
  intros Ec Hlock Hr. assert (¬ mild c) as Hc by (intros [Hc _]; by apply Hc).
  unfold revoke_locked in Hr.
  peel mild Hr la u1 H1' Ha. peel mild Hr lb u2 H2' Hb. peel mild Hr lc u3 H3' Hc'.
  peel mild Hr ld u4 H4' Hd. peel mild Hr le u5 H5' He. peel mild Hr lf u6 H6' Hf.
  destruct u1, u2, u4, u6.
  apply (single_event mild (put_secret (default_worker m) (value_text (JObj candidate)) cwd))
    in Hr as (-> & -> & Hl2);
    [|do 2 apply single_map; exact (single_ask (put_secret _ _ _))|intros; through|done].
  pose proof (calls_local _ _ _ _ _ _ _ H6') as Hf'. apply local_log in H6' as [Hlocal (raw & Hraw & Etrim)].
  apply move_log in H2' as [Hroll Hback]. pose proof (calls_live _ _ _ _ _ _ _ H4') as Hd'.
  apply live_log in H4'. apply (calls_lease op) in H3', H5'.
  assert (∀ log, all_calls harmless log → all_calls (λ c, effect_of c ≠ Recovery) log) as Hsafe.
  { intros log Hlog. eapply Forall_impl; [exact Hlog|]. intros ev E. by rewrite E. }
  assert (all_calls mild (la ++ lb ++ lc ++ ld ++ le ++ lf ++ [])) as Hall.
  { rewrite app_nil_r. by repeat apply Forall_app_2. }
  split; [done|]. split; [split|by split].
  - apply holds_lock_app; [done|by apply mild_unlocking].
  - eapply read_map_sub; [|done]. intros ev. rewrite !elem_of_app. tauto.
  - exists raw. rewrite !elem_of_app. tauto.
  - eapply rollback_kept_sub; [|done]. intros ev. rewrite !elem_of_app. tauto.
  - do 2 apply read_back_later. apply read_back_app; [done|]. rewrite app_nil_r.
    by repeat (apply Forall_app_2; [by apply Hsafe|]); apply Hsafe.
  - eapply production_seen_sub; [|done]. intros ev. rewrite !elem_of_app. tauto.
Qed.

Lemma ready_later m store client baseline candidate active log log' :
  revocation_ready m store client baseline candidate active log →
  revocation_ready m store client baseline candidate active (log' ++ log).
Proof.
  assert (∀ ev, ev ∈ log → ev ∈ log' ++ log) as Hsub by (intros ev ?; apply elem_of_app; by right).
  intros [(l & l' & -> & Hl) ? (raw & ? & ?) ? ? ?]. split.
  - exists (log' ++ l), l'. by rewrite <- app_assoc.
  - by eapply read_map_sub.
  - exists raw. by auto.
  - by eapply rollback_kept_sub.
  - by apply read_back_later.
  - by eapply production_seen_sub.
Qed.

Lemma authority_log m candidate active baseline log :
  runs_as (require_revocation_authority op m candidate active) log (Some (Ok baseline)) →
  authorised op m baseline candidate log.
Proof.
  unfold require_revocation_authority. intros (l1 & l2 & b & -> & Hb%baseline_log & Hr)%runs_cbind_ok.
  apply runs_cbind_ok in Hr as (l3 & l4 & ? & -> & _ & [_ ->]%runs_okay_ok).
  eapply authorised_sub; [|done]. intros ev ?. apply elem_of_app. by left.
Qed.

(** The deployed secret is replaced by a revocation only like this, whatever files,
    tools and cloud answer: the run is no dry run and holds the lock; the map it uploads is
    the authoritative baseline without exactly the selected tokens, keeps the active
    client, an operator and a hub; the local map was that baseline and the client file that
    client; the baseline is kept for a rollback; the recovery copy was read back and holds
    the candidate; production was seen to have the baseline. It is replaced once at most. *)
Lemma revoke_gated manifest root dry_run l1 c a l2 r :
  runs_as (cmd_revoke op manifest root dry_run) (l1 ++ did c a :: l2) r → effect_of c = Deploys →
  dry_run = false ∧ ∃ m store client baseline candidate active,
    manifest_in manifest l1 = Some m ∧
    c = put_secret (default_worker m) (value_text (JObj candidate)) (worker_dir root) ∧
    expand_path op (so_tokens_map_path (mf_storage m)) = Ok store ∧
    expand_path op (so_client_token_path (mf_storage m)) = Ok client ∧
    retires m baseline active candidate ∧ authorised op m baseline candidate l1 ∧
    revocation_ready m store client baseline candidate active l1 ∧
    all_calls undeployed l1 ∧ all_calls undeployed l2.
Proof.
  intros Hr Ec. assert (¬ undeployed c) as Hc by (intros Hc; by apply Hc).
  unfold cmd_revoke, cmd_revoke_with_onsite in Hr. peel undeployed Hr l3 m H1' N1.
  peel undeployed Hr l4 u1 H2' N2. destruct (_ || _); [by apply no_event_done in Hr|].
  peel undeployed Hr l5 store H3' N3. peel undeployed Hr l6 client H4' N4.
  peel undeployed Hr l7 raw H5' N5. peel undeployed Hr l8 original H6' N6.
  peel undeployed Hr l9 candidate H7' N7. peel undeployed Hr l10 baseline H8' N8.
  destruct (bool_decide (original = baseline)) eqn:Eb; [cbn [negb] in Hr|by apply no_event_done in Hr].
  apply bool_decide_eq_true in Eb as ->.
  destruct (valid_worker _); [cbn [negb] in Hr|by apply no_event_done in Hr].
  apply (event_after_bind undeployed) in Hr as (l11 & there & l11' & -> & _ & N11 & Hr); [|through|done].
  destruct there; [cbn [negb] in Hr|by apply no_event_done in Hr].
  destruct dry_run; [by apply no_event_done in Hr|].
  peel undeployed Hr l12 fp H9' N12. peel undeployed Hr l13 u2 H10' N13. peel undeployed Hr l14 u3 H11' N14.
  apply (locked_event undeployed) in Hr as (lk & l15 & l2' & l16 & r' & -> & -> & Hlock & Nk & Nu & Hr);
    [|done|apply quiet_undeployed].
  destruct (revoke_body_ready _ _ _ _ _ _ _ lk _ _ _ _ _ Ec Hlock Hr) as (-> & Hready & M1 & M2).
  apply runs_lift_ok in H3' as [_ H3'], H4' as [_ H4']. apply candidate_retires in H7'.
  apply authority_log in H8'.
  split; [done|]. exists m, store, client, baseline, candidate, (trim raw). split_and!; try done.
  - by apply load_manifest_in.
  - eapply authorised_sub; [|done]. intros ev. rewrite !elem_of_app. tauto.
  - by do 12 apply ready_later.
  - apply mild_undeployed in M1. by repeat apply Forall_app_2.
  - apply mild_undeployed in M2. by apply Forall_app_2.
Qed.

(** ** Publishing *)

Lemma move_unrenamed m store client baseline candidate :
  calls unrenamed (move_recovery op m store client baseline candidate).
Proof. unfold move_recovery, preserve_revocation_rollback, create_private_file. through. Qed.

Hint Resolve move_unrenamed : tokens.

Lemma revoke_body_publishes m store client cwd baseline candidate active staged log r :
  runs_as (revoke_locked op m store client cwd baseline candidate active) log r →
  (publishes staged log = [] ∧ r ≠ Some (Ok tt)) ∨
  publishes staged log = [(store, ended (value_pretty (JObj candidate)))] ∧
  ∃ l1 out l2,
    log = l1 ++ did (put_secret (default_worker m) (value_text (JObj candidate)) cwd) (Some out) :: l2 ∧
    production_seen m baseline candidate AfterUpload l2.
Proof.
  intros Hr. unfold revoke_locked in Hr.
  pass Hr staged. destruct Hr as [[E Hn]|(l1 & ? & k1 & -> & _ & Hr & ->)]; [by left|].
  generalize (staged_after staged l1). intros s1. pass Hr s1.
  destruct Hr as [[E Hn]|(l2 & ? & k2 & -> & _ & Hr & ->)]; [by left|].
  generalize (staged_after s1 l2). intros s2. pass Hr s2.
  destruct Hr as [[E Hn]|(l3 & ? & k3 & -> & _ & Hr & ->)]; [by left|].
  generalize (staged_after s2 l3). intros s3. pass Hr s3.
  destruct Hr as [[E Hn]|(l4 & ? & k4 & -> & _ & Hr & ->)]; [by left|].
  generalize (staged_after s3 l4). intros s4. pass Hr s4.
  destruct Hr as [[E Hn]|(l5 & ? & k5 & -> & _ & Hr & ->)]; [by left|].
  generalize (staged_after s4 l5). intros s5. pass Hr s5.
  destruct Hr as [[E Hn]|(l6 & ? & k6 & -> & _ & Hr & ->)]; [by left|].
  generalize (staged_after s5 l6). intros s6. pass Hr s6.
  destruct Hr as [[E Hn]|(l7 & out & k7 & -> & Hput & Hr & ->)]; [by left|].
  generalize (staged_after s6 l7). intros s7. pass Hr s7.
  destruct Hr as [[E Hn]|(l8 & ? & k8 & -> & _ & Hr & ->)]; [by left|].
  generalize (staged_after s7 l8). intros s8. pass Hr s8.
  destruct Hr as [[E Hn]|(l9 & [] & k9 & -> & Hlive & Hr & ->)]; [by left|].
  generalize (staged_after s8 l9). intros s9. pass Hr s9.
  destruct Hr as [[E Hn]|(l10 & ? & k10 & -> & _ & Hr & ->)]; [by left|].
  generalize (staged_after s9 l10). intros s10. cbv beta in Hr.
  apply runs_context_ok, runs_some_ok, (runs_ask_ok (put_secret _ _ _)) in Hput as ->.
  apply runs_context_ok, live_log in Hlive.
  enough ((publishes s10 k10 = [] ∧ r ≠ Some (Ok tt)) ∨
    publishes s10 k10 = [(store, ended (value_pretty (JObj candidate)))]) as [?|E]; [by left|right|].
  { split; [done|]. exists (l1 ++ l2 ++ l3 ++ l4 ++ l5 ++ l6), out, (l8 ++ l9 ++ l10 ++ k10).
    split; [by rewrite <- !app_assoc|]. eapply production_seen_sub; [|done].
    intros ev. rewrite !elem_of_app. tauto. }
  apply runs_cbind_inv in Hr as [(r' & Hw & Hn & Hr)|(lw & ll & [] & -> & Hw & Hr)].
  - apply runs_context in Hw as (r2 & Hw & _).
    destruct (write_publishes _ _ s10 _ _ Hw) as [[? _]|?]; [left|by right]. split; [done|apply Hr].
  - apply runs_context_ok in Hw. rewrite publishes_app.
    assert (calls unrenamed (context "local map was published but mutation lease expired; reconcile before retry"
      (require_revocation_lease op m 1))) as Hc by through.
    rewrite (publishes_none ll), app_nil_r by by eapply Hc.
    destruct (write_publishes _ _ s10 _ _ Hw) as [[_ []]|?]; [done|by right].
Qed.

Ltac stop :=
  left; split; [done|intros Er];
  first [ done
        | match goal with Hn : ∀ b, _ ≠ Some (Ok b) |- _ => by destruct (Hn tt) end
        | naive_solver ].

(** C18. A revocation publishes one file, once: the candidate over the local map; and only
    after the deployed secret was replaced by it and production was seen since to have it
    and to reject the token of every selection of the manifest the run read. The candidate
    is the local map, which is the authoritative baseline, without exactly the selected
    tokens. A run that succeeds, other than a dry run, has published it. *)
Theorem revoke_publishes manifest root dry_run log r :
  runs_as (cmd_revoke op manifest root dry_run) log r →
  (published log = [] ∧ (r = Some (Ok tt) → dry_run = true)) ∨
  dry_run = false ∧ ∃ m store client baseline candidate active l1 out l2,
    manifest_in manifest log = Some m ∧
    expand_path op (so_tokens_map_path (mf_storage m)) = Ok store ∧
    expand_path op (so_client_token_path (mf_storage m)) = Ok client ∧
    read_map store baseline l1 ∧ authorised op m baseline candidate l1 ∧ reads_client client active l1 ∧
    retires m baseline active candidate ∧
    published log = [(store, ended (value_pretty (JObj candidate)))] ∧
    log = l1 ++ did (put_secret (default_worker m) (value_text (JObj candidate)) (worker_dir root)) (Some out) :: l2 ∧
    production_seen m baseline candidate AfterUpload l2.
Proof.
  intros Hr. unfold published. unfold cmd_revoke, cmd_revoke_with_onsite in Hr.
  generalize ([] : list (fpath * string)) at 1 3. intros s0.
  pass Hr s0. destruct Hr as [[E Hn]|(l1 & m & k1 & -> & Hman & Hr & ->)]; [stop|].
  generalize (staged_after s0 l1). intros s1.
  pass Hr s1. destruct Hr as [[E Hn]|(l2 & ? & k2 & -> & _ & Hr & ->)]; [stop|].
  generalize (staged_after s1 l2). intros s2.
  destruct (_ || _); [apply runs_done in Hr as [-> Hr]; stop|].
  pass Hr s2. destruct Hr as [[E Hn]|(l3 & store & k3 & -> & H3' & Hr & ->)]; [stop|].
  generalize (staged_after s2 l3). intros s3.
  pass Hr s3. destruct Hr as [[E Hn]|(l4 & client & k4 & -> & H4' & Hr & ->)]; [stop|].
  generalize (staged_after s3 l4). intros s4.
  pass Hr s4. destruct Hr as [[E Hn]|(l5 & raw & k5 & -> & H5' & Hr & ->)]; [stop|].
  generalize (staged_after s4 l5). intros s5.
  pass Hr s5. destruct Hr as [[E Hn]|(l6 & original & k6 & -> & H6' & Hr & ->)]; [stop|].
  generalize (staged_after s5 l6). intros s6.
  pass Hr s6. destruct Hr as [[E Hn]|(l7 & candidate & k7 & -> & H7' & Hr & ->)]; [stop|].
  generalize (staged_after s6 l7). intros s7.
  pass Hr s7. destruct Hr as [[E Hn]|(l8 & baseline & k8 & -> & H8' & Hr & ->)]; [stop|].
  generalize (staged_after s7 l8). intros s8.
  destruct (bool_decide (original = baseline)) eqn:Eb; cbn [negb] in Hr;
    [|apply runs_done in Hr as [-> Hr]; stop]. apply bool_decide_eq_true in Eb as ->.
  destruct (valid_worker _); cbn [negb] in Hr; [|apply runs_done in Hr as [-> Hr]; stop].
  pass Hr s8. destruct Hr as [[E ->]|(l9 & there & k9 & -> & _ & Hr & ->)]; [stop|].
  generalize (staged_after s8 l9). intros s9.
  destruct there; cbn [negb] in Hr; [|apply runs_done in Hr as [-> Hr]; stop].
  destruct dry_run; [apply runs_done in Hr as [-> Hr]; stop|].
  pass Hr s9. destruct Hr as [[E Hn]|(l10 & ? & k10 & -> & _ & Hr & ->)]; [stop|].
  generalize (staged_after s9 l10). intros s10.
  pass Hr s10. destruct Hr as [[E Hn]|(l11 & ? & k11 & -> & _ & Hr & ->)]; [stop|].
  generalize (staged_after s10 l11). intros s11.
  pass Hr s11. destruct Hr as [[E Hn]|(l12 & ? & k12 & -> & _ & Hr & ->)]; [stop|].
  generalize (staged_after s11 l12). intros s12.
  apply runs_lift_ok in H3' as [-> H3'], H4' as [-> H4']. apply candidate_retires in H7'.
  apply token_map_log in H6'. apply authority_log in H8'. apply read_string_log in H5' as ->.
  destruct (locked_publishes _ _ s12 _ _ Hr) as [[E Hn]|(lk & lb & lu & r' & -> & Hbody & -> & Hok)]; [stop|].
  destruct (revoke_body_publishes _ _ _ _ _ _ _ (staged_after s12 lk) _ _ Hbody)
    as [[-> Hn]|(-> & p1 & out & p2 & -> & Hseen)].
  { left. split; [done|]. intros E. by apply Hok in E. }
  right. split; [done|]. exists m, store, client, baseline, candidate, (trim raw),
    (l1 ++ l2 ++ [] ++ [] ++ [did (ReadFile client) (Ok raw)] ++ l6 ++ l7 ++ l8 ++ l9 ++ l10 ++ l11 ++ l12 ++ lk ++ p1), out, (p2 ++ lu).
  split_and!; [by apply load_manifest_in|done|done| | | |done|done| |].
  - eapply read_map_sub; [|done]. intros ev. rewrite !elem_of_app. tauto.
  - eapply authorised_sub; [|done]. intros ev. rewrite !elem_of_app. tauto.
  - exists raw. split; [|done]. rewrite !elem_of_app, list_elem_of_singleton. tauto.
  - by rewrite <- !app_assoc.
  - eapply production_seen_sub; [|done]. intros ev. rewrite !elem_of_app. tauto.
Qed.
End revoke.

Section command.
Context (op : operator_env) `{JournalCodec} `{Chrono} `{TokenText} `{UrlLib}.

(** ** Deploying *)

Lemma calls_undeployed {A} (m : prog A) : calls quiet m → calls undeployed m.
Proof. apply calls_mono, quiet_undeployed. Qed.

Lemma upsert_undeployed manifest example dry_run : calls undeployed (cmd_bw_upsert op manifest example dry_run).
Proof.
  unfold cmd_bw_upsert, locked. through.
  - apply calls_undeployed. through.
  - unfold create_parent. through.
  - apply (calls_ask undeployed (Invoke _ _ _ _)). by destruct (_ ≫= _).
Qed.

(** What an upload has established when it replaces the deployed secret. *)
Definition upload_ready (m : Manifest) (store : fpath) (baseline candidate : fields) (log : list event) : Prop :=
  read_map store candidate log ∧ keeps_entries baseline candidate = true.

Lemma upload_gated manifest example root dry_run l1 c a l2 r :
  runs_as (cmd_upload op manifest example root dry_run) (l1 ++ did c a :: l2) r → effect_of c = Deploys →
  dry_run = false ∧ ∃ m store baseline candidate,
    manifest_in manifest l1 = Some m ∧
    c = put_secret (default_worker m) (value_text (JObj candidate)) (worker_dir root) ∧
    expand_path op (so_tokens_map_path (mf_storage m)) = Ok store ∧ holds_lock store l1 ∧
    authorised op m baseline candidate l1 ∧ read_back (mf_item_name m) candidate l1 ∧
    upload_ready m store baseline candidate l1 ∧ all_calls undeployed l1 ∧ all_calls undeployed l2.
Proof.
  intros Hr Ec. assert (¬ quiet c) as Hc by (intros [Hc _]; by apply Hc).
  destruct dry_run.
  { exfalso. eapply (no_event_calls quiet); [|exact Hc|exact Hr]. unfold cmd_upload, locked. through. }
  split; [done|]. unfold cmd_upload in Hr. peel quiet Hr la m Hm Ha.
  destruct (al_require_bw_item_before_wrangler_put _); cbn [negb] in Hr; [|by apply no_event_done in Hr].
  peel quiet Hr lb store Hs Hb. apply runs_lift_ok in Hs as [-> Hs].
  apply (locked_event quiet) in Hr as (lk & lc & ld & le & r' & -> & -> & Hlock & Hk & He & Hr); [|done|done].
  apply upload_body in Hr as (map & baseline & -> & Hmap & Hauth & Hkeep & Hback & Hc1 & Hc2);
    [|intros Hn; by apply Hc, harmless_quiet].
  assert (∀ ev, ev ∈ lc → ev ∈ la ++ [] ++ lk ++ lc) as Hsub by (intros ev; rewrite !elem_of_app; tauto).
  assert (∀ l, all_calls quiet l → all_calls undeployed l) as Hq.
  { intros l Hl. eapply Forall_impl; [exact Hl|]. intros ev. apply quiet_undeployed. }
  assert (∀ l, all_calls harmless l → all_calls undeployed l) as Hh.
  { intros l Hl. apply Hq. eapply Forall_impl; [exact Hl|]. intros ev. apply harmless_quiet. }
  exists m, store, baseline, map. rewrite !Forall_app. split_and!; try done; auto.
  - by eapply ensure_manifest_in.
  - apply holds_lock_later, holds_lock_later, holds_lock_app; [done|].
    eapply Forall_impl; [exact Hc1|]. intros [c' a'] Hl E. simpl in *. by rewrite E in Hl.
  - by eapply authorised_sub.
  - by do 3 apply read_back_later.
  - split; [by eapply read_map_sub|done].
Qed.

Definition manifest_path (manifest : option fpath) : result string fpath :=
  match manifest with Some p => Ok p | None => default_manifest_path op end.

(** C17. The command replaces the deployed secret at most once, and only for an upload or a
    revocation that is no dry run. Then it holds the lock of the map, and what it uploads
    is a map that the recovery copy was read back to hold, with the hashes that the
    evidence of the manifest, as the run read it, names for it and for the stored baseline.
    An upload's is the local map, with
    every entry of the baseline; a revocation's the baseline without exactly the selected
    tokens, after the baseline was kept and production seen to have it. *)
Theorem deploys_gated action manifest example root dry_run l1 c a l2 r :
  runs_as (run_cloud_tokens op action manifest example root dry_run) (l1 ++ did c a :: l2) r →
  effect_of c = Deploys →
  dry_run = false ∧ ∃ path m store baseline candidate,
    manifest_path manifest = Ok path ∧ manifest_in path l1 = Some m ∧
    c = put_secret (default_worker m) (value_text (JObj candidate)) (worker_dir root) ∧
    expand_path op (so_tokens_map_path (mf_storage m)) = Ok store ∧ holds_lock store l1 ∧
    authorised op m baseline candidate l1 ∧ read_back (mf_item_name m) candidate l1 ∧
    all_calls undeployed l1 ∧ all_calls undeployed l2 ∧
    ((action = WranglerPut ∧ upload_ready m store baseline candidate l1) ∨
     (action = Revoke ∧ ∃ client active, expand_path op (so_client_token_path (mf_storage m)) = Ok client ∧
        retires m baseline active candidate ∧
        revocation_ready op m store client baseline candidate active l1)).
Proof.
  intros Hr Ec. assert (¬ undeployed c) as Hc by (intros Hn; by apply Hn).
  unfold run_cloud_tokens in Hr. peel undeployed Hr lp mp Hm Hno. apply runs_lift_ok in Hm as [-> Hm].
  rewrite app_nil_l. destruct (_ && _).
  { exfalso. eapply (no_event_calls undeployed); [|exact Hc|exact Hr]. apply calls_undeployed. through. }
  destruct action; try (exfalso; eapply (no_event_calls undeployed); [|exact Hc|exact Hr];
    solve [ apply upsert_undeployed
          | apply calls_undeployed; unfold cmd_init_manifest, cmd_mint; through ]).
  - apply upload_gated in Hr as (-> & m & store & baseline & candidate & Hr); [|done]. split; [done|].
    exists mp, m, store, baseline, candidate. split_and!; try apply Hr; [done|]. left.
    split; [done|apply Hr].
  - apply revoke_gated in Hr as (-> & m & store & client & baseline & candidate & active & Hr); [|done].
    split; [done|]. exists mp, m, store, baseline, candidate.
    destruct Hr as (? & ? & ? & ? & ? & ? & Hready & ? & ?).
    split_and!; try done; [apply Hready|apply Hready|]. right. split; [done|]. by exists client, active.
Qed.

(** ** Dry runs *)

(** A call that only looks, or is part of making the manifest from the example. *)
Definition initialises (manifest example : fpath) (c : call) : Prop :=
  harmless c ∨ c = CopyFile example manifest ∨ ∃ dir, parent manifest = Some dir ∧ c = CreateDirAll dir.

Lemma ensure_initialises manifest example : calls (initialises manifest example) (ensure_manifest manifest example).
Proof.
  unfold ensure_manifest, create_parent. destruct (parent manifest) as [dir|] eqn:E; through.
  all: try (apply (calls_ask _ (CreateDirAll dir)); right; right; by exists dir).
  all: try (apply (calls_ask _ (CopyFile _ _)); right; by left).
  all: apply (calls_ask _ (IsFile _)); by left.
Qed.

Hint Resolve ensure_initialises : tokens.

Lemma action_initialises manifest example :
  calls (initialises manifest example) (action_manifest manifest example true).
Proof.
  unfold action_manifest. through. all: apply (calls_ask _ (IsFile _)); by left.
Qed.

Hint Resolve action_initialises : tokens.

Lemma dry_revoke_looks manifest root : calls harmless (cmd_revoke op manifest root true).
Proof. unfold cmd_revoke, cmd_revoke_with_onsite. through. Qed.

(** The manifest was there when first looked for, and missing when it was to be read. *)
Definition vanished (path : fpath) (log : list event) : Prop :=
  ∃ l, log = did (IsFile path) true :: did (IsFile path) false :: l.

Lemma action_vanishes path example l1 c a l2 r :
  runs_as (action_manifest path example true) (l1 ++ did c a :: l2) r → ¬ harmless c →
  vanished path l1 ∧ (c = CopyFile example path ∨ ∃ dir, parent path = Some dir ∧ c = CreateDirAll dir).
Proof.
  intros Hr Hc. split.
  2: { apply action_initialises, Forall_app in Hr as [_ Hr]. inversion Hr as [|? ? Hi _]; subst.
       destruct Hi as [?|Hi]; [done|exact Hi]. }
  unfold action_manifest in Hr. unfold ask in Hr. cbn [pbind] in Hr.
  apply runs_ask_inv in Hr as [[E _]|(there & l & E & Hr)]; [by destruct l1|].
  destruct l1 as [|ev l1]; simplify_eq/=; [by destruct Hc|].
  destruct there.
  2: { exfalso. eapply (no_event_calls harmless); [|exact Hc|exact Hr]. through. }
  unfold ensure_manifest, ask in Hr. cbn [pbind] in Hr.
  apply runs_ask_inv in Hr as [[E _]|(there & l & E & Hr)]; [by destruct l1|].
  destruct l1 as [|ev l1]; simplify_eq/=; [by destruct Hc|]. destruct there; [|by exists l1].
  exfalso. eapply (no_event_calls harmless); [|exact Hc|exact Hr]. through.
Qed.

(** C21. A dry run only looks, whatever the action and the answers, with one exception: when
    the manifest was there as it was first looked for and is missing right after, the run
    makes it from the example, as any run would. A dry run of a revocation only looks. *)
Theorem dry_run_looks action manifest example root l1 c a l2 r :
  runs_as (run_cloud_tokens op action manifest example root true) (l1 ++ did c a :: l2) r →
  harmless c ∨
  (action ≠ Revoke ∧ ∃ path, manifest_path manifest = Ok path ∧ vanished path l1 ∧
     (c = CopyFile (from_option (λ p, p) (default_example_path root) example) path ∨
      ∃ dir, parent path = Some dir ∧ c = CreateDirAll dir)).
Proof.
  intros Hr. destruct (decide (harmless c)) as [|Hc]; [by left|right].
  unfold run_cloud_tokens in Hr. fold (manifest_path manifest) in Hr.
  destruct (manifest_path manifest) as [path|e]; cbn [cbind lift pbind] in Hr;
    [|by apply no_event_done in Hr].
  generalize dependent (from_option (λ p, p) (default_example_path root) example). intros ex Hr.
  assert (action ≠ Revoke) as Hn.
  { intros ->. eapply (no_event_calls harmless); [apply dry_revoke_looks|exact Hc|exact Hr]. }
  split; [done|]. exists path. split; [done|].
  assert (∃ l2' r', runs_as (action_manifest path ex true) (l1 ++ did c a :: l2') r') as (l2' & r' & Ha);
    [|by eapply action_vanishes].
  destruct action; cbn [andb] in Hr; try done;
    refine (event_before harmless _ _ _ _ _ _ _ _ Hc Hr); intros [m|e]; try apply calls_done.
  all: unfold locked, backup_map; cbv iota; through.
Qed.
End command.
