(* ===== verification/CloudTokenMint.v ===== *)
(** * CloudTokenMint: minting keeps every credential

    What a run of minting or of a rotation publishes, and what is in the new map: every
    entry of the old one, and a token for each identity of the roster. *)

From Stdlib Require Import ZArith Lia Ascii.
From stdpp Require Import base option list strings.
From S2P Require Import Prelude Str Json Validation ClaimTypes Outbox HubTypes Redis StreamEntry Programs.
From S2P Require Import CloudTokens CloudTokenFacts CloudTokenProps CloudTokenDeploy.

(** ** Identities *)

Lemma meta_roundtrip m : meta_of_value (meta_value m) = Some m.
Proof. by destruct m as [agent role [host|] [hub|]]. Qed.

Definition identity_meta (i : Identity) : TokenMeta :=
  mkTokenMeta (it_agent i) (it_role i) (it_host i) (it_hub i).

Lemma identifies_own i : identifies i (meta_value (identity_meta i)) = true.
Proof.
  unfold identifies. rewrite meta_roundtrip. unfold identity_matches, identity_meta. simpl.
  by rewrite !bool_decide_eq_true_2.
Qed.

Lemma elem_insert_absent k v (m : fields) kv : contains_key m k = false → kv ∈ m → kv ∈ insert k v m.
Proof.
  unfold contains_key. induction m as [|[k' w] m IH]; intros Hk Hin; [by apply elem_of_nil in Hin|].
  simpl in *. destruct (decide (k' = k)); [done|]. destruct (str_le k k'); [by right|].
  apply elem_of_cons in Hin as [->|Hin]; [by left|]. right. by apply IH.
Qed.

Lemma elem_insert_new k v (m : fields) : (k, v) ∈ insert k v m.
Proof. apply get_elem, get_insert_eq. Qed.

Section mint.
Context (op : operator_env) `{JournalCodec} `{Chrono} `{TokenText} `{UrlLib}.

(** How a new map comes from the old one. *)
Record minted (ids : list Identity) (s : Storage) (rotate : bool) (original map : fields)
    (rotated : option string) : Prop := {
  mi_kept k v : get original k = Some v → get map k = Some v;
  mi_new k v : get map k = Some v → get original k = Some v ∨
    (get original k = None ∧ ∃ i, i ∈ ids ∧ v = meta_value (identity_meta i));
  mi_rotated t : rotated = Some t → rotate = true ∧ get original t = None ∧
    ∃ i, i ∈ ids ∧ is_selected s i = true ∧ get map t = Some (meta_value (identity_meta i));
}.

Definition covered (map : fields) (i : Identity) : Prop := ∃ kv, kv ∈ map ∧ identifies i kv.2 = true.

Lemma mint_identity_ok ids s onsite rotate original m rotated i log m' rotated' : i ∈ ids →
  minted ids s rotate original m rotated →
  runs_as (mint_identity s onsite rotate (m, rotated) i) log (Some (Ok (m', rotated'))) →
  minted ids s rotate original m' rotated' ∧ covered m' i ∧ (∀ j, covered m j → covered m' j).
Proof.
  intros Hi [Hkept Hnew Hrot] Hr. unfold mint_identity in Hr.
  destruct (bad_identity i); [by apply runs_bail_ok in Hr|].
  destruct (existsb _ m && _) eqn:Ee.
  { apply runs_okay_ok in Hr as [-> [= -> ->]]. apply andb_true_iff in Ee as [Ee _].
    apply existsb_True in Ee as (kv & Hin & Hkv). split_and!; [by split|by exists kv|done]. }
  apply runs_cbind_ok in Hr as (l1 & l2 & tok0 & -> & _ & Hr).
  apply runs_cbind_ok in Hr as (l3 & l4 & tok & -> & _ & Hr).
  destruct (contains_key m tok) eqn:Ec; [by apply runs_bail_ok in Hr|].
  destruct (rotate && _ && bool_decide _) eqn:Eb; [by apply runs_bail_ok in Hr|].
  apply runs_okay_ok in Hr as [-> [= -> ->]]. fold (identity_meta i).
  assert (get m tok = None) as Htok by (unfold contains_key in Ec; by destruct (get m tok)).
  assert (get original tok = None) as Horig.
  { destruct (get original tok) as [v|] eqn:E; [|done]. apply Hkept in E. congruence. }
  split_and!; [split| |].
  - intros k v Hk. rewrite get_insert_ne; [by apply Hkept|]. intros ->. congruence.
  - intros k v. destruct (decide (tok = k)) as [<-|Hne]; [|rewrite get_insert_ne by done; apply Hnew].
    rewrite get_insert_eq. intros [= <-]. right. split; [done|]. by exists i.
  - intros t Ht. destruct (rotate && is_selected s i) eqn:Er.
    + injection Ht as <-. apply andb_true_iff in Er as [-> Es]. split_and!; [done..|].
      exists i. by rewrite get_insert_eq.
    + destruct (Hrot t Ht) as (Hro & Ho & j & Hj & Hsel & Hg). split_and!; [done..|].
      exists j. split_and!; [done..|]. rewrite get_insert_ne; [done|]. intros ->. congruence.
  - exists (tok, meta_value (identity_meta i)). split; [apply elem_insert_new|apply identifies_own].
  - intros j (kv & Hin & Hkv). exists kv. split; [by apply elem_insert_absent|done].
Qed.

Lemma each_minted ids s onsite rotate original js : ∀ m rotated log r, (∀ i, i ∈ js → i ∈ ids) →
  minted ids s rotate original m rotated →
  runs_as (each (mint_identity s onsite rotate) js (m, rotated)) log (Some (Ok r)) →
  minted ids s rotate original r.1 r.2 ∧ (∀ i, i ∈ js → covered r.1 i) ∧ (∀ j, covered m j → covered r.1 j).
Proof.
  induction js as [|i js IH]; intros m rotated log r Hids Hm; cbn [each].
  { intros [_ ->]%runs_okay_ok. split_and!; [done| |done]. by intros i ?%elem_of_nil. }
  intros (l1 & l2 & [m' rotated'] & _ & Hone & Hr)%runs_cbind_ok.
  destruct (mint_identity_ok _ _ _ _ _ _ _ _ _ _ _ (Hids i ltac:(by left)) Hm Hone) as (Hm' & Hi & Hkeep).
  apply IH in Hr as (Hr1 & Hr2 & Hr3); [|intros; apply Hids; by right|done].
  split_and!; [done| |by auto]. intros j [->|Hj]%elem_of_cons; auto.
Qed.

Lemma mint_roster ids s onsite rotate original log r :
  runs_as (each (mint_identity s onsite rotate) ids (original, None)) log (Some (Ok r)) →
  minted ids s rotate original r.1 r.2 ∧ ∀ i, i ∈ ids → covered r.1 i.
Proof.
  intros Hr. eapply (each_minted ids) in Hr as (? & ? & _); [by split|done|].
  split; [done|by left|done].
Qed.

(** ** A run of minting *)

(** The staged client credential of a rotation. *)
Definition staged_client (s : Storage) (rotated : option string) : list (fpath * string) :=
  match rotated with
  | None => []
  | Some token =>
      match (let? client := expand_path op (so_client_token_path s) in pending_client_path client) with
      | Ok pending => [(pending, ended token)]
      | Err _ => []
      end
  end.

Definition backup_file (dir : fpath) (original : fields) (id : string) : list (fpath * string) :=
  [(join_path dir ("cloud-tokens-" +:+ id +:+ ".json"), ended (value_pretty (JObj original)))].

Definition map_file (map : fields) : string := value_pretty (JObj map) +:+ String newline "".

(** What a run of minting found, when it publishes anything. *)
Record mint_found (m : Manifest) (rotate : bool) (store : fpath) (original map : fields)
    (rotated : option string) (log : list event) : Prop := {
  mo_read : read_map store original log ∨ (original = [] ∧ did (IsFile store) false ∈ log);
  mo_minted : minted (mf_identities m) (mf_storage m) rotate original map rotated;
  mo_roster i : i ∈ mf_identities m → covered map i;
  mo_rotated : rotate = true → rotated ≠ None;
}.

Lemma ended_line t : ended (t +:+ String newline "") = t +:+ String newline "".
Proof. unfold ended. by rewrite ends_with_app. Qed.

Lemma prefix_nil_l {A} (l : list A) : [] `prefix_of` l.
Proof. by exists l. Qed.

(** The end of a run: the map, then the staged client. *)
Lemma mint_writes s store map rotated staged log r :
  runs_as (let@ _ := write_secret_file store (map_file map) in
           match rotated with
           | None => okay tt
           | Some token =>
               let@ client := lift (expand_path op (so_client_token_path s)) in
               let@ pending := lift (pending_client_path client) in
               write_secret_file pending token
           end) log r →
  let all := (store, map_file map) :: staged_client s rotated in
  publishes staged log `prefix_of` all ∧ (r = Some (Ok tt) → publishes staged log = all).
Proof.
  intros Hr all. apply runs_cbind_inv in Hr as [(r' & Hw & Hn & Hr)|(l1 & l2 & [] & -> & Hw & Hr)].
  - apply (write_publishes _ _ staged) in Hw as [[-> _]| ->]; (split; [|by intros ->; destruct (Hr tt)]).
    + apply prefix_nil_l.
    + unfold all, map_file. rewrite ended_line. by exists (staged_client s rotated).
  - apply (write_publishes _ _ staged) in Hw as [[_ []]|Ew]; [done|]. rewrite publishes_app, Ew.
    unfold map_file. rewrite ended_line. fold (map_file map). simpl.
    enough (publishes (staged_after staged l1) l2 `prefix_of` staged_client s rotated ∧
      (r = Some (Ok tt) → publishes (staged_after staged l1) l2 = staged_client s rotated)) as [Hp Hall].
    { split; [by apply prefix_cons|]. intros E. unfold all. by rewrite Hall. }
    generalize (staged_after staged l1). intros st. destruct rotated as [token|].
    2: { apply runs_done in Hr as [-> _]. split; [apply prefix_nil_l|done]. }
    unfold staged_client. destruct (expand_path op _) as [client|e]; cbn [rbind].
    2: { apply runs_done in Hr as [-> Hr]. split; [apply prefix_nil_l|by intros ->]. }
    change (runs_as (let@ pending := lift (pending_client_path client) in write_secret_file pending token)
      l2 r) in Hr.
    destruct (pending_client_path client) as [pending|e].
    2: { apply runs_done in Hr as [-> Hr]. split; [apply prefix_nil_l|by intros ->]. }
    change (runs_as (write_secret_file pending token) l2 r) in Hr.
    destruct (write_publishes _ _ st _ _ Hr) as [[-> Hn]| ->]; split; try done. apply prefix_nil_l.
Qed.

Lemma backup_publishes dir original staged log r :
  runs_as (backup_map dir original false) log r →
  (publishes staged log = [] ∧ r ≠ Some (Ok tt)) ∨ ∃ id, publishes staged log = backup_file dir original id.
Proof.
  unfold backup_map. intros Hr.
  pass Hr staged. destruct Hr as [[E ->]|(l & id & l' & -> & _ & Hw & ->)]; [by left|]. apply (write_publishes _ _ (staged_after staged l)) in Hw as [?|?]; [by left|].
  right. by exists id.
Qed.

(** The part of a run under the lock. *)
Lemma mint_body m rotate store staged log r :
  runs_as
    (let@ backup_dir := lift (expand_path op (al_backup_dir (mf_anti_lockout m))) in
     let@ onsite := onsite_hub_token_fp op in
     let& there := ask (IsFile store) in
     let@ original := (if there : bool then read_token_map store else okay []) in
     let@ minted := each (mint_identity (mf_storage m) onsite rotate) (mf_identities m) (original, None) in
     let '(map, rotated_client) := minted in
     let@ _ := lift (assert_no_onsite_reuse map onsite) in
     if rotate && bool_decide (rotated_client = None)
     then bail "rotation identity is absent from the manifest roster"
     else
       let& there := ask (IsFile store) in
       let@ _ := (if there && al_keep_previous_map_backup (mf_anti_lockout m)
                  then backup_map backup_dir original false else okay tt) in
       let@ _ := write_secret_file store (map_file map) in
       match rotated_client with
       | None => okay tt
       | Some token =>
           let@ client := lift (expand_path op (so_client_token_path (mf_storage m))) in
           let@ pending := lift (pending_client_path client) in
           write_secret_file pending token
       end) log r →
  (publishes staged log = [] ∧ r ≠ Some (Ok tt)) ∨
  ∃ original map rotated backup,
    mint_found m rotate store original map rotated log ∧
    ((backup = [] ∧ (al_keep_previous_map_backup (mf_anti_lockout m) = false ∨ did (IsFile store) false ∈ log)) ∨
     ∃ dir id, expand_path op (al_backup_dir (mf_anti_lockout m)) = Ok dir ∧ backup = backup_file dir original id) ∧
    let all := backup ++ (store, map_file map) :: staged_client (mf_storage m) rotated in
    publishes staged log `prefix_of` all ∧ (r = Some (Ok tt) → publishes staged log = all).
Proof.
  intros Hr. pass Hr staged. destruct Hr as [[E Hn]|(l1 & dir & k1 & -> & Hdir & Hr & ->)]; [by left|].
  generalize (staged_after staged l1). intros s1. pass Hr s1.
  destruct Hr as [[E Hn]|(l2 & onsite & k2 & -> & _ & Hr & ->)]; [by left|].
  generalize (staged_after s1 l2). intros s2. pass Hr s2.
  destruct Hr as [[E ->]|(l3 & there & k3 & -> & Hthere & Hr & ->)]; [by left|].
  generalize (staged_after s2 l3). intros s3. pass Hr s3.
  destruct Hr as [[E Hn]|(l4 & original & k4 & -> & Horig & Hr & ->)]; [by left|].
  generalize (staged_after s3 l4). intros s4. pass Hr s4.
  destruct Hr as [[E Hn]|(l5 & [map rotated] & k5 & -> & Heach & Hr & ->)]; [by left|].
  generalize (staged_after s4 l5). intros s5. pass Hr s5.
  destruct Hr as [[E Hn]|(l6 & u & k6 & -> & _ & Hr & ->)]; [by left|].
  generalize (staged_after s5 l6). intros s6.
  destruct (rotate && _) eqn:Erot.
  { apply runs_done in Hr as [-> Hr]. left. split; [done|by intros ->]. }
  pass Hr s6. destruct Hr as [[E ->]|(l7 & again & k7 & -> & Hagain & Hr & ->)]; [by left|].
  generalize (staged_after s6 l7). intros s7.
  apply (runs_ask_ok (IsFile store)) in Hthere as ->, Hagain as ->.
  apply mint_roster in Heach as [Hminted Hcover]. cbn [fst snd] in Hminted, Hcover.
  assert (∀ log', log' = l1 ++ l2 ++ [did (IsFile store) there] ++ l4 ++ l5 ++ l6
      ++ [did (IsFile store) again] ++ k7 → mint_found m rotate store original map rotated log') as Hfound.
  { intros log' ->. split; [|done|done|].
    - destruct there.
      + left. apply token_map_log in Horig. eapply read_map_sub; [|done].
        intros ev. rewrite !elem_of_app. tauto.
      + right. apply runs_okay_ok in Horig as [-> ->]. split; [done|].
        rewrite !elem_of_app, !elem_of_cons. tauto.
    - intros ->. simpl in Erot. by apply bool_decide_eq_false in Erot. }
  apply runs_lift_ok in Hdir as [-> Hdir].
  destruct (again && _) eqn:Ewant.
  - apply runs_cbind_inv in Hr as [(r' & Hb & Hn & Hr)|(lb & lw & [] & -> & Hb & Hr)].
    + destruct (backup_publishes _ _ s7 _ _ Hb) as [[E _]|[id E]]; [left; split; [done|apply Hr]|right].
      exists original, map, rotated, (backup_file dir original id). split; [by apply Hfound|].
      split; [right; by exists dir, id|]. rewrite E. split; [by eexists|]. intros ->. by destruct (Hr tt).
    + destruct (backup_publishes _ _ s7 _ _ Hb) as [[_ []]|[id E]]; [done|]. right.
      exists original, map, rotated, (backup_file dir original id). split; [by apply Hfound|].
      split; [right; by exists dir, id|]. rewrite publishes_app, E.
      destruct (mint_writes _ _ _ _ (staged_after s7 lb) _ _ Hr) as [Hp Hall].
      destruct Hp as [z Ez]. split; [exists z; by rewrite Ez, app_assoc|]. intros Er. by rewrite Hall.
  - change (runs_as (let@ _ := okay tt in let@ _ := write_secret_file store (map_file map) in
      match rotated with
      | None => okay tt
      | Some token =>
          let@ client := lift (expand_path op (so_client_token_path (mf_storage m))) in
          let@ pending := lift (pending_client_path client) in
          write_secret_file pending token
      end) k7 r) in Hr. right. exists original, map, rotated, []. split; [by apply Hfound|].
    split; [left; split; [done|]|exact (mint_writes _ _ _ _ s7 _ _ Hr)].
    destruct again; simpl in Ewant; [by left|right]. rewrite !elem_of_app, !elem_of_cons. tauto.
Qed.

(** C19. Whatever happens to it, a run of minting or of a rotation publishes files only in
    this order: a copy of the old map, the new map, and for a rotation the new client
    credential, next to the client file and not over it. The new map has every entry of the
    old one, other than these only new tokens of identities of the manifest, as the run read
    it, and at least one token for each of them; the staged credential is such a token of the selected
    client. Without the copy it goes only if there was no map or the manifest asks for
    none. A run that succeeds has published all of it. *)
Theorem mint_keeps manifest example rotate log r :
  runs_as (cmd_mint_mode op manifest example false rotate) log r →
  (published log = [] ∧ r ≠ Some (Ok tt)) ∨
  ∃ m store original map rotated backup,
    manifest_in manifest log = Some m ∧
    expand_path op (so_tokens_map_path (mf_storage m)) = Ok store ∧
    mint_found m rotate store original map rotated log ∧
    ((backup = [] ∧ (al_keep_previous_map_backup (mf_anti_lockout m) = false ∨ did (IsFile store) false ∈ log)) ∨
     ∃ dir id, expand_path op (al_backup_dir (mf_anti_lockout m)) = Ok dir ∧ backup = backup_file dir original id) ∧
    let all := backup ++ (store, map_file map) :: staged_client (mf_storage m) rotated in
    published log `prefix_of` all ∧ (r = Some (Ok tt) → published log = all).
Proof.
  intros Hr. unfold cmd_mint_mode in Hr. unfold published. pass Hr ([] : list (fpath * string)).
  destruct Hr as [[E Hn]|(l1 & m & k1 & -> & Hman & Hr & ->)]; [by left|].
  generalize (staged_after [] l1). intros s1. pass Hr s1.
  destruct Hr as [[E Hn]|(l2 & u & k2 & -> & _ & Hr & ->)]; [by left|].
  generalize (staged_after s1 l2). intros s2. pass Hr s2.
  destruct Hr as [[E Hn]|(l3 & store & k3 & -> & Hstore & Hr & ->)]; [by left|].
  generalize (staged_after s2 l3). intros s3.
  destruct (locked_publishes _ _ s3 _ _ Hr) as [[E Hn]|(lk & lb & lu & r' & -> & Hb & -> & Hok)]; [by left|].
  clear Hr. rename Hb into Hr.
  apply runs_lift_ok in Hstore as [-> Hstore].
  destruct (mint_body _ _ _ (staged_after s3 lk) _ _ Hr) as [[-> Hn]|(original & map & rotated & backup & Hf & Hb & Hp & Hall)].
  { left. split; [done|]. intros E. by apply Hok in E. }
  right. exists m, store, original, map, rotated, backup.
  assert (∀ ev, ev ∈ lb → ev ∈ l1 ++ l2 ++ [] ++ lk ++ lb ++ lu) as Hsub
    by (intros ev ?; rewrite !elem_of_app; tauto).
  split_and!; [by eapply ensure_manifest_in|done| | |done|by intros E; apply Hall, Hok].
  - destruct Hf as [[?|[? ?]] ? ? ?]; split; try done; [left; by eapply read_map_sub|right; auto].
  - destruct Hb as [[? [?|?]]|?]; auto.
Qed.
End mint.
