(* ===== verification/CloudTokenDemo.v ===== *)
(** * CloudTokenDemo: a revocation and a rotation at work

    A small world of files, a vault and a cloud, in which the command is run and its
    theorems are evaluated; and a write of the rollback file that fails halfway. *)

From Stdlib Require Import ZArith Lia Ascii.
From stdpp Require Import base option list strings.
From S2P Require Import Prelude Str Json Validation ClaimTypes Outbox HubTypes Redis StreamEntry Programs.
From S2P Require Import ClaimInstances.
From S2P Require Import CloudTokens CloudTokenFacts CloudTokenProps CloudTokenDeploy CloudTokenRevoke.
From S2P Require Import CloudTokenMint.

(** ** Concrete texts *)

(** A digest of 32 bytes. *)
Definition demo_digest (s : string) : list Z :=
  let h := fold_left (λ h a, (h * 1000003 + Z.of_N (N_of_ascii a) + 1) mod 2 ^ 256)%Z (String.list_ascii_of_string s) 7%Z in
  map (λ i, Z.land (Z.shiftr h (8 * Z.of_nat i)) 255) (seq 0 32).

Definition token_codec : JournalCodec :=
  {| sha256 := demo_digest; request_to_vec _ := None; event_to_vec _ := None;
     line_to_vec _ _ := None; line_from_slice _ := None |}.

Fixpoint show (v : json) : string :=
  match v with
  | JNull => "null"
  | JBool b => if b then "true" else "false"
  | JNum n => match n with PosInt n => Z_text n | _ => "?" end
  | JStr s => "'" +:+ s +:+ "'"
  | JArr l => "[" +:+ String.concat "," (map show l) +:+ "]"
  | JObj o => "{" +:+ String.concat "," (map (λ '(k, v), k +:+ ":" +:+ show v) o) +:+ "}"
  end.

Definition OLD : string := "aaaaaaaaaaaaaaaaaaaaaaaaaaaaaaaa".
Definition NEW : string := "bbbbbbbbbbbbbbbbbbbbbbbbbbbbbbbb".
Definition HUB : string := "cccccccccccccccccccccccccccccccc".
Definition OPER : string := "dddddddddddddddddddddddddddddddd".

Definition alice_meta : json := meta_value (mkTokenMeta "alice" "agent" None None).
Definition hub_meta : json := meta_value (mkTokenMeta "hub" "hub" None (Some "h1")).
Definition oper_meta : json := meta_value (mkTokenMeta "boss" "operator" None None).

(** Alice's credential was rotated: the old one is to be retired. *)
Definition demo_baseline : fields := [(OLD, alice_meta); (NEW, alice_meta); (HUB, hub_meta); (OPER, oper_meta)].
Definition demo_candidate : fields := [(NEW, alice_meta); (HUB, hub_meta); (OPER, oper_meta)].

Definition demo_hash (s : string) : string := hex_bytes (demo_digest s).
Definition demo_map_hash (m : fields) : string := demo_hash (show (canonical_metadata (JObj m))).

Definition demo_selection : RetiredToken :=
  mkRetired "alice-1" (demo_hash OLD) "/e/receipt" (demo_hash "receipt").

Definition demo_receipt : CutoverReceipt :=
  mkReceipt "alice-1" (demo_hash OLD) (demo_hash NEW) (demo_map_hash demo_baseline) "https://c/" true true "seen".

#[local] Existing Instance bit_chrono.

Definition demo_lease : RevocationLease :=
  mkLease "GRANTED" "boss" "cloudflare-worker:agentbus-cloud:AGENT_BUS_TOKENS" (format_timestamp (1000 * NANOS)) "seen".

Definition demo_manifest : Manifest :=
  mkManifest "https://c/" None
    (mkStorage "/s/map.json" "/s/client" "agent" "alice" None) anti_lockout_default "tokens"
    [mkIdentity "alice-1" "agent" "alice" None None; mkIdentity "hub-1" "hub" "hub" None (Some "h1");
     mkIdentity "oper-1" "operator" "boss" None None]
    (Some (mkAuthority "independently-verified-stored-baseline" "ref" "/e/baseline.json"
             (demo_map_hash demo_baseline) (demo_map_hash demo_candidate)))
    (Some (mkRevocation [demo_selection] "/e/lease" (demo_hash "lease"))).

Definition demo_item (m : fields) : json :=
  obj [("id", JStr "i1"); ("name", JStr "tokens"); ("notes", JStr (show (JObj m)))].

Definition demo_response (m : fields) : json :=
  obj [("representation", JStr "utf8-secret-binding-v1"); ("sha256", JStr (demo_hash (show (JObj m))));
       ("entry_count", jint (Z.of_nat (length m)))].

Definition unlocked : json := obj [("status", JStr "unlocked")].

(** The values that are read. *)
Definition demo_values : list json :=
  [JObj demo_baseline; JObj demo_candidate; demo_item demo_baseline; demo_item demo_candidate;
   demo_response demo_baseline; demo_response demo_candidate; unlocked].

Definition demo_text : TokenText :=
  {| value_text := show;
     value_pretty := show;
     value_of_text s := List.find (λ v, bool_decide (show v = trim s)) demo_values;
     manifest_of_text s := if decide (s = "manifest") then Some demo_manifest else None;
     lease_of_text s := if decide (s = "lease") then Some demo_lease else None;
     receipt_of_text s := if decide (s = "receipt") then Some demo_receipt else None;
     base64_text s := s |}.

Definition demo_urls : UrlLib :=
  {| url_parse s := if decide (s = "https://c/")
                    then Some (mkUrl "https" "" None (Some (Domain "c")) None "/" None None s) else None;
     origin_ascii _ := "" |}.

#[local] Existing Instances token_codec demo_text demo_urls.

(** ** The world *)

Record world := mkWorld {
  wo_files : list (fpath * string);
  wo_item : string;
  wo_deployed : string;
  wo_drawn : Z;
}.

Definition file_of (w : world) (p : fpath) : option string :=
  snd <$> List.find (λ f, bool_decide (f.1 = p)) (wo_files w).
Definition without_file (p : fpath) (w : world) : list (fpath * string) :=
  List.filter (λ f, negb (bool_decide (f.1 = p))) (wo_files w).
Definition set_files (l : list (fpath * string)) (w : world) : world :=
  mkWorld l (wo_item w) (wo_deployed w) (wo_drawn w).
Definition put_file (p : fpath) (s : string) (w : world) : world := set_files ((p, s) :: without_file p w) w.

Definition moved (keep : bool) (p q : fpath) (w : world) : io unit * world :=
  match file_of w p with
  | Some s => (Ok tt, put_file q s (if keep then w else set_files (without_file p w) w))
  | None => (Err IoNotFound, w)
  end.

(** The tools: the vault with one item, and the deployment. *)
Definition tool (args : list string) (input : option string) (w : world) : option string * world :=
  match args, input with
  | "status" :: _, _ => (Some (show unlocked), w)
  | "get" :: _, _ => (Some (wo_item w), w)
  | "edit" :: _, Some s => (Some "", mkWorld (wo_files w) s (wo_deployed w) (wo_drawn w))
  | "secret" :: _, Some s => (Some "", mkWorld (wo_files w) (wo_item w) s (wo_drawn w))
  | _, _ => (None, w)
  end.

(** The cloud, which has the map that is deployed. *)
Definition cloud (url : string) (bearer : option string) (w : world) : option http_answer :=
  m ← map_of_text (wo_deployed w);
  token ← bearer;
  Some (if contains_key m token
        then mkAnswer 200 None
               [Some (if ends_with url "/admin/tokens/manifest" then show (demo_response m) else "[]")]
        else mkAnswer 401 None []).

Definition world_answers (c : call) (w : world) : answer c * world :=
  match c with
  | ReadFile p => (ok_or IoNotFound (file_of w p), w)
  | IsFile p | Exists p => (bool_decide (is_Some (file_of w p)), w)
  | IsDir p | TryLock p => (true, w)
  | IsSymlink p => (Ok false, w)
  | Metadata p => (match file_of w p with Some _ => Ok false | None => Err IoNotFound end, w)
  | Canonicalize p => (Ok p, w)
  | CreateNew p => match file_of w p with
                   | Some _ => (Err IoAlreadyExists, w)
                   | None => (Ok tt, put_file p "" w)
                   end
  | WriteAll p s => (Ok tt, put_file p (from_option (λ t, t) "" (file_of w p) +:+ s) w)
  | CopyFile p q => moved true p q w
  | Rename p q => moved false p q w
  | RemoveFile p => (Ok tt, set_files (without_file p w) w)
  | CreateDirAll _ | OpenExisting _ | SyncAll _ => (Ok tt, w)
  | Unlock _ => (tt, w)
  | Entropy n => (Some (repeat (wo_drawn w) n),
                  mkWorld (wo_files w) (wo_item w) (wo_deployed w) (wo_drawn w + 1))
  | NewUuid => ("u" +:+ Z_text (wo_drawn w),
                mkWorld (wo_files w) (wo_item w) (wo_deployed w) (wo_drawn w + 1))
  | Now => (0%Z, w)
  | Invoke _ args input _ => tool args input w
  | HttpGet url bearer => (cloud url bearer w, w)
  end.

Definition at_path (s : string) : fpath := components s.

Definition world0 : world :=
  mkWorld [(at_path "/m", "manifest"); (at_path "/s/map.json", show (JObj demo_baseline));
           (at_path "/s/client", NEW); (at_path "/e/baseline.json", show (JObj demo_baseline));
           (at_path "/e/receipt", "receipt"); (at_path "/e/lease", "lease")]
    (show (demo_item demo_baseline)) (show (JObj demo_baseline)) 0.

Definition demo_operator : operator_env := mkOperator None (Some "/h") None.

Definition revocation_run : result string unit * world * list event :=
  serve world_answers
    (run_cloud_tokens demo_operator Revoke (Some (at_path "/m")) None None false) world0.

Definition revocation_log : list event := revocation_run.2.

Fixpoint first_deploy (log : list event) : nat :=
  match log with
  | [] => 0
  | ev :: log => if decide (effect_of (projT1 ev) = Deploys) then 0 else S (first_deploy log)
  end.

Definition before_put : list event := take (first_deploy revocation_log) revocation_log.
Definition after_put : list event := drop (S (first_deploy revocation_log)) revocation_log.
Definition demo_put : call := put_secret "agentbus-cloud" (show (JObj demo_candidate)) (at_path "./cloud/agentbus").

Lemma revocation_parts : before_put ++ did demo_put (Some "") :: after_put = revocation_log.
Proof. vm_compute. reflexivity. Qed.

Lemma revocation_succeeds : revocation_run.1.1 = Ok tt.
Proof. vm_compute. reflexivity. Qed.

Lemma revocation_runs :
  runs_as (run_cloud_tokens demo_operator Revoke (Some (at_path "/m")) None None false) revocation_log
    (Some (Ok tt)).
Proof.
  rewrite <- revocation_succeeds. unfold revocation_log, revocation_run. exact (serve_runs world_answers _ world0).
Qed.

Lemma revoke_runs : runs_as (cmd_revoke demo_operator (at_path "/m") None false) revocation_log (Some (Ok tt)).
Proof.
  pose proof revocation_runs as Hr. unfold run_cloud_tokens in Hr. cbn [cbind lift pbind andb] in Hr. exact Hr.
Qed.

Lemma revocation_runs_parts :
  runs_as (run_cloud_tokens demo_operator Revoke (Some (at_path "/m")) None None false)
    (before_put ++ did demo_put (Some "") :: after_put) (Some (Ok tt)).
Proof. rewrite revocation_parts. apply revocation_runs. Qed.

Lemma deploys_gated_witness :
  effect_of demo_put = Deploys ∧ false = false ∧ ∃ m store baseline candidate,
    manifest_in (at_path "/m") before_put = Some m ∧
    demo_put = put_secret (default_worker m) (value_text (JObj candidate)) (worker_dir None) ∧
    expand_path demo_operator (so_tokens_map_path (mf_storage m)) = Ok store ∧ holds_lock store before_put ∧
    read_back (mf_item_name m) candidate before_put ∧
    ∃ client active, retires m baseline active candidate ∧
      revocation_ready demo_operator m store client baseline candidate active before_put.
Proof.
  split; [reflexivity|].
  destruct (deploys_gated demo_operator Revoke (Some (at_path "/m")) None None false before_put demo_put (Some "")
              after_put (Some (Ok tt)) revocation_runs_parts eq_refl)
    as (E & path & m & store & baseline & candidate & [= <-] & ? & ? & ? & ? & ? & ? & ? & ? &
        [[? _]|(_ & client & active & ? & ? & ?)]);
    [discriminate|].
  split; [exact E|]. exists m, store, baseline, candidate. split_and!; [assumption..|].
  exists client, active. split; assumption.
Defined.

Lemma revoke_publishes_witness :
  ∃ m store baseline candidate active,
    manifest_in (at_path "/m") revocation_log = Some m ∧
    published revocation_log = [(store, ended (value_pretty (JObj candidate)))] ∧
    retires m baseline active candidate.
Proof.
  destruct (revoke_publishes demo_operator (at_path "/m") None false revocation_log (Some (Ok tt)) revoke_runs)
    as [[_ E]|(_ & m & store & client & baseline & candidate & active & l1 & out & l2 & ? & ? & ? & ? & ? & ? &
        ? & ? & ? & ?)].
  - discriminate (E eq_refl).
  - exists m, store, baseline, candidate, active. split_and!; assumption.
Defined.

(** ** What a revocation removes *)

Lemma revocation_replaces_witness :
  retires demo_manifest demo_baseline NEW demo_candidate ∧
  ∃ token v token' v', (token, v) ∈ demo_baseline ∧ get demo_candidate token = None ∧
    (token', v') ∈ demo_candidate.
Proof.
  destruct (revocation_replaces demo_manifest demo_baseline NEW (λ _, Ok demo_receipt) [] demo_candidate)
    as [Hr Hs].
  - assert (revocation_candidate demo_manifest demo_baseline NEW (λ _, lift (Ok demo_receipt)) =
      Done (Ok demo_candidate)) as -> by (vm_compute; reflexivity). constructor.
  - vm_compute. repeat constructor; rewrite ?elem_of_cons, ?elem_of_nil; naive_solver.
  - split; [exact Hr|].
    destruct (Hs (mkRevocation [demo_selection] "/e/lease" (demo_hash "lease")) demo_selection)
      as (i & token & v & proof & token' & v' & _ & _ & ? & _ & ? & _ & _ & _ & ? & _);
      [reflexivity|by left|]. exists token, v, token', v'. split; [assumption|split; assumption].
Defined.

(** ** A rotation *)

Definition rotation_run : result string unit * world * list event :=
  serve world_answers
    (cmd_mint_mode demo_operator (at_path "/m") (at_path "/example") false true) world0.

Definition rotation_log : list event := rotation_run.2.

Lemma rotation_succeeds : rotation_run.1.1 = Ok tt.
Proof. vm_compute. reflexivity. Qed.

Lemma rotation_runs :
  runs_as (cmd_mint_mode demo_operator (at_path "/m") (at_path "/example") false true) rotation_log
    (Some (Ok tt)).
Proof.
  rewrite <- rotation_succeeds. unfold rotation_log, rotation_run. exact (serve_runs world_answers _ world0).
Qed.

Lemma mint_keeps_witness :
  ∃ m store original map rotated, manifest_in (at_path "/m") rotation_log = Some m ∧ rotated ≠ None ∧
    mint_found m true store original map rotated rotation_log ∧
    (store, map_file map) ∈ published rotation_log.
Proof.
  destruct (mint_keeps demo_operator (at_path "/m") (at_path "/example") true rotation_log (Some (Ok tt))
              rotation_runs)
    as [[_ E]|(m & store & original & map & rotated & backup & Hm & _ & Hf & _ & _ & Hall)].
  - destruct (E eq_refl).
  - exists m, store, original, map, rotated. split; [exact Hm|]. split; [by apply (mo_rotated _ _ _ _ _ _ _ Hf)|]. split; [exact Hf|].
    rewrite (Hall eq_refl), elem_of_app, elem_of_cons. right. left. reflexivity.
Defined.

(** The backup, the map, then the staged credential; the client file is as it was. *)
Example rotation_files :
  map fst (published rotation_log) =
    [at_path "/h/.config/agent-bus/token-backups/cloud-tokens-uOH.json"; at_path "/s/map.json"; at_path "/s/client.pending"] ∧
  file_of rotation_run.1.2 (at_path "/s/client") = Some NEW.
Proof. vm_compute. split; reflexivity. Qed.

(** ** A rollback file that is cut short

    It is written in place: when that fails halfway, the part stays, and every later
    revocation of the same baseline is refused. *)

Definition cut_answers (c : call) : world → answer c * world :=
  match c with
  | WriteAll p s => λ w, (Err IoOther, put_file p (String.substring 0 10 s) w)
  | c => world_answers c
  end.

Definition cut_run : result string unit * world * list event :=
  serve cut_answers (run_cloud_tokens demo_operator Revoke (Some (at_path "/m")) None None false) world0.

Example cut_short_refuses :
  cut_run.1.1 = Err "write" ∧
  (serve world_answers (run_cloud_tokens demo_operator Revoke (Some (at_path "/m")) None None false)
     cut_run.1.2).1.1 = Err "rollback baseline collision".
Proof. vm_compute. split; reflexivity. Qed.

(** ** A dry run *)

Definition dry_log : list event :=
  (serve world_answers (run_cloud_tokens demo_operator Mint (Some (at_path "/m")) None None true) world0).2.

Lemma dry_run_looks_witness :
  head dry_log = Some (did (IsFile (at_path "/m")) true) ∧
  (harmless (IsFile (at_path "/m")) ∨
   (Mint ≠ Revoke ∧ ∃ path, manifest_path demo_operator (Some (at_path "/m")) = Ok path ∧ vanished path [] ∧
      (IsFile (at_path "/m") = CopyFile (default_example_path None) path ∨
       ∃ dir, parent path = Some dir ∧ IsFile (at_path "/m") = CreateDirAll dir))).
Proof.
  split; [vm_compute; reflexivity|].
  apply (dry_run_looks demo_operator Mint (Some (at_path "/m")) None None [] (IsFile (at_path "/m")) true
    (tail dry_log)
    (Some (serve world_answers (run_cloud_tokens demo_operator Mint (Some (at_path "/m")) None None true)
             world0).1.1)).
  assert ([] ++ did (IsFile (at_path "/m")) true :: tail dry_log = dry_log) as -> by (vm_compute; reflexivity).
  exact (serve_runs world_answers _ world0).
Defined.
