(* ===== verification/Settings.v ===== *)
(** * Settings: the configuration of a process

    [settings.rs]: where the configuration file is, its starter, how it is read, how each
    setting is taken from the environment, the file or its default, and what [validate]
    refuses. Reading is a program of calls to the file system, of whose answers nothing is
    assumed; the environment is an argument. The text of a path is that of its components.
    The build is the one for Unix. *)

From Stdlib Require Import ZArith Lia Ascii.
From stdpp Require Import base option list strings.
From S2P Require Import Prelude Str Json Validation ClaimTypes Outbox HubTypes NetLocation LinkRoute.
From S2P Require Import Candidates Redis Channels Messages StreamEntry ReplayScript OutboxHub PgStore Hub Programs.

Record ConfigFile := mkConfig {
  cf_redis_url : option string;
  cf_database_url : option string;
  cf_stream_key : option string;
  cf_channel : option string;
  cf_presence_prefix : option string;
  cf_message_table : option string;
  cf_presence_event_table : option string;
  cf_stream_maxlen : option Z;
  cf_server_host : option string;
  cf_service_agent_id : option string;
  cf_service_name : option string;
  cf_startup_enabled : option bool;
  cf_startup_recipient : option string;
  cf_startup_topic : option string;
  cf_startup_body : option string;
  cf_session_id : option string;
  cf_server_url : option string;
  cf_server_urls : option json;
  cf_probe_connect_timeout_ms : option Z;
  cf_probe_stagger_ms : option Z;
  cf_hub_cache_ttl_seconds : option Z;
  cf_network_locations : option json;
  cf_hub_identity : option string;
  cf_configuration_error : option string;
  cf_machine_safe : option bool;
  cf_auth_token : option string;
  cf_previous_auth_token : option string;
  cf_allow_remote : option bool;
  cf_cloud_url : option string;
  cf_cloud_token_file : option string;
  cf_cloud_sync_state_file : option string;
}.

Definition config_default : ConfigFile :=
  mkConfig None None None None None None None None None None None None None None None None None
    None None None None None None None None None None None None None None.

(** [ConfigFile { configuration_error: Some(e), ..default }]. *)
Definition config_broken (e : string) : ConfigFile :=
  mkConfig None None None None None None None None None None None None None None None None None
    None None None None None None (Some e) None None None None None None None.

(** [serde_json]: a configuration, or the line and column where the text is none; and the
    value of a text whose objects name no key twice. *)
Class ConfigText := {
  config_of_text : string → result (Z * Z) ConfigFile;
  unique_json : string → option json;
}.

(** ** Where the file is *)

Definition path_text (p : fpath) : string :=
  (if fp_root p then "/" else "") +:+ join "/" (fp_comps p).

(** [PathBuf::push] on texts. *)
Definition push_text (base s : string) : string :=
  if starts_with s "/" then s
  else if is_empty base || ends_with base "/" then base +:+ s
  else base +:+ "/" +:+ s.

Definition config_path_under (profile : fpath) : fpath :=
  join_path (join_path (join_path profile ".config") "agent-bus") "config.json".

(** [path.ancestors().skip(1)]. *)
Definition ancestors (p : fpath) : list fpath :=
  map (λ n, mkPath (fp_root p) (take n (fp_comps p))) (rev (seq 0 (length (fp_comps p)))).

Definition empty_path (p : fpath) : bool := negb (fp_root p) && bool_decide (fp_comps p = []).

Fixpoint probe_ancestors (l : list fpath) : prog (io bool) :=
  match l with
  | [] => Done (Ok false)
  | a :: l =>
      if empty_path a then Done (Ok false)
      else
        let& meta := ask (Metadata a) in
        match meta with
        | Ok true => Done (Ok false)
        | Ok false => Done (Err IoOther)
        | Err IoNotFound => probe_ancestors l
        | Err e => Done (Err e)
        end
  end.

Definition probe_config_path (p : fpath) : prog (io bool) :=
  let& meta := ask (Metadata p) in
  match meta with
  | Ok _ => Done (Ok true)
  | Err IoNotFound => probe_ancestors (ancestors p)
  | Err e => Done (Err e)
  end.

(** [Ok(true) | Err(_)]. *)
Definition there_or_failed (r : io bool) : bool := match r with Ok false => false | _ => true end.

Definition resolve_default_config_path (env_home real_profile : option fpath)
    (try_exists : fpath → prog (io bool)) : prog (option fpath) :=
  match config_path_under <$> env_home, config_path_under <$> real_profile with
  | Some env_path, Some profile_path =>
      if decide (env_path = profile_path) then Done (Some env_path)
      else
        let& r := try_exists env_path in
        if there_or_failed r then Done (Some env_path)
        else
          let& r := try_exists profile_path in
          Done (Some (if there_or_failed r then profile_path else env_path))
  | Some env_path, None => Done (Some env_path)
  | None, Some profile_path =>
      let& r := try_exists profile_path in
      Done (if there_or_failed r then Some profile_path else None)
  | None, None => Done None
  end.

(** ** Reading the file *)

Definition profile_root_for_config (p : fpath) : option fpath :=
  if negb (bool_decide (file_name p = Some "config.json")) then None
  else
    agent_bus_dir ← parent p;
    if negb (bool_decide (file_name agent_bus_dir = Some "agent-bus")) then None
    else
      dot_config ← parent agent_bus_dir;
      if negb (bool_decide (file_name dot_config = Some ".config")) then None
      else profile ← parent dot_config; if empty_path profile then None else Some profile.

Definition expand_tilde_with (value home : string) : string :=
  if has_control value then value
  else
    let trimmed := trim value in
    if decide (trimmed = "~") then home
    else match strip_prefix trimmed "~/" with
         | Some rest => push_text home rest
         | None => match strip_prefix trimmed "~\" with
                   | Some rest => push_text home rest
                   | None => value
                   end
         end.

(** One entry of [server_urls]. *)
Definition anchor_entry (home : string) (entry : json) : json :=
  match entry with
  | JObj o =>
      match get o "token_file" with
      | Some (JStr token_file) => JObj (Json.insert "token_file" (JStr (expand_tilde_with token_file home)) o)
      | _ => entry
      end
  | _ => entry
  end.

Definition anchor_tilde_paths (c : ConfigFile) (profile : fpath) : ConfigFile :=
  let home := path_text profile in
  let state := match cf_cloud_sync_state_file c with
               | Some s => if is_empty (trim s) then None else Some s
               | None => None
               end in
  mkConfig (cf_redis_url c) (cf_database_url c) (cf_stream_key c) (cf_channel c) (cf_presence_prefix c)
    (cf_message_table c) (cf_presence_event_table c) (cf_stream_maxlen c) (cf_server_host c)
    (cf_service_agent_id c) (cf_service_name c) (cf_startup_enabled c) (cf_startup_recipient c)
    (cf_startup_topic c) (cf_startup_body c) (cf_session_id c) (cf_server_url c)
    (match cf_server_urls c with
     | Some (JArr entries) => Some (JArr (map (anchor_entry home) entries))
     | other => other
     end)
    (cf_probe_connect_timeout_ms c) (cf_probe_stagger_ms c) (cf_hub_cache_ttl_seconds c)
    (cf_network_locations c) (cf_hub_identity c) (cf_configuration_error c) (cf_machine_safe c)
    (cf_auth_token c) (cf_previous_auth_token c) (cf_allow_remote c) (cf_cloud_url c)
    ((λ f, expand_tilde_with f home) <$> cf_cloud_token_file c)
    (Some (match state with
           | Some s => expand_tilde_with s home
           | None => push_text (push_text (push_text home ".config") "agent-bus") "cloud-sync-state.json"
           end)).

Definition READ_FAILED : string := "agent-bus configuration could not be read".

Section settings.
Context `{DebugFmt} `{UrlLib} `{UnicodeCase} `{ConfigText}.
(** The environment, and the account's profile as the system reports it. *)
Context (env : string → option string) (real_profile : option fpath).

Definition config_file_path : prog (option fpath) :=
  match env "AGENT_BUS_CONFIG" with
  | Some custom =>
      if negb (is_empty (trim custom)) then Done (Some (components custom))
      else resolve_default_config_path
             (components <$> Candidates.or_else (env "USERPROFILE") (env "HOME")) real_profile probe_config_path
  | None => resolve_default_config_path
              (components <$> Candidates.or_else (env "USERPROFILE") (env "HOME")) real_profile probe_config_path
  end.

Definition config_from_text (p : fpath) (text : string) : ConfigFile :=
  match config_of_text text with
  | Ok cfg => match profile_root_for_config p with
              | Some profile => anchor_tilde_paths cfg profile
              | None => cfg
              end
  | Err (line, column) =>
      config_broken ("invalid agent-bus configuration (line " +:+ dec line +:+ ", column " +:+ dec column +:+ ")")
  end.

Definition load_config_file_at (p : fpath) : prog ConfigFile :=
  let& text := ask (ReadFile p) in
  Done (match text with
        | Ok text => if utf8 text then config_from_text p text else config_broken READ_FAILED
        | Err IoNotFound => config_default
        | Err _ => config_broken READ_FAILED
        end).

Definition load_config_file : prog ConfigFile :=
  let& path := config_file_path in
  match path with
  | Some p => load_config_file_at p
  | None => Done config_default
  end.

(** ** The starter *)

(** Apostrophes stand for quotation marks. *)
Fixpoint quoted (s : string) : string :=
  match s with
  | "" => ""
  | String a s => String (if byte_is 39 a then ascii_of_N 34 else a) (quoted s)
  end.

Definition default_json : string := quoted "{
  'redis_url': 'redis://127.0.0.1:6380/0',
  'database_url': 'postgresql://postgres@127.0.0.1:5300/redis_backend',
  'stream_key': 'agent_bus:messages',
  'channel': 'agent_bus:events',
  'presence_prefix': 'agent_bus:presence:',
  'message_table': 'agent_bus.messages',
  'presence_event_table': 'agent_bus.presence_events',
  'stream_maxlen': 100000,
  'server_host': 'localhost',
  'service_agent_id': 'agent-bus',
  'service_name': 'AgentHub',
  'startup_enabled': true,
  'startup_recipient': 'all',
  'startup_topic': 'status',
  'startup_body': 'agent-bus is up and running',
  'machine_safe': false
}

".

(** [?] on the result of a step. *)
Definition ibind {A B} (m : prog (io A)) (k : A → prog (io B)) : prog (io B) :=
  let& r := m in match r with Ok a => k a | Err e => Done (Err e) end.

(** [try_exists]. *)
Definition path_try_exists (p : fpath) : prog (io bool) :=
  let& meta := ask (Metadata p) in
  Done (match meta with Ok _ => Ok true | Err IoNotFound => Ok false | Err e => Err e end).

Definition maybe_write_default_config (p : fpath) : prog (io bool) :=
  ibind (path_try_exists p) (λ there,
    if there : bool then Done (Ok false)
    else
      let dir := match parent p with
                 | Some d => if empty_path d then components "." else d
                 | None => components "."
                 end in
      ibind (ask (CreateDirAll dir)) (λ _,
        let& created := ask (CreateNew p) in
        match created with
        | Err IoAlreadyExists => Done (Ok false)
        | Err e => Done (Err e)
        | Ok _ =>
            ibind (ask (WriteAll p default_json)) (λ _,
              ibind (ask (SyncAll p)) (λ _, Done (Ok true)))
        end)).

(** [{:?}] of an error's kind, as far as kinds are told apart here. *)
Definition kind_text (e : io_error) : string :=
  match e with IoNotFound => "NotFound" | IoAlreadyExists => "AlreadyExists" | IoOther => "Other" end.

Definition load_settings_config_reporting_at (p : fpath) : prog (ConfigFile * bool) :=
  let& r := maybe_write_default_config p in
  match r with
  | Ok created => let& cfg := load_config_file_at p in Done (cfg, created)
  | Err e =>
      Done (config_broken ("agent-bus configuration could not be initialized (" +:+ kind_text e +:+ ")"), false)
  end.

Definition load_settings_config : prog (ConfigFile * option fpath) :=
  let& path := config_file_path in
  match path with
  | None => Done (config_default, None)
  | Some p =>
      let& r := load_settings_config_reporting_at p in
      Done (r.1, if r.2 : bool then Some p else None)
  end.

Definition starter_created_notice (p : fpath) : string :=
  "agent-bus: WARNING no configuration found; wrote a local-mode starter at " +:+ path_text p +:+
  " and selected LOCAL mode (local Redis/PostgreSQL, no hub). Set server_url and auth_token there, or point AGENT_BUS_CONFIG at the real config, if this host should use a hub.".

Definition local_mode_notice (created_starter : option fpath) (hub_candidates : nat) : option string :=
  match created_starter, hub_candidates with
  | Some p, O => Some (starter_created_notice p)
  | _, _ => None
  end.

(** ** Environment, file, default *)

Definition resolve (env_key : string) (config_value : option string) (default : string) : string :=
  from_option (λ v, v) (from_option (λ v, v) default config_value) (env env_key).

Definition resolve_parse {T} (from_str : string → option T) (env_key : string) (config_value : option T)
    (default : T) : T :=
  from_option (λ v, v) (from_option (λ v, v) default config_value) (env env_key ≫= from_str).

(** [.filter(|value| !value.is_empty())]. *)
Definition non_blank (o : option string) : option string :=
  v ← o; if is_empty v then None else Some v.

Definition resolve_nonempty (env_key : string) (config_value : option string) : option string :=
  Candidates.or_else (non_blank (env env_key)) (non_blank config_value).

Definition resolve_optional_url (env_key : string) (config_value : option string) (default : string)
    : option string :=
  match env env_key with
  | Some value => if is_empty (trim value) then None else Some (trim value)
  | None => Some (from_option (λ v, v) default config_value)
  end.

Definition bool_from_str (s : string) : option bool :=
  if decide (s = "true") then Some true else if decide (s = "false") then Some false else None.

(** ** Hub candidates *)

Definition parse_candidate_json (raw : string) : result string (list CandidateSpec) :=
  let? value := ok_or "invalid candidate JSON" (unique_json raw) in parse_candidate_entries value.

Definition legacy_specs (urls : list string) : list CandidateSpec :=
  map (λ url, mkSpec url None Global [] None) urls.

(** [.map(str::trim).filter(|url| !url.is_empty())]. *)
Definition trimmed_url (o : option string) : option string := non_blank (trim <$> o).

Definition url_list (raw : string) : list string :=
  List.filter (λ u, negb (is_empty u)) (map trim (split_char "," raw)).

(** The entries of the one tier that is used. *)
Definition tier_entries (cfg : ConfigFile) (candidates list_ single : option string)
    : result string (list CandidateSpec) :=
  let listed := from_option url_list [] list_ in
  match candidates with
  | Some raw =>
      let? entries := parse_candidate_json raw in
      if bool_decide (entries = []) then Err "AGENT_BUS_SERVER_CANDIDATES must contain at least one hub"
      else Ok entries
  | None =>
      match listed, trimmed_url single, cf_server_urls cfg with
      | _ :: _, _, _ => Ok (legacy_specs listed)
      | [], Some url, _ => Ok (legacy_specs [url])
      | [], None, Some raw =>
          let? entries := parse_candidate_entries raw in
          Ok (if bool_decide (entries = []) then legacy_specs (option_list (trimmed_url (cf_server_url cfg)))
              else entries)
      | [], None, None => Ok (legacy_specs (option_list (trimmed_url (cf_server_url cfg))))
      end
  end.

(** Insertion into the [BTreeMap] of specifications. *)
Fixpoint insert_spec (key : string) (v : CandidateSpec) (m : list (string * CandidateSpec))
    : list (string * CandidateSpec) :=
  match m with
  | [] => [(key, v)]
  | (k, w) :: m' =>
      if decide (k = key) then (k, v) :: m'
      else if str_le key k then (key, v) :: (k, w) :: m'
      else (k, w) :: insert_spec key v m'
  end.

(** The loop over the entries: the specifications by URL and the URLs in order. *)
Fixpoint collect_specs (entries : list CandidateSpec) (specs : list (string * CandidateSpec))
    (urls : list string) : result string (list (string * CandidateSpec) * list string) :=
  match entries with
  | [] => Ok (specs, urls)
  | entry :: entries =>
      match List.find (λ kv, bool_decide (kv.1 = s_url entry)) specs with
      | Some (_, existing) =>
          if bool_decide (existing = entry) then collect_specs entries specs urls
          else Err "conflicting hub candidate definitions"
      | None => collect_specs entries (insert_spec (s_url entry) entry specs) (urls ++ [s_url entry])
      end
  end.

Definition resolve_candidate_tiers (cfg : ConfigFile) (candidates list_ single : option string)
    : list HubCandidate * option string :=
  match cf_configuration_error cfg with
  | Some error => ([], Some error)
  | None =>
      match (let? entries := tier_entries cfg candidates list_ single in collect_specs entries [] []) with
      | Err error => ([], Some error)
      | Ok (specs, urls) =>
          let resolved := build_candidates urls specs in
          (resolved, match validate_candidates resolved with Err e => Some e | Ok _ => None end)
      end
  end.

Definition resolve_candidate_settings (cfg : ConfigFile) : list HubCandidate * option string :=
  resolve_candidate_tiers cfg (env "AGENT_BUS_SERVER_CANDIDATES") (env "AGENT_BUS_SERVER_URLS")
    (env "AGENT_BUS_SERVER_URL").

Definition resolve_location_settings (cfg : ConfigFile) : list LocationRule * option string :=
  match cf_network_locations cfg with
  | None => ([], None)
  | Some raw => match parse_location_rules raw with
                | Ok rules => (rules, None)
                | Err error => ([], Some error)
                end
  end.

Definition resolve_hub_identity (config_value : option string) : option string :=
  identity ← resolve_nonempty "AGENT_BUS_HUB_IDENTITY" config_value;
  if valid_site_name identity then Some identity else None.

Definition candidate_urls (candidates : list HubCandidate) : list string := map url candidates.
End settings.

(** ** The settings *)

Record Settings := mkAll {
  se_redis_url : string;
  se_database_url : option string;
  se_stream_key : string;
  se_channel_key : string;
  se_presence_prefix : string;
  se_message_table : string;
  se_presence_event_table : string;
  se_stream_maxlen : Z;
  se_service_agent_id : string;
  se_service_name : string;
  se_startup_enabled : bool;
  se_startup_recipient : string;
  se_startup_topic : string;
  se_startup_body : string;
  se_server_host : string;
  se_session_id : option string;
  se_server_url : option string;
  se_server_urls : list string;
  se_hub_candidates : list HubCandidate;
  se_probe_connect_timeout_ms : Z;
  se_probe_stagger_ms : Z;
  se_hub_cache_ttl_seconds : Z;
  se_hub_config_error : option string;
  se_network_locations : list LocationRule;
  se_network_location_error : option string;
  se_hub_identity : option string;
  se_machine_safe : bool;
  se_auth_token : option string;
  se_previous_auth_token : option string;
  se_allow_remote : bool;
  se_cloud_url : option string;
  se_cloud_token_file : option string;
  se_cloud_sync_state_file : option string;
}.

(** What hub resolution reads of them. *)
Definition hub_settings (s : Settings) : HubSettings :=
  mkSettings (se_hub_candidates s) (se_server_urls s) (se_hub_config_error s) (se_auth_token s)
    (se_probe_stagger_ms s).

Definition STARTUP_BODY : string := "Agent Hub online. Protocol: (1) set_presence on start, (2) claim files via topic=ownership before editing, (3) list_messages every 2-3 calls for inbox, (4) schema=finding for findings (FINDING:+SEVERITY:), schema=status for updates, (5) batch 3-5 findings per msg, (6) COMPLETE when done. HTTP: localhost:8400. Tags: repo:<name>.".

Section from_env.
Context `{DebugFmt} `{UrlLib} `{UnicodeCase} `{ConfigText}.
Context (env : string → option string) (real_profile : option fpath).

(** Every setting of a configuration. *)
Definition settings_of (cfg : ConfigFile) : Settings :=
  let '(hub_candidates, hub_config_error) := resolve_candidate_settings env cfg in
  let '(network_locations, network_location_error) := resolve_location_settings cfg in
  let server_urls := candidate_urls hub_candidates in
  let startup_enabled_str :=
    resolve env "AGENT_BUS_STARTUP_ENABLED"
      ((λ b : bool, if b then "true" else "false") <$> cf_startup_enabled cfg) "true" in
  {| se_redis_url := resolve env "AGENT_BUS_REDIS_URL" (cf_redis_url cfg) "redis://127.0.0.1:6380/0";
     se_database_url := resolve_optional_url env "AGENT_BUS_DATABASE_URL" (cf_database_url cfg)
                          "postgresql://postgres@127.0.0.1:5300/redis_backend";
     se_stream_key := resolve env "AGENT_BUS_STREAM_KEY" (cf_stream_key cfg) "agent_bus:messages";
     se_channel_key := resolve env "AGENT_BUS_CHANNEL" (cf_channel cfg) "agent_bus:events";
     se_presence_prefix := resolve env "AGENT_BUS_PRESENCE_PREFIX" (cf_presence_prefix cfg) "agent_bus:presence:";
     se_message_table := resolve env "AGENT_BUS_MESSAGE_TABLE" (cf_message_table cfg) "agent_bus.messages";
     se_presence_event_table := resolve env "AGENT_BUS_PRESENCE_EVENT_TABLE" (cf_presence_event_table cfg)
                                  "agent_bus.presence_events";
     se_stream_maxlen := resolve_parse env parse_u64 "AGENT_BUS_STREAM_MAXLEN" (cf_stream_maxlen cfg) 100000%Z;
     se_service_agent_id := resolve env "AGENT_BUS_SERVICE_AGENT_ID" (cf_service_agent_id cfg) "agent-bus";
     se_service_name := resolve env "AGENT_BUS_SERVICE_NAME" (cf_service_name cfg) "AgentHub";
     se_startup_enabled := negb (bool_decide (startup_enabled_str = "false"));
     se_startup_recipient := resolve env "AGENT_BUS_STARTUP_RECIPIENT" (cf_startup_recipient cfg) "all";
     se_startup_topic := resolve env "AGENT_BUS_STARTUP_TOPIC" (cf_startup_topic cfg) "status";
     se_startup_body := resolve env "AGENT_BUS_STARTUP_BODY" (cf_startup_body cfg) STARTUP_BODY;
     se_server_host := resolve env "AGENT_BUS_SERVER_HOST" (cf_server_host cfg) "localhost";
     se_session_id := resolve_nonempty env "AGENT_BUS_SESSION_ID" (cf_session_id cfg);
     se_server_url := hd_error server_urls;
     se_server_urls := server_urls;
     se_hub_candidates := hub_candidates;
     se_hub_config_error := hub_config_error;
     se_network_locations := network_locations;
     se_network_location_error := network_location_error;
     se_hub_identity := resolve_hub_identity env (cf_hub_identity cfg);
     se_probe_connect_timeout_ms := resolve_parse env parse_u64 "AGENT_BUS_PROBE_CONNECT_TIMEOUT_MS"
                                      (cf_probe_connect_timeout_ms cfg) 750%Z;
     se_probe_stagger_ms := resolve_parse env parse_u64 "AGENT_BUS_PROBE_STAGGER_MS" (cf_probe_stagger_ms cfg)
                              DEFAULT_STAGGER_MS;
     se_hub_cache_ttl_seconds := resolve_parse env parse_u64 "AGENT_BUS_HUB_CACHE_TTL_SECONDS"
                                   (cf_hub_cache_ttl_seconds cfg) 60%Z;
     se_machine_safe := resolve_parse env bool_from_str "AGENT_BUS_MACHINE_SAFE" (cf_machine_safe cfg) false;
     se_auth_token := resolve_nonempty env "AGENT_BUS_AUTH_TOKEN" (cf_auth_token cfg);
     se_previous_auth_token := resolve_nonempty env "AGENT_BUS_PREVIOUS_AUTH_TOKEN" (cf_previous_auth_token cfg);
     se_allow_remote := resolve_parse env bool_from_str "AGENT_BUS_ALLOW_REMOTE" (cf_allow_remote cfg) false;
     se_cloud_url := resolve_nonempty env "AGENT_BUS_CLOUD_URL" (cf_cloud_url cfg);
     se_cloud_token_file := resolve_nonempty env "AGENT_BUS_CLOUD_TOKEN_FILE" (cf_cloud_token_file cfg);
     se_cloud_sync_state_file := resolve_nonempty env "AGENT_BUS_CLOUD_SYNC_STATE" (cf_cloud_sync_state_file cfg) |}.

(** With the line that is printed. *)
Definition from_env : prog (Settings * option string) :=
  let& loaded := load_settings_config env real_profile in
  let s := settings_of loaded.1 in
  Done (s, local_mode_notice loaded.2 (length (se_hub_candidates s))).

(** ** What is refused *)

Definition is_localhost (host : string) : bool :=
  bool_decide (to_lowercase (trim host) ∈ ["localhost"; "127.0.0.1"; "::1"; "[::1]"]).

Definition validate_localhost_url (url env_var : string) : Result unit :=
  match url_host_span url with
  | None => Ok tt
  | Some (_, _, host) =>
      if is_localhost host then Ok tt
      else Err (InvalidParams (env_var +:+ " must use localhost, got host '" +:+ host +:+ "' in '" +:+ url +:+ "'"))
  end.

Definition validate_bind (s : Settings) : Result unit :=
  if is_localhost (se_server_host s) then Ok tt
  else if negb (se_allow_remote s)
  then Err (InvalidParams ("AGENT_BUS_SERVER_HOST '" +:+ se_server_host s +:+ "' is not localhost. Set AGENT_BUS_ALLOW_REMOTE=true to bind the HTTP server to a routable interface for cross-machine access."))
  else if bool_decide (se_auth_token s = None)
  then Err (InvalidParams ("refusing to expose the bus on non-localhost interface '" +:+ se_server_host s +:+ "' without authentication: set AGENT_BUS_AUTH_TOKEN"))
  else Ok tt.

Definition validate_previous (s : Settings) : Result unit :=
  match se_previous_auth_token s, se_auth_token s with
  | None, _ => Ok tt
  | Some _, None => Err (InvalidParams "AGENT_BUS_PREVIOUS_AUTH_TOKEN requires AGENT_BUS_AUTH_TOKEN: an overlap window only extends an authenticated server")
  | Some previous, Some current =>
      if decide (current = previous)
      then Err (InvalidParams "AGENT_BUS_PREVIOUS_AUTH_TOKEN equals AGENT_BUS_AUTH_TOKEN: the rotation did not change the token")
      else Ok tt
  end.

Definition validate (s : Settings) : Result unit :=
  match se_hub_config_error s with
  | Some error => Err (InvalidParams error)
  | None =>
      if (se_probe_connect_timeout_ms s =? 0)%Z || (30000 <? se_probe_connect_timeout_ms s)%Z
      then Err (InvalidParams "probe_connect_timeout_ms must be between 1 and 30000")
      else if (5000 <? se_probe_stagger_ms s)%Z
      then Err (InvalidParams "probe_stagger_ms must be at most 5000")
      else
        let? _ := map_err InvalidParams (validate_candidates (effective_hub_candidates (hub_settings s))) in
        let? _ := validate_localhost_url (se_redis_url s) "AGENT_BUS_REDIS_URL" in
        let? _ := match se_database_url s with
                  | Some db_url => validate_localhost_url db_url "AGENT_BUS_DATABASE_URL"
                  | None => Ok tt
                  end in
        let? _ := validate_bind s in
        let? _ := validate_previous s in
        let? _ := validate_identifier (se_stream_key s) "AGENT_BUS_STREAM_KEY" in
        let? _ := validate_identifier (se_channel_key s) "AGENT_BUS_CHANNEL" in
        let? _ := validate_identifier (se_presence_prefix s) "AGENT_BUS_PRESENCE_PREFIX" in
        let? _ := validate_identifier (se_message_table s) "AGENT_BUS_MESSAGE_TABLE" in
        let? _ := validate_identifier (se_presence_event_table s) "AGENT_BUS_PRESENCE_EVENT_TABLE" in
        validate_identifier (se_service_name s) "AGENT_BUS_SERVICE_NAME"
  end.

Definition log_non_fatal_warnings (s : Settings) : bool := negb (se_machine_safe s).
End from_env.
