(* ===== verification/SettingsProps.v ===== *)
(** * SettingsProps: what validated settings guarantee

    A configuration that could not be read, parsed or begun is refused, never replaced by
    defaults; an existing file is never changed; and what the checks of URLs let pass. *)

From Stdlib Require Import ZArith Lia Ascii.
From stdpp Require Import base option list strings.
From S2P Require Import Prelude Str Json Validation ClaimTypes Outbox HubTypes NetLocation LinkRoute.
From S2P Require Import Candidates Redis Channels Messages StreamEntry ReplayScript OutboxHub PgStore Hub Programs.
From S2P Require Import Settings.

(** ** Candidates of a configuration *)

Lemma insert_spec_keys key v m k : k ∈ map fst (insert_spec key v m) ↔ k = key ∨ k ∈ map fst m.
Proof.
  induction m as [|[k' w] m IH]; simpl; [rewrite elem_of_cons; tauto|].
  case_decide; [subst; simpl; rewrite !elem_of_cons; tauto|].
  destruct (str_le key k'); simpl; rewrite !elem_of_cons; [tauto|]. rewrite IH. tauto.
Qed.

Lemma find_key_none m k : List.find (λ kv : string * CandidateSpec, bool_decide (kv.1 = k)) m = None →
  k ∉ map fst m.
Proof.
  intros Hf (kv & -> & Hin)%list_elem_of_fmap. eapply List.find_none in Hf; [|by apply list_elem_of_In].
  simpl in Hf. by rewrite bool_decide_eq_true_2 in Hf.
Qed.

(** The URLs are those of the specifications, each once. *)
Lemma collect_specs_ok entries : ∀ specs urls specs' urls',
  NoDup urls → (∀ u, u ∈ urls ↔ u ∈ map fst specs) →
  collect_specs entries specs urls = Ok (specs', urls') → NoDup urls'.
Proof.
  induction entries as [|e entries IH]; intros specs urls specs' urls' Hnd Heq; cbn [collect_specs].
  { by intros [= _ <-]. }
  destruct (List.find _ specs) as [[k w]|] eqn:Ef.
  - case_bool_decide; [|done]. by apply IH.
  - apply find_key_none in Ef. apply IH.
    + apply NoDup_app. split_and!; [done| |apply NoDup_singleton].
      intros u Hu ->%list_elem_of_singleton. by apply Ef, Heq.
    + intros u. rewrite elem_of_app, list_elem_of_singleton, insert_spec_keys, Heq. tauto.
Qed.

Section props.
Context `{DebugFmt} `{UrlLib} `{UnicodeCase} `{ConfigText}.
Context (env : string → option string) (real_profile : option fpath).

Lemma build_urls urls specs : map url (build_candidates urls specs) = urls.
Proof.
  unfold build_candidates, enumerate. generalize 0. induction urls as [|u urls IH]; intros n; [done|].
  simpl. by rewrite IH.
Qed.

Lemma resolved_candidates cfg cs : resolve_candidate_settings env cfg = (cs, None) →
  cf_configuration_error cfg = None ∧ validate_candidates cs = Ok tt ∧ NoDup (map url cs).
Proof.
  unfold resolve_candidate_settings, resolve_candidate_tiers.
  destruct (cf_configuration_error cfg) as [e|]; [done|].
  destruct (rbind _ _) as [[specs urls]|e] eqn:E; [|done].
  destruct (validate_candidates _) as [[]|e] eqn:Ev; [|done]. intros [= <-]. split_and!; [done|done|].
  apply rbind_Ok in E as (entries & _ & Hc). rewrite build_urls.
  eapply collect_specs_ok; [..|exact Hc]; [constructor|done].
Qed.

(** ** The checks *)

Lemma nonempty_resolved key o t : resolve_nonempty env key o = Some t → t ≠ "".
Proof.
  assert (∀ o t, non_blank o = Some t → t ≠ "") as Hb by (by intros [[]|] ? [= <-]).
  unfold resolve_nonempty, Candidates.or_else. destruct (non_blank (env key)) as [v|] eqn:E.
  - intros [= <-]. by eapply Hb.
  - apply Hb.
Qed.

(** A URL with a host has a local one. *)
Definition local_url (u : string) : Prop :=
  ∀ first last host, url_host_span u = Some (first, last, host) → is_localhost host = true.

Lemma validate_url_ok u v : validate_localhost_url u v = Ok tt → local_url u.
Proof.
  unfold validate_localhost_url, local_url. intros Hv first last host E. rewrite E in Hv.
  by destruct (is_localhost host).
Qed.

Lemma validate_ok s : validate s = Ok tt →
  se_hub_config_error s = None ∧ local_url (se_redis_url s) ∧
  (∀ u, se_database_url s = Some u → local_url u) ∧
  (is_localhost (se_server_host s) = true ∨ se_allow_remote s = true ∧ is_Some (se_auth_token s)) ∧
  (∀ previous, se_previous_auth_token s = Some previous →
    ∃ token, se_auth_token s = Some token ∧ token ≠ previous).
Proof.
  unfold validate. destruct (se_hub_config_error s); [done|]. destruct (_ || _); [done|].
  destruct (_ <? _)%Z; [done|].
  intros ([] & _ & ([] & Hr%validate_url_ok & ([] & Hd & ([] & Hb & ([] & Hp & _)%rbind_Ok)%rbind_Ok)%rbind_Ok)%rbind_Ok)%rbind_Ok.
  split_and!; [done|done| | |].
  - intros u E. rewrite E in Hd. by eapply validate_url_ok.
  - unfold validate_bind in Hb. destruct (is_localhost _); [by left|right].
    destruct (se_allow_remote s); [|done]. simpl in Hb. case_bool_decide; [done|].
    split; [done|]. by apply not_eq_None_Some.
  - intros p E. unfold validate_previous in Hp. rewrite E in Hp. destruct (se_auth_token s) as [t|]; [|done].
    case_decide; [done|]. by exists t.
Qed.

(** ** Reading *)

(** Where a configuration came from. *)
Definition loaded_from (log : list event) (cfg : ConfigFile) : Prop :=
  (cfg = config_default ∧ ∀ p a, did (ReadFile p) a ∈ log → a = Err IoNotFound) ∨
  ∃ p text c, did (ReadFile p) (Ok text) ∈ log ∧ config_of_text text = Ok c ∧ cfg = config_from_text p text.

(** Calls that read no file. *)
Definition unread (c : call) : Prop := match c with ReadFile _ => False | _ => True end.

Definition read_of (ev : event) : option (io string) :=
  match ev with existT (ReadFile _) a => Some a | _ => None end.

Lemma unread_log log : Forall (λ ev : event, unread (projT1 ev)) log → ∀ p a, did (ReadFile p) a ∉ log.
Proof. intros Hl p a Hin. rewrite Forall_forall in Hl. by specialize (Hl _ Hin). Qed.

Lemma calls_probe (P : call → Prop) p : (∀ q, P (Metadata q)) → calls P (probe_config_path p).
Proof.
  intros HP. apply calls_bind; [by apply (calls_ask P (Metadata p))|]. intros [b|[]]; try apply calls_done.
  generalize (ancestors p). intros l. induction l as [|a l IH]; cbn [probe_ancestors]; [apply calls_done|].
  destruct (empty_path a); [apply calls_done|]. apply calls_bind; [by apply (calls_ask P (Metadata a))|].
  intros [[]|[]]; try apply calls_done. exact IH.
Qed.

Lemma calls_config_path (P : call → Prop) : (∀ q, P (Metadata q)) → calls P (config_file_path env real_profile).
Proof.
  intros HP. assert (∀ home, calls P (resolve_default_config_path home real_profile probe_config_path)) as Hd.
  { intros home. unfold resolve_default_config_path. destruct home as [home|], real_profile as [rp|]; cbn [fmap option_fmap option_map].
    - case_decide; [apply calls_done|]. apply calls_bind; [by apply calls_probe|]. intros r.
      destruct (there_or_failed r); [apply calls_done|]. apply calls_bind; [by apply calls_probe|].
      intros. apply calls_done.
    - apply calls_done.
    - apply calls_bind; [by apply calls_probe|]. intros. apply calls_done.
    - apply calls_done. }
  unfold config_file_path. destruct (env "AGENT_BUS_CONFIG") as [c|]; [|apply Hd].
  destruct (negb _); [apply calls_done|apply Hd].
Qed.

Lemma starter_unread p : calls unread (maybe_write_default_config p).
Proof. unfold maybe_write_default_config, path_try_exists, ibind. through. Qed.

Lemma load_ok log cfg created : runs_as (load_settings_config env real_profile) log (Some (cfg, created)) →
  cf_configuration_error cfg = None → loaded_from log cfg.
Proof.
  intros Hr Hok. unfold load_settings_config in Hr.
  apply runs_pbind_ok in Hr as (l1 & l2 & path & -> & Hp & Hr).
  assert (∀ p a, did (ReadFile p) a ∉ l1) as N1.
  { apply unread_log. eapply calls_config_path; [|exact Hp]. done. }
  destruct path as [p|]; [|apply runs_done in Hr as [-> Hr]; simpl in Hr; simplify_eq; left; split; [done|];
    intros p a; rewrite app_nil_r; intros Hin; by apply N1 in Hin].
  apply runs_pbind_ok in Hr as (l3 & l4 & [cfg' c'] & -> & Hl & Hr).
  apply runs_done in Hr as [-> Hr]. simpl in Hr. simplify_eq. unfold load_settings_config_reporting_at in Hl.
  apply runs_pbind_ok in Hl as (l5 & l6 & r & -> & Hw & Hl).
  assert (∀ p a, did (ReadFile p) a ∉ l5) as N5 by (apply unread_log; eapply starter_unread; exact Hw).
  destruct r as [c2|e]; [|apply runs_done in Hl as [-> Hl]; simpl in Hl; simplify_eq; by simpl in Hok].
  apply runs_pbind_ok in Hl as (l7 & l8 & cfg2 & -> & Hload & Hl).
  apply runs_done in Hl as [-> Hl]. simpl in Hl. simplify_eq. unfold load_config_file_at in Hload.
  apply runs_pbind_ok in Hload as (l9 & l10 & t & -> & Ht & Hload).
  apply (runs_ask_ok (ReadFile p)) in Ht as ->. apply runs_done in Hload as [-> Hload]. simpl in Hload.
  destruct t as [text|e].
  - right. exists p, text. destruct (utf8 text); [|by subst].
    subst. unfold config_from_text in Hok |- *. destruct (config_of_text text) as [c|[]] eqn:Ec; [|done].
    exists c. split_and!; [|done|done]. rewrite !elem_of_app, !elem_of_cons. tauto.
  - destruct e; try (by subst). left. split; [done|]. intros q a Hin.
    rewrite !elem_of_app, list_elem_of_singleton, !elem_of_nil in Hin.
    destruct Hin as [Hin|[[Hin|[[Hin|[]]|[]]]|[]]]; [by apply N1 in Hin|by apply N5 in Hin|].
    apply (f_equal read_of) in Hin. by injection Hin.
Qed.

(** C36. Settings that validate come from a configuration that was read and parsed, or from
    the defaults when no file was there: one that cannot be begun, read or parsed is
    refused. Their hubs are valid candidates, each URL once, [server_url] the first. Redis
    and the database have a local host where their URLs name one; the server is bound
    locally, or has a token; and a previous token extends another, current one. *)
Theorem validated_settings log s notice :
  runs_as (from_env env real_profile) log (Some (s, notice)) → validate s = Ok tt →
  (∃ cfg, s = settings_of env cfg ∧ loaded_from log cfg) ∧
  validate_candidates (se_hub_candidates s) = Ok tt ∧ se_server_urls s = map url (se_hub_candidates s) ∧
  NoDup (se_server_urls s) ∧ se_server_url s = hd_error (se_server_urls s) ∧
  local_url (se_redis_url s) ∧ (∀ u, se_database_url s = Some u → local_url u) ∧
  (is_localhost (se_server_host s) = true ∨
   se_allow_remote s = true ∧ ∃ token, se_auth_token s = Some token ∧ token ≠ "") ∧
  (∀ previous, se_previous_auth_token s = Some previous →
    ∃ token, se_auth_token s = Some token ∧ token ≠ previous).
Proof.
  intros Hr Hv. unfold from_env in Hr. apply runs_pbind_ok in Hr as (l1 & l2 & [cfg created] & -> & Hl & Hr).
  apply runs_done in Hr as [-> Hr]. rewrite app_nil_r. cbn [from_option] in Hr. injection Hr as -> _.
  apply validate_ok in Hv as (He & Hredis & Hdb & Hbind & Hprev).
  destruct (resolve_candidate_settings env cfg) as [cs e] eqn:Ec.
  assert (se_hub_config_error (settings_of env cfg) = e ∧ se_hub_candidates (settings_of env cfg) = cs ∧
    se_server_urls (settings_of env cfg) = map url cs ∧
    se_server_url (settings_of env cfg) = hd_error (map url cs) ∧
    se_auth_token (settings_of env cfg) = resolve_nonempty env "AGENT_BUS_AUTH_TOKEN" (cf_auth_token cfg))
    as (E1 & E2 & E3 & E4 & E5).
  { unfold settings_of. rewrite Ec. by destruct (resolve_location_settings cfg). }
  rewrite E1 in He. subst e. apply resolved_candidates in Ec as (Hcfg & Hcs & Hnd).
  rewrite E2, E3, E4. split_and!; try done.
  - exists cfg. split; [done|by eapply load_ok].
  - destruct Hbind as [?|[? [t Ht]]]; [by left|right]. split; [done|]. exists t. split; [done|].
    rewrite E5 in Ht. by eapply nonempty_resolved.
Qed.

(** ** What is written *)

(** Calls that change no file that was there. *)
Definition fresh_only (c : call) : Prop :=
  effect_of c = Looks ∨ (∃ d, c = CreateDirAll d) ∨ ∃ q, c = CreateNew q.

Lemma fresh_look c : effect_of c = Looks → fresh_only c.
Proof. by left. Qed.

Lemma starter_event p l1 c a l2 r : ¬ fresh_only c →
  runs_as (maybe_write_default_config p) (l1 ++ did c a :: l2) r →
  (∃ l l', l1 = l ++ did (CreateNew p) (Ok tt) :: l') ∧ (c = WriteAll p default_json ∨ c = SyncAll p).
Proof.
  intros Hc Hr. unfold maybe_write_default_config, path_try_exists in Hr. unfold ibind at 1 in Hr.
  apply (event_after_bind fresh_only) in Hr as (la & there & l3 & -> & _ & _ & Hr); [| |done].
  2: { apply calls_bind; [|intros; apply calls_done]. by apply (calls_ask _ (Metadata p)), fresh_look. }
  destruct there as [[]|]; [by apply runs_done in Hr as [E _]; destruct l3| |by apply runs_done in Hr as [E _]; destruct l3].
  unfold ibind at 1 in Hr. set (d := match parent p with Some _ => _ | None => _ end) in Hr.
  apply (event_after_bind fresh_only) in Hr as (lb & made & l4 & -> & _ & _ & Hr); [| |done].
  2: { apply (calls_ask _ (CreateDirAll d)). right. left. by exists d. }
  destruct made as [[]|]; [|by apply runs_done in Hr as [E _]; destruct l4].
  apply (event_after_bind fresh_only) in Hr as (lc & created & l5 & -> & Hcr & _ & Hr); [| |done].
  2: { apply (calls_ask _ (CreateNew p)). right. right. by exists p. }
  apply (runs_ask_ok (CreateNew p)) in Hcr as ->.
  destruct created as [[]|[]]; try (by apply runs_done in Hr as [E _]; destruct l5).
  split; [by exists (la ++ lb), l5; rewrite <- !app_assoc|].
  assert (calls (λ c, c = WriteAll p default_json ∨ c = SyncAll p)
    (ibind (ask (WriteAll p default_json)) (λ _ : unit, ibind (ask (SyncAll p)) (λ _ : unit, Done (Ok true))))) as Hb.
  { apply calls_bind; [apply (calls_ask _ (WriteAll _ _)); by left|]. intros []; [|apply calls_done].
    apply calls_bind; [apply (calls_ask _ (SyncAll _)); by right|]. intros []; apply calls_done. }
  apply Hb, Forall_app in Hr as [_ Hr]. by inversion Hr.
Qed.

Lemma fresh_only_em c : fresh_only c ∨ ¬ fresh_only c.
Proof.
  unfold fresh_only. destruct (decide (effect_of c = Looks)) as [E|E]; [by left; left|].
  destruct c; try (left; right; eauto; fail); right; intros [?|[[? ?]|[? ?]]]; congruence.
Qed.

Lemma settings_event l1 c a l2 r : ¬ fresh_only c →
  runs_as (load_settings_config env real_profile) (l1 ++ did c a :: l2) r →
  ∃ p l l', l1 = l ++ did (CreateNew p) (Ok tt) :: l' ∧ (c = WriteAll p default_json ∨ c = SyncAll p).
Proof.
  intros Hc Hr. unfold load_settings_config in Hr.
  apply (event_after_bind fresh_only) in Hr as (la & path & l3 & -> & _ & _ & Hr); [| |done].
  2: { apply calls_config_path. by left. }
  destruct path as [p|]; [|by apply runs_done in Hr as [E _]; destruct l3].
  apply (event_before fresh_only) in Hr as (l4 & r' & Hr); [|intros; apply calls_done|done].
  unfold load_settings_config_reporting_at in Hr.
  apply (event_before fresh_only) in Hr as (l5 & r2 & Hr); [| |done].
  2: { intros [created|e]; [|apply calls_done]. apply calls_bind; [|intros; apply calls_done].
       apply calls_bind; [by apply (calls_ask _ (ReadFile p)), fresh_look|intros; apply calls_done]. }
  apply starter_event in Hr as [(l & l' & ->) ?]; [|done]. exists p, (la ++ l), l'. by rewrite <- app_assoc.
Qed.

(** C37. Making settings changes nothing that was there: it makes directories, and one file,
    only where none was; and it writes nothing but the starter, into the file it made. *)
Theorem starter_exclusive l1 c a l2 r :
  runs_as (from_env env real_profile) (l1 ++ did c a :: l2) r →
  fresh_only c ∨
  ∃ p l l', l1 = l ++ did (CreateNew p) (Ok tt) :: l' ∧ (c = WriteAll p default_json ∨ c = SyncAll p).
Proof.
  intros Hr. destruct (fresh_only_em c) as [Hc|Hc]; [by left|right].
  apply (event_before fresh_only) in Hr as (l3 & r' & Hr); [|intros; apply calls_done|done].
  by eapply settings_event.
Qed.
End props.

(** ** What the checks let pass

    A URL is checked by the text up to the first colon after its user: further hosts of a
    PostgreSQL URL are not seen, and a connection string without a scheme is not checked
    at all. *)

Example remote_databases_pass `{UnicodeCase} v :
  validate_localhost_url "postgresql://postgres@localhost:5432,db.example.com:5432/bus" v = Ok tt ∧
  validate_localhost_url "host=db.example.com user=postgres dbname=bus" v = Ok tt ∧
  loopback_url_candidates "postgresql://postgres@localhost:5432,db.example.com:5432/bus" =
    ["postgresql://postgres@127.0.0.1:5432,db.example.com:5432/bus";
     "postgresql://postgres@[::1]:5432,db.example.com:5432/bus";
     "postgresql://postgres@localhost:5432,db.example.com:5432/bus"].
Proof.
  split_and!; [|done|done]. unfold validate_localhost_url.
  change (url_host_span _) with (Some (22, 31, "localhost")). cbv iota beta. unfold is_localhost.
  change (trim "localhost") with "localhost". by rewrite to_lowercase_ascii.
Qed.

(** ** At a home without a configuration *)

Definition starter_text : ConfigText :=
  {| config_of_text s := if decide (s = default_json) then Ok config_default else Err (1%Z, 0%Z);
     unique_json _ := None |}.

#[local] Existing Instances plain_debug plain_urls ascii_case starter_text.

Definition home_env (key : string) : option string := if decide (key = "HOME") then Some "/h" else None.

(** The file, if there is one. *)
Definition home_answers (c : call) (s : option string) : answer c * option string :=
  match c with
  | ReadFile _ => (ok_or IoNotFound s, s)
  | Metadata p => (if decide (file_name p = Some "config.json")
                   then match s with Some _ => Ok false | None => Err IoNotFound end else Ok true, s)
  | IsFile _ | IsDir _ | Exists _ | TryLock _ => (false, s)
  | IsSymlink _ => (Ok false, s)
  | Canonicalize p => (Ok p, s)
  | CreateNew _ => match s with Some _ => (Err IoAlreadyExists, s) | None => (Ok tt, Some "") end
  | WriteAll _ t => (Ok tt, (λ u, u +:+ t) <$> s)
  | CreateDirAll _ | CopyFile _ _ | OpenExisting _ | SyncAll _ | Rename _ _ | RemoveFile _ => (Ok tt, s)
  | Unlock _ => (tt, s)
  | Entropy _ => (None, s)
  | NewUuid => ("", s)
  | Now => (0%Z, s)
  | Invoke _ _ _ _ => (None, s)
  | HttpGet _ _ => (None, s)
  end.

Definition first_run : Settings * option string * option string * list event :=
  serve home_answers (from_env home_env None) None.

Example first_run_starts :
  validate first_run.1.1.1 = Ok tt ∧ first_run.1.2 = Some default_json ∧
  is_Some first_run.1.1.2 ∧ se_redis_url first_run.1.1.1 = "redis://127.0.0.1:6380/0".
Proof. vm_compute. split_and!; eauto. Qed.

Definition first_settings : Settings := first_run.1.1.1.
Definition first_log : list event := first_run.2.

Lemma first_runs :
  runs_as (from_env home_env None) first_log (Some (first_settings, first_run.1.1.2)).
Proof.
  assert ((first_settings, first_run.1.1.2) = first_run.1.1) as -> by (unfold first_settings; by destruct (first_run.1.1)).
  unfold first_log, first_run. exact (serve_runs home_answers _ None).
Qed.

Lemma validated_settings_witness :
  validate first_settings = Ok tt ∧
  (∃ cfg, first_settings = settings_of home_env cfg ∧ loaded_from first_log cfg) ∧
  local_url (se_redis_url first_settings).
Proof.
  assert (validate first_settings = Ok tt) as Hv by (vm_compute; reflexivity).
  destruct (validated_settings home_env None first_log first_settings (first_run.1.1.2) first_runs Hv)
    as (Hc & _ & _ & _ & _ & Hl & _).
  split; [exact Hv|split; [exact Hc|exact Hl]].
Defined.

Definition starter_path : fpath := config_path_under (components "/h").

(** The run up to the writing of the starter, and after it. *)
Definition before_starter : list event := take 3 first_log.
Definition after_starter : list event := drop 4 first_log.

Lemma first_parts :
  runs_as (from_env home_env None)
    (before_starter ++ did (WriteAll starter_path default_json) (Ok tt) :: after_starter)
    (Some (first_settings, first_run.1.1.2)).
Proof.
  assert (before_starter ++ did (WriteAll starter_path default_json) (Ok tt) :: after_starter = first_log) as ->
    by (vm_compute; reflexivity). apply first_runs.
Qed.

Lemma starter_exclusive_witness :
  ∃ l l', before_starter = l ++ did (CreateNew starter_path) (Ok tt) :: l'.
Proof.
  destruct (starter_exclusive home_env None before_starter (WriteAll starter_path default_json) (Ok tt) after_starter
    _ first_parts) as [[E|[[d E]|[q E]]]|(p & l & l' & El & E)]; [discriminate..|].
  assert (starter_path = p) as -> by (destruct E as [E|E]; [by injection E|discriminate]).
  exists l, l'. exact El.
Defined.

(** The starter is written in place: when that fails halfway the part stays, and every later
    start is refused. *)

Definition cut_home (c : call) : option string → answer c * option string :=
  match c with
  | WriteAll _ t => λ s, (Err IoOther, (λ u, u +:+ String.substring 0 10 t) <$> s)
  | c => home_answers c
  end.

Definition cut_start : Settings * option string * option string * list event :=
  serve cut_home (from_env home_env None) None.

Example cut_starter_refuses :
  is_ok (validate cut_start.1.1.1) = false ∧
  validate (serve home_answers (from_env home_env None) cut_start.1.2).1.1.1 =
    Err (InvalidParams "invalid agent-bus configuration (line 1, column 0)").
Proof. vm_compute. split; reflexivity. Qed.
